(* ===== verification/_CoqProject ===== *)
-Q . S2P
Prelude.v
Types.v
Stream.v
Graph.v
Dsu.v
View.v
RoutingBase.v
Forest.v
ForestInv.v
Compaction.v
CompactionInv.v
FoldInv.v
ForestProps.v
Members.v
MembersInv.v
Bytes.v
Filter.v
TierPolicy.v
Varint.v
Blocked.v
BlockedRead.v
Registry.v
MemberIndex.v
Decimal.v
Codec.v
CodecInv.v
CodecProps.v
PairTable.v
PairTableInv.v
Puffin.v
PuffinBase.v
Layered.v
Compact.v
PuffinSample.v
PuffinBlobs.v
PuffinBaseInv.v
PuffinServe.v
PuffinProps.v
LayeredInv.v
LayeredServe.v
LayeredProps.v
MembersProps.v
CompactInv.v
CompactProps.v
ObjectStore.v
Conformance.v
ConformanceProps.v
Catalog.v
CatalogInv.v
CatalogProps.v
CatalogLatest.v
Retention.v
RetentionProps.v
Buffer.v
Pipeline.v
Log.v
LogInv.v
LogProps.v
Serve.v
ServeProps.v
Simulator.v
LocalRuns.v
LocalRunsInv.v
Flush.v
FlushNames.v
FlushInv.v
FlushTick.v
FlushBatch.v
FlushTable.v
FlushProps.v
FlushMerge.v
FlushLife.v
FlushRam.v
FlushFindings.v
Start.v
StartProps.v
History.v
Lease.v
