(* ===== verification/Prelude.v ===== *)
(** * blaze: a verification of the scoped connected-components engine

    blaze ingests a stream of edges, each visible to everybody or to a few scopes,
    and answers, for a scope, which nodes are connected. [src/core] keeps the
    live state: a shared union-find and one overlay per scope over it, on top of
    a read-only base; [src/storage] writes that state to Puffin files (tables,
    registry, filters, member indexes) and serves it back from a memory mapping.

    ** Files

    Shared:
    - [Prelude]: wrap-around arithmetic at 64 bits, results, sorted lists, the
      hint database [blaze];
    - [Bytes]: byte strings, little-endian words, slices that may be out of range;
      [Decimal]: the decimal text of scope ids.

    The engine ([src/core]):
    - [Types] is [types.rs]; [Stream] is [stream.rs] (positions over partitions);
    - [Graph] is the abstract specification: edges, connectivity, the least node
      of a component;
    - [Dsu] is [dsu.rs]: [find], [find_ro], [union], snapshots, and compressions
      that race with each other and with a union, as a step relation;
    - [View] relates a base's root function, a memtable's root function and their
      composition;
    - [RoutingBase] is [base.rs]: the trait as a record, its laws as classes;
    - [Forest] is [scoped.rs], write path and queries: [apply], [apply_global] with
      its registry fix-ups, [apply_scoped], [scope_root], [connected];
    - [Compaction] is [scoped.rs], the rest: the stream of [compact_locked] and
      [stream_memtable], snapshots, [hydrate], [compact_and_fold], [fold_delta],
      [swap_base];
    - [ForestInv], [CompactionInv] and [FoldInv] hold the invariant of the forest, what
      a stream denotes, and the step relation [forest_step] of everything that
      can happen to a forest; [ForestProps] states the consequences;
    - [Members] is the member walk of [scoped.rs]; [MembersInv] what a walk returns and
      the invariant of the child lists, [MembersProps] the query, also through the disk.

    The disk ([src/storage]):
    - [Filter] is [filter.rs]; [TierPolicy] is [tier.rs];
    - [Varint], [Blocked], [BlockedRead] and [Registry] are [registry.rs]: varints, the
      block writer, the parser, lookup and iteration; [MemberIndex] is
      [members.rs], which shares that layout;
    - [Codec] is [codec.rs]: the snapshot writer, the streaming [BlobWriter] and the
      reader; [CodecInv] and [CodecProps] its correctness;
    - [PairTable] is the tables and sparse indexes of [base.rs]; [PairTableInv] their
      searches;
    - [Puffin] is [puffin.rs], the container;
    - [PuffinBase] is the rest of [base.rs]: opening a run, lookups and sweeps;
      [PuffinSample] (index sampling), [PuffinBlobs] (each payload in place),
      [PuffinBaseInv] (opening), [PuffinServe] (what the tables answer) and
      [PuffinProps] its correctness;
    - [Layered] is [layered.rs], the stack of runs; [LayeredInv], [LayeredServe] and
      [LayeredProps] its correctness;
    - [Compact] is [compact.rs], merging a stretch of the stack; [CompactInv] and
      [CompactProps] its correctness.

    The table and its workers ([src/storage], [src/ingest], [src/ha], [src/api],
    [src/grpc], [src/main.rs]):
    - [ObjectStore] is the interface of the [object_store] crate: operations and laws
      as classes, the effect monad [io], an in-memory instance;
    - [Conformance] is [conformance.rs], the probe for put-if-absent, with concurrent
      creates as one more operation of the store; [ConformanceProps] what it accepts;
    - [Catalog] is [catalog.rs] over that interface; [CatalogInv] (run sets, paths),
      [CatalogProps] (commits, races) and [CatalogLatest] (finding the newest);
    - [Retention] is [retention.rs]; [RetentionProps] what a sweep deletes;
    - [Buffer] is [ingest/buffer.rs]; [Pipeline] is [ingest/pipeline.rs]; [Log] is
      [ingest/log.rs], files and directories of partitions and the consumer loop, with
      [LogInv] and [LogProps];
    - [Serve] is [api/mod.rs] and [grpc/mod.rs], the handlers of both protocols over the
      state they share; [ServeProps] what they answer;
    - [Simulator] is [ingest/source.rs] on the channel they share, and the log generator of
      [examples/edge_log.rs];
    - [LocalRuns] is the worker's own stack of [flush.rs] (names, spans, splicing);
      [LocalRunsInv] its run sets;
    - [Flush] is the rest of [flush.rs]: folds, merges, the tick, cold starts;
      [FlushNames] the names of its files and objects, [FlushInv], [FlushTick] and
      [FlushProps] its correctness for a worker on disk, [FlushBatch] where a batch can
      stop when requests fail, [FlushTable] what a tick and a sweep do to the table,
      [FlushMerge] the adoption of background merges, [FlushLife] what every step of a
      leader keeps, in step with the catalog or adrift after a lost commit, [FlushRam] the
      tick of a worker that serves from memory, [FlushFindings] four runs of it that do
      not do what they are meant to;
    - [Start] is [main.rs] up to the spawning of its tasks, which composes the probe, the
      cold start, the catalog and the log; [StartProps] what a started worker resumes;
    - [History] is the table over its life, as a step relation: leaders that ingest, tick,
      merge, sweep, crash and are replaced;
    - [Lease] is [ha/mod.rs] and [ha/kube_lease.rs], as a step relation of candidates,
      API server and clock.

    ** How the code is modelled

    Ids are [N], kept at their width where the code can wrap ([⊞], [⊟], [⊠] are the
    wrapping operations of a release build; counters wrap too). Maps are [gmap],
    a [BTreeMap]'s order is [sorted_keys]. Locked state is passed explicitly; a
    query that compresses paths returns the changed state. Errors are values of
    [result]; a panic is [None] or a constructor of the error type, never a
    default. Callbacks that receive pairs are the list of pairs they receive.
    Bytes are [N] below 256 ([byte_ok]). The mapping and the file behind it are one
    byte string, as the file is immutable.

    The union-find bounds a walk by the number of links plus one; parents are
    strictly below their children in every reachable state, so the bound is never
    reached ([dsu_reachable_invariant]). Binary searches carry the width of their
    range, the index pass the length of the span it reads, varints ten bytes, the
    member walk its cap ([members_exact]), the consumer loop its number of turns, one more
    than there are records being enough to drain a log that is not followed
    ([replay_exact]), the
    registry iterator a bound from the length of the mapping
    ([registry_iter_terminates]), the catalog's forward probe the number of objects
    ([latest_terminates]), the closure of a sweep the number of sequences it can name
    ([retention_keeps_reachable]); each of these is proved to be enough.

    Code outside the repository is a parameter. [serde_json], which writes and reads the
    Puffin footer and the snapshot metadata, is two pairs of functions with the
    hypothesis that reading gives back what was written; the object store is the class
    [ObjectStore] with the laws its documentation gives, requests allowed to fail and to
    take effect or not; the Parquet writer and the UUID generator are functions; the Arrow
    sort is the class [EdgeSort]; the Kubernetes API is [server_step]; decoding a record
    of the log and [Path::from] are functions; the random number generator of the simulator
    is the class [Rng]; a request reaches its handler decoded by the
    HTTP or gRPC framework. The witnesses
    instantiate all of them. Local files are a map from names to bytes and writing them
    succeeds. A background merge reads the layers it was given when it was started and
    ends in a step of its own.

    ** What is shown

    - The forest refines the graph of visible edges ([forest_refines_visible_graph]):
      after any interleaving of writes, queries, folds, swaps, snapshots and
      restarts, two nodes are connected for a scope exactly when visible edges
      connect them, and the root is the least node. Order and repetition of
      events do not matter, scopes do not see each other, folds and restarts
      change no answer.
    - The contract a base must meet ([base_encodes], [BaseRoots]) is discharged for
      the disk: a run written by compaction and mapped again answers exactly the
      snapshot, with every encoding and with any optional blob missing
      ([opened_run_answers]), so a fold through a file changes no answer
      ([fold_through_disk]); its member index lists exactly the nodes that record a
      parent ([opened_run_children]); both writers agree byte for byte.
    - The same for a stack of runs: a delta fold pushed on it ([delta_encodes] and
      [base_replaces] discharged, [delta_fold_through_disk]) and a merge of any stretch
      of it ([merge_through_disk]) change no answer.
    - Each format round-trips, each optimised routine equals its plain one (blocked
      registry, narrowed lookups, streamed index sampling), and reading untrusted
      bytes is characterised, panics included.
    - A leader's tick on a store that answers commits what it serves, and a worker that
      starts cold from the store answers as the leader did ([tick_then_cold_start], and
      [ram_tick_then_cold_start] without a directory, the first commit included); the
      run sets it commits are ones the catalog accepts, exactly when its stack ends below
      the commit ([delta_run_set_iff]).
    - Failover loses nothing ([failover_exact], [ram_failover_exact]): after that tick a
      worker that has only the store, the log and its arguments starts, resumes after the
      committed position and answers for the whole log; it refuses the offsets of another stream
      ([foreign_stream_refused]). Replaying a log from a position applies every later
      record once ([replay_exact]), and redelivery changes nothing
      ([redelivery_harmless]).
    - So does a whole history ([history_exact]): however ingest, queries, ticks, background
      merges, retention sweeps, crashes and restarts interleave, and whichever requests of a
      tick fail, the leader answers for what it ingested, a tick that fits succeeds when
      its requests do, and a crash leaves a table from which the next worker recovers the
      whole log. Requests that fail may have taken effect, commits excepted ([CleanStore]):
      a commit whose answer is lost can leave a table no worker can open
      ([unheard_adoption_unreadable]).
    - Both protocols answer alike ([rest_grpc_agree]); accepted edges are queued, then
      served ([api_serves_injections]); what is kept and sent is at its width
      ([serving_typed]); a member request ends within its cap ([api_members_bounded]), as
      the walk returns the component or exactly cap nodes of it ([members_exact]), from
      memory and from indexed runs ([members_through_disk]). Simulated traffic takes the
      same way ([simulated_traffic_served]), and a generated log reads back
      ([generated_log_replays]).
    - A store whose creates do not arbitrate is refused at start-up, whatever it is
      ([started_store_arbitrated]); one that does passes ([probe_passes]).
    - At most one commit wins a sequence until retention deletes its metadata, and on a store
      that answers one does; finding the newest snapshot ends and finds it; a sweep deletes nothing a kept snapshot reaches
      and leaves no garbage it is in charge of; the buffer loses no edge that is not
      durable; at most one leader is within its lease, on a clock the candidates share, and
      an abandoned lease is taken over.
    - The merge policy picks the oldest full window of the lowest level that is due
      ([pick_merge_correct]), and no byte string makes the Puffin reader panic, each range it
      takes of the file being checked ([puffin_read_safe]).

    ** What is not modelled

    The command-line parser, the servers and the shutdown of [main.rs], the JSON bodies of the health and stats endpoints, and the
    messages of errors. A race of the conformance probe is looked at when all its calls
    have ended, and the channel to the ingest task has room. Hydrating a forest from the
    catalog run by run is modelled
    without the partial state an error leaves behind. Logging, timing, memory accounting
    and page-cache advice have no effect on answers and are left out. *)


From stdpp Require Export prelude gmap sorting strings relations.
From Stdlib Require Export ZifyBool ZifyN ZifyNat.

#[global] Open Scope N_scope.

(** ** Machine integers

    Node ids, offsets and counters are [u64], scope and partition ids [u32].
    Both are modelled as [N]; where the source computes on them the width is
    written out. *)

Declare Scope blaze_scope.
Delimit Scope blaze_scope with blaze.
#[global] Open Scope blaze_scope.

Definition u64_limit : N := 2 ^ 64.
Definition u32_limit : N := 2 ^ 32.

(** Wrapping [u64] arithmetic: [fetch_add], [wrapping_add], [wrapping_mul]. *)
Definition wrap64 (x : N) : N := x `mod` u64_limit.
Definition wadd64 (x y : N) : N := wrap64 (x + y).
Definition wmul64 (x y : N) : N := wrap64 (x * y).

Definition wsub64 (x y : N) : N := wrap64 (x + (u64_limit - wrap64 y)).

Notation "x ⊞ y" := (wadd64 x y) (at level 50, left associativity) : blaze_scope.
Notation "x ⊠ y" := (wmul64 x y) (at level 40, left associativity) : blaze_scope.

Notation "x ⊟ y" := (wsub64 x y) (at level 50, left associativity) : blaze_scope.

Lemma u64_pos : 0 < u64_limit.
Proof. done. Qed.

Lemma wrap64_small x : x < u64_limit → wrap64 x = x.
Proof. apply N.mod_small. Qed.

Lemma wrap64_lt x : wrap64 x < u64_limit.
Proof. by apply N.mod_lt. Qed.

Lemma wadd64_small x y : x + y < u64_limit → x ⊞ y = x + y.
Proof. apply wrap64_small. Qed.

Lemma wsub64_small x y : y <= x → x < u64_limit → x ⊟ y = x - y.
Proof.
  intros H Hx. unfold wsub64. rewrite (wrap64_small y) by lia. unfold wrap64.
  replace (x + (u64_limit - y)) with (x - y + 1 * u64_limit) by lia.
  rewrite N.Div0.mod_add. apply N.mod_small. lia.
Qed.

(** Adding back what was subtracted, across the wrap-around too. *)
Lemma wadd64_wsub64 x y : x < u64_limit → y < u64_limit → y ⊞ (x ⊟ y) = x.
Proof.
  intros Hx Hy. unfold wsub64, wadd64. rewrite (wrap64_small y) by done. unfold wrap64.
  rewrite N.Div0.add_mod_idemp_r.
  replace (y + (x + (u64_limit - y))) with (x + 1 * u64_limit) by lia.
  rewrite N.Div0.mod_add. by apply N.mod_small.
Qed.

Lemma wsub64_lt x y : x ⊟ y < u64_limit.
Proof. apply wrap64_lt. Qed.

(** ** Results

    [anyhow::Result] and the crate's own error enums: a value or an error. *)

Inductive result (Er A : Type) : Type :=
| Ok (a : A)
| Err (e : Er).
Arguments Ok {Er A} a.
Arguments Err {Er A} e.

#[export] Instance result_ret Er : MRet (result Er) := fun _ => Ok.
#[export] Instance result_bind Er : MBind (result Er) := fun _ _ f r =>
  match r with Ok a => f a | Err e => Err e end.
#[export] Instance result_fmap Er : FMap (result Er) := fun _ _ f r =>
  match r with Ok a => Ok (f a) | Err e => Err e end.

(** [anyhow::ensure!(b, e)]. *)
Definition ensure {Er} (b : bool) (e : Er) : result Er unit :=
  if b then Ok tt else Err e.

Definition is_ok {Er A} (r : result Er A) : bool :=
  match r with Ok _ => true | Err _ => false end.

(** ** Tactics *)

Create HintDb blaze.

(** Split boolean tests and [decide]s of the goal and hypotheses. *)
Ltac bool_cases :=
  repeat match goal with
  | H : context [ (?a =? ?b)%N ] |- _ => destruct (N.eqb_spec a b); simplify_eq
  | |- context [ (?a =? ?b)%N ] => destruct (N.eqb_spec a b); simplify_eq
  | H : context [ (?a <? ?b)%N ] |- _ => destruct (N.ltb_spec a b)
  | |- context [ (?a <? ?b)%N ] => destruct (N.ltb_spec a b)
  | H : context [ (?a <=? ?b)%N ] |- _ => destruct (N.leb_spec a b)
  | |- context [ (?a <=? ?b)%N ] => destruct (N.leb_spec a b)
  end.

(** ** Sorted keys of a map: the iteration order of a [BTreeMap], and the
    result of [keys().sort_unstable()] on a hash map. *)

Definition sort_N (l : list N) : list N := merge_sort N.le l.

Definition sorted_keys {A} (m : gmap N A) : list N := sort_N (elements (dom m)).

(** [Vec::dedup]: drop an element equal to its predecessor. *)
Fixpoint dedup `{EqDecision A} (l : list A) : list A :=
  match l with
  | [] => []
  | x :: tl =>
      match tl with
      | [] => [x]
      | y :: _ => if decide (x = y) then dedup tl else x :: dedup tl
      end
  end.

#[export] Instance N_le_total : Total N.le.
Proof. intros x y. lia. Qed.

#[export] Instance N_le_trans : Transitive N.le.
Proof. intros x y z. lia. Qed.

Lemma sort_N_perm l : sort_N l ≡ₚ l.
Proof. apply merge_sort_Permutation. Qed.

Lemma sort_N_sorted l : StronglySorted N.le (sort_N l).
Proof. apply StronglySorted_merge_sort; apply _. Qed.

Lemma elem_of_sort_N x l : x ∈ sort_N l ↔ x ∈ l.
Proof. by rewrite sort_N_perm. Qed.

Lemma sorted_le_lt l :
  StronglySorted N.le l → NoDup l → StronglySorted N.lt l.
Proof.
  induction 1 as [|x l Hs IH Hall]; intros Hnd; [constructor|].
  apply NoDup_cons in Hnd as [Hx Hnd]. constructor; [by apply IH|].
  rewrite Forall_forall in Hall |- *. intros y Hy.
  specialize (Hall y Hy). assert (x ≠ y) by (intros ->; done). lia.
Qed.

Lemma sorted_lt_nodup l : StronglySorted N.lt l → NoDup l.
Proof.
  induction 1 as [|x l Hs IH Hall]; constructor; [|done].
  rewrite Forall_forall in Hall. intros Hx. specialize (Hall x Hx). lia.
Qed.

(** A strictly ascending list is determined by its elements. *)
Lemma sorted_lt_ext l1 l2 :
  StronglySorted N.lt l1 → StronglySorted N.lt l2 →
  (∀ x, x ∈ l1 ↔ x ∈ l2) → l1 = l2.
Proof.
  intros H1. revert l2. induction H1 as [|x l1 H1 IH F1]; intros l2 H2 E.
  - destruct l2 as [|y l2]; [done|]. specialize (E y). set_solver.
  - destruct H2 as [|y l2 H2 F2]; [specialize (E x); set_solver|].
    rewrite Forall_forall in F1, F2.
    assert (x = y) as ->.
    { pose proof (E x) as Ex. pose proof (E y) as Ey.
      rewrite !elem_of_cons in Ex, Ey.
      destruct (decide (x = y)); [done|].
      assert (x ∈ l2) as Hx by naive_solver.
      assert (y ∈ l1) as Hy by naive_solver.
      specialize (F1 _ Hy). specialize (F2 _ Hx). lia. }
    f_equal. apply IH; [done|]. intros z. specialize (E z).
    rewrite !elem_of_cons in E.
    assert (z ∈ l1 → z ≠ y) by (intros Hz ->; specialize (F1 _ Hz); lia).
    assert (z ∈ l2 → z ≠ y) by (intros Hz ->; specialize (F2 _ Hz); lia).
    naive_solver.
Qed.

Lemma StronglySorted_filter {A} (R : relation A) (P : A → Prop) `{∀ x, Decision (P x)} l :
  StronglySorted R l → StronglySorted R (filter P l).
Proof.
  induction 1 as [|x l Hs IH Hx]; [constructor|].
  rewrite filter_cons. case_decide; [|done]. constructor; [done|].
  rewrite Forall_forall in Hx |- *. intros y [_ Hy]%list_elem_of_filter. auto.
Qed.

(** Pointwise implication, for what is in the list. *)
Lemma Forall2_impl_elem {A B} (P Q : A → B → Prop) l k :
  Forall2 P l k → (∀ x y, x ∈ l → P x y → Q x y) → Forall2 Q l k.
Proof.
  induction 1 as [|x y l k Hxy _ IH]; intros HPQ; constructor; [apply HPQ; [by left|done]|].
  apply IH. intros x' y' Hx'. apply HPQ. by right.
Qed.

(** In a list sorted by its first components, the front does not exceed the rest. *)
Lemma sorted_le_fst {A} (l l' : list (N * A)) (x y : N * A) :
  StronglySorted N.le (l ++ l').*1 → x ∈ l → y ∈ l' → x.1 <= y.1.
Proof.
  induction l as [|a l IH]; intros Hs Hx Hy; [by apply elem_of_nil in Hx|].
  apply StronglySorted_inv in Hs as [Hs Ha]. apply elem_of_cons in Hx as [->|Hx]; [|auto].
  rewrite Forall_forall in Ha. apply Ha. apply list_elem_of_fmap_2, elem_of_app. auto.
Qed.

Section sorted_keys.
Context {A : Type}.
Implicit Types m : gmap N A.

Lemma elem_of_sorted_keys m k : k ∈ sorted_keys m ↔ is_Some (m !! k).
Proof.
  unfold sorted_keys. by rewrite elem_of_sort_N, elem_of_elements, elem_of_dom.
Qed.

Lemma sorted_keys_nodup m : NoDup (sorted_keys m).
Proof. unfold sorted_keys. rewrite sort_N_perm. apply NoDup_elements. Qed.

Lemma sorted_keys_sorted m : StronglySorted N.lt (sorted_keys m).
Proof.
  apply sorted_le_lt; [apply sort_N_sorted | apply sorted_keys_nodup].
Qed.
End sorted_keys.

#[export] Hint Resolve sort_N_sorted sorted_keys_nodup sorted_keys_sorted : blaze.

Section dedup.
Context `{EqDecision A}.
Implicit Types l : list A.

Lemma elem_of_dedup x l : x ∈ dedup l ↔ x ∈ l.
Proof.
  induction l as [|y [|z l] IH]; [done|done|].
  simpl dedup in *. case_decide as Hd; subst; rewrite ?elem_of_cons, IH, ?elem_of_cons; set_solver.
Qed.
End dedup.

Lemma dedup_sorted_lt l : StronglySorted N.le l → StronglySorted N.lt (dedup l).
Proof.
  induction 1 as [|x l Hs IH Hall]; [constructor|].
  destruct l as [|y l]; [repeat constructor|].
  simpl. case_decide as Hd; [done|].
  constructor; [done|]. apply Forall_forall. intros z Hz.
  change (z ∈ dedup (y :: l)) in Hz. rewrite elem_of_dedup in Hz.
  rewrite Forall_forall in Hall.
  pose proof (Hall y ltac:(left)). specialize (Hall z Hz).
  apply elem_of_cons in Hz as [->|Hz]; [lia|].
  inversion Hs as [|?? _ Hy]; subst. rewrite Forall_forall in Hy.
  specialize (Hy z Hz). lia.
Qed.
