(* ===== verification/Types.v ===== *)
(** Identifier types and the edge event model: [src/core/types.rs]. *)

From S2P Require Import Prelude.

(** [NodeId] is [u64], [ScopeId] is [u32]; scope 0 is the global scope. *)
Abbreviation NodeId := N.
Abbreviation ScopeId := N.

Definition GLOBAL_SCOPE : ScopeId := 0.

Inductive Visibility :=
| Global
| Scoped (s : list ScopeId).

#[export] Instance Visibility_eq_dec : EqDecision Visibility.
Proof. solve_decision. Defined.

(** [Visibility::normalize]: an empty list or one containing the global scope
    is global; any other list is sorted and deduplicated. *)
Definition normalize (v : Visibility) : Visibility :=
  match v with
  | Scoped s =>
      if bool_decide (s = []) || bool_decide (GLOBAL_SCOPE ∈ s) then Global
      else Scoped (dedup (sort_N s))
  | Global => Global
  end.

Record EdgeEvent := mkEvent {
  src : NodeId;
  dst : NodeId;
  visibility : Visibility;
  event_time_ms : Z;
  props : option string;
}.

(** What the API contract says of a visibility: [sees v s] when scope [s] has
    the edge among its own, [is_global v] when every scope has it. *)
Definition is_global (v : Visibility) : Prop :=
  match v with Global => True | Scoped l => l = [] ∨ GLOBAL_SCOPE ∈ l end.

Definition sees (v : Visibility) (s : ScopeId) : Prop :=
  is_global v ∨ match v with Global => True | Scoped l => s ∈ l end.

#[export] Instance is_global_dec v : Decision (is_global v).
Proof. destruct v; apply _. Defined.

#[export] Instance sees_dec v s : Decision (sees v s).
Proof. unfold sees. destruct v; apply _. Defined.

Lemma normalize_global v : normalize v = Global ↔ is_global v.
Proof.
  destruct v as [|l]; simpl; [done|].
  repeat case_bool_decide; simpl; naive_solver.
Qed.

Lemma normalize_scoped v l :
  normalize v = Scoped l →
  ¬ is_global v ∧ StronglySorted N.lt l ∧ GLOBAL_SCOPE ∉ l ∧ l ≠ [] ∧
  ∀ s, s ∈ l ↔ sees v s.
Proof.
  destruct v as [|l0]; simpl; [done|].
  repeat case_bool_decide; simpl; intros; simplify_eq.
  assert (∀ s, s ∈ dedup (sort_N l0) ↔ s ∈ l0) as E.
  { intros s. by rewrite elem_of_dedup, elem_of_sort_N. }
  split_and!.
  - naive_solver.
  - apply dedup_sorted_lt, sort_N_sorted.
  - by rewrite E.
  - intros Hn. destruct l0 as [|a l0]; [done|].
    assert (a ∈ dedup (sort_N (a :: l0))) as Ha by (apply E; left).
    rewrite Hn in Ha. by apply elem_of_nil in Ha.
  - intros s. rewrite E. unfold sees, is_global. naive_solver.
Qed.
