(* ===== verification/Stream.v ===== *)
(** Where a worker stands in its input stream: [src/core/stream.rs].

    A position is a map from partition to highest applied offset. The order on
    positions is partial; an absent partition and offset 0 mean the same, which
    is the setoid equality below. *)

From S2P Require Import Prelude.

Abbreviation PartitionId := N.

Record StreamPosition := mkPosition { offsets : gmap PartitionId N }.

#[export] Instance StreamPosition_eq_dec : EqDecision StreamPosition.
Proof. solve_decision. Defined.

(** [StreamPosition::new]. *)
Definition pos_new : StreamPosition := mkPosition ∅.

(** [StreamPosition::get]. *)
Definition pos_get (p : StreamPosition) (partition : PartitionId) : N :=
  default 0 (offsets p !! partition).

(** [StreamPosition::advance]: [entry(partition).or_insert(0)], then the
    maximum of what was there and [offset]. *)
Definition advance (p : StreamPosition) (partition : PartitionId) (offset : N) : StreamPosition :=
  let slot := default 0 (offsets p !! partition) in
  mkPosition (<[partition := N.max slot offset]> (offsets p)).

(** [StreamPosition::single]. *)
Definition single (offset : N) : StreamPosition := advance pos_new 0 offset.

(** [StreamPosition::iter]: entries in ascending partition order. *)
Definition pos_iter (p : StreamPosition) : list (PartitionId * N) :=
  (fun k => (k, pos_get p k)) <$> sorted_keys (offsets p).

(** [StreamPosition::partitions]. *)
Definition partitions (p : StreamPosition) : list PartitionId :=
  sorted_keys (offsets p).

(** [StreamPosition::merge]. *)
Definition pos_merge (self other : StreamPosition) : StreamPosition :=
  foldl (fun acc po => advance acc po.1 po.2) self (pos_iter other).

(** [StreamPosition::dominates]. *)
Definition dominates (self other : StreamPosition) : bool :=
  forallb (fun po => po.2 <=? pos_get self po.1) (pos_iter other).

(** [StreamPosition::is_empty] and [StreamPosition::len]. *)
Definition pos_is_empty (p : StreamPosition) : bool := bool_decide (offsets p = ∅).
Definition pos_len (p : StreamPosition) : nat := size (offsets p).

(** [StreamPosition::as_scalar]. *)
Definition as_scalar (p : StreamPosition) : option N :=
  match pos_len p with
  | O => Some 0
  | S O => offsets p !! 0
  | _ => None
  end.

(** [FromIterator::from_iter]. *)
Definition from_iter (l : list (PartitionId * N)) : StreamPosition :=
  foldl (fun acc po => advance acc po.1 po.2) pos_new l.

(** [StreamId] and [StreamId::same_stream]. *)
Record StreamId := mkStream {
  stream_source : string;
  stream_name : string;
  stream_group : option string;
}.

Definition with_group (s : StreamId) (g : string) : StreamId :=
  mkStream (stream_source s) (stream_name s) (Some g).

Definition same_stream (a b : StreamId) : bool :=
  bool_decide (stream_source a = stream_source b) &&
  bool_decide (stream_name a = stream_name b).

(** ** Positions up to "absent means zero" *)

#[export] Instance position_equiv : Equiv StreamPosition :=
  fun p q => ∀ k, pos_get p k = pos_get q k.

#[export] Instance position_equivalence : Equivalence (≡@{StreamPosition}).
Proof.
  split.
  - by intros p k.
  - intros p q H k. by rewrite (H k).
  - intros p q r H1 H2 k. by rewrite (H1 k).
Qed.

(** The order the source's [dominates] decides. *)
Definition covers (self other : StreamPosition) : Prop :=
  ∀ k, pos_get other k <= pos_get self k.

#[export] Instance covers_proper : Proper ((≡) ==> (≡) ==> iff) covers.
Proof.
  intros p p' Hp q q' Hq.
  split; intros H k; specialize (H k); specialize (Hp k); specialize (Hq k); lia.
Qed.

#[export] Instance pos_get_proper : Proper ((≡) ==> (=) ==> (=)) pos_get.
Proof. intros p p' Hp ? k ->. apply Hp. Qed.

Lemma pos_get_advance p q o k :
  pos_get (advance p q o) k = if decide (q = k) then N.max (pos_get p k) o else pos_get p k.
Proof.
  unfold pos_get, advance; simpl. rewrite lookup_insert.
  case_decide; subst; done.
Qed.

Lemma elem_of_pos_iter p k o :
  (k, o) ∈ pos_iter p ↔ offsets p !! k = Some o.
Proof.
  unfold pos_iter. rewrite list_elem_of_fmap. split.
  - intros (k' & [= -> ->] & [x Hx]%elem_of_sorted_keys).
    unfold pos_get. by rewrite Hx.
  - intros Hk. exists k. unfold pos_get. rewrite Hk. split; [done|].
    apply elem_of_sorted_keys. eauto.
Qed.

Lemma foldr_max_base b o (l : list N) :
  foldr N.max (N.max b o) l = N.max o (foldr N.max b l).
Proof. induction l as [|x l IH]; simpl; [lia|]. rewrite IH. lia. Qed.

(** What folding [advance] over a list of entries leaves at [k]. *)
Lemma pos_get_advance_list l p k :
  pos_get (foldl (fun acc po => advance acc po.1 po.2) p l) k =
  foldr N.max (pos_get p k) (snd <$> filter (fun po => po.1 = k) l).
Proof.
  revert p. induction l as [|[q o] l IH]; intros p; [done|].
  cbn [foldl fst snd]. rewrite IH, pos_get_advance, filter_cons. cbn [fst].
  case_decide; subst; [|done]. rewrite fmap_cons. apply foldr_max_base.
Qed.

Lemma foldr_max_spec b (l : list N) :
  b <= foldr N.max b l ∧ (∀ x, x ∈ l → x <= foldr N.max b l) ∧
  (∀ u, b <= u → (∀ x, x ∈ l → x <= u) → foldr N.max b l <= u).
Proof.
  induction l as [|x l (IH1 & IH2 & IH3)]; simpl.
  { split_and!; [lia|intros ? []%elem_of_nil|auto]. }
  split_and!.
  - lia.
  - intros y [->|Hy]%elem_of_cons; [lia|]. specialize (IH2 _ Hy). lia.
  - intros u Hb Hu. pose proof (Hu x ltac:(left)).
    assert (foldr N.max b l <= u) by (apply IH3; [done|intros; apply Hu; by right]). lia.
Qed.

Lemma pos_get_merge p q k : pos_get (pos_merge p q) k = N.max (pos_get p k) (pos_get q k).
Proof.
  unfold pos_merge. rewrite pos_get_advance_list.
  set (l := snd <$> filter (fun po : N * N => po.1 = k) (pos_iter q)).
  destruct (foldr_max_spec (pos_get p k) l) as (H1 & H2 & H3).
  assert (∀ x, x ∈ l ↔ offsets q !! k = Some x) as Hl.
  { intros x. unfold l. rewrite list_elem_of_fmap. split.
    - intros ([k' o] & -> & [Hk Hin]%list_elem_of_filter). simpl in *; subst.
      by apply elem_of_pos_iter.
    - intros Hx. exists (k, x). split; [done|]. apply list_elem_of_filter.
      split; [done|]. by apply elem_of_pos_iter. }
  unfold pos_get in *. destruct (offsets q !! k) as [o|] eqn:Ho; simpl in *.
  - pose proof (H2 o (proj2 (Hl o) eq_refl)).
    assert (foldr N.max (default 0 (offsets p !! k)) l
            <= N.max (default 0 (offsets p !! k)) o); [|lia].
    apply H3; [lia|]. intros x Hx%Hl. simplify_eq. lia.
  - destruct l as [|x l']; simpl; [lia|].
    assert (None = Some x) by (apply Hl; left). done.
Qed.

Lemma pos_get_Some p k o : offsets p !! k = Some o → pos_get p k = o.
Proof. unfold pos_get. by intros ->. Qed.

Lemma pos_get_None p k : offsets p !! k = None → pos_get p k = 0.
Proof. unfold pos_get. by intros ->. Qed.

Lemma dominates_covers p q : dominates p q = true ↔ covers p q.
Proof.
  unfold dominates, covers. rewrite forallb_forall. split.
  - intros H k. destruct (offsets q !! k) as [o|] eqn:Ho.
    + pose proof (H (k, o)) as Hle.
      rewrite <-list_elem_of_In, elem_of_pos_iter in Hle.
      specialize (Hle Ho). cbn [fst snd] in Hle.
      rewrite (pos_get_Some _ _ _ Ho). lia.
    + rewrite (pos_get_None _ _ Ho). lia.
  - intros H [k o] Hin%list_elem_of_In%elem_of_pos_iter. cbn [fst snd].
    specialize (H k). rewrite (pos_get_Some _ _ _ Hin) in H. lia.
Qed.

#[export] Hint Rewrite pos_get_merge pos_get_advance : blaze.

Lemma covers_refl p : covers p p.
Proof. intros k. lia. Qed.

Lemma covers_trans p q r : covers p q → covers q r → covers p r.
Proof. intros H1 H2 k. specialize (H1 k). specialize (H2 k). lia. Qed.

Lemma covers_advance p q o : covers (advance p q o) p.
Proof. intros k. rewrite pos_get_advance. case_decide; lia. Qed.

Lemma pos_get_single n k : pos_get (single n) k = if decide (0 = k) then n else 0.
Proof.
  unfold single. rewrite pos_get_advance. case_decide; [|done].
  change (N.max 0 n = n). lia.
Qed.

#[export] Hint Resolve covers_refl covers_advance : blaze.

(** [dominates] decides a partial order on positions (taken up to "an absent
    partition is at offset 0"): reflexive, transitive, antisymmetric, and
    [merge] is its least upper bound. It is not total. *)
Theorem dominates_partial_order :
  (∀ p, dominates p p = true) ∧
  (∀ p q r, dominates p q = true → dominates q r = true → dominates p r = true) ∧
  (∀ p q, dominates p q = true → dominates q p = true → p ≡ q) ∧
  (∀ p q r, dominates r (pos_merge p q) = dominates r p && dominates r q) ∧
  (∃ p q, dominates p q = false ∧ dominates q p = false).
Proof.
  split_and!.
  - intros p. apply dominates_covers. auto with blaze.
  - intros p q r. rewrite !dominates_covers. apply covers_trans.
  - intros p q H1 H2 k. apply dominates_covers in H1, H2.
    specialize (H1 k). specialize (H2 k). lia.
  - intros p q r. apply eq_true_iff_eq.
    rewrite andb_true_iff, !dominates_covers. unfold covers.
    setoid_rewrite pos_get_merge. split; [split; intros k; specialize (H k); lia|].
    intros [H1 H2] k. specialize (H1 k). specialize (H2 k). lia.
  - exists (from_iter [(0, 5); (1, 9)]), (from_iter [(0, 9); (1, 5)]). done.
Qed.

(** [advance] never walks a partition backwards: the result dominates the old
    position, holds the maximum at the advanced partition and leaves every other
    partition alone. *)
Theorem advance_monotone (p : StreamPosition) (q : PartitionId) (o : N) :
  dominates (advance p q o) p = true ∧
  pos_get (advance p q o) q = N.max (pos_get p q) o ∧
  (∀ k, k ≠ q → pos_get (advance p q o) k = pos_get p k).
Proof.
  split_and!.
  - apply dominates_covers. auto with blaze.
  - rewrite pos_get_advance. by case_decide.
  - intros k Hk. rewrite pos_get_advance. by case_decide.
Qed.

(** [as_scalar] answers exactly when the position mentions no partition but 0,
    and then with that partition's offset. *)
Theorem as_scalar_exact (p : StreamPosition) (n : N) :
  as_scalar p = Some n ↔ (∀ k, is_Some (offsets p !! k) → k = 0) ∧ p ≡ single n.
Proof.
  assert (∀ k, is_Some (offsets p !! k) ↔ k ∈ dom (offsets p)) as Hd.
  { intros k. by rewrite elem_of_dom. }
  unfold as_scalar, pos_len. rewrite <-size_dom. split.
  - intros H. destruct (size (dom (offsets p))) as [|[|?]] eqn:Hs; simplify_eq.
    + apply size_empty_inv in Hs. split; [set_solver|].
      intros k. rewrite pos_get_single. unfold pos_get.
      rewrite (proj1 (not_elem_of_dom (offsets p) k)) by set_solver. by case_decide.
    + apply size_1_elem_of in Hs as [x Hx].
      assert (x = 0) as ->.
      { assert (0 ∈ dom (offsets p)) by (apply elem_of_dom; eauto). set_solver. }
      split; [set_solver|]. intros k. rewrite pos_get_single. unfold pos_get.
      case_decide; subst; [by rewrite H|].
      rewrite (proj1 (not_elem_of_dom (offsets p) k)) by set_solver. done.
  - intros [Hk Heq]. specialize (Heq 0). rewrite pos_get_single in Heq.
    simpl in Heq. unfold pos_get in Heq.
    destruct (offsets p !! 0) as [o|] eqn:H0; simpl in Heq; subst.
    + assert (dom (offsets p) = {[0]}) as ->.
      { apply set_eq. intros k. rewrite elem_of_singleton, <-Hd. split; [auto|].
        intros ->. eauto. }
      by rewrite size_singleton.
    + assert (dom (offsets p) = ∅) as ->.
      { apply set_eq. intros k. rewrite <-Hd. split; [|set_solver].
        intros Hs. rewrite (Hk _ Hs), H0 in Hs. by destruct Hs. }
      by rewrite size_empty.
Qed.
