(* ===== verification/Graph.v ===== *)
(** The specification: connectivity of an edge set and canonical
    representatives.

    blaze answers "which component is [x] in?" with the lowest node id of the
    component. A function [ρ] from nodes to representatives is [canonical] for a
    relation when it names exactly its classes and names each by its minimum;
    every data structure of the engine is shown to compute such a function. *)

From S2P Require Import Prelude Types.

Abbreviation edges := (list (NodeId * NodeId)).

(** Reflexive, symmetric, transitive closure of the edge set. *)
Definition conn (E : edges) : relation NodeId := rtsc (fun u v => (u, v) ∈ E).

Definition is_component_min (E : edges) (x r : NodeId) : Prop :=
  conn E x r ∧ ∀ y, conn E x y → r <= y.

Record canonical (R : relation NodeId) (ρ : NodeId → NodeId) : Prop := {
  canon_iff x y : R x y ↔ ρ x = ρ y;
  canon_le x : ρ x <= x;
  canon_idem x : ρ (ρ x) = ρ x;
}.

(** Absorb representative [c] into representative [p]. *)
Definition absorb (c p : NodeId) (ρ : NodeId → NodeId) (y : NodeId) : NodeId :=
  if decide (ρ y = c) then p else ρ y.

(** Join two representatives, lowest id wins. *)
Definition join (a b : NodeId) (ρ : NodeId → NodeId) : NodeId → NodeId :=
  absorb (N.max a b) (N.min a b) ρ.

(** [x] shares its class with another element (or is not its own
    representative): the elements a sparse union-find knows about. *)
Definition touched (ρ : NodeId → NodeId) (x : NodeId) : Prop :=
  ∃ y, y ≠ x ∧ ρ y = ρ x.

#[export] Instance conn_equivalence E : Equivalence (conn E).
Proof. apply rtsc_equivalence. Qed.

Lemma conn_edge E u v : (u, v) ∈ E → conn E u v.
Proof. intros. by apply rtsc_lr. Qed.

Lemma conn_mono E E' x y : E ⊆ E' → conn E x y → conn E' x y.
Proof.
  intros HE. apply rtc_subrel. intros a b [H|H]; [left|right]; by apply HE.
Qed.

Lemma conn_ind_l E (P : NodeId → NodeId → Prop) :
  (∀ x, P x x) → (∀ x y z, P x y → P y z → P x z) →
  (∀ u v, (u, v) ∈ E → P u v ∧ P v u) → ∀ x y, conn E x y → P x y.
Proof.
  intros Hr Ht He x y. induction 1 as [x|x y z [H|H] _ IH]; [done| |];
    destruct (He _ _ H); eauto.
Qed.

(** The closure lies inside the kernel of any function constant on edges. *)
Lemma conn_kernel E (ρ : NodeId → NodeId) :
  (∀ u v, (u, v) ∈ E → ρ u = ρ v) → ∀ x y, conn E x y → ρ x = ρ y.
Proof.
  intros He. apply conn_ind_l; [done| |].
  - intros x y z -> ->. done.
  - intros u v H%He. by rewrite H.
Qed.

Lemma conn_same_edges E E' :
  (∀ u v, (u, v) ∈ E ↔ (u, v) ∈ E') → ∀ x y, conn E x y ↔ conn E' x y.
Proof.
  intros HE x y. split; apply conn_mono; intros [u v]; by rewrite HE.
Qed.

Lemma conn_nil x y : conn [] x y ↔ x = y.
Proof.
  split; [|by intros ->].
  apply (conn_kernel [] id). intros u v H. by apply elem_of_nil in H.
Qed.

Section canonical.
Implicit Types (R : relation NodeId) (ρ : NodeId → NodeId).

Lemma canon_rel R ρ x : canonical R ρ → R x (ρ x).
Proof. intros C. apply (canon_iff _ _ C). by rewrite (canon_idem _ _ C). Qed.

Lemma canonical_ext R R' ρ ρ' :
  (∀ x y, R x y ↔ R' x y) → (∀ x, ρ x = ρ' x) → canonical R ρ → canonical R' ρ'.
Proof.
  intros HR Hρ [H1 H2 H3]. split; intros; rewrite <-?Hρ, <-?HR; auto.
Qed.

Lemma canonical_id : canonical (conn []) id.
Proof. split; [intros; apply conn_nil|done|done]. Qed.

Lemma canonical_min E ρ x : canonical (conn E) ρ → is_component_min E x (ρ x).
Proof.
  intros C. split; [by apply canon_rel|].
  intros y Hy%(canon_iff _ _ C). rewrite Hy. apply (canon_le _ _ C).
Qed.

(** Absorbing: what the new function equates. *)
Lemma absorb_eq c p ρ x y :
  ρ p = p → ρ c = c →
  absorb c p ρ x = absorb c p ρ y ↔
  ρ x = ρ y ∨ (ρ x = c ∧ ρ y = p) ∨ (ρ x = p ∧ ρ y = c).
Proof. intros. unfold absorb. repeat case_decide; naive_solver. Qed.

Lemma join_eq a b ρ x y :
  ρ a = a → ρ b = b →
  join a b ρ x = join a b ρ y ↔
  ρ x = ρ y ∨ (ρ x = a ∧ ρ y = b) ∨ (ρ x = b ∧ ρ y = a).
Proof.
  intros Ha Hb. unfold join.
  destruct (N.le_ge_cases a b).
  - rewrite N.max_r, N.min_l by done. rewrite absorb_eq by done. naive_solver.
  - rewrite N.max_l, N.min_r by done. rewrite absorb_eq by done. naive_solver.
Qed.

Lemma join_le a b ρ x : (∀ y, ρ y <= y) → join a b ρ x <= x.
Proof.
  intros H. specialize (H x). unfold join, absorb. case_decide; lia.
Qed.

Lemma join_idem a b ρ x :
  (∀ y, ρ (ρ y) = ρ y) → ρ a = a → ρ b = b →
  join a b ρ (join a b ρ x) = join a b ρ x.
Proof.
  intros Hi Ha Hb. unfold join, absorb.
  assert (ρ (N.min a b) = N.min a b) by (destruct (N.min_spec a b) as [[_ ->]|[_ ->]]; done).
  repeat case_decide; rewrite ?Hi in *; congruence.
Qed.

Lemma join_same a ρ x : join a a ρ x = ρ x.
Proof. unfold join, absorb. rewrite N.max_id, N.min_id. case_decide; done. Qed.

Lemma join_comm a b ρ x : join a b ρ x = join b a ρ x.
Proof. unfold join. by rewrite N.max_comm, N.min_comm. Qed.

(** Adding an edge joins the two representatives. *)
Lemma canonical_add_edge E ρ u v :
  canonical (conn E) ρ →
  canonical (conn ((u, v) :: E)) (join (ρ u) (ρ v) ρ).
Proof.
  intros C. pose proof (canon_idem _ _ C) as Hi. split.
  - intros x y. rewrite join_eq by apply Hi. split.
    + revert x y. apply conn_ind_l.
      * auto.
      * naive_solver congruence.
      * intros a b [[= -> ->]|H]%elem_of_cons; [auto|].
        apply conn_edge, (canon_iff _ _ C) in H. rewrite H. auto.
    + assert (∀ a b, ρ a = ρ b → conn ((u, v) :: E) a b) as Hm.
      { intros a b H%(canon_iff _ _ C). eapply conn_mono, H. set_solver. }
      assert (conn ((u, v) :: E) u v) as Huv by (apply conn_edge; left).
      intros [H|[[H1 H2]|[H1 H2]]]; [by apply Hm| |].
      * rewrite (Hm x u), (Hm y v) by done. done.
      * rewrite (Hm x v), (Hm y u) by done. done.
  - intros x. apply join_le, (canon_le _ _ C).
  - intros x. apply join_idem; auto.
Qed.
End canonical.

Lemma touched_iff ρ x :
  (∀ y, ρ (ρ y) = ρ y) → touched ρ x ↔ ρ x ≠ x ∨ ∃ y, y ≠ x ∧ ρ y = x.
Proof.
  intros Hi. split.
  - intros (y & Hne & Hy). destruct (decide (ρ x = x)) as [E|]; [|by left].
    right. exists y. by rewrite Hy.
  - intros [H|(y & H & Hy)].
    + exists (ρ x). auto.
    + exists y. split; [done|]. by rewrite <-Hy, Hi.
Qed.

Lemma not_touched ρ x : (∀ y, ρ (ρ y) = ρ y) → ¬ touched ρ x → ρ x = x.
Proof.
  intros Hi H. destruct (decide (ρ x = x)); [done|]. destruct H. by exists (ρ x).
Qed.
