(* ===== verification/Dsu.v ===== *)
(** The disjoint-set union: [src/core/dsu.rs].

    [DashMap]s are finite maps. [find] compresses by path halving and [find_ro]
    makes a repair write after a long walk, so both return the state they leave.
    The loops run on fuel [S (size parents)]: parents strictly decrease, so a
    chain visits each key at most once and the fuel is never exhausted
    ([find_loop_spec], [ro_walk_spec]). *)

From S2P Require Import Prelude Types Graph.

(** ** Data *)

Definition RO_COMPRESS_DEPTH : nat := 8.

Record Merge := mkMerge { merge_child : NodeId; merge_parent : NodeId }.

Record Dsu := mkDsu {
  parents : gmap NodeId NodeId;
  children : option (gmap NodeId (list NodeId));
  merges : N;
}.

#[export] Instance Merge_eq_dec : EqDecision Merge.
Proof. solve_decision. Defined.

(** [Dsu::tracking_members]; [Dsu::new] is [dsu_tracking false]. *)
Definition dsu_tracking (track : bool) : Dsu :=
  mkDsu ∅ (if track then Some ∅ else None) 0.

Definition dsu_new : Dsu := dsu_tracking false.

Definition dsu_tracks_members (d : Dsu) : bool := bool_decide (is_Some (children d)).

(** ** Operations *)

(** The list an index holds for [p]. *)
Definition kids (ch : gmap NodeId (list NodeId)) (p : NodeId) : list NodeId :=
  default [] (ch !! p).

(** [Dsu::children_of]: at most [limit] roots absorbed into [parent], appended
    to [out]. *)
Definition children_of (d : Dsu) (parent : NodeId) (limit : nat) (out : list NodeId) : list NodeId :=
  match children d with
  | Some ch =>
      match ch !! parent with
      | Some ks => out ++ take (length ks `min` limit) ks
      | None => out
      end
  | None => out
  end.

(** [Dsu::link]: record [child -> parent] in both directions. *)
Definition link (d : Dsu) (child parent : NodeId) : Dsu :=
  mkDsu (<[child := parent]> (parents d))
    ((fun ch => <[parent := kids ch parent ++ [child]]> ch) <$> children d)
    (merges d).

(** The loop of [Dsu::find]: walk up, pointing each visited node at its
    grandparent. [None] is an exhausted fuel. *)
Fixpoint find_loop (fuel : nat) (m : gmap NodeId NodeId) (x : NodeId)
    : option (NodeId * gmap NodeId NodeId) :=
  match fuel with
  | O => None
  | S fuel =>
      match m !! x with
      | None => Some (x, m)
      | Some p =>
          match m !! p with
          | None => Some (p, m)
          | Some gp => find_loop fuel (<[x := gp]> m) gp
          end
      end
  end.

Definition find (d : Dsu) (x : NodeId) : NodeId * Dsu :=
  match find_loop (S (size (parents d))) (parents d) x with
  | Some (r, m) => (r, mkDsu m (children d) (merges d))
  | None => (x, d)
  end.

(** The loop of [Dsu::find_ro]: the root and the number of hops to it. *)
Fixpoint ro_walk (fuel : nat) (m : gmap NodeId NodeId) (cur : NodeId) (depth : nat)
    : option (NodeId * nat) :=
  match fuel with
  | O => None
  | S fuel =>
      match m !! cur with
      | Some p => ro_walk fuel m p (S depth)
      | None => Some (cur, depth)
      end
  end.

Definition find_ro (d : Dsu) (x : NodeId) : NodeId * Dsu :=
  match ro_walk (S (size (parents d))) (parents d) x 0 with
  | Some (cur, depth) =>
      if (RO_COMPRESS_DEPTH <? depth)%nat
      then (cur, mkDsu (<[x := cur]> (parents d)) (children d) (merges d))
      else (cur, d)
  | None => (x, d)
  end.

(** [Dsu::union]: the smaller root survives. *)
Definition union (d : Dsu) (u v : NodeId) : option Merge * Dsu :=
  let '(ru, d1) := find d u in
  let '(rv, d2) := find d1 v in
  if ru =? rv then (None, d2)
  else
    let '(child, parent) := if ru <? rv then (rv, ru) else (ru, rv) in
    let d3 := link d2 child parent in
    (Some (mkMerge child parent), mkDsu (parents d3) (children d3) (merges d3 ⊞ 1)).

(** [Dsu::connected]. *)
Definition dsu_connected (d : Dsu) (u v : NodeId) : bool * Dsu :=
  let '(ru, d1) := find_ro d u in
  let '(rv, d2) := find_ro d1 v in
  (ru =? rv, d2).

Definition len_links (d : Dsu) : nat := size (parents d).

(** [Dsu::keys]; the order of a [DashMap] iteration is unspecified. *)
Definition keys (d : Dsu) : list NodeId := elements (dom (parents d)).

(** [Dsu::snapshot]: resolve every key in turn, compressing as it goes. *)
Fixpoint snapshot_keys (ks : list NodeId) (d : Dsu) : list (NodeId * NodeId) * Dsu :=
  match ks with
  | [] => ([], d)
  | k :: ks =>
      let '(r, d1) := find d k in
      let '(rest, d2) := snapshot_keys ks d1 in
      ((k, r) :: rest, d2)
  end.

Definition dsu_snapshot (d : Dsu) : list (NodeId * NodeId) * Dsu :=
  snapshot_keys (keys d) d.

(** [Dsu::hydrate]. *)
Definition dsu_hydrate (d : Dsu) (pairs : list (NodeId * NodeId)) : Dsu :=
  let d1 := foldl (fun d nr => if nr.1 =? nr.2 then d else link d nr.1 nr.2) d pairs in
  mkDsu (parents d1) (children d1) (wrap64 (N.of_nat (size (parents d1)))).

(** ** The abstract view: the root function *)

Definition root (m : gmap NodeId NodeId) (x : NodeId) : NodeId :=
  from_option fst x (ro_walk (S (size m)) m x 0).

(** Every recorded parent is a smaller id. *)
Definition decreasing (m : gmap NodeId NodeId) : Prop :=
  ∀ x p, m !! x = Some p → p < x.

(** [rooted m x r]: the parent chain of [x] ends at [r]. *)
Inductive rooted (m : gmap NodeId NodeId) : NodeId → NodeId → Prop :=
| rooted_self x : m !! x = None → rooted m x x
| rooted_step x p r : m !! x = Some p → rooted m p r → rooted m x r.

Lemma rooted_fun m x r r' : rooted m x r → rooted m x r' → r = r'.
Proof.
  intros H. revert r'. induction H; intros r'; inversion 1; simplify_eq; auto.
Qed.

Lemma rooted_end m x r : rooted m x r → m !! r = None.
Proof. by induction 1. Qed.

Lemma rooted_le m x r : decreasing m → rooted m x r → r <= x.
Proof.
  intros Hd. induction 1 as [|x p r Hp _ IH]; [lia|].
  specialize (Hd _ _ Hp). lia.
Qed.

Lemma rooted_total m x : decreasing m → ∃ r, rooted m x r.
Proof.
  intros Hd. induction x as [x IH] using (well_founded_induction N.lt_wf_0).
  destruct (m !! x) as [p|] eqn:Hp; [|exists x; by constructor].
  destruct (IH p) as [r Hr]; [by apply Hd in Hp|].
  exists r. by eapply rooted_step.
Qed.

(** The keys a walk from [x] can still visit: the measure of both loops. *)
Definition below (m : gmap NodeId NodeId) (x : NodeId) : nat :=
  size (filter (fun k => k <= x) (dom m)).

Lemma below_step m x p : m !! x = Some p → p < x → (below m p < below m x)%nat.
Proof.
  intros Hx Hp. apply subset_size. apply strict_spec. split.
  - intros k. rewrite !elem_of_filter. intros [? ?]. split; [lia|done].
  - assert (x ∈ filter (fun k => k <= x) (dom m)) as Hin.
    { apply elem_of_filter. split; [lia|]. apply elem_of_dom. eauto. }
    intros Hsub. apply Hsub, elem_of_filter in Hin. lia.
Qed.

Lemma below_size m x : (below m x <= size m)%nat.
Proof.
  unfold below. rewrite <-(size_dom m). apply subseteq_size. set_solver.
Qed.

Lemma ro_walk_spec m fuel x d r :
  decreasing m → rooted m x r → (below m x < fuel)%nat →
  ∃ n, ro_walk fuel m x d = Some (r, n).
Proof.
  intros Hd Hr. revert fuel d. induction Hr as [x Hx|x p r Hx Hr IH]; intros fuel d Hf.
  - destruct fuel; [lia|]. simpl. rewrite Hx. eauto.
  - destruct fuel; [lia|]. simpl. rewrite Hx. apply IH.
    pose proof (below_step _ _ _ Hx (Hd _ _ Hx)). lia.
Qed.

Lemma root_rooted m x : decreasing m → rooted m x (root m x).
Proof.
  intros Hd. destruct (rooted_total m x Hd) as [r Hr].
  destruct (ro_walk_spec m (S (size m)) x 0 r Hd Hr) as [n Hn].
  { pose proof (below_size m x). lia. }
  unfold root. by rewrite Hn.
Qed.

Lemma root_eq m x r : decreasing m → root m x = r ↔ rooted m x r.
Proof.
  intros Hd. split; [intros <-; by apply root_rooted|].
  intros H. eapply rooted_fun; [by apply root_rooted|done].
Qed.

Section root.
Context (m : gmap NodeId NodeId) (Hd : decreasing m).

Lemma root_le x : root m x <= x.
Proof using Hd. eapply rooted_le; [done|]. by apply root_rooted. Qed.

Lemma root_None x : m !! x = None → root m x = x.
Proof using Hd. intros. apply root_eq; [done|]. by constructor. Qed.

Lemma root_Some x p : m !! x = Some p → root m x = root m p.
Proof using Hd.
  intros. apply root_eq; [done|]. eapply rooted_step; [done|]. by apply root_rooted.
Qed.

Lemma root_end x : m !! root m x = None.
Proof using Hd. by eapply rooted_end, root_rooted. Qed.

Lemma root_idem x : root m (root m x) = root m x.
Proof using Hd. apply root_None, root_end. Qed.

Lemma root_self x : root m x = x ↔ m !! x = None.
Proof using Hd.
  split; [|apply root_None]. intros <-. apply root_end.
Qed.

(** Replacing a recorded parent by any smaller node of the same class: the
    one shape of write that halving and the read repair make. *)
Lemma relink_ok x y :
  is_Some (m !! x) → y < x → root m y = root m x →
  decreasing (<[x := y]> m) ∧ ∀ z, root (<[x := y]> m) z = root m z.
Proof using Hd.
  intros [p Hp] Hlt Hr.
  assert (decreasing (<[x := y]> m)) as Hd'.
  { intros a b. rewrite lookup_insert. case_decide; [|apply Hd]. naive_solver. }
  split; [done|]. intros z.
  induction z as [z IH] using (well_founded_induction N.lt_wf_0).
  apply root_eq; [done|]. destruct (decide (x = z)) as [->|Hne].
  - eapply rooted_step; [apply lookup_insert_eq|].
    apply root_eq; [done|]. by rewrite IH, Hr.
  - destruct (m !! z) as [q|] eqn:Hq.
    + eapply rooted_step; [by rewrite lookup_insert_ne|].
      apply root_eq; [done|]. rewrite (root_Some _ _ Hq). apply IH. by apply Hd in Hq.
    + rewrite (root_None _ Hq). constructor. by rewrite lookup_insert_ne.
Qed.

(** Linking a root below another root absorbs its class. *)
Lemma link_ok c p :
  m !! c = None → m !! p = None → p < c →
  decreasing (<[c := p]> m) ∧ ∀ z, root (<[c := p]> m) z = absorb c p (root m) z.
Proof using Hd.
  intros Hc Hp Hlt.
  assert (decreasing (<[c := p]> m)) as Hd'.
  { intros a b. rewrite lookup_insert. case_decide; [|apply Hd]. naive_solver. }
  split; [done|]. intros z.
  induction z as [z IH] using (well_founded_induction N.lt_wf_0).
  apply root_eq; [done|]. destruct (decide (c = z)) as [->|Hne].
  - eapply rooted_step; [apply lookup_insert_eq|].
    unfold absorb. rewrite (root_None z) by done. rewrite decide_True by done.
    constructor. rewrite lookup_insert_ne by lia. done.
  - destruct (m !! z) as [q|] eqn:Hq.
    + eapply rooted_step; [by rewrite lookup_insert_ne|].
      apply root_eq; [done|]. rewrite IH by (by apply Hd in Hq).
      unfold absorb. by rewrite (root_Some _ _ Hq).
    + unfold absorb. rewrite (root_None _ Hq). rewrite decide_False by done.
      constructor. by rewrite lookup_insert_ne.
Qed.
End root.

Lemma insert_dom_size (m : gmap NodeId NodeId) x y :
  is_Some (m !! x) → dom (<[x := y]> m) = dom m.
Proof. intros. apply dom_insert_lookup_L. done. Qed.

Lemma find_loop_spec m fuel x :
  decreasing m → (below m x < fuel)%nat →
  ∃ m', find_loop fuel m x = Some (root m x, m') ∧ decreasing m' ∧
        dom m' = dom m ∧ ∀ z, root m' z = root m z.
Proof.
  revert m x. induction fuel as [|fuel IH]; intros m x Hd Hf; [lia|].
  simpl. destruct (m !! x) as [p|] eqn:Hp; [|by exists m; rewrite root_None].
  destruct (m !! p) as [gp|] eqn:Hgp; last first.
  { exists m. by rewrite (root_Some m Hd x p), root_None. }
  pose proof (Hd _ _ Hp). pose proof (Hd _ _ Hgp).
  assert (root m gp = root m x) as Hr.
  { by rewrite (root_Some m Hd x p Hp), (root_Some m Hd p gp Hgp). }
  destruct (relink_ok m Hd x gp) as [Hd' Hroot]; [eauto|lia|done|].
  assert (dom (<[x := gp]> m) = dom m) as Hdom by (apply insert_dom_size; eauto).
  destruct (IH (<[x := gp]> m) gp Hd') as (m' & Hm' & ? & Hdom' & Hroot').
  { unfold below. rewrite Hdom.
    pose proof (below_step _ _ _ Hp (Hd _ _ Hp)).
    pose proof (below_step _ _ _ Hgp (Hd _ _ Hgp)). unfold below in *. lia. }
  exists m'. split_and!; [|done|by rewrite Hdom'|].
  - by rewrite Hm', Hroot, Hr.
  - intros z. by rewrite Hroot', Hroot.
Qed.

(** ** Well-formed DSUs and what each operation does to the root function *)

Definition dsu_wf (d : Dsu) : Prop := decreasing (parents d).
Definition droot (d : Dsu) : NodeId → NodeId := root (parents d).

(** The merge-edge index lists every absorbed node exactly once, under a smaller
    node of its own class. *)
Record index_ok (d : Dsu) (ch : gmap NodeId (list NodeId)) : Prop := {
  index_complete c : is_Some (parents d !! c) → ∃ p, c ∈ kids ch p;
  index_sound c p : c ∈ kids ch p → is_Some (parents d !! c) ∧ p < c ∧ droot d p = droot d c;
  index_nodup p : NoDup (kids ch p);
  index_once c p q : c ∈ kids ch p → c ∈ kids ch q → p = q;
}.

(** Compression: same classes, same keys, nothing else moved. *)
Record compressed (d d' : Dsu) : Prop := {
  comp_wf : dsu_wf d';
  comp_root z : droot d' z = droot d z;
  comp_dom : dom (parents d') = dom (parents d);
  comp_children : children d' = children d;
  comp_merges : merges d' = merges d;
}.

Lemma compressed_refl d : dsu_wf d → compressed d d.
Proof. by split. Qed.

Lemma compressed_trans d1 d2 d3 : compressed d1 d2 → compressed d2 d3 → compressed d1 d3.
Proof.
  intros [? H1 ? ? ?] [? H2 ? ? ?]. split; [done| |congruence..].
  intros z. by rewrite H2, H1.
Qed.

#[export] Hint Resolve compressed_refl compressed_trans comp_wf : blaze.

Lemma compressed_lookup d d' x :
  compressed d d' → is_Some (parents d' !! x) ↔ is_Some (parents d !! x).
Proof. intros C. by rewrite <-!elem_of_dom, (comp_dom _ _ C). Qed.

Lemma compressed_index d d' ch : compressed d d' → index_ok d ch → index_ok d' ch.
Proof.
  intros C [H1 H2 H3 H4]. split; [| |done|done].
  - intros c. rewrite (compressed_lookup _ _ _ C). apply H1.
  - intros c p Hc. rewrite (compressed_lookup _ _ _ C), !(comp_root _ _ C). by apply H2.
Qed.

Section dsu.
Context (d : Dsu) (Hd : dsu_wf d).

Lemma droot_le x : droot d x <= x.
Proof using Hd. by apply root_le. Qed.
Lemma droot_idem x : droot d (droot d x) = droot d x.
Proof using Hd. by apply root_idem. Qed.
Lemma droot_self x : droot d x = x ↔ parents d !! x = None.
Proof using Hd. by apply root_self. Qed.

Lemma droot_key x : droot d x ≠ x ↔ x ∈ dom (parents d).
Proof using Hd.
  rewrite droot_self, elem_of_dom, <-not_eq_None_Some. done.
Qed.

Lemma find_spec x : ∃ d', find d x = (droot d x, d') ∧ compressed d d'.
Proof using Hd.
  unfold find.
  destruct (find_loop_spec (parents d) (S (size (parents d))) x Hd) as (m & -> & ? & ? & ?).
  { pose proof (below_size (parents d) x). lia. }
  eexists. split; [done|]. by split.
Qed.

Lemma ro_walk_depth m fuel x k r n :
  ro_walk fuel m x k = Some (r, n) → (k <= n)%nat ∧ ((k < n)%nat → is_Some (m !! x)).
Proof using.
  revert x k. induction fuel as [|fuel IH]; intros x k; [done|]. simpl.
  destruct (m !! x) eqn:E; intros H; simplify_eq.
  - apply IH in H as [H _]. split; [lia|eauto].
  - split; [done|lia].
Qed.

Lemma find_ro_spec x : ∃ d', find_ro d x = (droot d x, d') ∧ compressed d d'.
Proof using Hd.
  unfold find_ro.
  destruct (ro_walk_spec (parents d) (S (size (parents d))) x 0 (droot d x)) as [n Hn];
    [done|by apply root_rooted|pose proof (below_size (parents d) x); lia|].
  rewrite Hn. destruct (Nat.ltb_spec RO_COMPRESS_DEPTH n) as [Hdeep|]; [|eauto with blaze].
  destruct (ro_walk_depth _ _ _ _ _ _ Hn) as [_ Hx].
  assert (is_Some (parents d !! x)) as Hs by (apply Hx; unfold RO_COMPRESS_DEPTH in *; lia).
  assert (droot d x < x) as Hlt.
  { pose proof (droot_le x).
    assert (droot d x ≠ x) by (apply droot_key, elem_of_dom; done). lia. }
  destruct (relink_ok (parents d) Hd x (droot d x)) as [Hw Hr];
    [done|done|apply droot_idem|].
  eexists. split; [done|]. split; simpl; try done.
  by apply insert_dom_size.
Qed.

(** [link] of two roots. *)
Lemma link_spec c p :
  parents d !! c = None → parents d !! p = None → p < c →
  dsu_wf (link d c p) ∧ (∀ z, droot (link d c p) z = absorb c p (droot d) z) ∧
  dom (parents (link d c p)) = {[c]} ∪ dom (parents d).
Proof using Hd.
  intros Hc Hp Hlt. destruct (link_ok (parents d) Hd c p) as [H1 H2]; [done..|].
  split_and!; [done|done|]. simpl. by rewrite dom_insert_L.
Qed.

Lemma kids_link ch c p q :
  kids (<[p := kids ch p ++ [c]]> ch) q = if decide (p = q) then kids ch q ++ [c] else kids ch q.
Proof using.
  unfold kids at 1. rewrite lookup_insert. case_decide; subst; done.
Qed.

Lemma link_index ch c p :
  parents d !! c = None → parents d !! p = None → p < c →
  index_ok d ch → index_ok (link d c p) (<[p := kids ch p ++ [c]]> ch).
Proof using Hd.
  intros Hc Hp Hlt I. destruct (link_spec c p) as (Hw & Hr & Hdom); [done..|].
  assert (∀ q, c ∉ kids ch q) as Hfresh.
  { intros q Hq. apply (index_sound _ _ I) in Hq as [[? Hs] _]. congruence. }
  assert (∀ x q, x ∈ kids (<[p := kids ch p ++ [c]]> ch) q ↔ x ∈ kids ch q ∨ (x = c ∧ q = p)) as Hk.
  { intros x q. rewrite kids_link. case_decide; set_solver. }
  split.
  - intros x. rewrite <-elem_of_dom, Hdom. setoid_rewrite Hk.
    intros [->%elem_of_singleton|Hx]%elem_of_union; [by exists p; right|].
    apply elem_of_dom, (index_complete _ _ I) in Hx as [q Hq]. eauto.
  - intros x q [Hx|[-> ->]]%Hk; rewrite <-elem_of_dom, Hdom, !Hr.
    + apply (index_sound _ _ I) in Hx as (Hs & Hxq & Hroot).
      split_and!; [apply elem_of_union; right; by apply elem_of_dom|done|].
      unfold absorb. by rewrite Hroot.
    + split_and!; [set_solver|done|]. unfold absorb.
      rewrite (proj2 (droot_self c)), (proj2 (droot_self p)) by done.
      repeat case_decide; congruence.
  - intros q. rewrite kids_link. case_decide; [|apply (index_nodup _ _ I)].
    apply NoDup_app. split_and!; [apply (index_nodup _ _ I)| |apply NoDup_singleton].
    intros x Hx ->%list_elem_of_singleton. by apply Hfresh in Hx.
  - intros x q q' [Hx|[-> ->]]%Hk [Hx'|[? ->]]%Hk; subst; auto.
    + by eapply (index_once _ _ I).
    + by apply Hfresh in Hx.
    + by apply Hfresh in Hx'.
Qed.
End dsu.

Lemma link_children d c p ch :
  children d = Some ch → children (link d c p) = Some (<[p := kids ch p ++ [c]]> ch).
Proof. intros H. unfold link. simpl. by rewrite H. Qed.

(** What [union] does, on both of its branches. *)
Record union_result (d : Dsu) (a b : NodeId) (o : option Merge) (d' : Dsu) : Prop := {
  ur_wf : dsu_wf d';
  ur_root z : droot d' z = join a b (droot d) z;
  ur_merge : o = if decide (a = b) then None else Some (mkMerge (N.max a b) (N.min a b));
  ur_dom : dom (parents d') = if decide (a = b) then dom (parents d)
                              else {[N.max a b]} ∪ dom (parents d);
  ur_merges : merges d' = if decide (a = b) then merges d else merges d ⊞ 1;
  ur_tracks : dsu_tracks_members d' = dsu_tracks_members d;
  ur_index ch : children d = Some ch → index_ok d ch →
                ∃ ch', children d' = Some ch' ∧ index_ok d' ch';
}.

Lemma link_merges_irrel d m ch : index_ok d ch → index_ok (mkDsu (parents d) (children d) m) ch.
Proof. by intros []. Qed.

Lemma union_spec d u v :
  dsu_wf d → ∃ o d', union d u v = (o, d') ∧ union_result d (droot d u) (droot d v) o d'.
Proof.
  intros Hd. unfold union.
  destruct (find_spec d Hd u) as (d1 & -> & C1).
  destruct (find_spec d1 (comp_wf _ _ C1) v) as (d2 & -> & C2).
  rewrite (comp_root _ _ C1). pose proof (compressed_trans _ _ _ C1 C2) as C.
  set (a := droot d u). set (b := droot d v).
  pose proof (comp_wf _ _ C) as Hw.
  destruct (N.eqb_spec a b) as [Eab|Hne].
  { eexists _, d2. split; [done|]. split; rewrite ?decide_True by done; try apply C.
    - intros z. rewrite (comp_root _ _ C), Eab. by rewrite join_same.
    - done.
    - unfold dsu_tracks_members. by rewrite (comp_children _ _ C).
    - intros ch Hch I. rewrite (comp_children _ _ C). eauto using compressed_index. }
  assert ((if a <? b then (b, a) else (a, b)) = (N.max a b, N.min a b)) as ->.
  { bool_cases; f_equal; lia. }
  assert (∀ x, x = a ∨ x = b → parents d2 !! x = None) as Hroots.
  { intros x Hx. apply droot_self; [done|]. rewrite (comp_root _ _ C).
    destruct Hx as [->| ->]; by apply droot_idem. }
  assert (parents d2 !! N.max a b = None) as Hc by (apply Hroots; lia).
  assert (parents d2 !! N.min a b = None) as Hp by (apply Hroots; lia).
  assert (N.min a b < N.max a b) as Hlt by lia.
  destruct (link_spec d2 Hw _ _ Hc Hp Hlt) as (Hw' & Hr & Hdom).
  eexists _, _. split; [done|]. split; rewrite ?decide_False by done; simpl.
  - done.
  - intros z. change (droot (link d2 (N.max a b) (N.min a b)) z = join a b (droot d) z).
    rewrite Hr. unfold join, absorb. by rewrite (comp_root _ _ C).
  - done.
  - simpl in Hdom. by rewrite Hdom, (comp_dom _ _ C).
  - by rewrite (comp_merges _ _ C).
  - unfold dsu_tracks_members. simpl. rewrite (comp_children _ _ C).
    by destruct (children d).
  - intros ch Hch I. rewrite <-(comp_children _ _ C) in Hch.
    rewrite Hch. eexists. split; [done|].
    pose proof (link_index d2 Hw ch _ _ Hc Hp Hlt (compressed_index _ _ _ C I)) as I'.
    destruct I' as [I1 I2 I3 I4]. by split.
Qed.

(** ** Sequences of operations *)

Inductive dsu_op :=
| OpUnion (u v : NodeId)
| OpFind (x : NodeId)
| OpFindRo (x : NodeId).

Definition run_op (d : Dsu) (op : dsu_op) : Dsu :=
  match op with
  | OpUnion u v => (union d u v).2
  | OpFind x => (find d x).2
  | OpFindRo x => (find_ro d x).2
  end.

Definition run_ops (d : Dsu) (ops : list dsu_op) : Dsu := foldl run_op d ops.

(** The edges a sequence of operations has merged. *)
Definition op_edges (ops : list dsu_op) : edges :=
  omap (fun op => match op with OpUnion u v => Some (u, v) | _ => None end) ops.

(** The invariant of a DSU reached from [dsu_tracking b] by merging [E]. *)
Record dsu_inv (d : Dsu) (E : edges) : Prop := {
  inv_wf : dsu_wf d;
  inv_canon : canonical (conn E) (droot d);
  inv_merges : merges d = wrap64 (N.of_nat (len_links d));
  inv_index ch : children d = Some ch → index_ok d ch;
}.

Lemma wrap64_add x y : wrap64 (wrap64 x + y) = wrap64 (x + y).
Proof. unfold wrap64. by rewrite N.Div0.add_mod_idemp_l. Qed.

Lemma dsu_tracking_inv b : dsu_inv (dsu_tracking b) [].
Proof.
  assert (dsu_wf (dsu_tracking b)) as Hw by (intros x p; simpl; by rewrite lookup_empty).
  split; [done| |done|].
  - eapply canonical_ext; [done| |apply canonical_id].
    intros x. symmetry. by apply droot_self.
  - intros ch Hch. destruct b; simplify_eq/=.
    assert (∀ p, kids ∅ p = []) as Hk by (intros p; unfold kids; by rewrite lookup_empty).
    split.
    + intros c. simpl. rewrite lookup_empty. by intros [].
    + intros c p. rewrite Hk. by intros H%elem_of_nil.
    + intros p. rewrite Hk. constructor.
    + intros c p q. rewrite Hk. by intros H%elem_of_nil.
Qed.

Lemma compressed_inv d d' E : compressed d d' → dsu_inv d E → dsu_inv d' E.
Proof.
  intros C [H1 H2 H3 H4]. split; [apply C| | |].
  - eapply canonical_ext; [done| |done]. intros x. by rewrite (comp_root _ _ C).
  - unfold len_links. by rewrite <-size_dom, (comp_dom _ _ C), size_dom, (comp_merges _ _ C).
  - intros ch. rewrite (comp_children _ _ C). eauto using compressed_index.
Qed.

Lemma union_inv d E u v : dsu_inv d E → dsu_inv (union d u v).2 ((u, v) :: E).
Proof.
  intros [H1 H2 H3 H4]. destruct (union_spec d u v H1) as (o & d' & -> & U). simpl.
  split; [apply U| | |].
  - eapply canonical_ext; [done| |by apply canonical_add_edge].
    intros x. by rewrite (ur_root _ _ _ _ _ U).
  - rewrite (ur_merges _ _ _ _ _ U). unfold len_links.
    rewrite <-size_dom, (ur_dom _ _ _ _ _ U). case_decide.
    + by rewrite size_dom.
    + assert (N.max (droot d u) (droot d v) ∉ dom (parents d)) as Hn.
      { rewrite <-droot_key by done.
        destruct (N.max_spec (droot d u) (droot d v)) as [[_ ->]|[_ ->]];
          rewrite droot_idem by done; auto. }
      rewrite size_union, size_singleton, size_dom by set_solver.
      rewrite H3. unfold wadd64. rewrite wrap64_add. f_equal. unfold len_links. lia.
  - intros ch Hch. destruct (children d) as [ch0|] eqn:E0.
    + destruct (ur_index _ _ _ _ _ U ch0 E0 (H4 _ eq_refl)) as (ch' & ? & ?). congruence.
    + pose proof (ur_tracks _ _ _ _ _ U) as Ht. unfold dsu_tracks_members in Ht.
      rewrite E0, Hch in Ht. repeat case_bool_decide; try done. naive_solver.
Qed.

Lemma run_op_inv d E op : dsu_inv d E → dsu_inv (run_op d op) (op_edges [op] ++ E).
Proof.
  intros I. destruct op as [u v|x|x]; simpl.
  - by apply union_inv.
  - destruct (find_spec d (inv_wf _ _ I) x) as (d' & -> & C). eauto using compressed_inv.
  - destruct (find_ro_spec d (inv_wf _ _ I) x) as (d' & -> & C). eauto using compressed_inv.
Qed.

Lemma dsu_inv_edges d E E' :
  (∀ u v, (u, v) ∈ E ↔ (u, v) ∈ E') → dsu_inv d E → dsu_inv d E'.
Proof.
  intros HE [H1 H2 H3 H4]. split; try done.
  eapply canonical_ext; [|done|done]. by apply conn_same_edges.
Qed.

Lemma run_ops_inv d E ops : dsu_inv d E → dsu_inv (run_ops d ops) (op_edges ops ++ E).
Proof.
  revert d E. induction ops as [|op ops IH]; intros d E I; [done|].
  eapply dsu_inv_edges; [|apply IH, run_op_inv, I].
  intros u v. unfold op_edges. simpl. destruct op; simpl; set_solver.
Qed.

(** Whatever sequence of unions and lookups has run, [find] and [find_ro]
    return the lowest node id of the component, [connected] decides
    connectivity, and [union] reports no merge exactly when the two nodes were
    already connected. *)
Theorem dsu_component_min (b : bool) (ops : list dsu_op) (x y : NodeId) :
  let d := run_ops (dsu_tracking b) ops in
  let E := op_edges ops in
  is_component_min E x (find d x).1 ∧
  is_component_min E x (find_ro d x).1 ∧
  ((dsu_connected d x y).1 = true ↔ conn E x y) ∧
  ((union d x y).1 = None ↔ conn E x y).
Proof.
  intros d E.
  assert (dsu_inv d E) as I.
  { eapply dsu_inv_edges; [|apply (run_ops_inv _ []), dsu_tracking_inv].
    intros u v. by rewrite app_nil_r. }
  pose proof (inv_canon _ _ I) as C. pose proof (inv_wf _ _ I) as Hw.
  split_and!.
  - destruct (find_spec d Hw x) as (? & -> & _). by apply canonical_min.
  - destruct (find_ro_spec d Hw x) as (? & -> & _). by apply canonical_min.
  - unfold dsu_connected. destruct (find_ro_spec d Hw x) as (d1 & -> & C1).
    destruct (find_ro_spec d1 (comp_wf _ _ C1) y) as (d2 & -> & C2). simpl.
    rewrite (comp_root _ _ C1), N.eqb_eq. symmetry. apply (canon_iff _ _ C).
  - destruct (union_spec d x y Hw) as (o & d' & -> & U). simpl.
    rewrite (canon_iff _ _ C), (ur_merge _ _ _ _ _ U). by case_decide.
Qed.

(** C34. In every reachable state each recorded parent is a strictly smaller
    id, so the loops of [find] and [find_ro] finish within one step per link,
    the merge counter equals the number of links (modulo 2^64), and the
    merge-edge index lists every absorbed node once under a smaller node of its
    component. *)
Theorem dsu_reachable_invariant (b : bool) (ops : list dsu_op) :
  let d := run_ops (dsu_tracking b) ops in
  (∀ x p, parents d !! x = Some p → p < x) ∧
  (∀ x, is_Some (find_loop (S (len_links d)) (parents d) x)) ∧
  (∀ x, is_Some (ro_walk (S (len_links d)) (parents d) x 0)) ∧
  merges d = wrap64 (N.of_nat (len_links d)) ∧
  (∀ ch, children d = Some ch → index_ok d ch).
Proof.
  intros d. pose proof (run_ops_inv _ _ ops (dsu_tracking_inv b)) as [H1 _ H3 H4].
  fold d in H1, H3, H4. split_and!; [done| | |done|done].
  - intros x. destruct (find_loop_spec (parents d) (S (len_links d)) x H1) as (? & -> & _);
      [pose proof (below_size (parents d) x); unfold len_links; lia|done].
  - intros x. destruct (ro_walk_spec (parents d) (S (len_links d)) x 0 (droot d x)) as [n ->];
      [done|by apply root_rooted|pose proof (below_size (parents d) x); unfold len_links; lia|done].
Qed.

(** ** Racing readers

    [find] and [find_ro] take no lock: a walk reads one parent at a time while
    the writer links and other walks write. A walk in progress is its start node
    and the node it has reached; its compressing write stores the latter as the
    parent of the former, however stale it has become. Unions are serialised by
    the caller, so [link] of two current roots is one step. *)

Record race := mkRace {
  race_map : gmap NodeId NodeId;
  race_walks : list (NodeId * NodeId);
  race_edges : edges;
}.

Inductive race_step : race → race → Prop :=
| race_start m w E x :
    race_step (mkRace m w E) (mkRace m ((x, x) :: w) E)
| race_move m w1 w2 E x cur p :
    m !! cur = Some p →
    race_step (mkRace m (w1 ++ (x, cur) :: w2) E) (mkRace m (w1 ++ (x, p) :: w2) E)
| race_write m w E x cur :
    (x, cur) ∈ w → cur ≠ x →
    race_step (mkRace m w E) (mkRace (<[x := cur]> m) w E)
| race_link m w E u v c p :
    root m u = c → root m v = p → p < c →
    race_step (mkRace m w E) (mkRace (<[c := p]> m) w ((u, v) :: E)).

(** A walk stays inside the class of its start. *)
Definition walk_ok (m : gmap NodeId NodeId) (w : NodeId * NodeId) : Prop :=
  w.2 = w.1 ∨ (is_Some (m !! w.1) ∧ w.2 < w.1 ∧ root m w.2 = root m w.1).

Record race_inv (r : race) : Prop := {
  race_dec : decreasing (race_map r);
  race_canon : canonical (conn (race_edges r)) (root (race_map r));
  race_ok : Forall (walk_ok (race_map r)) (race_walks r);
}.

Lemma race_init_inv : race_inv (mkRace ∅ [] []).
Proof.
  assert (decreasing ∅) as Hd by (intros x p; by rewrite lookup_empty).
  split; [done| |constructor]. eapply canonical_ext; [done| |apply canonical_id].
  intros x. by rewrite root_None.
Qed.

Lemma race_step_inv r r' : race_inv r → race_step r r' → race_inv r'.
Proof.
  intros [Hd Hc Hw] S. destruct S as [m w E x|m w1 w2 E x cur p Hp|m w E x cur Hin Hne|m w E u v c p Hc' Hp Hlt]; simpl in *.
  - split; [done|done|]. constructor; [by left|done].
  - split; [done|done|]. simpl.
    apply Forall_app in Hw as [H1 [H2 H3]%Forall_cons].
    apply Forall_app; split; [done|]. apply Forall_cons; split; [|done].
    pose proof (Hd _ _ Hp). right. simpl.
    destruct H2 as [E2|(Hs & Hl & Hr)]; simpl in *; subst.
    + split_and!; [eauto|done|]. by rewrite (root_Some m Hd x p).
    + split_and!; [done|lia|]. by rewrite <-Hr, (root_Some m Hd cur p).
  - assert (walk_ok m (x, cur)) as [E1|(Hs & Hl & Hr)]; [|done|].
    { rewrite Forall_forall in Hw. by apply Hw. }
    simpl in *. destruct (relink_ok m Hd x cur) as [Hd' Hroot]; [done..|].
    split; simpl; [done| |].
    + eapply canonical_ext; [done| |done]. done.
    + eapply Forall_impl; [done|]. intros [y z] [E2|(Hs' & Hl' & Hr')]; [by left|].
      right. rewrite !Hroot, lookup_insert. split_and!; [by case_decide|done|done].
  - assert (m !! c = None) as Hcn by (subst c; by apply root_end).
    assert (m !! p = None) as Hpn by (subst p; by apply root_end).
    destruct (link_ok m Hd c p) as [Hd' Hroot]; [done..|].
    split; simpl; [done| |].
    + eapply canonical_ext; [done| |by apply (canonical_add_edge E (root m) u v)].
      intros x. rewrite Hroot. unfold join. by rewrite Hc', Hp, N.max_l, N.min_r by lia.
    + eapply Forall_impl; [done|]. intros [y z] [E2|(Hs' & Hl' & Hr')]; [by left|].
      right. rewrite !Hroot, lookup_insert. unfold absorb.
      split_and!; [by case_decide|done|by rewrite Hr'].
Qed.

Lemma race_steps_inv r r' : rtc race_step r r' → race_inv r → race_inv r'.
Proof. induction 1; eauto using race_step_inv. Qed.

(** Under any interleaving of walks, their stale compressing writes and
    serialised links, the parent map stays acyclic, roots stay the component
    minima of the linked edges, and a walk that reaches a node without a parent
    has reached the current representative of its start. *)
Theorem racing_finds_safe (r : race) :
  rtc race_step (mkRace ∅ [] []) r →
  decreasing (race_map r) ∧
  (∀ x, is_component_min (race_edges r) x (root (race_map r) x)) ∧
  (∀ x cur, (x, cur) ∈ race_walks r → race_map r !! cur = None →
     is_component_min (race_edges r) x cur).
Proof.
  intros Hr. assert (race_inv r) as [Hd Hc Hw].
  { by eapply race_steps_inv, race_init_inv. }
  split_and!; [done|intros; by apply canonical_min|].
  intros x cur Hin Hcur. rewrite Forall_forall in Hw.
  assert (root (race_map r) x = cur) as <-; [|by apply canonical_min].
  destruct (Hw _ Hin) as [E|(_ & _ & E)]; simpl in *; subst.
  - by apply root_None.
  - by rewrite <-E, root_None.
Qed.

Lemma racing_finds_safe_witness :
  ∃ r, rtc race_step (mkRace ∅ [] []) r ∧ race_map r !! 7 = Some 3 ∧
       is_component_min (race_edges r) 7 (root (race_map r) 7).
Proof.
  exists (mkRace {[7 := 3]} [(7, 3)] [(7, 3)]).
  assert (rtc race_step (mkRace ∅ [] []) (mkRace {[7 := 3]} [(7, 3)] [(7, 3)])) as H.
  { eapply rtc_l; [apply (race_link ∅ [] [] 7 3 7 3); done|].
    eapply rtc_l; [apply (race_start _ _ _ 7)|].
    apply rtc_once. apply (race_move _ [] [] _ 7 7 3). done. }
  split; [exact H|]. split; [done|].
  exact (proj1 (proj2 (racing_finds_safe _ H)) 7).
Defined.

(** ** Snapshot and hydration *)

(** Fully resolved pairs: one per node, pointing at a smaller node that has no
    pair of its own. *)
Record resolved (l : list (NodeId * NodeId)) : Prop := {
  res_nodup : NoDup l.*1;
  res_lt n r : (n, r) ∈ l → r < n;
  res_root n r : (n, r) ∈ l → r ∉ l.*1;
}.

(** The root function a list of resolved pairs denotes. *)
Definition pairs_root (l : list (NodeId * NodeId)) (x : NodeId) : NodeId :=
  default x ((list_to_map l : gmap NodeId NodeId) !! x).

Lemma snapshot_keys_spec ks d :
  dsu_wf d → ∃ d', snapshot_keys ks d = ((fun k => (k, droot d k)) <$> ks, d') ∧ compressed d d'.
Proof.
  revert d. induction ks as [|k ks IH]; intros d Hd; [by exists d; auto with blaze|].
  simpl. destruct (find_spec d Hd k) as (d1 & -> & C1).
  destruct (IH d1 (comp_wf _ _ C1)) as (d2 & -> & C2).
  exists d2. split; [|eauto with blaze].
  assert (((fun k => (k, droot d1 k)) <$> ks) = ((fun k => (k, droot d k)) <$> ks)) as ->; [|done].
  apply list_fmap_ext. intros i x _. f_equal. apply (comp_root _ _ C1).
Qed.

Lemma fst_root_pairs (ρ : NodeId → NodeId) ks : ((fun k => (k, ρ k)) <$> ks).*1 = ks.
Proof. induction ks; by f_equal/=. Qed.

Lemma root_pairs_resolved (ρ : NodeId → NodeId) ks :
  NoDup ks → (∀ x, ρ x <= x) → (∀ x, ρ (ρ x) = ρ x) → (∀ k, k ∈ ks → ρ k ≠ k) →
  resolved ((fun k => (k, ρ k)) <$> ks).
Proof.
  intros Hnd Hle Hi Hk.
  pose proof (fst_root_pairs ρ ks) as Hfst.
  split; rewrite ?Hfst; [done| |].
  - intros n r (k & [= -> ->] & Hin)%list_elem_of_fmap.
    pose proof (Hle k). pose proof (Hk k Hin). lia.
  - intros n r (k & [= -> ->] & Hin)%list_elem_of_fmap Hr. apply Hk in Hr. by rewrite Hi in Hr.
Qed.

Lemma pairs_root_fmap (ρ : NodeId → NodeId) ks x :
  NoDup ks → pairs_root ((fun k => (k, ρ k)) <$> ks) x = if decide (x ∈ ks) then ρ x else x.
Proof.
  intros Hnd. unfold pairs_root.
  pose proof (fst_root_pairs ρ ks) as Hfst.
  case_decide as Hx.
  - rewrite (elem_of_list_to_map_1 _ x (ρ x)); [done|by rewrite Hfst|].
    apply list_elem_of_fmap. eauto.
  - rewrite not_elem_of_list_to_map_1; [done|]. by rewrite Hfst.
Qed.

(** Linking resolved pairs into a DSU that holds other resolved pairs. *)
Lemma hydrate_links l : ∀ d,
  dsu_wf d → resolved l →
  (∀ n r, (n, r) ∈ l → parents d !! n = None ∧ parents d !! r = None) →
  (∀ ch, children d = Some ch → index_ok d ch) →
  let d' := foldl (fun d nr => if nr.1 =? nr.2 then d else link d nr.1 nr.2) d l in
  dsu_wf d' ∧
  (∀ x, droot d' x = pairs_root l (droot d x)) ∧
  (∀ ch, children d' = Some ch → index_ok d' ch) ∧
  dsu_tracks_members d' = dsu_tracks_members d ∧
  dom (parents d') = dom (parents d) ∪ list_to_set l.*1 ∧
  (∀ n r, parents d' !! n = Some r → parents d !! n = Some r ∨ (n, r) ∈ l).
Proof.
  induction l as [|[n r] l IH]; intros d Hd R Hfree I; cbn [foldl fst snd].
  { split_and!; [done|done|done|done|simpl; set_solver|auto]. }
  pose proof (res_nodup _ R) as Hnd. cbn in Hnd. apply NoDup_cons in Hnd as [Hn Hnd].
  assert (r < n) as Hlt by (apply (res_lt _ R); left).
  destruct (N.eqb_spec n r) as [->|_]; [lia|].
  destruct (Hfree n r ltac:(left)) as [Hn0 Hr0].
  destruct (link_spec d Hd n r Hn0 Hr0 Hlt) as (Hw & Hroot & Hdom).
  assert (resolved l) as R'.
  { split; [done|intros; eapply (res_lt _ R); by right|].
    intros a b Hab Hb. eapply (res_root _ R); [right; exact Hab|]. cbn. by right. }
  destruct (IH (link d n r) Hw R') as (H1 & H2 & H3 & H4 & H5 & H6).
  { intros a b Hab. destruct (Hfree a b) as [Ha Hb]; [by right|].
    assert (a ≠ n). { intros ->. apply Hn. apply list_elem_of_fmap. by exists (n, b). }
    assert (b ≠ n). { intros ->. eapply (res_root _ R); [right; exact Hab|]. cbn. left. }
    simpl. by rewrite !lookup_insert_ne. }
  { intros ch Hch. destruct (children d) as [ch0|] eqn:E0.
    - rewrite (link_children _ _ _ _ E0) in Hch. simplify_eq. by apply link_index; auto.
    - unfold link in Hch. simpl in Hch. by rewrite E0 in Hch. }
  split_and!; [done| |done| | |].
  - intros x. rewrite H2, Hroot. unfold pairs_root, absorb. cbn [list_to_map foldr].
    assert (∀ y, (list_to_map ((n, r) :: l) : gmap _ _) !! y =
      if decide (n = y) then Some r else (list_to_map l : gmap NodeId NodeId) !! y) as Hlm.
    { intros y. cbn. by rewrite lookup_insert. }
    rewrite Hlm. destruct (decide (droot d x = n)) as [->|Hne].
    + rewrite decide_True by done. simpl.
      rewrite not_elem_of_list_to_map_1; [done|].
      intros Hr. eapply (res_root _ R n r); [left|]. cbn. by right.
    + by rewrite decide_False.
  - rewrite H4. unfold dsu_tracks_members. simpl. by destruct (children d).
  - rewrite H5, Hdom. cbn. set_solver.
  - intros a b [Hab|Hab]%H6; [|right; by right]. simpl in Hab.
    rewrite lookup_insert in Hab. case_decide; simplify_eq; [right; left|by left].
Qed.

Lemma hydrate_spec b l :
  resolved l →
  let d := dsu_hydrate (dsu_tracking b) l in
  dsu_wf d ∧ (∀ x, droot d x = pairs_root l x) ∧
  (∀ ch, children d = Some ch → index_ok d ch) ∧
  dsu_tracks_members d = b ∧
  merges d = wrap64 (N.of_nat (len_links d)) ∧
  dom (parents d) = list_to_set l.*1 ∧
  (∀ n r, parents d !! n = Some r → parents d !! r = None).
Proof.
  intros R d. destruct (dsu_tracking_inv b) as [Hw _ _ I].
  destruct (hydrate_links l (dsu_tracking b) Hw R) as (H1 & H2 & H3 & H4 & H5 & H6).
  { intros. simpl. by rewrite !lookup_empty. }
  { done. }
  assert (dom (parents d) = list_to_set l.*1) as Hdom.
  { unfold d, dsu_hydrate. cbn [parents]. rewrite H5. cbn. rewrite dom_empty_L. set_solver. }
  split_and!; [done| | | |done|done|].
  - intros x. change (droot d x) with (droot (foldl (fun d nr => if nr.1 =? nr.2 then d
      else link d nr.1 nr.2) (dsu_tracking b) l) x).
    by rewrite H2.
  - intros ch Hch. destruct (H3 ch Hch) as [I1 I2 I3 I4]. by split.
  - etrans; [exact H4|]. by destruct b.
  - intros n r Hn. apply not_elem_of_dom. rewrite Hdom, elem_of_list_to_set.
    apply H6 in Hn as [Hn|Hn]; [simpl in Hn; by rewrite lookup_empty in Hn|].
    by apply (res_root _ R n).
Qed.

Lemma keys_nodup d : NoDup (keys d).
Proof. unfold keys. apply NoDup_elements. Qed.

Lemma elem_of_keys d k : dsu_wf d → k ∈ keys d ↔ droot d k ≠ k.
Proof. intros Hd. unfold keys. by rewrite elem_of_elements, droot_key. Qed.

(** A snapshot lists every non-root once with its root, and hydrating a
    fresh DSU from it restores every answer: the two agree on the
    representative of every node, and the hydrated trees have depth one. *)
Theorem dsu_snapshot_hydrate (b b' : bool) (ops : list dsu_op) (x : NodeId) :
  let d := run_ops (dsu_tracking b) ops in
  let snap := (dsu_snapshot d).1 in
  let fresh := dsu_hydrate (dsu_tracking b') snap in
  resolved snap ∧
  (find fresh x).1 = (find d x).1 ∧
  (∀ n r, parents fresh !! n = Some r → parents fresh !! r = None).
Proof.
  intros d snap fresh.
  pose proof (run_ops_inv _ _ ops (dsu_tracking_inv b)) as [Hw _ _ _]. fold d in Hw.
  destruct (snapshot_keys_spec (keys d) d Hw) as (d' & Hs & C).
  assert (snap = (fun k => (k, droot d k)) <$> keys d) as Esnap.
  { unfold snap, dsu_snapshot. by rewrite Hs. }
  assert (resolved snap) as R.
  { rewrite Esnap. apply root_pairs_resolved.
    - apply keys_nodup.
    - by apply droot_le.
    - by apply droot_idem.
    - intros k. by apply elem_of_keys. }
  destruct (hydrate_spec b' snap R) as (Hwf & Hroot & _ & _ & _ & _ & Hflat).
  fold fresh in Hwf, Hroot, Hflat.
  split_and!; [done| |done].
  destruct (find_spec fresh Hwf x) as (? & -> & _).
  destruct (find_spec d Hw x) as (? & -> & _). cbn [fst].
  rewrite Hroot, Esnap, pairs_root_fmap by apply keys_nodup.
  case_decide as Hk; [done|]. rewrite elem_of_keys in Hk by done.
  symmetry. by apply dec_stable.
Qed.

#[global] Arguments droot : simpl never.
#[global] Arguments find : simpl never.
#[global] Arguments find_ro : simpl never.
#[global] Arguments union : simpl never.
