(* ===== verification/View.v ===== *)
(** The invariant of layered connectivity, on root functions.

    A forest is seen through three functions: [G], the shared root of a node;
    [O s], the overlay root of a shared root in scope [s]; and [Reg], which
    scopes are registered on a shared root. [view_inv] says what ties them to the
    global edges [Eg] and the per-scope edges [Es], and the lemmas say how a
    global merge (with fix-ups) and a scope edge preserve it. Nothing here
    depends on how the functions are stored. *)

From S2P Require Import Prelude Types Graph.

Record view_inv (Eg : edges) (Es : ScopeId → edges)
    (G : NodeId → NodeId) (O : ScopeId → NodeId → NodeId)
    (Reg : NodeId → ScopeId → Prop) : Prop := {
  (** the shared tier is canonical for the global edges *)
  vi_global : canonical (conn Eg) G;
  vi_o_le s x : O s x <= x;
  vi_o_idem s x : O s (O s x) = O s x;
  (** an overlay element stands for its live shared root *)
  vi_live s x : touched (O s) x → O s x = O s (G x);
  (** and the scope is registered on that root *)
  vi_reg s x : touched (O s) x → Reg (G x) s;
  (** composing the tiers is canonical for what the scope sees *)
  vi_scope s : canonical (conn (Eg ++ Es s)) (fun x => O s (G x));
}.

Lemma view_inv_ext Eg Es G O Reg Eg' Es' G' O' (Reg' : NodeId → ScopeId → Prop) :
  (∀ u v, (u, v) ∈ Eg ↔ (u, v) ∈ Eg') →
  (∀ s u v, (u, v) ∈ Eg ++ Es s ↔ (u, v) ∈ Eg' ++ Es' s) →
  (∀ x, G x = G' x) → (∀ s x, O s x = O' s x) → (∀ r s, Reg r s → Reg' r s) →
  view_inv Eg Es G O Reg → view_inv Eg' Es' G' O' Reg'.
Proof.
  intros HEg HEs HG HO HR [H1 H2 H3 H4 H5 H6].
  assert (∀ s x, touched (O' s) x → touched (O s) x) as Ht.
  { intros s x (y & Hy & E). exists y. split; [done|]. by rewrite !HO. }
  split.
  - eapply canonical_ext; [by apply conn_same_edges|exact HG|done].
  - intros. by rewrite <-HO.
  - intros. by rewrite <-!HO.
  - intros s x T%Ht%H4. by rewrite <-HG, <-!HO.
  - intros s x T%Ht%H5. rewrite <-HG. by apply HR.
  - intros s. eapply canonical_ext; [| |apply (H6 s)].
    + by apply conn_same_edges.
    + intros x. cbn. by rewrite HO, HG.
Qed.

Lemma view_inv_init : view_inv [] (fun _ => []) id (fun _ => id) (fun _ _ => False).
Proof.
  split; try done.
  - apply canonical_id.
  - intros s x (y & Hy & E). done.
  - intros s. apply canonical_id.
Qed.

Lemma touched_join a b ρ x :
  (∀ y, ρ (ρ y) = ρ y) → ρ a = a → ρ b = b →
  touched (join a b ρ) x → touched ρ x ∨ ((x = a ∨ x = b) ∧ a ≠ b).
Proof.
  intros Hi Ha Hb (y & Hne & E). apply join_eq in E; [|done..].
  destruct E as [E|[[Ey Ex]|[Ey Ex]]].
  - left. by exists y.
  - destruct (decide (x = b)) as [->|]; [|left; exists (ρ x); rewrite Hi; split; congruence].
    destruct (decide (a = b)) as [->|]; [left; exists y; by rewrite Hb|auto].
  - destruct (decide (x = a)) as [->|]; [|left; exists (ρ x); rewrite Hi; split; congruence].
    destruct (decide (a = b)) as [->|]; [left; exists y; by rewrite Hb|auto].
Qed.

Lemma join_hit a b ρ x : ρ x = a ∨ ρ x = b → join a b ρ x = N.min a b.
Proof. unfold join, absorb. case_decide; lia. Qed.

Lemma join_miss a b ρ x : ρ x ≠ a → ρ x ≠ b → join a b ρ x = ρ x.
Proof. unfold join, absorb. case_decide; lia. Qed.

Lemma join_cong a b ρ x y : ρ x = ρ y → join a b ρ x = join a b ρ y.
Proof. unfold join, absorb. by intros ->. Qed.

Section view.
Context {Eg : edges} {Es : ScopeId → edges}.
Context {G : NodeId → NodeId} {O : ScopeId → NodeId → NodeId}.
Context {Reg : NodeId → ScopeId → Prop}.
Context (V : view_inv Eg Es G O Reg).

Let Gi x : G (G x) = G x := canon_idem _ _ (vi_global _ _ _ _ _ V) x.
Let Oi s x : O s (O s x) = O s x := vi_o_idem _ _ _ _ _ V s x.

(** The composed root is what the scope's specification asks for. *)
Lemma view_scope_min s x : is_component_min (Eg ++ Es s) x (O s (G x)).
Proof using V. apply (canonical_min _ (fun x => O s (G x))), (vi_scope _ _ _ _ _ V). Qed.

Lemma view_global_min x : is_component_min Eg x (G x).
Proof using V. apply canonical_min, (vi_global _ _ _ _ _ V). Qed.

(** An overlay root of an untouched node is the node itself. *)
Lemma overlay_root_untouched s x : ¬ touched (O s) (O s x) → O s x = x.
Proof using V.
  intros H. destruct (decide (O s x = x)); [done|].
  destruct H. exists x. by rewrite Oi.
Qed.

Lemma view_global_noop u v :
  G u = G v → view_inv ((u, v) :: Eg) Es G O Reg.
Proof using V.
  intros E. destruct V as [H1 H2 H3 H4 H5 H6]. split; try done.
  - eapply canonical_ext; [done| |by apply (canonical_add_edge Eg G u v)].
    intros x. rewrite E. apply join_same.
  - intros s. eapply canonical_ext;
      [done| |apply (canonical_add_edge (Eg ++ Es s) (fun x => O s (G x)) u v), H6].
    intros x. rewrite E. by rewrite join_same.
Qed.

Section merge.
Context (u v c p : NodeId) (Hc : c = N.max (G u) (G v)) (Hp : p = N.min (G u) (G v)).
Context (Hne : G u ≠ G v).

Let Gc : G c = c.
Proof. subst c. destruct (N.max_spec (G u) (G v)) as [[_ ->]|[_ ->]]; apply Gi. Qed.
Let Gp : G p = p.
Proof. subst p. destruct (N.min_spec (G u) (G v)) as [[_ ->]|[_ ->]]; apply Gi. Qed.
Let Hlt : p < c.
Proof. lia. Qed.

Lemma merged_root x : join (G u) (G v) G x = if decide (G x = c) then p else G x.
Proof using Hc Hp. unfold join, absorb. by rewrite <-Hc, <-Hp. Qed.

(** A scope that is told of the merge joins the two overlay classes. *)
Lemma fixup_composes s x :
  join (O s c) (O s p) (O s) (join (G u) (G v) G x) =
  join (O s (G u)) (O s (G v)) (fun x => O s (G x)) x.
Proof using V Hc Hp Hne.
  rewrite merged_root.
  assert (join (O s (G u)) (O s (G v)) (fun x => O s (G x)) x =
          join (O s c) (O s p) (O s) (G x)) as ->.
  { destruct (N.max_spec (G u) (G v)) as [[? E]|[? E]].
    - rewrite join_comm. subst c p. by rewrite E, N.min_l by lia.
    - subst c p. by rewrite E, N.min_r by lia. }
  case_decide as E; [|done].
  rewrite (join_hit _ _ _ p) by auto. rewrite E. by rewrite (join_hit _ _ _ c) by auto.
Qed.

(** A scope that is not registered on the absorbed root never used it. *)
Lemma unregistered_composes s x :
  ¬ touched (O s) c →
  O s (join (G u) (G v) G x) = join (O s (G u)) (O s (G v)) (fun x => O s (G x)) x.
Proof using V Hc Hp Hne.
  intros Hun.
  assert (O s c = c) as Oc by (by apply not_touched).
  assert (∀ y, O s y = c → y = c) as Huniq.
  { intros y Hy. destruct (decide (y = c)); [done|]. destruct Hun. exists y. by rewrite Oc. }
  assert (O s p <= p) as Hle by apply (vi_o_le _ _ _ _ _ V).
  assert ((O s (G u) = c ∧ O s (G v) = O s p) ∨ (O s (G u) = O s p ∧ O s (G v) = c)) as Huv.
  { destruct (N.max_spec (G u) (G v)) as [[? E]|[? E]]; rewrite E in Hc;
      [rewrite N.min_l in Hp by lia|rewrite N.min_r in Hp by lia]; subst c p; auto. }
  rewrite merged_root.
  assert (∀ a b : NodeId, N.max a b = N.max c (O s p) → N.min a b = N.min c (O s p) →
    join a b (fun x => O s (G x)) x = if decide (O s (G x) = c) then O s p else O s (G x)) as Hj.
  { intros a b E1 E2. unfold join, absorb. rewrite E1, E2.
    by rewrite N.max_l, N.min_r by lia. }
  rewrite Hj.
  - destruct (decide (G x = c)) as [E|E].
    + by rewrite E, Oc, decide_True.
    + rewrite decide_False; [done|]. intros Ex%Huniq. done.
  - lia.
  - lia.
Qed.

Lemma view_global_merge O' (Reg' : NodeId → ScopeId → Prop) :
  (∀ s, (Reg c s ∧ ∀ x, O' s x = join (O s c) (O s p) (O s) x) ∨
        (¬ Reg c s ∧ ∀ x, O' s x = O s x)) →
  (∀ r s, Reg r s → r ≠ c → Reg' r s) →
  (∀ s, Reg c s → Reg' p s) →
  view_inv ((u, v) :: Eg) Es (join (G u) (G v) G) O' Reg'.
Proof using V Hc Hp Hne.
  intros HO HR1 HR2.
  assert (∀ s x, touched (join (O s c) (O s p) (O s)) x →
            touched (O s) x ∨ x = c ∨ x = p) as Ht.
  { intros s x T. apply touched_join in T as [T|[[-> | ->] _]]; auto.
    - destruct (decide (O s c = c)) as [->|]; [auto|]. left. exists c. by rewrite Oi.
    - destruct (decide (O s p = p)) as [->|]; [auto|]. left. exists p. by rewrite Oi. }
  assert (∀ s x, join (O s c) (O s p) (O s) (join (G u) (G v) G x) =
                 join (O s c) (O s p) (O s) (G x)) as HGx.
  { intros s x. rewrite merged_root. case_decide as E; [|done].
    rewrite E, !join_hit; auto. }
  split.
  - apply canonical_add_edge, (vi_global _ _ _ _ _ V).
  - intros s x. destruct (HO s) as [[_ E]|[_ E]]; rewrite E;
      [apply join_le|]; intros; apply (vi_o_le _ _ _ _ _ V).
  - intros s x. destruct (HO s) as [[_ E]|[_ E]]; rewrite !E; [apply join_idem|]; auto.
  - intros s x T. destruct (HO s) as [[R E]|[R E]]; rewrite !E.
    + rewrite HGx. apply (join_cong _ _ _ x (G x)).
      assert (touched (join (O s c) (O s p) (O s)) x) as T'.
      { destruct T as (y & Hy & Ey). exists y. by rewrite <-!E. }
      apply Ht in T' as [T'|[->| ->]]; [by apply (vi_live _ _ _ _ _ V)| |];
        by rewrite ?Gc, ?Gp.
    + assert (touched (O s) x) as T'.
      { destruct T as (y & Hy & Ey). exists y. by rewrite <-!E. }
      rewrite merged_root. case_decide as Ec.
      * destruct R. rewrite <-Ec. by apply (vi_reg _ _ _ _ _ V).
      * by apply (vi_live _ _ _ _ _ V).
  - intros s x T. rewrite merged_root. destruct (HO s) as [[R E]|[R E]].
    + assert (touched (join (O s c) (O s p) (O s)) x) as T'.
      { destruct T as (y & Hy & Ey). exists y. by rewrite <-!E. }
      case_decide as Ec; [by apply HR2|].
      apply Ht in T' as [T'|[->| ->]]; [|done|rewrite Gp; by apply HR2].
      apply HR1; [by apply (vi_reg _ _ _ _ _ V)|done].
    + assert (touched (O s) x) as T'.
      { destruct T as (y & Hy & Ey). exists y. by rewrite <-!E. }
      pose proof (vi_reg _ _ _ _ _ V _ _ T').
      case_decide as Ec; [congruence|]. by apply HR1.
  - intros s. eapply canonical_ext; [done| |apply (canonical_add_edge (Eg ++ Es s)
      (fun x => O s (G x)) u v), (vi_scope _ _ _ _ _ V)].
    intros x. cbn. destruct (HO s) as [[R E]|[R E]]; rewrite E.
    + by rewrite fixup_composes.
    + rewrite unregistered_composes; [done|].
      intros T. destruct R. rewrite <-Gc. by apply (vi_reg _ _ _ _ _ V).
Qed.
End merge.

(** A scope edge joins two overlay classes of one scope and registers it on
    both shared roots. *)
Lemma view_scope_edge s0 u v O' (Reg' : NodeId → ScopeId → Prop) :
  (∀ x, O' s0 x = join (O s0 (G u)) (O s0 (G v)) (O s0) x) →
  (∀ s x, s ≠ s0 → O' s x = O s x) →
  (∀ r s, Reg r s → Reg' r s) → Reg' (G u) s0 → Reg' (G v) s0 →
  view_inv Eg (fun s => if decide (s = s0) then (u, v) :: Es s else Es s) G O' Reg'.
Proof using V.
  intros H0 Hs HR Hu Hv. set (a := O s0 (G u)). set (b := O s0 (G v)).
  assert (∀ x, touched (O' s0) x → touched (O s0) x ∨ x = G u ∨ x = G v) as Ht.
  { intros x (y & Hy & E). rewrite !H0 in E.
    assert (touched (join a b (O s0)) x) as T by (by exists y).
    apply touched_join in T; [|apply Oi..]. destruct T as [T|[[-> | ->] _]]; auto.
    - destruct (decide (a = G u)) as [->|]; [auto|].
      left. exists (G u). unfold a in *. rewrite Oi. auto.
    - destruct (decide (b = G v)) as [->|]; [auto|].
      left. exists (G v). unfold b in *. rewrite Oi. auto. }
  assert (∀ s x, s ≠ s0 → touched (O' s) x → touched (O s) x) as Ht'.
  { intros s x Hne (y & Hy & E). exists y. by rewrite <-!(Hs s). }
  destruct V as [H1 H2 H3 H4 H5 H6]. split; [done| | | | |].
  - intros s x. destruct (decide (s = s0)) as [->|]; [|by rewrite Hs].
    rewrite H0. by apply join_le.
  - intros s x. destruct (decide (s = s0)) as [->|]; [|by rewrite !Hs].
    rewrite !H0. by apply join_idem.
  - intros s x T. destruct (decide (s = s0)) as [->|]; [|rewrite !Hs by done; auto].
    rewrite !H0. apply join_cong.
    apply Ht in T as [T|[->| ->]]; [by apply H4|by rewrite Gi..].
  - intros s x T. destruct (decide (s = s0)) as [->|]; [|by apply HR, H5, Ht'].
    apply Ht in T as [T|[->| ->]]; [by apply HR, H5|by rewrite Gi..].
  - intros s. case_decide as E; [subst|]; last first.
    { eapply canonical_ext; [done| |apply H6]. intros x. cbn. by rewrite Hs. }
    eapply canonical_ext; [| |apply (canonical_add_edge (Eg ++ Es s0)
        (fun x => O s0 (G x)) u v), H6].
    + apply conn_same_edges. set_solver.
    + intros x. cbn. by rewrite H0.
Qed.
End view.
