(* ===== verification/RoutingBase.v ===== *)
(** The read-only routing base: [src/core/base.rs].

    The trait is a record of operations. [for_each_*] callbacks are the list of
    pairs they are called on, and the [*_children] methods, which append at most
    [limit] nodes to a caller's buffer, return what they append. What the forest
    relies on is the class [BaseLaws]; the bases of [src/storage] discharge it. *)

From S2P Require Import Prelude Types Graph Dsu.

Record RoutingBase := mkBase {
  shared_parent : NodeId → option NodeId;
  overlay_parent : ScopeId → NodeId → option NodeId;
  scopes_for_root : NodeId → list ScopeId;
  base_scopes : list ScopeId;
  shared_pairs : list (NodeId * NodeId);
  overlay_pairs : ScopeId → list (NodeId * NodeId);
  has_member_index : bool;
  shared_children : NodeId → nat → list NodeId;
  overlay_children : ScopeId → NodeId → nat → list NodeId;
}.

(** The root a base records: "one probe, no chain to walk". *)
Definition base_shared (b : RoutingBase) (x : NodeId) : NodeId :=
  default x (shared_parent b x).
Definition base_overlay (b : RoutingBase) (s : ScopeId) (x : NodeId) : NodeId :=
  default x (overlay_parent b s x).

(** What resolution relies on: recorded parents are roots as of the base, lower
    than the node, and a scope is listed under the root of every node its overlay
    knows. *)
Class BaseRoots (b : RoutingBase) : Prop := {
  base_shared_le x : base_shared b x <= x;
  base_shared_idem x : base_shared b (base_shared b x) = base_shared b x;
  base_overlay_le s x : base_overlay b s x <= x;
  base_overlay_idem s x : base_overlay b s (base_overlay b s x) = base_overlay b s x;
  base_registry s x :
    touched (base_overlay b s) x → s ∈ scopes_for_root b (base_shared b x);
}.

(** What compaction relies on: streaming visits every non-root, in strictly
    ascending node order. *)
Class BaseEnum (b : RoutingBase) : Prop := {
  shared_pairs_sorted : StronglySorted N.lt (shared_pairs b).*1;
  shared_pairs_complete x : base_shared b x ≠ x → x ∈ (shared_pairs b).*1;
  overlay_pairs_sorted s : StronglySorted N.lt (overlay_pairs b s).*1;
  overlay_pairs_complete s x : base_overlay b s x ≠ x → x ∈ (overlay_pairs b s).*1;
  base_scopes_complete s x : base_overlay b s x ≠ x → s ∈ base_scopes b;
}.

Class BaseLaws (b : RoutingBase) : Prop := {
  #[global] base_laws_roots :: BaseRoots b;
  #[global] base_laws_enum :: BaseEnum b;
}.

(** The base that is not there. *)
Definition empty_base : RoutingBase :=
  mkBase (fun _ => None) (fun _ _ => None) (fun _ => []) [] [] (fun _ => []) false
    (fun _ _ => []) (fun _ _ _ => []).

#[export] Instance empty_base_laws : BaseLaws empty_base.
Proof.
  split; split; try done; try (intros; constructor).
  intros s x (y & Hy & E). done.
Qed.

Definition base_or_empty (o : option RoutingBase) : RoutingBase := default empty_base o.
