(* ===== verification/ForestInv.v ===== *)
(** Correctness of the forest's write path and queries.

    [tier_wf] is the representation invariant ("memtable keys are composed
    roots"), [view_inv] the meaning of the composed functions; together they are
    preserved by every write, and queries only compress. *)

From S2P Require Import Prelude Types Graph Dsu View RoutingBase Forest.

(** ** The tier as root functions *)

Definition base_of (t : Tier) : RoutingBase := base_or_empty (tier_base t).

Definition overlay_fn (t : Tier) (s : ScopeId) : NodeId → NodeId :=
  match mem_overlays (tier_mem t) !! s with Some o => droot o | None => id end.

Definition G_of (t : Tier) (x : NodeId) : NodeId :=
  droot (mem_global (tier_mem t)) (base_shared (base_of t) x).

Definition O_of (t : Tier) (s : ScopeId) (x : NodeId) : NodeId :=
  overlay_fn t s (base_overlay (base_of t) s x).

Definition Reg_of (t : Tier) (r : NodeId) (s : ScopeId) : Prop :=
  s ∈ default ∅ (mem_registry (tier_mem t) !! r) ∨ s ∈ scopes_for_root (base_of t) r.

(** A memtable function over a base function: the memtable only links nodes the
    base stores no parent for. *)
Definition layer_ok (m b : NodeId → NodeId) : Prop :=
  ∀ x, m x ≠ x → b x = x ∧ b (m x) = m x.

Record tier_wf (t : Tier) : Prop := {
  tw_base : BaseLaws (base_of t);
  tw_global : dsu_wf (mem_global (tier_mem t));
  tw_overlay s o : mem_overlays (tier_mem t) !! s = Some o → dsu_wf o;
  tw_glayer : layer_ok (droot (mem_global (tier_mem t))) (base_shared (base_of t));
  tw_olayer s : layer_ok (overlay_fn t s) (base_overlay (base_of t) s);
}.

Definition forest_inv (f : ScopedForest) (Eg : edges) (Es : ScopeId → edges) : Prop :=
  tier_wf (tier f) ∧ view_inv Eg Es (G_of (tier f)) (O_of (tier f)) (Reg_of (tier f)).

(** ** Layering *)

Section layer.
Context (m b : NodeId → NodeId).
Context (Hm : ∀ x, m x <= x) (Hmi : ∀ x, m (m x) = m x).
Context (Hb : ∀ x, b x <= x) (Hbi : ∀ x, b (b x) = b x).
Context (L : layer_ok m b).

Lemma layer_skip x : m x ≠ x → m (b x) = m x.
Proof using L. intros H. by destruct (L x H) as [-> _]. Qed.

(** A composed root is a root of both layers. *)
Lemma layer_fix x : m (b x) = x → b x = x ∧ m x = x.
Proof using Hm Hb.
  intros E. assert (b x = x) as Hx.
  { specialize (Hm (b x)). specialize (Hb x). lia. }
  split; [done|]. by rewrite Hx in E.
Qed.

Lemma layer_idem x : m (b (m (b x))) = m (b x).
Proof using Hmi Hbi L.
  destruct (decide (m (b x) = b x)) as [E|E].
  - by rewrite E, Hbi.
  - destruct (L _ E) as [_ ->]. apply Hmi.
Qed.

Lemma layer_le x : m (b x) <= x.
Proof using Hm Hb. specialize (Hm (b x)). specialize (Hb x). lia. Qed.

(** Joining two composed roots keeps the layering. *)
Lemma layer_join c p :
  m (b c) = c → m (b p) = p → layer_ok (join c p m) b.
Proof using Hm Hb L.
  intros [Bc Mc]%layer_fix [Bp Mp]%layer_fix x Hx.
  assert (b (N.min c p) = N.min c p) by (destruct (N.min_spec c p) as [[_ ->]|[_ ->]]; done).
  assert (b (N.max c p) = N.max c p) by (destruct (N.max_spec c p) as [[_ ->]|[_ ->]]; done).
  unfold join, absorb in *. case_decide as E.
  - split; [|done]. destruct (decide (m x = x)) as [E'|E']; [congruence|].
    by apply L.
  - by apply L.
Qed.
End layer.

(** ** The parts of a well-formed tier *)

Lemma dsu_find_spec c d x :
  dsu_wf d → ∃ d', dsu_find c d x = (droot d x, d') ∧ compressed d d'.
Proof. intros. destruct c; [by apply find_spec|by apply find_ro_spec]. Qed.

Section tier.
Context (t : Tier) (W : tier_wf t).

#[local] Instance tier_base_laws : BaseLaws (base_of t) := tw_base t W.

Lemma overlay_fn_le s x : overlay_fn t s x <= x.
Proof using W.
  unfold overlay_fn. destruct (_ !! s) as [o|] eqn:E; [|done].
  apply droot_le. by eapply tw_overlay.
Qed.

Lemma overlay_fn_idem s x : overlay_fn t s (overlay_fn t s x) = overlay_fn t s x.
Proof using W.
  unfold overlay_fn. destruct (_ !! s) as [o|] eqn:E; [|done].
  apply droot_idem. by eapply tw_overlay.
Qed.

Lemma G_fix x : G_of t x = x → base_shared (base_of t) x = x ∧ droot (mem_global (tier_mem t)) x = x.
Proof using W.
  apply layer_fix; [apply droot_le, (tw_global _ W)|apply base_shared_le].
Qed.

Lemma O_fix s x : O_of t s x = x → base_overlay (base_of t) s x = x ∧ overlay_fn t s x = x.
Proof using W.
  apply layer_fix; [apply overlay_fn_le|apply base_overlay_le].
Qed.

Lemma G_idem x : G_of t (G_of t x) = G_of t x.
Proof using W.
  apply layer_idem; [apply droot_idem, (tw_global _ W)|apply base_shared_idem|apply (tw_glayer _ W)].
Qed.

Lemma O_idem s x : O_of t s (O_of t s x) = O_of t s x.
Proof using W.
  apply layer_idem; [apply overlay_fn_idem|apply base_overlay_idem|apply (tw_olayer _ W)].
Qed.

Lemma G_le x : G_of t x <= x.
Proof using W.
  apply layer_le; [apply droot_le, (tw_global _ W)|apply base_shared_le].
Qed.

Lemma O_le s x : O_of t s x <= x.
Proof using W.
  apply layer_le; [apply overlay_fn_le|apply base_overlay_le].
Qed.

Lemma mem_overlay_wf s : dsu_wf (mem_overlay (tier_mem t) s).
Proof using W.
  unfold mem_overlay. destruct (_ !! s) as [o|] eqn:E; simpl; [by eapply tw_overlay|].
  intros x p. simpl. by rewrite lookup_empty.
Qed.

Lemma mem_overlay_root s x : droot (mem_overlay (tier_mem t) s) x = overlay_fn t s x.
Proof using.
  unfold mem_overlay, overlay_fn. destruct (_ !! s) as [o|]; [done|].
  apply droot_self; [|done]. intros y p. simpl. by rewrite lookup_empty.
Qed.
End tier.

(** ** Compression is invisible *)

Record tier_compressed (t t' : Tier) : Prop := {
  tc_base : tier_base t' = tier_base t;
  tc_registry : mem_registry (tier_mem t') = mem_registry (tier_mem t);
  tc_member : mem_member_index (tier_mem t') = mem_member_index (tier_mem t);
  tc_global : compressed (mem_global (tier_mem t)) (mem_global (tier_mem t'));
  tc_overlays s : option_Forall2 compressed
    (mem_overlays (tier_mem t) !! s) (mem_overlays (tier_mem t') !! s);
}.

Lemma tier_compressed_refl t : tier_wf t → tier_compressed t t.
Proof.
  intros W. split; try done.
  - apply compressed_refl, (tw_global _ W).
  - intros s. destruct (_ !! s) eqn:E; constructor. apply compressed_refl. by eapply tw_overlay.
Qed.

Lemma tier_compressed_trans t1 t2 t3 :
  tier_compressed t1 t2 → tier_compressed t2 t3 → tier_compressed t1 t3.
Proof.
  intros [A1 A2 A3 A4 A5] [B1 B2 B3 B4 B5]. split; [congruence..| |].
  - by eapply compressed_trans.
  - intros s. specialize (A5 s). specialize (B5 s).
    inversion A5 as [x y Hxy E1 E2|E1 E2]; rewrite <-E2 in B5;
      inversion B5; subst; constructor; eauto using compressed_trans.
Qed.

Section compressed.
Context (t t' : Tier) (C : tier_compressed t t').

Lemma tc_base_of : base_of t' = base_of t.
Proof using C. unfold base_of. by rewrite (tc_base _ _ C). Qed.

Lemma tc_overlay_fn s x : overlay_fn t' s x = overlay_fn t s x.
Proof using C.
  unfold overlay_fn. destruct (tc_overlays _ _ C s) as [o o' Ho|]; [|done].
  by rewrite (comp_root _ _ Ho).
Qed.

Lemma tc_G x : G_of t' x = G_of t x.
Proof using C. unfold G_of. by rewrite tc_base_of, (comp_root _ _ (tc_global _ _ C)). Qed.

Lemma tc_O s x : O_of t' s x = O_of t s x.
Proof using C. unfold O_of. by rewrite tc_base_of, tc_overlay_fn. Qed.

Lemma tc_Reg r s : Reg_of t' r s ↔ Reg_of t r s.
Proof using C. unfold Reg_of. by rewrite tc_base_of, (tc_registry _ _ C). Qed.

Lemma tc_wf : tier_wf t → tier_wf t'.
Proof using C.
  intros W. split; rewrite ?tc_base_of.
  - apply W.
  - apply (tc_global _ _ C).
  - intros s o E. pose proof (tc_overlays _ _ C s) as H. rewrite E in H.
    inversion H; subst. by eapply comp_wf.
  - intros x. rewrite (comp_root _ _ (tc_global _ _ C)). apply (tw_glayer _ W).
  - intros s x. rewrite tc_overlay_fn. apply (tw_olayer _ W).
Qed.
End compressed.

#[export] Hint Resolve tier_compressed_refl tier_compressed_trans tc_wf : blaze.

Lemma set_global_compressed t g :
  tier_wf t → compressed (mem_global (tier_mem t)) g → tier_compressed t (set_global t g).
Proof. intros W C. destruct (tier_compressed_refl t W). by split. Qed.

Lemma set_overlay_compressed t s o o' :
  tier_wf t → mem_overlays (tier_mem t) !! s = Some o → compressed o o' →
  tier_compressed t (set_overlay t s o').
Proof.
  intros W E C. destruct (tier_compressed_refl t W) as [H1 H2 H3 H4 H5].
  split; try done. intros s'. simpl. rewrite lookup_insert. case_decide; subst; [|apply H5].
  rewrite E. by constructor.
Qed.

Lemma shared_root_spec t x c :
  tier_wf t → ∃ t', shared_root t x c = (G_of t x, t') ∧ tier_compressed t t'.
Proof.
  intros W. unfold shared_root.
  destruct (dsu_find_spec c _ x (tw_global _ W)) as (g & -> & C).
  pose proof (set_global_compressed t g W C) as TC.
  unfold G_of, base_of, base_or_empty, base_shared.
  destruct (N.eqb_spec (droot (mem_global (tier_mem t)) x) x) as [E|E]; cbn [negb]; last first.
  { eexists. split; [|exact TC]. f_equal. symmetry.
    apply (layer_skip _ _ (tw_glayer _ W) x E). }
  cbn [tier_base set_global].
  destruct (tier_base t) as [b|] eqn:Eb; cbn; [|eauto using f_equal2].
  destruct (shared_parent b x) as [p|] eqn:Ep; cbn; [|by rewrite E; eauto].
  destruct (N.eqb_spec p x) as [->|Hp]; cbn; [by rewrite E; eauto|].
  destruct (dsu_find_spec c g p (comp_wf _ _ C)) as (g2 & -> & C2).
  eexists. split; [by rewrite (comp_root _ _ C)|].
  apply (set_global_compressed t g2 W). by eapply compressed_trans.
Qed.

Lemma overlay_root_spec t s x c :
  tier_wf t → ∃ t', overlay_root t s x c = (O_of t s x, t') ∧ tier_compressed t t'.
Proof.
  intros W. unfold overlay_root, O_of.
  pose proof (tw_olayer _ W s) as L. unfold overlay_fn in *.
  destruct (mem_overlays (tier_mem t) !! s) as [o|] eqn:Eo.
  - destruct (dsu_find_spec c o x (tw_overlay _ W _ _ Eo)) as (o1 & -> & C).
    pose proof (set_overlay_compressed t s o o1 W Eo C) as TC.
    destruct (N.eqb_spec (droot o x) x) as [E|E]; cbn [negb]; last first.
    { eexists. split; [|exact TC]. f_equal. symmetry. by apply layer_skip. }
    cbn [tier_base set_overlay]. unfold base_of, base_or_empty, base_overlay.
    destruct (tier_base t) as [b|] eqn:Eb; cbn; [|by rewrite E; eauto].
    destruct (overlay_parent b s x) as [p|] eqn:Ep; cbn; [|by rewrite E; eauto].
    destruct (N.eqb_spec p x) as [->|Hp]; cbn; [by rewrite E; eauto|].
    destruct (dsu_find_spec c o1 p (comp_wf _ _ C)) as (o2 & -> & C2).
    eexists. split; [by rewrite (comp_root _ _ C)|].
    pose proof (set_overlay_compressed t s o o2 W Eo (compressed_trans _ _ _ C C2)) as TC2.
    unfold set_overlay in *. cbn in *. by rewrite insert_insert_eq.
  - unfold base_of, base_or_empty, base_overlay.
    destruct (tier_base t) as [b|] eqn:Eb; cbn; [|eauto with blaze].
    destruct (overlay_parent b s x) as [p|] eqn:Ep; cbn; [|eauto with blaze].
    destruct (N.eqb_spec p x) as [->|Hp]; cbn; eauto with blaze.
Qed.

(** ** Unions through a tier *)

Lemma union_global_spec t ru rv :
  tier_wf t → G_of t ru = ru → G_of t rv = rv →
  ∃ o g, union (mem_global (tier_mem t)) ru rv = (o, g) ∧
    o = (if decide (ru = rv) then None else Some (mkMerge (N.max ru rv) (N.min ru rv))) ∧
    tier_wf (set_global t g) ∧
    ∀ x, G_of (set_global t g) x = join ru rv (G_of t) x.
Proof.
  intros W Hu Hv. destruct (G_fix t W ru Hu) as [Bu Mu]. destruct (G_fix t W rv Hv) as [Bv Mv].
  destruct (union_spec _ ru rv (tw_global _ W)) as (o & g & -> & U).
  rewrite Mu, Mv in U. exists o, g. split_and!; [done|apply U| |].
  - destruct W as [W1 W2 W3 W4 W5]. split; try done; [apply U|]. cbn.
    intros x. rewrite (ur_root _ _ _ _ _ U).
    apply layer_join; [by apply droot_le|apply base_shared_le|done|done|done].
  - intros x. unfold G_of. cbn. by rewrite (ur_root _ _ _ _ _ U).
Qed.

Lemma overlay_fn_set t s o s' x :
  overlay_fn (set_overlay t s o) s' x = if decide (s = s') then droot o x else overlay_fn t s' x.
Proof.
  unfold overlay_fn, set_overlay. cbn. rewrite lookup_insert. by case_decide.
Qed.

Lemma union_overlay_spec t s a b :
  tier_wf t → O_of t s a = a → O_of t s b = b →
  ∃ m o, union (mem_overlay (tier_mem t) s) a b = (m, o) ∧
    tier_wf (set_overlay t s o) ∧
    ∀ s' x, O_of (set_overlay t s o) s' x =
      if decide (s = s') then join a b (O_of t s) x else O_of t s' x.
Proof.
  intros W Ha Hb. destruct (O_fix t W s a Ha) as [Ba Ma]. destruct (O_fix t W s b Hb) as [Bb Mb].
  destruct (union_spec _ a b (mem_overlay_wf t W s)) as (m & o & -> & U).
  rewrite !mem_overlay_root, Ma, Mb in U. exists m, o. split; [done|].
  assert (∀ x, droot o x = join a b (overlay_fn t s) x) as Hr.
  { intros x. rewrite (ur_root _ _ _ _ _ U). unfold join, absorb. by rewrite !mem_overlay_root. }
  split.
  - pose proof (overlay_fn_le t W s) as Hle. destruct W as [W1 W2 W3 W4 W5]. split; try done.
    + intros s' o'. cbn. rewrite lookup_insert. case_decide; intros; simplify_eq; [apply U|eauto].
    + intros s' x. rewrite overlay_fn_set. change (base_of (set_overlay t s o)) with (base_of t).
      case_decide; [subst s'|apply W5]. rewrite Hr.
      apply layer_join; [done|apply base_overlay_le|done|done|done].
  - intros s' x. unfold O_of. rewrite overlay_fn_set. case_decide; [subst|done].
    by rewrite Hr.
Qed.

(** What a loop over scopes may change: the overlays, and compression of the
    rest. *)
Record tier_same_shared (t t' : Tier) : Prop := {
  ss_base : tier_base t' = tier_base t;
  ss_G x : G_of t' x = G_of t x;
  ss_registry : mem_registry (tier_mem t') = mem_registry (tier_mem t);
}.

Lemma compressed_same_shared t t' : tier_compressed t t' → tier_same_shared t t'.
Proof. intros C. split; [apply C|by apply tc_G|apply C]. Qed.

Lemma same_shared_trans t1 t2 t3 :
  tier_same_shared t1 t2 → tier_same_shared t2 t3 → tier_same_shared t1 t3.
Proof.
  intros [A1 A2 A3] [B1 B2 B3]. split; [congruence| |congruence]. intros x. by rewrite B2.
Qed.

(** Resolve both operands in a scope. *)
Lemma overlay_root_two t s x y :
  tier_wf t → ∃ t1 t2, overlay_root t s x true = (O_of t s x, t1) ∧
    overlay_root t1 s y true = (O_of t s y, t2) ∧ tier_compressed t t2 ∧ tier_wf t2.
Proof.
  intros W. destruct (overlay_root_spec t s x true W) as (t1 & H1 & C1).
  destruct (overlay_root_spec t1 s y true) as (t2 & H2 & C2); [eauto with blaze|].
  exists t1, t2. rewrite (tc_O _ _ C1) in H2. split_and!; eauto with blaze.
Qed.

Lemma shared_root_two t x y :
  tier_wf t → ∃ t1 t2, shared_root t x true = (G_of t x, t1) ∧
    shared_root t1 y true = (G_of t y, t2) ∧ tier_compressed t t2 ∧ tier_wf t2.
Proof.
  intros W. destruct (shared_root_spec t x true W) as (t1 & H1 & C1).
  destruct (shared_root_spec t1 y true) as (t2 & H2 & C2); [eauto with blaze|].
  exists t1, t2. rewrite (tc_G _ _ C1) in H2. split_and!; eauto with blaze.
Qed.

Lemma fixup_scopes_spec scopes : ∀ t c p n,
  NoDup scopes → tier_wf t →
  ∃ t' n', fixup_scopes t c p scopes n = (t', n') ∧ tier_wf t' ∧ tier_same_shared t t' ∧
    ∀ s x, O_of t' s x =
      if decide (s ∈ scopes) then join (O_of t s c) (O_of t s p) (O_of t s) x else O_of t s x.
Proof.
  induction scopes as [|s0 scopes IH]; intros t c p n Hnd W.
  { exists t, n. split_and!; [done|done|done|]. done. }
  apply NoDup_cons in Hnd as [Hs0 Hnd]. cbn [fixup_scopes].
  destruct (overlay_root_two t s0 c p W) as (t1 & t2 & -> & -> & C2 & W2).
  destruct (N.eqb_spec (O_of t s0 c) (O_of t s0 p)) as [E|E]; cbn [negb].
  - destruct (IH t2 c p n Hnd W2) as (t' & n' & -> & W' & S' & HO).
    exists t', n'. split_and!; [done|done|by eapply same_shared_trans, S'; apply compressed_same_shared|].
    intros s x. rewrite HO.
    destruct (decide (s = s0)) as [->|Hs].
    + rewrite decide_False by done. rewrite decide_True by left.
      by rewrite (tc_O _ _ C2), E, join_same.
    + rewrite (tc_O _ _ C2), !(tc_O _ _ C2 s). unfold join, absorb.
      rewrite (tc_O _ _ C2). rewrite (decide_ext (s ∈ scopes) (s ∈ s0 :: scopes)); [done|set_solver].
  - destruct (union_overlay_spec t2 s0 (O_of t s0 c) (O_of t s0 p) W2) as (m & o & -> & W3 & HO3).
    { rewrite (tc_O _ _ C2). by apply O_idem. }
    { rewrite (tc_O _ _ C2). by apply O_idem. }
    destruct (IH (set_overlay t2 s0 o) c p (n ⊞ 1) Hnd W3) as (t' & n' & -> & W' & S' & HO).
    exists t', n'. split_and!; [done|done| |].
    { eapply same_shared_trans; [by apply compressed_same_shared|].
      eapply same_shared_trans; [|exact S']. by split. }
    intros s x. rewrite HO.
    destruct (decide (s = s0)) as [->|Hs].
    + rewrite decide_False by done. rewrite decide_True by left.
      rewrite HO3, decide_True by done. unfold join, absorb. by rewrite (tc_O _ _ C2).
    + rewrite !HO3. rewrite !(decide_False (P := s0 = s)) by congruence.
      unfold join, absorb. rewrite !HO3, !(decide_False (P := s0 = s)) by congruence.
      rewrite !(tc_O _ _ C2).
      rewrite (decide_ext (s ∈ scopes) (s ∈ s0 :: scopes)); [done|set_solver].
Qed.

Lemma set_registry_wf t r : tier_wf t → tier_wf (set_registry t r).
Proof. intros [W1 W2 W3 W4 W5]. by split. Qed.

(** ** [apply_global] *)

Lemma forest_inv_compressed f t' Eg Es :
  forest_inv f Eg Es → tier_compressed (tier f) t' → forest_inv (set_tier f t') Eg Es.
Proof.
  intros [W V] C. split; cbn; [eauto with blaze|].
  eapply view_inv_ext, V; [done|done| | |].
  - intros x. by rewrite (tc_G _ _ C).
  - intros s x. by rewrite (tc_O _ _ C).
  - intros r s. by rewrite (tc_Reg _ _ C).
Qed.

(** The scopes [apply_global] notifies are those registered on the absorbed
    root, in the memtable or in the base. *)
Lemma notified_scopes t child s :
  s ∈ (default ∅ (mem_registry (tier_mem t) !! child) ∪
       list_to_set (from_option (fun b => scopes_for_root b child) [] (tier_base t)) : gset ScopeId)
  ↔ Reg_of t child s.
Proof.
  unfold Reg_of, base_of, base_or_empty. rewrite elem_of_union, elem_of_list_to_set.
  by destruct (tier_base t).
Qed.

Lemma apply_global_inv f Eg Es u v :
  forest_inv f Eg Es → forest_inv (apply_global f u v) ((u, v) :: Eg) Es.
Proof.
  intros [W V]. unfold apply_global.
  destruct (shared_root_two (tier f) u v W) as (t1 & t2 & -> & -> & C2 & W2).
  set (ru := G_of (tier f) u). set (rv := G_of (tier f) v).
  destruct (union_global_spec t2 ru rv W2) as (o & g & -> & -> & W3 & HG).
  { rewrite (tc_G _ _ C2). by apply G_idem. }
  { rewrite (tc_G _ _ C2). by apply G_idem. }
  assert (∀ x, G_of (set_global t2 g) x = join ru rv (G_of (tier f)) x) as HG'.
  { intros x. rewrite HG. unfold join, absorb. by rewrite (tc_G _ _ C2). }
  destruct (decide (ru = rv)) as [E|Hne].
  { split; [exact W3|]. cbn. eapply view_inv_ext, (view_global_noop V u v E); [done|done| | |].
    - intros x. by rewrite HG', E, join_same.
    - intros s x. by rewrite <-(tc_O _ _ C2).
    - intros r s HR. by apply (tc_Reg _ _ C2). }
  set (c := N.max ru rv). set (p := N.min ru rv).
  match goal with |- context [fixup_scopes ?t _ _ (sort_N (elements ?S)) _] =>
    set (t4 := t); set (sc := S) end.
  assert (tier_wf t4) as W4 by (by apply set_registry_wf).
  assert (∀ s, s ∈ sc ↔ Reg_of (tier f) c s) as Hsc.
  { intros s. rewrite <-(tc_Reg _ _ C2). apply (notified_scopes (set_global t2 g)). }
  destruct (fixup_scopes_spec (sort_N (elements sc)) t4 c p (fixups f)) as (t5 & n & -> & W5 & S5 & HO5).
  { rewrite sort_N_perm. apply NoDup_elements. }
  { done. }
  set (t6 := if bool_decide (sc = ∅) then t5 else _).
  assert (tier_wf t6 ∧ (∀ x, G_of t6 x = G_of t5 x) ∧ (∀ s x, O_of t6 s x = O_of t5 s x) ∧
    tier_base t6 = tier_base t5 ∧
    ∀ r, default ∅ (mem_registry (tier_mem t6) !! r) =
         if decide (r = p) then default ∅ (mem_registry (tier_mem t5) !! p) ∪ sc
         else default ∅ (mem_registry (tier_mem t5) !! r)) as (W6 & HG6 & HO6 & HB6 & HR6).
  { unfold t6. case_bool_decide as Esc.
    - split_and!; [done..|]. intros r. rewrite Esc. case_decide; [subst|done]. set_solver.
    - split_and!; [by apply set_registry_wf|done|done|done|].
      intros r. cbn. rewrite lookup_insert. repeat case_decide; try congruence; done. }
  assert (tier_base t6 = tier_base t2) as HB.
  { rewrite HB6, (ss_base _ _ S5). done. }
  split; [exact W6|]. cbn [tier].
  eapply view_inv_ext; [done|done| | | |
    apply (view_global_merge V u v c p eq_refl eq_refl Hne (O_of t6) (Reg_of t6))].
  - intros x. rewrite HG6, (ss_G _ _ S5). by rewrite <-HG'.
  - done.
  - done.
  - intros s.
    assert (∀ x, O_of t4 s x = O_of (tier f) s x) as H4.
    { intros x. by rewrite <-(tc_O _ _ C2). }
    destruct (decide (s ∈ sc)) as [Hin|Hin]; [left|right]; (split; [by rewrite <-Hsc|]);
      intros x; rewrite HO6, HO5, (decide_ext (s ∈ sort_N (elements sc)) (s ∈ sc)) by
        (by rewrite elem_of_sort_N, elem_of_elements).
    + rewrite decide_True by done. unfold join, absorb. by rewrite !H4.
    + rewrite decide_False by done. apply H4.
  - intros r s HR Hr. apply (tc_Reg _ _ C2) in HR as [HR|HR]; [left|right].
    + rewrite HR6, !(ss_registry _ _ S5). cbn.
      case_decide; [subst r|]; rewrite lookup_delete_ne by done; [set_solver|done].
    + unfold base_of in *. by rewrite HB.
  - intros s HR%Hsc. left. rewrite HR6, decide_True by done. set_solver.
Qed.

(** ** [apply_scoped] *)

Lemma register_spec t r s :
  (∀ x, G_of (register t r s) x = G_of t x) ∧
  (∀ s' x, O_of (register t r s) s' x = O_of t s' x) ∧
  (∀ r' s', Reg_of (register t r s) r' s' ↔ Reg_of t r' s' ∨ (r' = r ∧ s' = s)).
Proof.
  split_and!; [done|done|]. intros r' s'. unfold Reg_of, register, set_registry. cbn.
  change (base_of (mkTier (tier_base t) _)) with (base_of t).
  rewrite lookup_insert. case_decide; [subst|naive_solver]. set_solver.
Qed.

Lemma link_scopes_inv scopes : ∀ t u v n Eg Es,
  tier_wf t → view_inv Eg Es (G_of t) (O_of t) (Reg_of t) →
  ∃ t' n', link_scopes t (G_of t u) (G_of t v) scopes n = (t', n') ∧ tier_wf t' ∧
    view_inv Eg (fun s => if decide (s ∈ scopes) then (u, v) :: Es s else Es s)
      (G_of t') (O_of t') (Reg_of t').
Proof.
  induction scopes as [|s0 scopes IH]; intros t u v n Eg Es W V.
  { exists t, n. split_and!; [done|done|]. by eapply view_inv_ext, V. }
  cbn [link_scopes]. set (ru := G_of t u). set (rv := G_of t v).
  destruct (overlay_root_two t s0 ru rv W) as (t1 & t2 & -> & -> & C2 & W2).
  destruct (union_overlay_spec t2 s0 (O_of t s0 ru) (O_of t s0 rv) W2) as (m & o & -> & W3 & HO3).
  { rewrite (tc_O _ _ C2). by apply O_idem. }
  { rewrite (tc_O _ _ C2). by apply O_idem. }
  set (t3 := set_overlay t2 s0 o). set (t4 := register (register t3 ru s0) rv s0).
  destruct (register_spec t3 ru s0) as (A1 & A2 & A3).
  destruct (register_spec (register t3 ru s0) rv s0) as (B1 & B2 & B3). fold t4 in B1, B2, B3.
  assert (∀ x, G_of t4 x = G_of t x) as HG4.
  { intros x. rewrite B1, A1. apply (tc_G _ _ C2). }
  assert (tier_wf t4) as W4 by (by do 2 apply set_registry_wf).
  pose proof (view_scope_edge V s0 u v (O_of t4) (Reg_of t4)) as V4.
  assert (∀ s x, O_of t4 s x = if decide (s0 = s) then
      join (O_of t s0 ru) (O_of t s0 rv) (O_of t s0) x else O_of t s x) as HO4.
  { intros s x. rewrite B2, A2. unfold t3. rewrite HO3.
    unfold join, absorb. by rewrite !(tc_O _ _ C2). }
  specialize (V4 ltac:(intros x; by rewrite HO4, decide_True)
                 ltac:(intros s x Hs; by rewrite HO4, decide_False)).
  assert (∀ r s, Reg_of t r s → Reg_of t4 r s) as HR4.
  { intros r s HR. apply B3. left. apply A3. left. unfold t3. by apply (tc_Reg _ _ C2). }
  specialize (V4 HR4 ltac:(apply B3; left; apply A3; by right) ltac:(apply B3; by right)).
  destruct (IH t4 u v (n ⊞ 1) Eg (fun s => if decide (s = s0) then (u, v) :: Es s else Es s) W4)
    as (t' & n' & Hl & W' & V').
  { by eapply view_inv_ext, V4. }
  rewrite !HG4 in Hl. fold ru rv in Hl. exists t', n'. split_and!; [done|done|].
  eapply view_inv_ext, V'; [done| |done|done|done].
  intros s a b. repeat case_decide; set_solver.
Qed.

Lemma apply_scoped_inv f Eg Es u v scopes :
  forest_inv f Eg Es →
  forest_inv (apply_scoped f u v scopes) Eg
    (fun s => if decide (s ∈ scopes) then (u, v) :: Es s else Es s).
Proof.
  intros [W V]. unfold apply_scoped.
  destruct (shared_root_two (tier f) u v W) as (t1 & t2 & -> & -> & C2 & W2).
  destruct (forest_inv_compressed f t2 Eg Es (conj W V) C2) as [_ V2]. cbn in V2.
  rewrite <-!(tc_G _ _ C2).
  destruct (link_scopes_inv scopes t2 u v (scope_links f) Eg Es W2 V2) as (t' & n & -> & W' & V').
  by split.
Qed.

(** ** Events *)

(** The edges scope [s] sees among [evs]; scope 0 sees the global ones. *)
Definition visible_edges (evs : list EdgeEvent) (s : ScopeId) : edges :=
  (fun e => (src e, dst e)) <$> filter (fun e => sees (visibility e) s) evs.

(** A forest that has absorbed the events [evs]. *)
Definition absorbed (f : ScopedForest) (evs : list EdgeEvent) : Prop :=
  forest_inv f (visible_edges evs GLOBAL_SCOPE) (visible_edges evs).

Lemma elem_of_visible evs s u v :
  (u, v) ∈ visible_edges evs s ↔ ∃ e, e ∈ evs ∧ sees (visibility e) s ∧ u = src e ∧ v = dst e.
Proof.
  unfold visible_edges. rewrite list_elem_of_fmap. setoid_rewrite list_elem_of_filter.
  split; [intros (e & [= -> ->] & ? & ?); eauto|intros (e & ? & ? & -> & ->); eauto].
Qed.

Lemma sees_global v : sees v GLOBAL_SCOPE ↔ is_global v.
Proof. unfold sees, is_global. destruct v; naive_solver. Qed.

Lemma visible_global evs s u v :
  (u, v) ∈ visible_edges evs GLOBAL_SCOPE → (u, v) ∈ visible_edges evs s.
Proof.
  rewrite !elem_of_visible. intros (e & He & Hs & Heq). exists e.
  split_and!; try done; try apply Heq. left. by apply sees_global.
Qed.

Lemma visible_snoc evs e s u v :
  (u, v) ∈ visible_edges (evs ++ [e]) s ↔
  (u, v) ∈ visible_edges evs s ∨ (sees (visibility e) s ∧ u = src e ∧ v = dst e).
Proof.
  rewrite !elem_of_visible. split.
  - intros (e' & [He| ->%list_elem_of_singleton]%elem_of_app & ?); eauto.
  - intros [(e' & He & ?)|?]; [exists e'|exists e]; rewrite elem_of_app, list_elem_of_singleton; auto.
Qed.

Lemma forest_inv_ext f Eg Es Eg' Es' :
  (∀ u v, (u, v) ∈ Eg ↔ (u, v) ∈ Eg') →
  (∀ s u v, (u, v) ∈ Eg ++ Es s ↔ (u, v) ∈ Eg' ++ Es' s) →
  forest_inv f Eg Es → forest_inv f Eg' Es'.
Proof. intros H1 H2 [W V]. split; [done|]. by eapply view_inv_ext, V. Qed.

Lemma apply_absorbed f evs e : absorbed f evs → absorbed (apply f e) (evs ++ [e]).
Proof.
  intros I. unfold apply, absorbed.
  destruct (normalize (visibility e)) as [|scopes] eqn:N.
  - apply normalize_global in N.
    eapply forest_inv_ext; [| |apply (apply_global_inv _ _ _ (src e) (dst e) I)].
    + intros u v. rewrite visible_snoc, elem_of_cons, sees_global. naive_solver.
    + intros s u v. rewrite !elem_of_app, !visible_snoc, elem_of_cons.
      assert (∀ s', sees (visibility e) s') by (by left). naive_solver.
  - apply normalize_scoped in N as (Hng & _ & H0 & _ & Hsees).
    eapply forest_inv_ext; [| |apply (apply_scoped_inv _ _ _ (src e) (dst e) scopes I)].
    + intros u v. rewrite visible_snoc, sees_global. naive_solver.
    + intros s u v. rewrite !elem_of_app, !visible_snoc, sees_global, <-Hsees.
      case_decide; rewrite ?elem_of_cons; naive_solver.
Qed.

Lemma apply_all_absorbed es : ∀ f evs, absorbed f evs → absorbed (foldl apply f es) (evs ++ es).
Proof.
  induction es as [|e es IH]; intros f evs I; cbn [foldl]; [by rewrite app_nil_r|].
  rewrite cons_middle, app_assoc. by apply IH, apply_absorbed.
Qed.

(** ** The base is only replaced by folds and swaps *)

Lemma shared_root_base t x c : tier_base (shared_root t x c).2 = tier_base t.
Proof.
  unfold shared_root. destruct (dsu_find _ _ _) as [m g]. destruct (negb _); [done|]. cbn [tier_base set_global].
  destruct (tier_base t ≫= _) as [b|]; [|done]. destruct (negb _); [|done]. by destruct (dsu_find _ _ _).
Qed.

Lemma overlay_root_base t s x c : tier_base (overlay_root t s x c).2 = tier_base t.
Proof.
  unfold overlay_root. destruct (mem_overlays _ !! s) as [o|].
  - destruct (dsu_find _ _ _) as [m o']. destruct (negb _); [done|]. cbn [tier_base set_overlay].
    destruct (tier_base t ≫= _) as [b|]; [|done]. destruct (b =? x); [done|]. by destruct (dsu_find _ _ _).
  - destruct (tier_base t ≫= _) as [b|]; [|done]. by destruct (b =? x).
Qed.

Lemma fixup_scopes_base scopes child parent : ∀ t n, tier_base (fixup_scopes t child parent scopes n).1 = tier_base t.
Proof.
  induction scopes as [|s scopes IH]; intros t n; [done|]. cbn [fixup_scopes].
  pose proof (overlay_root_base t s child true) as H1. destruct (overlay_root t s child true) as [a t1].
  pose proof (overlay_root_base t1 s parent true) as H2. destruct (overlay_root t1 s parent true) as [b t2].
  cbn [snd] in *. destruct (negb _); [|rewrite IH; congruence]. destruct (union _ _ _). rewrite IH. cbn. congruence.
Qed.

Lemma link_scopes_base scopes ru rv : ∀ t n, tier_base (link_scopes t ru rv scopes n).1 = tier_base t.
Proof.
  induction scopes as [|s scopes IH]; intros t n; [done|]. cbn [link_scopes].
  pose proof (overlay_root_base t s ru true) as H1. destruct (overlay_root t s ru true) as [a t1].
  pose proof (overlay_root_base t1 s rv true) as H2. destruct (overlay_root t1 s rv true) as [b t2].
  cbn [snd] in *. destruct (union _ _ _). rewrite IH. cbn. congruence.
Qed.

Lemma apply_base f e : tier_base (tier (apply f e)) = tier_base (tier f).
Proof.
  unfold apply, apply_global, apply_scoped. cbn [tier].
  destruct (normalize (visibility e)) as [|scopes]; pose proof (shared_root_base (tier f) (src e) true) as H1;
    destruct (shared_root (tier f) (src e) true) as [ru t1]; pose proof (shared_root_base t1 (dst e) true) as H2;
    destruct (shared_root t1 (dst e) true) as [rv t2]; cbn [snd] in *.
  - destruct (union _ _ _) as [[[child parent]|] g]; cbn [tier]; [|cbn; congruence].
    match goal with |- context [fixup_scopes ?t ?c ?p ?ss ?n] => pose proof (fixup_scopes_base ss c p t n) as H3;
      destruct (fixup_scopes t c p ss n) as [t3 n3] end. cbn in H3. case_bool_decide; cbn; congruence.
  - pose proof (link_scopes_base scopes ru rv t2 (scope_links f)) as H3. destruct (link_scopes _ _ _ _ _). cbn in *. congruence.
Qed.

Lemma scope_root_base f s x : tier_base (tier (scope_root f s x).2) = tier_base (tier f).
Proof.
  unfold scope_root. pose proof (shared_root_base (tier f) x false) as H1. destruct (shared_root (tier f) x false) as [g t1].
  cbn [snd] in H1. destruct (s =? GLOBAL_SCOPE); [exact H1|].
  pose proof (overlay_root_base t1 s g false) as H2. destruct (overlay_root t1 s g false). cbn in *. congruence.
Qed.
