(* ===== verification/Compaction.v ===== *)
(** Compaction, snapshots, hydration and folds: [src/core/scoped.rs].

    A [SnapshotSink] is driven by a sequence of calls; the sequence is modelled as
    a list of [emission]s, and a sink as a state with a step per emission. *)

From S2P Require Import Prelude Types Graph Dsu View RoutingBase Forest.

(** ** The stream *)

Inductive emission :=
| SharedPair (node root : NodeId)
| ScopeStart (scope : ScopeId)
| OverlayPair (node root : NodeId)
| RegistryEntry (root : NodeId) (scope : ScopeId)
| ScopeEnd (scope : ScopeId).

(** [ScopedForest::emit_shared]. *)
Definition emit_shared (t : Tier) (node : NodeId) : list emission * Tier :=
  let '(root, t) := shared_root t node false in
  if negb (root =? node) then ([SharedPair node root], t) else ([], t).

(** [ScopedForest::emit_overlay]. *)
Definition emit_overlay (scope : ScopeId) (t : Tier) (node : NodeId) : list emission * Tier :=
  let '(root, t) := overlay_root t scope node false in
  if root =? node then ([], t)
  else
    let '(a, t) := shared_root t node false in
    let '(b, t) := shared_root t root false in
    ([OverlayPair node root; RegistryEntry a scope] ++
     (if negb (b =? a) then [RegistryEntry b scope] else []), t).

(** Run an emitter over keys. *)
Fixpoint emit_keys (emit : Tier → NodeId → list emission * Tier) (t : Tier) (ks : list NodeId)
    : list emission * Tier :=
  match ks with
  | [] => ([], t)
  | k :: ks =>
      let '(e, t) := emit t k in
      let '(es, t) := emit_keys emit t ks in
      (e ++ es, t)
  end.

(** The merge-join of [compact_locked]: the memtable keys below the next base
    key, then the base key, dropping an equal memtable key. *)
Fixpoint merge_upto (mem : list NodeId) (k : NodeId) : list NodeId * list NodeId :=
  match mem with
  | m :: ms =>
      if m <? k then let '(e, rest) := merge_upto ms k in (m :: e, rest)
      else if m =? k then ([k], ms)
      else ([k], mem)
  | [] => ([k], [])
  end.

Fixpoint merge_keys (mem base : list NodeId) : list NodeId :=
  match base with
  | [] => mem
  | k :: base => let '(e, rest) := merge_upto mem k in e ++ merge_keys rest base
  end.

Definition overlay_keys (t : Tier) (scope : ScopeId) : list NodeId :=
  from_option keys [] (mem_overlays (tier_mem t) !! scope).

(** One scope of [compact_locked]. *)
Definition compact_scope (t : Tier) (scope : ScopeId) : list emission * Tier :=
  let base := from_option (fun b => (overlay_pairs b scope).*1) [] (tier_base t) in
  let '(es, t) := emit_keys (emit_overlay scope) t
                    (merge_keys (sort_N (overlay_keys t scope)) base) in
  (ScopeStart scope :: es ++ [ScopeEnd scope], t).

Fixpoint compact_scopes (t : Tier) (scopes : list ScopeId) : list emission * Tier :=
  match scopes with
  | [] => ([], t)
  | s :: scopes =>
      let '(e, t) := compact_scope t s in
      let '(es, t) := compact_scopes t scopes in
      (e ++ es, t)
  end.

(** [ScopedForest::compact_locked]. *)
Definition compact_locked (t : Tier) : list emission * Tier :=
  let mem := sort_N (keys (mem_global (tier_mem t))) in
  let base := from_option (fun b => (shared_pairs b).*1) [] (tier_base t) in
  let '(e1, t) := emit_keys emit_shared t (merge_keys mem base) in
  let scope_ids :=
    dedup (sort_N (elements (dom (mem_overlays (tier_mem t))) ++
                   from_option base_scopes [] (tier_base t))) in
  let '(e2, t) := compact_scopes t scope_ids in
  (e1 ++ e2, t).

(** [ScopedForest::stream_memtable]: only the memtable's own keys. *)
Definition stream_scope (t : Tier) (scope : ScopeId) : list emission * Tier :=
  let '(es, t) := emit_keys (emit_overlay scope) t (sort_N (overlay_keys t scope)) in
  (ScopeStart scope :: es ++ [ScopeEnd scope], t).

Fixpoint stream_scopes (t : Tier) (scopes : list ScopeId) : list emission * Tier :=
  match scopes with
  | [] => ([], t)
  | s :: scopes =>
      let '(e, t) := stream_scope t s in
      let '(es, t) := stream_scopes t scopes in
      (e ++ es, t)
  end.

Definition stream_memtable (t : Tier) : list emission * Tier :=
  let '(e1, t) := emit_keys emit_shared t (sort_N (keys (mem_global (tier_mem t)))) in
  let '(e2, t) := stream_scopes t (sorted_keys (mem_overlays (tier_mem t))) in
  (e1 ++ e2, t).

(** ** [ForestSnapshot] and the collecting sink *)

Record ForestSnapshot := mkSnap {
  snap_global : list (NodeId * NodeId);
  snap_scopes : list (ScopeId * list (NodeId * NodeId));
}.

Record SnapshotCollector := mkCollector {
  col_global : list (NodeId * NodeId);
  col_scopes : list (ScopeId * list (NodeId * NodeId));
  col_open : option (ScopeId * list (NodeId * NodeId));
}.

Definition collector_new : SnapshotCollector := mkCollector [] [] None.

(** [impl SnapshotSink for SnapshotCollector]. *)
Definition collector_push (c : SnapshotCollector) (e : emission) : SnapshotCollector :=
  match e with
  | SharedPair n r => mkCollector (col_global c ++ [(n, r)]) (col_scopes c) (col_open c)
  | OverlayPair n r =>
      mkCollector (col_global c) (col_scopes c)
        ((fun sp => (sp.1, sp.2 ++ [(n, r)])) <$> col_open c)
  | ScopeStart s => mkCollector (col_global c) (col_scopes c) (Some (s, []))
  | ScopeEnd _ =>
      match col_open c with
      | Some (s, pairs) =>
          mkCollector (col_global c)
            (if bool_decide (pairs = []) then col_scopes c else col_scopes c ++ [(s, pairs)]) None
      | None => c
      end
  | RegistryEntry _ _ => c
  end.

Definition collect (es : list emission) : ForestSnapshot :=
  let c := foldl collector_push collector_new es in mkSnap (col_global c) (col_scopes c).

(** [ScopedForest::snapshot]. *)
Definition snapshot (f : ScopedForest) : ForestSnapshot * ScopedForest :=
  let '(es, t) := compact_locked (tier f) in (collect es, set_tier f t).

(** ** Hydration *)

(** Register each endpoint of each pair under its live global root. *)
Fixpoint hydrate_registry (t : Tier) (scope : ScopeId) (ms : list NodeId) : Tier :=
  match ms with
  | [] => t
  | m :: ms =>
      let '(live, g) := find (mem_global (tier_mem t)) m in
      hydrate_registry (register (set_global t g) live scope) scope ms
  end.

Definition hydrate_scope (t : Tier) (sp : ScopeId * list (NodeId * NodeId)) : Tier :=
  let t := set_overlay t sp.1 (dsu_hydrate (mem_overlay (tier_mem t) sp.1) sp.2) in
  hydrate_registry t sp.1 (mjoin ((fun ab => [ab.1; ab.2]) <$> sp.2)).

(** [ScopedForest::hydrate]. *)
Definition hydrate (f : ScopedForest) (snap : ForestSnapshot) : ScopedForest :=
  let t := set_global (tier f) (dsu_hydrate (mem_global (tier_mem (tier f))) (snap_global snap)) in
  let t := foldl hydrate_scope t (snap_scopes snap) in
  let links := foldl (fun n sp => n ⊞ N.of_nat (length sp.2)) (scope_links f) (snap_scopes snap) in
  mkForest t (member_index f) (events_applied f) links (fixups f) (folds f).

(** ** Folds *)

Section folds.
Context {Sk Er T : Type} (push : Sk → emission → Sk).

(** Publish a base with an empty memtable. *)
Definition publish (f : ScopedForest) (b : RoutingBase) : ScopedForest :=
  mkForest (mkTier (Some b) (mem_new (member_index f))) (member_index f)
    (events_applied f) (scope_links f) (fixups f) (folds f ⊞ 1).

(** [ScopedForest::compact_and_fold]. *)
Definition compact_and_fold (f : ScopedForest) (sink : Sk)
    (build : Sk → result Er (RoutingBase * T)) : result Er T * ScopedForest :=
  let '(es, t) := compact_locked (tier f) in
  match build (foldl push sink es) with
  | Ok (b, out) => (Ok out, publish f b)
  | Err e => (Err e, set_tier f t)
  end.

(** [ScopedForest::fold_delta]. *)
Definition fold_delta (f : ScopedForest) (sink : Sk)
    (build : Sk → option RoutingBase → result Er (RoutingBase * T)) : result Er T * ScopedForest :=
  let '(es, t) := stream_memtable (tier f) in
  match build (foldl push sink es) (tier_base (tier f)) with
  | Ok (b, out) => (Ok out, publish f b)
  | Err e => (Err e, set_tier f t)
  end.
End folds.

(** [ScopedForest::swap_base]. *)
Definition swap_base (f : ScopedForest) (b : RoutingBase) : ScopedForest :=
  set_tier f (mkTier (Some b) (tier_mem (tier f))).
