(* ===== verification/CompactionInv.v ===== *)
(** Compaction streams the composed state in key order, and every way of
    reading the stream back (hydration, a fold into a new base, a delta layer)
    preserves what the forest answers. *)

From S2P Require Import Prelude Types Graph Dsu View RoutingBase Forest ForestInv Compaction.

(** ** The merge-join *)

Lemma merge_upto_spec mem k e rest :
  merge_upto mem k = (e, rest) →
  StronglySorted N.lt mem →
  StronglySorted N.lt e ∧ StronglySorted N.lt rest ∧
  (∀ x, x ∈ e → x <= k) ∧ (∀ x, x ∈ rest → k < x) ∧
  (∀ x, x ∈ e ∨ x ∈ rest ↔ x = k ∨ x ∈ mem).
Proof.
  revert e rest. induction mem as [|m ms IH]; intros e rest; cbn.
  { intros [= <- <-] _. split_and!; [repeat constructor|constructor|set_solver..]. }
  intros H Hs. apply StronglySorted_inv in Hs as [Hs Hm]. rewrite Forall_forall in Hm.
  destruct (N.ltb_spec m k).
  - destruct (merge_upto ms k) as [e' r'] eqn:E. simplify_eq.
    destruct (IH _ _ eq_refl Hs) as (H1 & H2 & H3 & H4 & H5).
    split_and!; [|done| |done|].
    + constructor; [done|]. apply Forall_forall. intros x Hx.
      destruct (proj1 (H5 x) (or_introl Hx)) as [->|]; auto.
    + intros x [->|]%elem_of_cons; [lia|auto].
    + intros x. rewrite elem_of_cons, elem_of_cons. specialize (H5 x). naive_solver.
  - destruct (N.eqb_spec m k) as [->|]; simplify_eq.
    + split_and!; [repeat constructor|done| |done|]; [set_solver by lia|].
      intros x. rewrite list_elem_of_singleton, elem_of_cons. tauto.
    + split_and!; [repeat constructor|by constructor; [|apply Forall_forall]| | |].
      * intros x ->%list_elem_of_singleton. lia.
      * intros x [->|Hx]%elem_of_cons; [lia|]. specialize (Hm _ Hx). lia.
      * intros x. by rewrite list_elem_of_singleton.
Qed.

Lemma StronglySorted_app_2 (l1 l2 : list N) :
  StronglySorted N.lt l1 → StronglySorted N.lt l2 →
  (∀ x y, x ∈ l1 → y ∈ l2 → x < y) → StronglySorted N.lt (l1 ++ l2).
Proof.
  induction 1 as [|a l1 H1 IH Ha]; intros H2 H; [done|]. cbn. constructor.
  - apply IH; [done|]. intros x y Hx. apply H. by right.
  - apply Forall_app. split; [done|]. apply Forall_forall. intros y. apply H. left.
Qed.

Lemma merge_keys_spec mem base :
  StronglySorted N.lt mem → StronglySorted N.lt base →
  StronglySorted N.lt (merge_keys mem base) ∧
  ∀ x, x ∈ merge_keys mem base ↔ x ∈ mem ∨ x ∈ base.
Proof.
  intros Hm Hb. revert mem Hm. induction Hb as [|k base Hb IH Hk]; intros mem Hm; cbn.
  { split; [done|]. set_solver. }
  destruct (merge_upto mem k) as [e rest] eqn:E.
  destruct (merge_upto_spec _ _ _ _ E Hm) as (H1 & H2 & H3 & H4 & H5).
  destruct (IH rest H2) as [I1 I2]. rewrite Forall_forall in Hk. split.
  - apply StronglySorted_app_2; [done|done|]. intros x y Hx%H3 [Hy|Hy]%I2.
    + apply H4 in Hy. lia.
    + apply Hk in Hy. lia.
  - intros x. rewrite elem_of_app, I2, elem_of_cons. specialize (H5 x). naive_solver.
Qed.

(** ** What is emitted *)

Definition shared_em (G : NodeId → NodeId) (k : NodeId) : list emission :=
  if G k =? k then [] else [SharedPair k (G k)].

Definition overlay_em (G O : NodeId → NodeId) (s : ScopeId) (k : NodeId) : list emission :=
  if O k =? k then []
  else [OverlayPair k (O k); RegistryEntry (G k) s] ++
       (if G (O k) =? G k then [] else [RegistryEntry (G (O k)) s]).

Definition scope_em (G O : NodeId → NodeId) (s : ScopeId) (ks : list NodeId) : list emission :=
  ScopeStart s :: mjoin (overlay_em G O s <$> ks) ++ [ScopeEnd s].

(** The whole stream over the given keys. *)
Definition stream_of (G : NodeId → NodeId) (O : ScopeId → NodeId → NodeId)
    (ks : list NodeId) (sids : list ScopeId) (oks : ScopeId → list NodeId) : list emission :=
  mjoin (shared_em G <$> ks) ++ mjoin ((fun s => scope_em G (O s) s (oks s)) <$> sids).

Lemma emit_keys_spec emit (F : Tier → NodeId → list emission) :
  (∀ t k, tier_wf t → ∃ t', emit t k = (F t k, t') ∧ tier_compressed t t') →
  (∀ t t' k, tier_compressed t t' → F t' k = F t k) →
  ∀ ks t, tier_wf t → ∃ t', emit_keys emit t ks = (mjoin (F t <$> ks), t') ∧ tier_compressed t t'.
Proof.
  intros He HF ks. induction ks as [|k ks IH]; intros t W; cbn; [eauto with blaze|].
  destruct (He t k W) as (t1 & -> & C1). destruct (IH t1) as (t2 & -> & C2); [eauto with blaze|].
  exists t2. split; [|eauto with blaze].
  assert (F t1 <$> ks = F t <$> ks) as ->; [|done].
  apply list_fmap_ext. intros i x _. by apply HF.
Qed.

Lemma emit_shared_spec t k :
  tier_wf t → ∃ t', emit_shared t k = (shared_em (G_of t) k, t') ∧ tier_compressed t t'.
Proof.
  intros W. unfold emit_shared, shared_em.
  destruct (shared_root_spec t k false W) as (t1 & -> & C1).
  destruct (_ =? _); eauto.
Qed.

Lemma emit_overlay_spec s t k :
  tier_wf t → ∃ t', emit_overlay s t k = (overlay_em (G_of t) (O_of t s) s k, t') ∧
    tier_compressed t t'.
Proof.
  intros W. unfold emit_overlay, overlay_em.
  destruct (overlay_root_spec t s k false W) as (t1 & -> & C1).
  destruct (O_of t s k =? k); [eauto|].
  destruct (shared_root_spec t1 k false) as (t2 & -> & C2); [eauto with blaze|].
  destruct (shared_root_spec t2 (O_of t s k) false) as (t3 & -> & C3); [eauto with blaze|].
  rewrite (tc_G _ _ C2), !(tc_G _ _ C1).
  exists t3. split; [|eauto with blaze]. by destruct (_ =? _).
Qed.

Lemma shared_em_compressed t t' k :
  tier_compressed t t' → shared_em (G_of t') k = shared_em (G_of t) k.
Proof. intros C. unfold shared_em. by rewrite (tc_G _ _ C). Qed.

Lemma overlay_em_compressed s t t' k :
  tier_compressed t t' →
  overlay_em (G_of t') (O_of t' s) s k = overlay_em (G_of t) (O_of t s) s k.
Proof. intros C. unfold overlay_em. by rewrite !(tc_O _ _ C), !(tc_G _ _ C). Qed.

Lemma emit_shared_keys t ks :
  tier_wf t → ∃ t', emit_keys emit_shared t ks = (mjoin (shared_em (G_of t) <$> ks), t') ∧
    tier_compressed t t'.
Proof.
  apply (emit_keys_spec emit_shared (fun t => shared_em (G_of t)));
    eauto using emit_shared_spec, shared_em_compressed.
Qed.

Lemma emit_overlay_keys s t ks :
  tier_wf t → ∃ t', emit_keys (emit_overlay s) t ks =
    (mjoin (overlay_em (G_of t) (O_of t s) s <$> ks), t') ∧ tier_compressed t t'.
Proof.
  apply (emit_keys_spec (emit_overlay s) (fun t => overlay_em (G_of t) (O_of t s) s));
    eauto using emit_overlay_spec, overlay_em_compressed.
Qed.

(** Compression keeps key sets, so the keys a loop iterates can be read off the
    tier it started from. *)
Lemma sort_N_set (l1 l2 : list N) :
  NoDup l1 → NoDup l2 → (∀ x, x ∈ l1 ↔ x ∈ l2) → sort_N l1 = sort_N l2.
Proof.
  intros H1 H2 E. apply sorted_lt_ext.
  - apply sorted_le_lt; [apply sort_N_sorted|by rewrite sort_N_perm].
  - apply sorted_le_lt; [apply sort_N_sorted|by rewrite sort_N_perm].
  - intros x. by rewrite !elem_of_sort_N.
Qed.

Lemma compressed_overlay_keys t t' s :
  tier_compressed t t' → sort_N (overlay_keys t' s) = sort_N (overlay_keys t s).
Proof.
  intros C. unfold overlay_keys. destruct (tc_overlays _ _ C s) as [o o' Ho|]; [|done]. cbn.
  unfold keys. by rewrite (comp_dom _ _ Ho).
Qed.

Lemma overlay_keys_nodup t s : NoDup (overlay_keys t s).
Proof. unfold overlay_keys. destruct (_ !! s); [apply keys_nodup|constructor]. Qed.

Lemma sort_nodup_sorted l : NoDup l → StronglySorted N.lt (sort_N l).
Proof. intros. apply sorted_le_lt; [apply sort_N_sorted|by rewrite sort_N_perm]. Qed.

(** The keys compaction visits in the shared tier and in a scope. *)
Definition shared_keys (t : Tier) : list NodeId :=
  merge_keys (sort_N (keys (mem_global (tier_mem t)))) (shared_pairs (base_of t)).*1.
Definition scope_keys (t : Tier) (s : ScopeId) : list NodeId :=
  merge_keys (sort_N (overlay_keys t s)) (overlay_pairs (base_of t) s).*1.
Definition scope_ids (t : Tier) : list ScopeId :=
  dedup (sort_N (elements (dom (mem_overlays (tier_mem t))) ++ base_scopes (base_of t))).

Lemma compact_scope_spec t s :
  tier_wf t → ∃ t', compact_scope t s = (scope_em (G_of t) (O_of t s) s (scope_keys t s), t') ∧
    tier_compressed t t'.
Proof.
  intros W. unfold compact_scope.
  assert (from_option (fun b => (overlay_pairs b s).*1) [] (tier_base t) =
          (overlay_pairs (base_of t) s).*1) as ->.
  { unfold base_of, base_or_empty. by destruct (tier_base t). }
  fold (scope_keys t s).
  destruct (emit_overlay_keys s t (scope_keys t s) W) as (t' & -> & C). eauto.
Qed.

Lemma scope_keys_compressed t t' s : tier_compressed t t' → scope_keys t' s = scope_keys t s.
Proof.
  intros C. unfold scope_keys. by rewrite (tc_base_of _ _ C), (compressed_overlay_keys _ _ _ C).
Qed.

Lemma scope_em_compressed t t' s ks :
  tier_compressed t t' →
  scope_em (G_of t') (O_of t' s) s ks = scope_em (G_of t) (O_of t s) s ks.
Proof.
  intros C. unfold scope_em. do 3 f_equal.
  apply list_fmap_ext. intros j k _. by apply overlay_em_compressed.
Qed.

Lemma scopes_em_compressed t t' (sids : list ScopeId) :
  tier_compressed t t' →
  (fun s => scope_em (G_of t') (O_of t' s) s (scope_keys t' s)) <$> sids =
  (fun s => scope_em (G_of t) (O_of t s) s (scope_keys t s)) <$> sids.
Proof.
  intros C. apply list_fmap_ext. intros i s _.
  by rewrite (scope_keys_compressed _ _ _ C), (scope_em_compressed _ _ _ _ C).
Qed.

Lemma compact_scopes_spec sids : ∀ t,
  tier_wf t → ∃ t', compact_scopes t sids =
    (mjoin ((fun s => scope_em (G_of t) (O_of t s) s (scope_keys t s)) <$> sids), t') ∧
    tier_compressed t t'.
Proof.
  induction sids as [|s sids IH]; intros t W; cbn; [eauto with blaze|].
  destruct (compact_scope_spec t s W) as (t1 & -> & C1).
  destruct (IH t1) as (t2 & -> & C2); [eauto with blaze|].
  exists t2. split; [|eauto with blaze]. by rewrite (scopes_em_compressed _ _ _ C1).
Qed.

Lemma compact_locked_spec t :
  tier_wf t → ∃ t', compact_locked t =
    (stream_of (G_of t) (O_of t) (shared_keys t) (scope_ids t) (scope_keys t), t') ∧
    tier_compressed t t'.
Proof.
  intros W. unfold compact_locked.
  assert (from_option (fun b => (shared_pairs b).*1) [] (tier_base t) =
          (shared_pairs (base_of t)).*1) as ->.
  { unfold base_of, base_or_empty. by destruct (tier_base t). }
  fold (shared_keys t).
  destruct (emit_shared_keys t (shared_keys t) W) as (t1 & -> & C1).
  assert (dedup (sort_N (elements (dom (mem_overlays (tier_mem t1))) ++
            from_option base_scopes [] (tier_base t1))) = scope_ids t) as ->.
  { unfold scope_ids. do 2 f_equal. f_equal; [f_equal|].
    - apply set_eq. intros s. rewrite !elem_of_dom.
      destruct (tc_overlays _ _ C1 s); naive_solver.
    - unfold base_of, base_or_empty. rewrite (tc_base _ _ C1). by destruct (tier_base t). }
  destruct (compact_scopes_spec (scope_ids t) t1) as (t2 & -> & C2); [eauto with blaze|].
  exists t2. split; [|eauto with blaze]. unfold stream_of.
  by rewrite (scopes_em_compressed _ _ _ C1).
Qed.

(** ** Collecting the stream *)

(** The resolved pairs of the keys that are not their own root. *)
Definition nonroot_pairs (ρ : NodeId → NodeId) (ks : list NodeId) : list (NodeId * NodeId) :=
  (fun k => (k, ρ k)) <$> filter (fun k => ρ k ≠ k) ks.

Definition nonempty_scopes (O : ScopeId → NodeId → NodeId) (oks : ScopeId → list NodeId)
    (sids : list ScopeId) : list (ScopeId * list (NodeId * NodeId)) :=
  (fun s => (s, nonroot_pairs (O s) (oks s))) <$> filter (fun s => nonroot_pairs (O s) (oks s) ≠ []) sids.

Lemma nonroot_pairs_cons ρ k ks :
  nonroot_pairs ρ (k :: ks) = (if ρ k =? k then [] else [(k, ρ k)]) ++ nonroot_pairs ρ ks.
Proof.
  unfold nonroot_pairs. rewrite filter_cons.
  destruct (N.eqb_spec (ρ k) k); case_decide; try done.
Qed.

Lemma collect_shared G ks : ∀ c,
  foldl collector_push c (mjoin (shared_em G <$> ks)) =
  mkCollector (col_global c ++ nonroot_pairs G ks) (col_scopes c) (col_open c).
Proof.
  induction ks as [|k ks IH]; intros [g sc o].
  { cbn. by rewrite app_nil_r. }
  rewrite nonroot_pairs_cons. cbn [fmap list_fmap mjoin list_join]. unfold shared_em at 1.
  rewrite foldl_app, IH. destruct (G k =? k); cbn; [done|]. by rewrite <-app_assoc.
Qed.

Lemma collect_overlay G O s ks : ∀ g sc ps,
  foldl collector_push (mkCollector g sc (Some (s, ps))) (mjoin (overlay_em G O s <$> ks)) =
  mkCollector g sc (Some (s, ps ++ nonroot_pairs O ks)).
Proof.
  induction ks as [|k ks IH]; intros g sc ps.
  { cbn. by rewrite app_nil_r. }
  rewrite nonroot_pairs_cons. cbn [fmap list_fmap mjoin list_join].
  rewrite foldl_app. unfold overlay_em at 1. destruct (O k =? k); [apply IH|].
  rewrite foldl_app. cbn [foldl collector_push col_global col_scopes col_open fmap option_fmap option_map fst snd].
  assert (∀ l c, foldl collector_push c (if G (O k) =? G k then [] else [RegistryEntry (G (O k)) l]) = c) as ->
    by (intros l c; by destruct (_ =? _)).
  rewrite IH. by rewrite <-app_assoc.
Qed.

Lemma collect_scope G O s ks g sc :
  foldl collector_push (mkCollector g sc None) (scope_em G O s ks) =
  mkCollector g (sc ++ if bool_decide (nonroot_pairs O ks = []) then [] else [(s, nonroot_pairs O ks)]) None.
Proof.
  unfold scope_em. cbn [foldl collector_push col_global col_scopes].
  rewrite foldl_app, collect_overlay. cbn. case_bool_decide; [by rewrite app_nil_r|done].
Qed.

Lemma collect_scopes G O oks sids : ∀ g sc,
  foldl collector_push (mkCollector g sc None)
    (mjoin ((fun s => scope_em G (O s) s (oks s)) <$> sids)) =
  mkCollector g (sc ++ nonempty_scopes O oks sids) None.
Proof.
  induction sids as [|s sids IH]; intros g sc.
  { cbn. by rewrite app_nil_r. }
  cbn [fmap list_fmap mjoin list_join]. rewrite foldl_app, collect_scope.
  etrans; [apply IH|]. unfold nonempty_scopes. rewrite filter_cons.
  rewrite <-app_assoc. case_bool_decide; case_decide; try done.
Qed.

Lemma collect_stream G O ks sids oks :
  collect (stream_of G O ks sids oks) = mkSnap (nonroot_pairs G ks) (nonempty_scopes O oks sids).
Proof.
  unfold collect, stream_of. rewrite foldl_app, collect_shared. cbn. by rewrite collect_scopes.
Qed.

(** ** What a snapshot means *)

Definition scope_pairs (snap : ForestSnapshot) (s : ScopeId) : list (NodeId * NodeId) :=
  default [] ((list_to_map (snap_scopes snap) : gmap ScopeId (list (NodeId * NodeId))) !! s).

(** A snapshot that denotes the root functions [G] and [O]. *)
Record snap_models (snap : ForestSnapshot) (G : NodeId → NodeId) (O : ScopeId → NodeId → NodeId)
    : Prop := {
  sm_global : resolved (snap_global snap);
  sm_G x : pairs_root (snap_global snap) x = G x;
  sm_nodup : NoDup (snap_scopes snap).*1;
  sm_scope s ps : (s, ps) ∈ snap_scopes snap → resolved ps;
  sm_O s x : pairs_root (scope_pairs snap s) x = O s x;
}.

Lemma nonroot_pairs_resolved ρ ks :
  NoDup ks → (∀ x, ρ x <= x) → (∀ x, ρ (ρ x) = ρ x) → resolved (nonroot_pairs ρ ks).
Proof.
  intros Hnd Hle Hi. apply root_pairs_resolved; [by apply NoDup_filter|done|done|].
  intros k Hk. by apply list_elem_of_filter in Hk as [? _].
Qed.

Lemma pairs_root_nonroot ρ ks x :
  NoDup ks → (∀ y, ρ y ≠ y → y ∈ ks) → pairs_root (nonroot_pairs ρ ks) x = ρ x.
Proof.
  intros Hnd Hc. unfold nonroot_pairs. rewrite pairs_root_fmap by (by apply NoDup_filter).
  case_decide as H; [done|]. rewrite list_elem_of_filter in H.
  destruct (decide (ρ x = x)); [done|]. naive_solver.
Qed.

Lemma nonempty_scopes_fst O oks sids : (nonempty_scopes O oks sids).*1 =
  filter (fun s => nonroot_pairs (O s) (oks s) ≠ []) sids.
Proof. unfold nonempty_scopes. induction (filter _ sids); by f_equal/=. Qed.

Lemma scope_pairs_nonempty O oks sids g s :
  NoDup sids → (nonroot_pairs (O s) (oks s) ≠ [] → s ∈ sids) →
  scope_pairs (mkSnap g (nonempty_scopes O oks sids)) s = nonroot_pairs (O s) (oks s).
Proof.
  intros Hnd Hs. unfold scope_pairs. cbn.
  destruct (decide (nonroot_pairs (O s) (oks s) = [])) as [E|E].
  - rewrite E, not_elem_of_list_to_map_1; [done|].
    rewrite nonempty_scopes_fst, list_elem_of_filter. naive_solver.
  - erewrite elem_of_list_to_map_1; [done| |].
    + rewrite nonempty_scopes_fst. by apply NoDup_filter.
    + apply list_elem_of_fmap. exists s. split; [done|]. apply list_elem_of_filter. auto.
Qed.

Lemma stream_models G O ks sids oks :
  (∀ x, G x <= x) → (∀ x, G (G x) = G x) →
  (∀ s x, O s x <= x) → (∀ s x, O s (O s x) = O s x) →
  NoDup ks → NoDup sids → (∀ s, NoDup (oks s)) →
  (∀ x, G x ≠ x → x ∈ ks) →
  (∀ s x, O s x ≠ x → x ∈ oks s) → (∀ s x, O s x ≠ x → s ∈ sids) →
  snap_models (collect (stream_of G O ks sids oks)) G O.
Proof.
  intros HG1 HG2 HO1 HO2 Hks Hsids Hoks Cks Coks Csids. rewrite collect_stream.
  split; cbn.
  - by apply nonroot_pairs_resolved.
  - intros x. by apply pairs_root_nonroot.
  - rewrite nonempty_scopes_fst. by apply NoDup_filter.
  - intros s ps (s' & [= -> ->] & _)%list_elem_of_fmap. by apply nonroot_pairs_resolved.
  - intros s x. rewrite scope_pairs_nonempty; [|done|].
    + apply pairs_root_nonroot; eauto.
    + intros E. unfold nonroot_pairs in E.
      destruct (filter (fun k => O s k ≠ k) (oks s)) as [|k l] eqn:F; [done|].
      apply (Csids s k).
      assert (k ∈ filter (fun k => O s k ≠ k) (oks s)) as Hk by (rewrite F; left).
      by apply list_elem_of_filter in Hk as [? _].
Qed.

(** ** Key completeness of a well-formed tier *)

Section keys.
Context (t : Tier) (W : tier_wf t).
#[local] Instance keys_base_laws : BaseLaws (base_of t) := tw_base t W.

Lemma shared_keys_sorted : StronglySorted N.lt (shared_keys t).
Proof using W.
  apply merge_keys_spec; [apply sort_nodup_sorted, keys_nodup|apply shared_pairs_sorted].
Qed.

Lemma shared_keys_complete x : G_of t x ≠ x → x ∈ shared_keys t.
Proof using W.
  intros H. apply merge_keys_spec;
    [apply sort_nodup_sorted, keys_nodup|apply shared_pairs_sorted|].
  destruct (decide (base_shared (base_of t) x = x)) as [E|E].
  - left. rewrite elem_of_sort_N. apply elem_of_keys; [apply (tw_global _ W)|].
    unfold G_of in H. by rewrite E in H.
  - right. by apply shared_pairs_complete.
Qed.

Lemma scope_keys_sorted s : StronglySorted N.lt (scope_keys t s).
Proof using W.
  apply merge_keys_spec; [apply sort_nodup_sorted, overlay_keys_nodup|apply overlay_pairs_sorted].
Qed.

Lemma elem_of_overlay_keys s x : x ∈ overlay_keys t s ↔ overlay_fn t s x ≠ x.
Proof using W.
  unfold overlay_keys, overlay_fn. destruct (_ !! s) as [o|] eqn:E; cbn.
  - apply elem_of_keys. by eapply tw_overlay.
  - rewrite elem_of_nil. naive_solver.
Qed.

Lemma scope_keys_complete s x : O_of t s x ≠ x → x ∈ scope_keys t s.
Proof using W.
  intros H. apply merge_keys_spec;
    [apply sort_nodup_sorted, overlay_keys_nodup|apply overlay_pairs_sorted|].
  destruct (decide (base_overlay (base_of t) s x = x)) as [E|E].
  - left. rewrite elem_of_sort_N. apply elem_of_overlay_keys.
    unfold O_of in H. by rewrite E in H.
  - right. by apply overlay_pairs_complete.
Qed.

Lemma scope_ids_sorted : StronglySorted N.lt (scope_ids t).
Proof using. apply dedup_sorted_lt, sort_N_sorted. Qed.

Lemma scope_ids_complete s x : O_of t s x ≠ x → s ∈ scope_ids t.
Proof using W.
  intros H. unfold scope_ids. rewrite elem_of_dedup, elem_of_sort_N, elem_of_app.
  destruct (decide (base_overlay (base_of t) s x = x)) as [E|E].
  - left. apply elem_of_elements, elem_of_dom.
    unfold O_of, overlay_fn in H. rewrite E in H.
    destruct (_ !! s) as [o|]; [done|done].
  - right. by eapply base_scopes_complete.
Qed.

(** The compacted stream denotes the composed state. *)
Lemma compact_models :
  snap_models (collect (stream_of (G_of t) (O_of t) (shared_keys t) (scope_ids t) (scope_keys t)))
    (G_of t) (O_of t).
Proof using W.
  apply stream_models; eauto using G_le, G_idem, O_le, O_idem, sorted_lt_nodup,
    shared_keys_sorted, scope_ids_sorted, scope_keys_sorted, shared_keys_complete,
    scope_keys_complete, scope_ids_complete.
Qed.
End keys.

(** ** Hydration *)

Lemma view_inv_reg Eg Es G O Reg (Reg' : NodeId → ScopeId → Prop) :
  (∀ s x, touched (O s) x → Reg' (G x) s) →
  view_inv Eg Es G O Reg → view_inv Eg Es G O Reg'.
Proof. intros H [H1 H2 H3 H4 H5 H6]. by split. Qed.

Definition endpoints (ps : list (NodeId * NodeId)) : list NodeId :=
  mjoin ((fun ab => [ab.1; ab.2]) <$> ps).

Lemma elem_of_endpoints ps x :
  x ∈ endpoints ps ↔ ∃ a b, (a, b) ∈ ps ∧ (x = a ∨ x = b).
Proof.
  unfold endpoints. rewrite list_elem_of_join. setoid_rewrite list_elem_of_fmap. split.
  - intros (l & Hx & ([a b] & -> & Hin)). exists a, b. cbn in Hx. set_solver.
  - intros (a & b & Hin & Hx). exists [a; b]. split; [set_solver|]. by exists (a, b).
Qed.

Lemma touched_endpoint ps x :
  (∀ y, pairs_root ps (pairs_root ps y) = pairs_root ps y) →
  touched (pairs_root ps) x → x ∈ endpoints ps.
Proof.
  intros Hi T. apply touched_iff in T; [|done]. apply elem_of_endpoints.
  unfold pairs_root in T. destruct T as [H|(y & Hy & H)].
  - destruct (list_to_map ps !! x) as [r|] eqn:E; [|done].
    apply elem_of_list_to_map_2 in E. eauto.
  - destruct (list_to_map ps !! y) as [r|] eqn:E; cbn in H; [subst r|done].
    apply elem_of_list_to_map_2 in E. eauto.
Qed.

(** What filling the registry leaves untouched. *)
Record ram_same (t t' : Tier) : Prop := {
  rs_base : tier_base t' = None;
  rs_wf : tier_wf t';
  rs_G x : G_of t' x = G_of t x;
  rs_O s x : O_of t' s x = O_of t s x;
  rs_overlays s : mem_overlays (tier_mem t') !! s = mem_overlays (tier_mem t) !! s;
  rs_member : mem_member_index (tier_mem t') = mem_member_index (tier_mem t);
  rs_Reg r s : Reg_of t r s → Reg_of t' r s;
}.

Lemma ram_base t : tier_base t = None → base_of t = empty_base.
Proof. unfold base_of. by intros ->. Qed.

Lemma hydrate_registry_spec s ms : ∀ t,
  tier_wf t → tier_base t = None →
  ram_same t (hydrate_registry t s ms) ∧
  ∀ m, m ∈ ms → Reg_of (hydrate_registry t s ms) (G_of t m) s.
Proof.
  induction ms as [|m ms IH]; intros t W B; cbn [hydrate_registry].
  { split; [by split|set_solver]. }
  destruct (find_spec (mem_global (tier_mem t)) (tw_global _ W) m) as (g & -> & C).
  pose proof (set_global_compressed t g W C) as TC.
  assert (droot (mem_global (tier_mem t)) m = G_of t m) as Hlive.
  { unfold G_of. by rewrite (ram_base t B). }
  rewrite Hlive. set (t1 := register (set_global t g) (G_of t m) s).
  destruct (register_spec (set_global t g) (G_of t m) s) as (A1 & A2 & A3). fold t1 in A1, A2, A3.
  assert (tier_wf t1) as W1 by (apply set_registry_wf; eauto with blaze).
  destruct (IH t1 W1 B) as [[R1 R2 R3 R4 R5 R6 R7] HR].
  assert (∀ x, G_of t1 x = G_of t x) as HG1 by (intros x; by rewrite A1, (tc_G _ _ TC)).
  split.
  - split; [done|done| | | |done|].
    + intros x. by rewrite R3, HG1.
    + intros s' x. by rewrite R4, A2, (tc_O _ _ TC).
    + intros s'. by rewrite R5.
    + intros r s' H. apply R7, A3. left. by apply (tc_Reg _ _ TC).
  - intros m' [->|Hm]%elem_of_cons.
    + apply R7, A3. by right.
    + rewrite <-HG1. by apply HR.
Qed.

Lemma hydrate_scope_spec t s ps :
  tier_wf t → tier_base t = None → mem_overlays (tier_mem t) !! s = None → resolved ps →
  let t' := hydrate_scope t (s, ps) in
  tier_wf t' ∧ tier_base t' = None ∧ (∀ x, G_of t' x = G_of t x) ∧
  (∀ s' x, O_of t' s' x = if decide (s = s') then pairs_root ps x else O_of t s' x) ∧
  (∀ s', s' ≠ s → mem_overlays (tier_mem t') !! s' = mem_overlays (tier_mem t) !! s') ∧
  (∀ r s', Reg_of t r s' → Reg_of t' r s') ∧
  (∀ x, x ∈ endpoints ps → Reg_of t' (G_of t x) s).
Proof.
  intros W B Hs R t'. unfold t', hydrate_scope. cbn [fst snd].
  assert (mem_overlay (tier_mem t) s = dsu_tracking (mem_member_index (tier_mem t))) as ->.
  { unfold mem_overlay. by rewrite Hs. }
  destruct (hydrate_spec (mem_member_index (tier_mem t)) ps R) as (Hwf & Hroot & _).
  set (o := dsu_hydrate _ ps). fold o in Hwf, Hroot.
  set (t1 := set_overlay t s o).
  assert (tier_wf t1) as W1.
  { destruct W as [W1 W2 W3 W4 W5]. split; try done.
    - intros s' o'. cbn. rewrite lookup_insert. case_decide; intros; simplify_eq; eauto.
    - intros s' x _. change (base_of t1) with (base_of t). by rewrite (ram_base t B). }
  destruct (hydrate_registry_spec s (endpoints ps) t1 W1 B) as [[R1 R2 R3 R4 R5 R6 R7] HR].
  fold (endpoints ps). split_and!; [done|done|done| | |done|done].
  - intros s' x. rewrite R4. unfold O_of. change (base_of t1) with (base_of t).
    unfold t1. rewrite overlay_fn_set, (ram_base t B). cbn. case_decide; [|done]. apply Hroot.
  - intros s' Hne. rewrite R5. cbn. by rewrite lookup_insert_ne.
Qed.

Lemma hydrate_scopes_spec l : ∀ t,
  tier_wf t → tier_base t = None → NoDup l.*1 →
  (∀ s ps, (s, ps) ∈ l → resolved ps ∧ mem_overlays (tier_mem t) !! s = None) →
  let t' := foldl hydrate_scope t l in
  tier_wf t' ∧ tier_base t' = None ∧ (∀ x, G_of t' x = G_of t x) ∧
  (∀ s x, O_of t' s x = from_option (fun ps => pairs_root ps x) (O_of t s x)
            ((list_to_map l : gmap ScopeId (list (NodeId * NodeId))) !! s)) ∧
  (∀ r s, Reg_of t r s → Reg_of t' r s) ∧
  (∀ s ps x, (s, ps) ∈ l → x ∈ endpoints ps → Reg_of t' (G_of t x) s).
Proof.
  induction l as [|[s ps] l IH]; intros t W B Hnd Hl; cbn [foldl].
  { split_and!; try done. set_solver. }
  cbn in Hnd. apply NoDup_cons in Hnd as [Hs Hnd].
  destruct (Hl s ps) as [R Hn]; [left|].
  destruct (hydrate_scope_spec t s ps W B Hn R) as (W1 & B1 & G1 & O1 & M1 & R1 & E1).
  set (t1 := hydrate_scope t (s, ps)) in *.
  destruct (IH t1 W1 B1 Hnd) as (W2 & B2 & G2 & O2 & R2 & E2).
  { intros s' ps' Hin. destruct (Hl s' ps') as [R' Hn']; [by right|]. split; [done|].
    rewrite M1; [done|]. intros ->. apply Hs. apply list_elem_of_fmap. by exists (s, ps'). }
  split_and!; [done|done| | |auto|].
  - intros x. by rewrite G2, G1.
  - intros s' x. rewrite O2, O1. cbn. rewrite lookup_insert. case_decide; [subst|done].
    rewrite not_elem_of_list_to_map_1 by done. done.
  - intros s' ps' x [[= -> ->]|Hin]%elem_of_cons Hx.
    + apply R2. by apply E1.
    + rewrite <-G1. by eapply E2.
Qed.

(** Hydrating a fresh forest from a snapshot that denotes a view. *)
Lemma hydrate_inv f snap Eg Es G O Reg :
  tier f = mkTier None (mem_new (member_index f)) →
  snap_models snap G O → view_inv Eg Es G O Reg →
  forest_inv (hydrate f snap) Eg Es.
Proof.
  intros Hf [S1 S2 S3 S4 S5] V. unfold hydrate. rewrite Hf. cbn [mem_global tier_mem mem_new].
  destruct (hydrate_spec (member_index f) (snap_global snap) S1) as (Hwf & Hroot & _).
  set (g := dsu_hydrate _ _). fold g in Hwf, Hroot.
  set (t0 := set_global _ g).
  assert (tier_wf t0) as W0.
  { split; [apply empty_base_laws|done| | |].
    - intros s o. cbn. by rewrite lookup_empty.
    - intros x _. done.
    - intros s x _. done. }
  destruct (hydrate_scopes_spec (snap_scopes snap) t0 W0 eq_refl S3)
    as (W1 & B1 & G1 & O1 & _ & E1).
  { intros s ps Hin. split; [eauto|]. cbn. by rewrite lookup_empty. }
  set (t1 := foldl hydrate_scope t0 (snap_scopes snap)) in *.
  assert (∀ x, G_of t0 x = G x) as HG.
  { intros x. rewrite <-S2. apply Hroot. }
  assert (∀ s x, O_of t1 s x = O s x) as HO.
  { intros s x. rewrite O1, <-S5. unfold scope_pairs.
    by destruct (list_to_map (snap_scopes snap) !! s). }
  split; [done|]. cbn [tier].
  apply (view_inv_reg _ _ _ _ Reg).
  - intros s x T. rewrite G1.
    assert (touched (pairs_root (scope_pairs snap s)) x) as T'.
    { destruct T as (y & Hy & Ey). exists y. by rewrite !S5, <-!HO. }
    apply touched_endpoint in T'; [|intros y; rewrite !S5; apply (vi_o_idem _ _ _ _ _ V)].
    unfold scope_pairs in T'.
    destruct (list_to_map (snap_scopes snap) !! s) as [ps|] eqn:E; [|by apply elem_of_nil in T'].
    apply elem_of_list_to_map_2 in E. by eapply E1.
  - eapply view_inv_ext, V; [done|done|intros; by rewrite G1, HG|intros; by rewrite HO|done].
Qed.
