(* ===== verification/FoldInv.v ===== *)
(** Folds, base swaps and restarts preserve every answer; the end-to-end
    theorem of the in-memory engine.

    [build] closures are parameters: what a fold needs of the base it is handed
    is [base_encodes] (a full compaction) or [delta_encodes] (a layer over the
    previous base), and what a swap needs is [base_replaces]. *)

From S2P Require Import Prelude Types Graph Dsu View RoutingBase Forest ForestInv Compaction CompactionInv.

(** ** What a built base must record of the stream it was built from *)

Record base_encodes (b : RoutingBase) (em : list emission) : Prop := {
  be_shared x : base_shared b x = pairs_root (snap_global (collect em)) x;
  be_overlay s x : base_overlay b s x = pairs_root (scope_pairs (collect em) s) x;
  be_registry r s : RegistryEntry r s ∈ em → s ∈ scopes_for_root b r;
  be_pairs : shared_pairs b = snap_global (collect em);
  be_overlay_pairs s : overlay_pairs b s = scope_pairs (collect em) s;
  be_scopes s : s ∈ (snap_scopes (collect em)).*1 → s ∈ base_scopes b;
}.

Record delta_encodes (b prev : RoutingBase) (em : list emission) : Prop := {
  de_shared x : base_shared b x = pairs_root (snap_global (collect em)) (base_shared prev x);
  de_overlay s x : base_overlay b s x = pairs_root (scope_pairs (collect em) s) (base_overlay prev s x);
  de_registry r s : RegistryEntry r s ∈ em → s ∈ scopes_for_root b r;
  de_prev r s : s ∈ scopes_for_root prev r → s ∈ scopes_for_root b r;
  de_enum : BaseEnum b;
}.

Record base_replaces (b prev : RoutingBase) : Prop := {
  br_shared x : base_shared b x = base_shared prev x;
  br_overlay s x : base_overlay b s x = base_overlay prev s x;
  br_registry r s : base_shared prev r = r → s ∈ scopes_for_root prev r → s ∈ scopes_for_root b r;
  br_enum : BaseEnum b;
}.

(** A base that simply holds the stream: shows the contract can be met. *)
Definition emission_base (em : list emission) : RoutingBase :=
  let snap := collect em in
  mkBase
    (fun x => (list_to_map (snap_global snap) : gmap NodeId NodeId) !! x)
    (fun s x => (list_to_map (scope_pairs snap s) : gmap NodeId NodeId) !! x)
    (fun r => omap (fun e => match e with
       | RegistryEntry r' s => if r' =? r then Some s else None | _ => None end) em)
    (snap_scopes snap).*1 (snap_global snap) (scope_pairs snap) false
    (fun _ _ => []) (fun _ _ _ => []).

Lemma emission_base_encodes em : base_encodes (emission_base em) em.
Proof.
  split; try done. intros r s Hin. cbn. apply list_elem_of_omap.
  exists (RegistryEntry r s). split; [done|]. by rewrite N.eqb_refl.
Qed.

(** ** The registry entries of a stream *)

Lemma stream_registry_key G O ks sids oks s k :
  s ∈ sids → k ∈ oks s → O s k ≠ k →
  RegistryEntry (G k) s ∈ stream_of G O ks sids oks ∧
  RegistryEntry (G (O s k)) s ∈ stream_of G O ks sids oks.
Proof.
  intros Hs Hk Hne.
  assert (∀ e, e ∈ overlay_em G (O s) s k → e ∈ stream_of G O ks sids oks) as Hin.
  { intros e He. unfold stream_of. apply elem_of_app. right.
    apply list_elem_of_join. exists (scope_em G (O s) s (oks s)). split.
    - unfold scope_em. apply elem_of_cons. right. apply elem_of_app. left.
      apply list_elem_of_join. eexists. split; [exact He|]. by apply list_elem_of_fmap_2.
    - apply list_elem_of_fmap. eauto. }
  assert (overlay_em G (O s) s k = [OverlayPair k (O s k); RegistryEntry (G k) s] ++
    (if G (O s k) =? G k then [] else [RegistryEntry (G (O s k)) s])) as E.
  { unfold overlay_em. by destruct (N.eqb_spec (O s k) k). }
  split; apply Hin; rewrite E; [set_solver|].
  destruct (N.eqb_spec (G (O s k)) (G k)) as [->|]; set_solver.
Qed.

Lemma stream_registry G O ks sids oks s x :
  (∀ y, O s (O s y) = O s y) →
  (∀ y, O s y ≠ y → s ∈ sids ∧ y ∈ oks s) →
  touched (O s) x → RegistryEntry (G x) s ∈ stream_of G O ks sids oks.
Proof.
  intros Hi Hc T. apply touched_iff in T; [|done]. destruct T as [H|(y & Hy & H)].
  - destruct (Hc _ H). by apply stream_registry_key.
  - assert (O s y ≠ y) as Hne by congruence. destruct (Hc _ Hne) as [? ?].
    rewrite <-H. by apply stream_registry_key.
Qed.

(** ** Full fold *)

Lemma nonroot_pairs_fst_sorted ρ ks :
  StronglySorted N.lt ks → StronglySorted N.lt (nonroot_pairs ρ ks).*1.
Proof.
  intros H. unfold nonroot_pairs. rewrite fst_root_pairs. by apply StronglySorted_filter.
Qed.

Lemma pairs_root_key l x : pairs_root l x ≠ x → x ∈ l.*1.
Proof.
  unfold pairs_root. destruct (list_to_map l !! x) as [r|] eqn:E; [|done].
  intros _. apply list_elem_of_fmap. exists (x, r). split; [done|].
  by apply elem_of_list_to_map_2.
Qed.

Lemma scope_ids_nonempty t s :
  tier_wf t → nonroot_pairs (O_of t s) (scope_keys t s) ≠ [] → s ∈ scope_ids t.
Proof.
  intros W Hne. unfold nonroot_pairs in Hne.
  destruct (filter (fun k => O_of t s k ≠ k) (scope_keys t s)) as [|k l] eqn:F; [done|].
  apply (scope_ids_complete t W s k).
  assert (k ∈ filter (fun k => O_of t s k ≠ k) (scope_keys t s)) as Hk by (rewrite F; left).
  by apply list_elem_of_filter in Hk as [? _].
Qed.

Section full.
Context (t : Tier) (W : tier_wf t).
Context (Eg : edges) (Es : ScopeId → edges).
Context (V : view_inv Eg Es (G_of t) (O_of t) (Reg_of t)).
Let em := stream_of (G_of t) (O_of t) (shared_keys t) (scope_ids t) (scope_keys t).
Context (b : RoutingBase) (B : base_encodes b em).

Lemma full_shared x : base_shared b x = G_of t x.
Proof using W B. rewrite (be_shared _ _ B). apply (sm_G _ _ _ (compact_models t W)). Qed.

Lemma full_overlay s x : base_overlay b s x = O_of t s x.
Proof using W B. rewrite (be_overlay _ _ B). apply (sm_O _ _ _ (compact_models t W)). Qed.

Lemma full_registry s x : touched (O_of t s) x → s ∈ scopes_for_root b (G_of t x).
Proof using W B.
  intros T. apply (be_registry _ _ B). apply stream_registry; [by apply O_idem| |done].
  intros y Hy. split; [by eapply scope_ids_complete|by apply scope_keys_complete].
Qed.

Lemma full_scope_pairs s : overlay_pairs b s = nonroot_pairs (O_of t s) (scope_keys t s).
Proof using W B.
  rewrite (be_overlay_pairs _ _ B). unfold em. rewrite collect_stream.
  apply scope_pairs_nonempty; [apply sorted_lt_nodup, scope_ids_sorted|].
  by apply scope_ids_nonempty.
Qed.

Lemma full_laws : BaseLaws b.
Proof using W B.
  assert (∀ s x, touched (base_overlay b s) x → touched (O_of t s) x) as Ht.
  { intros s x (y & Hy & E). exists y. by rewrite <-!full_overlay. }
  split; split.
  - intros x. rewrite full_shared. by apply G_le.
  - intros x. rewrite !full_shared. by apply G_idem.
  - intros s x. rewrite full_overlay. by apply O_le.
  - intros s x. rewrite !full_overlay. by apply O_idem.
  - intros s x T%Ht. rewrite full_shared. by apply full_registry.
  - rewrite (be_pairs _ _ B). unfold em. rewrite collect_stream. cbn.
    apply nonroot_pairs_fst_sorted. by apply shared_keys_sorted.
  - intros x H. rewrite (be_shared _ _ B) in H. rewrite (be_pairs _ _ B).
    by apply pairs_root_key.
  - intros s. rewrite full_scope_pairs. apply nonroot_pairs_fst_sorted. by apply scope_keys_sorted.
  - intros s x H. rewrite (be_overlay _ _ B) in H. rewrite (be_overlay_pairs _ _ B).
    by apply pairs_root_key.
  - intros s x H. apply (be_scopes _ _ B).
    assert (scope_pairs (collect em) s ≠ []) as Hne.
    { intros E. rewrite (be_overlay _ _ B), E in H. done. }
    unfold scope_pairs in Hne.
    destruct (list_to_map (snap_scopes (collect em)) !! s) as [ps|] eqn:E; [|done].
    apply elem_of_list_to_map_2 in E. apply list_elem_of_fmap. by exists (s, ps).
Qed.
End full.

(** A tier that is only a base. *)
Lemma bare_wf b mi : BaseLaws b → tier_wf (mkTier (Some b) (mem_new mi)).
Proof.
  intros L. split; [done| | | |].
  - intros x p. cbn. by rewrite lookup_empty.
  - intros s o. cbn. by rewrite lookup_empty.
  - intros x H. exfalso. apply H. apply droot_self; [|done].
    intros y p. cbn. by rewrite lookup_empty.
  - intros s x H. exfalso. by apply H.
Qed.

Lemma bare_G b mi x : G_of (mkTier (Some b) (mem_new mi)) x = base_shared b x.
Proof.
  apply droot_self; [|done]. intros y p. cbn. by rewrite lookup_empty.
Qed.

Lemma bare_O b mi s x : O_of (mkTier (Some b) (mem_new mi)) s x = base_overlay b s x.
Proof. done. Qed.

(** Publishing a base whose root functions and registry carry the view. *)
Lemma publish_inv f b Eg Es G O Reg :
  BaseLaws b → (∀ x, base_shared b x = G x) → (∀ s x, base_overlay b s x = O s x) →
  view_inv Eg Es G O Reg → forest_inv (publish f b) Eg Es.
Proof.
  intros L HG HO V. split; [by apply bare_wf|]. cbn [tier publish].
  apply (view_inv_reg _ _ _ _ Reg).
  - intros s x T. right. cbn [base_of base_or_empty default tier_base].
    rewrite bare_G. by apply base_registry.
  - eapply view_inv_ext, V; [done|done| |intros; by rewrite bare_O|done].
    intros x. by rewrite bare_G.
Qed.

(** ** Delta fold *)

Definition mem_keys (t : Tier) : list NodeId := sort_N (keys (mem_global (tier_mem t))).
Definition mem_scope_keys (t : Tier) (s : ScopeId) : list NodeId := sort_N (overlay_keys t s).
Definition mem_scopes (t : Tier) : list ScopeId := sorted_keys (mem_overlays (tier_mem t)).

Lemma stream_scopes_spec sids : ∀ t,
  tier_wf t → ∃ t', stream_scopes t sids =
    (mjoin ((fun s => scope_em (G_of t) (O_of t s) s (mem_scope_keys t s)) <$> sids), t') ∧
    tier_compressed t t'.
Proof.
  induction sids as [|s sids IH]; intros t W; cbn; [eauto with blaze|].
  unfold stream_scope.
  destruct (emit_overlay_keys s t (sort_N (overlay_keys t s)) W) as (t1 & -> & C1).
  destruct (IH t1) as (t2 & -> & C2); [eauto with blaze|].
  exists t2. split; [|eauto with blaze].
  assert (((fun s => scope_em (G_of t1) (O_of t1 s) s (mem_scope_keys t1 s)) <$> sids) =
          ((fun s => scope_em (G_of t) (O_of t s) s (mem_scope_keys t s)) <$> sids)) as ->; [|done].
  apply list_fmap_ext. intros i s' _. unfold mem_scope_keys.
  by rewrite (compressed_overlay_keys _ _ _ C1), (scope_em_compressed _ _ _ _ C1).
Qed.

Lemma stream_memtable_spec t :
  tier_wf t → ∃ t', stream_memtable t =
    (stream_of (G_of t) (O_of t) (mem_keys t) (mem_scopes t) (mem_scope_keys t), t') ∧
    tier_compressed t t'.
Proof.
  intros W. unfold stream_memtable.
  destruct (emit_shared_keys t (mem_keys t) W) as (t1 & H1 & C1).
  unfold mem_keys in H1. rewrite H1.
  assert (sorted_keys (mem_overlays (tier_mem t1)) = mem_scopes t) as ->.
  { unfold mem_scopes, sorted_keys. do 2 f_equal. apply set_eq. intros s.
    rewrite !elem_of_dom. destruct (tc_overlays _ _ C1 s); naive_solver. }
  destruct (stream_scopes_spec (mem_scopes t) t1) as (t2 & -> & C2); [eauto with blaze|].
  exists t2. split; [|eauto with blaze]. unfold stream_of.
  assert (((fun s => scope_em (G_of t1) (O_of t1 s) s (mem_scope_keys t1 s)) <$> mem_scopes t) =
          ((fun s => scope_em (G_of t) (O_of t s) s (mem_scope_keys t s)) <$> mem_scopes t)) as ->; [|done].
  apply list_fmap_ext. intros i s' _. unfold mem_scope_keys.
  by rewrite (compressed_overlay_keys _ _ _ C1), (scope_em_compressed _ _ _ _ C1).
Qed.

(** Applying the delta's pairs after the base's root is the composed root. *)
Lemma delta_compose m b ks x :
  (∀ y, b (b y) = b y) → NoDup ks → (∀ y, y ∈ ks ↔ m y ≠ y) →
  pairs_root (nonroot_pairs (fun y => m (b y)) ks) (b x) = m (b x).
Proof.
  intros Hb Hnd Hks. unfold nonroot_pairs.
  rewrite (pairs_root_fmap (fun y => m (b y))) by (by apply NoDup_filter).
  case_decide as H; [by rewrite Hb|].
  rewrite list_elem_of_filter, Hb, Hks in H. destruct (decide (m (b x) = b x)); [done|tauto].
Qed.

Section delta.
Context (t : Tier) (W : tier_wf t).
Let em := stream_of (G_of t) (O_of t) (mem_keys t) (mem_scopes t) (mem_scope_keys t).
Context (b : RoutingBase) (D : delta_encodes b (base_of t) em).
#[local] Instance delta_base_laws : BaseLaws (base_of t) := tw_base t W.

Lemma mem_keys_nodup : NoDup (mem_keys t).
Proof using. unfold mem_keys. rewrite sort_N_perm. apply keys_nodup. Qed.

Lemma elem_of_mem_keys x : x ∈ mem_keys t ↔ droot (mem_global (tier_mem t)) x ≠ x.
Proof using W. unfold mem_keys. rewrite elem_of_sort_N. apply elem_of_keys, (tw_global _ W). Qed.

Lemma mem_scope_keys_nodup s : NoDup (mem_scope_keys t s).
Proof using. unfold mem_scope_keys. rewrite sort_N_perm. apply overlay_keys_nodup. Qed.

Lemma elem_of_mem_scope_keys s x : x ∈ mem_scope_keys t s ↔ overlay_fn t s x ≠ x.
Proof using W. unfold mem_scope_keys. rewrite elem_of_sort_N. by apply elem_of_overlay_keys. Qed.

Lemma mem_scopes_complete s x : overlay_fn t s x ≠ x → s ∈ mem_scopes t.
Proof using.
  unfold overlay_fn, mem_scopes. rewrite elem_of_sorted_keys. by destruct (_ !! s).
Qed.

Lemma delta_shared x : base_shared b x = G_of t x.
Proof using W D.
  rewrite (de_shared _ _ _ D). unfold em. rewrite collect_stream. cbn [snap_global].
  apply (delta_compose (droot (mem_global (tier_mem t)))).
  - apply base_shared_idem.
  - apply mem_keys_nodup.
  - apply elem_of_mem_keys.
Qed.

Lemma delta_overlay s x : base_overlay b s x = O_of t s x.
Proof using W D.
  rewrite (de_overlay _ _ _ D). unfold em. rewrite collect_stream, scope_pairs_nonempty.
  - apply (delta_compose (overlay_fn t s)).
    + apply base_overlay_idem.
    + apply mem_scope_keys_nodup.
    + apply elem_of_mem_scope_keys.
  - apply sorted_keys_nodup.
  - intros Hne. unfold nonroot_pairs in Hne.
    destruct (filter _ (mem_scope_keys t s)) as [|k l] eqn:F; [done|].
    assert (k ∈ mem_scope_keys t s) as Hk.
    { eapply (list_elem_of_filter (fun k => O_of t s k ≠ k)). rewrite F. left. }
    apply (mem_scopes_complete s k). by apply elem_of_mem_scope_keys.
Qed.

(** A live root the scope's overlay knows is registered in the delta or in the
    base below it. *)
Lemma delta_registry_live s g :
  G_of t g = g → touched (O_of t s) g → s ∈ scopes_for_root b g.
Proof using W D.
  intros Hg T.
  assert (∀ y, overlay_fn t s y ≠ y → s ∈ scopes_for_root b (G_of t y) ∧
               s ∈ scopes_for_root b (G_of t (O_of t s y))) as Hmem.
  { intros y Hy.
    assert (O_of t s y ≠ y) as Hne.
    { unfold O_of. by rewrite (layer_skip _ _ (tw_olayer _ W s) y Hy). }
    split; apply (de_registry _ _ _ D), stream_registry_key; try done;
      try (by eapply mem_scopes_complete); by apply elem_of_mem_scope_keys. }
  assert (touched (base_overlay (base_of t) s) g → s ∈ scopes_for_root b g) as Hbase.
  { intros T'%base_registry. apply (de_prev _ _ _ D).
    by destruct (G_fix t W g Hg) as [<- _]. }
  destruct (decide (base_overlay (base_of t) s g = g)) as [Eb|Eb]; last first.
  { apply Hbase. exists (base_overlay (base_of t) s g). by rewrite base_overlay_idem. }
  destruct (decide (overlay_fn t s g = g)) as [Em|Em]; last first.
  { destruct (Hmem g Em) as [H _]. by rewrite Hg in H. }
  destruct T as (y & Hy & E). unfold O_of in E. rewrite Eb, Em in E.
  destruct (decide (base_overlay (base_of t) s y = g)) as [Ey|Ey].
  { apply Hbase. exists y. by rewrite Eb. }
  destruct (Hmem (base_overlay (base_of t) s y)) as [_ H]; [congruence|].
  unfold O_of in H. by rewrite base_overlay_idem, E, Hg in H.
Qed.

Context (Eg : edges) (Es : ScopeId → edges).
Context (V : view_inv Eg Es (G_of t) (O_of t) (Reg_of t)).

Lemma delta_laws : BaseLaws b.
Proof using W D V.
  split; [|apply D]. split.
  - intros x. rewrite delta_shared. by apply G_le.
  - intros x. rewrite !delta_shared. by apply G_idem.
  - intros s x. rewrite delta_overlay. by apply O_le.
  - intros s x. rewrite !delta_overlay. by apply O_idem.
  - intros s x (y & Hy & E). rewrite !delta_overlay in E. rewrite delta_shared.
    apply delta_registry_live; [by apply G_idem|].
    assert (touched (O_of t s) x) as T by (by exists y).
    destruct (decide (G_of t x = x)) as [->|Hne]; [done|].
    exists x. split; [done|]. by apply (vi_live _ _ _ _ _ V).
Qed.
End delta.

(** ** Base swap *)

Lemma swap_base_inv f b Eg Es :
  base_replaces b (base_of (tier f)) → forest_inv f Eg Es → forest_inv (swap_base f b) Eg Es.
Proof.
  intros [R1 R2 R3 R4] [W V]. unfold swap_base.
  set (t := tier f) in *. set (t' := mkTier (Some b) (tier_mem t)).
  assert (∀ x, G_of t' x = G_of t x) as HG.
  { intros x. unfold G_of. cbn. by rewrite R1. }
  assert (∀ s x, O_of t' s x = O_of t s x) as HO.
  { intros s x. unfold O_of. cbn. by rewrite R2. }
  assert (∀ s x, touched (O_of t' s) x → Reg_of t' (G_of t' x) s) as HReg.
  { intros s x (y & Hy & E). rewrite !HO in E. rewrite HG.
    assert (touched (O_of t s) x) as T by (by exists y).
    apply (vi_reg _ _ _ _ _ V) in T as [T|T]; [by left|right].
    apply R3; [|done]. apply (G_fix t W). by apply G_idem. }
  assert (BaseLaws (base_of t)) as L by apply W.
  assert (BaseLaws b) as L'.
  { split; [|done]. split.
    - intros x. rewrite R1. apply base_shared_le.
    - intros x. rewrite !R1. apply base_shared_idem.
    - intros s x. rewrite R2. apply base_overlay_le.
    - intros s x. rewrite !R2. apply base_overlay_idem.
    - intros s x (y & Hy & E). rewrite !R2 in E. rewrite R1.
      apply R3; [apply base_shared_idem|]. apply base_registry. by exists y. }
  split; cbn [tier set_tier].
  - destruct W as [W1 W2 W3 W4 W5]. split; [done|done|done| |].
    + intros x H. cbn. rewrite !R1. by apply W4.
    + intros s x H. cbn. rewrite !R2. by apply W5.
  - apply (view_inv_reg _ _ _ _ (Reg_of t) _ HReg).
    eapply view_inv_ext, V; done.
Qed.

(** ** Everything a running forest does *)

Section steps.
Context {Sk Er T : Type} (push : Sk → emission → Sk).

(** One step of a worker's forest, with the events it has absorbed. [build]s
    may fail; when one succeeds it must have recorded the stream. *)
Inductive forest_step : ScopedForest * list EdgeEvent → ScopedForest * list EdgeEvent → Prop :=
| step_apply f evs e :
    forest_step (f, evs) (apply f e, evs ++ [e])
| step_query f evs s x :
    forest_step (f, evs) ((scope_root f s x).2, evs)
| step_snapshot f evs :
    forest_step (f, evs) ((snapshot f).2, evs)
| step_restart f evs b :
    forest_step (f, evs)
      (hydrate (if b : bool then tracking_members forest_new else forest_new) (snapshot f).1, evs)
| step_fold f evs (sink : Sk) (build : Sk → result Er (RoutingBase * T)) :
    (∀ b out, build (foldl push sink (compact_locked (tier f)).1) = Ok (b, out) →
       base_encodes b (compact_locked (tier f)).1) →
    forest_step (f, evs) ((compact_and_fold push f sink build).2, evs)
| step_delta f evs (sink : Sk) (build : Sk → option RoutingBase → result Er (RoutingBase * T)) :
    (∀ b out, build (foldl push sink (stream_memtable (tier f)).1) (tier_base (tier f)) = Ok (b, out) →
       delta_encodes b (base_of (tier f)) (stream_memtable (tier f)).1) →
    forest_step (f, evs) ((fold_delta push f sink build).2, evs)
| step_swap f evs b :
    base_replaces b (base_of (tier f)) →
    forest_step (f, evs) (swap_base f b, evs).

Lemma scope_root_spec f s x Eg Es :
  forest_inv f Eg Es →
  ∃ f', scope_root f s x =
    (if s =? GLOBAL_SCOPE then G_of (tier f) x else O_of (tier f) s (G_of (tier f) x), f') ∧
    forest_inv f' Eg Es ∧ tier_compressed (tier f) (tier f').
Proof using.
  intros I. pose proof I as [W V]. unfold scope_root.
  destruct (shared_root_spec (tier f) x false W) as (t1 & -> & C1).
  destruct (s =? GLOBAL_SCOPE).
  { eexists. split; [done|]. split; [by apply forest_inv_compressed|done]. }
  destruct (overlay_root_spec t1 s (G_of (tier f) x) false) as (t2 & -> & C2); [eauto with blaze|].
  rewrite (tc_O _ _ C1). eexists. split; [done|].
  split; [apply forest_inv_compressed; eauto with blaze|]. cbn. eauto with blaze.
Qed.

Lemma step_absorbed s s' : forest_step s s' → absorbed s.1 s.2 → absorbed s'.1 s'.2.
Proof using.
  intros S I. unfold absorbed in *.
  destruct S as [f evs e|f evs s x|f evs|f evs b|f evs sink build H|f evs sink build H|f evs b H]; cbn in *.
  - by apply apply_absorbed.
  - by destruct (scope_root_spec f s x _ _ I) as (f' & -> & I' & _).
  - unfold snapshot. destruct (compact_locked_spec (tier f) (proj1 I)) as (t' & -> & C).
    by apply forest_inv_compressed.
  - destruct I as [W V]. unfold snapshot.
    destruct (compact_locked_spec (tier f) W) as (t' & -> & C). cbn.
    eapply hydrate_inv; [by destruct b|by apply compact_models|done].
  - destruct I as [W V]. unfold compact_and_fold.
    destruct (compact_locked_spec (tier f) W) as (t' & Hc & C). rewrite Hc in *. cbn in H.
    destruct (build _) as [[b out]|e]; [|by apply forest_inv_compressed].
    specialize (H b out eq_refl). cbn.
    eapply publish_inv; [by eapply full_laws|by eapply full_shared|by eapply full_overlay|done].
  - destruct I as [W V]. unfold fold_delta.
    destruct (stream_memtable_spec (tier f) W) as (t' & Hc & C). rewrite Hc in *. cbn in H.
    destruct (build _ _) as [[b out]|e]; [|by apply forest_inv_compressed].
    specialize (H b out eq_refl). cbn.
    eapply publish_inv; [by eapply delta_laws|by apply delta_shared|by apply delta_overlay|done].
  - by apply swap_base_inv.
Qed.

Lemma steps_absorbed s s' : rtc forest_step s s' → absorbed s.1 s.2 → absorbed s'.1 s'.2.
Proof using. induction 1; eauto using step_absorbed. Qed.

Lemma forest_new_absorbed : absorbed forest_new [].
Proof using.
  split.
  - split; [apply empty_base_laws|..].
    + intros x p. cbn. by rewrite lookup_empty.
    + intros s o. cbn. by rewrite lookup_empty.
    + intros x _. done.
    + intros s x _. done.
  - by eapply view_inv_ext, view_inv_init.
Qed.

(** What an absorbed forest answers. *)
Lemma absorbed_scope_min f evs s x :
  absorbed f evs → is_component_min (visible_edges evs s) x (scope_root f s x).1.
Proof using.
  intros I. destruct (scope_root_spec f s x _ _ I) as (f' & -> & _ & _).
  destruct I as [W V]. destruct (N.eqb_spec s GLOBAL_SCOPE) as [->|Hs].
  - apply (view_global_min V).
  - pose proof (view_scope_min V s x) as [H1 H2]. cbn [fst].
    assert (∀ y z, conn (visible_edges evs GLOBAL_SCOPE ++ visible_edges evs s) y z ↔
                   conn (visible_edges evs s) y z) as Hc.
    { apply conn_same_edges. intros u v. rewrite elem_of_app.
      split; [intros [?|?]; [by apply visible_global|done]|auto]. }
    split; [by apply Hc|]. intros y Hy. by apply H2, Hc.
Qed.

Lemma component_min_conn E x y r r' :
  is_component_min E x r → is_component_min E y r' → r = r' ↔ conn E x y.
Proof using.
  intros [H1 H2] [H3 H4]. split.
  - intros <-. by rewrite H1, <-H3.
  - intros Hxy. assert (r <= r') by (apply H2; by rewrite Hxy).
    assert (r' <= r) by (apply H4; by rewrite <-Hxy). lia.
Qed.

Lemma connected_conn f evs s x y :
  absorbed f evs → (connected f s x y).1 = true ↔ conn (visible_edges evs s) x y.
Proof using.
  intros I. unfold connected. pose proof (absorbed_scope_min f evs s x I) as Mx.
  destruct (scope_root_spec f s x _ _ I) as (f1 & Hx & I1 & _).
  pose proof (absorbed_scope_min f1 evs s y I1) as My.
  rewrite Hx in Mx |- *. cbn [fst] in Mx.
  destruct (scope_root f1 s y) as [ry f2] eqn:Hy. cbn [fst] in My |- *.
  rewrite N.eqb_eq. by eapply component_min_conn.
Qed.

(** C1. A worker's forest, after any sequence of edge events, queries, full
    folds, delta folds, base swaps, snapshots and snapshot/hydrate restarts
    (failing [build]s included), answers [scope_root] with the lowest node id of
    the component in the graph of exactly the edges the scope can see, and
    [connected] with connectivity in that graph. *)
Theorem forest_refines_visible_graph (f : ScopedForest) (evs : list EdgeEvent) :
  rtc forest_step (forest_new, []) (f, evs) →
  ∀ s x y,
    is_component_min (visible_edges evs s) x (scope_root f s x).1 ∧
    ((connected f s x y).1 = true ↔ conn (visible_edges evs s) x y).
Proof using.
  intros R s x y. pose proof (steps_absorbed _ _ R forest_new_absorbed) as I. cbn in I.
  split; [by apply absorbed_scope_min|by apply connected_conn].
Qed.
End steps.

(** ** The theorem at work *)

Definition ev (u v : NodeId) (vis : Visibility) : EdgeEvent := mkEvent u v vis 0%Z None.

(** Two events, a full fold, a global event that must fix up scope 7 through the
    base, and a delta fold whose build fails. *)
Definition demo_build (em : list emission) : result unit (RoutingBase * unit) :=
  Ok (emission_base em, tt).

Definition snoc (em : list emission) (e : emission) : list emission := em ++ [e].

Definition demo_events : list EdgeEvent :=
  [ev 9 5 Global; ev 9 8 (Scoped [7]); ev 5 1 Global].

Definition demo_forest : ScopedForest :=
  let f := apply (apply forest_new (ev 9 5 Global)) (ev 9 8 (Scoped [7])) in
  let f := (compact_and_fold snoc f [] demo_build).2 in
  let f := apply f (ev 5 1 Global) in
  (fold_delta (T := unit) snoc f [] (fun _ _ => Err tt)).2.

Lemma foldl_snoc em acc : foldl snoc acc em = acc ++ em.
Proof.
  revert acc. induction em as [|e em IH]; intros acc; cbn; [by rewrite app_nil_r|].
  rewrite IH. unfold snoc. by rewrite <-app_assoc.
Qed.

Lemma forest_refines_witness :
  is_component_min (visible_edges demo_events 7) 8 (scope_root demo_forest 7 8).1 ∧
  ((connected demo_forest 7 8 1).1 = true ↔ conn (visible_edges demo_events 7) 8 1) ∧
  (scope_root demo_forest 7 8).1 = 1 ∧ (scope_root demo_forest 6 8).1 = 8.
Proof.
  rewrite (assoc and). split; [|vm_compute; done].
  apply (forest_refines_visible_graph (Er := unit) (T := unit) snoc demo_forest demo_events).
  eapply rtc_l; [apply (step_apply snoc _ _ (ev 9 5 Global))|].
  eapply rtc_l; [apply (step_apply snoc _ _ (ev 9 8 (Scoped [7])))|].
  eapply rtc_l.
  { apply (step_fold snoc _ _ [] demo_build). intros b out [= <- <-].
    rewrite foldl_snoc. apply emission_base_encodes. }
  eapply rtc_l; [apply (step_apply snoc _ _ (ev 5 1 Global))|].
  eapply rtc_l; [by apply (step_delta snoc _ _ [] (fun _ _ => Err tt))|].
  apply rtc_refl.
Defined.
