(* ===== verification/ForestProps.v ===== *)
(** What the forest promises its callers, stated on its operations: order
    independence, tenant isolation, the snapshot round trip, the two branches of
    a fold and the contract of the compaction stream. *)

From S2P Require Import Prelude Types Graph Dsu View RoutingBase Forest ForestInv Compaction CompactionInv FoldInv.

(** ** Answers are determined by what a scope can see *)

Lemma component_min_unique E E' x r r' :
  (∀ u v, (u, v) ∈ E ↔ (u, v) ∈ E') →
  is_component_min E x r → is_component_min E' x r' → r = r'.
Proof.
  intros HE [H1 H2] [H3 H4].
  assert (∀ y z, conn E y z ↔ conn E' y z) as Hc by (by apply conn_same_edges).
  assert (r <= r') by (by apply H2, Hc). assert (r' <= r) by (by apply H4, Hc). lia.
Qed.

Lemma absorbed_root_eq f f' evs evs' s x :
  absorbed f evs → absorbed f' evs' →
  (∀ u v, (u, v) ∈ visible_edges evs s ↔ (u, v) ∈ visible_edges evs' s) →
  (scope_root f s x).1 = (scope_root f' s x).1.
Proof.
  intros I I' E. eapply component_min_unique; [exact E|..]; by apply absorbed_scope_min.
Qed.

(** C26. Events may arrive in any order and any number of times: two workers that
    absorbed the same set of events, whatever the order and the repetitions,
    answer every query with the same root. *)
Theorem apply_order_irrelevant (evs evs' : list EdgeEvent) :
  (∀ e, e ∈ evs ↔ e ∈ evs') →
  ∀ s x, (scope_root (foldl apply forest_new evs) s x).1 =
         (scope_root (foldl apply forest_new evs') s x).1.
Proof.
  intros E s x.
  pose proof (apply_all_absorbed evs _ _ forest_new_absorbed) as I.
  pose proof (apply_all_absorbed evs' _ _ forest_new_absorbed) as I'.
  eapply absorbed_root_eq; [exact I|exact I'|].
  intros u v. rewrite !elem_of_visible. cbn. by setoid_rewrite E.
Qed.

Lemma apply_order_irrelevant_witness :
  (scope_root (foldl apply forest_new [ev 4 2 Global; ev 4 3 (Scoped [1])]) 1 4).1 =
  (scope_root (foldl apply forest_new
     [ev 4 3 (Scoped [1]); ev 4 2 Global; ev 4 3 (Scoped [1])]) 1 4).1.
Proof. apply apply_order_irrelevant. set_solver. Defined.

(** C25. Tenant isolation: absorbing an event a scope does not see changes no
    answer of that scope, and absorbing any event never raises a root. *)
Theorem apply_isolation (f : ScopedForest) (evs : list EdgeEvent) (e : EdgeEvent) :
  absorbed f evs →
  ∀ s x,
    (~ sees (visibility e) s → (scope_root (apply f e) s x).1 = (scope_root f s x).1) ∧
    (scope_root (apply f e) s x).1 <= (scope_root f s x).1.
Proof.
  intros I s x. pose proof (apply_absorbed f evs e I) as I'. split.
  - intros Hs. eapply absorbed_root_eq; [exact I'|exact I|].
    intros u v. rewrite visible_snoc. naive_solver.
  - destruct (absorbed_scope_min _ _ s x I) as [H _].
    destruct (absorbed_scope_min _ _ s x I') as [_ H']. apply H'.
    eapply conn_mono, H. intros [u v]. rewrite visible_snoc. auto.
Qed.

Lemma apply_isolation_witness :
  (scope_root (apply forest_new (ev 4 3 (Scoped [1]))) 2 4).1 = (scope_root forest_new 2 4).1.
Proof.
  apply (apply_isolation forest_new [] (ev 4 3 (Scoped [1])) forest_new_absorbed 2 4).
  eapply (bool_decide_eq_false_1 _). by vm_compute.
Defined.

(** ** Snapshots *)

Lemma hydrate_snapshot_absorbed f evs (b : bool) :
  absorbed f evs →
  absorbed (hydrate (if b then tracking_members forest_new else forest_new) (snapshot f).1) evs.
Proof. apply (step_absorbed (Er := unit) (T := unit) snoc (f, evs) _ (step_restart snoc f evs b)). Qed.

(** C28. A snapshot loses nothing: a fresh forest hydrated from it, with or without
    the member index, gives the answers of the forest it was taken from, and
    taking it changes no answer of that forest. *)
Theorem snapshot_hydrate_roundtrip (f : ScopedForest) (evs : list EdgeEvent) (b : bool) :
  absorbed f evs →
  ∀ s x,
    (scope_root (hydrate (if b then tracking_members forest_new else forest_new)
       (snapshot f).1) s x).1 = (scope_root f s x).1 ∧
    (scope_root (snapshot f).2 s x).1 = (scope_root f s x).1.
Proof.
  intros I s x. split.
  - by eapply absorbed_root_eq; [apply hydrate_snapshot_absorbed|..].
  - eapply absorbed_root_eq; [|exact I|done].
    exact (step_absorbed (Er := unit) (T := unit) snoc (f, evs) _ (step_snapshot snoc f evs) I).
Qed.

Lemma snapshot_hydrate_roundtrip_witness :
  (scope_root (hydrate (tracking_members forest_new)
     (snapshot (foldl apply forest_new demo_events)).1) 7 8).1 = 1.
Proof.
  rewrite (proj1 (snapshot_hydrate_roundtrip (foldl apply forest_new demo_events) demo_events true
    (apply_all_absorbed demo_events _ [] forest_new_absorbed) 7 8)).
  by vm_compute.
Defined.

(** ** Folds *)

Section fold_contract.
Context {Sk Er T : Type} (push : Sk → emission → Sk).

(** Both branches of a full fold. If [build] fails its error is returned and
    the base and the fold counter stay as they were; if it succeeds the built base is published over an empty memtable and the
    fold is counted. Either way no answer changes, as long as a built base
    records the stream it was given. *)
Theorem compact_and_fold_contract (f : ScopedForest) (evs : list EdgeEvent) (sink : Sk)
    (build : Sk → result Er (RoutingBase * T)) :
  absorbed f evs →
  (∀ b out, build (foldl push sink (compact_locked (tier f)).1) = Ok (b, out) →
     base_encodes b (compact_locked (tier f)).1) →
  let '(r, f') := compact_and_fold push f sink build in
  match build (foldl push sink (compact_locked (tier f)).1) with
  | Ok (b, out) => r = Ok out ∧ tier_base (tier f') = Some b ∧ memtable_links f' = 0 ∧
      folds f' = folds f ⊞ 1
  | Err e => r = Err e ∧ tier_base (tier f') = tier_base (tier f) ∧ folds f' = folds f
  end ∧
  events_applied f' = events_applied f ∧
  ∀ s x, (scope_root f' s x).1 = (scope_root f s x).1.
Proof using.
  intros I H. pose proof (step_absorbed push (f, evs) _ (step_fold push f evs sink build H) I) as I'.
  cbn in I'. destruct (compact_and_fold push f sink build) as [r f'] eqn:E.
  split_and!; [..|intros s x; by eapply absorbed_root_eq].
  - unfold compact_and_fold in E.
    destruct (compact_locked_spec (tier f) (proj1 I)) as (t' & Hc & C). rewrite Hc in *. cbn in E |- *.
    destruct (build _) as [[b out]|e]; simplify_eq; cbn; [done|].
    by rewrite (tc_base _ _ C).
  - unfold compact_and_fold in E. destruct (compact_locked (tier f)) as [em t'].
    destruct (build _) as [[b out]|e]; by simplify_eq.
Qed.
End fold_contract.

Lemma compact_and_fold_contract_witness :
  let '(r, f') := compact_and_fold snoc (foldl apply forest_new demo_events) [] demo_build in
  r = Ok tt ∧ memtable_links f' = 0 ∧ (scope_root f' 7 8).1 = 1.
Proof.
  pose proof (compact_and_fold_contract snoc (foldl apply forest_new demo_events) demo_events []
    demo_build (apply_all_absorbed demo_events _ [] forest_new_absorbed)) as H.
  destruct (compact_and_fold _ _ _ _) as [r f'].
  destruct H as ((? & ? & ? & ?) & ? & Hr).
  { intros b out [= <- <-]. rewrite foldl_snoc. apply emission_base_encodes. }
  split_and!; [done|done|]. rewrite Hr. by vm_compute.
Defined.

(** ** The snapshot's contents *)

Lemma elem_of_nonroot_pairs ρ ks n r :
  (∀ x, ρ x ≠ x → x ∈ ks) → (n, r) ∈ nonroot_pairs ρ ks ↔ r = ρ n ∧ r ≠ n.
Proof.
  intros Hc. unfold nonroot_pairs. rewrite list_elem_of_fmap. split.
  - intros (k & [= -> ->] & [H _]%list_elem_of_filter). done.
  - intros [-> H]. exists n. split; [done|]. apply list_elem_of_filter. auto.
Qed.

Lemma nonempty_scopes_sorted O oks sids :
  StronglySorted N.lt sids → StronglySorted N.lt (nonempty_scopes O oks sids).*1.
Proof.
  intros H. rewrite nonempty_scopes_fst. by apply StronglySorted_filter.
Qed.

(** The contract of compaction's output, which every blob writer relies on:
    shared pairs come in strictly ascending node order and are exactly the
    non-roots with their roots; scopes come in strictly ascending order, none of
    them empty, each with its pairs in strictly ascending node order; and a
    scope's pairs for live shared roots are exactly the scope's non-roots. *)
Theorem snapshot_exact (f : ScopedForest) (evs : list EdgeEvent) :
  absorbed f evs →
  let snap := (snapshot f).1 in
  StronglySorted N.lt (snap_global snap).*1 ∧
  (∀ n r, (n, r) ∈ snap_global snap ↔ r = (scope_root f GLOBAL_SCOPE n).1 ∧ r ≠ n) ∧
  StronglySorted N.lt (snap_scopes snap).*1 ∧
  (∀ s ps, (s, ps) ∈ snap_scopes snap → ps ≠ [] ∧ StronglySorted N.lt ps.*1) ∧
  (∀ s n r, s ≠ GLOBAL_SCOPE → (scope_root f GLOBAL_SCOPE n).1 = n →
     (n, r) ∈ scope_pairs snap s ↔ r = (scope_root f s n).1 ∧ r ≠ n).
Proof.
  intros I. pose proof I as [W V].
  assert ((snapshot f).1 = mkSnap (nonroot_pairs (G_of (tier f)) (shared_keys (tier f)))
    (nonempty_scopes (O_of (tier f)) (scope_keys (tier f)) (scope_ids (tier f)))) as ->.
  { unfold snapshot. destruct (compact_locked_spec (tier f) W) as (t' & -> & _).
    cbn [fst]. apply collect_stream. }
  assert (∀ s n, (scope_root f s n).1 =
    if s =? GLOBAL_SCOPE then G_of (tier f) n else O_of (tier f) s (G_of (tier f) n)) as Hr.
  { intros s n. by destruct (scope_root_spec f s n _ _ I) as (f' & -> & _). }
  cbn zeta. cbn [snap_global snap_scopes]. split_and!.
  - by apply nonroot_pairs_fst_sorted, shared_keys_sorted.
  - intros n r. rewrite Hr. apply elem_of_nonroot_pairs. by apply shared_keys_complete.
  - by apply nonempty_scopes_sorted, scope_ids_sorted.
  - intros s ps (s' & [= -> ->] & [H _]%list_elem_of_filter)%list_elem_of_fmap.
    split; [done|]. by apply nonroot_pairs_fst_sorted, scope_keys_sorted.
  - intros s n r Hs. rewrite !Hr. cbn. intros ->.
    rewrite (proj2 (N.eqb_neq _ _) Hs), scope_pairs_nonempty.
    + apply elem_of_nonroot_pairs. by apply scope_keys_complete.
    + by apply sorted_lt_nodup, scope_ids_sorted.
    + by apply scope_ids_nonempty.
Qed.

Lemma snapshot_exact_witness :
  (snapshot (foldl apply forest_new demo_events)).1 = mkSnap [(5, 1); (9, 1)] [(7, [(5, 1); (8, 1)])] ∧
  StronglySorted N.lt (snap_global (snapshot (foldl apply forest_new demo_events)).1).*1.
Proof.
  split; [by vm_compute|]. apply (snapshot_exact (foldl apply forest_new demo_events) demo_events
    (apply_all_absorbed demo_events _ [] forest_new_absorbed)).
Defined.
