(* ===== verification/Members.v ===== *)
(** The member walk of [src/core/scoped.rs]: who is in a node's component, up to a cap.

    A walk goes down the parent forest from its seeds, asking for at most [cap + 1]
    children of each node, and stops the first time it meets a node it has no room for.
    [frontier] is the [Vec] of the source with its last element first. *)

From S2P Require Import Prelude Types Dsu RoutingBase Forest.

(** [Members]. *)
Inductive Members :=
| Complete (nodes : list NodeId)
| Truncated (nodes : list NodeId).

Definition nodes (m : Members) : list NodeId := match m with Complete v | Truncated v => v end.

Definition is_truncated (m : Members) : bool := match m with Complete _ => false | Truncated _ => true end.

(** [Walk]. *)
Record Walk := mkWalk {
  cap : N;
  seen : gset NodeId;
  walk_out : list NodeId;
  truncated : bool;
}.

Definition walk_new (c : N) : Walk := mkWalk c ∅ [] false.

(** [Walk::admit]: whether the node is to be expanded in turn. *)
Definition admit_node (w : Walk) (n : NodeId) : bool * Walk :=
  if bool_decide (n ∈ seen w) then (false, w)
  else
    let seen := {[n]} ∪ seen w in
    if cap w <=? N.of_nat (length (walk_out w)) then (false, mkWalk (cap w) seen (walk_out w) true)
    else (true, mkWalk (cap w) seen (walk_out w ++ [n]) (truncated w)).

(** Both loops of [Walk::expand] over nodes to admit; [true] is the early return. *)
Fixpoint admit_all (w : Walk) (frontier : list NodeId) (l : list NodeId) : bool * Walk * list NodeId :=
  match l with
  | [] => (false, w, frontier)
  | n :: l =>
      let '(new, w) := admit_node w n in
      let frontier := if new then n :: frontier else frontier in
      if truncated w then (true, w, frontier) else admit_all w frontier l
  end.

(** The loop of [Walk::expand]; [None] is an exhausted fuel. *)
Fixpoint expand_loop (fuel : nat) (get : NodeId → nat → list NodeId) (w : Walk) (frontier : list NodeId) : option Walk :=
  match frontier with
  | [] => Some w
  | k :: frontier =>
      match fuel with
      | O => None
      | S fuel =>
          let '(stop, w, frontier) := admit_all w frontier (get k (N.to_nat (cap w ⊞ 1))) in
          if stop : bool then Some w else expand_loop fuel get w frontier
      end
  end.

(** [Walk::expand]: a node is expanded once, and at most [cap] are admitted. *)
Definition expand (w : Walk) (seeds : list NodeId) (get : NodeId → nat → list NodeId) : option Walk :=
  let '(stop, w, frontier) := admit_all w [] seeds in
  if stop : bool then Some w else expand_loop (N.to_nat (cap w)) get w frontier.

(** [Walk::finish]. *)
Definition walk_finish (w : Walk) : Members :=
  if truncated w then Truncated (walk_out w) else Complete (walk_out w).

(** [usize::saturating_add(1)]. *)
Definition saturating_succ (c : N) : N := N.min (c + 1) (u64_limit - 1).

(** The closures of [members]: a node's children in the memtable, then in the base. *)
Definition global_children (t : Tier) (k : NodeId) (limit : nat) : list NodeId :=
  let out := children_of (mem_global (tier_mem t)) k limit [] in
  match tier_base t with
  | Some b => out ++ shared_children b k (limit - length out)
  | None => out
  end.

Definition scope_children (t : Tier) (scope : ScopeId) (k : NodeId) (limit : nat) : list NodeId :=
  let out :=
    match mem_overlays (tier_mem t) !! scope with
    | Some o => children_of o k limit []
    | None => []
    end in
  match tier_base t with
  | Some b => out ++ overlay_children b scope k (limit - length out)
  | None => out
  end.

(** [ScopedForest::tracks_members] and [members_available]. *)
Definition tracks_members (f : ScopedForest) : bool := member_index f.

Definition members_available (f : ScopedForest) : bool :=
  member_index f && from_option has_member_index true (tier_base (tier f)).

(** [ScopedForest::members]; the outer [None] is an exhausted fuel. *)
Definition members (f : ScopedForest) (scope : ScopeId) (node : NodeId) (c : N) : option (option Members) * ScopedForest :=
  let t := tier f in
  if negb (member_index f) then (Some None, f)
  else if from_option (fun b => negb (has_member_index b)) false (tier_base t) then (Some None, f)
  else
    let '(shared, t) := shared_root t node false in
    if scope =? GLOBAL_SCOPE then
      (w ← expand (walk_new c) [shared] (global_children t); Some (Some (walk_finish w)), set_tier f t)
    else
      let '(root, t) := overlay_root t scope shared false in
      (seeds ← expand (walk_new (saturating_succ c)) [root] (scope_children t scope);
       w ← expand (walk_new c) (walk_out seeds) (global_children t);
       Some (Some (walk_finish w)), set_tier f t).
