(* ===== verification/MembersInv.v ===== *)
(** What a member walk returns: all that is below its seeds, or exactly [cap] of it. *)

From S2P Require Import Prelude Types Graph Dsu View RoutingBase Forest ForestInv Compaction CompactionInv FoldInv Members.

(** ** Walks *)

(** What is below the seeds. *)
Inductive below (kids : NodeId → list NodeId) (seeds : list NodeId) : NodeId → Prop :=
| below_seed x : x ∈ seeds → below kids seeds x
| below_kid y x : below kids seeds y → x ∈ kids y → below kids seeds x.

(** [get] hands out a prefix of a list without repetition. *)
Record lists_kids (get : NodeId → nat → list NodeId) (kids : NodeId → list NodeId) : Prop := {
  lk_take k limit : get k limit = take limit (kids k);
  lk_nodup k : NoDup (kids k);
}.

Section walk.
Context (kids : NodeId → list NodeId) (c : N) (seeds : list NodeId).

(** A walk that goes on. *)
Record going (w : Walk) : Prop := {
  go_cap : cap w = c;
  go_seen : seen w = list_to_set (walk_out w);
  go_nodup : NoDup (walk_out w);
  go_room : N.of_nat (length (walk_out w)) <= c;
  go_below x : x ∈ walk_out w → below kids seeds x;
  go_open : truncated w = false;
}.

(** A walk that has met a node it has no room for. *)
Record stopped (w : Walk) : Prop := {
  st_nodup : NoDup (walk_out w);
  st_full : N.of_nat (length (walk_out w)) = c;
  st_below x : x ∈ walk_out w → below kids seeds x;
  st_more : ∃ y, below kids seeds y ∧ y ∉ walk_out w;
  st_truncated : truncated w = true;
}.

Lemma walk_new_going : going (walk_new c).
Proof using. split; try done; [constructor|cbn; lia|]. intros x Hx. by apply elem_of_nil in Hx. Qed.

Lemma admit_all_spec l : ∀ w frontier,
  going w → (∀ x, x ∈ l → below kids seeds x) → NoDup frontier → (∀ x, x ∈ frontier → x ∈ walk_out w) →
  let '(stop, w', frontier') := admit_all w frontier l in
  if stop : bool then stopped w'
  else going w' ∧ (∀ x, x ∈ walk_out w' ↔ x ∈ walk_out w ∨ x ∈ l) ∧ NoDup frontier' ∧
    (∀ x, x ∈ frontier' ↔ x ∈ frontier ∨ (x ∈ l ∧ x ∉ walk_out w)) ∧
    (length (walk_out w') + length frontier = length (walk_out w) + length frontier')%nat.
Proof using.
  induction l as [|n l IH]; intros w frontier G Hl Hf Hsub; cbn [admit_all].
  { split_and!; [done|set_solver|done|set_solver|done]. }
  destruct G as [G1 G2 G3 G4 G5 G6]. unfold admit_node.
  assert (n ∈ seen w ↔ n ∈ walk_out w) as Hseen by (rewrite G2; apply elem_of_list_to_set).
  case_bool_decide as Hn.
  - rewrite G6. specialize (IH w frontier). apply Hseen in Hn.
    destruct (admit_all w frontier l) as [[stop w'] frontier'].
    specialize (IH ltac:(by split) ltac:(intros x Hx; apply Hl; by right) Hf Hsub).
    destruct stop; [done|]. destruct IH as (I1 & I2 & I3 & I4 & I5). split_and!; [done| |done| |done].
    + intros x. rewrite I2, elem_of_cons. naive_solver.
    + intros x. rewrite I4, elem_of_cons. naive_solver.
  - rewrite Hseen in Hn. rewrite G1. destruct (N.leb_spec c (N.of_nat (length (walk_out w)))) as [Hle|Hlt]; cbn [truncated].
    + split; cbn; [done|lia|done| |done]. exists n. split; [apply Hl; left|done].
    + rewrite G6. cbn [truncated].
      set (w1 := mkWalk c ({[n]} ∪ seen w) (walk_out w ++ [n]) false). specialize (IH w1 (n :: frontier)).
      assert (going w1) as G'.
      { split; cbn; try done.
        - rewrite G2, list_to_set_app_L. set_solver.
        - apply NoDup_app. split_and!; [done| |apply NoDup_singleton]. intros x Hx ->%list_elem_of_singleton. done.
        - rewrite length_app. cbn. lia.
        - intros x [Hx| ->%list_elem_of_singleton]%elem_of_app; [by apply G5|apply Hl; left]. }
      destruct (admit_all w1 (n :: frontier) l) as [[stop w'] frontier'].
      specialize (IH G' ltac:(intros x Hx; apply Hl; by right)).
      destruct stop.
      { apply IH; [constructor; [|done]|]; [intros Hx; by apply Hn, Hsub|].
        intros x [->|Hx]%elem_of_cons; cbn; apply elem_of_app; [right; by left|left; by apply Hsub]. }
      destruct IH as (I1 & I2 & I3 & I4 & I5).
      { constructor; [|done]. intros Hx. by apply Hn, Hsub. }
      { intros x [->|Hx]%elem_of_cons; cbn; apply elem_of_app; [right; by left|left; by apply Hsub]. }
      cbn [w1 walk_out] in *. split_and!; [done| |done| |].
      * intros x. rewrite I2, elem_of_app, list_elem_of_singleton, elem_of_cons. naive_solver.
      * intros x. rewrite I4, elem_of_app, list_elem_of_singleton, !elem_of_cons.
        destruct (decide (x = n)) as [->|]; naive_solver.
      * rewrite length_app in I5. cbn in I5. lia.
Qed.

Context (get : NodeId → nat → list NodeId) (K : lists_kids get kids).

(** Expansion until nothing is left to expand or the cap is met. *)
Lemma expand_loop_spec fuel : c + 1 < u64_limit → ∀ w frontier,
  going w → NoDup frontier → (∀ x, x ∈ frontier → x ∈ walk_out w) →
  (∀ y x, y ∈ walk_out w → y ∉ frontier → x ∈ kids y → x ∈ walk_out w) →
  (∀ x, x ∈ seeds → x ∈ walk_out w) →
  (N.to_nat c + length frontier <= length (walk_out w) + fuel)%nat →
  ∃ w', expand_loop fuel get w frontier = Some w' ∧
    (stopped w' ∨ going w' ∧ ∀ x, x ∈ walk_out w' ↔ below kids seeds x).
Proof using K.
  intros Hc. induction fuel as [|fuel IH]; intros w frontier G Hf Hsub Hcl Hsd Hfuel; destruct frontier as [|k frontier]; cbn [expand_loop].
  1,3: exists w; split; [done|]; right; split; [done|]; intros x; split; [apply G|];
    induction 1 as [x Hx|y x _ IHx Hx]; [by apply Hsd|eapply Hcl; [done|by intros ?%elem_of_nil|done]].
  - exfalso. pose proof (go_room _ G). cbn in Hfuel. lia.
  - rewrite (lk_take _ _ K), (go_cap _ G), wadd64_small by lia.
    apply NoDup_cons in Hf as [Hk Hf].
    pose proof (admit_all_spec (take (N.to_nat (c + 1)) (kids k)) w frontier G) as HA.
    destruct (admit_all w frontier _) as [[stop w'] frontier'].
    specialize (HA ltac:(intros x Hx%elem_of_take; destruct Hx as (i & Hi & _); eapply below_kid;
      [apply (go_below _ G), Hsub; by left|by eapply list_elem_of_lookup_2]) Hf
      ltac:(intros x Hx; apply Hsub; by right)).
    destruct stop; [exists w'; by split; [|left]|]. destruct HA as (G' & A1 & A2 & A3 & A4).
    assert (take (N.to_nat (c + 1)) (kids k) = kids k) as Hall.
    { apply take_ge. destruct (decide (length (kids k) <= N.to_nat (c + 1))%nat) as [|Hlong]; [done|exfalso].
      assert (length (take (N.to_nat (c + 1)) (kids k)) <= length (walk_out w'))%nat as Hlen.
      { apply submseteq_length, NoDup_submseteq; [|].
        { pose proof (lk_nodup _ _ K k) as Hn. rewrite <- (take_drop (N.to_nat (c + 1))) in Hn. by apply NoDup_app in Hn as [Hn _]. }
        intros x Hx. apply A1. by right. }
      rewrite length_take in Hlen. pose proof (go_room _ G'). lia. }
    rewrite Hall in *. apply IH; try done.
    + intros x Hx. apply A1. apply A3 in Hx as [Hx|[Hx _]]; [left; apply Hsub; by right|by right].
    + intros y x Hy Hyf Hx. apply A1. apply A1 in Hy as [Hy|Hy].
      * destruct (decide (y = k)) as [->|Hne]; [by right|]. left. eapply Hcl; [exact Hy| |exact Hx].
        intros [->|Hin]%elem_of_cons; [done|]. apply Hyf, A3. by left.
      * destruct (decide (y ∈ walk_out w)) as [Hin|Hin]; [|exfalso; apply Hyf, A3; by right].
        destruct (decide (y = k)) as [->|Hne]; [by right|]. left. eapply Hcl; [exact Hin| |exact Hx].
        intros [->|Hin']%elem_of_cons; [done|]. apply Hyf, A3. by left.
    + intros x Hx. apply A1. left. by apply Hsd.
    + cbn in Hfuel. lia.
Qed.

(** A walk from its seeds ends, with all that is below them or with [cap] of it and one
    more left over. *)
Lemma expand_spec :
  c + 1 < u64_limit →
  ∃ w, expand (walk_new c) seeds get = Some w ∧
    (stopped w ∨ going w ∧ ∀ x, x ∈ walk_out w ↔ below kids seeds x).
Proof using K.
  intros Hc. unfold expand.
  pose proof (admit_all_spec seeds (walk_new c) [] walk_new_going ltac:(intros x; apply below_seed) ltac:(constructor)
    ltac:(by intros x ?%elem_of_nil)) as HA.
  destruct (admit_all (walk_new c) [] seeds) as [[stop w] frontier]. destruct stop; [exists w; by split; [|left]|].
  destruct HA as (G & A1 & A2 & A3 & A4). cbn in A4. rewrite (go_cap _ G). apply expand_loop_spec; try done.
  - intros x Hx. apply A1. right. apply A3 in Hx as [?%elem_of_nil|[Hx _]]; done.
  - intros y x Hy Hyf. exfalso. apply Hyf, A3. right. apply A1 in Hy as [?%elem_of_nil|Hy]; [done|].
    split; [done|]. by intros ?%elem_of_nil.
  - intros x Hx. apply A1. by right.
  - lia.
Qed.

(** More than [cap] distinct seeds stop the walk. *)
Lemma expand_overfull w :
  NoDup seeds → c < N.of_nat (length seeds) → going w → (∀ x, x ∈ walk_out w ↔ below kids seeds x) → False.
Proof using.
  intros Hn Hl G Hw. assert (length seeds <= length (walk_out w))%nat as Hlen.
  { apply submseteq_length, NoDup_submseteq; [done|]. intros x Hx. apply Hw. by constructor. }
  pose proof (go_room _ G). lia.
Qed.
End walk.

(** ** Children and roots *)

(** Children are larger nodes of the same class, and every node that is not a root is the
    child of some node. *)
Record tree_ok (kids : NodeId → list NodeId) (root : NodeId → NodeId) : Prop := {
  tr_sound p c : c ∈ kids p → p < c ∧ root c = root p;
  tr_complete c : root c ≠ c → ∃ p, c ∈ kids p;
}.

Section tree.
Context (kids : NodeId → list NodeId) (root : NodeId → NodeId) (T : tree_ok kids root).

Lemma below_sound seeds x : below kids seeds x → ∃ y, y ∈ seeds ∧ root x = root y.
Proof using T.
  induction 1 as [x Hx|y x _ (z & Hz & E) Hx]; [by exists x|]. exists z. split; [done|]. rewrite <- E. by apply T.
Qed.

Lemma below_root seeds x : root x ∈ seeds → below kids seeds x.
Proof using T.
  induction x as [x IH] using (well_founded_induction N.lt_wf_0). intros Hx.
  destruct (decide (root x = x)) as [E|E]; [apply below_seed; by rewrite <- E|].
  destruct (tr_complete _ _ T x E) as [p Hp]. destruct (tr_sound _ _ T p x Hp) as [Hlt Hr].
  eapply below_kid; [|exact Hp]. apply IH; [done|]. by rewrite <- Hr.
Qed.

Lemma below_singleton r x : root r = r → below kids [r] x ↔ root x = r.
Proof using T.
  intros Hr. split.
  - intros (y & ->%list_elem_of_singleton & E)%below_sound. congruence.
  - intros E. apply below_root. rewrite E. apply list_elem_of_singleton. done.
Qed.
End tree.

(** What a base promises with a member index. *)
Record indexed_base (b : RoutingBase) : Prop := {
  ib_shared : ∃ kids, lists_kids (shared_children b) kids ∧ tree_ok kids (base_shared b);
  ib_overlay s : ∃ kids, lists_kids (overlay_children b s) kids ∧ tree_ok kids (base_overlay b s);
}.

Lemma no_kids : lists_kids (fun _ _ => []) (fun _ => []) ∧ tree_ok (fun _ => []) id.
Proof.
  split; split.
  - intros k limit. by rewrite take_nil.
  - constructor.
  - by intros p c ?%elem_of_nil.
  - done.
Qed.

Lemma indexed_empty : indexed_base empty_base.
Proof. split; intros; exists (fun _ => []); apply no_kids. Qed.

(** Listing two tiers one after the other lists their concatenation. *)
Lemma lists_app (get get' : NodeId → nat → list NodeId) kids kids' :
  (∀ k limit, get k limit = take limit (kids k)) → (∀ k limit, get' k limit = take limit (kids' k)) →
  ∀ k limit, get k limit ++ get' k (limit - length (get k limit))%nat = take limit (kids k ++ kids' k).
Proof.
  intros H1 H2 k limit. rewrite H1, H2, length_take, take_app. f_equal. f_equal.
  lia.
Qed.

(** A memtable's children over a base's. *)
Lemma layer_tree (m b : NodeId → NodeId) mk bk :
  (∀ x, m x <= x) → (∀ x, b x <= x) → (∀ x, m (m x) = m x) → layer_ok m b →
  (∀ p, NoDup (mk p)) → (∀ p c, c ∈ mk p → m c ≠ c) → tree_ok mk m →
  (∀ p, NoDup (bk p)) → tree_ok bk b →
  (∀ p, NoDup (mk p ++ bk p)) ∧ tree_ok (fun p => mk p ++ bk p) (fun x => m (b x)).
Proof.
  intros Hm Hb Hmi L Nm Km Tm Nb Tb. split.
  - intros p. apply NoDup_app. split_and!; [done| |done]. intros c H1 H2. destruct (L c (Km p c H1)) as [E _].
    destruct (tr_sound _ _ Tb p c H2) as [Hlt Hr]. specialize (Hb p). lia.
  - split.
    + intros p c [Hc|Hc]%elem_of_app.
      * destruct (tr_sound _ _ Tm p c Hc) as [Hlt Hr]. split; [done|].
        destruct (L c (Km p c Hc)) as [E1 E2]. rewrite E1.
        destruct (decide (m p = p)) as [Ep|Ep]; [|by destruct (L p Ep) as [-> _]].
        rewrite Hr, Ep in E2. by rewrite E2.
      * destruct (tr_sound _ _ Tb p c Hc) as [Hlt ->]. done.
    + intros c Hc. destruct (decide (b c = c)) as [E|E].
      * rewrite E in Hc. destruct (tr_complete _ _ Tm c Hc) as [p Hp]. exists p. apply elem_of_app. by left.
      * destruct (tr_complete _ _ Tb c E) as [p Hp]. exists p. apply elem_of_app. by right.
Qed.

(** ** The memtable's index *)

(** A union-find that tracks its children, or one that does not. *)
Record dsu_tracked (mi : bool) (d : Dsu) : Prop := {
  dt_wf : dsu_wf d;
  dt_tracks : dsu_tracks_members d = mi;
  dt_index ch : children d = Some ch → index_ok d ch;
}.

Lemma tracked_new mi : dsu_tracked mi (dsu_tracking mi).
Proof. destruct (dsu_tracking_inv mi) as [H1 _ _ H4]. split; [done|by destruct mi|done]. Qed.

Lemma tracked_compressed mi d d' : compressed d d' → dsu_tracked mi d → dsu_tracked mi d'.
Proof.
  intros C [H1 H2 H3]. split; [apply C| |].
  - unfold dsu_tracks_members. by rewrite (comp_children _ _ C).
  - intros ch. rewrite (comp_children _ _ C). eauto using compressed_index.
Qed.

Lemma tracked_find mi compress d x : dsu_tracked mi d → dsu_tracked mi (dsu_find compress d x).2.
Proof.
  intros T. unfold dsu_find. destruct compress.
  - destruct (find_spec d (dt_wf _ _ T) x) as (d' & -> & C). by eapply tracked_compressed.
  - destruct (find_ro_spec d (dt_wf _ _ T) x) as (d' & -> & C). by eapply tracked_compressed.
Qed.

Lemma tracked_union mi d u v : dsu_tracked mi d → dsu_tracked mi (union d u v).2.
Proof.
  intros [H1 H2 H3]. destruct (union_spec d u v H1) as (o & d' & -> & U). cbn. split; [apply U|by rewrite (ur_tracks _ _ _ _ _ U)|].
  intros ch Hch. destruct (children d) as [ch0|] eqn:E0.
  - destruct (ur_index _ _ _ _ _ U ch0 E0 (H3 _ eq_refl)) as (ch' & E & I). rewrite Hch in E. by injection E as ->.
  - pose proof (ur_tracks _ _ _ _ _ U) as Ht. unfold dsu_tracks_members in Ht. rewrite E0, Hch in Ht.
    repeat case_bool_decide; try done. naive_solver.
Qed.

(** The children a tracked union-find lists. *)
Lemma tracked_kids d :
  dsu_tracked true d →
  ∃ mk, (∀ k limit, children_of d k limit [] = take limit (mk k)) ∧ (∀ p, NoDup (mk p)) ∧
    (∀ p c, c ∈ mk p → droot d c ≠ c) ∧ tree_ok mk (droot d).
Proof.
  intros [H1 H2 H3]. unfold dsu_tracks_members in H2. apply bool_decide_eq_true in H2 as [ch Hch].
  destruct (H3 ch Hch) as [I1 I2 I3 I4]. exists (kids ch). split_and!.
  - intros k limit. unfold children_of, kids. rewrite Hch. destruct (ch !! k) as [ks|]; cbn; [|by rewrite take_nil].
    destruct (decide (length ks <= limit)%nat); [rewrite Nat.min_l, firstn_all, take_ge by lia; done|by rewrite Nat.min_r by lia].
  - done.
  - intros p c Hc. apply I2 in Hc as ([q Hq] & _). intros E%droot_self; [congruence|done].
  - split.
    + intros p c Hc. apply I2 in Hc as (_ & Hlt & Hr). done.
    + intros c Hc. apply I1. destruct (parents d !! c) eqn:E; [done|]. exfalso. by apply Hc, droot_self.
Qed.

Record tier_tracked (mi : bool) (t : Tier) : Prop := {
  tt_flag : mem_member_index (tier_mem t) = mi;
  tt_global : dsu_tracked mi (mem_global (tier_mem t));
  tt_overlay s o : mem_overlays (tier_mem t) !! s = Some o → dsu_tracked mi o;
}.

Lemma tracked_mem_new mi b : tier_tracked mi (mkTier b (mem_new mi)).
Proof. split; [done|apply tracked_new|]. cbn. intros s o. by rewrite lookup_empty. Qed.

Section tracked.
Context (mi : bool).

Lemma tracked_set_global t g : tier_tracked mi t → dsu_tracked mi g → tier_tracked mi (set_global t g).
Proof using. by intros [H1 H2 H3] Hg. Qed.

Lemma tracked_set_overlay t s o : tier_tracked mi t → dsu_tracked mi o → tier_tracked mi (set_overlay t s o).
Proof using.
  intros [H1 H2 H3] Ho. split; [done|done|]. cbn. intros s' o'. rewrite lookup_insert. case_decide; [by intros [= <-]|apply H3].
Qed.

Lemma tracked_set_registry t r : tier_tracked mi t → tier_tracked mi (set_registry t r).
Proof using. by intros [H1 H2 H3]. Qed.

Lemma tracked_register t r s : tier_tracked mi t → tier_tracked mi (register t r s).
Proof using. apply tracked_set_registry. Qed.

Lemma tracked_mem_overlay t s : tier_tracked mi t → dsu_tracked mi (mem_overlay (tier_mem t) s).
Proof using.
  intros [H1 H2 H3]. unfold mem_overlay. destruct (_ !! s) as [o|] eqn:E; cbn; [by eapply H3|]. rewrite H1. apply tracked_new.
Qed.

Lemma tracked_shared_root t x compress : tier_tracked mi t → tier_tracked mi (shared_root t x compress).2.
Proof using.
  intros T. unfold shared_root. pose proof (tracked_find mi compress _ x (tt_global _ _ T)) as T1.
  destruct (dsu_find compress (mem_global (tier_mem t)) x) as [m g]. cbn in T1.
  pose proof (tracked_set_global t g T T1) as T2. destruct (negb (m =? x)); [done|].
  destruct (tier_base _ ≫= _) as [b|]; [|done]. destruct (negb (b =? x)); [|done].
  pose proof (tracked_find mi compress _ b (tt_global _ _ T2)) as T3.
  destruct (dsu_find compress _ b) as [r g']. by apply tracked_set_global.
Qed.

Lemma tracked_overlay_root t s x compress : tier_tracked mi t → tier_tracked mi (overlay_root t s x compress).2.
Proof using.
  intros T. unfold overlay_root. destruct (mem_overlays (tier_mem t) !! s) as [o|] eqn:E.
  - pose proof (tracked_find mi compress _ x (tt_overlay _ _ T s o E)) as T1.
    destruct (dsu_find compress o x) as [m o']. cbn in T1. pose proof (tracked_set_overlay t s o' T T1) as T2.
    destruct (negb (m =? x)); [done|]. destruct (tier_base _ ≫= _) as [b|]; [|done]. destruct (b =? x); [done|].
    pose proof (tracked_find mi compress _ b T1) as T3. destruct (dsu_find compress o' b) as [r o'']. by apply tracked_set_overlay.
  - destruct (tier_base t ≫= _) as [b|]; [|done]. by destruct (b =? x).
Qed.

Lemma tracked_fixup child parent scopes : ∀ t n, tier_tracked mi t → tier_tracked mi (fixup_scopes t child parent scopes n).1.
Proof using.
  induction scopes as [|s scopes IH]; intros t n T; [done|]. cbn [fixup_scopes].
  pose proof (tracked_overlay_root t s child true T) as T1. destruct (overlay_root t s child true) as [a t1]. cbn in T1.
  pose proof (tracked_overlay_root t1 s parent true T1) as T2. destruct (overlay_root t1 s parent true) as [b t2]. cbn in T2.
  destruct (negb (a =? b)); [|by apply IH].
  pose proof (tracked_union mi _ a b (tracked_mem_overlay t2 s T2)) as T3.
  destruct (union _ a b) as [o d]. by apply IH, tracked_set_overlay.
Qed.

Lemma tracked_link ru rv scopes : ∀ t n, tier_tracked mi t → tier_tracked mi (link_scopes t ru rv scopes n).1.
Proof using.
  induction scopes as [|s scopes IH]; intros t n T; [done|]. cbn [link_scopes].
  pose proof (tracked_overlay_root t s ru true T) as T1. destruct (overlay_root t s ru true) as [a t1]. cbn in T1.
  pose proof (tracked_overlay_root t1 s rv true T1) as T2. destruct (overlay_root t1 s rv true) as [b t2]. cbn in T2.
  pose proof (tracked_union mi _ a b (tracked_mem_overlay t2 s T2)) as T3.
  destruct (union _ a b) as [o d]. apply IH. by apply tracked_register, tracked_register, tracked_set_overlay.
Qed.

Lemma tracked_two_roots t u v :
  tier_tracked mi t → let t1 := (shared_root t u true).2 in tier_tracked mi (shared_root t1 v true).2.
Proof using. intros T t1. by apply tracked_shared_root, tracked_shared_root. Qed.

Lemma tracked_apply f e : tier_tracked mi (tier f) → tier_tracked mi (tier (apply f e)).
Proof using.
  intros T. unfold apply. cbn [tier]. destruct (normalize (visibility e)) as [|scopes].
  - unfold apply_global. pose proof (tracked_two_roots _ (src e) (dst e) T) as T1. cbn in T1.
    destruct (shared_root (tier f) (src e) true) as [ru t1]. cbn in T1.
    destruct (shared_root t1 (dst e) true) as [rv t2]. cbn in T1.
    pose proof (tracked_union mi _ ru rv (tt_global _ _ T1)) as T2. destruct (union _ ru rv) as [o g]. cbn in T2.
    pose proof (tracked_set_global _ g T1 T2) as T3. destruct o as [[child parent]|]; [|done].
    pose proof (tracked_fixup child parent) as HF.
    match goal with |- context [fixup_scopes ?t _ _ ?l ?n] =>
      specialize (HF l t n (tracked_set_registry _ _ T3)); destruct (fixup_scopes t child parent l n) as [t4 k] end.
    cbn in HF |- *. case_bool_decide; [done|by apply tracked_set_registry].
  - unfold apply_scoped. pose proof (tracked_two_roots _ (src e) (dst e) T) as T1. cbn in T1.
    destruct (shared_root (tier f) (src e) true) as [ru t1]. cbn in T1.
    destruct (shared_root t1 (dst e) true) as [rv t2]. cbn in T1.
    pose proof (tracked_link ru rv scopes t2 (scope_links f) T1) as T2. by destruct (link_scopes _ _ _ _ _).
Qed.

Lemma tracked_tier_compressed t t' : tier_compressed t t' → tier_tracked mi t → tier_tracked mi t'.
Proof using.
  intros [C1 C2 C3 C4 C5] [H1 H2 H3]. split; [congruence|by eapply tracked_compressed|].
  intros s o Ho. specialize (C5 s). rewrite Ho in C5. inversion C5 as [o' x Hc E1 E2|]; subst.
  eapply tracked_compressed; [exact Hc|]. by eapply H3.
Qed.
End tracked.

(** ** Hydration *)

Lemma tracked_hydrate mi l : resolved l → dsu_tracked mi (dsu_hydrate (dsu_tracking mi) l).
Proof. intros R. destruct (hydrate_spec mi l R) as (H1 & _ & H3 & H4 & _). by split. Qed.

Lemma tracked_hydrate_registry mi s ms : ∀ t, tier_tracked mi t → tier_tracked mi (hydrate_registry t s ms).
Proof.
  induction ms as [|m ms IH]; intros t T; [done|]. cbn [hydrate_registry].
  pose proof (tracked_find mi true _ m (tt_global _ _ T)) as T1. unfold dsu_find in T1.
  destruct (find (mem_global (tier_mem t)) m) as [live g]. by apply IH, tracked_register, tracked_set_global.
Qed.

Lemma hydrate_registry_overlays s ms : ∀ t, mem_overlays (tier_mem (hydrate_registry t s ms)) = mem_overlays (tier_mem t).
Proof.
  induction ms as [|m ms IH]; intros t; [done|]. cbn [hydrate_registry].
  destruct (find (mem_global (tier_mem t)) m) as [live g]. by rewrite IH.
Qed.

Lemma tracked_hydrate_scopes mi l : ∀ t,
  tier_tracked mi t → NoDup l.*1 → (∀ s ps, (s, ps) ∈ l → resolved ps ∧ mem_overlays (tier_mem t) !! s = None) →
  tier_tracked mi (foldl hydrate_scope t l).
Proof.
  induction l as [|[s ps] l IH]; intros t T Hn Hl; [done|]. cbn in Hn. apply NoDup_cons in Hn as [Hs Hn]. cbn [foldl].
  destruct (Hl s ps) as [R Ho]; [left|]. apply IH; [|done|].
  - unfold hydrate_scope. cbn [fst snd]. apply tracked_hydrate_registry, tracked_set_overlay; [done|].
    unfold mem_overlay. rewrite Ho, (tt_flag _ _ T). by apply tracked_hydrate.
  - intros s' ps' Hin. destruct (Hl s' ps') as [R' Ho']; [by right|]. split; [done|].
    unfold hydrate_scope. rewrite hydrate_registry_overlays. cbn. rewrite lookup_insert_ne; [done|].
    intros ->. apply Hs. apply list_elem_of_fmap. by exists (s', ps').
Qed.

(** ** The invariant of a forest with members *)

Record members_inv (f : ScopedForest) : Prop := {
  mv_tracked : tier_tracked (member_index f) (tier f);
  mv_base : from_option has_member_index true (tier_base (tier f)) = true → indexed_base (base_of (tier f));
}.

Lemma members_inv_new (mi : bool) : members_inv (if mi then tracking_members forest_new else forest_new).
Proof. destruct mi; split; try apply tracked_mem_new; intros _; apply indexed_empty. Qed.

Lemma apply_member_index f e : member_index (apply f e) = member_index f.
Proof.
  unfold apply. cbn [member_index]. destruct (normalize (visibility e)).
  - unfold apply_global. destruct (shared_root _ _ _) as [? t1]. destruct (shared_root t1 _ _) as [? t2].
    destruct (union _ _ _) as [[[]|] ?]; [|done]. by destruct (fixup_scopes _ _ _ _ _).
  - unfold apply_scoped. destruct (shared_root _ _ _) as [? t1]. destruct (shared_root t1 _ _) as [? t2].
    by destruct (link_scopes _ _ _ _ _).
Qed.

(** Every step of a forest keeps the memtable's half of the index; the base's half is
    what a new base brings. *)
Lemma members_inv_step {Sk Er T : Type} (push : Sk → emission → Sk) s s' :
  forest_step (Er := Er) (T := T) push s s' → absorbed s.1 s.2 → members_inv s.1 →
  (from_option has_member_index true (tier_base (tier s'.1)) = true → indexed_base (base_of (tier s'.1))) →
  members_inv s'.1.
Proof.
  intros S I [M1 M2] Hb. split; [|exact Hb]. clear Hb M2.
  destruct S as [f evs e|f evs s x|f evs|f evs b|f evs sink build H|f evs sink build H|f evs b H]; cbn [fst snd] in *.
  - rewrite apply_member_index. by apply tracked_apply.
  - destruct (scope_root_spec f s x _ _ I) as (f' & E & _ & C).
    assert (member_index (scope_root f s x).2 = member_index f) as ->.
    { unfold scope_root. destruct (shared_root _ _ _) as [? t1]. destruct (s =? _); [done|]. by destruct (overlay_root _ _ _ _). }
    rewrite E. by eapply tracked_tier_compressed.
  - unfold snapshot. destruct (compact_locked_spec (tier f) (proj1 I)) as (t' & -> & C). cbn.
    by eapply tracked_tier_compressed.
  - destruct I as [W V]. unfold snapshot. destruct (compact_locked_spec (tier f) W) as (t' & -> & C). cbn.
    destruct (compact_models (tier f) W) as [S1 S2 S3 S4 S5].
    unfold hydrate. cbn [tier member_index]. apply tracked_hydrate_scopes; [|done|].
    + apply tracked_set_global; [destruct b; apply tracked_mem_new|]. destruct b; by apply tracked_hydrate.
    + intros s ps Hin. split; [by eauto|]. destruct b; cbn; by rewrite lookup_empty.
  - clear H. unfold compact_and_fold. destruct (compact_locked_spec (tier f) (proj1 I)) as (t' & -> & C). cbn.
    destruct (build _) as [[b out]|e]; cbn; [apply tracked_mem_new|by eapply tracked_tier_compressed].
  - clear H. unfold fold_delta. destruct (stream_memtable_spec (tier f) (proj1 I)) as (t' & -> & C). cbn.
    destruct (build _ _) as [[b out]|e]; cbn; [apply tracked_mem_new|by eapply tracked_tier_compressed].
  - destruct M1 as [H1 H2 H3]. by split.
Qed.

(** ** What [members] answers *)

Section tiers.
Context (t : Tier) (W : tier_wf t) (Tr : tier_tracked true t) (Ib : indexed_base (base_of t)).
#[local] Instance tiers_base_laws : BaseLaws (base_of t) := tw_base t W.

Lemma global_tree : ∃ kids, lists_kids (global_children t) kids ∧ tree_ok kids (G_of t).
Proof using W Tr Ib.
  destruct (ib_shared _ Ib) as (bk & [B1 B2] & B3).
  destruct (tracked_kids _ (tt_global _ _ Tr)) as (mk & M1 & M2 & M3 & M4).
  destruct (layer_tree (droot (mem_global (tier_mem t))) (base_shared (base_of t)) mk bk) as [Hn Ht]; try done.
  { intros x. apply droot_le, W. } { apply base_shared_le. } { intros x. apply droot_idem, W. } { apply W. }
  exists (fun p => mk p ++ bk p). split; [|exact Ht]. split; [|exact Hn].
  intros k limit. rewrite <- (lists_app (fun k limit => children_of (mem_global (tier_mem t)) k limit []) _ mk bk M1 B1).
  unfold global_children, base_of. destruct (tier_base t) as [b|]; [done|]. cbn. by rewrite app_nil_r.
Qed.

Lemma overlay_kids s :
  ∃ mk, (∀ k limit, match mem_overlays (tier_mem t) !! s with Some o => children_of o k limit [] | None => [] end = take limit (mk k)) ∧
    (∀ p, NoDup (mk p)) ∧ (∀ p c, c ∈ mk p → overlay_fn t s c ≠ c) ∧ tree_ok mk (overlay_fn t s).
Proof using Tr.
  unfold overlay_fn. destruct (mem_overlays (tier_mem t) !! s) as [o|] eqn:E.
  - exact (tracked_kids _ (tt_overlay _ _ Tr s o E)).
  - exists (fun _ => []). destruct no_kids as [[K1 K2] K3]. split_and!; [done|done|by intros p c ?%elem_of_nil|done].
Qed.

Lemma scope_tree s : ∃ kids, lists_kids (scope_children t s) kids ∧ tree_ok kids (O_of t s).
Proof using W Tr Ib.
  destruct (ib_overlay _ Ib s) as (bk & [B1 B2] & B3). destruct (overlay_kids s) as (mk & M1 & M2 & M3 & M4).
  assert ((∀ x, overlay_fn t s x <= x) ∧ ∀ x, overlay_fn t s (overlay_fn t s x) = overlay_fn t s x) as [Ho1 Ho2].
  { unfold overlay_fn. destruct (_ !! s) as [o|] eqn:E; [|split; intros x; cbn; [lia|done]].
    pose proof (tw_overlay _ W s o E) as Hw. split; intros x; [by apply droot_le|by apply droot_idem]. }
  destruct (layer_tree (overlay_fn t s) (base_overlay (base_of t) s) mk bk) as [Hn Ht]; try done.
  { apply base_overlay_le. } { apply W. }
  exists (fun p => mk p ++ bk p). split; [|exact Ht]. split; [|exact Hn].
  intros k limit. rewrite <- (lists_app (fun k limit =>
    match mem_overlays (tier_mem t) !! s with Some o => children_of o k limit [] | None => [] end) _ mk bk M1 B1).
  unfold scope_children, base_of. destruct (tier_base t) as [b|]; [done|]. cbn. by rewrite app_nil_r.
Qed.

(** What the answer is to a component [P] and a cap. *)
Definition answers_members (P : NodeId → Prop) (c : N) (r : Members) : Prop :=
  NoDup (nodes r) ∧ (∀ x, x ∈ nodes r → P x) ∧
  match r with
  | Complete v => N.of_nat (length v) <= c ∧ ∀ x, P x → x ∈ v
  | Truncated v => N.of_nat (length v) = c ∧ ∃ y, P y ∧ y ∉ v
  end.

Lemma answers_members_ext (P Q : NodeId → Prop) c r :
  (∀ x, P x ↔ Q x) → answers_members P c r → answers_members Q c r.
Proof using.
  intros HPQ (H1 & H2 & H3). split; [done|]. split; [intros x Hx; by apply HPQ, H2|]. destruct r as [v|v].
  - destruct H3 as [H3 H4]. split; [done|]. intros x Hx. by apply H4, HPQ.
  - destruct H3 as [H3 (y & Hy & Hn)]. split; [done|]. exists y. by rewrite <- HPQ.
Qed.

Lemma finish_answers kids seeds c (P : NodeId → Prop) w :
  (∀ x, below kids seeds x ↔ P x) →
  stopped kids c seeds w ∨ going kids c seeds w ∧ (∀ x, x ∈ walk_out w ↔ below kids seeds x) →
  answers_members P c (walk_finish w).
Proof using.
  intros HP [[S1 S2 S3 (y & Hy & Hn) S5]|[G Hw]]; unfold walk_finish.
  - rewrite S5. split; [exact S1|]. split; [intros x Hx; by apply HP, S3|]. split; [done|]. exists y. by rewrite <- HP.
  - rewrite (go_open _ _ _ _ G). split; [apply G|]. split; [intros x Hx; by apply HP, Hw|]. split; [apply G|].
    intros x Hx. by apply Hw, HP.
Qed.

Lemma global_walk c r :
  c + 1 < u64_limit → G_of t r = r →
  ∃ w, expand (walk_new c) [r] (global_children t) = Some w ∧ answers_members (fun x => G_of t x = r) c (walk_finish w).
Proof using W Tr Ib.
  intros Hc Hr. destruct global_tree as (kids & K & T).
  destruct (expand_spec kids c [r] (global_children t) K Hc) as (w & E & Hw). exists w. split; [done|].
  eapply finish_answers; [|exact Hw]. intros x. by apply below_singleton.
Qed.

(** Overlay elements stand for shared components, and the walk below them finds the
    nodes. *)
Lemma scoped_walk s c r :
  c + 2 < u64_limit → O_of t s r = r → O_of t s (G_of t r) = r → (∀ x, touched (O_of t s) x → O_of t s x = O_of t s (G_of t x)) →
  ∃ seeds w, expand (walk_new (saturating_succ c)) [r] (scope_children t s) = Some seeds ∧
    expand (walk_new c) (walk_out seeds) (global_children t) = Some w ∧
    answers_members (fun x => O_of t s (G_of t x) = r) c (walk_finish w).
Proof using W Tr Ib.
  intros Hc Hr Hlive Hv. assert (saturating_succ c = c + 1) as ->.
  { unfold saturating_succ. assert (0 < u64_limit) by done. lia. }
  destruct (scope_tree s) as (ok & OK & OT). destruct global_tree as (gk & GK & GT).
  destruct (expand_spec ok (c + 1) [r] _ OK ltac:(lia)) as (seeds & E1 & Hs). exists seeds.
  assert (∀ y, below ok [r] y → O_of t s (G_of t y) = r) as Hbelow.
  { intros y Hy%(below_singleton _ _ OT); [|done]. destruct (decide (y = r)) as [->|Hne]; [done|].
    rewrite <- Hv; [done|]. exists r. split; [done|congruence]. }
  destruct (expand_spec gk c (walk_out seeds) _ GK ltac:(lia)) as (w & E2 & Hw). exists w. split_and!; [done|done|].
  destruct Hs as [[S1 S2 S3 S4 S5]|[G Hall]].
  - (* more overlay elements than the cap: the second walk stops at the last of them *)
    destruct Hw as [[T1 T2 T3 (y & Hy & Hn) T5]|[G Hw]]; [|exfalso; eapply expand_overfull; [exact S1| |exact G|exact Hw]; lia].
    assert (∀ x, below gk (walk_out seeds) x → O_of t s (G_of t x) = r) as Hreal.
    { intros x (z & Hz & Eg)%(below_sound _ _ GT). rewrite Eg. apply Hbelow. by apply S3. }
    unfold walk_finish. rewrite T5. split; [exact T1|]. split; [intros x Hx; by apply Hreal, T3|].
    split; [done|]. exists y. split; [by apply Hreal|done].
  - eapply finish_answers; [|exact Hw]. intros x. split.
    + intros (z & Hz & Eg)%(below_sound _ _ GT). rewrite Eg. apply Hbelow. by apply Hall.
    + intros Hx. apply (below_root _ _ GT). apply Hall, (below_singleton _ _ OT); done.
Qed.
End tiers.

(** ** The query *)

Lemma members_run f evs s node c :
  absorbed f evs → members_inv f → members_available f = true → c + 2 < u64_limit →
  ∃ r f', members f s node c = (Some (Some r), f') ∧ tier_compressed (tier f) (tier f') ∧
    answers_members (fun x => (scope_root f s x).1 = (scope_root f s node).1) c r.
Proof.
  intros I [M1 M2] Ha Hc. pose proof I as [W V]. unfold members_available in Ha. apply andb_prop in Ha as [Ha Hb].
  rewrite Ha in M1. specialize (M2 Hb). unfold members. rewrite Ha. cbn [negb].
  assert (from_option (fun b => negb (has_member_index b)) false (tier_base (tier f)) = false) as ->.
  { destruct (tier_base (tier f)) as [b|]; [|done]. cbn in *. by rewrite Hb. }
  destruct (shared_root_spec (tier f) node false W) as (t1 & E1 & C1). rewrite E1.
  assert (tier_wf t1) as W1 by eauto with blaze. pose proof (tracked_tier_compressed _ _ _ C1 M1) as Tr1.
  assert (base_of t1 = base_of (tier f)) as Hb1 by (unfold base_of; by rewrite (tc_base _ _ C1)).
  assert (∀ x, (scope_root f s x).1 = if s =? GLOBAL_SCOPE then G_of (tier f) x else O_of (tier f) s (G_of (tier f) x)) as Hsr.
  { intros x. by destruct (scope_root_spec f s x _ _ I) as (f' & -> & _ & _). }
  destruct (s =? GLOBAL_SCOPE) eqn:Es.
  - destruct (global_walk t1 W1 Tr1 ltac:(by rewrite Hb1) c (G_of (tier f) node)) as (w & Ew & Hw).
    { lia. } { rewrite (tc_G _ _ C1). by apply G_idem. }
    rewrite Ew. cbn. exists (walk_finish w), (set_tier f t1). split_and!; [done|done|].
    eapply answers_members_ext, Hw. intros x. cbn beta. by rewrite !Hsr, (tc_G _ _ C1).
  - destruct (overlay_root_spec t1 s (G_of (tier f) node) false W1) as (t2 & E2 & C2). rewrite E2.
    assert (tier_wf t2) as W2 by eauto with blaze. pose proof (tracked_tier_compressed _ _ _ C2 Tr1) as Tr2.
    assert (base_of t2 = base_of (tier f)) as Hb2 by (unfold base_of; by rewrite (tc_base _ _ C2), (tc_base _ _ C1)).
    assert (∀ x, G_of t2 x = G_of (tier f) x) as HG by (intros x; by rewrite (tc_G _ _ C2), (tc_G _ _ C1)).
    assert (∀ x, O_of t2 s x = O_of (tier f) s x) as HO by (intros x; by rewrite (tc_O _ _ C2), (tc_O _ _ C1)).
    rewrite (tc_O _ _ C1).
    set (r := O_of (tier f) s (G_of (tier f) node)).
    destruct (scoped_walk t2 W2 Tr2 ltac:(by rewrite Hb2) s c r Hc) as (seeds & w & Ea & Ew & Hw).
    { rewrite HO. apply (vi_o_idem _ _ _ _ _ V). }
    { rewrite HO, HG. apply (canon_idem _ _ (vi_scope _ _ _ _ _ V s)). }
    { intros x T. rewrite !HO, HG. apply (vi_live _ _ _ _ _ V). destruct T as (y & Hy & E). exists y. by rewrite <- !HO. }
    rewrite Ea. cbn. rewrite Ew. cbn. exists (walk_finish w), (set_tier f t2). split_and!; [done|cbn; eauto with blaze|].
    eapply answers_members_ext, Hw. intros x. cbn beta. by rewrite !Hsr, HO, HG.
Qed.
