(* ===== verification/Bytes.v ===== *)
(** Byte strings and the little-endian integers of the [bytes] crate's
    [put_u32_le] / [put_u64_le] and of [from_le_bytes].

    A byte is an [N] below 256, a buffer a list of them. *)

From S2P Require Import Prelude.

Notation bytes := (list N).
Definition byte_ok (b : N) : Prop := b < 256.

(** [str::as_bytes]. *)
Fixpoint string_bytes (s : string) : bytes :=
  match s with String.EmptyString => [] | String.String c s => Ascii.N_of_ascii c :: string_bytes s end.

(** [put_uN_le]: [n] bytes of the value, least significant first; a wider value
    is truncated, as the [as] casts of the source do. *)
Fixpoint le_put (n : nat) (v : N) : bytes :=
  match n with
  | O => []
  | S n => v `mod` 256 :: le_put n (v / 256)
  end.

(** [uN::from_le_bytes]. *)
Fixpoint le_get (l : bytes) : N :=
  match l with
  | [] => 0
  | b :: l => b + 256 * le_get l
  end.

Definition put_u64 : N → bytes := le_put 8.
Definition put_u32 : N → bytes := le_put 4.

(** [data[at..at + n]], or [None] where the slice would panic. *)
Definition slice_at (data : bytes) (at_ n : nat) : option bytes :=
  if decide (at_ + n ≤ length data)%nat then Some (take n (drop at_ data)) else None.

Definition read_le (n : nat) (data : bytes) (at_ : nat) : option N :=
  le_get <$> slice_at data at_ n.

Lemma le_put_length n v : length (le_put n v) = n.
Proof. revert v. induction n; intros; cbn; auto. Qed.

Lemma put_u64_length v : length (put_u64 v) = 8%nat.
Proof. done. Qed.

Lemma put_u32_length v : length (put_u32 v) = 4%nat.
Proof. done. Qed.

Lemma le_put_ok n v : Forall byte_ok (le_put n v).
Proof.
  revert v. induction n; intros; cbn; constructor; auto.
  unfold byte_ok. by apply N.mod_upper_bound.
Qed.

Lemma le_get_put n v : v < 256 ^ N.of_nat n → le_get (le_put n v) = v.
Proof.
  revert v. induction n as [|n IH]; intros v Hv.
  - rewrite N.pow_0_r in Hv. cbn. lia.
  - rewrite Nat2N.inj_succ, N.pow_succ_r' in Hv.
    cbn [le_put le_get]. rewrite IH; [|apply N.Div0.div_lt_upper_bound; lia].
    pose proof (N.Div0.div_mod v 256). lia.
Qed.

Lemma put_u64_get v : v < u64_limit → le_get (put_u64 v) = v.
Proof. intros H. by apply le_get_put. Qed.

Lemma put_u32_get v : v < u32_limit → le_get (put_u32 v) = v.
Proof. intros H. by apply le_get_put. Qed.

Lemma le_put_get l : Forall byte_ok l → le_put (length l) (le_get l) = l.
Proof.
  induction 1 as [|b l Hb Hl IH]; [done|]. unfold byte_ok in Hb.
  cbn [length le_put le_get]. f_equal.
  - rewrite N.mul_comm, N.Div0.mod_add. by apply N.mod_small.
  - rewrite N.mul_comm, N.div_add by done. by rewrite N.div_small, N.add_0_l.
Qed.

Lemma le_get_bound l : Forall byte_ok l → le_get l < 256 ^ N.of_nat (length l).
Proof.
  induction 1 as [|b l Hb Hl IH]; [done|]. unfold byte_ok in Hb.
  cbn [length le_get]. rewrite Nat2N.inj_succ, N.pow_succ_r'. lia.
Qed.

(** ** Slices of concatenations *)

Lemma slice_at_app pre mid post :
  slice_at (pre ++ mid ++ post) (length pre) (length mid) = Some mid.
Proof.
  unfold slice_at. rewrite decide_True by (rewrite !length_app; lia).
  by rewrite drop_app_length, take_app_length.
Qed.

Lemma slice_at_some data at_ n l :
  slice_at data at_ n = Some l ↔
  ∃ pre post, data = pre ++ l ++ post ∧ length pre = at_ ∧ length l = n.
Proof.
  split.
  - unfold slice_at. case_decide as H; [|done]. intros [= <-].
    exists (take at_ data), (drop n (drop at_ data)).
    rewrite !take_drop, length_take, length_take, length_drop. split_and!; [done|lia|lia].
  - intros (pre & post & -> & <- & <-). apply slice_at_app.
Qed.

Lemma slice_at_length data at_ n l : slice_at data at_ n = Some l → length l = n.
Proof. intros H. by apply slice_at_some in H as (?&?&?&?&?). Qed.

Lemma read_le_app n pre v post :
  v < 256 ^ N.of_nat n → read_le n (pre ++ le_put n v ++ post) (length pre) = Some v.
Proof.
  intros Hv. unfold read_le.
  pose proof (slice_at_app pre (le_put n v) post) as H. rewrite le_put_length in H.
  rewrite H. cbn. by rewrite le_get_put.
Qed.

Lemma read_le_total n data at_ :
  (at_ + n ≤ length data)%nat → is_Some (read_le n data at_).
Proof. intros H. unfold read_le, slice_at. rewrite decide_True by done. by eexists. Qed.

#[export] Hint Resolve le_put_ok : blaze.

(** ** Fixed-width records *)

Fixpoint chunks (w : nat) (n : nat) (data : bytes) : list bytes :=
  match n with
  | O => []
  | S n => take w data :: chunks w n (drop w data)
  end.

Lemma mjoin_cons {A} (l : list A) ls : mjoin (l :: ls) = l ++ mjoin ls.
Proof. done. Qed.

Lemma chunks_concat (ls : list bytes) w :
  Forall (fun l => length l = w) ls → chunks w (length ls) (mjoin ls) = ls.
Proof.
  induction 1 as [|l ls Hl _ IH]; [done|]. rewrite mjoin_cons. cbn [length chunks].
  by rewrite take_app_length', drop_app_length', IH.
Qed.

Lemma concat_chunks w n data : length data = (n * w)%nat → mjoin (chunks w n data) = data.
Proof.
  revert data. induction n as [|n IH]; intros data H; cbn [chunks].
  - by destruct data.
  - rewrite mjoin_cons, IH; [by rewrite take_drop|]. rewrite length_drop. lia.
Qed.

Lemma chunks_length w n data : length data = (n * w)%nat → Forall (fun l => length l = w) (chunks w n data).
Proof.
  revert data. induction n as [|n IH]; intros data H; cbn [chunks]; constructor.
  - rewrite length_take. lia.
  - apply IH. rewrite length_drop. lia.
Qed.

Lemma concat_length w (ls : list bytes) :
  Forall (fun l => length l = w) ls → length (mjoin ls) = (length ls * w)%nat.
Proof. induction 1 as [|l ls Hl _ IH]; [done|]. rewrite mjoin_cons, length_app. cbn. lia. Qed.

Lemma chunks_lookup w n data i :
  (i < n)%nat → length data = (n * w)%nat →
  chunks w n data !! i = Some (take w (drop (i * w) data)).
Proof.
  revert data i. induction n as [|n IH]; intros data i Hi H; [lia|]. cbn [chunks].
  destruct i as [|i]; [done|]. cbn [lookup list_lookup]. rewrite IH; [|lia|rewrite length_drop; lia].
  by rewrite drop_drop.
Qed.

Lemma chunks_app w n l rest : length l = (n * w)%nat → chunks w n (l ++ rest) = chunks w n l.
Proof.
  revert l. induction n as [|n IH]; intros l H; cbn [chunks]; [done|].
  rewrite take_app_le, drop_app_le by lia. f_equal. apply IH. rewrite length_drop. lia.
Qed.

(** ** Sequences of 64-bit words *)

Lemma put_words_chunks ws :
  Forall (fun w => w < u64_limit) ws →
  le_get <$> chunks 8 (length ws) (mjoin (put_u64 <$> ws)) = ws.
Proof.
  intros H. rewrite <-(length_fmap put_u64 ws), chunks_concat.
  - rewrite <-list_fmap_compose. rewrite <-(list_fmap_id ws) at 2.
    apply list_fmap_ext. intros i w Hw. unfold compose. rewrite put_u64_get; [done|].
    rewrite Forall_forall in H. apply H. by eapply list_elem_of_lookup_2.
  - apply Forall_fmap, Forall_true. intros w. apply le_put_length.
Qed.

Lemma words_length ws : length (mjoin (put_u64 <$> ws)) = (length ws * 8)%nat.
Proof.
  rewrite (concat_length 8), length_fmap; [done|].
  apply Forall_fmap, Forall_true. intros w. apply le_put_length.
Qed.
