(* ===== verification/Filter.v ===== *)
(** Blocked membership filters: [src/storage/filter.rs].

    A filter is a vector of 512-bit blocks; a key hashes to one block and to six
    bits of it. [None] is a panic: indexing and [%] in [locate] fail on a filter
    without blocks. *)

From S2P Require Import Prelude Bytes.
From Stdlib Require Import Btauto.

Definition K : nat := 6.
Definition BLOCK_BITS : N := 512.
Definition BLOCK_WORDS : nat := 8.
Definition DEFAULT_FILTER_BITS : N := 8.
Definition MAGIC : N := 0x424C4631.

Definition clamp_filter_bits (bits : N) : N := N.min bits 64.

(** splitmix64. *)
Definition mix (x : N) : N :=
  let x := x ⊞ 0x9E3779B97F4A7C15 in
  let z := N.lxor x (N.shiftr x 30) ⊠ 0xBF58476D1CE4E5B9 in
  let z := N.lxor z (N.shiftr z 27) ⊠ 0x94D049BB133111EB in
  N.lxor z (N.shiftr z 31).

(** [overlay_key]; shifting a [u32] left by 40 drops the bits above 64. *)
Definition overlay_key (scope node : N) : N :=
  mix (N.lxor node (wrap64 (N.shiftl scope 40) ⊠ 0x9E3779B9)).

Record BlockedFilter := mkFilter { blocks : list (list N) }.

(** The loop of [locate]: six bits of one block. *)
Fixpoint pattern_loop (k : nat) (h : N) (pattern : list N) : list N :=
  match k with
  | O => pattern
  | S k =>
      let h := mix h in
      let bit := h `mod` BLOCK_BITS in
      pattern_loop k h
        (alter (fun w => N.lor w (N.shiftl 1 (bit `mod` 64))) (N.to_nat (bit / 64)) pattern)
  end.

Definition locate (f : BlockedFilter) (key : N) : option (nat * list N) :=
  let h := mix key in
  if bool_decide (blocks f = []) then None
  else Some (N.to_nat (N.shiftr h 32 `mod` N.of_nat (length (blocks f))),
             pattern_loop K h (replicate BLOCK_WORDS 0)).

(** One key of [build]. *)
Definition filter_insert (f : BlockedFilter) (key : N) : option BlockedFilter :=
  '(block, pattern) ← locate f key;
  b ← blocks f !! block;
  Some (mkFilter (<[block := zip_with N.lor b pattern]> (blocks f))).

Fixpoint insert_keys (f : BlockedFilter) (keys : list N) : option BlockedFilter :=
  match keys with
  | [] => Some f
  | k :: keys => f ← filter_insert f k; insert_keys f keys
  end.

Definition div_ceil (a b : N) : N := (a + b - 1) / b.

Definition build (keys : list N) (hint bits_per_key : N) : option BlockedFilter :=
  let bits := N.max (clamp_filter_bits bits_per_key) 1 in
  let n := N.max (div_ceil (hint ⊠ bits) BLOCK_BITS) 1 in
  insert_keys (mkFilter (replicate (N.to_nat n) (replicate BLOCK_WORDS 0))) keys.

Definition build_with (keys : list N) (hint bits_per_key : N) : option (option BlockedFilter) :=
  let bits := clamp_filter_bits bits_per_key in
  if bits =? 0 then Some None else Some <$> build keys hint bits.

Definition may_contain (f : BlockedFilter) (key : N) : option bool :=
  '(block, pattern) ← locate f key;
  b ← blocks f !! block;
  Some (forallb id (zip_with (fun w bits => N.land w bits =? bits) b pattern)).

Definition heap_bytes (f : BlockedFilter) : nat := length (blocks f) * BLOCK_WORDS * 8.

Definition encode (f : BlockedFilter) : bytes :=
  put_u32 MAGIC ++ put_u32 (N.of_nat (length (blocks f))) ++
  mjoin (put_u64 <$> mjoin (blocks f)).

Inductive filter_error :=
| FilterTruncated
| FilterBadMagic (magic : N)
| FilterLengthMismatch (count : N) (got : nat).

(** The blocks of [decode]: [count] blocks of [BLOCK_WORDS] words. *)
Definition decode_blocks (count : nat) (data : bytes) : list (list N) :=
  (fun b => le_get <$> chunks 8 BLOCK_WORDS b) <$> chunks (8 * BLOCK_WORDS) count data.

Definition decode (data : bytes) : result filter_error BlockedFilter :=
  if (length data <? 8)%nat then Err FilterTruncated
  else
    let magic := le_get (take 4 data) in
    if negb (magic =? MAGIC) then Err (FilterBadMagic magic)
    else
      let count := le_get (take 4 (drop 4 data)) in
      if negb (N.of_nat (length data) =? 8 + count * 64) then
        Err (FilterLengthMismatch count (length data))
      else Ok (mkFilter (decode_blocks (N.to_nat count) (drop 8 data))).

(** ** No false negatives *)

(** A word list that includes every bit of the pattern. *)
Definition includes (b pattern : list N) : Prop := Forall2 (fun w p => N.land w p = p) b pattern.

Record filter_wf (f : BlockedFilter) : Prop := {
  fw_nonempty : blocks f ≠ [];
  fw_words : Forall (fun b => length b = BLOCK_WORDS) (blocks f);
}.

Lemma pattern_loop_length k h p : length (pattern_loop k h p) = length p.
Proof.
  revert h p. induction k as [|k IH]; intros h p; cbn [pattern_loop]; [done|].
  by rewrite IH, length_alter.
Qed.

Lemma includes_lor b p : length b = length p → includes (zip_with N.lor b p) p.
Proof.
  unfold includes. revert p. induction b as [|w b IH]; intros [|q p] H; cbn in *; try lia; constructor.
  - apply N.bits_inj. intros i. rewrite N.land_spec, N.lor_spec. btauto.
  - apply IH. lia.
Qed.

Lemma includes_mono b p q : length q = length b → includes b p → includes (zip_with N.lor b q) p.
Proof.
  intros H I. revert q H. induction I as [|w x b p Hw I IH]; intros [|y q] H; cbn in *; try lia; constructor.
  - rewrite <-Hw at 2. apply N.bits_inj. intros i.
    apply (f_equal (fun n => N.testbit n i)) in Hw. rewrite N.land_spec in Hw.
    rewrite !N.land_spec, N.lor_spec. destruct (N.testbit w i), (N.testbit x i), (N.testbit y i); done.
  - apply IH. lia.
Qed.

Lemma includes_test b p :
  includes b p → forallb id (zip_with (fun w bits => N.land w bits =? bits) b p) = true.
Proof. induction 1 as [|w x b p Hw _ IH]; cbn; [done|]. by rewrite Hw, N.eqb_refl, IH. Qed.

Section locate.
Context (f : BlockedFilter) (W : filter_wf f).

Lemma locate_spec key :
  ∃ i p b, locate f key = Some (i, p) ∧ blocks f !! i = Some b ∧
    length p = BLOCK_WORDS ∧ length b = BLOCK_WORDS.
Proof using W.
  destruct W as [H1 H2]. unfold locate. rewrite bool_decide_eq_false_2 by done.
  set (i := N.to_nat _). assert (i < length (blocks f))%nat as Hi.
  { destruct (blocks f) as [|b bs]; [done|].
    pose proof (N.mod_lt (N.shiftr (mix key) 32) (N.of_nat (length (b :: bs)))).
    unfold i. cbn [length] in *. lia. }
  destruct (lookup_lt_is_Some_2 _ _ Hi) as [b Hb].
  exists i. do 2 eexists. split; [done|]. split; [done|]. split.
  - by rewrite pattern_loop_length.
  - rewrite Forall_forall in H2. apply H2. by eapply list_elem_of_lookup_2.
Qed.

Lemma locate_insert i c k : locate (mkFilter (<[i := c]> (blocks f))) k = locate f k.
Proof using W.
  unfold locate. cbn [blocks]. rewrite length_insert, !bool_decide_eq_false_2; [done|apply W|].
  intros E. apply (fw_nonempty _ W), nil_length_inv.
  by rewrite <-(length_insert (blocks f) i c), E.
Qed.
End locate.

(** A filter whose block for [k] includes [k]'s pattern. *)
Definition holds (f : BlockedFilter) (k : N) : Prop :=
  ∃ i p b, locate f k = Some (i, p) ∧ blocks f !! i = Some b ∧ includes b p.

Lemma holds_may_contain f k : holds f k → may_contain f k = Some true.
Proof.
  intros (i & p & b & Hl & Hb & I). unfold may_contain. rewrite Hl. cbn. rewrite Hb. cbn.
  by rewrite includes_test.
Qed.

Lemma filter_insert_spec f key :
  filter_wf f → ∃ f', filter_insert f key = Some f' ∧ filter_wf f' ∧
    holds f' key ∧ ∀ k, holds f k → holds f' k.
Proof.
  intros W. destruct (locate_spec f W key) as (i & p & b & Hl & Hb & Hp & Hn).
  unfold filter_insert. rewrite Hl. cbn [mbind option_bind]. rewrite Hb. cbn [mbind option_bind].
  pose proof (lookup_lt_Some _ _ _ Hb) as Hi.
  eexists. split; [done|]. split_and!.
  - split; cbn.
    + intros E. apply (fw_nonempty _ W), nil_length_inv.
      by rewrite <-(length_insert (blocks f) i (zip_with N.lor b p)), E.
    + apply Forall_insert; [apply W|]. rewrite length_zip_with. lia.
  - exists i, p, (zip_with N.lor b p). rewrite locate_insert by done. cbn.
    rewrite list_lookup_insert_eq by done. split_and!; [done|done|].
    apply includes_lor. congruence.
  - intros k (j & q & c & Hk & Hc & I). exists j, q. rewrite locate_insert by done. cbn.
    destruct (decide (i = j)) as [<-|Hij].
    + rewrite list_lookup_insert_eq by done. eexists. split_and!; [done|done|].
      simplify_eq. apply includes_mono; [congruence|done].
    + rewrite list_lookup_insert_ne by done. eauto.
Qed.

Lemma insert_keys_spec keys : ∀ f,
  filter_wf f → ∃ f', insert_keys f keys = Some f' ∧ filter_wf f' ∧
    ∀ k, holds f k ∨ k ∈ keys → holds f' k.
Proof.
  induction keys as [|key keys IH]; intros f W; cbn [insert_keys].
  { exists f. split_and!; [done|done|]. set_solver. }
  destruct (filter_insert_spec f key W) as (f1 & -> & W1 & H1 & M1). cbn [mbind option_bind].
  destruct (IH f1 W1) as (f2 & -> & W2 & M2). exists f2. split_and!; [done|done|].
  intros k [Hk|[->|Hk]%elem_of_cons]; apply M2; auto.
Qed.

Lemma build_spec keys hint bits :
  ∃ f, build keys hint bits = Some f ∧ filter_wf f ∧ ∀ k, k ∈ keys → holds f k.
Proof.
  unfold build. set (n := N.max (div_ceil _ _) 1).
  destruct (insert_keys_spec keys (mkFilter (replicate (N.to_nat n) (replicate BLOCK_WORDS 0))))
    as (f & -> & W & M).
  - split; cbn [blocks].
    + intros E%(f_equal length). rewrite length_replicate in E. cbn in E. lia.
    + by apply Forall_replicate.
  - exists f. auto.
Qed.

(** C38. Building a filter never panics, whatever the size hint and the bits per
    key, and the filter never answers "definitely absent" for a key it was built
    from; with zero bits no filter is built at all. *)
Theorem filter_no_false_negatives (keys : list N) (hint bits_per_key : N) :
  (∃ f, build keys hint bits_per_key = Some f ∧
     (∀ k, is_Some (may_contain f k)) ∧
     ∀ k, k ∈ keys → may_contain f k = Some true) ∧
  (build_with keys hint bits_per_key = Some None ↔ bits_per_key = 0) ∧
  ∀ f, build_with keys hint bits_per_key = Some (Some f) →
    ∀ k, k ∈ keys → may_contain f k = Some true.
Proof.
  split_and!.
  - destruct (build_spec keys hint bits_per_key) as (f & -> & W & M).
    exists f. split_and!; [done| |].
    + intros k. destruct (locate_spec f W k) as (i & p & b & Hl & Hb & _).
      unfold may_contain. rewrite Hl. cbn. rewrite Hb. by eexists.
    + intros k Hk. by apply holds_may_contain, M.
  - unfold build_with. destruct (N.eqb_spec (clamp_filter_bits bits_per_key) 0) as [E|E];
      unfold clamp_filter_bits in *.
    + split; [lia|done].
    + destruct (build_spec keys hint (N.min bits_per_key 64)) as (f & -> & _).
      split; [done|]. lia.
  - unfold build_with. intros f. destruct (_ =? 0); [done|].
    destruct (build_spec keys hint (clamp_filter_bits bits_per_key)) as (f' & -> & W & M).
    intros [= <-] k Hk. by apply holds_may_contain, M.
Qed.

(** ** Encoding *)

Definition filter_encodable (f : BlockedFilter) : Prop :=
  Forall (fun b => length b = BLOCK_WORDS ∧ Forall (fun w => w < u64_limit) b) (blocks f) ∧
  N.of_nat (length (blocks f)) < u32_limit.

Lemma mjoin_words (bs : list (list N)) :
  mjoin (put_u64 <$> mjoin bs) = mjoin ((fun b => mjoin (put_u64 <$> b)) <$> bs).
Proof.
  induction bs as [|b bs IH]; [done|].
  by rewrite (mjoin_cons b bs), fmap_app, fmap_cons, join_app, IH.
Qed.

Lemma decode_blocks_encode f :
  filter_encodable f →
  decode_blocks (length (blocks f)) (mjoin (put_u64 <$> mjoin (blocks f))) = blocks f.
Proof.
  intros [H _]. unfold decode_blocks. rewrite mjoin_words.
  rewrite <-(length_fmap (fun b => mjoin (put_u64 <$> b)) (blocks f)), chunks_concat.
  - rewrite <-list_fmap_compose.
    rewrite <-(list_fmap_id (blocks f)) at 2. apply list_fmap_ext. intros i b Hb.
    rewrite Forall_forall in H. destruct (H b) as [Hn Hw]; [by eapply list_elem_of_lookup_2|].
    unfold compose. rewrite <-Hn. by apply put_words_chunks.
  - apply Forall_fmap. eapply Forall_impl; [exact H|]. intros b [Hb _]. cbn.
    by rewrite words_length, Hb.
Qed.

Lemma encode_length f :
  Forall (fun b => length b = BLOCK_WORDS) (blocks f) → length (encode f) = (8 + length (blocks f) * 64)%nat.
Proof.
  intros H. unfold encode. rewrite !length_app, !put_u32_length, words_length, (concat_length 8) by done. lia.
Qed.

Lemma decode_encode f : filter_encodable f → decode (encode f) = Ok f.
Proof.
  intros H. pose proof H as [Hw Hn]. unfold decode, encode.
  set (body := mjoin _).
  assert (length body = (length (blocks f) * 64)%nat) as Hl.
  { unfold body. rewrite words_length, (concat_length 8); [lia|].
    eapply Forall_impl; [exact Hw|]. by intros b [? _]. }
  rewrite !length_app, !put_u32_length.
  destruct (Nat.ltb_spec (4 + (4 + length body)) 8); [lia|].
  rewrite (take_app_length' (put_u32 MAGIC)) by reflexivity.
  rewrite (drop_app_length' (put_u32 MAGIC)) by reflexivity.
  rewrite (take_app_length' (put_u32 (N.of_nat _))) by reflexivity.
  rewrite !put_u32_get by done. rewrite N.eqb_refl. cbn [negb].
  destruct (N.eqb_spec (N.of_nat (4 + (4 + length body))) (8 + N.of_nat (length (blocks f)) * 64)) as [_|E];
    [|lia].
  cbn [negb]. rewrite app_assoc, drop_app_length' by (by rewrite length_app).
  rewrite Nat2N.id. unfold body. rewrite decode_blocks_encode by done. by destruct f.
Qed.

(** Built filters are encodable: their words are 64 bits wide. *)
Definition words_small (b : list N) : Prop := Forall (fun w => w < u64_limit) b.

Lemma lor_small a b : a < u64_limit → b < u64_limit → N.lor a b < u64_limit.
Proof.
  assert (∀ x, x < u64_limit ↔ N.shiftr x 64 = 0) as E.
  { intros x. rewrite N.shiftr_div_pow2. unfold u64_limit. change (2 ^ 64) with 18446744073709551616.
    split; [apply N.div_small|]. pose proof (N.div_mod x 18446744073709551616).
    pose proof (N.mod_lt x 18446744073709551616). lia. }
  rewrite !E, N.shiftr_lor. intros -> ->. done.
Qed.

Lemma pattern_loop_small k : ∀ h p, words_small p → words_small (pattern_loop k h p).
Proof.
  induction k as [|k IH]; intros h p Hp; cbn [pattern_loop]; [done|]. apply IH.
  apply Forall_alter; [done|]. intros w _ Hw. apply lor_small; [done|].
  rewrite N.shiftl_1_l. apply (N.pow_lt_mono_r 2); [done|]. by apply N.mod_lt.
Qed.

Lemma zip_lor_small b p : words_small b → words_small p → words_small (zip_with N.lor b p).
Proof.
  intros Hb. revert p. induction Hb as [|w b Hw _ IH]; intros p Hp; [constructor|].
  destruct Hp as [|q p Hq Hp]; [constructor|]. cbn. constructor; [by apply lor_small|]. by apply IH.
Qed.

Lemma insert_keys_small keys : ∀ f f',
  Forall words_small (blocks f) → insert_keys f keys = Some f' → Forall words_small (blocks f').
Proof.
  induction keys as [|k keys IH]; intros f f' Hf; cbn [insert_keys]; [by intros [= <-]|].
  unfold filter_insert, locate. destruct (bool_decide _); [done|]. cbn [mbind option_bind].
  destruct (blocks f !! _) as [b|] eqn:Hb; [|done]. cbn [mbind option_bind]. apply IH.
  cbn [blocks]. apply Forall_insert; [done|]. apply zip_lor_small.
  - rewrite Forall_forall in Hf. apply Hf. by eapply list_elem_of_lookup_2.
  - apply pattern_loop_small. by apply Forall_replicate.
Qed.

Lemma build_encodable keys hint bits f :
  build keys hint bits = Some f → N.of_nat (length (blocks f)) < u32_limit → filter_encodable f.
Proof.
  intros Hb Hn. destruct (build_spec keys hint bits) as (f' & E & [_ Hw] & _). rewrite Hb in E. simplify_eq.
  split; [|done]. unfold build in Hb. apply insert_keys_small in Hb; cbn [blocks].
  - apply Forall_and. auto.
  - apply Forall_replicate. by apply Forall_replicate.
Qed.

(** A built filter survives encoding: as long as its block count fits the 32
    bits of the header, [decode] of the encoded bytes gives the filter back, and
    hence the same answers. *)
Theorem filter_roundtrip (keys : list N) (hint bits_per_key : N) (f : BlockedFilter) :
  build keys hint bits_per_key = Some f → N.of_nat (length (blocks f)) < u32_limit →
  decode (encode f) = Ok f.
Proof. intros Hb Hn. by eapply decode_encode, build_encodable. Qed.

Lemma filter_roundtrip_witness :
  ∃ f, build [3; 70000] 2 8 = Some f ∧ decode (encode f) = Ok f.
Proof.
  eexists. split; [by vm_compute|]. apply (filter_roundtrip [3; 70000] 2 8); by vm_compute.
Defined.

(** [decode] checks the magic number and the exact length, nothing more: a blob
    that announces zero blocks is accepted, and the first probe of the decoded
    filter panics (the remainder by the number of blocks). Any other accepted
    blob yields a filter every probe of which returns. *)
Theorem decode_accepts_empty_filter :
  (∃ f, decode (put_u32 MAGIC ++ put_u32 0) = Ok f ∧ ∀ k, may_contain f k = None) ∧
  ∀ data f, decode data = Ok f → blocks f = [] ∨ ∀ k, is_Some (may_contain f k).
Proof.
  split; [by exists (mkFilter [])|].
  intros data f. unfold decode. repeat (case_match; [done|]).
  intros [= <-]. cbn [blocks]. destruct (decide (decode_blocks
    (N.to_nat (le_get (take 4 (drop 4 data)))) (drop 8 data) = [])) as [E|E]; [by left|right].
  intros k. destruct (locate_spec (mkFilter (decode_blocks
    (N.to_nat (le_get (take 4 (drop 4 data)))) (drop 8 data)))) with k as (i & p & b & Hl & Hb & _).
  - split; [done|]. cbn [blocks]. unfold decode_blocks.
    apply Forall_fmap, Forall_true. intros c. cbn. done.
  - unfold may_contain. rewrite Hl. cbn. cbn in Hb. rewrite Hb. by eexists.
Qed.
