(* ===== verification/TierPolicy.v ===== *)
(** Which runs to merge next: [src/storage/tier.rs].

    A level is a [u8], a stack a list of levels oldest first, a [Range] a pair of
    indices. The nested loop of [lowest_stretch] is the recursion on the rest of
    the stack; the inner loop is [stretch_end]. *)

From S2P Require Import Prelude.

Definition DEFAULT_TIER_FANOUT : nat := 10.

(** The inner loop: the end of the stretch of runs at level [l]. *)
Fixpoint stretch_end (l : N) (rest : list N) (end_ : nat) : nat :=
  match rest with
  | l' :: rest => if l' =? l then stretch_end l rest (S end_) else end_
  | [] => end_
  end.

(** The outer loop from [start]; [fuel] bounds the number of stretches left. *)
Fixpoint stretch_loop (fuel : nat) (levels : list N) (min start : nat) (best : option (nat * nat))
    : option (nat * nat) :=
  match fuel with
  | O => best
  | S fuel =>
      match levels !! start with
      | None => best
      | Some l =>
          let end_ := stretch_end l (drop start levels) start in
          let best :=
            if (min <=? end_ - start)%nat then
              if match best with
                 | None => true
                 | Some b => from_option (fun lb => l <? lb) false (levels !! b.1)
                 end
              then Some (start, end_) else best
            else best in
          stretch_loop fuel levels min end_ best
      end
  end.

Definition lowest_stretch (levels : list N) (min : nat) : option (nat * nat) :=
  stretch_loop (length levels) levels min 0 None.

Definition pick_merge (levels : list N) (fanout max_runs : nat) : option (nat * nat) :=
  let fanout := Nat.max fanout 2 in
  match lowest_stretch levels fanout with
  | Some (start, _) => Some (start, start + fanout)%nat
  | None => if (max_runs <=? length levels)%nat then lowest_stretch levels 2 else None
  end.

(** ** Stretches *)

(** [a..b] is a stretch: non-empty, inside the stack, at a single level. *)
Definition stretch (levels : list N) (a b : nat) (l : N) : Prop :=
  (a < b ≤ length levels)%nat ∧ ∀ i, (a ≤ i < b)%nat → levels !! i = Some l.

(** The stretch cannot be extended upwards. *)
Definition ends_at (levels : list N) (b : nat) (l : N) : Prop := levels !! b ≠ Some l.

Lemma stretch_end_spec l rest e :
  let b := stretch_end l rest e in
  (e ≤ b ≤ e + length rest)%nat ∧
  (∀ i, (e ≤ i < b)%nat → rest !! (i - e)%nat = Some l) ∧ rest !! (b - e)%nat ≠ Some l.
Proof.
  cbn. revert e. induction rest as [|l' rest IH]; intros e; cbn [stretch_end length].
  { split_and!; [lia|lia|intros i Hi; lia|done]. }
  destruct (N.eqb_spec l' l) as [->|Hne].
  - destruct (IH (S e)) as (H1 & H2 & H3). split_and!; [lia|lia| |].
    + intros i Hi. destruct (decide (i = e)) as [->|].
      { by rewrite Nat.sub_diag. }
      replace (i - e)%nat with (S (i - S e)) by lia. apply H2. lia.
    + replace (stretch_end l rest (S e) - e)%nat with (S (stretch_end l rest (S e) - S e)) by lia.
      done.
  - split_and!; [lia|lia|intros i Hi; lia|]. rewrite Nat.sub_diag. cbn. congruence.
Qed.

Lemma stretch_at levels start l :
  levels !! start = Some l →
  let b := stretch_end l (drop start levels) start in
  stretch levels start b l ∧ ends_at levels b l.
Proof.
  intros Hl. cbn. pose proof (lookup_lt_Some _ _ _ Hl).
  destruct (stretch_end_spec l (drop start levels) start) as (H1 & H2 & H3).
  set (b := stretch_end _ _ _) in *. rewrite length_drop in H1.
  assert (start < b)%nat.
  { destruct (decide (b = start)) as [E|]; [|lia]. rewrite E, Nat.sub_diag, lookup_drop in H3.
    by rewrite Nat.add_0_r in H3. }
  split; [split; [lia|]|].
  - intros i Hi. specialize (H2 i Hi). rewrite lookup_drop in H2.
    by replace (start + (i - start))%nat with i in H2 by lia.
  - unfold ends_at. rewrite lookup_drop in H3.
    by replace (start + (b - start))%nat with b in H3 by lia.
Qed.

(** What the loop has established about the stretches that start before [start]:
    [best] is the oldest of the lowest ones with at least [min] runs. *)
Record best_ok (levels : list N) (min start : nat) (best : option (nat * nat)) : Prop := {
  bo_some a b : best = Some (a, b) → ∃ l, stretch levels a b l ∧ ends_at levels b l ∧
    (min ≤ b - a)%nat ∧ (b ≤ start)%nat ∧
    ∀ a' b' l', stretch levels a' b' l' → (b' ≤ start)%nat → (min ≤ b' - a')%nat →
      l <= l' ∧ (l' = l → a ≤ a')%nat;
  bo_none : best = None → ∀ a b l, stretch levels a b l → (b ≤ start)%nat → (b - a < min)%nat;
}.

(** [start] begins a stretch: the run before it is at another level. *)
Definition boundary (levels : list N) (start : nat) : Prop :=
  ∀ k, (0 < start)%nat → levels !! (start - 1)%nat = Some k → ends_at levels start k.

(** A stretch that ends inside the one at [start] lies before it or in it. *)
Lemma stretch_split levels start e l a b l' :
  boundary levels start → stretch levels start e l → stretch levels a b l' → (b ≤ e)%nat →
  (b ≤ start)%nat ∨ ((start ≤ a)%nat ∧ l' = l).
Proof.
  intros Hp [Hse Hs] [Hab Ha] He. destruct (decide (b ≤ start)%nat) as [|Hb]; [by left|right].
  assert (l' = l) as ->.
  { pose proof (Ha (b - 1)%nat ltac:(lia)) as H1. rewrite (Hs (b - 1)%nat ltac:(lia)) in H1. by simplify_eq. }
  split; [|done]. destruct (decide (start ≤ a)%nat) as [|Hlt]; [done|]. exfalso.
  apply (Hp l); [lia|apply Ha; lia|apply Hs; lia].
Qed.

Section step.
Context (levels : list N) (min start e : nat) (l : N).
Context (Hb : boundary levels start) (S : stretch levels start e l) (E : ends_at levels e l).

Lemma best_skip best :
  (e - start < min)%nat → best_ok levels min start best → best_ok levels min e best.
Proof using Hb S.
  intros Hm [B1 B2]. split.
  - intros a b H. destruct (B1 a b H) as (k & Hk1 & Hk2 & Hk3 & Hk4 & Hk5).
    exists k. split_and!; try done; [destruct S; lia|].
    intros a' b' l' H1 H2 H3.
    destruct (stretch_split _ _ _ _ _ _ _ Hb S H1 H2) as [?|[??]]; [by apply Hk5 with b'|lia].
  - intros H a b k H1 H2.
    destruct (stretch_split _ _ _ _ _ _ _ Hb S H1 H2) as [?|[??]]; [by apply B2 with k|lia].
Qed.

Lemma best_take best :
  (min ≤ e - start)%nat → best_ok levels min start best →
  (∀ a b k, best = Some (a, b) → levels !! a = Some k → l < k) →
  best_ok levels min e (Some (start, e)).
Proof using Hb S E.
  intros Hm [B1 B2] Hlt. split; [|done]. intros a b [= <- <-]. exists l. split_and!; try done.
  intros a' b' l' H1 H2 H3.
  destruct (stretch_split _ _ _ _ _ _ _ Hb S H1 H2) as [Hle|[? ->]]; [|lia].
  destruct best as [[a b]|]; [|pose proof (B2 eq_refl _ _ _ H1 Hle); lia].
  destruct (B1 a b eq_refl) as (k & [Hab Hk1] & _ & _ & _ & Hk5).
  pose proof (Hlt a b k eq_refl (Hk1 a ltac:(lia))).
  destruct (Hk5 _ _ _ H1 Hle H3). lia.
Qed.

Lemma best_keep a b k :
  best_ok levels min start (Some (a, b)) → levels !! a = Some k → k <= l →
  best_ok levels min e (Some (a, b)).
Proof using Hb S.
  intros [B1 _] Hk Hle. split; [|done]. intros ?? [= <- <-].
  destruct (B1 a b eq_refl) as (k' & Hs & He & Hm & Hst & Hbest).
  assert (k' = k) as -> by (destruct Hs as [? Hs]; specialize (Hs a ltac:(lia)); congruence).
  exists k. split_and!; try done; [destruct S; lia|].
  intros a' b' l' H1 H2 H3.
  destruct (stretch_split _ _ _ _ _ _ _ Hb S H1 H2) as [?|[? ->]]; [by apply Hbest with b'|].
  split; [done|]. destruct Hs. lia.
Qed.
End step.

Lemma stretch_loop_spec levels min fuel : ∀ start best,
  (length levels - start ≤ fuel)%nat → (start ≤ length levels)%nat → boundary levels start →
  best_ok levels min start best →
  best_ok levels min (length levels) (stretch_loop fuel levels min start best).
Proof.
  induction fuel as [|fuel IH]; intros start best Hf Hs Hb B; cbn [stretch_loop].
  { by replace (length levels) with start by lia. }
  destruct (levels !! start) as [l|] eqn:Hl; last first.
  { apply lookup_ge_None in Hl. by replace (length levels) with start by lia. }
  destruct (stretch_at levels start l Hl) as [S E]. set (e := stretch_end _ _ _) in *.
  pose proof S as [Hse Hlev]. apply IH; [lia|lia| |].
  { intros k _ Hk. rewrite Hlev in Hk by lia. by simplify_eq. }
  destruct (Nat.leb_spec min (e - start)) as [Hm|Hm]; [|by eapply best_skip].
  destruct best as [[a b]|]; [|by eapply best_take].
  destruct (bo_some _ _ _ _ B a b eq_refl) as (k & [Hab Hk] & _). cbn [fst].
  rewrite (Hk a) by lia. cbn [from_option]. destruct (N.ltb_spec l k).
  - eapply best_take; try done. intros ??? [= <- <-] Hk'. rewrite Hk in Hk' by lia. by simplify_eq.
  - eapply best_keep; try done. apply Hk. lia.
Qed.

Lemma lowest_stretch_spec levels min :
  best_ok levels min (length levels) (lowest_stretch levels min).
Proof.
  apply stretch_loop_spec; [lia|lia| |].
  - intros k H. lia.
  - split; [done|]. intros _ a b l [H _] H'. lia.
Qed.

(** [a..b] has the lowest level of the stretches of at least [min] runs, and is the oldest
    of those at that level. *)
Definition lowest_oldest (levels : list N) (min a : nat) (l : N) : Prop :=
  ∀ a' b' l', stretch levels a' b' l' → (min ≤ b' - a')%nat → l <= l' ∧ (l' = l → a ≤ a')%nat.

(** C39. What the merge policy picks, exactly. It picks a contiguous, in-range window of
    runs at one level. If a level is due, that is if some stretch at one level has
    [max fanout 2] runs, the window is exactly the oldest [max fanout 2] runs of the lowest
    level that is due. If none is, it picks only when the stack has reached [max_runs]
    runs, and then all of the oldest stretch of two or more runs at the lowest level that
    has one, which is shorter than the fan-out. It leaves the stack alone only when no
    level is due and either the stack is below [max_runs] or no two adjacent runs share a
    level. *)
Theorem pick_merge_correct (levels : list N) (fanout max_runs : nat) :
  match pick_merge levels fanout max_runs with
  | Some (a, b) => ∃ l, stretch levels a b l ∧
      ((b = a + Nat.max fanout 2)%nat ∧ lowest_oldest levels (Nat.max fanout 2) a l ∨
       (∀ a' b' l', stretch levels a' b' l' → (b' - a' < Nat.max fanout 2)%nat) ∧ (max_runs ≤ length levels)%nat ∧
         (2 ≤ b - a)%nat ∧ ends_at levels b l ∧ lowest_oldest levels 2 a l)
  | None => (∀ a b l, stretch levels a b l → (b - a < Nat.max fanout 2)%nat) ∧
      ((length levels < max_runs)%nat ∨ ∀ a b l, stretch levels a b l → (b - a < 2)%nat)
  end.
Proof.
  unfold pick_merge. set (F := Nat.max fanout 2).
  pose proof (lowest_stretch_spec levels F) as [B1 B2].
  assert (∀ a b l, stretch levels a b l → (b ≤ length levels)%nat) as Hr by (intros a b l [? _]; lia).
  destruct (lowest_stretch levels F) as [[a b]|].
  - destruct (B1 a b eq_refl) as (l & [Hab Hl] & _ & Hm & _ & Hbest). exists l. split; [|left; split; [done|]].
    + split; [lia|]. intros i Hi. apply Hl. lia.
    + intros a' b' l' H ?. eapply Hbest; eauto.
  - specialize (B2 eq_refl). destruct (Nat.leb_spec max_runs (length levels)).
    + pose proof (lowest_stretch_spec levels 2) as [C1 C2].
      destruct (lowest_stretch levels 2) as [[a b]|].
      * destruct (C1 a b eq_refl) as (l & Hs & He & Hm & Hb & Hbest). exists l. split; [done|right].
        split_and!; try done; [eauto|]. intros a' b' l' H1 H2. eapply Hbest; eauto.
      * split; [eauto|right]. intros a b l Hs. by apply (C2 eq_refl a b l); eauto.
    + split; [eauto|left; lia].
Qed.
