(* ===== verification/Varint.v ===== *)
(** LEB128 varints: [put_varint] and [get_varint] of [src/storage/registry.rs]. *)

From S2P Require Import Prelude Bytes.

Inductive varint_error := VarintTruncated | VarintTooLong.

(** [put_varint]; a [u64] takes at most ten bytes. *)
Fixpoint put_varint_loop (fuel : nat) (v : N) : bytes :=
  match fuel with
  | O => []
  | S fuel =>
      if 0x80 <=? v then N.lor (v `mod` 256) 0x80 :: put_varint_loop fuel (N.shiftr v 7)
      else [v `mod` 256]
  end.

Definition put_varint (v : N) : bytes := put_varint_loop 10 v.

(** [get_varint]: the value and the next offset. The [shift < 64] check leaves the
    loop after ten bytes at the latest, so ten is enough fuel. *)
Fixpoint get_varint_loop (fuel : nat) (data : bytes) (i : nat) (v shift : N)
    : result varint_error (N * nat) :=
  match fuel with
  | O => Err VarintTooLong
  | S fuel =>
      match data !! i with
      | None => Err VarintTruncated
      | Some b =>
          let v := N.lor v (wrap64 (N.shiftl (N.land b 0x7f) shift)) in
          if b <? 0x80 then Ok (v, S i)
          else if shift + 7 <? 64 then get_varint_loop fuel data (S i) v (shift + 7)
          else Err VarintTooLong
      end
  end.

Definition get_varint (data : bytes) (at_ : nat) : result varint_error (N * nat) :=
  get_varint_loop 10 data at_ 0 0.

(** ** Byte facts, by exhaustion *)

Lemma low_byte_facts b :
  b < 256 → 128 <= N.lor b 128 < 256 ∧ N.land (N.lor b 128) 127 = b `mod` 128.
Proof.
  intros H.
  assert (Forall (fun b => (128 <= N.lor b 128 < 256) ∧ N.land (N.lor b 128) 127 = b `mod` 128)
    (N.of_nat <$> seq 0 256)) as F.
  { apply (bool_decide_unpack _). by vm_compute. }
  rewrite Forall_forall in F. apply F. apply list_elem_of_fmap.
  exists (N.to_nat b). rewrite elem_of_seq. lia.
Qed.

Lemma lor_add a x s : a < 2 ^ s → N.lor a (N.shiftl x s) = a + x * 2 ^ s.
Proof.
  intros Ha.
  assert (N.land a (N.shiftl x s) = 0) as H0.
  { rewrite <-(N.mod_small a (2 ^ s)) by done.
    apply N.bits_inj_0. intros i. rewrite N.land_spec. destruct (N.lt_ge_cases i s).
    - by rewrite N.shiftl_spec_low, andb_false_r.
    - by rewrite N.mod_pow2_bits_high. }
  by rewrite <-N.lxor_lor, <-N.add_nocarry_lxor, N.shiftl_mul_pow2.
Qed.

(** ** Round trip *)

Lemma put_varint_loop_ok fuel v : Forall byte_ok (put_varint_loop fuel v).
Proof.
  revert v. induction fuel as [|fuel IH]; intros v; cbn [put_varint_loop]; [constructor|].
  pose proof (N.mod_upper_bound v 256 ltac:(done)).
  destruct (_ <=? _); constructor; [|done| |constructor]; [|done].
  apply low_byte_facts. done.
Qed.

Lemma put_varint_ok v : Forall byte_ok (put_varint v).
Proof. apply put_varint_loop_ok. Qed.

Lemma get_put_loop fuel : ∀ pre post v acc s,
  (0 < fuel)%nat → s + 7 * N.of_nat fuel = 70 → acc < 2 ^ s → v * 2 ^ s < u64_limit →
  get_varint_loop fuel (pre ++ put_varint_loop fuel v ++ post) (length pre) acc s =
    Ok (acc + v * 2 ^ s, (length pre + length (put_varint_loop fuel v))%nat).
Proof.
  induction fuel as [|fuel IH]; intros pre post v acc s Hf Hs Ha Hv; [lia|].
  cbn [put_varint_loop get_varint_loop]. destruct (N.leb_spec 128 v) as [Hge|Hlt].
  - cbn [app]. rewrite list_lookup_middle by done. pose proof (N.mod_upper_bound v 256 ltac:(done)) as Hm.
    destruct (low_byte_facts (v `mod` 256) Hm) as [Hb ->].
    destruct (N.ltb_spec (N.lor (v `mod` 256) 128) 128); [lia|].
    assert (v `mod` 256 `mod` 128 = v `mod` 128) as ->.
    { change 256 with (128 * 2). by rewrite N.Div0.mod_mul_r, N.mul_comm, N.Div0.mod_add, N.Div0.mod_mod. }
    assert (v = 128 * (v / 128) + v `mod` 128) as Hdm by apply N.Div0.div_mod.
    pose proof (N.mod_upper_bound v 128 ltac:(done)).
    assert (s + 7 < 64) as Hs7.
    { apply (N.pow_lt_mono_r_iff 2); [lia|]. change (2 ^ 64) with u64_limit.
      rewrite N.pow_add_r. change (2 ^ 7) with 128. nia. }
    destruct (N.ltb_spec (s + 7) 64); [|lia].
    assert (wrap64 (N.shiftl (v `mod` 128) s) = N.shiftl (v `mod` 128) s) as ->.
    { unfold wrap64. apply N.mod_small. rewrite N.shiftl_mul_pow2. nia. }
    rewrite lor_add by done. rewrite (cons_middle _ pre), (app_assoc pre).
    change 128 with (2 ^ 7) at 1. rewrite N.shiftr_div_pow2. change (2 ^ 7) with 128.
    replace (S (length pre)) with (length (pre ++ [N.lor (v `mod` 256) 128])) by (rewrite length_app; cbn; lia).
    destruct fuel as [|fuel']; [lia|].
    rewrite IH; [|lia|lia| |].
    + do 2 f_equal; [|rewrite length_app; cbn [length]; lia].
      rewrite N.pow_add_r. change (2 ^ 7) with 128. nia.
    + rewrite N.pow_add_r. change (2 ^ 7) with 128. nia.
    + rewrite N.pow_add_r. change (2 ^ 7) with 128. nia.
  - cbn [app length]. rewrite list_lookup_middle by done. rewrite N.mod_small by lia.
    destruct (N.ltb_spec v 128); [|lia].
    change 127 with (N.ones 7). rewrite N.land_ones. change (2 ^ 7) with 128. rewrite N.mod_small by done.
    unfold wrap64. rewrite N.mod_small by (by rewrite N.shiftl_mul_pow2).
    rewrite lor_add by done. do 2 f_equal. lia.
Qed.

(** A varint decodes wherever it stands in a buffer. *)
Lemma get_put_varint pre v post :
  v < u64_limit →
  get_varint (pre ++ put_varint v ++ post) (length pre) =
    Ok (v, (length pre + length (put_varint v))%nat).
Proof.
  intros H. unfold get_varint, put_varint.
  rewrite get_put_loop; [|lia|done|done|by rewrite N.mul_1_r].
  by rewrite N.mul_1_r.
Qed.

Lemma put_varint_length v : (1 ≤ length (put_varint v) ≤ 10)%nat.
Proof.
  assert (∀ fuel v, (0 < fuel → 1 ≤ length (put_varint_loop fuel v) ≤ fuel)%nat) as H.
  { induction fuel as [|fuel IH]; intros w Hf; [lia|]. cbn [put_varint_loop].
    destruct (_ <=? _); cbn [length]; [|lia]. destruct fuel; [cbn; lia|].
    specialize (IH (N.shiftr w 7)). lia. }
  apply H. lia.
Qed.

(** ** Reading never runs away *)

Lemma get_varint_loop_bounds fuel : ∀ data i v s w j,
  v < u64_limit → get_varint_loop fuel data i v s = Ok (w, j) →
  (i < j ≤ i + fuel)%nat ∧ (j ≤ length data)%nat ∧ w < u64_limit.
Proof.
  induction fuel as [|fuel IH]; intros data i v s w j Hv; cbn [get_varint_loop]; [done|].
  destruct (data !! i) as [b|] eqn:Hb; [|done]. pose proof (lookup_lt_Some _ _ _ Hb).
  assert (N.lor v (wrap64 (N.shiftl (N.land b 127) s)) < u64_limit) as Hv'.
  { assert (∀ x, x < 2 ^ 64 ↔ N.shiftr x 64 = 0) as Hsh.
    { intros x. rewrite N.shiftr_div_pow2, N.div_small_iff; done. }
    change u64_limit with (2 ^ 64) in *. apply Hsh. rewrite N.shiftr_lor.
    rewrite (proj1 (Hsh v) Hv), N.lor_0_l. apply Hsh. apply N.mod_upper_bound. done. }
  destruct (_ <? 128).
  - intros [= <- <-]. split_and!; [lia|lia|lia|done].
  - destruct (_ <? 64); [|done]. intros H'. apply IH in H'; [|done]. destruct H' as (?&?&?).
    split_and!; [lia|lia|lia|done].
Qed.

Lemma get_varint_bounds data i v j :
  get_varint data i = Ok (v, j) → (i < j ≤ i + 10)%nat ∧ (j ≤ length data)%nat ∧ v < u64_limit.
Proof. by apply get_varint_loop_bounds. Qed.

(** LEB128 varints: every [u64] is written in one to ten bytes and read back from
    wherever it stands, together with the position after it; and whatever bytes
    it is given, the reader only succeeds inside the data, consumes one to ten
    bytes and returns a [u64]. *)
Theorem varint_codec :
  (∀ pre v post, v < u64_limit →
     get_varint (pre ++ put_varint v ++ post) (length pre) = Ok (v, (length pre + length (put_varint v))%nat) ∧
     (1 ≤ length (put_varint v) ≤ 10)%nat) ∧
  (∀ data i v j, get_varint data i = Ok (v, j) →
     (i < j ≤ i + 10)%nat ∧ (j ≤ length data)%nat ∧ v < u64_limit).
Proof.
  split; [|apply get_varint_bounds].
  intros pre v post H. split; [by apply get_put_varint|apply put_varint_length].
Qed.
