(* ===== verification/Blocked.v ===== *)
(** The blocked layout shared by the registry and the member index:
    [src/storage/registry.rs] and, "record for record", [src/storage/members.rs].

    A table is a list of records, a key with an ascending list of values, cut
    into blocks that are each decodable on their own. The writer buffers one
    record and one open block; the reader keeps every block's offset and first
    key on the heap. Arithmetic wraps as in a release build. *)

From S2P Require Import Prelude Bytes Varint.

Notation rec := (N * list N)%type.

(** ** Writing *)

Record Writer := mkWriter {
  w_entries : N;
  w_key : option N;
  w_vals : list N;
  w_body : bytes;
  w_records : N;
  w_first : N;
  w_prev : N;
  w_blocks : bytes;
  w_offsets : list N;
  w_block_bytes : N;
}.

Definition writer_new (block_bytes : N) : Writer :=
  mkWriter 0 None [] [] 0 0 0 [] [] block_bytes.

(** The value gaps of a record, starting from zero. *)
Fixpoint put_gaps (prev : N) (vals : list N) : bytes :=
  match vals with
  | [] => []
  | v :: vals => put_varint (v ⊟ prev) ++ put_gaps v vals
  end.

Definition encode_record (vals : list N) : bytes :=
  put_varint (N.of_nat (length vals)) ++ put_gaps 0 vals.

Definition close_block (w : Writer) : Writer :=
  if w_records w =? 0 then w
  else
    mkWriter (w_entries w) (w_key w) (w_vals w) [] 0 (w_first w) (w_prev w)
      (w_blocks w ++ put_u64 (w_first w) ++ put_u32 (w_records w) ++ w_body w)
      (w_offsets w ++ [N.of_nat (length (w_blocks w))]) (w_block_bytes w).

(** The tail of [close_record]: the first record of a block. *)
Definition start_block (w : Writer) (key : N) (rec : bytes) : Writer :=
  mkWriter (w_entries w) None (w_vals w) rec 1 key key (w_blocks w) (w_offsets w) (w_block_bytes w).

Definition close_record (w : Writer) : Writer :=
  match w_key w with
  | None => w
  | Some key =>
      let rec := encode_record (w_vals w) in
      if 0 <? w_records w then
        let gap := put_varint (key ⊟ w_prev w) in
        if N.of_nat (length (w_body w) + length gap + length rec) <=? w_block_bytes w then
          mkWriter (w_entries w) None (w_vals w) (w_body w ++ gap ++ rec)
            ((w_records w + 1) `mod` u32_limit) (w_first w) key
            (w_blocks w) (w_offsets w) (w_block_bytes w)
        else start_block (close_block w) key rec
      else start_block w key rec
  end.

(** Append a value to the buffered record, or close it and start another: the
    blocked branch of [push]. *)
Definition push_entry (w : Writer) (key val : N) : Writer :=
  let w :=
    if bool_decide (w_key w = Some key) then
      mkWriter (w_entries w) (w_key w) (w_vals w ++ [val]) (w_body w) (w_records w) (w_first w)
        (w_prev w) (w_blocks w) (w_offsets w) (w_block_bytes w)
    else
      let w := close_record w in
      mkWriter (w_entries w) (Some key) [val] (w_body w) (w_records w) (w_first w)
        (w_prev w) (w_blocks w) (w_offsets w) (w_block_bytes w) in
  mkWriter (w_entries w ⊞ 1) (w_key w) (w_vals w) (w_body w) (w_records w) (w_first w)
    (w_prev w) (w_blocks w) (w_offsets w) (w_block_bytes w).

(** The blocked branch of [finish]. *)
Definition finish_blocked (w : Writer) : bytes :=
  let w := close_block (close_record w) in
  put_u64 (w_entries w) ++ put_u64 (N.of_nat (length (w_offsets w))) ++
  mjoin (put_u64 <$> w_offsets w) ++ put_u64 (N.of_nat (length (w_blocks w))) ++ w_blocks w.

(** ** Reading *)

Record BlockedTable := mkTable {
  blocks_at : nat;
  tb_count : N;
  tb_offsets : list N;
  firsts : list N;
}.

Inductive blocked_error :=
| BlobOutside
| BlobTruncated
| NoRoomForOffsets
| LengthMismatch
| OffsetsNotIncreasing
| BlockTooShort (i : nat)
| FirstsNotSorted
| BadVarint (e : varint_error)
| RecordPastBlock
| BlobPanic.

(** [windows(2).all(|w| w[0] < w[1])]. *)
Fixpoint increasing (l : list N) : bool :=
  match l with
  | a :: l' => match l' with b :: _ => (a <? b) && increasing l' | [] => true end
  | [] => true
  end.

(** The loop of [parse] over the blocks: check each header, hoist its first key. *)
Fixpoint parse_firsts (data : bytes) (blocks_at : nat) (i : nat) (offsets : list N)
    : result blocked_error (list N) :=
  match offsets with
  | o :: offsets' =>
      match offsets' with
      | o' :: _ =>
          let at_ := (blocks_at + N.to_nat o)%nat in
          if (12 <=? o' - o) && (at_ + 12 <=? length data)%nat then
            fs ← parse_firsts data blocks_at (S i) offsets';
            Ok (le_get (take 8 (drop at_ data)) :: fs)
          else Err (BlockTooShort i)
      | [] => Ok []
      end
  | [] => Ok []
  end.

(** [parse(data, start..end_)]. The table size is computed with wrapping [usize]
    arithmetic; reading an offset outside the payload would panic. *)
Definition parse (data : bytes) (start end_ : nat) : result blocked_error BlockedTable :=
  if negb ((start <=? end_)%nat && (end_ <=? length data)%nat) then Err BlobOutside
  else
    let payload := take (end_ - start) (drop start data) in
    if (length payload <? 16)%nat then Err BlobTruncated
    else
      let count := le_get (take 8 payload) in
      let blocks := le_get (take 8 (drop 8 payload)) in
      let table := 16 ⊞ (blocks ⊞ 1) ⊠ 8 in
      if N.of_nat (length payload) <? table then Err NoRoomForOffsets
      else if N.of_nat (length payload) <? 16 + (blocks + 1) * 8 then Err BlobPanic
      else
        let offsets := le_get <$> chunks 8 (S (N.to_nat blocks)) (drop 16 payload) in
        if negb (default 0 (offsets !! N.to_nat blocks) =? N.of_nat (length payload) - table)
        then Err LengthMismatch
        else if negb (increasing offsets) then Err OffsetsNotIncreasing
        else
          let blocks_at := (start + N.to_nat table)%nat in
          firsts ← parse_firsts data blocks_at 0 offsets;
          if negb (increasing firsts) then Err FirstsNotSorted
          else Ok (mkTable blocks_at count offsets firsts).

(** [partition_point(|&r| r <= key)] on the sorted first keys. *)
Fixpoint partition_le (key : N) (l : list N) : nat :=
  match l with
  | r :: l => if r <=? key then S (partition_le key l) else O
  | [] => O
  end.

(** Read [k] value gaps: the values decoded, and where the reading stopped or the
    error that stopped it. *)
Fixpoint get_gaps (k : nat) (data : bytes) (i : nat) (acc : N)
    : list N * result blocked_error nat :=
  match k with
  | O => ([], Ok i)
  | S k =>
      match get_varint data i with
      | Err e => ([], Err (BadVarint e))
      | Ok (gap, i) =>
          let acc := acc ⊞ gap in
          let '(vals, r) := get_gaps k data i acc in (acc :: vals, r)
      end
  end.

(** [get_varint] under the reader's error type. *)
Definition read_varint (data : bytes) (i : nat) : result blocked_error (N * nat) :=
  match get_varint data i with Ok p => Ok p | Err e => Err (BadVarint e) end.

(** ** The layout *)

Fixpoint enc_recs (prev : N) (rs : list rec) : bytes :=
  match rs with
  | [] => []
  | (k, vs) :: rs => put_varint (k ⊟ prev) ++ encode_record vs ++ enc_recs k rs
  end.

Definition enc_body (rs : list rec) : bytes :=
  match rs with
  | [] => []
  | (k, vs) :: rs => encode_record vs ++ enc_recs k rs
  end.

Definition first_key (rs : list rec) : N := from_option fst 0 (head rs).
Definition last_key (rs : list rec) : N := from_option fst 0 (last rs).

Definition enc_block (rs : list rec) : bytes :=
  put_u64 (first_key rs) ++ put_u32 (N.of_nat (length rs)) ++ enc_body rs.

Fixpoint starts (at_ : N) (bs : list (list rec)) : list N :=
  match bs with
  | [] => []
  | b :: bs => at_ :: starts (at_ + N.of_nat (length (enc_block b))) bs
  end.

Definition enc_blocks (bs : list (list rec)) : bytes := mjoin (enc_block <$> bs).

Definition enc_table (entries : N) (bs : list (list rec)) : bytes :=
  put_u64 entries ++ put_u64 (N.of_nat (length bs)) ++
  mjoin (put_u64 <$> starts 0 bs) ++ put_u64 (N.of_nat (length (enc_blocks bs))) ++ enc_blocks bs.

Lemma starts_app at_ bs bs' :
  starts at_ (bs ++ bs') = starts at_ bs ++ starts (at_ + N.of_nat (length (enc_blocks bs))) bs'.
Proof.
  revert at_. induction bs as [|b bs IH]; intros at_; cbn [starts app].
  { cbn. by rewrite N.add_0_r. }
  rewrite IH. do 2 f_equal. unfold enc_blocks. rewrite fmap_cons, mjoin_cons, length_app.
  f_equal. lia.
Qed.

Lemma starts_length at_ bs : length (starts at_ bs) = length bs.
Proof. revert at_. induction bs; intros; cbn; auto. Qed.

Lemma enc_blocks_app bs bs' : enc_blocks (bs ++ bs') = enc_blocks bs ++ enc_blocks bs'.
Proof. unfold enc_blocks. by rewrite fmap_app, join_app. Qed.

Lemma enc_blocks_one b : enc_blocks [b] = enc_block b.
Proof. unfold enc_blocks. cbn [fmap list_fmap]. rewrite mjoin_cons. apply app_nil_r. Qed.

Lemma enc_recs_snoc prev rs k vs :
  enc_recs prev (rs ++ [(k, vs)]) =
  enc_recs prev rs ++ put_varint (k ⊟ from_option fst prev (last rs)) ++ encode_record vs.
Proof.
  revert prev. induction rs as [|[k' vs'] rs IH]; intros prev; cbn [enc_recs app].
  { cbn. by rewrite app_nil_r. }
  rewrite IH, <-!app_assoc. do 4 f_equal. destruct rs as [|r rs]; [done|].
  rewrite !last_cons. destruct (last rs); done.
Qed.

Lemma enc_body_snoc rs k vs :
  rs ≠ [] →
  enc_body (rs ++ [(k, vs)]) = enc_body rs ++ put_varint (k ⊟ last_key rs) ++ encode_record vs.
Proof.
  destruct rs as [|[k' vs'] rs]; [done|]. intros _. cbn [enc_body app].
  rewrite enc_recs_snoc, <-app_assoc. do 4 f_equal. unfold last_key. f_equal.
  destruct rs as [|r rs]; [done|]. rewrite !last_cons. destruct (last rs); done.
Qed.

Lemma encode_record_length vs : (1 ≤ length (encode_record vs))%nat.
Proof.
  unfold encode_record. rewrite length_app.
  pose proof (put_varint_length (N.of_nat (length vs))). lia.
Qed.

Lemma enc_body_length rs : (length rs ≤ length (enc_body rs))%nat.
Proof.
  assert (∀ prev rs, (length rs ≤ length (enc_recs prev rs))%nat) as H.
  { intros prev rs'. revert prev. induction rs' as [|[k vs] rs' IH]; intros prev; [done|].
    cbn [enc_recs length]. rewrite !length_app. pose proof (encode_record_length vs).
    specialize (IH k). lia. }
  destruct rs as [|[k vs] rs]; [done|]. cbn [enc_body length]. rewrite length_app.
  pose proof (encode_record_length vs). specialize (H k rs). lia.
Qed.

(** What the writer's buffers hold: the closed blocks and the open one. *)
Record writer_inv (w : Writer) (closed : list (list rec)) (open : list rec) : Prop := {
  wi_limit : w_block_bytes w < u32_limit;
  wi_blocks : w_blocks w = enc_blocks closed;
  wi_offsets : w_offsets w = starts 0 closed;
  wi_body : w_body w = enc_body open;
  wi_records : w_records w = N.of_nat (length open);
  wi_first : open ≠ [] → w_first w = first_key open;
  wi_prev : open ≠ [] → w_prev w = last_key open;
  wi_closed : Forall (fun b => b ≠ [] ∧ N.of_nat (length b) < u32_limit) closed;
  wi_size : (length open ≤ 1)%nat ∨ N.of_nat (length (w_body w)) <= w_block_bytes w;
}.

Lemma writer_new_inv n : n < u32_limit → writer_inv (writer_new n) [] [].
Proof. intros H. split; try done. left. cbn. lia. Qed.

Lemma open_count w closed open : writer_inv w closed open → N.of_nat (length open) < u32_limit.
Proof.
  intros I. destruct (wi_size _ _ _ I) as [H|H]; [|].
  - assert (1 < u32_limit) by done. lia.
  - rewrite (wi_body _ _ _ I) in H. pose proof (enc_body_length open).
    pose proof (wi_limit _ _ _ I). lia.
Qed.

Lemma close_block_inv w closed open :
  writer_inv w closed open →
  ∃ closed', writer_inv (close_block w) closed' [] ∧ mjoin closed' = mjoin closed ++ open ∧
    w_key (close_block w) = w_key w ∧ w_vals (close_block w) = w_vals w ∧
    w_entries (close_block w) = w_entries w.
Proof.
  intros I. pose proof (open_count _ _ _ I) as Hn. destruct I as [I1 I2 I3 I4 I5 I6 I7 I8 I9].
  unfold close_block. destruct (N.eqb_spec (w_records w) 0) as [E|E].
  - assert (open = []) as -> by (apply nil_length_inv; lia).
    exists closed. rewrite app_nil_r. by split_and!.
  - assert (open ≠ []) as Hne by (intros ->; cbn in *; lia).
    exists (closed ++ [open]). split_and!; try done.
    + split; cbn; try done; [| | |left; lia].
      * rewrite enc_blocks_app, enc_blocks_one, I2. f_equal. unfold enc_block.
        by rewrite I6, I5, I4.
      * rewrite starts_app, I3, I2. cbn [starts]. by rewrite N.add_0_l.
      * apply Forall_app. split; [done|]. by apply Forall_singleton.
    + rewrite join_app. f_equal. apply app_nil_r.
Qed.

Lemma start_block_inv w closed k vs :
  writer_inv w closed [] → writer_inv (start_block w k (encode_record vs)) closed [(k, vs)].
Proof.
  intros [I1 I2 I3 I4 I5 I6 I7 I8 I9]. split; cbn; try done; [|left; lia].
  unfold enc_body. cbn [enc_recs]. by rewrite app_nil_r.
Qed.

Lemma close_record_inv w closed open k :
  writer_inv w closed open → w_key w = Some k →
  ∃ closed' open', writer_inv (close_record w) closed' open' ∧
    mjoin closed' ++ open' = mjoin closed ++ open ++ [(k, w_vals w)] ∧
    w_key (close_record w) = None ∧ w_entries (close_record w) = w_entries w.
Proof.
  intros I Hk. unfold close_record. rewrite Hk. destruct (N.ltb_spec 0 (w_records w)) as [Hr|Hr].
  - assert (open ≠ []) as Hne.
    { intros ->. rewrite (wi_records _ _ _ I) in Hr. cbn in Hr. lia. }
    destruct (N.leb_spec (N.of_nat (length (w_body w) + length (put_varint (k ⊟ w_prev w)) +
      length (encode_record (w_vals w)))) (w_block_bytes w)) as [Hfit|Hfit].
    + exists closed, (open ++ [(k, w_vals w)]). pose proof I as [I1 I2 I3 I4 I5 I6 I7 I8 I9].
      assert (enc_body (open ++ [(k, w_vals w)]) =
        w_body w ++ put_varint (k ⊟ w_prev w) ++ encode_record (w_vals w)) as Hb.
      { by rewrite enc_body_snoc, I4, I7. }
      assert (length (enc_body (open ++ [(k, w_vals w)])) =
        length (w_body w) + length (put_varint (k ⊟ w_prev w)) + length (encode_record (w_vals w)))%nat as Hl.
      { rewrite Hb, !length_app. lia. }
      split_and!; try done. split; cbn [w_block_bytes w_blocks w_offsets w_body w_records w_first w_prev];
        try done.
      * rewrite length_app, I5. cbn [length].
        pose proof (enc_body_length (open ++ [(k, w_vals w)])) as Hle. rewrite length_app in Hle.
        cbn [length] in Hle. rewrite N.mod_small; lia.
      * intros _. rewrite I6 by done. unfold first_key. by destruct open.
      * intros _. unfold last_key. by rewrite last_snoc.
      * right. rewrite <-Hb, Hl. lia.
    + destruct (close_block_inv _ _ _ I) as (closed' & I' & Hj & _ & _ & He).
      exists closed', [(k, w_vals w)]. split_and!; [by apply start_block_inv| |done|done].
      rewrite Hj. by rewrite <-app_assoc.
  - assert (open = []) as ->.
    { apply nil_length_inv. rewrite (wi_records _ _ _ I) in Hr. lia. }
    exists closed, [(k, w_vals w)]. split_and!; try done. by apply start_block_inv.
Qed.

(** ** Grouping entries into records *)

Definition flatten (rs : list rec) : list (N * N) := mjoin ((fun r => (fun v => (r.1, v)) <$> r.2) <$> rs).

(** The buffered record, if any. *)
Definition pending (w : Writer) : list rec :=
  match w_key w with Some k => [(k, w_vals w)] | None => [] end.

(** The writer holds the records [rs]. *)
Definition written (w : Writer) (rs : list rec) : Prop :=
  ∃ closed open, writer_inv w closed open ∧ rs = mjoin closed ++ open ++ pending w.

Lemma flatten_app rs rs' : flatten (rs ++ rs') = flatten rs ++ flatten rs'.
Proof. unfold flatten. by rewrite fmap_app, join_app. Qed.

Lemma flatten_one k vs : flatten [(k, vs)] = (fun v => (k, v)) <$> vs.
Proof. unfold flatten. cbn. apply app_nil_r. Qed.

(** A finished table is the layout of some cut of its records into blocks. *)
Lemma finish_blocked_spec w rs :
  written w rs →
  ∃ bs, finish_blocked w = enc_table (w_entries w) bs ∧ mjoin bs = rs ∧
    Forall (fun b => b ≠ [] ∧ N.of_nat (length b) < u32_limit) bs.
Proof.
  intros (closed & open & I & ->). unfold finish_blocked.
  assert (∃ closed' open', writer_inv (close_record w) closed' open' ∧
    mjoin closed' ++ open' = mjoin closed ++ open ++ pending w ∧
    w_entries (close_record w) = w_entries w) as (c1 & o1 & I1 & E1 & He1).
  { unfold pending. destruct (w_key w) as [k|] eqn:Hk.
    - destruct (close_record_inv _ _ _ _ I Hk) as (c & o & ? & ? & _ & ?). eauto.
    - exists closed, open. unfold close_record. rewrite Hk, app_nil_r. done. }
  destruct (close_block_inv _ _ _ I1) as (bs & I2 & E2 & _ & _ & He2).
  exists bs. split_and!; [|by rewrite E2|apply I2].
  unfold enc_table. rewrite He2, He1, (wi_offsets _ _ _ I2), (wi_blocks _ _ _ I2).
  by rewrite starts_length.
Qed.

(** ** Pushing entries in key order *)

(** The writer after some pushes: it holds the records [rs], the last of them
    still buffered. *)
Record pushed (w : Writer) (rs : list rec) : Prop := {
  pu_written : written w rs;
  pu_key : w_key w = fst <$> last rs;
  pu_entries : w_entries w = wrap64 (N.of_nat (length (flatten rs)));
  pu_sorted : StronglySorted N.lt rs.*1;
  pu_nonempty : Forall (fun r => r.2 ≠ []) rs;
}.

Lemma writer_new_pushed n : n < u32_limit → pushed (writer_new n) [].
Proof.
  intros H. split; try done; [|constructor]. exists [], []. split; [by apply writer_new_inv|done].
Qed.

Lemma writer_inv_fields w w' closed open :
  w_block_bytes w' = w_block_bytes w → w_blocks w' = w_blocks w → w_offsets w' = w_offsets w →
  w_body w' = w_body w → w_records w' = w_records w → w_first w' = w_first w → w_prev w' = w_prev w →
  writer_inv w closed open → writer_inv w' closed open.
Proof.
  destruct w, w'. cbn. intros -> -> -> -> -> -> -> [????????]. cbn in *. by split.
Qed.

Lemma last_key_split (rs : list rec) k :
  fst <$> last rs = Some k → ∃ rs0 vs, rs = rs0 ++ [(k, vs)].
Proof.
  intros H. destruct (last rs) as [[k' vs]|] eqn:E; [|done]. cbn in H. simplify_eq.
  apply last_Some in E as [rs0 ->]. eauto.
Qed.

Lemma wrap64_succ n : wrap64 n ⊞ 1 = wrap64 (n + 1).
Proof. unfold wadd64, wrap64. by rewrite N.Div0.add_mod_idemp_l. Qed.

Lemma push_same_key w rs0 k vs v :
  pushed w (rs0 ++ [(k, vs)]) → pushed (push_entry w k v) (rs0 ++ [(k, vs ++ [v])]).
Proof.
  intros [(c & o & I & E) Hk He Hs Hn].
  rewrite last_snoc in Hk. cbn in Hk.
  unfold pending in E. rewrite Hk in E. rewrite app_assoc in E. apply app_inj_tail in E as [E1 E2].
  simplify_eq. unfold push_entry. rewrite bool_decide_eq_true_2 by done. split.
  - exists c, o. split; [by eapply writer_inv_fields, I|].
    unfold pending. cbn [w_key w_vals]. rewrite Hk. by rewrite app_assoc.
  - cbn. by rewrite Hk, last_snoc.
  - cbn [w_entries]. rewrite He, wrap64_succ, !flatten_app, !flatten_one, !length_app, !length_fmap, length_app.
    f_equal. cbn. lia.
  - by rewrite fmap_app in Hs |- *.
  - apply Forall_app in Hn as [Hn _]. apply Forall_app. split; [done|].
    apply Forall_singleton. cbn. by destruct (w_vals w).
Qed.

Lemma StronglySorted_snoc (l : list N) x :
  StronglySorted N.lt l → (∀ y, y ∈ l → y < x) → StronglySorted N.lt (l ++ [x]).
Proof.
  induction 1 as [|a l Hl IH Ha]; intros H; cbn; [repeat constructor|]. constructor.
  - apply IH. intros y Hy. apply H. by right.
  - apply Forall_app. split; [done|]. apply Forall_singleton, H. left.
Qed.

Lemma last_is_max (l : list N) x y : StronglySorted N.lt l → last l = Some x → y ∈ l → y <= x.
Proof.
  intros Hs [l' ->]%last_Some Hy. apply elem_of_app in Hy as [Hy|Hy%list_elem_of_singleton]; [|lia].
  induction l' as [|a l' IH]; [by apply elem_of_nil in Hy|]. cbn in Hs.
  inversion Hs as [|? ? H1 H2]; subst. apply elem_of_cons in Hy as [->|Hy]; [|auto].
  rewrite Forall_forall in H2. specialize (H2 x). rewrite elem_of_app in H2.
  specialize (H2 ltac:(right; left)). lia.
Qed.

Lemma push_new_key w rs k v :
  pushed w rs → (∀ k', fst <$> last rs = Some k' → k' < k) →
  pushed (push_entry w k v) (rs ++ [(k, [v])]).
Proof.
  intros [(c & o & I & E) Hk He Hs Hn] Hlt. unfold push_entry.
  rewrite bool_decide_eq_false_2; last first.
  { rewrite Hk. intros H. specialize (Hlt _ H). lia. }
  assert (∃ c' o', writer_inv (close_record w) c' o' ∧ mjoin c' ++ o' = rs ∧
    w_entries (close_record w) = w_entries w) as (c' & o' & I' & E' & He').
  { rewrite E. unfold pending. destruct (w_key w) as [k'|] eqn:Hk'.
    - destruct (close_record_inv _ _ _ _ I Hk') as (c' & o' & ? & ? & _ & ?). eauto.
    - unfold close_record. rewrite Hk', app_nil_r. eauto. }
  split.
  - exists c', o'. split; [by eapply writer_inv_fields, I'|]. unfold pending. cbn [w_key w_vals].
    by rewrite app_assoc, E'.
  - cbn. by rewrite last_snoc.
  - cbn [w_entries]. rewrite He', He, wrap64_succ, flatten_app, flatten_one, length_app.
    f_equal. cbn. lia.
  - rewrite fmap_app. apply StronglySorted_snoc; [done|]. cbn [fst]. intros y Hy.
    destruct (last rs.*1) as [k'|] eqn:El.
    + pose proof (last_is_max _ _ _ Hs El Hy). rewrite fmap_last in El. specialize (Hlt _ El). lia.
    + apply last_None in El. rewrite El in Hy. by apply elem_of_nil in Hy.
  - apply Forall_app. split; [done|]. by apply Forall_singleton.
Qed.

(** A push appends one entry, provided keys do not go back. *)
Lemma push_entry_pushed w rs k v :
  pushed w rs → (∀ k', fst <$> last rs = Some k' → k' <= k) →
  ∃ rs', pushed (push_entry w k v) rs' ∧ flatten rs' = flatten rs ++ [(k, v)] ∧
    fst <$> last rs' = Some k.
Proof.
  intros P Hle. destruct (decide (fst <$> last rs = Some k)) as [Hk|Hk].
  - destruct (last_key_split _ _ Hk) as (rs0 & vs & ->). exists (rs0 ++ [(k, vs ++ [v])]).
    split_and!; [by apply push_same_key| |by rewrite last_snoc].
    rewrite !flatten_app, !flatten_one, fmap_app. by rewrite app_assoc.
  - exists (rs ++ [(k, [v])]). split_and!; [|by rewrite flatten_app, flatten_one|by rewrite last_snoc].
    apply push_new_key; [done|]. intros k' H. specialize (Hle _ H).
    destruct (decide (k' = k)) as [->|]; [done|lia].
Qed.

Lemma flatten_last rs p :
  Forall (fun r : rec => r.2 ≠ []) rs → last (flatten rs) = Some p → fst <$> last rs = Some p.1.
Proof.
  intros Hn H. destruct (last rs) as [[k vs]|] eqn:E.
  - apply last_Some in E as [rs0 ->]. rewrite flatten_app, flatten_one in H.
    apply Forall_app in Hn as [_ Hn]. apply Forall_cons in Hn as [Hn _]. cbn in Hn.
    rewrite last_app, fmap_last in H. destruct (last vs) as [v|] eqn:Ev; [|by apply last_None, Hn in Ev].
    cbn in H. by simplify_eq.
  - apply last_None in E as ->. done.
Qed.
