(* ===== verification/BlockedRead.v ===== *)
(** Reading back a blocked table: [parse], the location of blocks and the search
    for a key's block, on the layout the writer produces. *)

From S2P Require Import Prelude Bytes Varint Blocked.

(** ** Sorted first keys *)

Definition small_key (r : rec) : Prop := r.1 < u64_limit.

Record table_ok (bs : list (list rec)) : Prop := {
  to_blocks : Forall (fun b => b ≠ [] ∧ N.of_nat (length b) < u32_limit) bs;
  to_sorted : StronglySorted N.lt (mjoin bs).*1;
  to_keys : Forall small_key (mjoin bs);
  to_size : N.of_nat (length (enc_table 0 bs)) < u64_limit;
}.

Lemma enc_table_length n bs : length (enc_table n bs) = (24 + 8 * length bs + length (enc_blocks bs))%nat.
Proof.
  unfold enc_table. rewrite !length_app, !put_u64_length, words_length, starts_length. lia.
Qed.

Lemma enc_block_length b : (12 ≤ length (enc_block b))%nat.
Proof. unfold enc_block. rewrite !length_app, put_u64_length, put_u32_length. lia. Qed.

Lemma StronglySorted_app_inv (l1 l2 : list N) :
  StronglySorted N.lt (l1 ++ l2) →
  StronglySorted N.lt l1 ∧ StronglySorted N.lt l2 ∧ ∀ x y, x ∈ l1 → y ∈ l2 → x < y.
Proof.
  induction l1 as [|a l1 IH]; cbn; intros H.
  { split_and!; [constructor|done|]. set_solver. }
  inversion H as [|? ? H1 H2]; subst. destruct (IH H1) as (A & B & C).
  apply Forall_app in H2 as [F1 F2]. split_and!; [by constructor|done|].
  intros x y [->|Hx]%elem_of_cons Hy; [|auto]. rewrite Forall_forall in F2. auto.
Qed.

Lemma table_ok_app bs1 bs2 : table_ok (bs1 ++ bs2) → table_ok bs1 ∧ table_ok bs2 ∧
  ∀ r r', r ∈ mjoin bs1 → r' ∈ mjoin bs2 → r.1 < r'.1.
Proof.
  intros [T1 T2 T3 T4]. rewrite join_app in T2, T3. rewrite fmap_app in T2.
  apply Forall_app in T1 as [??]. apply Forall_app in T3 as [??].
  apply StronglySorted_app_inv in T2 as (? & ? & Hlt).
  rewrite enc_table_length, enc_blocks_app, !length_app in T4.
  split_and!; [split; try done; rewrite enc_table_length; lia..|].
  intros r r' Hr Hr'. apply Hlt; by apply list_elem_of_fmap_2.
Qed.

Lemma first_key_in b : b ≠ [] → ∃ r, r ∈ b ∧ r.1 = first_key b.
Proof. destruct b as [|r b]; [done|]. exists r. split; [left|done]. Qed.

Lemma first_key_le b r : StronglySorted N.lt b.*1 → r ∈ b → first_key b <= r.1.
Proof.
  destruct b as [|r0 b]; [intros _ H; by apply elem_of_nil in H|]. cbn. intros H Hr.
  inversion H as [|? ? _ F]; subst. apply elem_of_cons in Hr as [->|Hr]; [lia|].
  rewrite Forall_forall in F. specialize (F r.1 ltac:(by apply list_elem_of_fmap_2)). lia.
Qed.

Lemma sorted_keys_cons (r : rec) rs :
  StronglySorted N.lt (r :: rs).*1 →
  StronglySorted N.lt rs.*1 ∧ ∀ r', r' ∈ rs → r.1 < r'.1.
Proof.
  rewrite fmap_cons. intros H. apply StronglySorted_inv in H as [H1 H2]. split; [done|].
  intros r' Hr. rewrite Forall_forall in H2. by apply H2, list_elem_of_fmap_2.
Qed.

Lemma firsts_increasing bs : table_ok bs → increasing (first_key <$> bs) = true.
Proof.
  induction bs as [|b bs IH]; intros T; [done|].
  destruct (table_ok_app [b] bs T) as (T1 & T2 & Hlt). specialize (IH T2).
  destruct bs as [|b' bs]; [done|].
  change (((first_key b <? first_key b') && increasing (first_key <$> (b' :: bs))) = true).
  rewrite IH, andb_true_r. apply N.ltb_lt.
  pose proof (to_blocks _ T1) as [[Hb _] _]%Forall_cons.
  pose proof (to_blocks _ T2) as [[Hb' _] _]%Forall_cons.
  destruct (first_key_in b Hb) as (r & Hr & <-). destruct (first_key_in b' Hb') as (r' & Hr' & <-).
  apply Hlt; rewrite mjoin_cons, elem_of_app; auto.
Qed.

(** ** Offsets *)

Definition table_end (at_ : N) (bs : list (list rec)) : N := at_ + N.of_nat (length (enc_blocks bs)).

Lemma table_end_cons at_ b bs :
  table_end at_ (b :: bs) = table_end (at_ + N.of_nat (length (enc_block b))) bs.
Proof. unfold table_end, enc_blocks. rewrite fmap_cons, mjoin_cons, length_app. lia. Qed.

Lemma starts_cons_head at_ bs : head (starts at_ bs ++ [table_end at_ bs]) = Some at_.
Proof. destruct bs; cbn; [|done]. unfold table_end. cbn. f_equal. lia. Qed.

Lemma starts_increasing at_ bs : increasing (starts at_ bs ++ [table_end at_ bs]) = true.
Proof.
  revert at_. induction bs as [|b bs IH]; intros at_; [done|].
  cbn [starts app]. rewrite table_end_cons. specialize (IH (at_ + N.of_nat (length (enc_block b)))).
  pose proof (starts_cons_head (at_ + N.of_nat (length (enc_block b))) bs) as Hh.
  destruct (starts _ bs ++ _) as [|o os]; [done|]. cbn in Hh. simplify_eq.
  cbn [increasing] in *. rewrite IH, andb_true_r. apply N.ltb_lt. pose proof (enc_block_length b). lia.
Qed.

Lemma starts_bound at_ bs :
  Forall (fun o => o <= table_end at_ bs) (starts at_ bs ++ [table_end at_ bs]).
Proof.
  revert at_. induction bs as [|b bs IH]; intros at_.
  { apply Forall_singleton. lia. }
  cbn [starts app]. rewrite table_end_cons. constructor; [|apply IH]. unfold table_end. lia.
Qed.

Lemma parse_firsts_spec bs : ∀ blocks_at i at_ pre post,
  Forall small_key (mjoin bs) → Forall (fun b => b ≠ [] ∧ N.of_nat (length b) < u32_limit) bs →
  length pre = (blocks_at + N.to_nat at_)%nat →
  parse_firsts (pre ++ enc_blocks bs ++ post) blocks_at i (starts at_ bs ++ [table_end at_ bs]) =
    Ok (first_key <$> bs).
Proof.
  induction bs as [|b bs IH]; intros blocks_at i at_ pre post Hk Hb Hl; [done|].
  cbn [starts app]. rewrite table_end_cons. set (at' := at_ + _).
  rewrite mjoin_cons in Hk. apply Forall_app in Hk as [Hk1 Hk2].
  apply Forall_cons in Hb as [[Hb1 Hb2] Hb].
  pose proof (enc_block_length b).
  assert (enc_blocks (b :: bs) = enc_block b ++ enc_blocks bs) as E by done.
  specialize (IH blocks_at (S i) at' (pre ++ enc_block b) post Hk2 Hb
    ltac:(rewrite length_app; unfold at'; lia)).
  rewrite <-app_assoc in IH. rewrite E, <-app_assoc.
  cbn [parse_firsts]. pose proof (starts_cons_head at' bs) as Hh.
  destruct (starts at' bs ++ [table_end at' bs]) as [|o os] eqn:Eo; [done|]. injection Hh as ->.
  rewrite IH. cbn [mbind result_bind].
  assert ((12 <=? at' - at_) && (blocks_at + N.to_nat at_ + 12 <=?
    length (pre ++ enc_block b ++ enc_blocks bs ++ post))%nat = true) as ->.
  { apply andb_true_intro. rewrite !length_app. unfold at'. split; [apply N.leb_le|apply Nat.leb_le]; lia. }
  rewrite fmap_cons. do 2 f_equal. rewrite <-Hl, drop_app_length. unfold enc_block.
  rewrite <-!app_assoc, take_app_length' by done. apply put_u64_get.
  destruct (first_key_in b Hb1) as (r & Hr & <-). rewrite Forall_forall in Hk1. by apply Hk1.
Qed.

(** ** [parse] *)

Definition table_at (pre : nat) (n : N) (bs : list (list rec)) : BlockedTable :=
  mkTable (pre + (24 + 8 * length bs))%nat n (starts 0 bs ++ [table_end 0 bs]) (first_key <$> bs).

Lemma offsets_decode bs :
  N.of_nat (length (enc_blocks bs)) < u64_limit →
  le_get <$> chunks 8 (S (length bs))
    (mjoin (put_u64 <$> starts 0 bs) ++ put_u64 (N.of_nat (length (enc_blocks bs))) ++ enc_blocks bs) =
  starts 0 bs ++ [table_end 0 bs].
Proof.
  intros H. set (os := starts 0 bs ++ [table_end 0 bs]).
  assert (mjoin (put_u64 <$> starts 0 bs) ++ put_u64 (N.of_nat (length (enc_blocks bs))) ++ enc_blocks bs
    = mjoin (put_u64 <$> os) ++ enc_blocks bs) as ->.
  { unfold os. rewrite fmap_app, join_app, <-app_assoc. do 2 f_equal. }
  assert (length os = S (length bs)) as <-.
  { unfold os. rewrite length_app, starts_length. cbn. lia. }
  rewrite chunks_app by apply words_length. apply put_words_chunks.
  eapply Forall_impl; [apply starts_bound|]. intros o Ho. unfold table_end in Ho. lia.
Qed.

Lemma parse_table n bs pre post :
  n < u64_limit → table_ok bs →
  parse (pre ++ enc_table n bs ++ post) (length pre) (length pre + length (enc_table n bs)) =
    Ok (table_at (length pre) n bs).
Proof.
  intros Hn T. pose proof (to_size _ T) as Hsz. rewrite enc_table_length in Hsz.
  unfold parse. set (data := pre ++ _).
  assert (((length pre <=? length pre + length (enc_table n bs))%nat &&
    (length pre + length (enc_table n bs) <=? length data)%nat) = true) as ->.
  { unfold data. rewrite !length_app. apply andb_true_intro. split; apply Nat.leb_le; lia. }
  cbn [negb].
  assert (take (length pre + length (enc_table n bs) - length pre) (drop (length pre) data) =
    enc_table n bs) as ->.
  { unfold data. rewrite drop_app_length. by rewrite take_app_length' by lia. }
  rewrite enc_table_length.
  destruct (Nat.ltb_spec (24 + 8 * length bs + length (enc_blocks bs)) 16); [lia|].
  assert (take 8 (enc_table n bs) = put_u64 n) as -> by done.
  assert (take 8 (drop 8 (enc_table n bs)) = put_u64 (N.of_nat (length bs))) as -> by done.
  assert (drop 16 (enc_table n bs) = mjoin (put_u64 <$> starts 0 bs) ++
    put_u64 (N.of_nat (length (enc_blocks bs))) ++ enc_blocks bs) as -> by done.
  rewrite !put_u64_get by lia.
  assert (16 ⊞ (N.of_nat (length bs) ⊞ 1) ⊠ 8 = N.of_nat (24 + 8 * length bs)) as ->.
  { assert ((N.of_nat (length bs) ⊞ 1) ⊠ 8 = 8 * N.of_nat (length bs) + 8) as ->.
    { rewrite wadd64_small by lia. unfold wmul64. rewrite wrap64_small; lia. }
    rewrite wadd64_small; lia. }
  destruct (N.ltb_spec (N.of_nat (24 + 8 * length bs + length (enc_blocks bs)))
    (N.of_nat (24 + 8 * length bs))); [lia|].
  destruct (N.ltb_spec (N.of_nat (24 + 8 * length bs + length (enc_blocks bs)))
    (16 + (N.of_nat (length bs) + 1) * 8)); [lia|].
  rewrite Nat2N.id, offsets_decode by lia.
  rewrite lookup_app_r, starts_length, Nat.sub_diag by (rewrite starts_length; lia).
  cbn [lookup list_lookup default from_option id].
  destruct (N.eqb_spec (table_end 0 bs) (N.of_nat (24 + 8 * length bs + length (enc_blocks bs)) -
    N.of_nat (24 + 8 * length bs))) as [_|E]; [|unfold table_end in E; lia].
  rewrite starts_increasing. cbn [negb]. rewrite Nat2N.id.
  assert (data = (pre ++ take (24 + 8 * length bs) (enc_table n bs)) ++ enc_blocks bs ++ post) as Ed.
  { unfold data. rewrite <-app_assoc. f_equal. rewrite app_assoc. f_equal.
    rewrite <-(take_drop (24 + 8 * length bs) (enc_table n bs)) at 1. f_equal.
    unfold enc_table. rewrite !app_assoc. rewrite drop_app_length'; [done|].
    rewrite !length_app, !put_u64_length, words_length, starts_length. lia. }
  rewrite Ed, parse_firsts_spec; [|apply T|apply T|].
  - cbn [mbind result_bind]. rewrite firsts_increasing by done. cbn [negb].
    unfold table_at. done.
  - rewrite length_app, length_take, enc_table_length. lia.
Qed.

(** ** Locating a block *)

Section located.
Context (n : N) (bs1 : list (list rec)) (b : list rec) (bs2 : list (list rec)) (pre post : bytes).
Let bs := bs1 ++ b :: bs2.
Let data := pre ++ enc_table n bs ++ post.
Let t := table_at (length pre) n bs.

Lemma located_offsets :
  tb_offsets t !! length bs1 = Some (N.of_nat (length (enc_blocks bs1))) ∧
  tb_offsets t !! S (length bs1) = Some (N.of_nat (length (enc_blocks bs1) + length (enc_block b))).
Proof using.
  unfold t, table_at, bs. cbn [tb_offsets]. rewrite starts_app, <-app_assoc. split.
  - rewrite lookup_app_r, starts_length, Nat.sub_diag by (rewrite starts_length; lia). cbn.
    by rewrite N.add_0_l.
  - rewrite lookup_app_r by (rewrite starts_length; lia). rewrite starts_length.
    replace (S (length bs1) - length bs1)%nat with 1%nat by lia.
    cbn [starts app].
    match goal with |- (?a :: ?l) !! _ = _ => change ((a :: l) !! 1%nat) with (l !! 0%nat) end.
    rewrite <-head_lookup.
    assert (table_end 0 (bs1 ++ b :: bs2) =
      table_end (0 + N.of_nat (length (enc_blocks bs1)) + N.of_nat (length (enc_block b))) bs2) as ->.
    { unfold table_end. rewrite enc_blocks_app, length_app.
      change (enc_blocks (b :: bs2)) with (enc_block b ++ enc_blocks bs2). rewrite length_app. lia. }
    rewrite starts_cons_head. f_equal. lia.
Qed.

Lemma located_first : firsts t !! length bs1 = Some (first_key b).
Proof using.
  unfold t, table_at, bs. cbn [firsts]. rewrite fmap_app, lookup_app_r, length_fmap, Nat.sub_diag;
    [done|by rewrite length_fmap].
Qed.

Lemma located_data :
  ∃ pre' post', data = pre' ++ enc_block b ++ post' ∧
    length pre' = (blocks_at t + length (enc_blocks bs1))%nat.
Proof using.
  set (hd := put_u64 n ++ put_u64 (N.of_nat (length bs)) ++ mjoin (put_u64 <$> starts 0 bs) ++
             put_u64 (N.of_nat (length (enc_blocks bs)))).
  exists (pre ++ hd ++ enc_blocks bs1), (enc_blocks bs2 ++ post). split.
  - assert (enc_table n bs = hd ++ enc_blocks bs) as E by (unfold enc_table, hd; by rewrite <-!app_assoc).
    assert (enc_blocks bs = enc_blocks bs1 ++ enc_block b ++ enc_blocks bs2) as E'.
    { unfold bs. by rewrite enc_blocks_app. }
    unfold data. rewrite E, E'. by rewrite <-!app_assoc.
  - unfold hd, t, table_at. cbn [blocks_at].
    rewrite !length_app, !put_u64_length, words_length, starts_length. lia.
Qed.
End located.

(** ** Which block can hold a key *)

Definition vals_of (l : list (N * N)) (key : N) : list N := (filter (fun p => p.1 = key) l).*2.

Lemma vals_of_app l l' key : vals_of (l ++ l') key = vals_of l key ++ vals_of l' key.
Proof. unfold vals_of. by rewrite filter_app, fmap_app. Qed.

Lemma vals_of_none l key : (∀ p, p ∈ l → p.1 ≠ key) → vals_of l key = [].
Proof.
  unfold vals_of. induction l as [|p l IH]; intros H; [done|].
  rewrite filter_cons, decide_False by (apply H; left). apply IH. intros q Hq. apply H. by right.
Qed.

Lemma vals_of_record k vs rs key :
  vals_of (flatten ((k, vs) :: rs)) key = (if k =? key then vs else []) ++ vals_of (flatten rs) key.
Proof.
  change ((k, vs) :: rs) with ([(k, vs)] ++ rs). rewrite flatten_app, flatten_one, vals_of_app. f_equal.
  unfold vals_of. destruct (N.eqb_spec k key) as [->|H]; induction vs as [|v vs IH]; try done;
    rewrite fmap_cons, filter_cons; cbn; [rewrite decide_True by done; cbn; by f_equal|].
  by rewrite decide_False.
Qed.

Lemma vals_of_absent rs key : (∀ r, r ∈ rs → r.1 ≠ key) → vals_of (flatten rs) key = [].
Proof.
  induction rs as [|[k vs] rs IH]; intros H; [done|]. rewrite vals_of_record, IH.
  - destruct (N.eqb_spec k key) as [->|]; [|done]. by destruct (H (key, vs) ltac:(left)).
  - intros r Hr. apply H. by right.
Qed.

Lemma partition_le_spec key bs :
  table_ok bs →
  match partition_le key (first_key <$> bs) with
  | O => vals_of (flatten (mjoin bs)) key = []
  | S m => ∃ bs1 b bs2, bs = bs1 ++ b :: bs2 ∧ length bs1 = m ∧ first_key b <= key ∧
      vals_of (flatten (mjoin bs)) key = vals_of (flatten b) key
  end.
Proof.
  intros T. induction bs as [|b bs IH]; [done|].
  destruct (table_ok_app [b] bs T) as (T1 & T2 & Hlt). specialize (IH T2).
  pose proof (to_blocks _ T1) as [[Hne _] _]%Forall_cons.
  pose proof (to_sorted _ T1) as Hs. rewrite mjoin_cons, app_nil_r in Hs.
  assert (∀ r, r ∈ b → r ∈ mjoin [b]) as Hin by (intros r; by rewrite mjoin_cons, app_nil_r).
  destruct (first_key_in b Hne) as (r0 & Hr0 & Ef).
  rewrite fmap_cons, mjoin_cons, flatten_app, vals_of_app. cbn [partition_le].
  destruct (N.leb_spec (first_key b) key) as [Hle|Hgt].
  - destruct (partition_le key (first_key <$> bs)) as [|m].
    + exists [], b, bs. rewrite IH, app_nil_r. done.
    + destruct IH as (bs1 & c & bs2 & -> & Hm & Hc & E). exists (b :: bs1), c, bs2.
      split_and!; [done|cbn; lia|done|]. rewrite E.
      rewrite (vals_of_absent b); [done|]. intros r Hr Er.
      destruct (table_ok_app bs1 (c :: bs2) T2) as (_ & T3 & _).
      pose proof (to_blocks _ T3) as [[Hc' _] _]%Forall_cons.
      destruct (first_key_in c Hc') as (rc & Hrc & Ec).
      specialize (Hlt r rc (Hin _ Hr)). rewrite join_app, mjoin_cons, !elem_of_app in Hlt.
      specialize (Hlt ltac:(auto)). lia.
  - rewrite !vals_of_absent; [done| |].
    + intros r Hr Er. specialize (Hlt r0 r (Hin _ Hr0) Hr). lia.
    + intros r Hr Er. pose proof (first_key_le b r Hs Hr). lia.
Qed.

(** ** Value gaps *)

Definition small_vals (r : rec) : Prop := Forall (fun v => v < u64_limit) r.2.

Lemma get_gaps_spec vals : ∀ acc pre post m,
  acc < u64_limit → Forall (fun v => v < u64_limit) vals → (m ≤ length vals)%nat →
  get_gaps m (pre ++ put_gaps acc vals ++ post) (length pre) acc =
    (take m vals, Ok (length pre + length (put_gaps acc (take m vals)))%nat).
Proof.
  induction vals as [|v vals IH]; intros acc pre post m Ha Hv Hm.
  { replace m with O by (cbn in Hm; lia). cbn. do 2 f_equal. lia. }
  apply Forall_cons in Hv as [Hv Hvs].
  destruct m as [|m]; [cbn; do 2 f_equal; lia|]. cbn [put_gaps get_gaps take].
  rewrite <-app_assoc, get_put_varint by apply wsub64_lt. rewrite wadd64_wsub64 by done.
  rewrite app_assoc, <-length_app, IH; [|done|done|cbn in Hm; lia].
  rewrite !length_app. do 2 f_equal. lia.
Qed.

Lemma get_gaps_all vals pre post :
  Forall (fun v => v < u64_limit) vals →
  get_gaps (length vals) (pre ++ put_gaps 0 vals ++ post) (length pre) 0 =
    (vals, Ok (length pre + length (put_gaps 0 vals))%nat).
Proof. intros H. rewrite get_gaps_spec by done. by rewrite firstn_all. Qed.

Lemma read_put_varint pre v post :
  v < u64_limit →
  read_varint (pre ++ put_varint v ++ post) (length pre) =
    Ok (v, (length pre + length (put_varint v))%nat).
Proof. intros H. unfold read_varint. by rewrite get_put_varint. Qed.

(** ** Records that fit their encoding *)

Record rec_ok (limit : N) (r : rec) : Prop := {
  ro_key : r.1 < u64_limit;
  ro_vals : Forall (fun v => v < limit) r.2;
  ro_len : N.of_nat (length r.2) < u64_limit;
}.

Lemma put_gaps_length acc vals : (length vals ≤ length (put_gaps acc vals))%nat.
Proof.
  revert acc. induction vals as [|v vals IH]; intros acc; [done|]. cbn [put_gaps length].
  rewrite length_app. pose proof (put_varint_length (v ⊟ acc)). specialize (IH v). lia.
Qed.

Lemma enc_recs_vals prev rs r : r ∈ rs → (length r.2 ≤ length (enc_recs prev rs))%nat.
Proof.
  revert prev. induction rs as [|[k vs] rs IH]; intros prev Hr; [by apply elem_of_nil in Hr|].
  cbn [enc_recs]. unfold encode_record. rewrite !length_app.
  apply elem_of_cons in Hr as [->|Hr]; [pose proof (put_gaps_length 0 vs); cbn; lia|].
  specialize (IH k Hr). lia.
Qed.

Lemma enc_blocks_vals bs r : r ∈ mjoin bs → (length r.2 ≤ length (enc_blocks bs))%nat.
Proof.
  induction bs as [|b bs IH]; [intros H; by apply elem_of_nil in H|].
  change (enc_blocks (b :: bs)) with (enc_block b ++ enc_blocks bs).
  rewrite mjoin_cons, elem_of_app, length_app. intros [H|H]; [|specialize (IH H); lia].
  unfold enc_block. rewrite !length_app. destruct b as [|[k vs] b]; [by apply elem_of_nil in H|].
  cbn [enc_body]. unfold encode_record. rewrite !length_app.
  apply elem_of_cons in H as [->|H]; [pose proof (put_gaps_length 0 vs); cbn; lia|].
  pose proof (enc_recs_vals k b r H). lia.
Qed.

Lemma table_recs_ok limit bs :
  table_ok bs → Forall (fun r => Forall (fun v => v < limit) r.2) (mjoin bs) →
  Forall (rec_ok limit) (mjoin bs).
Proof.
  intros T F. apply Forall_forall. intros r Hr. pose proof (enc_blocks_vals bs r Hr).
  pose proof (to_size _ T) as Hs. rewrite enc_table_length in Hs.
  pose proof (to_keys _ T) as Hk. rewrite Forall_forall in F, Hk. split; [by apply Hk|by apply F|lia].
Qed.

Lemma rec_ok_mono l l' r : l <= l' → rec_ok l r → rec_ok l' r.
Proof. intros H [? Hv ?]. split; try done. eapply Forall_impl; [exact Hv|]. cbn. lia. Qed.

(** The table a finished writer's bytes decode to. *)
Lemma finish_table_ok w rs :
  pushed w rs → Forall small_key rs → N.of_nat (length (finish_blocked w)) < u64_limit →
  ∃ bs, finish_blocked w = enc_table (w_entries w) bs ∧ mjoin bs = rs ∧ table_ok bs.
Proof.
  intros P Hk Hn. destruct (finish_blocked_spec w rs (pu_written _ _ P)) as (bs & E & <- & Hb).
  exists bs. split_and!; [done|done|]. split; [done|apply P|done|].
  rewrite E in Hn. rewrite enc_table_length in Hn |- *. lia.
Qed.

(** Keys and values of records are those of the entries they group. *)
Lemma elem_of_flatten rs k v : (k, v) ∈ flatten rs ↔ ∃ vs, (k, vs) ∈ rs ∧ v ∈ vs.
Proof.
  induction rs as [|[k' vs] rs IH].
  { split; [intros H; by apply elem_of_nil in H|intros (vs & H & _); by apply elem_of_nil in H]. }
  change ((k', vs) :: rs) with ([(k', vs)] ++ rs). rewrite flatten_app, flatten_one, elem_of_app, IH.
  rewrite list_elem_of_fmap. setoid_rewrite elem_of_app. setoid_rewrite list_elem_of_singleton. naive_solver.
Qed.

Lemma flatten_small_key (P : N → Prop) rs :
  Forall (fun r : rec => r.2 ≠ []) rs → Forall (fun p => P p.1) (flatten rs) →
  Forall (fun r : rec => P r.1) rs.
Proof.
  rewrite !Forall_forall. intros Hn H [k vs] Hr. specialize (Hn _ Hr). cbn in Hn.
  destruct vs as [|v vs]; [done|]. apply (H (k, v)), elem_of_flatten. exists (v :: vs). split; [done|left].
Qed.

Lemma flatten_vals (P : N → Prop) rs :
  Forall (fun p => P p.2) (flatten rs) → Forall (fun r : rec => Forall P r.2) rs.
Proof.
  rewrite !Forall_forall. intros H [k vs] Hr. apply Forall_forall. intros v Hv.
  apply (H (k, v)), elem_of_flatten. eauto.
Qed.

(** ** Walking a block *)

(** The record after [(k, vs)], and the gap in front of it. *)
Lemma next_record k vs k' vs' rs (pre post : bytes) :
  let q := pre ++ encode_record vs in
  let g := put_varint (k' ⊟ k) in
  pre ++ encode_record vs ++ enc_recs k ((k', vs') :: rs) ++ post =
    (q ++ g) ++ encode_record vs' ++ enc_recs k' rs ++ post ∧
  read_varint ((q ++ g) ++ encode_record vs' ++ enc_recs k' rs ++ post) (length q) =
    Ok (k' ⊟ k, length (q ++ g)).
Proof.
  cbn zeta. cbn [enc_recs]. split; [by rewrite <-!app_assoc|].
  rewrite <-(app_assoc (pre ++ encode_record vs)), read_put_varint by apply wsub64_lt. by rewrite !length_app.
Qed.

(** Where a block's header and records stand in the data. *)
Lemma located_block n bs1 k vs b bs2 pre post :
  let t := table_at (length pre) n (bs1 ++ ((k, vs) :: b) :: bs2) in
  let data := pre ++ enc_table n (bs1 ++ ((k, vs) :: b) :: bs2) ++ post in
  table_ok (bs1 ++ ((k, vs) :: b) :: bs2) →
  ∃ o o' hd post',
    tb_offsets t !! length bs1 = Some o ∧ tb_offsets t !! S (length bs1) = Some o' ∧
    firsts t !! length bs1 = Some k ∧
    data = hd ++ encode_record vs ++ enc_recs k b ++ post' ∧
    length hd = (blocks_at t + N.to_nat o + 12)%nat ∧
    read_le 4 data (blocks_at t + N.to_nat o + 8) = Some (N.of_nat (S (length b))) ∧
    (length hd + length (encode_record vs) + length (enc_recs k b) = blocks_at t + N.to_nat o')%nat.
Proof.
  intros t data T. destruct (located_offsets n bs1 ((k, vs) :: b) bs2 pre) as [O1 O2].
  destruct (located_data n bs1 ((k, vs) :: b) bs2 pre post) as (pre' & post' & Ed & Hl).
  destruct (table_ok_app bs1 (((k, vs) :: b) :: bs2) T) as (_ & T2 & _).
  pose proof (to_blocks _ T2) as [[_ Hn] _]%Forall_cons.
  set (hd := pre' ++ put_u64 k ++ put_u32 (N.of_nat (length ((k, vs) :: b)))).
  assert (data = hd ++ encode_record vs ++ enc_recs k b ++ post') as Ed'.
  { unfold data. rewrite Ed. unfold hd, enc_block.
    cbn [first_key head from_option fst enc_body]. by rewrite <-!app_assoc. }
  assert (length hd = blocks_at t + length (enc_blocks bs1) + 12)%nat as Hhd.
  { unfold hd. rewrite !length_app, put_u64_length, put_u32_length. unfold t. lia. }
  do 2 eexists. exists hd, post'. split_and!; [exact O1|exact O2|apply located_first|done| | |].
  - by rewrite Nat2N.id.
  - rewrite Nat2N.id, Ed'. unfold t. rewrite <-Hl. unfold hd. rewrite <-!app_assoc.
    assert (length pre' + 8 = length (pre' ++ put_u64 k))%nat as -> by (rewrite length_app, put_u64_length; lia).
    rewrite (app_assoc pre'). unfold put_u32. by rewrite read_le_app.
  - rewrite Nat2N.id, Hhd. unfold t, enc_block. cbn [first_key head from_option fst enc_body].
    rewrite !length_app, put_u64_length, put_u32_length. lia.
Qed.
