(* ===== verification/Registry.v ===== *)
(** The [shared root -> scopes] registry encodings: [src/storage/registry.rs].

    [None] of the readers is a panic (an index or a slice out of range); errors
    are values. *)

From S2P Require Import Prelude Types Bytes Varint Blocked BlockedRead.

Definition BLOCK_BYTES : N := 512.
Definition FLAT_BLOB_TYPE : string := "blaze-registry-v1".
Definition BLOCKED_BLOB_TYPE : string := "blaze-registry-v2".

Inductive RegistryEncoding := RegFlat | RegBlocked.

#[export] Instance RegistryEncoding_eq_dec : EqDecision RegistryEncoding.
Proof. solve_decision. Defined.

(** [FromStr]. *)
Definition encoding_from_str (s : string) : result string RegistryEncoding :=
  if bool_decide (s = "flat" ∨ s = "v1")%string then Ok RegFlat
  else if bool_decide (s = "blocked" ∨ s = "varint" ∨ s = "v2")%string then Ok RegBlocked
  else Err s.

(** [Display]. *)
Definition encoding_to_str (e : RegistryEncoding) : string :=
  match e with RegFlat => "flat" | RegBlocked => "blocked" end.

(** ** Writing *)

(** The flat payload, and the blocked writer with the shared entry counter. *)
Record RegistryWriter := mkRegWriter {
  rw_encoding : RegistryEncoding;
  rw_flat : bytes;
  rw_writer : Writer;
}.

Definition reg_with_block_size (e : RegistryEncoding) (block_bytes : N) : RegistryWriter :=
  mkRegWriter e (if bool_decide (e = RegFlat) then put_u64 0 else []) (writer_new block_bytes).

Definition reg_new (e : RegistryEncoding) : RegistryWriter := reg_with_block_size e BLOCK_BYTES.

Definition reg_entries (w : RegistryWriter) : N := w_entries (rw_writer w).

(** [push]: the flat form writes repeats, the blocked form drops a repeated
    entry. *)
Definition reg_push (w : RegistryWriter) (root : NodeId) (scope : ScopeId) : RegistryWriter :=
  let b := rw_writer w in
  match rw_encoding w with
  | RegFlat =>
      mkRegWriter RegFlat (rw_flat w ++ put_u64 root ++ put_u32 scope)
        (mkWriter (w_entries b ⊞ 1) (w_key b) (w_vals b) (w_body b) (w_records b) (w_first b)
           (w_prev b) (w_blocks b) (w_offsets b) (w_block_bytes b))
  | RegBlocked =>
      if bool_decide (w_key b = Some root ∧ last (w_vals b) = Some scope) then w
      else mkRegWriter RegBlocked (rw_flat w) (push_entry b root scope)
  end.

Definition reg_finish (w : RegistryWriter) : option (string * bytes) :=
  if reg_entries w =? 0 then None
  else
    match rw_encoding w with
    | RegFlat => Some (FLAT_BLOB_TYPE, put_u64 (reg_entries w) ++ drop 8 (rw_flat w))
    | RegBlocked => Some (BLOCKED_BLOB_TYPE, finish_blocked (rw_writer w))
    end.

(** Push a whole sequence of entries. *)
Definition reg_push_all (w : RegistryWriter) (es : list (NodeId * ScopeId)) : RegistryWriter :=
  foldl (fun w e => reg_push w e.1 e.2) w es.

(** ** Reading one root *)

(** The loop of [decode_block] over [n] records, [i] the read position; values are
    cut to [ScopeId]. *)
Fixpoint decode_loop (n : nat) (first : bool) (data : bytes) (cur : NodeId) (i : nat)
    (want : NodeId) (end_ : nat) : result blocked_error (list ScopeId) :=
  match n with
  | O => Ok []
  | S n =>
      '(cur, i) ← (if first then Ok (cur, i)
                   else '(gap, next) ← read_varint data i; Ok (cur ⊞ gap, next));
      '(k, i) ← read_varint data i;
      if want <? cur then Ok []
      else
        let '(vals, r) := get_gaps (N.to_nat k) data i 0 in
        i ← r;
        if cur =? want then Ok ((fun v => v `mod` u32_limit) <$> vals)
        else if (i <=? end_)%nat then decode_loop n false data cur i want end_
        else Err RecordPastBlock
  end.

Definition decode_block (reg : BlockedTable) (data : bytes) (block : nat) (want : NodeId)
    : option (result blocked_error (list ScopeId)) :=
  o ← tb_offsets reg !! block;
  o' ← tb_offsets reg !! S block;
  cur ← firsts reg !! block;
  let at_ := (blocks_at reg + N.to_nat o)%nat in
  records ← read_le 4 data (at_ + 8);
  Some (decode_loop (N.to_nat records) true data cur (at_ + 12) want
          (blocks_at reg + N.to_nat o')).

(** [scopes_for]: a malformed block yields no scopes. *)
Definition scopes_for (reg : BlockedTable) (data : bytes) (root : NodeId) : option (list ScopeId) :=
  match partition_le root (firsts reg) with
  | O => Some []
  | S block =>
      r ← decode_block reg data block root;
      Some (match r with Ok scopes => scopes | Err _ => [] end)
  end.

(** ** Iterating *)

Record BlockedIter := mkIter {
  it_block : nat;
  it_at : nat;
  it_records : N;
  it_root : NodeId;
  it_first : bool;
  it_scopes : N;
  it_scope : N;
}.

Definition iter_init : BlockedIter := mkIter 0 0 0 0 true 0 0.

Inductive iter_outcome :=
| Yield (e : NodeId * ScopeId) (it : BlockedIter)
| Again (it : BlockedIter)
| Done
| IterPanic.

(** One turn of the loop in [next]. *)
Definition iter_step (reg : BlockedTable) (data : bytes) (it : BlockedIter) : iter_outcome :=
  if 0 <? it_scopes it then
    match get_varint data (it_at it) with
    | Err _ => Done
    | Ok (gap, next) =>
        let scope := it_scope it ⊞ gap in
        Yield (it_root it, scope `mod` u32_limit)
          (mkIter (it_block it) next (it_records it) (it_root it) (it_first it)
             (it_scopes it - 1) scope)
    end
  else if it_records it =? 0 then
    match firsts reg !! it_block it with
    | None => Done
    | Some root =>
        match tb_offsets reg !! it_block it with
        | None => IterPanic
        | Some o =>
            let at_ := (blocks_at reg + N.to_nat o)%nat in
            match read_le 4 data (at_ + 8) with
            | None => IterPanic
            | Some records =>
                Again (mkIter (S (it_block it)) (at_ + 12) records root true 0 (it_scope it))
            end
        end
    end
  else
    match (if it_first it then Ok (it_root it, it_at it)
           else '(gap, next) ← get_varint data (it_at it); Ok (it_root it ⊞ gap, next)) with
    | Err _ => Done
    | Ok (root, at_) =>
        match get_varint data at_ with
        | Err _ => Done
        | Ok (k, next) =>
            Again (mkIter (it_block it) next (it_records it - 1) root false k 0)
        end
    end.

(** Everything the iterator yields: [None] if it panics or [fuel] turns of the
    loop are not enough. *)
Fixpoint iter_collect (fuel : nat) (reg : BlockedTable) (data : bytes) (it : BlockedIter)
    : option (list (NodeId * ScopeId)) :=
  match fuel with
  | O => None
  | S fuel =>
      match iter_step reg data it with
      | Yield e it => es ← iter_collect fuel reg data it; Some (e :: es)
      | Again it => iter_collect fuel reg data it
      | Done => Some []
      | IterPanic => None
      end
  end.

(** Turns that are enough for any table: a turn either opens the next block or reads
    a varint, which moves the read position on within the mapping. *)
Definition iter_fuel (reg : BlockedTable) (data : bytes) : nat :=
  S (length (firsts reg) * S (length data) + length data).

(** [BlockedRegistry::iter], run to its end. *)
Definition blocked_iter (reg : BlockedTable) (data : bytes) : option (list (NodeId * ScopeId)) :=
  iter_collect (iter_fuel reg data) reg data iter_init.

(** ** The writer drops exactly the consecutive repeats *)

Definition push_dedup (l : list (N * N)) (e : N * N) : list (N * N) :=
  if bool_decide (last l = Some e) then l else l ++ [e].

Lemma dedup_last (l : list (N * N)) : last (dedup l) = last l.
Proof.
  induction l as [|a [|b l] IH]; [done|done|].
  change (last (if decide (a = b) then dedup (b :: l) else a :: dedup (b :: l)) = last (b :: l)).
  case_decide; [done|]. rewrite last_cons, IH. by destruct (last (b :: l)) eqn:E; [|apply last_None in E].
Qed.

Lemma dedup_snoc (l : list (N * N)) e : dedup (l ++ [e]) = push_dedup (dedup l) e.
Proof.
  induction l as [|a [|b l] IH]; [done| |].
  - cbn. unfold push_dedup. cbn. repeat case_match; case_bool_decide; congruence.
  - change (dedup ((a :: b :: l) ++ [e])) with
      (if decide (a = b) then dedup ((b :: l) ++ [e]) else a :: dedup ((b :: l) ++ [e])).
    change (dedup (a :: b :: l)) with (if decide (a = b) then dedup (b :: l) else a :: dedup (b :: l)).
    rewrite IH. case_decide; [done|]. unfold push_dedup. rewrite last_cons.
    destruct (last (dedup (b :: l))) as [x|] eqn:E.
    + by case_bool_decide.
    + rewrite dedup_last in E. by apply last_None in E.
Qed.

Lemma last_flatten_pending w rs root scope :
  pushed w rs →
  (w_key w = Some root ∧ last (w_vals w) = Some scope) ↔ last (flatten rs) = Some (root, scope).
Proof.
  intros P. destruct (w_key w) as [k|] eqn:Hk.
  - pose proof P as [(c & o & I & E) Hk' _ _ Hn]. rewrite Hk in Hk'.
    unfold pending in E. rewrite Hk in E. rewrite E, app_assoc, flatten_app, flatten_one, last_app, fmap_last.
    rewrite E, app_assoc in Hn. apply Forall_app in Hn as [_ Hn]. apply Forall_cons in Hn as [Hn _]. cbn in Hn.
    destruct (last (w_vals w)) as [v|] eqn:Ev; [|by apply last_None in Ev]. cbn. naive_solver.
  - pose proof (pu_key _ _ P) as Hk'. rewrite Hk in Hk'. split; [naive_solver|].
    destruct (last rs) eqn:E; [done|]. apply last_None in E as ->. done.
Qed.

(** Entries pushed so far, in root order. *)
Lemma reg_push_pushed w rs root scope :
  rw_encoding w = RegBlocked → pushed (rw_writer w) rs →
  (∀ k, fst <$> last rs = Some k → k <= root) →
  ∃ rs', rw_encoding (reg_push w root scope) = RegBlocked ∧
    pushed (rw_writer (reg_push w root scope)) rs' ∧
    flatten rs' = push_dedup (flatten rs) (root, scope) ∧ fst <$> last rs' = Some root.
Proof.
  intros He P Hle. unfold reg_push, push_dedup. rewrite He.
  pose proof (last_flatten_pending _ _ root scope P) as Hl. case_bool_decide as H.
  - exists rs. rewrite bool_decide_eq_true_2 by (by apply Hl). split_and!; [done|done|done|].
    rewrite <-(pu_key _ _ P). apply H.
  - rewrite bool_decide_eq_false_2 by (by rewrite <-Hl). cbn.
    destruct (push_entry_pushed _ _ root scope P Hle) as (rs' & ? & ? & ?). eauto.
Qed.

Lemma reg_push_all_pushed es : ∀ w rs l,
  rw_encoding w = RegBlocked → pushed (rw_writer w) rs → flatten rs = dedup l →
  StronglySorted N.le (l ++ es).*1 →
  ∃ rs', rw_encoding (reg_push_all w es) = RegBlocked ∧
    pushed (rw_writer (reg_push_all w es)) rs' ∧ flatten rs' = dedup (l ++ es).
Proof.
  induction es as [|[r s] es IH]; intros w rs l He P Hf Hs; cbn.
  { rewrite app_nil_r. eauto. }
  destruct (reg_push_pushed w rs r s He P) as (rs' & He' & P' & Hf' & _).
  { intros k Hk. destruct (last_key_split _ _ Hk) as (rs0 & vs & E).
    pose proof (pu_nonempty _ _ P) as Hn. rewrite E in Hn. apply Forall_app in Hn as [_ Hn].
    apply Forall_cons in Hn as [Hn _]. cbn in Hn. destruct vs as [|v vs]; [done|].
    assert ((k, v) ∈ l) as Hin.
    { rewrite <-elem_of_dedup, <-Hf, E, flatten_app, flatten_one, elem_of_app. right. left. }
    by apply (sorted_le_fst l ((r, s) :: es) (k, v) (r, s)); [|done|left]. }
  rewrite cons_middle, app_assoc. apply (IH _ rs'); [done|done| |].
  - by rewrite Hf', Hf, dedup_snoc.
  - by rewrite <-app_assoc.
Qed.

(** ** The reader finds what was written *)

Lemma decode_loop_gap n data prev k i want end_ j :
  k < u64_limit → prev < u64_limit → read_varint data i = Ok (k ⊟ prev, j) →
  decode_loop (S n) false data prev i want end_ = decode_loop (S n) true data k j want end_.
Proof.
  intros Hk Hp H. cbn [decode_loop]. rewrite H. cbn [mbind result_bind]. by rewrite wadd64_wsub64.
Qed.

Lemma map_mod_small (vals : list N) :
  Forall (fun v => v < u32_limit) vals → (fun v => v `mod` u32_limit) <$> vals = vals.
Proof.
  induction 1 as [|v vals Hv _ IH]; [done|]. rewrite fmap_cons, IH. by rewrite N.mod_small.
Qed.

Lemma decode_loop_record n k vs pre post want end_ :
  rec_ok u32_limit (k, vs) → (length pre + length (encode_record vs) ≤ end_)%nat →
  decode_loop (S n) true (pre ++ encode_record vs ++ post) k (length pre) want end_ =
    if want <? k then Ok []
    else if k =? want then Ok vs
    else decode_loop n false (pre ++ encode_record vs ++ post) k
           (length (pre ++ encode_record vs)) want end_.
Proof.
  intros [Hk Hv Hl] He. cbn [fst snd] in *. cbn [decode_loop mbind result_bind].
  assert (Forall (fun v => v < u64_limit) vs) as Hv64.
  { eapply Forall_impl; [exact Hv|]. cbn. intros v H. assert (u32_limit < u64_limit) by done. lia. }
  unfold encode_record in *. rewrite length_app in He.
  set (data := pre ++ (put_varint _ ++ _) ++ post).
  assert (data = pre ++ put_varint (N.of_nat (length vs)) ++ put_gaps 0 vs ++ post) as E1
    by (unfold data; by rewrite <-app_assoc).
  rewrite E1 at 1. rewrite read_put_varint by done. cbn [mbind result_bind].
  destruct (want <? k); [done|].
  rewrite E1 at 1. rewrite Nat2N.id, app_assoc, <-length_app, get_gaps_all by done. cbn [mbind result_bind].
  rewrite map_mod_small by done. destruct (k =? want); [done|].
  rewrite !length_app. destruct (Nat.leb_spec (length pre + length (put_varint (N.of_nat (length vs))) +
    length (put_gaps 0 vs)) end_); [|lia]. f_equal. lia.
Qed.

Lemma decode_loop_spec rs : ∀ k vs pre post want end_,
  Forall (rec_ok u32_limit) ((k, vs) :: rs) → StronglySorted N.lt ((k, vs) :: rs).*1 →
  (length pre + length (encode_record vs) + length (enc_recs k rs) ≤ end_)%nat →
  decode_loop (S (length rs)) true (pre ++ encode_record vs ++ enc_recs k rs ++ post) k
    (length pre) want end_ = Ok (vals_of (flatten ((k, vs) :: rs)) want).
Proof.
  induction rs as [|[k' vs'] rs IH]; intros k vs pre post want end_ Hok Hs He;
    pose proof Hok as [Hr Hrest]%Forall_cons; pose proof Hs as Hs0;
    pose proof (sorted_keys_cons _ _ Hs) as [Hs' Hlt];
    (rewrite decode_loop_record; [|done|cbn [enc_recs length] in He; lia]);
    (destruct (N.ltb_spec want k) as [Hw|Hw];
      [rewrite vals_of_absent; [done|]; intros r Hin Er;
       pose proof (first_key_le _ r Hs0 Hin) as Hf; cbn in Hf; lia|]);
    rewrite vals_of_record; destruct (N.eqb_spec k want) as [->|Hne].
  - by rewrite app_nil_r.
  - done.
  - rewrite vals_of_absent; [by rewrite app_nil_r|]. intros r Hin Er.
    specialize (Hlt r Hin). cbn in Hlt. lia.
  - cbn [length app] in *. pose proof Hrest as [[Hk' _ _] _]%Forall_cons. cbn in Hk'.
    destruct (next_record k vs k' vs' rs pre post) as [-> Hg].
    rewrite (decode_loop_gap _ _ _ _ _ _ _ _ Hk' (ro_key _ _ Hr) Hg).
    apply IH; [done|done|]. cbn [enc_recs] in He. rewrite !length_app in He |- *. lia.
Qed.

(** A lookup on the table the writer produced. *)
Lemma scopes_for_table n bs pre post root :
  table_ok bs → Forall (rec_ok u32_limit) (mjoin bs) →
  scopes_for (table_at (length pre) n bs) (pre ++ enc_table n bs ++ post) root =
    Some (vals_of (flatten (mjoin bs)) root).
Proof.
  intros T Hok. unfold scopes_for. pose proof (partition_le_spec root bs T) as H.
  change (firsts (table_at (length pre) n bs)) with (first_key <$> bs).
  destruct (partition_le root (first_key <$> bs)) as [|m]; [by rewrite H|].
  destruct H as (bs1 & b & bs2 & -> & <- & Hf & ->).
  destruct (table_ok_app bs1 (b :: bs2) T) as (_ & T2 & _).
  destruct (table_ok_app [b] bs2 T2) as (T3 & _ & _).
  pose proof (to_blocks _ T3) as [[Hne _] _]%Forall_cons.
  pose proof (to_sorted _ T3) as Hs. rewrite mjoin_cons, app_nil_r in Hs.
  rewrite join_app, mjoin_cons in Hok. apply Forall_app in Hok as [_ Hok].
  apply Forall_app in Hok as [Hok _]. destruct b as [|[k vs] b]; [done|].
  destruct (located_block n bs1 k vs b bs2 pre post T) as (o & o' & hd & post' & O1 & O2 & O3 & Ed & Hhd & Hn & He).
  unfold decode_block. rewrite O1. cbn [mbind option_bind]. rewrite O2. cbn [mbind option_bind].
  rewrite O3. cbn [mbind option_bind]. rewrite Hn. cbn [mbind option_bind].
  rewrite Nat2N.id, <-Hhd, Ed, decode_loop_spec; [done|done|done|]. by rewrite He.
Qed.

(** ** The iterator yields what was written *)

Section iter.
Context (reg : BlockedTable) (data : bytes).

Definition yields (it : BlockedIter) (l : list (NodeId * ScopeId)) : Prop :=
  ∃ fuel, iter_collect fuel reg data it = Some l.

Lemma yields_again it it' l : iter_step reg data it = Again it' → yields it' l → yields it l.
Proof using. intros H [fuel F]. exists (S fuel). cbn. by rewrite H. Qed.

Lemma yields_yield it it' e l : iter_step reg data it = Yield e it' → yields it' l → yields it (e :: l).
Proof using. intros H [fuel F]. exists (S fuel). cbn. by rewrite H, F. Qed.

Lemma iter_vals vals : ∀ acc pre post blk recs root first l,
  data = pre ++ put_gaps acc vals ++ post → acc < u64_limit → Forall (fun v => v < u32_limit) vals →
  (∀ acc', yields (mkIter blk (length (pre ++ put_gaps acc vals)) recs root first 0 acc') l) →
  yields (mkIter blk (length pre) recs root first (N.of_nat (length vals)) acc)
    (((fun v => (root, v)) <$> vals) ++ l).
Proof using.
  induction vals as [|v vals IH]; intros acc pre post blk recs root first l Hd Ha Hv H.
  { specialize (H acc). cbn [put_gaps] in H. by rewrite app_nil_r in H. }
  apply Forall_cons in Hv as [Hv Hvs]. assert (v < u64_limit) as Hv64.
  { assert (u32_limit < u64_limit) by done. lia. }
  cbn [put_gaps] in *. rewrite fmap_cons. cbn [app]. eapply yields_yield.
  - unfold iter_step. cbn [it_scopes it_at it_scope it_root it_block it_records it_first].
    destruct (N.ltb_spec 0 (N.of_nat (length (v :: vals)))) as [_|E]; [|cbn in E; lia].
    rewrite Hd at 1. rewrite <-app_assoc, get_put_varint by apply wsub64_lt.
    rewrite wadd64_wsub64, N.mod_small by done. done.
  - replace (N.of_nat (length (v :: vals)) - 1) with (N.of_nat (length vals)) by (cbn; lia).
    rewrite <-length_app. apply (IH v (pre ++ put_varint (v ⊟ acc)) post); [|done|done|].
    + by rewrite Hd, <-!app_assoc.
    + intros acc'. specialize (H acc'). by rewrite <-app_assoc.
Qed.

(** One record, its root already read. *)
Lemma iter_record vs pre post blk recs root (first : bool) root0 at0 sc l :
  data = pre ++ encode_record vs ++ post → rec_ok u32_limit (root, vs) → recs ≠ 0 →
  (if first then root0 = root ∧ at0 = length pre
   else root0 < u64_limit ∧ get_varint data at0 = Ok (root ⊟ root0, length pre)) →
  (∀ acc', yields (mkIter blk (length (pre ++ encode_record vs)) (recs - 1) root false 0 acc') l) →
  yields (mkIter blk at0 recs root0 first 0 sc) (flatten [(root, vs)] ++ l).
Proof using.
  intros Hd [Hk Hv Hl] Hr Hf H. cbn [fst snd] in *. unfold encode_record in *.
  rewrite flatten_one. eapply yields_again.
  - unfold iter_step. cbn [it_scopes it_at it_scope it_root it_block it_records it_first].
    cbn [N.ltb N.compare]. rewrite (proj2 (N.eqb_neq _ _) Hr).
    assert ((if first then Ok (root0, at0) else '(gap, next) ← get_varint data at0; Ok (root0 ⊞ gap, next))
      = (Ok (root, length pre) : result varint_error (N * nat))) as ->.
    { destruct first; [by destruct Hf as [-> ->]|]. destruct Hf as [Hr0 ->]. cbn.
      by rewrite wadd64_wsub64. }
    rewrite Hd at 1. rewrite <-app_assoc, get_put_varint by done. done.
  - rewrite <-length_app. eapply (iter_vals vs 0 (pre ++ put_varint (N.of_nat (length vs))) post).
    + by rewrite Hd, <-!app_assoc.
    + done.
    + done.
    + intros acc'. specialize (H acc'). by rewrite <-app_assoc.
Qed.

Lemma iter_recs rs : ∀ prev pre post blk sc l,
  data = pre ++ enc_recs prev rs ++ post → Forall (rec_ok u32_limit) rs → prev < u64_limit →
  (∀ at' root' sc', yields (mkIter blk at' 0 root' false 0 sc') l) →
  yields (mkIter blk (length pre) (N.of_nat (length rs)) prev false 0 sc) (flatten rs ++ l).
Proof using.
  induction rs as [|[k vs] rs IH]; intros prev pre post blk sc l Hd Hok Hp H; [apply H|].
  apply Forall_cons in Hok as [Hr Hok]. change ((k, vs) :: rs) with ([(k, vs)] ++ rs).
  rewrite flatten_app, <-app_assoc. cbn [enc_recs] in Hd.
  eapply (iter_record vs (pre ++ put_varint (k ⊟ prev)) (enc_recs k rs ++ post)); [|done|cbn; lia| |].
  - by rewrite Hd, <-!app_assoc.
  - split; [done|]. rewrite Hd, <-!app_assoc, get_put_varint by apply wsub64_lt. by rewrite length_app.
  - intros acc'. replace (N.of_nat (length ([(k, vs)] ++ rs)) - 1) with (N.of_nat (length rs)) by (cbn; lia).
    apply (IH k _ post); [|done|apply Hr|done]. by rewrite Hd, <-!app_assoc.
Qed.
End iter.

Lemma iter_blocks n bs2 : ∀ bs1 pre post at_ root first sc,
  table_ok (bs1 ++ bs2) → Forall (rec_ok u32_limit) (mjoin (bs1 ++ bs2)) →
  yields (table_at (length pre) n (bs1 ++ bs2)) (pre ++ enc_table n (bs1 ++ bs2) ++ post)
    (mkIter (length bs1) at_ 0 root first 0 sc) (flatten (mjoin bs2)).
Proof.
  induction bs2 as [|b bs2 IH]; intros bs1 pre post at_ root first sc T Hok.
  { exists 1%nat. cbn. rewrite lookup_ge_None_2; [done|]. by rewrite length_fmap, app_nil_r. }
  destruct (table_ok_app bs1 (b :: bs2) T) as (_ & T2 & _).
  pose proof (to_blocks _ T2) as [[Hne _] _]%Forall_cons.
  rewrite mjoin_cons, flatten_app.
  pose proof Hok as Hok'. rewrite join_app, mjoin_cons in Hok'.
  apply Forall_app in Hok' as [_ Hok']. apply Forall_app in Hok' as [Hb _].
  destruct b as [|[k vs] b]; [done|].
  assert (∀ at' root' sc', yields (table_at (length pre) n (bs1 ++ ((k, vs) :: b) :: bs2))
    (pre ++ enc_table n (bs1 ++ ((k, vs) :: b) :: bs2) ++ post)
    (mkIter (S (length bs1)) at' 0 root' false 0 sc') (flatten (mjoin bs2))) as Hrest.
  { intros at' root' sc'. specialize (IH (bs1 ++ [(k, vs) :: b]) pre post at' root' false sc').
    rewrite <-app_assoc, length_app, Nat.add_1_r in IH. by apply IH. }
  destruct (located_block n bs1 k vs b bs2 pre post T) as (o & o' & hd & post' & O1 & _ & O3 & Ed & Hhd & Hn & _).
  eapply yields_again.
  - unfold iter_step. cbn [it_scopes it_at it_scope it_root it_block it_records it_first N.ltb N.compare N.eqb].
    by rewrite O3, O1, Hn.
  - rewrite (flatten_app [(k, vs)] b : flatten ((k, vs) :: b) = _), <-app_assoc.
    apply Forall_cons in Hb as [Hr Hb].
    eapply (iter_record _ _ vs hd (enc_recs k b ++ post')); [done|done|lia|by rewrite Hhd|].
    intros acc'. replace (N.of_nat (S (length b)) - 1) with (N.of_nat (length b)) by lia.
    apply (iter_recs _ _ b k _ post'); [|done|apply Hr|done]. by rewrite Ed, <-!app_assoc.
Qed.

(** ** Round trip *)

(** Entries a registry can hold: roots in ascending order, at their widths. *)
Record entries_ok (es : list (NodeId * ScopeId)) : Prop := {
  eo_sorted : StronglySorted N.le es.*1;
  eo_roots : Forall (fun e => e.1 < u64_limit) es;
  eo_scopes : Forall (fun e => e.2 < u32_limit) es;
}.

Lemma Forall_dedup {A} `{EqDecision A} (P : A → Prop) (l : list A) : Forall P l → Forall P (dedup l).
Proof. rewrite !Forall_forall. intros H x. rewrite elem_of_dedup. apply H. Qed.

(** Push entries in order, finish, and the payload is a well-formed table. *)
Lemma reg_finish_table es block_bytes ty payload :
  entries_ok es → block_bytes < u32_limit →
  reg_finish (reg_push_all (reg_with_block_size RegBlocked block_bytes) es) = Some (ty, payload) →
  N.of_nat (length payload) < u64_limit →
  ∃ bs, ty = BLOCKED_BLOB_TYPE ∧ payload = enc_table (wrap64 (N.of_nat (length (dedup es)))) bs ∧
    flatten (mjoin bs) = dedup es ∧ table_ok bs ∧ Forall (rec_ok u32_limit) (mjoin bs).
Proof.
  intros [E1 E2 E3] Hb Hf Hn.
  destruct (reg_push_all_pushed es (reg_with_block_size RegBlocked block_bytes) [] []) as (rs & He & P & Hfl);
    [done|by apply writer_new_pushed|done|done|]. cbn [app] in Hfl.
  unfold reg_finish in Hf. destruct (_ =? 0); [done|]. rewrite He in Hf. simplify_eq.
  assert (Forall small_key rs) as Hk.
  { apply (flatten_small_key (fun k => k < u64_limit)); [apply P|]. rewrite Hfl. by apply Forall_dedup. }
  destruct (finish_table_ok _ rs P Hk Hn) as (bs & Hfin & <- & T).
  exists bs. rewrite Hfin, (pu_entries _ _ P), Hfl. split_and!; try done.
  apply table_recs_ok; [done|]. apply (flatten_vals (fun v => v < u32_limit)).
  rewrite Hfl. by apply Forall_dedup.
Qed.

(** C35. A blocked registry survives the disk. Push entries in root order, at any
    block size, and finish; put the payload anywhere in a mapped file: [parse]
    accepts it, reports the number of distinct entries, [scopes_for] returns for
    every root exactly the scopes pushed for it, without panicking, and the
    iterator yields every entry once, in order, in finitely many steps. *)
Theorem registry_roundtrip (es : list (NodeId * ScopeId)) (block_bytes : N) (ty : string)
    (payload pre post : bytes) :
  entries_ok es → block_bytes < u32_limit →
  reg_finish (reg_push_all (reg_with_block_size RegBlocked block_bytes) es) = Some (ty, payload) →
  N.of_nat (length payload) < u64_limit →
  let data := pre ++ payload ++ post in
  ∃ reg, parse data (length pre) (length pre + length payload) = Ok reg ∧
    tb_count reg = wrap64 (N.of_nat (length (dedup es))) ∧
    (∀ root, scopes_for reg data root = Some (vals_of (dedup es) root)) ∧
    ∃ fuel, iter_collect fuel reg data iter_init = Some (dedup es).
Proof.
  intros E Hb Hf Hn. destruct (reg_finish_table es block_bytes ty payload E Hb Hf Hn)
    as (bs & _ & -> & Hfl & T & Hok). cbn zeta.
  rewrite parse_table by (apply wrap64_lt || done). eexists. split; [done|]. split; [done|]. split.
  - intros root. by rewrite scopes_for_table, Hfl.
  - rewrite <-Hfl. by apply (iter_blocks _ bs []).
Qed.

Definition demo_entries : list (NodeId * ScopeId) := [(3, 1); (3, 300); (3, 300); (700, 1); (701, 2)].

Definition demo_payload : bytes :=
  finish_blocked (rw_writer (reg_push_all (reg_with_block_size RegBlocked 5) demo_entries)).

Lemma registry_roundtrip_witness :
  ∃ reg, parse ([7] ++ demo_payload ++ [9]) 1 (1 + length demo_payload) = Ok reg ∧
    scopes_for reg ([7] ++ demo_payload ++ [9]) 3 = Some [1; 300] ∧ length demo_payload = 73%nat.
Proof.
  destruct (registry_roundtrip demo_entries 5 BLOCKED_BLOB_TYPE demo_payload [7] [9])
    as (reg & Hp & _ & Hs & _).
  - split; [|repeat constructor|repeat constructor]. repeat constructor; done.
  - done.
  - by vm_compute.
  - by vm_compute.
  - exists reg. split; [exact Hp|]. split; [by rewrite Hs|by vm_compute].
Defined.

(** ** Untrusted payloads *)

Lemma parse_firsts_ok data at_ offsets : ∀ i fs,
  parse_firsts data at_ i offsets = Ok fs →
  length fs = pred (length offsets) ∧
  ∀ j o, (j < length fs)%nat → offsets !! j = Some o → (at_ + N.to_nat o + 12 ≤ length data)%nat.
Proof.
  induction offsets as [|o offsets IH]; intros i fs; cbn [parse_firsts].
  { intros [= <-]. split; [done|]. cbn. lia. }
  destruct offsets as [|o' offsets].
  { intros [= <-]. split; [done|]. cbn. lia. }
  destruct ((12 <=? o' - o) && _) eqn:Hc; [|done]. apply andb_prop in Hc as [_ Hc%Nat.leb_le].
  destruct (parse_firsts data at_ (S i) (o' :: offsets)) as [fs'|] eqn:E; [|done].
  cbn [mbind result_bind]. intros [= <-]. destruct (IH _ _ E) as [Hl Hall]. split; [cbn in *; lia|].
  intros [|j] q Hj Hq; cbn in Hq; [by simplify_eq|]. apply (Hall j q); [cbn in Hj; lia|done].
Qed.

Lemma parse_firsts_no_panic data at_ offsets : ∀ i,
  parse_firsts data at_ i offsets ≠ Err BlobPanic.
Proof.
  induction offsets as [|o offsets IH]; intros i; cbn [parse_firsts]; [done|].
  destruct offsets as [|o' offsets]; [done|]. destruct (_ && _); [|done]. specialize (IH (S i)).
  destruct (parse_firsts data at_ (S i) (o' :: offsets)) as [fs|er] eqn:E;
    cbn [mbind result_bind]; [intros [=]|]. intros [= ->]. by apply IH.
Qed.

Lemma parse_ok data s e reg :
  parse data s e = Ok reg →
  length (tb_offsets reg) = S (length (firsts reg)) ∧
  ∀ j o, (j < length (firsts reg))%nat → tb_offsets reg !! j = Some o →
    (blocks_at reg + N.to_nat o + 12 ≤ length data)%nat.
Proof.
  unfold parse. repeat (case_match; [done|]).
  destruct (parse_firsts _ _ _ _) as [fs|] eqn:E; [|done]. cbn [mbind result_bind].
  case_match; [done|]. intros [= <-]. cbn [tb_offsets firsts blocks_at].
  destruct (parse_firsts_ok _ _ _ _ _ E) as [Hl Hall]. split; [|done].
  rewrite Hl, Nat.succ_pred; done.
Qed.

Lemma partition_le_bound key l : (partition_le key l ≤ length l)%nat.
Proof. induction l as [|r l IH]; cbn; [done|]. destruct (r <=? key); lia. Qed.

(** Reading an untrusted payload: once [parse] has accepted a table, no lookup
    panics, whatever the bytes of its blocks; but [parse] itself can panic, when
    the block count of the header makes its size computation wrap around. *)
Theorem registry_reader_safe :
  (∀ data s e reg root, parse data s e = Ok reg → is_Some (scopes_for reg data root)) ∧
  (∀ data s e, parse data s e = Err BlobPanic →
     u64_limit <= 16 + (le_get (take 8 (drop 8 (take (e - s) (drop s data)))) + 1) * 8) ∧
  parse (put_u64 0 ++ put_u64 (2 ^ 61 - 1)) 0 16 = Err BlobPanic.
Proof.
  split_and!; [..|by vm_compute].
  - intros data s e reg root H. destruct (parse_ok _ _ _ _ H) as [Hl Hall]. unfold scopes_for.
    pose proof (partition_le_bound root (firsts reg)).
    destruct (partition_le root (firsts reg)) as [|m]; [by eexists|]. unfold decode_block.
    destruct (lookup_lt_is_Some_2 (tb_offsets reg) m) as [o Ho]; [lia|].
    destruct (lookup_lt_is_Some_2 (tb_offsets reg) (S m)) as [o' Ho']; [lia|].
    destruct (lookup_lt_is_Some_2 (firsts reg) m) as [f Hf]; [lia|].
    rewrite Ho. cbn [mbind option_bind]. rewrite Ho'. cbn [mbind option_bind].
    rewrite Hf. cbn [mbind option_bind].
    destruct (read_le_total 4 data (blocks_at reg + N.to_nat o + 8)) as [r ->].
    { specialize (Hall m o ltac:(lia) Ho). lia. }
    by eexists.
  - intros data s e. unfold parse. do 2 (case_match; [done|]).
    set (blocks := le_get (take 8 (drop 8 _))). case_match; [done|].
    destruct (N.ltb_spec (N.of_nat (length (take (e - s) (drop s data)))) (16 + (blocks + 1) * 8)) as [Hlt|];
      [|repeat (case_match; [done|]); destruct (parse_firsts _ _ _ _) as [fs|er] eqn:Ef; cbn;
        [by case_match|intros [= ->]; by apply parse_firsts_no_panic in Ef]].
    intros _. destruct (N.le_gt_cases u64_limit (16 + (blocks + 1) * 8)) as [|Hb]; [done|]. exfalso.
    assert (16 ⊞ (blocks ⊞ 1) ⊠ 8 = 16 + (blocks + 1) * 8) as E.
    { assert ((blocks ⊞ 1) ⊠ 8 = (blocks + 1) * 8) as E8; [|rewrite E8; by apply wadd64_small].
      rewrite wadd64_small by lia. unfold wmul64. apply wrap64_small. lia. }
    rewrite E in *. lia.
Qed.

(** ** Iteration ends *)

Lemma get_varint_loop_advances fuel data : ∀ i v shift r next,
  get_varint_loop fuel data i v shift = Ok (r, next) → (i < next ≤ length data)%nat.
Proof.
  induction fuel as [|fuel IH]; intros i v shift r next; cbn [get_varint_loop]; [done|].
  destruct (data !! i) as [b|] eqn:Hi; [|done]. apply lookup_lt_Some in Hi.
  destruct (b <? 0x80); [intros [= <- <-]; lia|]. destruct (_ <? 64); [|done]. intros H%IH. lia.
Qed.

Section ends.
Context (data : bytes) (reg : BlockedTable).
Context (Hlen : length (tb_offsets reg) = S (length (firsts reg))).
Context (Hin : ∀ j o, (j < length (firsts reg))%nat → tb_offsets reg !! j = Some o →
  (blocks_at reg + N.to_nat o + 12 ≤ length data)%nat).

(** What is left to read: blocks not opened, and bytes behind the read position. *)
Definition iter_measure (it : BlockedIter) : nat :=
  (length (firsts reg) - it_block it) * S (length data) + (length data - it_at it).

Lemma iter_step_measure it :
  match iter_step reg data it with
  | Yield _ it' | Again it' => (iter_measure it' < iter_measure it)%nat
  | Done => True
  | IterPanic => False
  end.
Proof using Hlen Hin.
  unfold iter_step. destruct (0 <? it_scopes it).
  { destruct (get_varint data (it_at it)) as [[gap next]|] eqn:E; [|done].
    apply get_varint_loop_advances in E. unfold iter_measure. cbn [it_block it_at]. lia. }
  destruct (it_records it =? 0).
  - destruct (firsts reg !! it_block it) as [root|] eqn:Hf; [|done]. apply lookup_lt_Some in Hf.
    destruct (lookup_lt_is_Some_2 (tb_offsets reg) (it_block it)) as [o Ho]; [lia|]. rewrite Ho.
    destruct (read_le_total 4 data (blocks_at reg + N.to_nat o + 8)) as [n ->].
    { specialize (Hin _ _ Hf Ho). lia. }
    unfold iter_measure. cbn [it_block it_at].
    assert (length (firsts reg) - it_block it = S (length (firsts reg) - S (it_block it)))%nat as -> by lia.
    cbn [Nat.mul]. lia.
  - destruct (it_first it).
    + destruct (get_varint data (it_at it)) as [[k next]|] eqn:E; [|done].
      apply get_varint_loop_advances in E. unfold iter_measure. cbn [it_block it_at]. lia.
    + destruct (get_varint data (it_at it)) as [[gap at_]|] eqn:E; [|done]. cbn [mbind result_bind].
      destruct (get_varint data at_) as [[k next]|] eqn:E'; [|done].
      apply get_varint_loop_advances in E, E'. unfold iter_measure. cbn [it_block it_at]. lia.
Qed.

Lemma iter_collect_total fuel : ∀ it, (iter_measure it < fuel)%nat → is_Some (iter_collect fuel reg data it).
Proof using Hlen Hin.
  induction fuel as [|fuel IH]; intros it Hm; [lia|]. cbn [iter_collect]. pose proof (iter_step_measure it) as H.
  destruct (iter_step reg data it) as [e it'|it'| |].
  - destruct (IH it') as [l ->]; [lia|]. by eexists.
  - apply IH. lia.
  - by eexists.
  - done.
Qed.

Lemma blocked_iter_total : is_Some (blocked_iter reg data).
Proof using Hlen Hin.
  apply iter_collect_total. unfold iter_measure, iter_fuel. cbn [iter_init it_block it_at]. lia.
Qed.
End ends.

Lemma iter_collect_mono reg data fuel : ∀ fuel' it l,
  (fuel <= fuel')%nat → iter_collect fuel reg data it = Some l → iter_collect fuel' reg data it = Some l.
Proof.
  induction fuel as [|fuel IH]; intros fuel' it l Hle H; [done|]. destruct fuel' as [|fuel']; [lia|].
  cbn [iter_collect] in *. destruct (iter_step reg data it) as [e it'|it'| |]; [| |done|done].
  - destruct (iter_collect fuel reg data it') as [l'|] eqn:E; [|done].
    by rewrite (IH fuel' it' l' ltac:(lia) E).
  - apply (IH fuel'); [lia|done].
Qed.

(** What a long enough run yields is what [blocked_iter] yields. *)
Lemma blocked_iter_yields data s e reg l :
  parse data s e = Ok reg → yields reg data iter_init l → blocked_iter reg data = Some l.
Proof.
  intros Hp [fuel H]. destruct (parse_ok _ _ _ _ Hp) as [Hl Hall].
  destruct (blocked_iter_total data reg Hl Hall) as [l' Hl']. rewrite Hl'. unfold blocked_iter in Hl'.
  destruct (Nat.le_ge_cases fuel (iter_fuel reg data)) as [Hle|Hle].
  - rewrite (iter_collect_mono _ _ _ _ _ _ Hle H) in Hl'. congruence.
  - rewrite (iter_collect_mono _ _ _ _ _ _ Hle Hl') in H. congruence.
Qed.

(** Iterating a registry always ends. Once [parse] has accepted a table, the
    iterator the compactor merges runs with stops, without panicking, after at most
    [iter_fuel] turns of its loop, whatever the bytes of the blocks: every turn
    either opens the next block or consumes a varint within the mapping. And what
    it yields does not depend on how long one waits. *)
Theorem registry_iter_terminates (data : bytes) (s e : nat) (reg : BlockedTable) :
  parse data s e = Ok reg →
  ∃ l, blocked_iter reg data = Some l ∧
    ∀ fuel l', iter_collect fuel reg data iter_init = Some l' → l' = l.
Proof.
  intros Hp. destruct (parse_ok _ _ _ _ Hp) as [Hl Hall].
  destruct (blocked_iter_total data reg Hl Hall) as [l E]. exists l. split; [done|]. intros fuel l' H.
  rewrite (blocked_iter_yields _ _ _ _ l' Hp) in E by (by exists fuel). congruence.
Qed.

(** One block whose only record claims a million scopes and has bytes for one. *)
Definition lying_table : bytes :=
  put_u64 1 ++ put_u64 1 ++ put_u64 0 ++ put_u64 16 ++ put_u64 7 ++ [1; 0; 0; 0] ++ [192; 132; 61; 5].

Lemma registry_iter_terminates_witness :
  ∃ reg l, parse lying_table 0 (length lying_table) = Ok reg ∧ blocked_iter reg lying_table = Some l.
Proof.
  destruct (parse lying_table 0 (length lying_table)) as [reg|er] eqn:E.
  - destruct (registry_iter_terminates lying_table 0 (length lying_table) reg E) as (l & H & _). eauto.
  - exfalso. assert (is_ok (parse lying_table 0 (length lying_table)) = true) as H by (by vm_compute).
    by rewrite E in H.
Defined.
