(* ===== verification/MemberIndex.v ===== *)
(** The parent-ordered member index: [src/storage/members.rs].

    The layout is the registry's with 64-bit values and without the dropping of
    repeats; the reader stops decoding once it has [limit] children. *)

From S2P Require Import Prelude Types Bytes Varint Blocked BlockedRead.

Inductive MemberEncoding := MemFlat | MemBlocked.
Inductive MemberTier := Shared | Overlay.

#[export] Instance MemberEncoding_eq_dec : EqDecision MemberEncoding.
Proof. solve_decision. Defined.

Definition SHARED_FLAT_BLOB_TYPE : string := "blaze-shared-members-v1".
Definition SHARED_BLOCKED_BLOB_TYPE : string := "blaze-shared-members-v2".
Definition OVERLAY_FLAT_BLOB_TYPE : string := "blaze-overlay-members-v1".
Definition OVERLAY_BLOCKED_BLOB_TYPE : string := "blaze-overlay-members-v2".

(** [FromStr]. *)
Definition member_encoding_from_str (s : string) : result string MemberEncoding :=
  if bool_decide (s = "flat" ∨ s = "v1")%string then Ok MemFlat
  else if bool_decide (s = "blocked" ∨ s = "varint" ∨ s = "v2")%string then Ok MemBlocked
  else Err s.

(** ** Writing *)

Record MemberWriter := mkMemWriter {
  mw_encoding : MemberEncoding;
  mw_tier : MemberTier;
  mw_flat : bytes;
  mw_writer : Writer;
}.

Definition mem_with_block_size (e : MemberEncoding) (t : MemberTier) (block_bytes : N) : MemberWriter :=
  mkMemWriter e t (if bool_decide (e = MemFlat) then put_u64 0 else []) (writer_new block_bytes).

Definition mw_new (e : MemberEncoding) (t : MemberTier) : MemberWriter := mem_with_block_size e t 512.

Definition mw_pairs (w : MemberWriter) : N := w_entries (mw_writer w).

(** [push]; the order checks are debug assertions. *)
Definition mw_push (w : MemberWriter) (parent child : NodeId) : MemberWriter :=
  let b := mw_writer w in
  match mw_encoding w with
  | MemFlat =>
      mkMemWriter MemFlat (mw_tier w) (mw_flat w ++ put_u64 parent ++ put_u64 child)
        (mkWriter (w_entries b ⊞ 1) (w_key b) (w_vals b) (w_body b) (w_records b) (w_first b)
           (w_prev b) (w_blocks b) (w_offsets b) (w_block_bytes b))
  | MemBlocked => mkMemWriter MemBlocked (mw_tier w) (mw_flat w) (push_entry b parent child)
  end.

Definition mw_push_all (w : MemberWriter) (ps : list (NodeId * NodeId)) : MemberWriter :=
  foldl (fun w p => mw_push w p.1 p.2) w ps.

(** [close_record] and [close_block] are the registry's. *)
Definition mw_close_record (w : MemberWriter) : MemberWriter :=
  mkMemWriter (mw_encoding w) (mw_tier w) (mw_flat w) (close_record (mw_writer w)).

Definition mw_close_block (w : MemberWriter) : MemberWriter :=
  mkMemWriter (mw_encoding w) (mw_tier w) (mw_flat w) (close_block (mw_writer w)).

Definition mw_finish (w : MemberWriter) : option (string * bytes) :=
  if mw_pairs w =? 0 then None
  else
    let '(flat_type, blocked_type) :=
      match mw_tier w with
      | Shared => (SHARED_FLAT_BLOB_TYPE, SHARED_BLOCKED_BLOB_TYPE)
      | Overlay => (OVERLAY_FLAT_BLOB_TYPE, OVERLAY_BLOCKED_BLOB_TYPE)
      end in
    match mw_encoding w with
    | MemFlat => Some (flat_type, put_u64 (mw_pairs w) ++ drop 8 (mw_flat w))
    | MemBlocked => Some (blocked_type, finish_blocked (mw_writer w))
    end.

(** ** Reading *)

(** [BlockedMembers::parse] checks what [BlockedRegistry::parse] checks. *)
Definition members_parse (data : bytes) (start end_ : nat) : result blocked_error BlockedTable :=
  parse data start end_.

(** The loop of [decode_block]: the children appended to [out], and how it ended. *)
Fixpoint member_loop (n : nat) (first : bool) (data : bytes) (cur : NodeId) (i : nat)
    (want : NodeId) (limit end_ : nat) : list NodeId * result blocked_error unit :=
  match n with
  | O => ([], Ok tt)
  | S n =>
      match ('(cur, i) ← (if first then Ok (cur, i)
                          else '(gap, next) ← read_varint data i; Ok (cur ⊞ gap, next));
             '(k, i) ← read_varint data i; Ok (cur, k, i)) with
      | Err e => ([], Err e)
      | Ok (cur, k, i) =>
          if want <? cur then ([], Ok tt)
          else if cur =? want then
            let '(vals, r) := get_gaps (Nat.min (N.to_nat k) limit) data i 0 in
            (vals, _ ← r; Ok tt)
          else
            match (get_gaps (N.to_nat k) data i 0).2 with
            | Err e => ([], Err e)
            | Ok i =>
                if (i <=? end_)%nat then member_loop n false data cur i want limit end_
                else ([], Err RecordPastBlock)
            end
      end
  end.

Definition member_decode_block (t : BlockedTable) (data : bytes) (block : nat) (want : NodeId)
    (limit : nat) : option (list NodeId * result blocked_error unit) :=
  o ← tb_offsets t !! block;
  o' ← tb_offsets t !! S block;
  cur ← firsts t !! block;
  let at_ := (blocks_at t + N.to_nat o)%nat in
  records ← read_le 4 data (at_ + 8);
  Some (member_loop (N.to_nat records) true data cur (at_ + 12) want limit
          (blocks_at t + N.to_nat o')).

(** [BlockedMembers::children_of]: what is appended to [out]. *)
Definition members_children_of (t : BlockedTable) (data : bytes) (parent : NodeId) (limit : nat)
    : option (list NodeId) :=
  if (limit =? 0)%nat then Some []
  else
    match partition_le parent (firsts t) with
    | O => Some []
    | S block => '(out, _) ← member_decode_block t data block parent limit; Some out
    end.

(** [for_each]: the calls made, and whether the loop came to its end. *)
Fixpoint each_record (n : nat) (first : bool) (data : bytes) (cur : NodeId) (i : nat)
    : list (NodeId * NodeId) * bool :=
  match n with
  | O => ([], true)
  | S n =>
      match ('(cur, i) ← (if first then Ok (cur, i)
                          else '(gap, next) ← read_varint data i; Ok (cur ⊞ gap, next));
             '(k, i) ← read_varint data i; Ok (cur, k, i)) with
      | Err _ => ([], false)
      | Ok (cur, k, i) =>
          let '(vals, r) := get_gaps (N.to_nat k) data i 0 in
          let calls := (fun v => (cur, v)) <$> vals in
          match r with
          | Err _ => (calls, false)
          | Ok i => let '(more, ok) := each_record n false data cur i in (calls ++ more, ok)
          end
      end
  end.

Fixpoint each_block (blocks_at : nat) (offsets firsts : list N) (data : bytes)
    : list (NodeId * NodeId) :=
  match offsets, firsts with
  | o :: offsets, f :: firsts =>
      let at_ := (blocks_at + N.to_nat o)%nat in
      match read_le 4 data (at_ + 8) with
      | None => []
      | Some records =>
          let '(calls, ok) := each_record (N.to_nat records) true data f (at_ + 12) in
          if ok : bool then calls ++ each_block blocks_at offsets firsts data else calls
      end
  | _, _ => []
  end.

Definition members_for_each (t : BlockedTable) (data : bytes) : list (NodeId * NodeId) :=
  each_block (blocks_at t) (tb_offsets t) (firsts t) data.

(** ** One record at a time *)

Section record.
Context (k : NodeId) (vs : list NodeId) (pre post : bytes).
Let data := pre ++ encode_record vs ++ post.
Context (Hok : rec_ok u64_limit (k, vs)).

Lemma read_count : read_varint data (length pre) =
  Ok (N.of_nat (length vs), length (pre ++ put_varint (N.of_nat (length vs)))).
Proof using Hok.
  unfold data, encode_record. rewrite <-app_assoc, read_put_varint by apply Hok. by rewrite length_app.
Qed.

Lemma read_values m :
  (m ≤ length vs)%nat →
  get_gaps m data (length (pre ++ put_varint (N.of_nat (length vs)))) 0 =
    (take m vs, Ok (length (pre ++ put_varint (N.of_nat (length vs))) + length (put_gaps 0 (take m vs)))%nat).
Proof using Hok.
  intros Hm. unfold data, encode_record. rewrite <-app_assoc, app_assoc.
  apply get_gaps_spec; [done|apply Hok|done].
Qed.

Lemma read_all_values :
  get_gaps (length vs) data (length (pre ++ put_varint (N.of_nat (length vs)))) 0 =
    (vs, Ok (length (pre ++ encode_record vs))).
Proof using Hok.
  rewrite read_values, firstn_all by done. unfold encode_record. rewrite !length_app. do 2 f_equal. lia.
Qed.

Lemma member_loop_record n want limit end_ :
  (length (pre ++ encode_record vs) ≤ end_)%nat →
  member_loop (S n) true data k (length pre) want limit end_ =
    if want <? k then ([], Ok tt)
    else if k =? want then (take limit vs, Ok tt)
    else member_loop n false data k (length (pre ++ encode_record vs)) want limit end_.
Proof using Hok.
  intros He. cbn [member_loop mbind result_bind]. rewrite read_count. cbn [mbind result_bind].
  destruct (want <? k); [done|]. rewrite Nat2N.id. destruct (k =? want).
  - rewrite read_values by lia. cbn [mbind result_bind]. f_equal.
    destruct (Nat.min_spec (length vs) limit) as [[H ->]|[H ->]]; [|done].
    by rewrite !take_ge by lia.
  - rewrite read_all_values. cbn [snd]. by destruct (Nat.leb_spec (length (pre ++ encode_record vs)) end_); [|lia].
Qed.

Lemma each_record_record n :
  each_record (S n) true data k (length pre) =
    let '(more, ok) := each_record n false data k (length (pre ++ encode_record vs)) in
    (flatten [(k, vs)] ++ more, ok).
Proof using Hok.
  cbn [each_record mbind result_bind]. rewrite read_count. cbn [mbind result_bind].
  rewrite Nat2N.id, read_all_values. by rewrite flatten_one.
Qed.
End record.

Lemma member_loop_gap n data prev k i want limit end_ j :
  k < u64_limit → prev < u64_limit → read_varint data i = Ok (k ⊟ prev, j) →
  member_loop (S n) false data prev i want limit end_ = member_loop (S n) true data k j want limit end_.
Proof.
  intros Hk Hp H. cbn [member_loop]. rewrite H. cbn [mbind result_bind]. by rewrite wadd64_wsub64.
Qed.

Lemma each_record_gap n data prev k i j :
  k < u64_limit → prev < u64_limit → read_varint data i = Ok (k ⊟ prev, j) →
  each_record (S n) false data prev i = each_record (S n) true data k j.
Proof.
  intros Hk Hp H. cbn [each_record]. rewrite H. cbn [mbind result_bind]. by rewrite wadd64_wsub64.
Qed.

(** ** A block *)

Lemma member_loop_spec rs : ∀ k vs pre post want limit end_,
  Forall (rec_ok u64_limit) ((k, vs) :: rs) → StronglySorted N.lt ((k, vs) :: rs).*1 →
  (length pre + length (encode_record vs) + length (enc_recs k rs) ≤ end_)%nat →
  member_loop (S (length rs)) true (pre ++ encode_record vs ++ enc_recs k rs ++ post) k
    (length pre) want limit end_ = (take limit (vals_of (flatten ((k, vs) :: rs)) want), Ok tt).
Proof.
  induction rs as [|[k' vs'] rs IH]; intros k vs pre post want limit end_ Hok Hs He;
    pose proof Hok as [Hr Hrest]%Forall_cons; pose proof (sorted_keys_cons _ _ Hs) as [Hs' Hlt];
    (rewrite member_loop_record; [|done|rewrite length_app; lia]);
    (destruct (N.ltb_spec want k) as [Hw|Hw];
      [rewrite vals_of_absent; [by rewrite take_nil|]; intros r Hin Er;
       pose proof (first_key_le _ r Hs Hin) as Hf; cbn in Hf; lia|]);
    rewrite vals_of_record; destruct (N.eqb_spec k want) as [->|Hne].
  - by rewrite app_nil_r.
  - cbn. by rewrite take_nil.
  - rewrite vals_of_absent; [by rewrite app_nil_r|]. intros r Hin Er.
    specialize (Hlt r Hin). cbn in Hlt. lia.
  - cbn [length app] in *. pose proof Hrest as [[Hk' _ _] _]%Forall_cons. cbn in Hk'.
    destruct (next_record k vs k' vs' rs pre post) as [-> Hg].
    rewrite (member_loop_gap _ _ _ _ _ _ _ _ _ Hk' (ro_key _ _ Hr) Hg).
    apply IH; [done|done|]. cbn [enc_recs] in He. rewrite !length_app in He |- *. lia.
Qed.

Lemma each_record_spec rs : ∀ k vs pre post,
  Forall (rec_ok u64_limit) ((k, vs) :: rs) →
  each_record (S (length rs)) true (pre ++ encode_record vs ++ enc_recs k rs ++ post) k (length pre) =
    (flatten ((k, vs) :: rs), true).
Proof.
  induction rs as [|[k' vs'] rs IH]; intros k vs pre post Hok;
    pose proof Hok as [Hr Hrest]%Forall_cons; rewrite each_record_record by done.
  - cbn [length each_record]. by rewrite app_nil_r.
  - cbn [length]. pose proof Hrest as [[Hk' _ _] _]%Forall_cons. cbn in Hk'.
    destruct (next_record k vs k' vs' rs pre post) as [-> Hg].
    rewrite (each_record_gap _ _ _ _ _ _ Hk' (ro_key _ _ Hr) Hg), IH by done.
    by rewrite <-(flatten_app [(k, vs)]).
Qed.

(** ** The whole table *)

Lemma children_of_table n bs pre post parent limit :
  table_ok bs → Forall (rec_ok u64_limit) (mjoin bs) →
  members_children_of (table_at (length pre) n bs) (pre ++ enc_table n bs ++ post) parent limit =
    Some (take limit (vals_of (flatten (mjoin bs)) parent)).
Proof.
  intros T Hok. unfold members_children_of. destruct (Nat.eqb_spec limit 0) as [->|Hlim]; [done|].
  pose proof (partition_le_spec parent bs T) as H.
  change (firsts (table_at (length pre) n bs)) with (first_key <$> bs).
  destruct (partition_le parent (first_key <$> bs)) as [|m]; [by rewrite H, take_nil|].
  destruct H as (bs1 & b & bs2 & -> & <- & Hf & ->).
  destruct (table_ok_app bs1 (b :: bs2) T) as (_ & T2 & _).
  destruct (table_ok_app [b] bs2 T2) as (T3 & _ & _).
  pose proof (to_blocks _ T3) as [[Hne _] _]%Forall_cons.
  pose proof (to_sorted _ T3) as Hs. rewrite mjoin_cons, app_nil_r in Hs.
  rewrite join_app, mjoin_cons in Hok. apply Forall_app in Hok as [_ Hok].
  apply Forall_app in Hok as [Hok _]. destruct b as [|[k vs] b]; [done|].
  destruct (located_block n bs1 k vs b bs2 pre post T) as (o & o' & hd & post' & O1 & O2 & O3 & Ed & Hhd & Hn & He).
  unfold member_decode_block. rewrite O1. cbn [mbind option_bind]. rewrite O2. cbn [mbind option_bind].
  rewrite O3. cbn [mbind option_bind]. rewrite Hn. cbn [mbind option_bind].
  rewrite Nat2N.id, <-Hhd, Ed, member_loop_spec; [done|done|done|]. by rewrite He.
Qed.

Lemma each_block_spec n bs2 : ∀ bs1 pre post,
  table_ok (bs1 ++ bs2) → Forall (rec_ok u64_limit) (mjoin (bs1 ++ bs2)) →
  let t := table_at (length pre) n (bs1 ++ bs2) in
  each_block (blocks_at t) (drop (length bs1) (tb_offsets t)) (drop (length bs1) (firsts t))
    (pre ++ enc_table n (bs1 ++ bs2) ++ post) = flatten (mjoin bs2).
Proof.
  induction bs2 as [|b bs2 IH]; intros bs1 pre post T Hok t.
  { assert (drop (length bs1) (firsts t) = []) as ->.
    { apply drop_ge. unfold t, table_at. cbn [firsts]. by rewrite length_fmap, app_nil_r. }
    by destruct (drop _ (tb_offsets t)). }
  destruct (table_ok_app bs1 (b :: bs2) T) as (_ & T2 & _).
  pose proof (to_blocks _ T2) as [[Hne _] _]%Forall_cons.
  pose proof Hok as Hok'. rewrite join_app, mjoin_cons in Hok'.
  apply Forall_app in Hok' as [_ Hok']. apply Forall_app in Hok' as [Hb _].
  destruct b as [|[k vs] b]; [done|].
  destruct (located_block n bs1 k vs b bs2 pre post T) as (o & o' & hd & post' & O1 & _ & O3 & Ed & Hhd & Hn & _).
  fold t in O1, O3, Hhd, Hn. rewrite (drop_S _ _ _ O1), (drop_S _ _ _ O3). cbn [each_block].
  rewrite Hn, Nat2N.id, <-Hhd, Ed, each_record_spec by done. rewrite <-Ed, mjoin_cons, flatten_app. f_equal.
  specialize (IH (bs1 ++ [(k, vs) :: b]) pre post). rewrite <-app_assoc, length_app, Nat.add_1_r in IH.
  by apply IH.
Qed.

(** ** Round trip *)

Lemma mw_push_all_pushed ps : ∀ w rs l,
  mw_encoding w = MemBlocked → pushed (mw_writer w) rs → flatten rs = l →
  StronglySorted N.le (l ++ ps).*1 →
  ∃ rs', mw_encoding (mw_push_all w ps) = MemBlocked ∧ mw_tier (mw_push_all w ps) = mw_tier w ∧
    pushed (mw_writer (mw_push_all w ps)) rs' ∧ flatten rs' = l ++ ps.
Proof.
  induction ps as [|[p c] ps IH]; intros w rs l He P Hf Hs; cbn.
  { rewrite app_nil_r. eauto. }
  destruct (push_entry_pushed _ rs p c P) as (rs' & P' & Hf' & _).
  { intros k Hk. destruct (last_key_split _ _ Hk) as (rs0 & vs & E).
    pose proof (pu_nonempty _ _ P) as Hn. rewrite E in Hn. apply Forall_app in Hn as [_ Hn].
    apply Forall_cons in Hn as [Hn _]. cbn in Hn. destruct vs as [|v vs]; [done|].
    assert ((k, v) ∈ l) as Hin.
    { rewrite <-Hf, E, flatten_app, flatten_one, elem_of_app. right. left. }
    by apply (sorted_le_fst l ((p, c) :: ps) (k, v) (p, c)); [|done|left]. }
  destruct (IH (mw_push w p c) rs' (l ++ [(p, c)])) as (rs2 & ? & Ht & ? & ?).
  - unfold mw_push. by rewrite He.
  - unfold mw_push. by rewrite He.
  - by rewrite Hf', Hf.
  - by rewrite <-app_assoc.
  - exists rs2. rewrite <-app_assoc in *. split_and!; [done| |done|done].
    unfold mw_push_all in Ht. rewrite Ht. unfold mw_push. by destruct (mw_encoding w).
Qed.

Record pairs_ok (ps : list (NodeId * NodeId)) : Prop := {
  po_sorted : StronglySorted N.le ps.*1;
  po_parents : Forall (fun p => p.1 < u64_limit) ps;
  po_children : Forall (fun p => p.2 < u64_limit) ps;
}.

Lemma mw_finish_table ps t block_bytes ty payload :
  pairs_ok ps → block_bytes < u32_limit →
  mw_finish (mw_push_all (mem_with_block_size MemBlocked t block_bytes) ps) = Some (ty, payload) →
  N.of_nat (length payload) < u64_limit →
  ty = (if t then SHARED_BLOCKED_BLOB_TYPE else OVERLAY_BLOCKED_BLOB_TYPE) ∧
  ∃ bs, payload = enc_table (wrap64 (N.of_nat (length ps))) bs ∧
    flatten (mjoin bs) = ps ∧ table_ok bs ∧ Forall (rec_ok u64_limit) (mjoin bs).
Proof.
  intros [E1 E2 E3] Hb Hf Hn.
  destruct (mw_push_all_pushed ps (mem_with_block_size MemBlocked t block_bytes) [] [])
    as (rs & He & Ht & P & Hfl); [done|by apply writer_new_pushed|done|done|]. cbn [app] in Hfl.
  unfold mw_finish in Hf. destruct (_ =? 0); [done|]. rewrite He, Ht in Hf. cbn [mw_tier] in Hf.
  assert (Forall small_key rs) as Hk.
  { apply (flatten_small_key (fun k => k < u64_limit)); [apply P|]. by rewrite Hfl. }
  assert (payload = finish_blocked (mw_writer (mw_push_all (mem_with_block_size MemBlocked t block_bytes) ps))
    ∧ ty = if t then SHARED_BLOCKED_BLOB_TYPE else OVERLAY_BLOCKED_BLOB_TYPE) as [Hp Hty]
    by (destruct t; by injection Hf as <- <-).
  split; [done|]. rewrite Hp in Hn |- *.
  destruct (finish_table_ok _ rs P Hk Hn) as (bs & -> & <- & T). exists bs.
  rewrite (pu_entries _ _ P), Hfl. split_and!; [done|done|done|].
  apply table_recs_ok; [done|]. apply (flatten_vals (fun v => v < u64_limit)). by rewrite Hfl.
Qed.

(** C36. A blocked member index survives the disk. Push [(parent, child)] pairs in
    parent order at any block size and finish; wherever the payload stands in the
    mapping it parses, [children_of] appends the first [limit] children pushed for
    the parent and nothing else, and [for_each] visits every pair in order. *)
Theorem member_index_roundtrip (ps : list (NodeId * NodeId)) (t : MemberTier) (block_bytes : N)
    (ty : string) (payload pre post : bytes) :
  pairs_ok ps → block_bytes < u32_limit →
  mw_finish (mw_push_all (mem_with_block_size MemBlocked t block_bytes) ps) = Some (ty, payload) →
  N.of_nat (length payload) < u64_limit →
  let data := pre ++ payload ++ post in
  ty = (if t then SHARED_BLOCKED_BLOB_TYPE else OVERLAY_BLOCKED_BLOB_TYPE) ∧
  ∃ idx, members_parse data (length pre) (length pre + length payload) = Ok idx ∧
    tb_count idx = wrap64 (N.of_nat (length ps)) ∧
    (∀ parent limit, members_children_of idx data parent limit = Some (take limit (vals_of ps parent))) ∧
    members_for_each idx data = ps.
Proof.
  intros Ho Hb Hf Hn.
  destruct (mw_finish_table ps t block_bytes ty payload Ho Hb Hf Hn) as (Hty & bs & -> & Hfl & T & Hok).
  split; [done|]. unfold members_parse. rewrite parse_table by (apply wrap64_lt || done).
  eexists. split; [done|]. split; [done|]. split.
  - intros parent limit. rewrite children_of_table by done. by rewrite Hfl.
  - unfold members_for_each. rewrite <-Hfl. by apply (each_block_spec _ bs []).
Qed.

Definition demo_pairs : list (NodeId * NodeId) := [(1, 5); (1, 9); (1, 400); (2, 7); (90, 91)].
Definition demo_member_payload : bytes :=
  finish_blocked (mw_writer (mw_push_all (mem_with_block_size MemBlocked Overlay 8) demo_pairs)).

Lemma member_index_roundtrip_witness :
  ∃ idx, members_parse demo_member_payload 0 (length demo_member_payload) = Ok idx ∧
    members_children_of idx demo_member_payload 1 2 = Some [5; 9].
Proof.
  destruct (member_index_roundtrip demo_pairs Overlay 8 OVERLAY_BLOCKED_BLOB_TYPE demo_member_payload [] [])
    as (_ & idx & Hp & _ & Hc & _).
  - split; [|repeat constructor|repeat constructor]. repeat constructor; done.
  - done.
  - by vm_compute.
  - by vm_compute.
  - cbn [app] in Hp, Hc. rewrite app_nil_r in Hp, Hc. exists idx. split; [exact Hp|]. by rewrite Hc.
Defined.
