(* ===== verification/Decimal.v ===== *)
(** Decimal numbers, as [ToString] and [format!] print and [FromStr] reads them: the
    scope id a blob carries in its properties, and the sequence in the name of a
    snapshot's metadata object. *)

From S2P Require Import Prelude.

Definition digit (d : N) : Ascii.ascii := Ascii.ascii_of_N (48 + d).

Fixpoint to_string_go (fuel : nat) (n : N) (acc : string) : string :=
  match fuel with
  | O => acc
  | S fuel =>
      if n =? 0 then acc
      else to_string_go fuel (n / 10) (String.String (digit (n `mod` 10)) acc)
  end.

(** [u32::to_string]; ten digits are enough for a [u32]. *)
Definition to_string (n : N) : string :=
  if n =? 0 then "0" else to_string_go 10 n "".

(** [u64::to_string]; twenty digits are enough for a [u64]. *)
Definition u64_to_string (n : N) : string :=
  if n =? 0 then "0" else to_string_go 20 n "".

Fixpoint zeros (n : nat) (s : string) : string :=
  match n with O => s | S n => String.String (digit 0) (zeros n s) end.

(** [format!("{n:0width$}")]. *)
Definition pad_zeros (width : nat) (n : N) : string :=
  let s := u64_to_string n in zeros (width - String.length s) s.

(** [u32::from_str] and [u64::from_str]: an optional [+], then digits, failing on
    overflow. *)
Fixpoint parse_digits (limit : N) (s : string) (acc : N) : option N :=
  match s with
  | String.EmptyString => Some acc
  | String.String c s =>
      let v := Ascii.N_of_ascii c in
      if (48 <=? v) && (v <=? 57) then
        let acc := acc * 10 + (v - 48) in
        if acc <? limit then parse_digits limit s acc else None
      else None
  end.

Definition parse_uint (limit : N) (s : string) : option N :=
  match s with
  | String.EmptyString => None
  | String.String c s' =>
      if Ascii.N_of_ascii c =? 43 then
        match s' with String.EmptyString => None | _ => parse_digits limit s' 0 end
      else parse_digits limit s 0
  end.

Definition parse_u32 : string → option N := parse_uint u32_limit.
Definition parse_u64 : string → option N := parse_uint u64_limit.

Lemma digit_value d : d < 10 → Ascii.N_of_ascii (digit d) = 48 + d.
Proof. intros H. apply Ascii.N_ascii_embedding. lia. Qed.

Lemma parse_digit limit d s acc :
  d < 10 → acc * 10 + d < limit →
  parse_digits limit (String.String (digit d) s) acc = parse_digits limit s (acc * 10 + d).
Proof.
  intros Hd Hs. cbn [parse_digits]. rewrite digit_value by done.
  destruct (N.leb_spec 48 (48 + d)); [|lia]. destruct (N.leb_spec (48 + d) 57); [|lia].
  cbn [andb]. replace (48 + d - 48) with d by lia. by destruct (N.ltb_spec (acc * 10 + d) limit); [|lia].
Qed.

Lemma parse_to_string_go limit fuel : ∀ n s,
  n < limit → n < 10 ^ N.of_nat fuel → parse_digits limit (to_string_go fuel n s) 0 = parse_digits limit s n.
Proof.
  induction fuel as [|fuel IH]; intros n s Hn Hf; cbn [to_string_go].
  { rewrite N.pow_0_r in Hf. by replace n with 0 by lia. }
  destruct (N.eqb_spec n 0) as [->|Hne]; [done|].
  rewrite Nat2N.inj_succ, N.pow_succ_r' in Hf.
  pose proof (N.Div0.div_mod n 10) as Hdm. pose proof (N.mod_lt n 10 ltac:(done)).
  rewrite IH; [|lia|apply N.Div0.div_lt_upper_bound; lia].
  rewrite parse_digit by lia. f_equal. lia.
Qed.

(** Text that starts with a digit. *)
Definition digit_head (s : string) : Prop := ∃ d s', s = String.String (digit d) s' ∧ d < 10.

Lemma to_string_go_head fuel : ∀ n s,
  digit_head s ∨ (n ≠ 0 ∧ (0 < fuel)%nat) → digit_head (to_string_go fuel n s).
Proof.
  induction fuel as [|fuel IH]; intros n s H; cbn [to_string_go]; [destruct H as [|[_ H]]; [done|lia]|].
  destruct (N.eqb_spec n 0) as [->|Hne]; [by destruct H as [|[? _]]|].
  apply IH. left. do 2 eexists. split; [done|]. by apply N.mod_lt.
Qed.

Lemma parse_uint_digits limit s : digit_head s → parse_uint limit s = parse_digits limit s 0.
Proof.
  intros (d & s' & -> & Hd). unfold parse_uint. rewrite digit_value by done.
  by destruct (N.eqb_spec (48 + d) 43); [lia|].
Qed.

Lemma parse_to_string n : n < u32_limit → parse_u32 (to_string n) = Some n.
Proof.
  intros Hn. unfold to_string. destruct (N.eqb_spec n 0) as [->|Hne]; [done|].
  unfold parse_u32. rewrite parse_uint_digits by (apply to_string_go_head; right; split; [done|lia]).
  rewrite parse_to_string_go; [done|done|]. assert (u32_limit < 10 ^ N.of_nat 10) by done. lia.
Qed.

Lemma u64_to_string_digits n :
  n < u64_limit → digit_head (u64_to_string n) ∧ parse_digits u64_limit (u64_to_string n) 0 = Some n.
Proof.
  intros Hn. unfold u64_to_string. destruct (N.eqb_spec n 0) as [->|Hne].
  { split; [|done]. by exists 0, "". }
  split; [apply to_string_go_head; right; split; [done|lia]|].
  rewrite parse_to_string_go; [done|done|]. assert (u64_limit < 10 ^ N.of_nat 20) by done. lia.
Qed.

Lemma parse_zeros limit n s : 0 < limit → parse_digits limit (zeros n s) 0 = parse_digits limit s 0.
Proof. intros Hl. induction n as [|n IH]; [done|]. cbn [zeros]. rewrite parse_digit by lia. exact IH. Qed.

(** Padded numbers read back. *)
Lemma parse_pad_zeros width n : n < u64_limit → parse_u64 (pad_zeros width n) = Some n.
Proof.
  intros Hn. destruct (u64_to_string_digits n Hn) as [Hh Hp]. unfold parse_u64, pad_zeros.
  rewrite parse_uint_digits; [by rewrite parse_zeros|].
  destruct (width - String.length (u64_to_string n))%nat; [done|]. cbn [zeros]. do 2 eexists. split; [done|lia].
Qed.
