(* ===== verification/Codec.v ===== *)
(** The codec of routing maps inside Puffin blobs: [src/storage/codec.rs].

    Two writers produce a base: [snapshot_to_blobs] from a materialised snapshot
    and [BlobWriter] from compaction's stream. Panics are explicit errors. *)

From S2P Require Import Prelude Types Bytes Filter Varint Blocked BlockedRead Registry MemberIndex Decimal.
From S2P Require Import Graph Dsu View RoutingBase Forest Compaction.

(** ** Blobs *)

Record Blob := mkBlob {
  blob_type : string;
  blob_data : bytes;
  properties : gmap string string;
  snapshot_id : Z;
  sequence_number : Z;
}.

(** [sequence as i64]. *)
Definition as_i64 (n : N) : Z :=
  let m := wrap64 n in if m <? 2 ^ 63 then Z.of_N m else (Z.of_N m - 2 ^ 64)%Z.

Definition GLOBAL_BLOB_TYPE : string := "blaze-global-dsu-v1".
Definition SCOPE_BLOB_TYPE : string := "blaze-scope-dsu-v1".
Definition SCOPE_ID_PROP : string := "scope-id".
Definition SHARED_FILTER_BLOB_TYPE : string := "blaze-shared-filter-v1".
Definition OVERLAY_FILTER_BLOB_TYPE : string := "blaze-overlay-filter-v1".
Definition SHARED_MEMBERS_FILTER_BLOB_TYPE : string := "blaze-shared-members-filter-v1".
Definition OVERLAY_MEMBERS_FILTER_BLOB_TYPE : string := "blaze-overlay-members-filter-v1".

Record WriteOptions := mkOptions {
  filter_bits : N;
  opt_registry : RegistryEncoding;
  opt_member_index : bool;
  opt_members : MemberEncoding;
}.

Definition default_options : WriteOptions := mkOptions DEFAULT_FILTER_BITS RegBlocked false MemBlocked.

(** ** Pair tables *)

(** [sort_by_key(|(k, _)| *k)], as an insertion sort. *)
Fixpoint insert_key {A} (p : N * A) (l : list (N * A)) : list (N * A) :=
  match l with
  | [] => [p]
  | q :: l => if p.1 <=? q.1 then p :: q :: l else q :: insert_key p l
  end.

Definition sort_by_key {A} (l : list (N * A)) : list (N * A) := foldr insert_key [] l.

Definition put_pair (p : NodeId * NodeId) : bytes := put_u64 p.1 ++ put_u64 p.2.

Definition encode_pairs (pairs : list (NodeId * NodeId)) : bytes :=
  let sorted := sort_by_key pairs in
  put_u64 (N.of_nat (length sorted)) ++ mjoin (put_pair <$> sorted).

Inductive codec_error :=
| DsuTruncated
| DsuLengthMismatch (count : N) (got : nat)
| RegistryTruncated
| RegistryLengthMismatch (count : N) (got : nat)
| MissingScopeId
| BadScopeId (s : string)
| CodecPanic.

Definition get_pair (b : bytes) : NodeId * NodeId := (le_get (take 8 b), le_get (take 8 (drop 8 b))).

(** [decode_pairs]: [8 + count * 16] is computed in [usize]; a count that only
    matches after wrapping around makes the allocation panic. *)
Definition decode_pairs (data : bytes) : result codec_error (list (NodeId * NodeId)) :=
  if (length data <? 8)%nat then Err DsuTruncated
  else
    let count := le_get (take 8 data) in
    if negb (N.of_nat (length data) =? 8 ⊞ count ⊠ 16) then
      Err (DsuLengthMismatch count (length data))
    else if negb (N.of_nat (length data) =? 8 + count * 16) then Err CodecPanic
    else Ok (get_pair <$> chunks 16 (N.to_nat count) (drop 8 data)).

Definition open_table : bytes := put_u64 0.

Definition close_table (buf : bytes) (count : N) : bytes := put_u64 count ++ drop 8 buf.

(** [table_keys]: the pairs of a payload. *)
Definition table_keys (data : bytes) : list (NodeId * NodeId) :=
  let count := if (8 <=? length data)%nat then le_get (take 8 data) else 0 in
  get_pair <$> chunks 16 (N.to_nat count) (drop 8 data).

(** ** The registry *)

(** The tuple order of [sort_unstable] on [(u64, u32)] and [(u64, u64)]. *)
Definition pair_le (a b : N * N) : Prop := a.1 < b.1 ∨ (a.1 = b.1 ∧ a.2 <= b.2).

#[export] Instance pair_le_dec : RelDecision pair_le.
Proof. intros a b. unfold pair_le. apply _. Defined.

Definition sort_pairs (l : list (N * N)) : list (N * N) := merge_sort pair_le l.

Definition registry_from_snapshot (snap : ForestSnapshot) : list (NodeId * ScopeId) :=
  let shared : gmap NodeId NodeId := list_to_map (reverse (snap_global snap)) in
  let out := sp ← snap_scopes snap; ab ← sp.2; member ← [ab.1; ab.2];
             [(default member (shared !! member), sp.1)] in
  dedup (sort_pairs out).

Definition encode_registry (entries : list (NodeId * ScopeId)) (e : RegistryEncoding)
    : option (string * bytes) :=
  reg_finish (reg_push_all (reg_new e) entries).

Definition get_entry (b : bytes) : NodeId * ScopeId := (le_get (take 8 b), le_get (take 4 (drop 8 b))).

(** [decode_registry], the flat form. *)
Definition decode_registry (data : bytes) : result codec_error (list (NodeId * ScopeId)) :=
  if (length data <? 8)%nat then Err RegistryTruncated
  else
    let count := le_get (take 8 data) in
    if negb (N.of_nat (length data) =? 8 ⊞ count ⊠ 12) then
      Err (RegistryLengthMismatch count (length data))
    else if negb (N.of_nat (length data) =? 8 + count * 12) then Err CodecPanic
    else Ok (get_entry <$> chunks 12 (N.to_nat count) (drop 8 data)).

(** ** Filters and member indexes *)

(** [BlockedFilter::build_with], which never panics. *)
Definition build_filter (keys : list N) (hint : nat) (bits : N) : option BlockedFilter :=
  mjoin (build_with keys (N.of_nat hint) bits).

Definition opt_blob (ty : string) (f : option BlockedFilter) : list (string * BlockedFilter) :=
  match f with Some f => [(ty, f)] | None => [] end.

Definition member_filters (shared_parents : list NodeId) (overlay_parents : list (ScopeId * list NodeId))
    (bits : N) : list (string * BlockedFilter) :=
  let overlay_keys := sum_list ((fun sp => length sp.2) <$> overlay_parents) in
  opt_blob SHARED_MEMBERS_FILTER_BLOB_TYPE (build_filter shared_parents (length shared_parents) bits) ++
  opt_blob OVERLAY_MEMBERS_FILTER_BLOB_TYPE
    (build_filter (sp ← overlay_parents; overlay_key sp.1 <$> sp.2) overlay_keys bits).

(** [scope_of]: the scope in a blob's properties, zero if absent or unreadable. *)
Definition scope_of (b : Blob) : ScopeId :=
  default 0 (s ← properties b !! SCOPE_ID_PROP; parse_u32 s).

(** Distinct consecutive parents. *)
Fixpoint parents_of (pairs : list (NodeId * NodeId)) (acc : list NodeId) : list NodeId :=
  match pairs with
  | [] => acc
  | (p, _) :: pairs => parents_of pairs (if bool_decide (last acc = Some p) then acc else acc ++ [p])
  end.

Definition encode_members (data : bytes) (e : MemberEncoding) (t : MemberTier)
    : option (string * bytes * list NodeId) :=
  let pairs := (fun np => (np.2, np.1)) <$> filter (fun np => np.1 ≠ np.2) (table_keys data) in
  let pairs := sort_pairs pairs in
  '(ty, b) ← mw_finish (mw_push_all (mw_new e t) pairs);
  Some (ty, b, parents_of pairs []).

(** ** The snapshot writer *)

Definition plain_blob (seq : Z) (ty : string) (data : bytes) : Blob := mkBlob ty data ∅ seq seq.

Definition scope_props (s : ScopeId) : gmap string string := {[SCOPE_ID_PROP := to_string s]}.

Definition scope_blob (seq : Z) (s : ScopeId) (data : bytes) : Blob :=
  mkBlob SCOPE_BLOB_TYPE data (scope_props s) seq seq.

(** What the member-index pass accumulates: blobs, shared and overlay parents. *)
Record member_acc := mkAcc {
  acc_blobs : list Blob;
  acc_shared : list NodeId;
  acc_overlay : list (ScopeId * list NodeId);
}.

(** One blob of the loop in [snapshot_to_blobs]. *)
Definition snapshot_member_step (seq : Z) (opts : WriteOptions) (a : member_acc) (b : Blob) : member_acc :=
  if bool_decide (blob_type b = GLOBAL_BLOB_TYPE) then
    match encode_members (blob_data b) (opt_members opts) Shared with
    | None => a
    | Some (ty, data, parents) =>
        mkAcc (acc_blobs a ++ [mkBlob ty data ∅ seq seq]) parents (acc_overlay a)
    end
  else if bool_decide (blob_type b = SCOPE_BLOB_TYPE) then
    match encode_members (blob_data b) (opt_members opts) Overlay with
    | None => a
    | Some (ty, data, parents) =>
        mkAcc (acc_blobs a ++ [mkBlob ty data (properties b) seq seq]) (acc_shared a)
          (acc_overlay a ++ [(scope_of b, parents)])
    end
  else a.

Definition filter_blobs (seq : Z) (fs : list (string * BlockedFilter)) : list Blob :=
  (fun tf => plain_blob seq tf.1 (encode tf.2)) <$> fs.

Definition option_blob (seq : Z) (o : option (string * bytes)) : list Blob :=
  match o with Some (ty, data) => [plain_blob seq ty data] | None => [] end.

Definition snapshot_to_blobs (snap : ForestSnapshot) (sequence : N) (opts : WriteOptions) : list Blob :=
  let seq := as_i64 sequence in
  let blobs :=
    [plain_blob seq GLOBAL_BLOB_TYPE (encode_pairs (snap_global snap))] ++
    ((fun sp => scope_blob seq sp.1 (encode_pairs sp.2)) <$> snap_scopes snap) ++
    option_blob seq (encode_registry (registry_from_snapshot snap) (opt_registry opts)) ++
    filter_blobs seq
      (opt_blob SHARED_FILTER_BLOB_TYPE
         (build_filter (snap_global snap).*1 (length (snap_global snap)) (filter_bits opts)) ++
       opt_blob OVERLAY_FILTER_BLOB_TYPE
         (build_filter (sp ← snap_scopes snap; overlay_key sp.1 <$> sp.2.*1)
            (sum_list ((fun sp => length sp.2) <$> snap_scopes snap)) (filter_bits opts))) in
  if opt_member_index opts then
    let a := foldl (snapshot_member_step seq opts) (mkAcc [] [] []) blobs in
    blobs ++ acc_blobs a ++ filter_blobs seq (member_filters (acc_shared a) (acc_overlay a) (filter_bits opts))
  else blobs.

(** ** The streaming writer *)

Record BlobWriter := mkBlobWriter {
  bw_sequence : Z;
  bw_opts : WriteOptions;
  bw_shared : bytes;
  bw_shared_pairs : N;
  bw_scope : option (ScopeId * bytes * N);
  bw_registry : list (NodeId * ScopeId);
  bw_scope_blobs : list Blob;
}.

Definition bw_new (sequence : N) (opts : WriteOptions) : BlobWriter :=
  mkBlobWriter (as_i64 sequence) opts open_table 0 None [] [].

(** [impl SnapshotSink for BlobWriter]. *)
Definition bw_push (w : BlobWriter) (e : emission) : BlobWriter :=
  match e with
  | SharedPair n r =>
      mkBlobWriter (bw_sequence w) (bw_opts w) (bw_shared w ++ put_u64 n ++ put_u64 r)
        (bw_shared_pairs w ⊞ 1) (bw_scope w) (bw_registry w) (bw_scope_blobs w)
  | OverlayPair n r =>
      mkBlobWriter (bw_sequence w) (bw_opts w) (bw_shared w) (bw_shared_pairs w)
        ((fun '(s, buf, count) => (s, buf ++ put_u64 n ++ put_u64 r, count ⊞ 1)) <$> bw_scope w)
        (bw_registry w) (bw_scope_blobs w)
  | ScopeStart s =>
      mkBlobWriter (bw_sequence w) (bw_opts w) (bw_shared w) (bw_shared_pairs w)
        (Some (s, open_table, 0)) (bw_registry w) (bw_scope_blobs w)
  | ScopeEnd _ =>
      match bw_scope w with
      | None => w
      | Some (s, buf, count) =>
          mkBlobWriter (bw_sequence w) (bw_opts w) (bw_shared w) (bw_shared_pairs w) None (bw_registry w)
            (if count =? 0 then bw_scope_blobs w
             else bw_scope_blobs w ++ [scope_blob (bw_sequence w) s (close_table buf count)])
      end
  | RegistryEntry r s =>
      mkBlobWriter (bw_sequence w) (bw_opts w) (bw_shared w) (bw_shared_pairs w) (bw_scope w)
        (bw_registry w ++ [(r, s)]) (bw_scope_blobs w)
  end.

(** One source of the loop in [finish]. *)
Definition finish_member_step (seq : Z) (opts : WriteOptions) (a : member_acc)
    (src : MemberTier * ScopeId * bytes) : member_acc :=
  let '(tier, scope, data) := src in
  match encode_members data (opt_members opts) tier with
  | None => a
  | Some (ty, payload, parents) =>
      match tier with
      | Shared => mkAcc (acc_blobs a ++ [plain_blob seq ty payload]) parents (acc_overlay a)
      | Overlay =>
          mkAcc (acc_blobs a ++ [mkBlob ty payload (scope_props scope) seq seq]) (acc_shared a)
            (acc_overlay a ++ [(scope, parents)])
      end
  end.

Definition member_source (b : Blob) : option (MemberTier * ScopeId * bytes) :=
  if bool_decide (blob_type b = GLOBAL_BLOB_TYPE) then Some (Shared, 0, blob_data b)
  else if bool_decide (blob_type b = SCOPE_BLOB_TYPE) then Some (Overlay, scope_of b, blob_data b)
  else None.

Definition bw_finish (w : BlobWriter) : list Blob :=
  let seq := bw_sequence w in
  let opts := bw_opts w in
  let shared := close_table (bw_shared w) (bw_shared_pairs w) in
  let shared_filter :=
    build_filter (table_keys shared).*1 (N.to_nat (bw_shared_pairs w)) (filter_bits opts) in
  let overlay_keys := sum_list ((fun b => length (table_keys (blob_data b))) <$> bw_scope_blobs w) in
  let overlay_filter :=
    build_filter (b ← bw_scope_blobs w; overlay_key (scope_of b) <$> (table_keys (blob_data b)).*1)
      overlay_keys (filter_bits opts) in
  let registry := dedup (sort_pairs (bw_registry w)) in
  let blobs :=
    [plain_blob seq GLOBAL_BLOB_TYPE shared] ++ bw_scope_blobs w ++
    option_blob seq (encode_registry registry (opt_registry opts)) ++
    filter_blobs seq (opt_blob SHARED_FILTER_BLOB_TYPE shared_filter ++
                      opt_blob OVERLAY_FILTER_BLOB_TYPE overlay_filter) in
  if opt_member_index opts then
    let a := foldl (finish_member_step seq opts) (mkAcc [] [] []) (omap member_source blobs) in
    blobs ++ acc_blobs a ++ filter_blobs seq (member_filters (acc_shared a) (acc_overlay a) (filter_bits opts))
  else blobs.

(** [compact_to_blobs], with [ScopedForest::compact_into]. *)
Definition compact_to_blobs (f : ScopedForest) (sequence : N) (opts : WriteOptions) : list Blob :=
  bw_finish (foldl bw_push (bw_new sequence opts) (compact_locked (tier f)).1).

(** ** Reading *)

Definition decode_blob (snap : ForestSnapshot) (b : Blob) : result codec_error ForestSnapshot :=
  if bool_decide (blob_type b = GLOBAL_BLOB_TYPE) then
    pairs ← decode_pairs (blob_data b); Ok (mkSnap pairs (snap_scopes snap))
  else if bool_decide (blob_type b = SCOPE_BLOB_TYPE) then
    match properties b !! SCOPE_ID_PROP with
    | None => Err MissingScopeId
    | Some s =>
        match parse_u32 s with
        | None => Err (BadScopeId s)
        | Some scope =>
            pairs ← decode_pairs (blob_data b);
            Ok (mkSnap (snap_global snap) (snap_scopes snap ++ [(scope, pairs)]))
        end
    end
  else Ok snap.

Fixpoint decode_blobs (snap : ForestSnapshot) (blobs : list Blob) : result codec_error ForestSnapshot :=
  match blobs with
  | [] => Ok snap
  | b :: blobs => snap ← decode_blob snap b; decode_blobs snap blobs
  end.

Definition blobs_to_snapshot (blobs : list Blob) : result codec_error ForestSnapshot :=
  snap ← decode_blobs (mkSnap [] []) blobs;
  Ok (mkSnap (snap_global snap) (sort_by_key (snap_scopes snap))).
