(* ===== verification/CodecInv.v ===== *)
(** The codec is lossless and its two writers agree byte for byte. *)

From S2P Require Import Prelude Types Bytes Filter Varint Blocked BlockedRead Registry MemberIndex Decimal.
From S2P Require Import Graph Dsu View RoutingBase Forest ForestInv Compaction CompactionInv FoldInv Codec.

(** ** Sorting *)

Lemma sort_by_key_id {A} (l : list (N * A)) : StronglySorted N.lt l.*1 → sort_by_key l = l.
Proof.
  induction l as [|p l IH]; intros H; [done|]. apply StronglySorted_inv in H as [H Hp].
  change (sort_by_key (p :: l)) with (insert_key p (sort_by_key l)). rewrite IH by done.
  destruct l as [|q l]; [done|]. cbn in *. apply Forall_cons in Hp as [Hp _].
  by destruct (N.leb_spec p.1 q.1); [|lia].
Qed.

#[export] Instance pair_le_total : Total pair_le.
Proof. intros [a b] [c d]. unfold pair_le. cbn. lia. Qed.

#[export] Instance pair_le_trans : Transitive pair_le.
Proof. intros [a b] [c d] [e f]. unfold pair_le. cbn. lia. Qed.

#[export] Instance pair_le_antisymm : AntiSymm (=) pair_le.
Proof. intros [a b] [c d]. unfold pair_le. cbn. intros ??. f_equal; lia. Qed.

Lemma dedup_sorted_nodup (l : list (N * N)) :
  StronglySorted pair_le l → StronglySorted pair_le (dedup l) ∧ NoDup (dedup l).
Proof.
  induction l as [|a l IH]; intros H; [by split; constructor|]. apply StronglySorted_inv in H as [H Ha].
  destruct (IH H) as [IH1 IH2]. destruct l as [|b l]; [by split; repeat constructor; set_solver|].
  change (dedup (a :: b :: l)) with (if decide (a = b) then dedup (b :: l) else a :: dedup (b :: l)).
  case_decide as Hab; [done|].
  assert (∀ x, x ∈ dedup (b :: l) → pair_le a x ∧ a ≠ x) as Hx.
  { intros x Hx. rewrite elem_of_dedup in Hx. rewrite Forall_forall in Ha. split; [by apply Ha|]. intros <-.
    apply elem_of_cons in Hx as [->|Hx]; [done|]. apply StronglySorted_inv in H as [_ Hb].
    rewrite Forall_forall in Hb. apply Hab, (anti_symm pair_le); [apply Ha; left|by apply Hb]. }
  split; constructor; try done; [apply Forall_forall; intros x ?; by apply Hx|].
  intros Hin. by destruct (Hx a Hin).
Qed.

(** Sorting and deduplicating forgets everything but the set. *)
Lemma sort_dedup_ext (l l' : list (N * N)) :
  (∀ x, x ∈ l ↔ x ∈ l') → dedup (sort_pairs l) = dedup (sort_pairs l').
Proof.
  intros E.
  destruct (dedup_sorted_nodup (sort_pairs l)) as [S1 N1]; [apply StronglySorted_merge_sort; apply _|].
  destruct (dedup_sorted_nodup (sort_pairs l')) as [S2 N2]; [apply StronglySorted_merge_sort; apply _|].
  apply (StronglySorted_unique pair_le); [done|done|]. apply NoDup_Permutation; [done|done|].
  intros x. unfold sort_pairs. rewrite !elem_of_dedup, !merge_sort_Permutation. apply E.
Qed.

(** ** Pair tables *)

Definition table (pairs : list (NodeId * NodeId)) : bytes :=
  put_u64 (N.of_nat (length pairs)) ++ mjoin (put_pair <$> pairs).

Definition small_pair (p : N * N) : Prop := p.1 < u64_limit ∧ p.2 < u64_limit.

Lemma get_put_pair p : small_pair p → get_pair (put_pair p) = p.
Proof.
  intros [H1 H2]. destruct p as [a b]. unfold get_pair, put_pair. cbn [fst snd] in *.
  rewrite take_app_length', drop_app_length' by done.
  rewrite take_ge by done. by rewrite !put_u64_get.
Qed.

Lemma put_pairs_chunks pairs :
  Forall small_pair pairs → get_pair <$> chunks 16 (length pairs) (mjoin (put_pair <$> pairs)) = pairs.
Proof.
  intros H. rewrite <-(length_fmap put_pair pairs), chunks_concat.
  - rewrite <-list_fmap_compose. rewrite <-(list_fmap_id pairs) at 2. apply list_fmap_ext.
    intros i p Hp. unfold compose. apply get_put_pair. rewrite Forall_forall in H.
    apply H. by eapply list_elem_of_lookup_2.
  - apply Forall_fmap, Forall_true. done.
Qed.

Lemma pairs_length pairs : length (mjoin (put_pair <$> pairs)) = (length pairs * 16)%nat.
Proof. rewrite (concat_length 16), length_fmap; [done|]. by apply Forall_fmap, Forall_true. Qed.

Lemma table_length pairs : length (table pairs) = (8 + 16 * length pairs)%nat.
Proof. unfold table. rewrite length_app, put_u64_length, pairs_length. lia. Qed.

Record pairs_fit (pairs : list (NodeId * NodeId)) : Prop := {
  pf_small : Forall small_pair pairs;
  pf_len : 8 + 16 * N.of_nat (length pairs) < u64_limit;
}.

Lemma table_keys_table pairs : pairs_fit pairs → table_keys (table pairs) = pairs.
Proof.
  intros [Hs Hl]. unfold table_keys. rewrite table_length.
  destruct (Nat.leb_spec 8 (8 + 16 * length pairs)); [|lia]. unfold table.
  rewrite take_app_length', drop_app_length' by done.
  rewrite put_u64_get by lia. rewrite Nat2N.id. by apply put_pairs_chunks.
Qed.

Lemma decode_table pairs : pairs_fit pairs → decode_pairs (table pairs) = Ok pairs.
Proof.
  intros [Hs Hl]. unfold decode_pairs. rewrite table_length.
  destruct (Nat.ltb_spec (8 + 16 * length pairs) 8); [lia|]. unfold table.
  rewrite take_app_length', drop_app_length' by done. rewrite put_u64_get by lia.
  assert (8 ⊞ N.of_nat (length pairs) ⊠ 16 = 8 + N.of_nat (length pairs) * 16) as E.
  { unfold wmul64. rewrite (wrap64_small (_ * _)) by lia. rewrite wadd64_small; lia. }
  rewrite E. destruct (N.eqb_spec (N.of_nat (8 + 16 * length pairs)) (8 + N.of_nat (length pairs) * 16)); [|lia].
  cbn [negb]. rewrite Nat2N.id. by rewrite put_pairs_chunks.
Qed.

Lemma encode_pairs_sorted pairs : StronglySorted N.lt pairs.*1 → encode_pairs pairs = table pairs.
Proof. intros H. unfold encode_pairs. by rewrite sort_by_key_id. Qed.

Lemma close_open_table pairs :
  close_table (open_table ++ mjoin (put_pair <$> pairs)) (N.of_nat (length pairs)) = table pairs.
Proof. unfold close_table. by rewrite drop_app_length'. Qed.

Lemma pairs_snoc pairs n r :
  mjoin (put_pair <$> (pairs ++ [(n, r)])) = mjoin (put_pair <$> pairs) ++ put_u64 n ++ put_u64 r.
Proof. by rewrite fmap_app, join_app. Qed.

(** ** The streaming writer simulates the collector *)

Definition reg_of_emission (e : emission) : option (NodeId * ScopeId) :=
  match e with RegistryEntry r s => Some (r, s) | _ => None end.

Record bw_sim (seq : N) (opts : WriteOptions) (es : list emission) (w : BlobWriter)
    (c : SnapshotCollector) : Prop := {
  bs_seq : bw_sequence w = as_i64 seq;
  bs_opts : bw_opts w = opts;
  bs_shared : bw_shared w = open_table ++ mjoin (put_pair <$> col_global c);
  bs_count : bw_shared_pairs w = N.of_nat (length (col_global c));
  bs_scope : bw_scope w =
    (fun sp => (sp.1, open_table ++ mjoin (put_pair <$> sp.2), N.of_nat (length sp.2))) <$> col_open c;
  bs_blobs : bw_scope_blobs w = (fun sp => scope_blob (as_i64 seq) sp.1 (table sp.2)) <$> col_scopes c;
  bs_registry : bw_registry w = omap reg_of_emission es;
  bs_bound : (length (col_global c) ≤ length es)%nat ∧
    ∀ s ps, col_open c = Some (s, ps) → (length ps ≤ length es)%nat;
}.

Ltac sim_cbn :=
  cbn [bw_sequence bw_opts bw_shared bw_shared_pairs bw_scope bw_registry bw_scope_blobs
       col_global col_scopes col_open length omap list_omap reg_of_emission fmap option_fmap
       option_map fst snd].

Lemma bw_push_sim seq opts es w c e :
  N.of_nat (S (length es)) < u64_limit → bw_sim seq opts es w c →
  bw_sim seq opts (es ++ [e]) (bw_push w e) (collector_push c e).
Proof.
  intros Hn [S1 S2 S3 S4 S5 S6 S7 [S8 S9]].
  assert (omap reg_of_emission (es ++ [e]) = omap reg_of_emission es ++ omap reg_of_emission [e]) as Ho
    by apply omap_app.
  destruct e as [n r|s|n r|r s|s]; cbn [bw_push collector_push].
  - split; sim_cbn; rewrite ?Ho, ?app_nil_r, ?length_app; sim_cbn; try done.
    + by rewrite S3, pairs_snoc, <-app_assoc.
    + rewrite S4, wadd64_small; lia.
    + split; [lia|]. intros s ps H. specialize (S9 s ps H). lia.
  - split; sim_cbn; rewrite ?Ho, ?app_nil_r, ?length_app; sim_cbn; try done. split; [lia|].
    intros ?? [= <- <-]. cbn. lia.
  - destruct (col_open c) as [[s ps]|] eqn:Eo; rewrite S5; cbn [fmap option_fmap option_map fst snd];
      split; sim_cbn; rewrite ?Ho, ?app_nil_r, ?length_app; sim_cbn; try done.
    + specialize (S9 s ps eq_refl). rewrite pairs_snoc, <-app_assoc. sim_cbn.
      rewrite wadd64_small by lia. do 2 f_equal. lia.
    + split; [lia|]. intros ?? [= <- <-]. specialize (S9 s ps eq_refl). rewrite length_app. cbn. lia.
    + split; [lia|done].
  - split; sim_cbn; rewrite ?Ho, ?length_app; sim_cbn; try done; [by rewrite S7|].
    split; [lia|]. intros s' ps H. specialize (S9 s' ps H). lia.
  - destruct (col_open c) as [[s' ps]|] eqn:Eo; rewrite S5; cbn [fmap option_fmap option_map fst snd].
    + specialize (S9 s' ps eq_refl). split; sim_cbn; rewrite ?Ho, ?app_nil_r, ?length_app; sim_cbn; try done.
      * rewrite S6, S1, close_open_table. case_bool_decide as Hp; [by rewrite Hp|].
        destruct (N.eqb_spec (N.of_nat (length ps)) 0) as [E|E].
        { destruct Hp. apply nil_length_inv. lia. }
        by rewrite fmap_app.
      * split; [lia|done].
    + split; rewrite ?Ho, ?app_nil_r, ?length_app; sim_cbn; try done; [by rewrite S5, Eo|].
      split; [lia|]. intros ?? H. congruence.
Qed.

Lemma bw_sim_all seq opts es : ∀ es0 w c,
  N.of_nat (length (es0 ++ es)) < u64_limit → bw_sim seq opts es0 w c →
  bw_sim seq opts (es0 ++ es) (foldl bw_push w es) (foldl collector_push c es).
Proof.
  induction es as [|e es IH]; intros es0 w c Hn S; cbn; [by rewrite app_nil_r|].
  rewrite cons_middle, app_assoc in Hn |- *. apply IH; [done|]. apply bw_push_sim; [|done].
  rewrite !length_app in Hn. cbn in Hn. lia.
Qed.

Lemma bw_sim_new seq opts : bw_sim seq opts [] (bw_new seq opts) collector_new.
Proof. by split. Qed.

(** ** Both registries are the same *)

Lemma elem_of_stream_registry G O ks sids oks r s :
  (r, s) ∈ omap reg_of_emission (stream_of G O ks sids oks) ↔
  s ∈ sids ∧ ∃ k, k ∈ oks s ∧ O s k ≠ k ∧ (r = G k ∨ r = G (O s k)).
Proof.
  rewrite list_elem_of_omap. split.
  - intros (e & He & Hr). destruct e; try done. cbn in Hr. simplify_eq.
    unfold stream_of in He. apply elem_of_app in He as [He|He].
    { apply list_elem_of_join in He as (l & He & (k & -> & _)%list_elem_of_fmap).
      unfold shared_em in He. destruct (_ =? _); set_solver. }
    apply list_elem_of_join in He as (l & He & (s' & -> & Hs)%list_elem_of_fmap).
    unfold scope_em in He. apply elem_of_cons in He as [?|He]; [done|].
    apply elem_of_app in He as [He|?%list_elem_of_singleton]; [|done].
    apply list_elem_of_join in He as (l & He & (k & -> & Hk)%list_elem_of_fmap).
    unfold overlay_em in He. destruct (N.eqb_spec (O s' k) k) as [|Hne]; [by apply elem_of_nil in He|].
    apply elem_of_app in He as [He|He].
    + apply elem_of_cons in He as [?|?%list_elem_of_singleton]; [done|]. simplify_eq. eauto 8.
    + destruct (_ =? _); [by apply elem_of_nil in He|]. apply list_elem_of_singleton in He. simplify_eq. eauto 8.
  - intros (Hs & k & Hk & Hne & Hr). exists (RegistryEntry r s). split; [|done].
    destruct (stream_registry_key G O ks sids oks s k Hs Hk Hne). by destruct Hr as [->| ->].
Qed.

Lemma elem_of_snapshot_registry snap r s :
  NoDup (snap_global snap).*1 →
  (r, s) ∈ registry_from_snapshot snap ↔
  ∃ ps a b, (s, ps) ∈ snap_scopes snap ∧ (a, b) ∈ ps ∧
    (r = pairs_root (snap_global snap) a ∨ r = pairs_root (snap_global snap) b).
Proof.
  intros Hnd. unfold registry_from_snapshot, sort_pairs.
  rewrite elem_of_dedup, merge_sort_Permutation, list_elem_of_bind.
  assert ((list_to_map (reverse (snap_global snap)) : gmap NodeId NodeId) = list_to_map (snap_global snap)) as ->.
  { symmetry. apply list_to_map_proper; [done|]. symmetry. apply reverse_Permutation. }
  unfold pairs_root. split.
  - intros ([s' ps] & ([a b] & (m & Hm & Hin)%list_elem_of_bind & Hab)%list_elem_of_bind & Hs).
    apply list_elem_of_singleton in Hm. cbn in Hm, Hin, Hab. simplify_eq. exists ps, a, b.
    split_and!; [done|done|]. set_solver.
  - intros (ps & a & b & Hs & Hab & Hr). exists (s, ps). split; [|done]. apply list_elem_of_bind.
    exists (a, b). split; [|done]. apply list_elem_of_bind. cbn [fst snd].
    destruct Hr as [->| ->]; [exists a|exists b]; (split; [by apply list_elem_of_singleton|set_solver]).
Qed.

Section agree.
Context (t : Tier) (W : tier_wf t).
Let em := stream_of (G_of t) (O_of t) (shared_keys t) (scope_ids t) (scope_keys t).

Lemma em_collect : collect em =
  mkSnap (nonroot_pairs (G_of t) (shared_keys t)) (nonempty_scopes (O_of t) (scope_keys t) (scope_ids t)).
Proof using. apply collect_stream. Qed.

Lemma em_global_sorted : StronglySorted N.lt (snap_global (collect em)).*1.
Proof using W. rewrite em_collect. by apply nonroot_pairs_fst_sorted, shared_keys_sorted. Qed.

Lemma em_scope_sorted s ps : (s, ps) ∈ snap_scopes (collect em) → StronglySorted N.lt ps.*1.
Proof using W.
  rewrite em_collect. intros (s' & [= -> ->] & _)%list_elem_of_fmap.
  by apply nonroot_pairs_fst_sorted, scope_keys_sorted.
Qed.

Lemma em_registry : dedup (sort_pairs (omap reg_of_emission em)) = registry_from_snapshot (collect em).
Proof using W.
  assert (∀ x, x ∈ omap reg_of_emission em ↔ x ∈ registry_from_snapshot (collect em)) as E.
  { intros [r s]. unfold em at 1. rewrite elem_of_stream_registry, elem_of_snapshot_registry
      by (apply sorted_lt_nodup, em_global_sorted).
    assert (∀ x, pairs_root (snap_global (collect em)) x = G_of t x) as HG
      by apply (sm_G _ _ _ (compact_models t W)).
    setoid_rewrite HG. rewrite em_collect. cbn [snap_scopes]. split.
    - intros (Hs & k & Hk & Hne & Hr). exists (nonroot_pairs (O_of t s) (scope_keys t s)), k, (O_of t s k).
      assert ((k, O_of t s k) ∈ nonroot_pairs (O_of t s) (scope_keys t s)) as Hin.
      { apply list_elem_of_fmap. exists k. split; [done|]. by apply list_elem_of_filter. }
      split_and!; [|done|done]. apply list_elem_of_fmap. exists s. split; [done|].
      apply list_elem_of_filter. split; [|done]. intros E. rewrite E in Hin. by apply elem_of_nil in Hin.
    - intros (ps & a & b & (s' & [= -> ->] & [_ Hs]%list_elem_of_filter)%list_elem_of_fmap & Hab & Hr).
      split; [done|]. apply list_elem_of_fmap in Hab as (k & [= -> ->] & [Hne Hk]%list_elem_of_filter).
      eauto. }
  unfold registry_from_snapshot in *. set (l := mbind _ _) in *.
  apply sort_dedup_ext. intros x. rewrite E. unfold sort_pairs.
  by rewrite elem_of_dedup, merge_sort_Permutation.
Qed.
End agree.

(** ** The two writers agree *)

Record snap_fit (snap : ForestSnapshot) : Prop := {
  sf_global : pairs_fit (snap_global snap);
  sf_scopes : Forall (fun sp => sp.1 < u32_limit ∧ pairs_fit sp.2) (snap_scopes snap);
}.

Record snap_sorted (snap : ForestSnapshot) : Prop := {
  ss_global : StronglySorted N.lt (snap_global snap).*1;
  ss_scopes : Forall (fun sp => StronglySorted N.lt sp.2.*1) (snap_scopes snap);
}.

Lemma scope_blob_prop seq s data :
  properties (scope_blob seq s data) !! SCOPE_ID_PROP = Some (to_string s).
Proof. unfold scope_blob, scope_props. cbn [properties]. apply lookup_singleton_eq. Qed.

Lemma scope_of_blob seq s data : s < u32_limit → scope_of (scope_blob seq s data) = s.
Proof.
  intros H. unfold scope_of. rewrite scope_blob_prop. cbn [mbind option_bind]. by rewrite parse_to_string.
Qed.

(** Scope blobs carry exactly the scope id they are read back with. *)
Definition canonical_blob (b : Blob) : Prop :=
  blob_type b = SCOPE_BLOB_TYPE → properties b = scope_props (scope_of b).

Lemma member_steps_agree seq opts blobs : ∀ a,
  Forall canonical_blob blobs →
  foldl (finish_member_step seq opts) a (omap member_source blobs) =
  foldl (snapshot_member_step seq opts) a blobs.
Proof.
  induction blobs as [|b blobs IH]; intros a Hc; [done|]. apply Forall_cons in Hc as [Hb Hc].
  cbn [omap list_omap foldl].
  assert (foldl (finish_member_step seq opts) a (match member_source b with Some x => [x] | None => [] end) =
    snapshot_member_step seq opts a b) as <-.
  { unfold member_source, snapshot_member_step. case_bool_decide as H1; [|case_bool_decide as H2]; cbn; [| |done].
    - by destruct (encode_members _ _ _) as [[[ty data] ps]|].
    - destruct (encode_members _ _ _) as [[[ty data] ps]|]; [|done]. by rewrite (Hb H2). }
  rewrite <-IH by done. by destruct (member_source b).
Qed.

Lemma mbind_fmap_ext {A B C} (f : A → B) (g : B → list C) (h : A → list C) (l : list A) :
  (∀ x, x ∈ l → g (f x) = h x) → (f <$> l) ≫= g = l ≫= h.
Proof.
  induction l as [|x l IH]; intros H; [done|]. cbn. rewrite (H x) by left. f_equal. apply IH.
  intros y Hy. apply H. by right.
Qed.

Lemma fmap_ext_in {A B} (f g : A → B) (l : list A) : (∀ x, x ∈ l → f x = g x) → f <$> l = g <$> l.
Proof. intros H. apply list_fmap_ext. intros i x Hx. apply H. by eapply list_elem_of_lookup_2. Qed.

Lemma Forall_option_blob seq o (P : Blob → Prop) :
  (∀ ty data, o = Some (ty, data) → P (plain_blob seq ty data)) → Forall P (option_blob seq o).
Proof. destruct o as [[ty data]|]; intros H; [|constructor]. apply Forall_singleton. by apply H. Qed.

Lemma encode_registry_type es e ty data :
  encode_registry es e = Some (ty, data) → ty = FLAT_BLOB_TYPE ∨ ty = BLOCKED_BLOB_TYPE.
Proof.
  unfold encode_registry, reg_finish. destruct (_ =? 0); [done|].
  destruct (rw_encoding _); intros; simplify_eq; auto.
Qed.

Lemma filter_blobs_types seq fs (P : string → Prop) :
  Forall P fs.*1 → Forall (fun b => P (blob_type b)) (filter_blobs seq fs).
Proof. unfold filter_blobs. rewrite !Forall_fmap. done. Qed.

Lemma opt_blob_types ty f (P : string → Prop) : P ty → Forall P (opt_blob ty f).*1.
Proof. intros H. destruct f; cbn; [by apply Forall_singleton|constructor]. Qed.

(** Blob types that are not tables. *)
Definition inert (ty : string) : Prop := ty ≠ GLOBAL_BLOB_TYPE ∧ ty ≠ SCOPE_BLOB_TYPE.

Definition inert_blob (b : Blob) : Prop := inert (blob_type b).

Lemma registry_inert seq es e : Forall inert_blob (option_blob seq (encode_registry es e)).
Proof.
  apply Forall_option_blob. intros ty data [->| ->]%encode_registry_type; by vm_compute.
Qed.

Lemma filters_inert seq fs : Forall inert fs.*1 → Forall inert_blob (filter_blobs seq fs).
Proof. apply filter_blobs_types. Qed.

Lemma table_filters_inert a b :
  Forall inert (opt_blob SHARED_FILTER_BLOB_TYPE a ++ opt_blob OVERLAY_FILTER_BLOB_TYPE b).*1.
Proof. rewrite fmap_app. apply Forall_app. split; apply opt_blob_types; by vm_compute. Qed.

Lemma inert_canonical blobs : Forall inert_blob blobs → Forall canonical_blob blobs.
Proof. intros F. eapply Forall_impl; [exact F|]. intros b [_ H] ?. done. Qed.

(** The blobs of a run: the tables of a snapshot with a registry of its own. *)
Definition run_blobs (snap : ForestSnapshot) (reg : list (NodeId * ScopeId)) (seq : Z) (opts : WriteOptions)
    : list Blob :=
  let blobs :=
    [plain_blob seq GLOBAL_BLOB_TYPE (encode_pairs (snap_global snap))] ++
    ((fun sp => scope_blob seq sp.1 (encode_pairs sp.2)) <$> snap_scopes snap) ++
    option_blob seq (encode_registry reg (opt_registry opts)) ++
    filter_blobs seq
      (opt_blob SHARED_FILTER_BLOB_TYPE
         (build_filter (snap_global snap).*1 (length (snap_global snap)) (filter_bits opts)) ++
       opt_blob OVERLAY_FILTER_BLOB_TYPE
         (build_filter (sp ← snap_scopes snap; overlay_key sp.1 <$> sp.2.*1)
            (sum_list ((fun sp => length sp.2) <$> snap_scopes snap)) (filter_bits opts))) in
  if opt_member_index opts then
    let a := foldl (snapshot_member_step seq opts) (mkAcc [] [] []) blobs in
    blobs ++ acc_blobs a ++ filter_blobs seq (member_filters (acc_shared a) (acc_overlay a) (filter_bits opts))
  else blobs.

Lemma snapshot_run_blobs snap sequence opts :
  snapshot_to_blobs snap sequence opts = run_blobs snap (registry_from_snapshot snap) (as_i64 sequence) opts.
Proof. done. Qed.

Lemma bw_finish_run seq opts es w c :
  bw_sim seq opts es w c →
  let snap := mkSnap (col_global c) (col_scopes c) in
  snap_fit snap → snap_sorted snap →
  bw_finish w = run_blobs snap (dedup (sort_pairs (omap reg_of_emission es))) (as_i64 seq) opts.
Proof.
  intros [S1 S2 S3 S4 S5 S6 S7 _] snap [F1 F2] [O1 O2]. cbn [snap snap_global snap_scopes] in *.
  unfold bw_finish, run_blobs. cbn [snap snap_global snap_scopes].
  rewrite S1, S2, S3, S4, S7, close_open_table, Nat2N.id.
  rewrite encode_pairs_sorted, table_keys_table by done. rewrite Forall_forall in F2, O2.
  assert (bw_scope_blobs w = (fun sp => scope_blob (as_i64 seq) sp.1 (encode_pairs sp.2)) <$> col_scopes c) as Hsb.
  { rewrite S6. apply fmap_ext_in. intros sp Hsp. by rewrite encode_pairs_sorted by (by apply O2). }
  assert (∀ sp, sp ∈ col_scopes c → table_keys (encode_pairs sp.2) = sp.2) as Htk.
  { intros sp Hsp. rewrite encode_pairs_sorted by (by apply O2). by apply table_keys_table, F2. }
  assert ((fun b => length (table_keys (blob_data b))) <$> bw_scope_blobs w =
    (fun sp => length sp.2) <$> col_scopes c) as ->.
  { rewrite Hsb, <-list_fmap_compose. apply fmap_ext_in. intros sp Hsp. unfold compose. cbn [blob_data scope_blob]. by rewrite Htk. }
  assert (bw_scope_blobs w ≫= (fun b => overlay_key (scope_of b) <$> (table_keys (blob_data b)).*1) =
    col_scopes c ≫= (fun sp => overlay_key sp.1 <$> sp.2.*1)) as ->.
  { rewrite Hsb. apply mbind_fmap_ext. intros sp Hsp. rewrite scope_of_blob by (by apply F2).
    cbn [blob_data scope_blob]. by rewrite Htk. }
  rewrite Hsb. destruct (opt_member_index opts); [|done].
  rewrite member_steps_agree; [done|]. constructor; [done|]. apply Forall_app. split.
  - apply Forall_fmap, Forall_forall. intros sp Hsp _. cbn [blob_data]. unfold compose.
    by rewrite scope_of_blob by (by apply F2).
  - apply inert_canonical. apply Forall_app. split; [apply registry_inert|].
    apply filters_inert, table_filters_inert.
Qed.

Section forest.
Context (f : ScopedForest) (W : tier_wf (tier f)).
Let em := (compact_locked (tier f)).1.

Lemma compact_em :
  em = stream_of (G_of (tier f)) (O_of (tier f)) (shared_keys (tier f)) (scope_ids (tier f)) (scope_keys (tier f)).
Proof using W. unfold em. by destruct (compact_locked_spec (tier f) W) as (t' & -> & _). Qed.

Lemma snapshot_em : (snapshot f).1 = collect em.
Proof using. unfold snapshot, em. by destruct (compact_locked (tier f)). Qed.

Lemma em_sorted : snap_sorted (snapshot f).1 ∧ StronglySorted N.lt (snap_scopes (snapshot f).1).*1.
Proof using W.
  rewrite snapshot_em, compact_em. split; [split|].
  - by apply em_global_sorted.
  - apply Forall_forall. intros [s ps] H. by eapply em_scope_sorted.
  - rewrite collect_stream. cbn [snap_scopes]. rewrite nonempty_scopes_fst.
    by apply StronglySorted_filter, scope_ids_sorted.
Qed.

Lemma compact_to_blobs_spec sequence opts :
  snap_fit (snapshot f).1 → N.of_nat (length em) < u64_limit →
  compact_to_blobs f sequence opts = snapshot_to_blobs (snapshot f).1 sequence opts.
Proof using W.
  intros F Hn. rewrite snapshot_em in *. unfold compact_to_blobs. fold em.
  assert (collect em = mkSnap (col_global (foldl collector_push collector_new em))
    (col_scopes (foldl collector_push collector_new em))) as Ec by done.
  rewrite Ec, (bw_finish_run sequence opts em _ (foldl collector_push collector_new em)).
  - rewrite snapshot_run_blobs, <-Ec. f_equal. rewrite compact_em. by apply em_registry.
  - apply (bw_sim_all sequence opts em []); [done|apply bw_sim_new].
  - by rewrite <-Ec.
  - rewrite <-Ec, <-snapshot_em. apply em_sorted.
Qed.
End forest.

(** ** Reading the blobs back *)

Lemma decode_blobs_app l1 : ∀ snap l2,
  decode_blobs snap (l1 ++ l2) = (s ← decode_blobs snap l1; decode_blobs s l2).
Proof.
  induction l1 as [|b l1 IH]; intros snap l2; [done|]. cbn [app decode_blobs].
  destruct (decode_blob snap b) as [s|e]; [|done]. cbn [mbind result_bind]. apply IH.
Qed.

Lemma decode_inert snap blobs : Forall inert_blob blobs → decode_blobs snap blobs = Ok snap.
Proof.
  induction 1 as [|b blobs [H1 H2] _ IH]; [done|]. cbn [decode_blobs]. unfold decode_blob.
  rewrite !bool_decide_eq_false_2 by done. done.
Qed.

Lemma decode_scope_blobs seq scopes : ∀ g sc,
  Forall (fun sp => sp.1 < u32_limit ∧ pairs_fit sp.2) scopes →
  Forall (fun sp => StronglySorted N.lt sp.2.*1) scopes →
  decode_blobs (mkSnap g sc) ((fun sp => scope_blob seq sp.1 (encode_pairs sp.2)) <$> scopes) =
    Ok (mkSnap g (sc ++ scopes)).
Proof.
  induction scopes as [|[s ps] scopes IH]; intros g sc F O; [by rewrite app_nil_r|].
  apply Forall_cons in F as [[Fs Fp] F]. apply Forall_cons in O as [Op O]. cbn [fst snd] in *.
  cbn [fmap list_fmap decode_blobs]. unfold decode_blob at 1. cbn [fst snd].
  rewrite bool_decide_eq_false_2, bool_decide_eq_true_2 by done.
  rewrite scope_blob_prop, parse_to_string by done. cbn [blob_data scope_blob].
  rewrite encode_pairs_sorted, decode_table by done. cbn [mbind result_bind snap_global snap_scopes].
  change (list_fmap _ _ ?f ?l) with (f <$> l). rewrite IH by done. by rewrite <-app_assoc.
Qed.

Lemma encode_members_inert data e t ty b ps : encode_members data e t = Some (ty, b, ps) → inert ty.
Proof.
  unfold encode_members. destruct (mw_finish _) as [[ty' b']|] eqn:E; [|done]. cbn. intros [= <- <- <-].
  unfold mw_finish in E. destruct (_ =? 0); [done|].
  repeat case_match; simplify_eq; by vm_compute.
Qed.

Lemma member_blobs_inert seq opts blobs : ∀ a,
  Forall inert_blob (acc_blobs a) →
  Forall inert_blob (acc_blobs (foldl (snapshot_member_step seq opts) a blobs)).
Proof.
  induction blobs as [|b blobs IH]; intros a H; [done|]. cbn [foldl]. apply IH.
  unfold snapshot_member_step. repeat case_match; try done; cbn [acc_blobs];
    apply Forall_app; (split; [done|]); apply Forall_singleton; by eapply encode_members_inert.
Qed.

Lemma member_filters_inert sp op bits : Forall inert (member_filters sp op bits).*1.
Proof. unfold member_filters. rewrite fmap_app. apply Forall_app. split; apply opt_blob_types; by vm_compute. Qed.

Lemma blobs_to_snapshot_spec snap sequence opts :
  snap_fit snap → snap_sorted snap → StronglySorted N.lt (snap_scopes snap).*1 →
  blobs_to_snapshot (snapshot_to_blobs snap sequence opts) = Ok snap.
Proof.
  intros [F1 F2] [O1 O2] Hs. unfold blobs_to_snapshot, snapshot_to_blobs. set (seq := as_i64 sequence).
  set (tail := option_blob _ _ ++ _). assert (Forall inert_blob tail) as Ht.
  { apply Forall_app. split; [apply registry_inert|apply filters_inert, table_filters_inert]. }
  assert (∀ more, Forall inert_blob more → decode_blobs (mkSnap [] [])
    ([plain_blob seq GLOBAL_BLOB_TYPE (encode_pairs (snap_global snap))] ++
     ((fun sp => scope_blob seq sp.1 (encode_pairs sp.2)) <$> snap_scopes snap) ++ more) = Ok snap) as Hd.
  { intros more Hm. cbn [app decode_blobs]. unfold decode_blob at 1. rewrite bool_decide_eq_true_2 by done.
    cbn [blob_data plain_blob]. rewrite encode_pairs_sorted, decode_table by done.
    cbn [mbind result_bind snap_scopes]. rewrite decode_blobs_app, decode_scope_blobs by done.
    cbn [mbind result_bind app]. rewrite decode_inert by done. by destruct snap. }
  assert (∀ r, r = Ok snap → (s ← r; Ok (mkSnap (snap_global s) (sort_by_key (snap_scopes s)))) =
    (Ok snap : result codec_error ForestSnapshot)) as Hr.
  { intros r ->. cbn [mbind result_bind]. rewrite sort_by_key_id by done. by destruct snap. }
  apply Hr. destruct (opt_member_index opts); [|by apply Hd].
  rewrite <-!app_assoc. apply Hd. apply Forall_app. split; [done|].
  apply Forall_app. split; [by apply member_blobs_inert; constructor|].
  apply filters_inert, member_filters_inert.
Qed.
