(* ===== verification/CodecProps.v ===== *)
(** What the codec promises. *)

From S2P Require Import Prelude Types Bytes Filter Varint Blocked BlockedRead Registry MemberIndex Decimal.
From S2P Require Import Graph Dsu View RoutingBase Forest ForestInv Compaction CompactionInv FoldInv ForestProps Codec CodecInv.

(** C33. The two write paths produce the same bytes: compacting a forest straight
    into blobs gives exactly the blobs of its materialised snapshot (tables,
    scope properties, registry, filters and member indexes), for every encoding
    option, as long as ids fit their widths and the stream its counters. *)
Theorem writers_agree (f : ScopedForest) (evs : list EdgeEvent) (sequence : N) (opts : WriteOptions) :
  absorbed f evs → snap_fit (snapshot f).1 →
  N.of_nat (length (compact_locked (tier f)).1) < u64_limit →
  compact_to_blobs f sequence opts = snapshot_to_blobs (snapshot f).1 sequence opts.
Proof. intros [W _]. by apply compact_to_blobs_spec. Qed.

(** A base written by compaction restores the engine: its blobs decode, and a
    fresh forest hydrated from them gives every answer of the forest that was
    written. *)
Theorem restart_from_blobs (f : ScopedForest) (evs : list EdgeEvent) (sequence : N)
    (opts : WriteOptions) (track : bool) :
  absorbed f evs → snap_fit (snapshot f).1 →
  N.of_nat (length (compact_locked (tier f)).1) < u64_limit →
  ∃ snap, blobs_to_snapshot (compact_to_blobs f sequence opts) = Ok snap ∧
    ∀ s x, (scope_root (hydrate (if track then tracking_members forest_new else forest_new) snap) s x).1 =
           (scope_root f s x).1.
Proof.
  intros I F Hn. exists (snapshot f).1. split.
  - rewrite compact_to_blobs_spec; [|apply I|done|done].
    apply blobs_to_snapshot_spec; [done|apply em_sorted, I..].
  - intros s x. eapply absorbed_root_eq; [by apply hydrate_snapshot_absorbed|done|done].
Qed.

(** ** Malformed tables *)

Lemma put_get_pair b : length b = 16%nat → Forall byte_ok b → put_pair (get_pair b) = b.
Proof.
  intros Hl Hb. unfold put_pair, get_pair. cbn [fst snd].
  assert (length (take 8 b) = 8%nat) as H1 by (rewrite length_take; lia).
  assert (length (take 8 (drop 8 b)) = 8%nat) as H2 by (rewrite length_take, length_drop; lia).
  assert (put_u64 (le_get (take 8 b)) = take 8 b) as ->.
  { unfold put_u64. rewrite <-H1 at 1. by apply le_put_get, Forall_take. }
  assert (put_u64 (le_get (take 8 (drop 8 b))) = take 8 (drop 8 b)) as ->.
  { unfold put_u64. rewrite <-H2 at 1. by apply le_put_get, Forall_take, Forall_drop. }
  rewrite (take_ge (drop 8 b)) by (rewrite length_drop; lia). apply take_drop.
Qed.

Lemma chunks_bytes w n data : Forall byte_ok data → Forall (Forall byte_ok) (chunks w n data).
Proof.
  revert data. induction n as [|n IH]; intros data H; cbn; constructor; [by apply Forall_take|].
  by apply IH, Forall_drop.
Qed.

Lemma decode_pairs_inv data pairs :
  Forall byte_ok data → decode_pairs data = Ok pairs → data = table pairs.
Proof.
  intros Hb. unfold decode_pairs. destruct (Nat.ltb_spec (length data) 8); [done|].
  set (count := le_get (take 8 data)). case_match; [done|].
  destruct (N.eqb_spec (N.of_nat (length data)) (8 + count * 16)) as [Hl|]; [|done]. cbn [negb].
  intros [= <-]. set (cs := chunks 16 (N.to_nat count) (drop 8 data)).
  assert (length (drop 8 data) = N.to_nat count * 16)%nat as Hd by (rewrite length_drop; lia).
  assert (length cs = N.to_nat count) as Hc.
  { unfold cs. clear. generalize (drop 8 data). induction (N.to_nat count); intros; cbn; auto. }
  unfold table. rewrite length_fmap, Hc, N2Nat.id.
  assert (put_u64 count = take 8 data) as ->.
  { unfold put_u64, count. assert (length (take 8 data) = 8%nat) as H8 by (rewrite length_take; lia).
    rewrite <-H8 at 1. by apply le_put_get, Forall_take. }
  assert (put_pair <$> (get_pair <$> cs) = cs) as ->.
  { rewrite <-list_fmap_compose. rewrite <-(list_fmap_id cs) at 2. apply fmap_ext_in. intros b Hin.
    unfold compose. apply put_get_pair.
    - pose proof (chunks_length 16 _ _ Hd) as F. rewrite Forall_forall in F. by apply F.
    - pose proof (chunks_bytes 16 (N.to_nat count) _ (Forall_drop _ 8 _ Hb)) as F.
      rewrite Forall_forall in F. by apply F. }
  unfold cs. rewrite concat_chunks by done. by rewrite take_drop.
Qed.

(** [decode_pairs] accepts exactly the encoded tables: what it decodes
    re-encodes to the same bytes, and every table is decoded to its pairs. A
    header whose pair count only fits after the size computation wraps around is
    not reported as an error: it panics. *)
Theorem decode_pairs_exact :
  (∀ data pairs, Forall byte_ok data → decode_pairs data = Ok pairs → data = table pairs) ∧
  (∀ pairs, pairs_fit pairs → decode_pairs (table pairs) = Ok pairs) ∧
  decode_pairs (put_u64 (2 ^ 60)) = Err CodecPanic.
Proof. split_and!; [apply decode_pairs_inv|apply decode_table|by vm_compute]. Qed.

(** ** At work *)

Definition demo_opts : WriteOptions := mkOptions 4 RegBlocked true MemBlocked.
Definition demo_state : ScopedForest := foldl apply forest_new demo_events.

Lemma demo_fit : snap_fit (snapshot demo_state).1.
Proof.
  assert ((snapshot demo_state).1 = mkSnap [(5, 1); (9, 1)] [(7, [(5, 1); (8, 1)])]) as -> by (by vm_compute).
  split; cbn; repeat constructor; by vm_compute.
Defined.

Lemma writers_agree_witness :
  compact_to_blobs demo_state 3 demo_opts = snapshot_to_blobs (snapshot demo_state).1 3 demo_opts.
Proof.
  apply (writers_agree demo_state demo_events 3 demo_opts).
  - apply (apply_all_absorbed demo_events _ [] forest_new_absorbed).
  - apply demo_fit.
  - by vm_compute.
Defined.

Lemma restart_from_blobs_witness :
  ∃ snap, blobs_to_snapshot (compact_to_blobs demo_state 3 demo_opts) = Ok snap ∧
    (scope_root (hydrate (tracking_members forest_new) snap) 7 8).1 = 1.
Proof.
  destruct (restart_from_blobs demo_state demo_events 3 demo_opts true) as (snap & Hs & Hr).
  - apply (apply_all_absorbed demo_events _ [] forest_new_absorbed).
  - apply demo_fit.
  - by vm_compute.
  - exists snap. split; [done|]. rewrite Hr. by vm_compute.
Defined.
