(* ===== verification/PairTable.v ===== *)
(** Sorted fixed-stride tables inside a mapping: [SparseIndex], [PairTable] and
    [FlatRegistry] of [src/storage/base.rs].

    Reads outside the mapping panic and are [None]; binary searches carry the
    width of their range as fuel. *)

From S2P Require Import Prelude Types Bytes Varint Blocked BlockedRead.

Definition PAIR_STRIDE : nat := 16.
Definition REGISTRY_STRIDE : nat := 12.
Definition PAGE_BYTES : nat := 4096.

(** ** The sparse index *)

Record SparseIndex := mkSparse {
  sx_block : nat;
  first_keys : list NodeId;
}.

(** The positions [(0..count).step_by(block)]. *)
Definition sample_positions (count block : nat) : list nat :=
  (fun j => j * block)%nat <$> seq 0 ((count + block - 1) / block).

Definition sparse_build (count stride : nat) (key_at : nat → option NodeId) : option (option SparseIndex) :=
  let block := (PAGE_BYTES / stride)%nat in
  if (count <=? block)%nat then Some None
  else ks ← mapM key_at (sample_positions count block); Some (Some (mkSparse block ks)).

(** [partition_point(|&k| k < key)]. *)
Fixpoint partition_lt (key : N) (l : list N) : nat :=
  match l with
  | r :: l => if r <? key then S (partition_lt key l) else O
  | [] => O
  end.

Definition narrow_exact (ix : SparseIndex) (count : nat) (key : NodeId) : nat * nat :=
  match partition_le key (first_keys ix) with
  | O => (0, 0)%nat
  | S b => (b * sx_block ix, Nat.min (S b * sx_block ix) count)%nat
  end.

Definition narrow_lower_bound (ix : SparseIndex) (count : nat) (key : NodeId) : nat * nat :=
  let b := partition_lt key (first_keys ix) in
  (Nat.pred b * sx_block ix, Nat.min (S b * sx_block ix) count)%nat.

(** ** Binary search *)

Inductive found := Hit (i : nat) | Miss.

(** The loop of [PairTable::lookup], up to the index of the hit. *)
Fixpoint search_loop (fuel : nat) (key_at : nat → option NodeId) (lo hi : nat) (node : NodeId)
    : option found :=
  match fuel with
  | O => None
  | S fuel =>
      if (lo <? hi)%nat then
        let mid := (lo + (hi - lo) / 2)%nat in
        k ← key_at mid;
        match (k ?= node)%N with
        | Eq => Some (Hit mid)
        | Lt => search_loop fuel key_at (S mid) hi node
        | Gt => search_loop fuel key_at lo mid node
        end
      else Some Miss
  end.

(** The lower-bound loop of [lower_bound] and [FlatRegistry::scopes_for]. *)
Fixpoint lower_loop (fuel : nat) (key_at : nat → option NodeId) (lo hi : nat) (node : NodeId)
    : option nat :=
  match fuel with
  | O => None
  | S fuel =>
      if (lo <? hi)%nat then
        let mid := (lo + (hi - lo) / 2)%nat in
        k ← key_at mid;
        if k <? node then lower_loop fuel key_at (S mid) hi node
        else lower_loop fuel key_at lo mid node
      else Some lo
  end.

(** The scan that follows a lower bound: values while the key matches, at most
    [limit] of them; [rem] bounds the rows left. *)
Fixpoint run_loop (rem : nat) (key_at value_at : nat → option N) (i limit : nat) (key : NodeId)
    : option (list N) :=
  match rem with
  | O => Some []
  | S rem =>
      match limit with
      | O => Some []
      | S limit =>
          k ← key_at i;
          if k =? key then v ← value_at i; vs ← run_loop rem key_at value_at (S i) limit key; Some (v :: vs)
          else Some []
      end
  end.

(** ** Pair tables *)

Record PairTable := mkPairTable {
  pt_start : nat;
  pt_count : nat;
  pt_index : option SparseIndex;
}.

Inductive table_error := TableTruncated | TableLengthMismatch | TablePanic.

(** [PairTable::parse]: slicing a range outside the mapping panics; the sizes are
    compared in wrapping [usize] arithmetic, as the source computes them. *)
Definition table_header (stride : N) (data : bytes) (start len : nat) : result table_error nat :=
  match slice_at data start len with
  | None => Err TablePanic
  | Some payload =>
      if (length payload <? 8)%nat then Err TableTruncated
      else
        let count := le_get (take 8 payload) in
        if N.of_nat (length payload) =? 8 ⊞ count ⊠ stride then Ok (N.to_nat count)
        else Err TableLengthMismatch
  end.

Definition pair_parse (data : bytes) (start len : nat) : result table_error PairTable :=
  count ← table_header 16 data start len; Ok (mkPairTable (start + 8) count None).

Definition pair_key_at (t : PairTable) (data : bytes) (i : nat) : option NodeId :=
  read_le 8 data (pt_start t + i * PAIR_STRIDE).

Definition pair_value_at (t : PairTable) (data : bytes) (i : nat) : option NodeId :=
  read_le 8 data (pt_start t + i * PAIR_STRIDE + 8).

Definition pair_range (t : PairTable) (node : NodeId) : nat * nat :=
  match pt_index t with
  | Some ix => narrow_exact ix (pt_count t) node
  | None => (0, pt_count t)%nat
  end.

(** [PairTable::lookup]. *)
Definition pair_lookup (t : PairTable) (data : bytes) (node : NodeId) : option (option NodeId) :=
  let '(lo, hi) := pair_range t node in
  r ← search_loop (S (hi - lo)) (pair_key_at t data) lo hi node;
  match r with Hit i => Some <$> pair_value_at t data i | Miss => Some None end.

Definition pair_lower_bound (t : PairTable) (data : bytes) (node : NodeId) : option nat :=
  lower_loop (S (pt_count t)) (pair_key_at t data) 0 (pt_count t) node.

(** [PairTable::values_for]: what it appends. *)
Definition values_for (t : PairTable) (data : bytes) (key : NodeId) (limit : nat) : option (list NodeId) :=
  if (limit =? 0)%nat then Some []
  else
    i ← pair_lower_bound t data key;
    run_loop (pt_count t - i) (pair_key_at t data) (pair_value_at t data) i limit key.

(** [PairTable::for_each]. *)
Definition pair_at (t : PairTable) (data : bytes) (i : nat) : option (NodeId * NodeId) :=
  k ← pair_key_at t data i; v ← pair_value_at t data i; Some (k, v).

Definition pair_for_each (t : PairTable) (data : bytes) : option (list (NodeId * NodeId)) :=
  mapM (pair_at t data) (seq 0 (pt_count t)).

(** ** The flat registry *)

Record FlatRegistry := mkFlat {
  fr_start : nat;
  fr_count : nat;
  fr_index : option SparseIndex;
}.

Definition flat_root_at (t : FlatRegistry) (data : bytes) (i : nat) : option NodeId :=
  read_le 8 data (fr_start t + i * REGISTRY_STRIDE).

Definition flat_scope_at (t : FlatRegistry) (data : bytes) (i : nat) : option ScopeId :=
  read_le 4 data (fr_start t + i * REGISTRY_STRIDE + 8).

(** [FlatRegistry::parse]. *)
Definition flat_parse (data : bytes) (start len : nat) : result table_error FlatRegistry :=
  count ← table_header 12 data start len;
  let t := mkFlat (start + 8) count None in
  match sparse_build count REGISTRY_STRIDE (flat_root_at t data) with
  | None => Err TablePanic
  | Some ix => Ok (mkFlat (start + 8) count ix)
  end.

(** [FlatRegistry::iter]. *)
Definition flat_iter (t : FlatRegistry) (data : bytes) : option (list (NodeId * ScopeId)) :=
  mapM (fun i => r ← flat_root_at t data i; s ← flat_scope_at t data i; Some (r, s)) (seq 0 (fr_count t)).

(** [FlatRegistry::scopes_for]: the scan is bounded by the table, not the block. *)
Definition flat_scopes_for (t : FlatRegistry) (data : bytes) (root : NodeId) : option (list ScopeId) :=
  let '(lo, hi) :=
    match fr_index t with
    | Some ix => narrow_lower_bound ix (fr_count t) root
    | None => (0, fr_count t)%nat
    end in
  i ← lower_loop (S (hi - lo)) (flat_root_at t data) lo hi root;
  run_loop (fr_count t - i) (flat_root_at t data) (flat_scope_at t data) i (fr_count t) root.
