(* ===== verification/PairTableInv.v ===== *)
(** Lookups in a sorted table find exactly the rows that are there, with and
    without the sparse index. *)

From S2P Require Import Prelude Types Bytes Filter Varint Blocked BlockedRead Registry MemberIndex Decimal.
From S2P Require Import Graph Dsu RoutingBase Forest Compaction Codec CodecInv PairTable.

(** ** Sorted lists by position *)

Lemma sorted_lookup (R : relation N) l i j a b :
  StronglySorted R l → l !! i = Some a → l !! j = Some b → (i < j)%nat → R a b.
Proof.
  intros H. revert i j. induction H as [|x l H IH Hx]; intros i j Hi Hj Hij; [done|].
  destruct j as [|j]; [lia|]. destruct i as [|i]; cbn in Hi, Hj.
  - simplify_eq. rewrite Forall_forall in Hx. apply Hx. by eapply list_elem_of_lookup_2.
  - apply (IH i j); [done|done|lia].
Qed.

Lemma sorted_lt_le l : StronglySorted N.lt l → StronglySorted N.le l.
Proof.
  induction 1 as [|x l H IH Hx]; constructor; [done|]. eapply Forall_impl; [exact Hx|]. cbn. lia.
Qed.

(** ** Searching *)

Section search.
Context (keys : list N) (key_at : nat → option N).
Context (Hk : ∀ i, (i < length keys)%nat → key_at i = keys !! i).

Lemma search_loop_spec fuel : ∀ lo hi node,
  StronglySorted N.lt keys → (lo ≤ hi ≤ length keys)%nat → (hi - lo < fuel)%nat →
  (∀ i k, (i < lo)%nat → keys !! i = Some k → k < node) →
  (∀ i k, (hi ≤ i)%nat → keys !! i = Some k → node < k) →
  match search_loop fuel key_at lo hi node with
  | Some (Hit i) => keys !! i = Some node
  | Some Miss => node ∉ keys
  | None => False
  end.
Proof using Hk.
  induction fuel as [|fuel IH]; intros lo hi node S Hr Hf Hlo Hhi; [lia|]. cbn [search_loop].
  destruct (Nat.ltb_spec lo hi) as [Hlt|Hge].
  - set (mid := (lo + (hi - lo) / 2)%nat).
    assert (lo ≤ mid < hi)%nat as Hm.
    { unfold mid. pose proof (Nat.div_lt_upper_bound (hi - lo) 2 (hi - lo)). lia. }
    destruct (lookup_lt_is_Some_2 keys mid) as [k Hmid]; [lia|].
    rewrite Hk by lia. rewrite Hmid. cbn [mbind option_bind].
    destruct (N.compare_spec k node) as [->|Hl|Hg]; [done|apply IH|apply IH]; try done; try lia.
    + intros i k' Hi Hk'. destruct (decide (i = mid)) as [->|]; [congruence|].
      assert (k' < k); [|lia]. eapply (sorted_lookup N.lt keys i mid); [done|done|done|lia].
    + intros i k' Hi Hk'. destruct (decide (i = mid)) as [->|]; [congruence|].
      assert (k < k'); [|lia]. eapply (sorted_lookup N.lt keys mid i); [done|done|done|lia].
  - intros [i Hi]%list_elem_of_lookup_1. destruct (Nat.lt_ge_cases i lo) as [H|H].
    + specialize (Hlo i node H Hi). lia.
    + specialize (Hhi i node ltac:(lia) Hi). lia.
Qed.

Lemma lower_loop_spec fuel : ∀ lo hi node,
  StronglySorted N.le keys → (lo ≤ hi ≤ length keys)%nat → (hi - lo < fuel)%nat →
  (∀ i k, (i < lo)%nat → keys !! i = Some k → k < node) →
  (∀ i k, (hi ≤ i)%nat → keys !! i = Some k → node <= k) →
  ∃ j, lower_loop fuel key_at lo hi node = Some j ∧ (j ≤ length keys)%nat ∧
    (∀ i k, (i < j)%nat → keys !! i = Some k → k < node) ∧
    (∀ i k, (j ≤ i)%nat → keys !! i = Some k → node <= k).
Proof using Hk.
  induction fuel as [|fuel IH]; intros lo hi node S Hr Hf Hlo Hhi; [lia|]. cbn [lower_loop].
  destruct (Nat.ltb_spec lo hi) as [Hlt|Hge].
  - set (mid := (lo + (hi - lo) / 2)%nat).
    assert (lo ≤ mid < hi)%nat as Hm.
    { unfold mid. pose proof (Nat.div_lt_upper_bound (hi - lo) 2 (hi - lo)). lia. }
    destruct (lookup_lt_is_Some_2 keys mid) as [k Hmid]; [lia|].
    rewrite Hk by lia. rewrite Hmid. cbn [mbind option_bind].
    destruct (N.ltb_spec k node) as [Hl|Hg]; apply IH; try done; try lia.
    + intros i k' Hi Hk'. destruct (decide (i = mid)) as [->|]; [congruence|].
      assert (k' <= k); [|lia]. eapply (sorted_lookup N.le keys i mid); [done|done|done|lia].
    + intros i k' Hi Hk'. destruct (decide (i = mid)) as [->|]; [congruence|].
      assert (k <= k'); [|lia]. eapply (sorted_lookup N.le keys mid i); [done|done|done|lia].
  - exists lo. split_and!; [done|lia|done|]. intros i k Hi. apply Hhi. lia.
Qed.
End search.

(** ** The sparse index narrows safely *)

Lemma partition_le_spec' key l :
  (∀ j x, (j < partition_le key l)%nat → l !! j = Some x → x <= key) ∧
  (∀ x, l !! partition_le key l = Some x → key < x) ∧ (partition_le key l ≤ length l)%nat.
Proof.
  induction l as [|a l (I1 & I2 & I3)]; cbn [partition_le].
  { split_and!; [intros j x Hj; cbn in Hj; lia|done|done]. }
  destruct (N.leb_spec a key) as [Ha|Ha]; cbn [length].
  - split_and!; [|done|lia]. intros [|j] x Hj Hx; cbn in Hx; [by simplify_eq|]. apply (I1 j); [lia|done].
  - split_and!; [intros j x Hj; lia|intros x [= <-]; done|lia].
Qed.

Lemma partition_lt_spec key l :
  (∀ j x, (j < partition_lt key l)%nat → l !! j = Some x → x < key) ∧
  (∀ x, l !! partition_lt key l = Some x → key <= x) ∧ (partition_lt key l ≤ length l)%nat.
Proof.
  induction l as [|a l (I1 & I2 & I3)]; cbn [partition_lt].
  { split_and!; [intros j x Hj; cbn in Hj; lia|done|done]. }
  destruct (N.ltb_spec a key) as [Ha|Ha]; cbn [length].
  - split_and!; [|done|lia]. intros [|j] x Hj Hx; cbn in Hx; [by simplify_eq|]. apply (I1 j); [lia|done].
  - split_and!; [intros j x Hj; lia|intros x [= <-]; done|lia].
Qed.

(** An index that holds the first key of every block. *)
Record sparse_ok (keys : list N) (ix : SparseIndex) : Prop := {
  so_block : (0 < sx_block ix)%nat;
  so_count : keys ≠ [];
  so_keys j : first_keys ix !! j = keys !! (j * sx_block ix)%nat;
}.

Section narrow.
Context (keys : list N) (ix : SparseIndex) (S : StronglySorted N.le keys) (Hix : sparse_ok keys ix).

Lemma first_keys_lookup j : (j < length (first_keys ix))%nat → (j * sx_block ix < length keys)%nat.
Proof using Hix.
  intros H. apply lookup_lt_is_Some_1. rewrite <-(so_keys _ _ Hix). by apply lookup_lt_is_Some_2.
Qed.

Lemma narrow_exact_spec key lo hi :
  narrow_exact ix (length keys) key = (lo, hi) →
  (lo ≤ hi ≤ length keys)%nat ∧
  (∀ i k, (i < lo)%nat → keys !! i = Some k → k <= key) ∧
  (∀ i k, (hi ≤ i)%nat → keys !! i = Some k → key < k) ∧
  (∀ k, keys !! lo = Some k → (0 < hi)%nat → k <= key).
Proof using S Hix.
  unfold narrow_exact. pose proof (partition_le_spec' key (first_keys ix)) as (P1 & P2 & P3).
  pose proof (so_block _ _ Hix) as Hb. destruct (partition_le key (first_keys ix)) as [|b].
  - intros [= <- <-]. split_and!; [lia|lia|intros i k Hi; lia| |intros k _ H; lia].
    intros i k _ Hi. specialize (P2 (default 0 (keys !! 0%nat))).
    destruct (keys !! 0%nat) as [k0|] eqn:E0; [|destruct keys; [done|done]].
    rewrite (so_keys _ _ Hix), Nat.mul_0_l, E0 in P2. specialize (P2 eq_refl). cbn in P2.
    destruct i as [|i]; [congruence|]. assert (k0 <= k); [|lia].
    eapply (sorted_lookup N.le keys 0 (Datatypes.S i)); [done|done|done|lia].
  - intros [= <- <-]. pose proof (first_keys_lookup b ltac:(lia)) as Hlt.
    destruct (lookup_lt_is_Some_2 keys _ Hlt) as [kb Ekb].
    assert (kb <= key) as Hkb. { apply (P1 b); [lia|]. by rewrite (so_keys _ _ Hix). }
    split_and!; [lia|lia| | |].
    + intros i k Hi Hk. assert (k <= kb); [|lia].
      eapply (sorted_lookup N.le keys i (b * sx_block ix)%nat); [done|done|done|lia].
    + intros i k Hi Hk. pose proof (lookup_lt_Some _ _ _ Hk).
      assert (Datatypes.S b * sx_block ix < length keys)%nat as Hlt' by lia.
      destruct (lookup_lt_is_Some_2 keys _ Hlt') as [kn Ekn].
      assert (key < kn) by (apply P2; by rewrite (so_keys _ _ Hix)).
      destruct (decide (i = Datatypes.S b * sx_block ix)%nat) as [->|]; [congruence|].
      assert (kn <= k); [|lia].
      eapply (sorted_lookup N.le keys (Datatypes.S b * sx_block ix)%nat i); [done|done|done|lia].
    + intros k Hk _. congruence.
Qed.

Lemma narrow_lower_bound_spec key lo hi :
  narrow_lower_bound ix (length keys) key = (lo, hi) →
  (lo ≤ hi ≤ length keys)%nat ∧
  (∀ i k, (i < lo)%nat → keys !! i = Some k → k < key) ∧
  (∀ i k, (hi ≤ i)%nat → keys !! i = Some k → key <= k).
Proof using S Hix.
  unfold narrow_lower_bound. pose proof (partition_lt_spec key (first_keys ix)) as (P1 & P2 & P3).
  pose proof (so_block _ _ Hix) as Hb. set (b := partition_lt key (first_keys ix)) in *.
  intros [= <- <-].
  assert (pred b * sx_block ix ≤ length keys)%nat as Hlo.
  { destruct b as [|b']; [cbn; lia|]. pose proof (first_keys_lookup b' ltac:(lia)). cbn. lia. }
  split_and!; [nia|lia| |].
  - intros i k Hi Hk. destruct b as [|b']; [cbn in Hi; lia|]. cbn [Nat.pred] in *.
    destruct (lookup_lt_is_Some_2 keys (b' * sx_block ix)%nat) as [kb Ekb];
      [apply first_keys_lookup; lia|].
    assert (kb < key). { apply (P1 b'); [lia|]. by rewrite (so_keys _ _ Hix). }
    assert (k <= kb); [|lia].
    eapply (sorted_lookup N.le keys i (b' * sx_block ix)%nat); [done|done|done|lia].
  - intros i k Hi Hk. pose proof (lookup_lt_Some _ _ _ Hk).
    destruct (lookup_lt_is_Some_2 keys (b * sx_block ix)%nat) as [kb Ekb]; [lia|].
    assert (key <= kb) by (apply P2; by rewrite (so_keys _ _ Hix)).
    destruct (decide (i = b * sx_block ix)%nat) as [->|]; [congruence|].
    assert (kb <= k); [|lia].
    eapply (sorted_lookup N.le keys (b * sx_block ix)%nat i); [done|done|done|lia].
Qed.
End narrow.

(** ** Runs of equal keys *)

Lemma run_loop_spec (rows : list (N * N)) key_at value_at :
  (∀ i, (i < length rows)%nat → key_at i = rows.*1 !! i) →
  (∀ i, (i < length rows)%nat → value_at i = rows.*2 !! i) →
  ∀ rem i limit key, (i + rem = length rows)%nat → StronglySorted N.le rows.*1 →
  (∀ j k, (i ≤ j)%nat → rows.*1 !! j = Some k → key <= k) →
  run_loop rem key_at value_at i limit key = Some (take limit (vals_of (drop i rows) key)).
Proof.
  intros Hk Hv rem. induction rem as [|rem IH]; intros i limit key Hr Hs Hge; cbn [run_loop].
  { rewrite drop_ge by lia. cbn. by rewrite take_nil. }
  destruct limit as [|limit]; [done|].
  destruct (lookup_lt_is_Some_2 rows i) as [[k v] Hi]; [lia|].
  rewrite Hk, Hv by lia. rewrite !list_lookup_fmap, Hi. cbn [fmap option_fmap option_map fst snd mbind option_bind].
  rewrite (drop_S _ _ _ Hi). change ((k, v) :: drop (S i) rows) with ([(k, v)] ++ drop (S i) rows).
  rewrite vals_of_app. destruct (N.eqb_spec k key) as [->|Hne].
  - assert (vals_of [(key, v)] key = [v]) as ->.
    { unfold vals_of. rewrite filter_cons. by rewrite decide_True. }
    rewrite (IH (S i) limit key); [done|lia|done|]. intros j k Hj. apply Hge. lia.
  - assert (key <= k) by (apply (Hge i); [lia|]; by rewrite list_lookup_fmap, Hi).
    rewrite !vals_of_none; [done| |].
    + intros p [j Hj]%list_elem_of_lookup_1 Hp. rewrite lookup_drop in Hj.
      assert (k <= p.1); [|lia].
      eapply (sorted_lookup N.le rows.*1 i (S i + j)); [done| | |lia]; rewrite list_lookup_fmap.
      * by rewrite Hi.
      * by rewrite Hj.
    + intros p ->%list_elem_of_singleton. done.
Qed.

(** Everything at and after the lower bound. *)
Lemma vals_of_drop rows j key :
  (∀ i k, (i < j)%nat → rows.*1 !! i = Some k → k < key) → vals_of (drop j rows) key = vals_of rows key.
Proof.
  intros H. rewrite <-(take_drop j rows) at 2. rewrite vals_of_app.
  rewrite (vals_of_none (take j rows)); [done|].
  intros p [i Hi]%list_elem_of_lookup_1 Hp. pose proof (lookup_lt_Some _ _ _ Hi) as Hl.
  rewrite length_take in Hl. rewrite lookup_take_lt in Hi by lia.
  specialize (H i p.1 ltac:(lia)). rewrite list_lookup_fmap, Hi in H. specialize (H eq_refl). lia.
Qed.

(** ** Rows inside a mapping *)

Lemma read_row {A} (enc : A → bytes) w (rows : list A) i x (pre post a b : bytes) n v :
  (∀ y, length (enc y) = w) → rows !! i = Some x → enc x = a ++ le_put n v ++ b →
  v < 256 ^ N.of_nat n →
  read_le n (pre ++ mjoin (enc <$> rows) ++ post) (length pre + i * w + length a) = Some v.
Proof.
  intros Hw Hi Hx Hv. pose proof (lookup_lt_Some _ _ _ Hi).
  rewrite <-(take_drop_middle rows i x Hi), fmap_app, fmap_cons, join_app, mjoin_cons, Hx.
  assert (length (pre ++ mjoin (enc <$> take i rows) ++ a) = length pre + i * w + length a)%nat as <-.
  { rewrite !length_app, (concat_length w), length_fmap, length_take; [lia|].
    apply Forall_fmap, Forall_true. intros y. apply Hw. }
  rewrite <-!app_assoc, (app_assoc pre), (app_assoc (pre ++ _)). rewrite <-(app_assoc pre).
  by apply read_le_app.
Qed.

Lemma mapM_lookup {A} (g : nat → option A) (l : list A) :
  (∀ i, (i < length l)%nat → g i = l !! i) → mapM g (seq 0 (length l)) = Some l.
Proof.
  intros H. apply mapM_Some. apply Forall2_same_length_lookup_2; [by rewrite length_seq|].
  intros i j x Hj Hx. apply lookup_seq in Hj as [-> Hj]. cbn. by rewrite H.
Qed.

Section pair_table.
Context (pairs : list (NodeId * NodeId)) (pre post : bytes) (ix : option SparseIndex).
Context (F : pairs_fit pairs).
Let data := pre ++ table pairs ++ post.
Let t := mkPairTable (length pre + 8) (length pairs) ix.

Lemma small_at i p : pairs !! i = Some p → small_pair p.
Proof using F.
  intros H. pose proof (pf_small _ F) as Hs. rewrite Forall_forall in Hs. apply Hs.
  by eapply list_elem_of_lookup_2.
Qed.

Lemma data_rows : data = (pre ++ put_u64 (N.of_nat (length pairs))) ++ mjoin (put_pair <$> pairs) ++ post.
Proof using. unfold data, table. by rewrite <-!app_assoc. Qed.

Lemma pair_key_at_spec i : (i < length pairs)%nat → pair_key_at t data i = pairs.*1 !! i.
Proof using F.
  intros Hi. destruct (lookup_lt_is_Some_2 pairs i Hi) as [[a b] E].
  rewrite list_lookup_fmap, E. cbn [fmap option_fmap option_map fst]. unfold pair_key_at.
  destruct (small_at _ _ E) as [Ha _]. rewrite data_rows.
  replace (pt_start t + i * PAIR_STRIDE)%nat with
    (length (pre ++ put_u64 (N.of_nat (length pairs))) + i * 16 + length (@nil N))%nat
    by (rewrite length_app, put_u64_length; cbn; unfold PAIR_STRIDE; lia).
  by apply (read_row put_pair 16 pairs i (a, b) _ post [] (put_u64 b) 8 a).
Qed.

Lemma pair_value_at_spec i : (i < length pairs)%nat → pair_value_at t data i = pairs.*2 !! i.
Proof using F.
  intros Hi. destruct (lookup_lt_is_Some_2 pairs i Hi) as [[a b] E].
  rewrite list_lookup_fmap, E. cbn [fmap option_fmap option_map snd]. unfold pair_value_at.
  destruct (small_at _ _ E) as [_ Hb]. rewrite data_rows.
  replace (pt_start t + i * PAIR_STRIDE + 8)%nat with
    (length (pre ++ put_u64 (N.of_nat (length pairs))) + i * 16 + length (put_u64 a))%nat
    by (rewrite length_app, !put_u64_length; cbn; unfold PAIR_STRIDE; lia).
  by apply (read_row put_pair 16 pairs i (a, b) _ post (put_u64 a) [] 8 b).
Qed.

Lemma pair_for_each_spec : pair_for_each t data = Some pairs.
Proof using F.
  apply mapM_lookup. intros i Hi. unfold pair_at. rewrite pair_key_at_spec, pair_value_at_spec by done.
  rewrite !list_lookup_fmap. by destruct (lookup_lt_is_Some_2 pairs i Hi) as [[a b] ->].
Qed.

Context (S : StronglySorted N.lt pairs.*1).
Context (Hix : ∀ x, ix = Some x → sparse_ok pairs.*1 x).

(** The lookup of a node is its entry in the table. *)
Lemma pair_lookup_spec node :
  pair_lookup t data node = Some ((list_to_map pairs : gmap NodeId NodeId) !! node).
Proof using F S Hix.
  unfold pair_lookup. destruct (pair_range t node) as [lo hi] eqn:E.
  assert ((lo ≤ hi ≤ length pairs.*1)%nat ∧
    (∀ i k, (i < lo)%nat → pairs.*1 !! i = Some k → k < node) ∧
    (∀ i k, (hi ≤ i)%nat → pairs.*1 !! i = Some k → node < k)) as (Hr & Hlo & Hhi).
  { unfold pair_range in E. cbn [pt_index t pt_count] in E. destruct ix as [x|].
    - destruct (narrow_exact_spec pairs.*1 x (sorted_lt_le _ S) (Hix x eq_refl) node lo hi) as (H1 & H2 & H3 & H4).
      { by rewrite length_fmap. }
      split_and!; [lia|lia| |done]. intros i k Hi Hk.
      destruct (Nat.lt_ge_cases lo (length pairs.*1)) as [Hl|Hl].
      + destruct (lookup_lt_is_Some_2 pairs.*1 lo Hl) as [kl Ekl].
        assert (k < kl) by (by apply (sorted_lookup N.lt pairs.*1 i lo)).
        specialize (H4 kl Ekl ltac:(lia)). lia.
      + specialize (H2 i k Hi Hk). pose proof (lookup_lt_Some _ _ _ Hk). unfold narrow_exact in E.
        exfalso. destruct (partition_le node (first_keys x)) as [|b] eqn:Ep; simplify_eq; [lia|].
        pose proof (partition_le_spec' node (first_keys x)) as (_ & _ & P3). rewrite Ep in P3.
        pose proof (first_keys_lookup pairs.*1 x (Hix x eq_refl) b ltac:(lia)). lia.
    - simplify_eq. rewrite length_fmap. split_and!; [lia|lia|intros i k Hi; lia|].
      intros i k Hi Hk. apply lookup_lt_Some in Hk. rewrite length_fmap in Hk. lia. }
  pose proof (search_loop_spec pairs.*1 (pair_key_at t data)
    ltac:(intros i Hi; rewrite length_fmap in Hi; by apply pair_key_at_spec)
    (Datatypes.S (hi - lo)) lo hi node S Hr ltac:(lia) Hlo Hhi) as H.
  destruct (search_loop _ _ _ _ _) as [[i|]|]; [| |done]; cbn [mbind option_bind].
  - pose proof (lookup_lt_Some _ _ _ H) as Hi. rewrite length_fmap in Hi.
    rewrite pair_value_at_spec by done. rewrite list_lookup_fmap in H |- *.
    destruct (pairs !! i) as [[a b]|] eqn:Ei; [|done]. cbn in H. simplify_eq. cbn. f_equal. symmetry.
    apply elem_of_list_to_map_1; [by apply sorted_lt_nodup|]. by eapply list_elem_of_lookup_2.
  - f_equal. symmetry. by apply not_elem_of_list_to_map_1.
Qed.
End pair_table.

(** Tables with repeated keys, such as a flat member index. *)
Lemma values_for_spec pairs pre post ix key limit :
  pairs_fit pairs → StronglySorted N.le pairs.*1 →
  values_for (mkPairTable (length pre + 8) (length pairs) ix) (pre ++ table pairs ++ post) key limit =
    Some (take limit (vals_of pairs key)).
Proof.
  intros F Hs. unfold values_for. destruct (Nat.eqb_spec limit 0) as [->|Hl]; [done|].
  unfold pair_lower_bound. cbn [pt_count].
  set (t := mkPairTable _ _ _). set (data := pre ++ _).
  destruct (lower_loop_spec pairs.*1 (pair_key_at t data)
    ltac:(intros i Hi; rewrite length_fmap in Hi; by apply pair_key_at_spec)
    (S (length pairs)) 0 (length pairs) key Hs) as (j & -> & Hj & Hlt & Hge).
  - rewrite length_fmap. lia.
  - lia.
  - intros i k Hi. lia.
  - intros i k Hi Hk. apply lookup_lt_Some in Hk. rewrite length_fmap in Hk. lia.
  - cbn [mbind option_bind]. rewrite length_fmap in Hj.
    rewrite (run_loop_spec pairs).
    + by rewrite vals_of_drop.
    + intros i Hi. by apply pair_key_at_spec.
    + intros i Hi. by apply pair_value_at_spec.
    + lia.
    + done.
    + done.
Qed.

(** [parse] accepts a table wherever it stands. *)
Lemma pair_parse_spec pairs pre post :
  pairs_fit pairs →
  pair_parse (pre ++ table pairs ++ post) (length pre) (length (table pairs)) =
    Ok (mkPairTable (length pre + 8) (length pairs) None).
Proof.
  intros [Hs Hl]. unfold pair_parse, table_header. rewrite slice_at_app, table_length.
  destruct (Nat.ltb_spec (8 + 16 * length pairs) 8); [lia|].
  assert (take 8 (table pairs) = put_u64 (N.of_nat (length pairs))) as -> by done.
  rewrite put_u64_get by lia.
  assert (8 ⊞ N.of_nat (length pairs) ⊠ 16 = 8 + N.of_nat (length pairs) * 16) as E.
  { unfold wmul64. rewrite (wrap64_small (_ * _)) by lia. rewrite wadd64_small; lia. }
  rewrite E. destruct (N.eqb_spec (N.of_nat (8 + 16 * length pairs)) (8 + N.of_nat (length pairs) * 16)); [|lia].
  cbn [mbind result_bind]. by rewrite Nat2N.id.
Qed.

(** ** Building the sparse index *)

Lemma ceil_bound count block j :
  (0 < block)%nat → (j < (count + block - 1) / block ↔ j * block < count)%nat.
Proof.
  intros Hb. split; intros H.
  - pose proof (Nat.Div0.mul_div_le (count + block - 1) block). nia.
  - apply Nat.div_le_lower_bound; nia.
Qed.

Lemma sparse_build_spec keys stride key_at :
  (0 < PAGE_BYTES / stride)%nat → (∀ i, (i < length keys)%nat → key_at i = keys !! i) →
  ∃ o, sparse_build (length keys) stride key_at = Some o ∧ ∀ x, o = Some x → sparse_ok keys x.
Proof.
  intros Hb Hk. unfold sparse_build. set (block := (PAGE_BYTES / stride)%nat) in *.
  destruct (Nat.leb_spec (length keys) block) as [Hle|Hgt]; [by exists None|].
  set (n := ((length keys + block - 1) / block)%nat).
  assert (∃ ks, mapM key_at (sample_positions (length keys) block) = Some ks ∧
    ∀ j, ks !! j = keys !! (j * block)%nat) as (ks & -> & Hks).
  { exists (omap (fun j => keys !! (j * block)%nat) (seq 0 n)).
    assert (∀ m a, (∀ j, (a ≤ j < a + m)%nat → (j * block < length keys)%nat) →
      mapM key_at ((fun j => j * block)%nat <$> seq a m) =
        Some (omap (fun j => keys !! (j * block)%nat) (seq a m)) ∧
      ∀ j, omap (fun j => keys !! (j * block)%nat) (seq a m) !! j =
        if decide (j < m)%nat then keys !! ((a + j) * block)%nat else None) as H.
    { induction m as [|m IH]; intros a Ha; cbn [seq fmap list_fmap mapM omap list_omap].
      { split; [done|]. intros j. by rewrite decide_False by lia. }
      destruct (IH (S a)) as [H1 H2]; [intros j Hj; apply Ha; lia|].
      specialize (Ha a ltac:(lia)). rewrite Hk by done.
      destruct (lookup_lt_is_Some_2 keys _ Ha) as [k Ek]. rewrite Ek. cbn [mbind option_bind].
      rewrite H1. split; [done|]. intros [|j]; cbn [lookup list_lookup].
      - by rewrite decide_True, Nat.add_0_r by lia.
      - change (list_lookup j ?l) with (l !! j). rewrite H2. repeat case_decide; try lia; [|done].
        by replace (S a + j)%nat with (a + S j)%nat by lia. }
    destruct (H n 0%nat) as [H1 H2].
    { intros j Hj. apply (ceil_bound (length keys) block); [lia|]. unfold n in Hj. lia. }
    split; [exact H1|]. intros j. rewrite H2. case_decide as Hj; [done|].
    symmetry. apply lookup_ge_None_2. destruct (Nat.lt_ge_cases (j * block) (length keys)) as [Hlt|]; [|done].
    apply (ceil_bound (length keys) block) in Hlt; [|lia]. unfold n in Hj. lia. }
  eexists. split; [done|]. intros x [= <-]. split; [cbn; lia| |done]. intros ->. cbn in Hgt. lia.
Qed.

(** ** The flat registry *)

Definition put_entry (e : NodeId * ScopeId) : bytes := put_u64 e.1 ++ put_u32 e.2.

Definition flat_table (es : list (NodeId * ScopeId)) : bytes :=
  put_u64 (N.of_nat (length es)) ++ mjoin (put_entry <$> es).

Record entries_fit (es : list (NodeId * ScopeId)) : Prop := {
  ef_small : Forall (fun e => e.1 < u64_limit ∧ e.2 < u32_limit) es;
  ef_len : 8 + 12 * N.of_nat (length es) < u64_limit;
}.

Lemma flat_table_length es : length (flat_table es) = (8 + 12 * length es)%nat.
Proof.
  unfold flat_table. rewrite length_app, put_u64_length, (concat_length 12), length_fmap; [lia|].
  by apply Forall_fmap, Forall_true.
Qed.

Section flat.
Context (es : list (NodeId * ScopeId)) (pre post : bytes) (ix : option SparseIndex).
Context (F : entries_fit es).
Let data := pre ++ flat_table es ++ post.
Let t := mkFlat (length pre + 8) (length es) ix.

Lemma flat_rows : data = (pre ++ put_u64 (N.of_nat (length es))) ++ mjoin (put_entry <$> es) ++ post.
Proof using. unfold data, flat_table. by rewrite <-!app_assoc. Qed.

Lemma entry_small i e : es !! i = Some e → e.1 < u64_limit ∧ e.2 < u32_limit.
Proof using F.
  intros H. pose proof (ef_small _ F) as Hs. rewrite Forall_forall in Hs. apply Hs.
  by eapply list_elem_of_lookup_2.
Qed.

Lemma flat_root_at_spec i : (i < length es)%nat → flat_root_at t data i = es.*1 !! i.
Proof using F.
  intros Hi. destruct (lookup_lt_is_Some_2 es i Hi) as [[a b] E].
  rewrite list_lookup_fmap, E. cbn [fmap option_fmap option_map fst]. unfold flat_root_at.
  destruct (entry_small _ _ E) as [Ha _]. rewrite flat_rows.
  replace (fr_start t + i * REGISTRY_STRIDE)%nat with
    (length (pre ++ put_u64 (N.of_nat (length es))) + i * 12 + length (@nil N))%nat
    by (rewrite length_app, put_u64_length; cbn; unfold REGISTRY_STRIDE; lia).
  by apply (read_row put_entry 12 es i (a, b) _ post [] (put_u32 b) 8 a).
Qed.

Lemma flat_scope_at_spec i : (i < length es)%nat → flat_scope_at t data i = es.*2 !! i.
Proof using F.
  intros Hi. destruct (lookup_lt_is_Some_2 es i Hi) as [[a b] E].
  rewrite list_lookup_fmap, E. cbn [fmap option_fmap option_map snd]. unfold flat_scope_at.
  destruct (entry_small _ _ E) as [_ Hb]. rewrite flat_rows.
  replace (fr_start t + i * REGISTRY_STRIDE + 8)%nat with
    (length (pre ++ put_u64 (N.of_nat (length es))) + i * 12 + length (put_u64 a))%nat
    by (rewrite length_app, !put_u64_length; cbn; unfold REGISTRY_STRIDE; lia).
  by apply (read_row put_entry 12 es i (a, b) _ post (put_u64 a) [] 4 b).
Qed.

Lemma flat_iter_spec : flat_iter t data = Some es.
Proof using F.
  apply mapM_lookup. intros i Hi. rewrite flat_root_at_spec, flat_scope_at_spec by done.
  rewrite !list_lookup_fmap. by destruct (lookup_lt_is_Some_2 es i Hi) as [[a b] ->].
Qed.

Context (S : StronglySorted N.le es.*1) (Hix : ∀ x, ix = Some x → sparse_ok es.*1 x).

Lemma flat_scopes_for_spec root : flat_scopes_for t data root = Some (vals_of es root).
Proof using F S Hix.
  unfold flat_scopes_for. cbn [fr_index fr_count t].
  set (r := match ix with Some x => _ | None => _ end). destruct r as [lo hi] eqn:E.
  assert ((lo ≤ hi ≤ length es.*1)%nat ∧
    (∀ i k, (i < lo)%nat → es.*1 !! i = Some k → k < root) ∧
    (∀ i k, (hi ≤ i)%nat → es.*1 !! i = Some k → root <= k)) as (Hr & Hlo & Hhi).
  { unfold r in E. destruct ix as [x|].
    - apply (narrow_lower_bound_spec es.*1 x S (Hix x eq_refl)). by rewrite length_fmap.
    - simplify_eq. rewrite length_fmap. split_and!; [lia|lia|intros i k Hi; lia|].
      intros i k Hi Hk. apply lookup_lt_Some in Hk. rewrite length_fmap in Hk. lia. }
  destruct (lower_loop_spec es.*1 (flat_root_at t data)
    ltac:(intros i Hi; rewrite length_fmap in Hi; by apply flat_root_at_spec)
    (Datatypes.S (hi - lo)) lo hi root S Hr ltac:(lia) Hlo Hhi) as (j & Hj & Hjl & Hlt & Hge).
  fold t data. rewrite Hj. cbn [mbind option_bind]. rewrite length_fmap in Hjl.
  rewrite (run_loop_spec es).
  - rewrite vals_of_drop by done. f_equal. apply take_ge. unfold vals_of.
    rewrite length_fmap. apply length_filter.
  - intros i Hi. by apply flat_root_at_spec.
  - intros i Hi. by apply flat_scope_at_spec.
  - lia.
  - done.
  - done.
Qed.
End flat.

Lemma flat_parse_spec es pre post :
  entries_fit es →
  ∃ ix, flat_parse (pre ++ flat_table es ++ post) (length pre) (length (flat_table es)) =
    Ok (mkFlat (length pre + 8) (length es) ix) ∧ ∀ x, ix = Some x → sparse_ok es.*1 x.
Proof.
  intros F. pose proof F as [Hs Hl]. unfold flat_parse, table_header. rewrite slice_at_app, flat_table_length.
  destruct (Nat.ltb_spec (8 + 12 * length es) 8); [lia|].
  assert (take 8 (flat_table es) = put_u64 (N.of_nat (length es))) as -> by done.
  rewrite put_u64_get by lia.
  assert (8 ⊞ N.of_nat (length es) ⊠ 12 = 8 + N.of_nat (length es) * 12) as E.
  { unfold wmul64. rewrite (wrap64_small (_ * _)) by lia. rewrite wadd64_small; lia. }
  rewrite E. destruct (N.eqb_spec (N.of_nat (8 + 12 * length es)) (8 + N.of_nat (length es) * 12)); [|lia].
  cbn [mbind result_bind]. rewrite Nat2N.id.
  destruct (sparse_build_spec es.*1 REGISTRY_STRIDE
    (flat_root_at (mkFlat (length pre + 8) (length es) None) (pre ++ flat_table es ++ post)))
    as (o & Ho & Hok); [by vm_compute; lia| |].
  - intros i Hi. rewrite length_fmap in Hi. by apply flat_root_at_spec.
  - rewrite length_fmap in Ho. rewrite Ho. eauto.
Qed.

(** ** Narrowed lookups *)

Lemma narrow_exact_width ix count key :
  let '(lo, hi) := narrow_exact ix count key in (hi - lo ≤ sx_block ix)%nat.
Proof. unfold narrow_exact. destruct (partition_le _ _); lia. Qed.

(** A lookup narrowed by the sparse index finds exactly what the table holds,
    and searches at most one page: index a sorted table placed anywhere in the
    mapping, and looking a node up never panics, returns the node's entry or its
    absence, and probes a range of at most [PAGE_BYTES / PAIR_STRIDE] entries. *)
Theorem narrowed_lookup (pairs : list (NodeId * NodeId)) (pre post : bytes) :
  pairs_fit pairs → StronglySorted N.lt pairs.*1 →
  let data := pre ++ table pairs ++ post in
  ∃ ix, sparse_build (length pairs) PAIR_STRIDE
          (pair_key_at (mkPairTable (length pre + 8) (length pairs) None) data) = Some ix ∧
    let t := mkPairTable (length pre + 8) (length pairs) ix in
    ∀ node, pair_lookup t data node = Some ((list_to_map pairs : gmap NodeId NodeId) !! node) ∧
      let '(lo, hi) := pair_range t node in (hi - lo ≤ PAGE_BYTES / PAIR_STRIDE)%nat.
Proof.
  intros F S data.
  destruct (sparse_build_spec pairs.*1 PAIR_STRIDE
    (pair_key_at (mkPairTable (length pre + 8) (length pairs) None) data)) as (ix & E & Hix).
  { unfold PAGE_BYTES, PAIR_STRIDE. lia. }
  { intros i Hi. rewrite length_fmap in Hi. by apply pair_key_at_spec. }
  rewrite length_fmap in E. exists ix. split; [done|]. intros t node. split; [by apply pair_lookup_spec|].
  unfold sparse_build in E. unfold pair_range, t. cbn [pt_index pt_count].
  destruct (Nat.leb_spec (length pairs) (PAGE_BYTES / PAIR_STRIDE)) as [Hle|Hgt].
  - simplify_eq. lia.
  - destruct (mapM _ _) as [ks|]; [|done]. cbn [mbind option_bind] in E. simplify_eq.
    apply (narrow_exact_width (mkSparse (PAGE_BYTES / PAIR_STRIDE) ks)).
Qed.

Definition demo_table : list (NodeId * NodeId) := [(3, 1); (7, 2); (9, 1)].

Lemma narrowed_lookup_witness :
  ∃ ix, pair_lookup (mkPairTable 9 3 ix) ([5] ++ table demo_table ++ [6]) 7 = Some (Some 2).
Proof.
  destruct (narrowed_lookup demo_table [5] [6]) as (ix & _ & H).
  - split; [|by vm_compute]. repeat constructor.
  - repeat constructor; done.
  - exists ix. etrans; [apply (H 7)|by vm_compute].
Defined.
