(* ===== verification/Puffin.v ===== *)
(** The Puffin container: [src/storage/puffin.rs].

    The JSON footer is written and read by [serde_json]: its two functions are
    parameters, and what the format relies on is that reading gives back what was
    written. *)

From S2P Require Import Prelude Bytes Filter Varint Blocked Registry MemberIndex Decimal Types.
From S2P Require Import Graph Dsu RoutingBase Forest Compaction Codec.

(** [b"PFA1"]. *)
Definition PUFFIN_MAGIC : bytes := [80; 70; 65; 49].

Record BlobMetadata := mkMeta {
  meta_type : string;
  meta_fields : list Z;
  meta_snapshot_id : Z;
  meta_sequence_number : Z;
  meta_offset : N;
  meta_length : N;
  meta_codec : option string;
  meta_properties : gmap string string;
}.

Record FileMetadata := mkFileMeta {
  file_blobs : list BlobMetadata;
  file_properties : gmap string string;
}.

Record BlobIndex := mkIndex {
  ix_type : string;
  ix_offset : nat;
  ix_length : nat;
  ix_properties : gmap string string;
  ix_snapshot_id : Z;
  ix_sequence_number : Z;
}.

Inductive PuffinError :=
| TooSmall
| BadMagic (where_ : string)
| BadFooter
| BlobOutOfBounds (offset length : N) (file_len : nat)
| UnsupportedFlags (flags : N)
| PuffinPanic.

(** [data[a..b]], which panics where the range is not one of the data. *)
Definition slice_range (data : bytes) (a b : nat) : result PuffinError bytes :=
  if decide (a ≤ b ≤ length data)%nat then Ok (take (b - a) (drop a data)) else Err PuffinPanic.

(** [n - k] on [usize]; where it wraps, so does the range that is then asked for. *)
Definition sub_usize (n k : nat) : result PuffinError nat :=
  if decide (k ≤ n)%nat then Ok (n - k)%nat else Err PuffinPanic.

Lemma slice_range_app (pre mid post : bytes) :
  slice_range (pre ++ mid ++ post) (length pre) (length pre + length mid) = Ok mid.
Proof.
  unfold slice_range. rewrite decide_True by (rewrite !length_app; lia).
  replace (length pre + length mid - length pre)%nat with (length mid) by lia. by rewrite drop_app_length, take_app_length.
Qed.

Section puffin.
Context (to_json : FileMetadata → bytes) (from_json : bytes → option FileMetadata).

(** The blob loop of [write]: the bytes appended and the metadata, from [offset]. *)
Fixpoint write_blobs (blobs : list Blob) (offset : nat) : bytes * list BlobMetadata :=
  match blobs with
  | [] => ([], [])
  | b :: blobs =>
      let '(out, metas) := write_blobs blobs (offset + length (blob_data b)) in
      (blob_data b ++ out,
       mkMeta (blob_type b) [] (snapshot_id b) (sequence_number b) (N.of_nat offset)
         (N.of_nat (length (blob_data b))) None (properties b) :: metas)
  end.

(** [write]; the size of the footer is asserted. *)
Definition puffin_write (blobs : list Blob) (props : gmap string string) : result PuffinError bytes :=
  let '(body, metas) := write_blobs blobs 4 in
  let payload := to_json (mkFileMeta metas props) in
  if N.of_nat (length payload) <? u32_limit then
    Ok (PUFFIN_MAGIC ++ body ++ PUFFIN_MAGIC ++ payload ++
        put_u32 (N.of_nat (length payload)) ++ put_u32 0 ++ PUFFIN_MAGIC)
  else Err PuffinPanic.

(** One blob of [read_index]. *)
Definition check_blob (n magic_start : nat) (m : BlobMetadata) : result PuffinError BlobIndex :=
  let start := meta_offset m in
  let end_ := N.min (start + meta_length m) (u64_limit - 1) in
  if (start <? 4) || (N.of_nat magic_start <? end_) then
    Err (BlobOutOfBounds (meta_offset m) (meta_length m) n)
  else
    Ok (mkIndex (meta_type m) (N.to_nat start) (N.to_nat (meta_length m)) (meta_properties m)
          (meta_snapshot_id m) (meta_sequence_number m)).

Fixpoint check_blobs (n magic_start : nat) (ms : list BlobMetadata) : result PuffinError (list BlobIndex) :=
  match ms with
  | [] => Ok []
  | m :: ms => i ← check_blob n magic_start m; rest ← check_blobs n magic_start ms; Ok (i :: rest)
  end.

Definition read_index (data : bytes) : result PuffinError (list BlobIndex) :=
  let n := length data in
  if (n <? 20)%nat then Err TooSmall else
  head ← slice_range data 0 4;
  if negb (bool_decide (head = PUFFIN_MAGIC)) then Err (BadMagic "file start") else
  n4 ← sub_usize n 4;
  tail ← slice_range data n4 n;
  if negb (bool_decide (tail = PUFFIN_MAGIC)) then Err (BadMagic "file end") else
  n8 ← sub_usize n 8;
  flags ← slice_range data n8 n4;
  let flags := le_get flags in
  if negb (flags =? 0) then Err (UnsupportedFlags flags) else
  n12 ← sub_usize n 12;
  payload_len ← slice_range data n12 n8;
  let payload_len := le_get payload_len in
  let payload_end := n12 in
  if N.of_nat payload_end <? payload_len then Err TooSmall else
  let payload_start := (payload_end - N.to_nat payload_len)%nat in
  if (payload_start <? 4)%nat then Err TooSmall else
  let magic_start := (payload_start - 4)%nat in
  marker ← slice_range data magic_start payload_start;
  if negb (bool_decide (marker = PUFFIN_MAGIC)) then Err (BadMagic "footer start") else
  payload ← slice_range data payload_start payload_end;
  match from_json payload with
  | None => Err BadFooter
  | Some footer => check_blobs n magic_start (file_blobs footer)
  end.

(** [read]: copying a range outside the data would panic. *)
Fixpoint copy_blobs (data : bytes) (idx : list BlobIndex) : result PuffinError (list Blob) :=
  match idx with
  | [] => Ok []
  | i :: idx =>
      match slice_at data (ix_offset i) (ix_length i) with
      | None => Err PuffinPanic
      | Some d =>
          bs ← copy_blobs data idx;
          Ok (mkBlob (ix_type i) d (ix_properties i) (ix_snapshot_id i) (ix_sequence_number i) :: bs)
      end
  end.

Definition puffin_read (data : bytes) : result PuffinError (list Blob) :=
  idx ← read_index data; copy_blobs data idx.

(** ** What reading relies on *)

(** The index entry [i] locates the blob [b] in [data]. *)
Record placed (data : bytes) (b : Blob) (i : BlobIndex) : Prop := {
  pl_type : ix_type i = blob_type b;
  pl_props : ix_properties i = properties b;
  pl_snapshot : ix_snapshot_id i = snapshot_id b;
  pl_sequence : ix_sequence_number i = sequence_number b;
  pl_length : ix_length i = length (blob_data b);
  pl_data : ∃ pre post, data = pre ++ blob_data b ++ post ∧ length pre = ix_offset i;
}.

Lemma copy_placed data blobs idx : Forall2 (placed data) blobs idx → copy_blobs data idx = Ok blobs.
Proof using.
  induction 1 as [|b i blobs idx [P1 P2 P3 P4 P5 (pre & post & P6 & P7)] _ IH]; [done|]. cbn [copy_blobs].
  rewrite <-P7, P5, P6, slice_at_app. rewrite <-P6, IH. cbn [mbind result_bind].
  rewrite P1, P2, P3, P4. by destruct b.
Qed.

Lemma write_blobs_placed n ms blobs : ∀ pre post,
  let '(out, metas) := write_blobs blobs (length pre) in
  (4 ≤ length pre)%nat → (length pre + length out ≤ ms)%nat → N.of_nat ms < u64_limit →
  ∃ idx, check_blobs n ms metas = Ok idx ∧ Forall2 (placed (pre ++ out ++ post)) blobs idx.
Proof using.
  clear to_json from_json.
  induction blobs as [|b blobs IH]; intros pre post; cbn [write_blobs].
  { intros _ _ _. by exists []. }
  specialize (IH (pre ++ blob_data b) post). rewrite length_app in IH.
  destruct (write_blobs blobs (length pre + length (blob_data b))) as [out metas].
  intros H4 Hms Hlim. rewrite length_app in Hms. destruct IH as (idx & Hc & Hp); [lia|lia|done|].
  cbn [check_blobs]. unfold check_blob. cbn [meta_offset meta_length meta_type meta_properties
    meta_snapshot_id meta_sequence_number].
  assert ((N.of_nat (length pre) <? 4) || (N.of_nat ms <? N.min (N.of_nat (length pre) +
    N.of_nat (length (blob_data b))) (u64_limit - 1)) = false) as ->.
  { apply orb_false_intro; apply N.ltb_ge; lia. }
  rewrite Hc. cbn [mbind result_bind]. eexists. split; [done|]. rewrite <-app_assoc in Hp |- *.
  constructor; [|done]. split; cbn; try done; [by rewrite Nat2N.id|].
  exists pre, (out ++ post). rewrite Nat2N.id. done.
Qed.

Context (json_roundtrip : ∀ m, from_json (to_json m) = Some m).

Lemma read_index_write blobs props data :
  puffin_write blobs props = Ok data → N.of_nat (length data) < u64_limit →
  ∃ idx, read_index data = Ok idx ∧ Forall2 (placed data) blobs idx.
Proof using json_roundtrip.
  unfold puffin_write. pose proof (write_blobs_placed) as Hw.
  destruct (write_blobs blobs 4) as [body metas] eqn:E.
  set (payload := to_json _). destruct (N.ltb_spec (N.of_nat (length payload)) u32_limit) as [Hp|]; [|done].
  set (D := PUFFIN_MAGIC ++ _). intros H. assert (data = D) as HD by congruence.
  clear H. subst data. rename D into data. intros Hn.
  assert (length data = 20 + length body + length payload)%nat as Hl.
  { unfold data. rewrite !length_app. cbn. lia. }
  assert (data = (PUFFIN_MAGIC ++ body ++ PUFFIN_MAGIC ++ payload ++ put_u32 (N.of_nat (length payload)) ++
    put_u32 0) ++ PUFFIN_MAGIC) as E1 by (unfold data; by rewrite <-!app_assoc).
  assert (data = (PUFFIN_MAGIC ++ body ++ PUFFIN_MAGIC ++ payload ++ put_u32 (N.of_nat (length payload))) ++
    put_u32 0 ++ PUFFIN_MAGIC) as E2 by (unfold data; by rewrite <-!app_assoc).
  assert (data = (PUFFIN_MAGIC ++ body ++ PUFFIN_MAGIC ++ payload) ++
    put_u32 (N.of_nat (length payload)) ++ put_u32 0 ++ PUFFIN_MAGIC) as E3 by (unfold data; by rewrite <-!app_assoc).
  assert (data = (PUFFIN_MAGIC ++ body ++ PUFFIN_MAGIC) ++ payload ++
    put_u32 (N.of_nat (length payload)) ++ put_u32 0 ++ PUFFIN_MAGIC) as E4 by (unfold data; by rewrite <-!app_assoc).
  assert (data = (PUFFIN_MAGIC ++ body) ++ PUFFIN_MAGIC ++ payload ++
    put_u32 (N.of_nat (length payload)) ++ put_u32 0 ++ PUFFIN_MAGIC) as E5 by (unfold data; by rewrite <-!app_assoc).
  assert (∀ (a b c : bytes) m k, data = a ++ b ++ c → length a = m → (m + length b)%nat = k →
    slice_range data m k = Ok b) as Hs.
  { intros a b c m k Hd <- <-. rewrite Hd. apply slice_range_app. }
  assert (∀ k, (k ≤ 20)%nat → sub_usize (length data) k = Ok (length data - k)%nat) as Hk by (intros k Hk; unfold sub_usize; by rewrite decide_True by lia).
  unfold read_index. cbv zeta. destruct (Nat.ltb_spec (length data) 20); [lia|].
  rewrite (Hs [] _ _ 0%nat 4%nat eq_refl) by done. cbn [mbind result_bind]. rewrite bool_decide_eq_true_2 by done. cbn [negb].
  rewrite !Hk by lia. cbn [mbind result_bind].
  rewrite (Hs _ PUFFIN_MAGIC [] (length data - 4)%nat (length data) (eq_trans E1 (f_equal _ (eq_sym (app_nil_r _)))));
    [|rewrite Hl, !length_app; cbn; lia|cbn; lia]. cbn [mbind result_bind]. rewrite bool_decide_eq_true_2 by done. cbn [negb].
  rewrite (Hs _ _ _ (length data - 8)%nat (length data - 4)%nat E2); [|rewrite Hl, !length_app; cbn; lia|unfold put_u32; rewrite le_put_length; lia].
  cbn [mbind result_bind]. assert (le_get (put_u32 0) =? 0 = true) as -> by done. cbn [negb].
  rewrite (Hs _ _ _ (length data - 12)%nat (length data - 8)%nat E3); [|rewrite Hl, !length_app; cbn; lia|unfold put_u32; rewrite le_put_length; lia].
  cbn [mbind result_bind]. rewrite put_u32_get by done. rewrite Hl.
  destruct (N.ltb_spec (N.of_nat (20 + length body + length payload - 12)) (N.of_nat (length payload))); [lia|].
  rewrite Nat2N.id.
  replace (20 + length body + length payload - 12 - length payload)%nat with (8 + length body)%nat by lia.
  destruct (Nat.ltb_spec (8 + length body) 4); [lia|].
  rewrite (Hs _ _ _ (8 + length body - 4)%nat (8 + length body)%nat E5); [|rewrite length_app; cbn; lia|cbn; lia].
  cbn [mbind result_bind]. rewrite bool_decide_eq_true_2 by done. cbn [negb].
  rewrite (Hs _ _ _ (8 + length body)%nat (20 + length body + length payload - 12)%nat E4); [|rewrite !length_app; cbn; lia|lia].
  cbn [mbind result_bind].
  unfold payload at 1. rewrite json_roundtrip. cbn [file_blobs].
  specialize (Hw (20 + length body + length payload)%nat (8 + length body - 4)%nat blobs PUFFIN_MAGIC
    (PUFFIN_MAGIC ++ payload ++ put_u32 (N.of_nat (length payload)) ++ put_u32 0 ++ PUFFIN_MAGIC)).
  change (length PUFFIN_MAGIC) with 4%nat in Hw. rewrite E in Hw. apply Hw; lia.
Qed.

(** C37. A Puffin file gives back its blobs: whatever [write] produced, [read]
    returns the same blobs with their types, properties and bytes, and
    [read_index] locates each of them in the file. *)
Theorem puffin_roundtrip (blobs : list Blob) (props : gmap string string) (data : bytes) :
  puffin_write blobs props = Ok data → N.of_nat (length data) < u64_limit →
  puffin_read data = Ok blobs ∧
  ∃ idx, read_index data = Ok idx ∧ Forall2 (placed data) blobs idx.
Proof using json_roundtrip.
  intros Hw Hn. destruct (read_index_write blobs props data Hw Hn) as (idx & Hi & Hp).
  split; [|eauto]. unfold puffin_read. rewrite Hi. cbn [mbind result_bind]. by apply copy_placed.
Qed.
End puffin.

(** ** Untrusted files *)

Definition in_blob_area (n : nat) (i : BlobIndex) : Prop :=
  (4 ≤ ix_offset i ∧ ix_offset i + ix_length i + 16 ≤ n)%nat.

Lemma check_blobs_area n ms metas idx :
  (ms + 16 ≤ n)%nat → N.of_nat n < u64_limit → check_blobs n ms metas = Ok idx →
  Forall (in_blob_area n) idx.
Proof.
  intros Hm Hn. revert idx. induction metas as [|m metas IH]; intros idx; cbn [check_blobs].
  { intros [= <-]. constructor. }
  unfold check_blob. destruct (_ || _) eqn:E; [done|]. apply orb_false_elim in E as [E1%N.ltb_ge E2%N.ltb_ge].
  cbn [mbind result_bind]. destruct (check_blobs n ms metas) as [idx'|]; [|done]. cbn [mbind result_bind].
  intros [= <-]. constructor; [|by apply IH]. unfold in_blob_area. cbn. lia.
Qed.

(** Checking the entries of a footer has no range to be out of. *)
Lemma check_blobs_safe n ms metas : check_blobs n ms metas ≠ Err PuffinPanic.
Proof.
  induction metas as [|m metas IH]; cbn [check_blobs]; [done|].
  unfold check_blob. destruct (_ || _); [done|]. cbn [mbind result_bind].
  by destruct (check_blobs _ _ metas); [|intros [= ->]; apply IH].
Qed.

Lemma slice_range_in data a b : (a ≤ b ≤ length data)%nat → slice_range data a b = Ok (take (b - a) (drop a data)).
Proof. intros H. unfold slice_range. by rewrite decide_True. Qed.

Lemma sub_usize_in n k : (k ≤ n)%nat → sub_usize n k = Ok (n - k)%nat.
Proof. intros H. unfold sub_usize. by rewrite decide_True. Qed.

(** Every index [read_index] computes is in range, so that it ends in an error of its own
    or in the checks of the blobs, below the footer. *)
Lemma read_index_cases from_json data :
  (∃ e, read_index from_json data = Err e ∧ e ≠ PuffinPanic) ∨
  ∃ ms metas, (ms + 16 ≤ length data)%nat ∧ read_index from_json data = check_blobs (length data) ms metas.
Proof.
  unfold read_index. destruct (Nat.ltb_spec (length data) 20); [left; eexists; by split|].
  rewrite (slice_range_in data 0 4) by lia. cbn [mbind result_bind]. case_match; [left; eexists; by split|].
  rewrite !sub_usize_in by lia. cbn [mbind result_bind]. rewrite (slice_range_in data (length data - 4)) by lia.
  cbn [mbind result_bind]. case_match; [left; eexists; by split|].
  rewrite (slice_range_in data (length data - 8)) by lia. cbn [mbind result_bind]. case_match; [left; eexists; by split|].
  rewrite (slice_range_in data (length data - 12)) by lia. cbn [mbind result_bind]. set (len := le_get _).
  destruct (N.ltb_spec (N.of_nat (length data - 12)) len); [left; eexists; by split|].
  destruct (Nat.ltb_spec (length data - 12 - N.to_nat len) 4); [left; eexists; by split|].
  rewrite !slice_range_in by lia. cbn [mbind result_bind]. case_match; [left; eexists; by split|].
  destruct (from_json _) as [footer|]; [right|left; eexists; by split].
  eexists _, _. split; [|done]. lia.
Qed.

Lemma read_index_area from_json data idx :
  N.of_nat (length data) < u64_limit → read_index from_json data = Ok idx →
  Forall (in_blob_area (length data)) idx.
Proof.
  intros Hn. destruct (read_index_cases from_json data) as [(e & -> & _)|(ms & metas & Hm & ->)]; [done|].
  by apply check_blobs_area.
Qed.

Lemma copy_blobs_total data idx :
  Forall (in_blob_area (length data)) idx → ∃ bs, copy_blobs data idx = Ok bs.
Proof.
  induction 1 as [|i idx [H1 H2] _ [bs IH]]; [by exists []|]. cbn [copy_blobs].
  unfold slice_at. rewrite decide_True by lia. rewrite IH. cbn [mbind result_bind]. eauto.
Qed.

(** C40. An untrusted file cannot make [read] panic or hand out the footer: whatever
    its bytes and whatever the JSON parser returns, no range that [read_index] takes of the
    data to find the footer is out of bounds, every blob it accepts lies between the
    leading magic and the footer, and copying the blobs is in bounds. *)
Theorem puffin_read_safe (from_json : bytes → option FileMetadata) (data : bytes) :
  N.of_nat (length data) < u64_limit →
  read_index from_json data ≠ Err PuffinPanic ∧ puffin_read from_json data ≠ Err PuffinPanic ∧
  ∀ idx, read_index from_json data = Ok idx → Forall (in_blob_area (length data)) idx.
Proof.
  intros Hn. assert (read_index from_json data ≠ Err PuffinPanic) as Hp.
  { destruct (read_index_cases from_json data) as [(e & -> & He)|(ms & metas & _ & ->)]; [congruence|apply check_blobs_safe]. }
  split; [done|]. split; [|intros idx; by apply read_index_area]. unfold puffin_read.
  destruct (read_index from_json data) as [idx|e] eqn:E; cbn [mbind result_bind]; [|congruence].
  destruct (copy_blobs_total data idx) as [bs ->]; [by eapply read_index_area|done].
Qed.

(** ** A concrete footer format, to exercise the theorems *)

#[export] Instance BlobMetadata_eq_dec : EqDecision BlobMetadata.
Proof. solve_decision. Defined.

#[export] Instance FileMetadata_eq_dec : EqDecision FileMetadata.
Proof. solve_decision. Defined.

#[export] Instance BlobMetadata_countable : Countable BlobMetadata.
Proof.
  apply (inj_countable' (fun m => (meta_type m, meta_fields m, meta_snapshot_id m, meta_sequence_number m,
      (meta_offset m, meta_length m, meta_codec m, meta_properties m)))
    (fun '(a, b, c, d, (e, f, g, h)) => mkMeta a b c d e f g h)).
  by intros [].
Defined.

#[export] Instance FileMetadata_countable : Countable FileMetadata.
Proof.
  apply (inj_countable' (fun m => (file_blobs m, file_properties m)) (fun '(a, b) => mkFileMeta a b)).
  by intros [].
Defined.

Fixpoint pos_bytes (p : positive) : bytes :=
  match p with xH => [] | xO p => 0 :: pos_bytes p | xI p => 1 :: pos_bytes p end.

Fixpoint bytes_pos (l : bytes) : positive :=
  match l with [] => xH | b :: l => if b =? 0 then xO (bytes_pos l) else xI (bytes_pos l) end.

Definition demo_to_json (m : FileMetadata) : bytes := pos_bytes (countable.encode m).
Definition demo_from_json (l : bytes) : option FileMetadata := countable.decode (bytes_pos l).

Lemma demo_json m : demo_from_json (demo_to_json m) = Some m.
Proof.
  unfold demo_from_json, demo_to_json.
  assert (∀ p, bytes_pos (pos_bytes p) = p) as -> by (induction p; cbn; congruence).
  apply countable.decode_encode.
Defined.

Definition demo_blobs : list Blob := [plain_blob 3 "t" [1; 2; 3]; plain_blob 3 "u" [4]].

Definition demo_file : bytes :=
  match puffin_write demo_to_json demo_blobs ∅ with Ok data => data | Err _ => [] end.

Lemma puffin_roundtrip_witness :
  puffin_write demo_to_json demo_blobs ∅ = Ok demo_file ∧
  puffin_read demo_from_json demo_file = Ok demo_blobs.
Proof.
  assert (puffin_write demo_to_json demo_blobs ∅ = Ok demo_file) as E.
  { unfold demo_file. assert (is_ok (puffin_write demo_to_json demo_blobs ∅) = true) by (by vm_compute).
    by destruct (puffin_write demo_to_json demo_blobs ∅). }
  split; [exact E|].
  apply (puffin_roundtrip demo_to_json demo_from_json demo_json demo_blobs ∅ demo_file E).
  apply N.ltb_lt. by vm_compute.
Defined.

Lemma puffin_read_safe_witness :
  puffin_read demo_from_json (replicate 3 7) = Err TooSmall ∧ read_index demo_from_json (replicate 3 7) ≠ Err PuffinPanic ∧
  puffin_read demo_from_json (PUFFIN_MAGIC ++ replicate 16 0) ≠ Err PuffinPanic.
Proof.
  split; [done|]. split; [apply (puffin_read_safe demo_from_json (replicate 3 7)); by vm_compute|].
  apply (puffin_read_safe demo_from_json (PUFFIN_MAGIC ++ replicate 16 0)). by vm_compute.
Defined.
