(* ===== verification/PuffinBase.v ===== *)
(** A routing base served from a mapped Puffin file: [PuffinBase] of
    [src/storage/base.rs].

    The mapping and the file it maps are one byte string. Reads that would panic
    are [None]; errors of opening are values. Logging and page-cache advice have
    no effect on results and are left out. *)

From S2P Require Import Prelude Types Bytes Filter Varint Blocked BlockedRead Registry MemberIndex Decimal.
From S2P Require Import Graph Dsu RoutingBase Forest Compaction Codec PairTable Puffin.

Inductive RegistryTable :=
| RegTableFlat (t : FlatRegistry)
| RegTableBlocked (t : BlockedTable).

Inductive MemberTable :=
| MemTableFlat (t : PairTable)
| MemTableBlocked (t : BlockedTable).

Record PuffinBase := mkPuffin {
  pb_shared : option PairTable;
  pb_overlays : gmap ScopeId PairTable;
  pb_shared_members : option MemberTable;
  pb_overlay_members : gmap ScopeId MemberTable;
  pb_registry : option RegistryTable;
  pb_fallback : option (gmap NodeId (list ScopeId));
  pb_shared_filter : option BlockedFilter;
  pb_overlay_filter : option BlockedFilter;
  pb_shared_members_filter : option BlockedFilter;
  pb_overlay_members_filter : option BlockedFilter;
  pb_sequence : N;
}.

Inductive base_error :=
| BaseContainer (e : PuffinError)
| BaseTable (e : table_error)
| BaseBlocked (e : blocked_error)
| BaseFilter (e : filter_error)
| BaseMissingScope
| BaseBadScope
| BaseShortRead
| BasePanic.

Definition map_err {E E' A} (f : E → E') (r : result E A) : result E' A :=
  match r with Ok a => Ok a | Err e => Err (f e) end.

Definition base_empty : PuffinBase := mkPuffin None ∅ None ∅ None None None None None None 0.

(** ** Opening *)

(** The scope property of a blob, which must be there and be a number. *)
Definition blob_scope (i : BlobIndex) : result base_error ScopeId :=
  match ix_properties i !! SCOPE_ID_PROP with
  | None => Err BaseMissingScope
  | Some s => match parse_u32 s with Some n => Ok n | None => Err BaseBadScope end
  end.

Definition open_pairs (data : bytes) (i : BlobIndex) : result base_error PairTable :=
  map_err BaseTable (pair_parse data (ix_offset i) (ix_length i)).

Definition open_blocked (data : bytes) (i : BlobIndex) : result base_error BlockedTable :=
  map_err BaseBlocked (parse data (ix_offset i) (ix_offset i + ix_length i)).

Definition open_filter (data : bytes) (i : BlobIndex) : result base_error BlockedFilter :=
  match slice_at data (ix_offset i) (ix_length i) with
  | None => Err BasePanic
  | Some d => map_err BaseFilter (decode d)
  end.

(** One blob of the loop in [build]. *)
Definition build_blob (data : bytes) (b : PuffinBase) (i : BlobIndex) : result base_error PuffinBase :=
  let seq := N.max (pb_sequence b) (Z.to_N (Z.max (ix_sequence_number i) 0)) in
  let '(mkPuffin sh ov sm om rg fb shf ovf smf omf _) := b in
  let ty := ix_type i in
  if bool_decide (ty = GLOBAL_BLOB_TYPE) then
    t ← open_pairs data i; Ok (mkPuffin (Some t) ov sm om rg fb shf ovf smf omf seq)
  else if bool_decide (ty = SCOPE_BLOB_TYPE) then
    s ← blob_scope i; t ← open_pairs data i;
    Ok (mkPuffin sh (<[s := t]> ov) sm om rg fb shf ovf smf omf seq)
  else if bool_decide (ty = FLAT_BLOB_TYPE) then
    t ← map_err BaseTable (flat_parse data (ix_offset i) (ix_length i));
    Ok (mkPuffin sh ov sm om (Some (RegTableFlat t)) fb shf ovf smf omf seq)
  else if bool_decide (ty = BLOCKED_BLOB_TYPE) then
    t ← open_blocked data i;
    Ok (mkPuffin sh ov sm om (Some (RegTableBlocked t)) fb shf ovf smf omf seq)
  else if bool_decide (ty = SHARED_FLAT_BLOB_TYPE) then
    t ← open_pairs data i; Ok (mkPuffin sh ov (Some (MemTableFlat t)) om rg fb shf ovf smf omf seq)
  else if bool_decide (ty = SHARED_BLOCKED_BLOB_TYPE) then
    t ← open_blocked data i; Ok (mkPuffin sh ov (Some (MemTableBlocked t)) om rg fb shf ovf smf omf seq)
  else if bool_decide (ty = OVERLAY_FLAT_BLOB_TYPE) then
    s ← blob_scope i; t ← open_pairs data i;
    Ok (mkPuffin sh ov sm (<[s := MemTableFlat t]> om) rg fb shf ovf smf omf seq)
  else if bool_decide (ty = OVERLAY_BLOCKED_BLOB_TYPE) then
    s ← blob_scope i; t ← open_blocked data i;
    Ok (mkPuffin sh ov sm (<[s := MemTableBlocked t]> om) rg fb shf ovf smf omf seq)
  else if bool_decide (ty = SHARED_FILTER_BLOB_TYPE) then
    f ← open_filter data i; Ok (mkPuffin sh ov sm om rg fb (Some f) ovf smf omf seq)
  else if bool_decide (ty = OVERLAY_FILTER_BLOB_TYPE) then
    f ← open_filter data i; Ok (mkPuffin sh ov sm om rg fb shf (Some f) smf omf seq)
  else if bool_decide (ty = SHARED_MEMBERS_FILTER_BLOB_TYPE) then
    f ← open_filter data i; Ok (mkPuffin sh ov sm om rg fb shf ovf (Some f) omf seq)
  else if bool_decide (ty = OVERLAY_MEMBERS_FILTER_BLOB_TYPE) then
    f ← open_filter data i; Ok (mkPuffin sh ov sm om rg fb shf ovf smf (Some f) seq)
  else Ok (mkPuffin sh ov sm om rg fb shf ovf smf omf seq).

Fixpoint build_blobs (data : bytes) (b : PuffinBase) (idx : list BlobIndex) : result base_error PuffinBase :=
  match idx with
  | [] => Ok b
  | i :: idx => b ← build_blob data b i; build_blobs data b idx
  end.

(** ** Lookups *)

(** A filter that says "definitely absent". [None] is the panic of a probe. *)
Definition filter_rejects (f : option BlockedFilter) (key : N) : option bool :=
  match f with None => Some false | Some f => negb <$> may_contain f key end.

Definition pb_shared_parent (data : bytes) (b : PuffinBase) (node : NodeId) : option (option NodeId) :=
  r ← filter_rejects (pb_shared_filter b) node;
  if r : bool then Some None
  else match pb_shared b with None => Some None | Some t => pair_lookup t data node end.

Definition pb_overlay_parent (data : bytes) (b : PuffinBase) (scope : ScopeId) (node : NodeId)
    : option (option NodeId) :=
  r ← filter_rejects (pb_overlay_filter b) (overlay_key scope node);
  if r : bool then Some None
  else match pb_overlays b !! scope with None => Some None | Some t => pair_lookup t data node end.

Definition registry_scopes_for (data : bytes) (r : RegistryTable) (root : NodeId) : option (list ScopeId) :=
  match r with
  | RegTableFlat t => flat_scopes_for t data root
  | RegTableBlocked t => scopes_for t data root
  end.

Definition pb_scopes_for_root (data : bytes) (b : PuffinBase) (root : NodeId) : option (list ScopeId) :=
  match pb_registry b with
  | Some reg => registry_scopes_for data reg root
  | None => Some (default [] (m ← pb_fallback b; m !! root))
  end.

(** [registry_iter], run to its end: a run that had to rebuild its registry in memory
    iterates over nothing. *)
Definition pb_registry_iter (data : bytes) (b : PuffinBase) : option (list (NodeId * ScopeId)) :=
  match pb_registry b with
  | Some (RegTableFlat t) => flat_iter t data
  | Some (RegTableBlocked t) => blocked_iter t data
  | None => Some []
  end.

Definition pb_scopes (b : PuffinBase) : list ScopeId := sorted_keys (pb_overlays b).

(** ** Sweeps *)

Inductive ScanReader := Buffered | Mapped.

Definition SCAN_CHUNK : nat := N.to_nat (2 ^ 20).

(** [scan_fd]: [read_exact] fills a chunk, [chunks_exact] cuts it into pairs;
    [None] is the panic of a read past the end of the file. *)
Fixpoint scan_fd (fuel : nat) (file : bytes) (chunk : nat) (at_ left : nat) : option (list (NodeId * NodeId)) :=
  match left with
  | O => Some []
  | S _ =>
      match fuel with
      | O => None
      | S fuel =>
          let want := Nat.min left chunk in
          buf ← slice_at file at_ want;
          rest ← scan_fd fuel file chunk (at_ + want) (left - want);
          Some ((get_pair <$> chunks PAIR_STRIDE (want / PAIR_STRIDE) buf) ++ rest)
      end
  end.

(** [scan]: through a reopened file, or through the mapping when that is asked for
    or when reopening fails. *)
Definition scan (reader : ScanReader) (reopened : bool) (data : bytes) (t : PairTable)
    : option (list (NodeId * NodeId)) :=
  let len := (pt_count t * PAIR_STRIDE)%nat in
  if (len =? 0)%nat then Some []
  else
    match reader, reopened with
    | Buffered, true => scan_fd len data SCAN_CHUNK (pt_start t) len
    | _, _ => pair_for_each t data
    end.

(** [for_each_shared_pair] and [for_each_overlay_pair]. *)
Definition pb_shared_pairs (reader : ScanReader) (reopened : bool) (data : bytes) (b : PuffinBase)
    : option (list (NodeId * NodeId)) :=
  match pb_shared b with None => Some [] | Some t => scan reader reopened data t end.

Definition pb_overlay_pairs (reader : ScanReader) (reopened : bool) (data : bytes) (b : PuffinBase)
    (scope : ScopeId) : option (list (NodeId * NodeId)) :=
  match pb_overlays b !! scope with None => Some [] | Some t => scan reader reopened data t end.

Definition pb_has_member_index (b : PuffinBase) : bool := bool_decide (is_Some (pb_shared_members b)).

Definition member_children_of (data : bytes) (m : MemberTable) (parent : NodeId) (limit : nat)
    : option (list NodeId) :=
  match m with
  | MemTableFlat t => values_for t data parent limit
  | MemTableBlocked t => members_children_of t data parent limit
  end.

Definition pb_shared_children (data : bytes) (b : PuffinBase) (parent : NodeId) (limit : nat)
    : option (list NodeId) :=
  r ← filter_rejects (pb_shared_members_filter b) parent;
  if r : bool then Some []
  else match pb_shared_members b with None => Some [] | Some t => member_children_of data t parent limit end.

Definition pb_overlay_children (data : bytes) (b : PuffinBase) (scope : ScopeId) (parent : NodeId)
    (limit : nat) : option (list NodeId) :=
  r ← filter_rejects (pb_overlay_members_filter b) (overlay_key scope parent);
  if r : bool then Some []
  else match pb_overlay_members b !! scope with
       | None => Some [] | Some t => member_children_of data t parent limit end.

(** Positional access and the registry's entries, for merging layers. *)
Definition pb_shared_len (b : PuffinBase) : nat := from_option pt_count 0%nat (pb_shared b).

Definition pb_overlay_len (b : PuffinBase) (s : ScopeId) : nat :=
  from_option pt_count 0%nat (pb_overlays b !! s).

Definition pb_shared_pair_at (data : bytes) (b : PuffinBase) (i : nat) : option (NodeId * NodeId) :=
  t ← pb_shared b; pair_at t data i.

Definition pb_overlay_pair_at (data : bytes) (b : PuffinBase) (s : ScopeId) (i : nat)
    : option (NodeId * NodeId) :=
  t ← pb_overlays b !! s; pair_at t data i.

(** ** The rebuilt registry *)

(** [build_fallback_registry]: one overlay member. *)
Definition fallback_add (data : bytes) (b : PuffinBase) (scope : ScopeId)
    (out : option (gmap NodeId (list ScopeId))) (member : NodeId) : option (gmap NodeId (list ScopeId)) :=
  m ← out;
  p ← pb_shared_parent data b member;
  let live := default member p in
  let entry := default [] (m !! live) in
  Some (<[live := if bool_decide (scope ∈ entry) then entry else entry ++ [scope]]> m).

Definition build_fallback_registry (data : bytes) (b : PuffinBase) : option (gmap NodeId (list ScopeId)) :=
  foldl (fun out scope =>
    match (t ← pb_overlays b !! scope; pair_for_each t data) with
    | None => None
    | Some pairs => foldl (fallback_add data b scope) out (p ← pairs; [p.1; p.2])
    end) (Some ∅) (pb_scopes b).

(** ** Sampling the sparse indexes in one pass over the file *)

(** The tables, in id order: the shared one, then the overlays by scope. *)
Definition base_tables (b : PuffinBase) : list PairTable :=
  option_list (pb_shared b) ++ omap (fun s => pb_overlays b !! s) (pb_scopes b).

Definition sample_count (t : PairTable) : nat :=
  let block := (PAGE_BYTES / PAIR_STRIDE)%nat in
  if (pt_count t <=? block)%nat then 0%nat else ((pt_count t + block - 1) / block)%nat.

(** The samples of a table: offset of each block's first key, and the table's id. *)
Definition wanted_of (id : nat) (t : PairTable) : list (N * N) :=
  (fun i => (N.of_nat (pt_start t + i * PAGE_BYTES), N.of_nat id)) <$> seq 0 (sample_count t).

Definition wanted_samples (ts : list PairTable) : list (N * N) :=
  sort_pairs (mjoin (imap wanted_of ts)).

(** The inner loop: read every sample that lies in the window [base_off, base_off +
    length buf); a sample before the window would be an index below zero. *)
Fixpoint read_window (buf : bytes) (base_off : nat) (wanted : list (N * N))
    : option (list (N * N) * list (N * N)) :=
  match wanted with
  | [] => Some ([], [])
  | (off, id) :: rest =>
      if (base_off + length buf <? N.to_nat off + 8)%nat then Some ([], wanted)
      else if (N.to_nat off <? base_off)%nat then None
      else
        k ← read_le 8 buf (N.to_nat off - base_off);
        '(ks, rem) ← read_window buf base_off rest;
        Some ((id, k) :: ks, rem)
  end.

(** The outer loop: slide the window forward, keeping eight bytes of overlap. *)
Fixpoint window_loop (fuel : nat) (file : bytes) (chunk span_end : nat) (buf : bytes)
    (base_off : nat) (wanted : list (N * N)) : result base_error (list (N * N)) :=
  match fuel with
  | O => Err BasePanic
  | S fuel =>
      match wanted with
      | [] => Ok []
      | _ =>
          let keep := Nat.min (length buf) 8 in
          let base_off := (base_off + (length buf - keep))%nat in
          let tail := drop (length buf - keep) buf in
          let want := Nat.min (span_end - (base_off + keep)) (chunk - keep) in
          if (want =? 0)%nat then Ok []
          else
            match slice_at file (base_off + keep) want with
            | None => Err BaseShortRead
            | Some more =>
                let buf := tail ++ more in
                match read_window buf base_off wanted with
                | None => Err BasePanic
                | Some (ks, rem) =>
                    rest ← window_loop fuel file chunk span_end buf base_off rem;
                    Ok (ks ++ rest)
                end
            end
      end
  end.

Definition sample_all (file : bytes) (chunk : nat) (wanted : list (N * N)) : result base_error (list (N * N)) :=
  match wanted with
  | [] => Ok []
  | (first, _) :: _ =>
      let span_start := N.to_nat first in
      let span_end := from_option (fun w => N.to_nat w.1 + 8)%nat 0%nat (last wanted) in
      window_loop (S (span_end - span_start)) file chunk span_end [] span_start wanted
  end.

(** Give a table the index of its samples, if all of them were read. *)
Definition set_index (keys : list (N * N)) (id : nat) (t : PairTable) : PairTable :=
  let ks := snd <$> filter (fun p => p.1 = N.of_nat id) keys in
  if (length ks =? sample_count t)%nat && (0 <? sample_count t)%nat then
    mkPairTable (pt_start t) (pt_count t) (Some (mkSparse (PAGE_BYTES / PAIR_STRIDE) ks))
  else t.

(** [build_indexes]. *)
Definition build_indexes (file : bytes) (b : PuffinBase) : result base_error PuffinBase :=
  let ts := base_tables b in
  keys ← sample_all file (Nat.max SCAN_CHUNK 16) (wanted_samples ts);
  let '(mkPuffin sh ov sm om rg fb shf ovf smf omf sq) := b in
  let n := length (option_list sh) in
  let ids : gmap ScopeId nat := list_to_map (zip (pb_scopes b) (seq n (length (pb_scopes b)))) in
  Ok (mkPuffin (set_index keys 0 <$> sh)
        (map_imap (fun s t => Some (set_index keys (default 0%nat (ids !! s)) t)) ov)
        sm om rg fb shf ovf smf omf sq).

(** [PuffinBase::build], on the index the container's footer gives. *)
Definition puffin_build (data : bytes) (idx : list BlobIndex) : result base_error PuffinBase :=
  b ← build_blobs data base_empty idx;
  let '(mkPuffin sh ov sm om rg _ shf ovf smf omf seq) := b in
  match rg with
  | None =>
      if bool_decide (ov = ∅) then build_indexes data b
      else
        match build_fallback_registry data b with
        | None => Err BasePanic
        | Some m => build_indexes data (mkPuffin sh ov sm om rg (Some m) shf ovf smf omf seq)
        end
  | Some _ => build_indexes data b
  end.

(** [PuffinBase::open]. *)
Definition puffin_open (from_json : bytes → option FileMetadata) (data : bytes) : result base_error PuffinBase :=
  idx ← map_err BaseContainer (read_index from_json data); puffin_build data idx.

(** ** As a routing base *)

(** [impl RoutingBase for PuffinBase]; a panic has no answer and is read as "not
    there" ([pb_total] is what says that no panic happens). *)
Definition pb_routing (reader : ScanReader) (reopened : bool) (data : bytes) (b : PuffinBase) : RoutingBase :=
  mkBase
    (fun x => default None (pb_shared_parent data b x))
    (fun s x => default None (pb_overlay_parent data b s x))
    (fun r => default [] (pb_scopes_for_root data b r))
    (pb_scopes b)
    (default [] (pb_shared_pairs reader reopened data b))
    (fun s => default [] (pb_overlay_pairs reader reopened data b s))
    (pb_has_member_index b)
    (fun p limit => default [] (pb_shared_children data b p limit))
    (fun s p limit => default [] (pb_overlay_children data b s p limit)).

Record pb_total (reader : ScanReader) (reopened : bool) (data : bytes) (b : PuffinBase) : Prop := {
  pt_shared_parent x : is_Some (pb_shared_parent data b x);
  pt_overlay_parent s x : is_Some (pb_overlay_parent data b s x);
  pt_scopes r : is_Some (pb_scopes_for_root data b r);
  pt_shared_pairs : is_Some (pb_shared_pairs reader reopened data b);
  pt_overlay_pairs s : is_Some (pb_overlay_pairs reader reopened data b s);
  pt_shared_children p limit : is_Some (pb_shared_children data b p limit);
  pt_overlay_children s p limit : is_Some (pb_overlay_children data b s p limit);
}.
