(* ===== verification/Layered.v ===== *)
(** A stack of runs presented as one routing base: [src/storage/layered.rs].

    A layer is what the stack uses of a [PuffinBase]: its routing operations,
    positional access to its tables, the entries of its registry in order and its
    sizes. *)

From S2P Require Import Prelude Types Bytes Filter Registry MemberIndex Blocked.
From S2P Require Import Graph Dsu RoutingBase Forest Compaction Codec PairTable Puffin PuffinBase.

(** [BaseStats], less the size of the in-memory indexes. *)
Record BaseStats := mkBaseStats {
  bst_sequence : N;
  bst_shared_pairs : N;
  bst_overlay_pairs : N;
  bst_scopes : N;
  bst_mapped_bytes : N;
  bst_registry_indexed : bool;
}.

(** [PuffinBase::stats]. *)
Definition pb_stats (data : bytes) (b : PuffinBase) : BaseStats :=
  mkBaseStats (pb_sequence b) (N.of_nat (pb_shared_len b))
    (N.of_nat (foldr (fun s n => pb_overlay_len b s + n)%nat 0%nat (pb_scopes b)))
    (N.of_nat (length (pb_scopes b))) (N.of_nat (length data)) (bool_decide (is_Some (pb_registry b))).

Record Layer := mkLayer {
  ly_base : RoutingBase;
  ly_shared_len : nat;
  ly_shared_pair_at : nat → NodeId * NodeId;
  ly_overlay_len : ScopeId → nat;
  ly_overlay_pair_at : ScopeId → nat → NodeId * NodeId;
  ly_registry : list (NodeId * ScopeId);
  ly_stats : BaseStats;
}.

(** A mapped run as a layer; positions past the end panic. *)
Definition pb_layer (reader : ScanReader) (reopened : bool) (data : bytes) (b : PuffinBase) : Layer :=
  mkLayer (pb_routing reader reopened data b)
    (pb_shared_len b) (fun i => default (0, 0) (pb_shared_pair_at data b i))
    (pb_overlay_len b) (fun s i => default (0, 0) (pb_overlay_pair_at data b s i))
    (default [] (pb_registry_iter data b)) (pb_stats data b).

(** Base layer plus deltas, oldest first. *)
Record LayeredBase := mkLayered { layers : list Layer }.

Inductive layered_error := NeedsBase | RangePastEnd | BadSplice | LayeredPanic.

(** ** Stacks *)

Definition layered_new (base : Layer) : LayeredBase := mkLayered [base].

Definition from_layers (ls : list Layer) : result layered_error LayeredBase :=
  match ls with [] => Err NeedsBase | _ => Ok (mkLayered ls) end.

Definition layered_pushed (lb : LayeredBase) (delta : Layer) : LayeredBase := mkLayered (layers lb ++ [delta]).

Definition delta_count (lb : LayeredBase) : nat := length (layers lb) - 1.

(** [slice]: a range that starts after its end is a slice panic. *)
Definition slice (lb : LayeredBase) (start end_ : nat) : result layered_error LayeredBase :=
  if negb (end_ <=? length (layers lb))%nat then Err RangePastEnd
  else if (end_ <? start)%nat then Err LayeredPanic
  else from_layers (take (end_ - start) (drop start (layers lb))).

Definition spliced (lb : LayeredBase) (start end_ : nat) (merged : Layer)
    : result layered_error LayeredBase :=
  if negb ((start <? end_)%nat && (end_ <=? length (layers lb))%nat) then Err BadSplice
  else from_layers (take start (layers lb) ++ [merged] ++ drop end_ (layers lb)).

(** ** Resolution *)

(** The loops of [resolve]: scan the layers from [from] on, and after a hit go on
    behind the layer that had it. *)
Fixpoint resolve_from (probe : Layer → NodeId → option NodeId) (ls : list Layer) (cur : NodeId) : NodeId :=
  match ls with
  | [] => cur
  | l :: ls =>
      match probe l cur with
      | Some parent => if parent =? cur then cur else resolve_from probe ls parent
      | None => resolve_from probe ls cur
      end
  end.

Definition resolve (probe : Layer → NodeId → option NodeId) (ls : list Layer) (node : NodeId) : option NodeId :=
  let cur := resolve_from probe ls node in
  if cur =? node then None else Some cur.

Definition layered_shared_parent (lb : LayeredBase) : NodeId → option NodeId :=
  resolve (fun l => shared_parent (ly_base l)) (layers lb).

Definition layered_overlay_parent (lb : LayeredBase) (scope : ScopeId) : NodeId → option NodeId :=
  resolve (fun l => overlay_parent (ly_base l) scope) (layers lb).

(** ** Unions over the layers *)

(** The loop of [shared_children] and [overlay_children]; [limit] is the room left. *)
Fixpoint children_loop (get : Layer → nat → list NodeId) (ls : list Layer) (limit : nat) : list NodeId :=
  match ls with
  | [] => []
  | l :: ls =>
      match limit with
      | O => []
      | S _ => let out := get l limit in out ++ children_loop get ls (limit - length out)
      end
  end.

Definition push_new (out : list ScopeId) (scope : ScopeId) : list ScopeId :=
  if bool_decide (scope ∈ out) then out else out ++ [scope].

Definition layered_scopes_for_root (lb : LayeredBase) (root : NodeId) : list ScopeId :=
  foldl (fun out l => foldl push_new out (scopes_for_root (ly_base l) root)) [] (layers lb).

Definition layered_scopes (lb : LayeredBase) : list ScopeId :=
  dedup (sort_N (mjoin ((fun l => base_scopes (ly_base l)) <$> layers lb))).

(** ** The k-way merge *)

Section merge.
Context (len : Layer → nat) (pair_at : Layer → nat → NodeId * NodeId).

(** The scan for the least key under the cursors, [i] the next layer's position. *)
Fixpoint pick_loop (i : nat) (ls : list Layer) (cursors : list nat) (pick : option (nat * NodeId * NodeId))
    : option (nat * NodeId * NodeId) :=
  match ls, cursors with
  | l :: ls, c :: cursors =>
      pick_loop (S i) ls cursors
        (if (len l <=? c)%nat then pick
         else
           let '(k, v) := pair_at l c in
           match pick with
           | Some (_, best, _) => if k <? best then Some (i, k, v) else pick
           | None => Some (i, k, v)
           end)
  | _, _ => pick
  end.

(** The pairs [merge] hands to its callback. *)
Fixpoint merge_loop (fuel : nat) (ls : list Layer) (resolve : NodeId → option NodeId) (cursors : list nat)
    : option (list (NodeId * NodeId)) :=
  match fuel with
  | O => None
  | S fuel =>
      match pick_loop 0 ls cursors None with
      | None => Some []
      | Some (i, k, v) =>
          rest ← merge_loop fuel ls resolve (alter S i cursors);
          let root := default v (resolve v) in
          Some (if root =? k then rest else (k, root) :: rest)
      end
  end.

Definition layered_merge (ls : list Layer) (resolve : NodeId → option NodeId) : option (list (NodeId * NodeId)) :=
  merge_loop (S (sum_list (len <$> ls))) ls resolve (replicate (length ls) 0%nat).
End merge.

Definition layered_shared_pairs (lb : LayeredBase) : option (list (NodeId * NodeId)) :=
  layered_merge ly_shared_len ly_shared_pair_at (layers lb) (layered_shared_parent lb).

Definition layered_overlay_pairs (lb : LayeredBase) (scope : ScopeId) : option (list (NodeId * NodeId)) :=
  layered_merge (fun l => ly_overlay_len l scope) (fun l => ly_overlay_pair_at l scope) (layers lb)
    (layered_overlay_parent lb scope).

(** [impl RoutingBase for LayeredBase]. *)
Definition layered_routing (lb : LayeredBase) : RoutingBase :=
  mkBase (layered_shared_parent lb) (layered_overlay_parent lb) (layered_scopes_for_root lb)
    (layered_scopes lb) (default [] (layered_shared_pairs lb)) (fun s => default [] (layered_overlay_pairs lb s))
    (forallb (fun l => has_member_index (ly_base l)) (layers lb))
    (fun p => children_loop (fun l => shared_children (ly_base l) p) (layers lb))
    (fun s p => children_loop (fun l => overlay_children (ly_base l) s p) (layers lb)).

(** [LayeredBase::stats]. *)
Definition layered_stats (lb : LayeredBase) : BaseStats :=
  let out := foldl (fun out l =>
    let s := ly_stats l in
    mkBaseStats (N.max (bst_sequence out) (bst_sequence s)) (bst_shared_pairs out + bst_shared_pairs s)
      (bst_overlay_pairs out + bst_overlay_pairs s) (bst_scopes out) (bst_mapped_bytes out + bst_mapped_bytes s)
      (bst_registry_indexed out || bst_registry_indexed s)) (mkBaseStats 0 0 0 0 0 false) (layers lb) in
  mkBaseStats (bst_sequence out) (bst_shared_pairs out) (bst_overlay_pairs out) (N.of_nat (length (layered_scopes lb)))
    (bst_mapped_bytes out) (bst_registry_indexed out).

(** ** The closures of a fold *)

(** What [src/storage/flush.rs] does with a finished writer: write the file, map it,
    and stack it, alone after a full fold or on top of the layers there are. *)
Section folds.
Context (to_json : FileMetadata → bytes) (from_json : bytes → option FileMetadata).
Context (reader : ScanReader) (reopened : bool) (props : gmap string string).

Definition map_run (w : BlobWriter) : result base_error (bytes * Layer) :=
  data ← map_err BaseContainer (puffin_write to_json (bw_finish w) props);
  b ← puffin_open from_json data;
  Ok (data, pb_layer reader reopened data b).

Definition fold_build (w : BlobWriter) : result base_error (RoutingBase * (bytes * LayeredBase)) :=
  '(data, l) ← map_run w;
  let lb := layered_new l in Ok (layered_routing lb, (data, lb)).

Definition delta_build (lb : LayeredBase) (w : BlobWriter) (_ : option RoutingBase)
    : result base_error (RoutingBase * (bytes * LayeredBase)) :=
  '(data, l) ← map_run w;
  let lb := layered_pushed lb l in Ok (layered_routing lb, (data, lb)).
End folds.
