(* ===== verification/Compact.v ===== *)
(** Merging a stack of runs into one: [src/storage/compact.rs].

    The inputs are layers; nothing of the forest is read. Counters are 64-bit, the
    loops carry fuel for the rows there are. *)

From S2P Require Import Prelude Types Bytes Filter Registry MemberIndex Blocked.
From S2P Require Import Graph Dsu RoutingBase Forest Compaction Codec PairTable Puffin PuffinBase Layered.

Record CompactionStats := mkStats {
  st_shared_pairs : N;
  st_overlay_pairs : N;
  st_scopes : N;
  st_registry_entries : N;
  st_registry_corrections : N;
  st_moved_roots : N;
}.

(** ** Tables *)

Definition push_row (acc : bytes * N) (kv : NodeId * NodeId) : bytes * N :=
  (acc.1 ++ put_u64 kv.1 ++ put_u64 kv.2, acc.2 ⊞ 1).

(** [table]: the payload and its number of rows. *)
Definition table_payload (pairs : list (NodeId * NodeId)) : bytes * N :=
  let '(buf, count) := foldl push_row (open_table, 0) pairs in (close_table buf count, count).

Definition one_overlay (lb : LayeredBase) (scope : ScopeId) : option (ScopeId * bytes * N) :=
  match default [] (layered_overlay_pairs lb scope) with
  | [] => None
  | pairs => let '(data, count) := table_payload pairs in Some (scope, data, count)
  end.

(** [<[T]>::chunks]. *)
Fixpoint slice_chunks {A} (fuel per : nat) (l : list A) : list (list A) :=
  match fuel, l with
  | S fuel, _ :: _ => take per l :: slice_chunks fuel per (drop per l)
  | _, _ => []
  end.

Definition div_ceil (a b : nat) : nat := ((a + b - 1) / b)%nat.

(** [merge_overlays]: [parallelism] is what the machine reports, one if it does not
    say. The chunks run on threads of their own and are joined in order. *)
Definition merge_overlays (parallelism : nat) (lb : LayeredBase) : list (ScopeId * bytes * N) :=
  let scopes := layered_scopes lb in
  let threads := Nat.min parallelism (Nat.max (length scopes) 1) in
  if (threads <=? 1)%nat then omap (one_overlay lb) scopes
  else mjoin (omap (one_overlay lb) <$> slice_chunks (length scopes) (div_ceil (length scopes) threads) scopes).

(** ** The registry *)

Definition moved_roots (lb : LayeredBase) : gset NodeId :=
  list_to_set (l ← drop 1 (layers lb); (fun k => (ly_shared_pair_at l k).1) <$> seq 0 (ly_shared_len l)).

(** The tuple order [<] on entries. *)
Definition pair_lt (a b : N * N) : Prop := a.1 < b.1 ∨ (a.1 = b.1 ∧ a.2 < b.2).

#[export] Instance pair_lt_dec : RelDecision pair_lt.
Proof. intros a b. unfold pair_lt. apply _. Defined.

(** The scan over the peeked entries, [idx] the next run's position. *)
Fixpoint pick_run (idx : nat) (runs : list (list (NodeId * ScopeId))) (pick : option (nat * (NodeId * ScopeId)))
    : option (nat * (NodeId * ScopeId)) :=
  match runs with
  | [] => pick
  | run :: runs =>
      pick_run (S idx) runs
        (match run with
         | [] => pick
         | entry :: _ =>
             match pick with
             | Some (_, best) => if decide (pair_lt entry best) then Some (idx, entry) else pick
             | None => Some (idx, entry)
             end
         end)
  end.

(** The entries [for_each_registry_entry] visits, in order. *)
Fixpoint merge_runs (fuel : nat) (runs : list (list (NodeId * ScopeId))) : option (list (NodeId * ScopeId)) :=
  match fuel with
  | O => None
  | S fuel =>
      match pick_run 0 runs None with
      | None => Some []
      | Some (idx, entry) => rest ← merge_runs fuel (alter tail idx runs); Some (entry :: rest)
      end
  end.

Definition for_each_registry_entry (lb : LayeredBase) : option (list (NodeId * ScopeId)) :=
  let runs := ly_registry <$> layers lb in merge_runs (S (sum_list (length <$> runs))) runs.

Record MergedRegistry := mkMerged {
  mr_blob : option (string * bytes);
  mr_entries : N;
  mr_corrections : N;
  mr_moved_roots : N;
}.

(** The first pass: the live entries of the roots that moved, sorted. *)
Definition corrections_of (lb : LayeredBase) (moved : gset NodeId) (entries : list (NodeId * ScopeId))
    : list (NodeId * ScopeId) :=
  dedup (sort_pairs (omap (fun e =>
    if decide (e.1 ∈ moved) then Some (default e.1 (layered_shared_parent lb e.1), e.2) else None) entries)).

(** The [push] closure: the last entry written and the writer. *)
Definition push_entry_once (st : option (NodeId * ScopeId) * RegistryWriter) (e : NodeId * ScopeId)
    : option (NodeId * ScopeId) * RegistryWriter :=
  if decide (st.1 = Some e) then st else (Some e, reg_push st.2 e.1 e.2).

(** The corrections up to an entry, pushed; the rest is left. *)
Fixpoint push_upto (corrections : list (NodeId * ScopeId)) (e : NodeId * ScopeId)
    (st : option (NodeId * ScopeId) * RegistryWriter)
    : list (NodeId * ScopeId) * (option (NodeId * ScopeId) * RegistryWriter) :=
  match corrections with
  | c :: rest => if decide (pair_le c e) then push_upto rest e (push_entry_once st c) else (corrections, st)
  | [] => ([], st)
  end.

(** The second pass. *)
Fixpoint write_entries (moved : gset NodeId) (entries corrections : list (NodeId * ScopeId))
    (st : option (NodeId * ScopeId) * RegistryWriter) : option (NodeId * ScopeId) * RegistryWriter :=
  match entries with
  | [] => foldl push_entry_once st corrections
  | e :: entries =>
      if decide (e.1 ∈ moved) then write_entries moved entries corrections st
      else
        let '(corrections, st) := push_upto corrections e st in
        write_entries moved entries corrections (push_entry_once st e)
  end.

Definition compact_registry (lb : LayeredBase) (encoding : RegistryEncoding) : MergedRegistry :=
  let moved := moved_roots lb in
  let entries := default [] (for_each_registry_entry lb) in
  let corrections := corrections_of lb moved entries in
  let writer := (write_entries moved entries corrections (None, reg_new encoding)).2 in
  mkMerged (reg_finish writer) (reg_entries writer) (N.of_nat (length corrections)) (N.of_nat (size moved)).

(** ** The merged run *)

Definition compact_layers (parallelism : nat) (lb : LayeredBase) (sequence : N) (opts : WriteOptions)
    : list Blob * CompactionStats :=
  let seq := as_i64 sequence in
  let '(shared, shared_pairs) := table_payload (default [] (layered_shared_pairs lb)) in
  let overlays := merge_overlays parallelism lb in
  let overlay_pairs := foldl (fun n o => n ⊞ o.2) 0 overlays in
  let registry := compact_registry lb (opt_registry opts) in
  let shared_filter := build_filter (table_keys shared).*1 (N.to_nat shared_pairs) (filter_bits opts) in
  let overlay_filter :=
    build_filter (o ← overlays; overlay_key o.1.1 <$> (table_keys o.1.2).*1) (N.to_nat overlay_pairs)
      (filter_bits opts) in
  let blobs :=
    [plain_blob seq GLOBAL_BLOB_TYPE shared] ++
    ((fun o => scope_blob seq o.1.1 o.1.2) <$> overlays) ++
    option_blob seq (mr_blob registry) ++
    filter_blobs seq (opt_blob SHARED_FILTER_BLOB_TYPE shared_filter ++
                      opt_blob OVERLAY_FILTER_BLOB_TYPE overlay_filter) in
  let stats := mkStats shared_pairs overlay_pairs (N.of_nat (length overlays)) (mr_entries registry)
    (mr_corrections registry) (mr_moved_roots registry) in
  if opt_member_index opts then
    let a := foldl (finish_member_step seq opts) (mkAcc [] [] [])
      ((Shared, 0, shared) :: ((fun o => (Overlay, o.1.1, o.1.2)) <$> overlays)) in
    (blobs ++ acc_blobs a ++ filter_blobs seq (member_filters (acc_shared a) (acc_overlay a) (filter_bits opts)), stats)
  else (blobs, stats).
