(* ===== verification/PuffinSample.v ===== *)
(** Sampling the sparse indexes: the window that slides over the file reads the
    same keys as looking each of them up, whatever the chunk size, so opening a
    base gives every table a faithful index. *)

From S2P Require Import Prelude Types Bytes Filter Varint Blocked BlockedRead Registry MemberIndex Decimal.
From S2P Require Import Graph Dsu RoutingBase Forest Compaction Codec CodecInv PairTable PairTableInv Puffin PuffinBase.

(** ** Reading through a window *)

Lemma read_le_slice n file base buf i :
  slice_at file base (length buf) = Some buf → (i + n ≤ length buf)%nat →
  read_le n buf i = read_le n file (base + i).
Proof.
  intros (pre & post & -> & <- & _)%slice_at_some Hi. unfold read_le, slice_at.
  rewrite !decide_True by (rewrite ?length_app; lia). do 2 f_equal.
  rewrite drop_app_ge by lia. replace (length pre + i - length pre)%nat with i by lia.
  rewrite drop_app_le by lia. rewrite take_app_le; [done|]. rewrite length_drop. lia.
Qed.

(** Dropping the front of a window and reading on. *)
Lemma slice_slide file base buf k n more :
  slice_at file base (length buf) = Some buf → (k ≤ length buf)%nat →
  slice_at file (base + length buf) n = Some more →
  slice_at file (base + (length buf - k)) (length (drop (length buf - k) buf ++ more)) =
    Some (drop (length buf - k) buf ++ more).
Proof.
  intros (pre & post & -> & <- & _)%slice_at_some Hk (pre' & post' & E & Hp & _)%slice_at_some.
  apply slice_at_some. exists (pre ++ take (length buf - k) buf), post'.
  split_and!; [|rewrite length_app, length_take; lia|done].
  rewrite app_assoc in E. apply app_inj_1 in E as [<- E]; [|rewrite length_app; lia].
  rewrite E, <-!app_assoc. f_equal. rewrite (app_assoc (take _ _)). by rewrite take_drop.
Qed.

Section sampling.
Context (file : bytes).

Definition key_of (off : N) : N := default 0 (read_le 8 file (N.to_nat off)).

Definition sampled (w : N * N) : N * N := (w.2, key_of w.1).

Lemma read_window_spec buf base wanted :
  slice_at file base (length buf) = Some buf →
  StronglySorted N.le wanted.*1 → Forall (fun w => (base ≤ N.to_nat w.1)%nat) wanted →
  ∃ l1 l2, wanted = l1 ++ l2 ∧ read_window buf base wanted = Some (sampled <$> l1, l2) ∧
    Forall (fun w => (base + length buf < N.to_nat w.1 + 8)%nat) l2.
Proof using.
  intros Hs. induction wanted as [|[off id] wanted IH]; intros Hso Hb; [by exists [], []|].
  cbn [read_window]. apply Forall_cons in Hb as [Hb1 Hb]. cbn [fst] in Hb1.
  rewrite fmap_cons in Hso. apply StronglySorted_inv in Hso as [Hso Hle].
  destruct (Nat.ltb_spec (base + length buf) (N.to_nat off + 8)) as [Hlt|Hge].
  { exists [], ((off, id) :: wanted). split_and!; [done|done|]. constructor; [done|].
    rewrite Forall_fmap in Hle. eapply Forall_impl; [exact Hle|]. cbn. lia. }
  destruct (Nat.ltb_spec (N.to_nat off) base); [lia|]. destruct (IH Hso Hb) as (l1 & l2 & -> & -> & Hl).
  exists ((off, id) :: l1), l2. split_and!; [done| |done].
  rewrite (read_le_slice 8 file base) by (done || lia).
  replace (base + (N.to_nat off - base))%nat with (N.to_nat off) by lia.
  destruct (read_le_total 8 file (N.to_nat off)) as [k Hk].
  { apply slice_at_some in Hs as (pre & post & -> & <- & _). rewrite !length_app. lia. }
  rewrite fmap_cons. unfold sampled at 2, key_of. cbn [fst snd]. by rewrite Hk.
Qed.

Lemma window_loop_spec chunk span_end fuel : ∀ buf base wanted,
  (8 < chunk)%nat → (span_end ≤ length file)%nat →
  slice_at file base (length buf) = Some buf → (base + length buf ≤ span_end)%nat →
  StronglySorted N.le wanted.*1 → Forall (fun w => (base ≤ N.to_nat w.1)%nat) wanted →
  Forall (fun w => (base + length buf < N.to_nat w.1 + 8 ≤ span_end)%nat) wanted →
  (span_end - (base + length buf) < fuel)%nat →
  window_loop fuel file chunk span_end buf base wanted = Ok (sampled <$> wanted).
Proof using.
  induction fuel as [|fuel IH]; intros buf base wanted Hc He Hs Hbl Hso Hb Hw Hf; [lia|].
  cbn [window_loop]. destruct wanted as [|w0 wanted]; [done|].
  set (keep := (length buf `min` 8)%nat). set (base' := (base + (length buf - keep))%nat).
  assert (base' + keep = base + length buf)%nat as Hbk by (unfold base', keep; lia). rewrite Hbk.
  set (want := Nat.min _ _). pose proof Hw as [Hw0 _]%Forall_cons. destruct (Nat.eqb_spec want 0); [lia|].
  assert (∃ more, slice_at file (base + length buf) want = Some more) as [more Hm].
  { unfold slice_at. rewrite decide_True by lia. eauto. }
  rewrite Hm. pose proof (slice_at_length _ _ _ _ Hm) as Hlm.
  assert (keep ≤ length buf)%nat as Hkb by lia.
  pose proof (slice_slide _ _ _ keep _ _ Hs Hkb Hm) as Hs'. fold base' in Hs'.
  set (buf' := drop (length buf - keep) buf ++ more) in *.
  assert (length buf' = keep + want)%nat as Hl' by (unfold buf'; rewrite length_app, length_drop; lia).
  assert (Forall (fun w => (base' ≤ N.to_nat w.1)%nat) (w0 :: wanted)) as Hb'.
  { apply Forall_forall. intros w Hin. rewrite Forall_forall in Hb, Hw.
    specialize (Hb w Hin). specialize (Hw w Hin). unfold base', keep. lia. }
  destruct (read_window_spec buf' base' _ Hs' Hso Hb') as (l1 & l2 & E & -> & Hl2).
  rewrite E in *. rewrite IH; [by rewrite fmap_app|done|done|done|lia| | | |lia].
  - rewrite fmap_app in Hso. by apply StronglySorted_app_1_r in Hso.
  - by apply Forall_app in Hb' as [_ ?].
  - apply Forall_app in Hw as [_ Hw]. apply Forall_forall. intros w Hin.
    rewrite Forall_forall in Hl2, Hw. specialize (Hl2 w Hin). specialize (Hw w Hin). lia.
Qed.

Lemma sample_all_spec chunk wanted :
  (8 < chunk)%nat → StronglySorted N.le wanted.*1 →
  Forall (fun w => (N.to_nat w.1 + 8 ≤ length file)%nat) wanted →
  sample_all file chunk wanted = Ok (sampled <$> wanted).
Proof using.
  intros Hc Hso Hw. unfold sample_all. destruct wanted as [|[first id] wanted]; [done|].
  set (l := (first, id) :: wanted) in *. destruct (last l) as [[z zi]|] eqn:El; [|by apply last_None in El].
  cbn [from_option fst]. pose proof Hso as Hfirst. unfold l in Hfirst.
  rewrite fmap_cons in Hfirst. apply StronglySorted_inv in Hfirst as [_ Hfirst]. rewrite Forall_fmap in Hfirst.
  assert (Forall (fun w => (N.to_nat first ≤ N.to_nat w.1)%nat) l) as Hge.
  { constructor; [cbn; lia|]. eapply Forall_impl; [exact Hfirst|]. cbn. lia. }
  assert (∀ w, w ∈ l → (w.1 <= z)%N) as Hlast.
  { apply last_Some in El as [l' El]. intros w Hin. rewrite El in Hso, Hin.
    apply elem_of_app in Hin as [Hin|Hin%list_elem_of_singleton]; [|subst; cbn; lia].
    by apply (sorted_le_fst l' [(z, zi)] w (z, zi)); [|done|left]. }
  assert ((z, zi) ∈ l) as Hz by (apply last_Some in El as [l' ->]; set_solver).
  assert (N.to_nat z + 8 ≤ length file)%nat as Hzl by (rewrite Forall_forall in Hw; by apply (Hw _ Hz)).
  assert (N.to_nat first ≤ N.to_nat z)%nat as Hfz by (rewrite Forall_forall in Hge; by apply (Hge _ Hz)).
  apply window_loop_spec; cbn [length]; try done; try lia.
  - unfold slice_at. rewrite decide_True by lia. done.
  - apply Forall_forall. intros w Hin. rewrite Forall_forall in Hge. specialize (Hge w Hin).
    specialize (Hlast w Hin). cbn in *. lia.
Qed.
End sampling.

(** ** One table's samples out of the sorted whole *)

Lemma filter_wanted_of id id' t :
  filter (fun w => w.2 = N.of_nat id) (wanted_of id' t) = if decide (id = id') then wanted_of id' t else [].
Proof.
  unfold wanted_of. generalize (seq 0 (sample_count t)). intros l. induction l as [|i l IH]; [by case_decide|].
  rewrite fmap_cons, filter_cons, IH. cbn [snd]. repeat case_decide; try done; lia.
Qed.

Lemma filter_wanted ts : ∀ k id,
  filter (fun w => w.2 = N.of_nat id) (mjoin (imap (fun i => wanted_of (k + i)) ts)) =
  if decide (k ≤ id)%nat then from_option (wanted_of id) [] (ts !! (id - k)%nat) else [].
Proof.
  induction ts as [|t ts IH]; intros k id; [by case_decide|].
  rewrite imap_cons, mjoin_cons, filter_app, filter_wanted_of, Nat.add_0_r.
  rewrite (imap_ext _ (fun i => wanted_of (S k + i))) 
    by (intros i x _; unfold compose; by replace (k + S i)%nat with (S k + i)%nat by lia).
  rewrite IH.
  destruct (decide (id = k)) as [->|Hne].
  - rewrite (decide_False (P := (S k ≤ k)%nat)), (decide_True (P := (k ≤ k)%nat)) by lia.
    by rewrite app_nil_r, Nat.sub_diag.
  - cbn [app]. destruct (decide (S k ≤ id)%nat).
    + rewrite decide_True by lia. by replace (id - k)%nat with (S (id - S k)) by lia.
    + by rewrite decide_False by lia.
Qed.

Lemma wanted_of_sorted id t : StronglySorted pair_le (wanted_of id t).
Proof.
  unfold wanted_of. generalize 0%nat. generalize (sample_count t). intros n.
  induction n as [|n IH]; intros m; [constructor|]. cbn [seq]. rewrite fmap_cons. constructor; [apply IH|].
  apply Forall_fmap, Forall_forall. intros i Hi%elem_of_seq. unfold compose, pair_le. cbn [fst snd].
  assert (m * PAGE_BYTES <= i * PAGE_BYTES)%nat by (apply Nat.mul_le_mono_r; lia). lia.
Qed.

Lemma wanted_samples_of ts id t :
  ts !! id = Some t → filter (fun w => w.2 = N.of_nat id) (wanted_samples ts) = wanted_of id t.
Proof.
  intros Hid. apply (StronglySorted_unique pair_le).
  - apply StronglySorted_filter, StronglySorted_merge_sort; apply _.
  - apply wanted_of_sorted.
  - unfold wanted_samples, sort_pairs. rewrite merge_sort_Permutation.
    pose proof (filter_wanted ts 0 id) as H. rewrite Nat.sub_0_r, Hid in H. cbn [from_option Nat.add] in H.
    change (mjoin (imap wanted_of ts)) with (mjoin (imap (fun i => wanted_of i) ts)). by rewrite H.
Qed.

Lemma pair_le_fst_sorted l : StronglySorted pair_le l → StronglySorted N.le l.*1.
Proof.
  induction 1 as [|w l H IH Hw]; [constructor|]. rewrite fmap_cons. constructor; [done|].
  apply Forall_fmap. eapply Forall_impl; [exact Hw|]. unfold pair_le. cbn. lia.
Qed.

Lemma sort_pairs_fst_sorted l : StronglySorted N.le (sort_pairs l).*1.
Proof. apply pair_le_fst_sorted, StronglySorted_merge_sort; apply _. Qed.

Lemma wanted_samples_sorted ts : StronglySorted N.le (wanted_samples ts).*1.
Proof. apply sort_pairs_fst_sorted. Qed.

(** ** Faithful indexes *)

(** The table [t] of the mapping stores [pairs], and its index, if any, is theirs. *)
Record stores (data : bytes) (t : PairTable) (pairs : list (NodeId * NodeId)) : Prop := {
  ho_at : ∃ pre post, data = pre ++ table pairs ++ post ∧ pt_start t = (length pre + 8)%nat;
  ho_count : pt_count t = length pairs;
  ho_fit : pairs_fit pairs;
  ho_index x : pt_index t = Some x → sparse_ok pairs.*1 x;
}.

Lemma stores_key_at data t pairs i :
  stores data t pairs → (i < length pairs)%nat → read_le 8 data (pt_start t + i * 16) = pairs.*1 !! i.
Proof.
  intros [(pre & post & -> & Hs) Hc Hf _] Hi. rewrite Hs.
  by apply (pair_key_at_spec pairs pre post None).
Qed.

Lemma sample_count_spec t j :
  (pt_count t > 256)%nat → (j < sample_count t ↔ j * 256 < pt_count t)%nat.
Proof.
  intros H. unfold sample_count. change (PAGE_BYTES / PAIR_STRIDE)%nat with 256%nat.
  destruct (Nat.leb_spec (pt_count t) 256); [lia|]. apply ceil_bound. lia.
Qed.

Lemma sample_count_pos t : (0 < sample_count t)%nat → (pt_count t > 256)%nat.
Proof.
  unfold sample_count. change (PAGE_BYTES / PAIR_STRIDE)%nat with 256%nat.
  destruct (Nat.leb_spec (pt_count t) 256); lia.
Qed.

Lemma wanted_of_inside data t pairs id w :
  stores data t pairs → w ∈ wanted_of id t → (N.to_nat w.1 + 8 ≤ length data)%nat.
Proof.
  intros H (i & -> & Hi%elem_of_seq)%list_elem_of_fmap. cbn [fst].
  assert (pt_count t > 256)%nat as Hc by (apply sample_count_pos; lia).
  assert (i * 256 < pt_count t)%nat as Hi' by (apply sample_count_spec; lia).
  destruct H as [(pre & post & -> & Hs) Hn _ _]. rewrite Hs, !length_app, table_length. unfold PAGE_BYTES. lia.
Qed.

Lemma filter_sampled data id (l : list (N * N)) :
  snd <$> filter (fun p => p.1 = N.of_nat id) (sampled data <$> l) =
  (fun w => key_of data w.1) <$> filter (fun w => w.2 = N.of_nat id) l.
Proof.
  induction l as [|w l IH]; [done|]. rewrite fmap_cons, !filter_cons. cbn [sampled fst].
  case_decide; [|done]. by rewrite !fmap_cons, IH.
Qed.

Lemma set_index_stores data ts id t pairs :
  stores data t pairs → ts !! id = Some t →
  stores data (set_index (sampled data <$> wanted_samples ts) id t) pairs.
Proof.
  intros H Hid. unfold set_index.
  assert (snd <$> filter (fun p => p.1 = N.of_nat id) (sampled data <$> wanted_samples ts) =
          (fun i => key_of data (N.of_nat (pt_start t + i * PAGE_BYTES))) <$> seq 0 (sample_count t)) as ->.
  { rewrite filter_sampled, (wanted_samples_of ts id t Hid). unfold wanted_of. by rewrite <-list_fmap_compose. }
  rewrite length_fmap, length_seq, Nat.eqb_refl. cbn [andb].
  destruct (Nat.ltb_spec 0 (sample_count t)) as [Hpos|]; [|done].
  pose proof (sample_count_pos t Hpos) as Hc. destruct H as [Ha Hn Hf Hi] eqn:EH. split; cbn; [done|done|done|].
  intros x [= <-]. change (PAGE_BYTES / PAIR_STRIDE)%nat with 256%nat.
  split; cbn [sx_block first_keys]; [lia|by destruct pairs; cbn in *; [lia|]|].
  intros j. destruct (decide (j < sample_count t)%nat) as [Hj|Hj].
  - assert (j * 256 < length pairs)%nat as Hj' by (rewrite <-Hn; by apply sample_count_spec).
    rewrite list_lookup_fmap, lookup_seq_lt by done. cbn [fmap option_fmap option_map]. unfold key_of.
    rewrite Nat2N.id. replace (pt_start t + (0 + j) * PAGE_BYTES)%nat with (pt_start t + (j * 256) * 16)%nat
      by (unfold PAGE_BYTES; lia).
    rewrite (stores_key_at data t pairs) by done.
    destruct (lookup_lt_is_Some_2 pairs.*1 (j * 256)) as [k ->]; [by rewrite length_fmap|done].
  - rewrite !lookup_ge_None_2; [done|rewrite length_fmap, <-Hn|rewrite length_fmap, length_seq; lia].
    destruct (Nat.le_gt_cases (pt_count t) (j * 256)) as [|Hlt]; [done|].
    by apply sample_count_spec in Hlt.
Qed.

(** ** The pass over a base *)

Definition with_tables (b : PuffinBase) (sh : option PairTable) (ov : gmap ScopeId PairTable) : PuffinBase :=
  mkPuffin sh ov (pb_shared_members b) (pb_overlay_members b) (pb_registry b) (pb_fallback b)
    (pb_shared_filter b) (pb_overlay_filter b) (pb_shared_members_filter b) (pb_overlay_members_filter b)
    (pb_sequence b).

Section indexes.
Context (data : bytes) (b : PuffinBase) (gp : list (NodeId * NodeId)) (sp : ScopeId → list (NodeId * NodeId)).
Context (Hsh : ∀ t, pb_shared b = Some t → stores data t gp).
Context (Hov : ∀ s t, pb_overlays b !! s = Some t → stores data t (sp s)).

Let ts := base_tables b.
Let n := length (option_list (pb_shared b)).
Let ids : gmap ScopeId nat := list_to_map (zip (pb_scopes b) (seq n (length (pb_scopes b)))).

Lemma base_tables_inside w : w ∈ wanted_samples ts → (N.to_nat w.1 + 8 ≤ length data)%nat.
Proof using Hsh Hov.
  unfold wanted_samples, sort_pairs. rewrite merge_sort_Permutation. intros (ws & Hw & Hin)%list_elem_of_join.
  apply elem_of_lookup_imap in Hin as (i & t & -> & Ht%list_elem_of_lookup_2).
  unfold ts, base_tables in Ht. apply elem_of_app in Ht as [Ht|Ht].
  - destruct (pb_shared b) as [t0|] eqn:E0; [|by apply not_elem_of_nil in Ht].
    apply list_elem_of_singleton in Ht as ->. eapply wanted_of_inside; [by apply Hsh|done].
  - apply list_elem_of_omap in Ht as (s & _ & Ht). eapply wanted_of_inside; [by eapply Hov|done].
Qed.

Lemma overlay_id s t : pb_overlays b !! s = Some t → ts !! default 0%nat (ids !! s) = Some t.
Proof using.
  intros Ht. assert (s ∈ pb_scopes b) as Hs by (apply elem_of_sorted_keys; by eexists).
  apply list_elem_of_lookup_1 in Hs as [j Hj]. pose proof (lookup_lt_Some _ _ _ Hj) as Hl.
  assert (ids !! s = Some (n + j)%nat) as ->.
  { apply elem_of_list_to_map_1.
    - rewrite fst_zip by (by rewrite length_seq). apply sorted_keys_nodup.
    - apply list_elem_of_lookup_2 with j. apply lookup_zip_with_Some.
      exists s, (n + j)%nat. split_and!; [done|done|]. by apply lookup_seq. }
  cbn [from_option id]. unfold ts, base_tables. unfold n.
  rewrite lookup_app_r by lia. rewrite Nat.add_comm, Nat.add_sub.
  assert (omap (fun s => pb_overlays b !! s) (pb_scopes b) =
          (fun s => default (mkPairTable 0 0 None) (pb_overlays b !! s)) <$> pb_scopes b) as ->.
  { assert (Forall (fun s => is_Some (pb_overlays b !! s)) (pb_scopes b)) as Hall.
    { apply Forall_forall. intros s' Hs'. by apply elem_of_sorted_keys. }
    clear -Hall. induction Hall as [|s' l [t' Ht'] _ IH]; [done|].
    rewrite fmap_cons, <-IH. cbn [omap list_omap]. by rewrite Ht'. }
  rewrite list_lookup_fmap, Hj. cbn. by rewrite Ht.
Qed.

Lemma build_indexes_spec :
  ∃ sh' ov', build_indexes data b = Ok (with_tables b sh' ov') ∧
    (∀ t, sh' = Some t → stores data t gp) ∧ (is_Some sh' ↔ is_Some (pb_shared b)) ∧
    (∀ s t, ov' !! s = Some t → stores data t (sp s)) ∧
    (∀ s, is_Some (ov' !! s) ↔ is_Some (pb_overlays b !! s)).
Proof using Hsh Hov.
  unfold build_indexes. fold ts.
  rewrite sample_all_spec; [|lia|apply wanted_samples_sorted|apply Forall_forall; apply base_tables_inside].
  cbn [mbind result_bind]. pose proof overlay_id as Hid.
  assert (∀ t, pb_shared b = Some t → ts !! 0%nat = Some t) as H0.
  { intros t Ht. unfold ts, base_tables. by rewrite Ht. }
  destruct b as [sh ov sm om rg fb shf ovf smf omf sq]. cbn [pb_shared pb_overlays] in *.
  eexists _, _. split; [reflexivity|]. split_and!.
  - intros t' (t & -> & ->)%fmap_Some. apply set_index_stores; auto.
  - apply fmap_is_Some.
  - intros s t'. rewrite map_lookup_imap. destruct (ov !! s) as [t|] eqn:Ht; [|done]. cbn.
    intros [= <-]. apply set_index_stores; [by apply Hov|]. by apply Hid.
  - intros s. rewrite map_lookup_imap. destruct (ov !! s); cbn; [done|]. by split.
Qed.
End indexes.

(** ** Streamed and direct indexes *)

Lemma sparse_ok_unique keys x y :
  sparse_ok keys x → sparse_ok keys y → sx_block x = sx_block y → x = y.
Proof.
  intros [_ _ X] [_ _ Y] E. destruct x as [bx kx], y as [by_ ky]. cbn in *. subst by_. f_equal.
  apply list_eq. intros j. by rewrite X, Y.
Qed.

(** Building the indexes in one forward pass is building them directly: for any
    chunk of more than eight bytes, the pass over the file succeeds, and the
    samples it leaves each table are the index [SparseIndex::build] would make
    from the table's own keys. *)
Theorem streamed_index_is_direct (data : bytes) (chunk : nat) (ts : list PairTable)
    (rows : list (list (NodeId * NodeId))) :
  Forall2 (stores data) ts rows → Forall (fun t => pt_index t = None) ts → (8 < chunk)%nat →
  ∃ keys, sample_all data chunk (wanted_samples ts) = Ok keys ∧
    ∀ id t, ts !! id = Some t →
      sparse_build (pt_count t) PAIR_STRIDE (pair_key_at t data) = Some (pt_index (set_index keys id t)).
Proof.
  intros H2 Hnone Hc. exists (sampled data <$> wanted_samples ts). split.
  - apply sample_all_spec; [done|apply wanted_samples_sorted|]. apply Forall_forall. intros w.
    unfold wanted_samples, sort_pairs. rewrite merge_sort_Permutation. intros (ws & Hw & Hin)%list_elem_of_join.
    apply elem_of_lookup_imap in Hin as (i & t & -> & Ht).
    destruct (Forall2_lookup_l _ _ _ _ _ H2 Ht) as (pairs & _ & St). by eapply wanted_of_inside.
  - intros id t Hid. destruct (Forall2_lookup_l _ _ _ _ _ H2 Hid) as (pairs & _ & St).
    assert (pt_index t = None) as Ht.
    { rewrite Forall_forall in Hnone. apply Hnone. by eapply list_elem_of_lookup_2. }
    pose proof (set_index_stores data ts id t pairs St Hid) as St'.
    destruct (sparse_build_spec pairs.*1 PAIR_STRIDE (pair_key_at t data)) as (o & Eo & Ho).
    { unfold PAGE_BYTES, PAIR_STRIDE. lia. }
    { intros i Hi. rewrite length_fmap in Hi. by apply stores_key_at. }
    rewrite length_fmap, <-(ho_count _ _ _ St) in Eo. rewrite Eo. f_equal.
    pose proof (ho_index _ _ _ St') as Hi'. unfold sparse_build in Eo. unfold set_index in *.
    change (PAGE_BYTES / PAIR_STRIDE)%nat with 256%nat in *.
    destruct (Nat.leb_spec (pt_count t) 256) as [Hle|Hgt].
    + simplify_eq. assert (sample_count t = 0%nat) as Hs.
      { unfold sample_count. change (PAGE_BYTES / PAIR_STRIDE)%nat with 256%nat.
        by destruct (Nat.leb_spec (pt_count t) 256); [|lia]. }
      rewrite Hs, andb_false_r. by rewrite Ht.
    + destruct (mapM _ _) as [ks|]; [|done]. cbn [mbind option_bind] in Eo. simplify_eq.
      rewrite filter_sampled, (wanted_samples_of ts id t Hid) in Hi' |- *. unfold wanted_of in *.
      rewrite !length_fmap, length_seq, Nat.eqb_refl in Hi' |- *.
      assert (0 < sample_count t)%nat as Hpos by (apply sample_count_spec; lia).
      destruct (Nat.ltb_spec 0 (sample_count t)); [|lia]. cbn [andb pt_index] in Hi' |- *.
      f_equal. apply (sparse_ok_unique pairs.*1); [by apply Ho|by apply Hi'|done].
Qed.

Definition demo_rows : list (NodeId * NodeId) := (fun i => (2 * N.of_nat i + 3, 1)) <$> seq 0 600.

Lemma streamed_index_is_direct_witness :
  ∃ keys, sample_all ([7] ++ table demo_rows ++ []) 100 (wanted_samples [mkPairTable 9 600 None]) = Ok keys ∧
    sparse_build 600 PAIR_STRIDE (pair_key_at (mkPairTable 9 600 None) ([7] ++ table demo_rows ++ [])) =
      Some (pt_index (set_index keys 0 (mkPairTable 9 600 None))).
Proof.
  destruct (streamed_index_is_direct ([7] ++ table demo_rows ++ []) 100 [mkPairTable 9 600 None] [demo_rows])
    as (keys & E & H).
  - constructor; [|constructor]. split; [by exists [7], []|by vm_compute| |done].
    split; [|by vm_compute]. apply Forall_forall. intros p (i & -> & Hi%elem_of_seq)%list_elem_of_fmap.
    unfold small_pair, u64_limit. cbn [fst snd]. lia.
  - by repeat constructor.
  - lia.
  - exists keys. split; [exact E|]. by apply (H 0%nat (mkPairTable 9 600 None)).
Defined.
