(* ===== verification/PuffinBlobs.v ===== *)
(** What each payload of a run answers once it is placed in a mapping: pair tables,
    registries, member indexes and filters, in every encoding. *)

From S2P Require Import Prelude Types Bytes Filter Varint Blocked BlockedRead Registry MemberIndex Decimal.
From S2P Require Import Graph Dsu View RoutingBase Forest Compaction CompactionInv Codec CodecInv PairTable PairTableInv Puffin PuffinBase PuffinSample.

(** ** Pair tables *)

Lemma stores_eq data t pairs :
  stores data t pairs → ∃ pre post, data = pre ++ table pairs ++ post ∧
    t = mkPairTable (length pre + 8) (length pairs) (pt_index t).
Proof.
  intros [(pre & post & -> & Hs) Hc _ _]. exists pre, post. split; [done|].
  destruct t; cbn in *. by subst.
Qed.

Lemma stores_parse data pairs pre post :
  data = pre ++ table pairs ++ post → pairs_fit pairs →
  ∃ t, pair_parse data (length pre) (length (table pairs)) = Ok t ∧ stores data t pairs.
Proof.
  intros -> F. rewrite pair_parse_spec by done. eexists. split; [done|].
  split; cbn; [eauto|done|done|done].
Qed.

Lemma stores_lookup data t pairs node :
  stores data t pairs → StronglySorted N.lt pairs.*1 →
  pair_lookup t data node = Some ((list_to_map pairs : gmap NodeId NodeId) !! node).
Proof.
  intros H Hs. pose proof H as [_ _ F Hi]. destruct (stores_eq _ _ _ H) as (pre & post & -> & ->).
  by apply pair_lookup_spec.
Qed.

Lemma stores_for_each data t pairs : stores data t pairs → pair_for_each t data = Some pairs.
Proof.
  intros H. pose proof H as [_ _ F Hi]. destruct (stores_eq _ _ _ H) as (pre & post & -> & ->).
  by apply pair_for_each_spec.
Qed.

Lemma stores_pair_at data t pairs i kv :
  stores data t pairs → pairs !! i = Some kv → pair_at t data i = Some kv.
Proof.
  intros H Hi. pose proof H as [_ _ F Hix]. destruct (stores_eq _ _ _ H) as (pre & post & -> & ->).
  pose proof (lookup_lt_Some _ _ _ Hi). unfold pair_at.
  rewrite pair_key_at_spec, pair_value_at_spec by done. rewrite !list_lookup_fmap, Hi. by destruct kv.
Qed.

(** Sweeping in chunks of whole pairs visits what the mapping holds. *)
Lemma scan_fd_spec m : (0 < m)%nat → ∀ fuel pairs pre post,
  Forall small_pair pairs → (length pairs ≤ fuel)%nat →
  scan_fd fuel (pre ++ mjoin (put_pair <$> pairs) ++ post) (m * 16) (length pre) (length pairs * 16) =
    Some pairs.
Proof.
  intros Hm. induction fuel as [|fuel IH]; intros pairs pre post Hp Hf.
  { destruct pairs; [done|]. cbn in Hf. lia. }
  destruct pairs as [|p0 pairs0]; [done|]. set (pairs := p0 :: pairs0) in *.
  assert (0 < length pairs)%nat as Hpos by (cbn; lia).
  destruct (length pairs * 16)%nat eqn:E; [lia|]. cbn [scan_fd]. rewrite <-E.
  set (k := Nat.min (length pairs) m). assert (Nat.min (length pairs * 16) (m * 16) = k * 16)%nat as -> by lia.
  assert (length (take k pairs) = k) as Hk by (rewrite length_take; lia).
  assert (mjoin (put_pair <$> pairs) = mjoin (put_pair <$> take k pairs) ++ mjoin (put_pair <$> drop k pairs)) as ->.
  { by rewrite <-join_app, <-fmap_app, take_drop. }
  set (a := mjoin (put_pair <$> take k pairs)). assert (length a = k * 16)%nat as Ha.
  { unfold a. by rewrite pairs_length, Hk. }
  rewrite <-app_assoc. assert (slice_at (pre ++ a ++ mjoin (put_pair <$> drop k pairs) ++ post) (length pre) (k * 16) = Some a) as ->.
  { rewrite <-Ha. apply slice_at_app. }
  cbn [mbind option_bind]. rewrite app_assoc. replace (length pre + k * 16)%nat with (length (pre ++ a)) by (rewrite length_app; lia).
  assert (length pairs * 16 - k * 16 = length (drop k pairs) * 16)%nat as -> by (rewrite length_drop; lia).
  rewrite IH; [|by apply Forall_drop|rewrite length_drop; lia]. cbn [mbind option_bind]. unfold PAIR_STRIDE.
  rewrite Nat.div_mul by lia. unfold a. rewrite <-Hk at 1. rewrite put_pairs_chunks by (by apply Forall_take).
  by rewrite take_drop.
Qed.

Lemma stores_scan reader reopened data t pairs :
  stores data t pairs → scan reader reopened data t = Some pairs.
Proof.
  intros H. pose proof (stores_for_each _ _ _ H) as He. pose proof H as [_ Hc [F _] _].
  destruct (stores_eq _ _ _ H) as (pre & post & -> & Et). rewrite Et in He |- *.
  unfold scan. cbn [pt_count pt_start] in *.
  destruct (Nat.eqb_spec (length pairs * PAIR_STRIDE) 0) as [E|_].
  { destruct pairs; [done|]. unfold PAIR_STRIDE in E. cbn in E. lia. }
  destruct reader, reopened; [|exact He..]. unfold table.
  pose proof (scan_fd_spec (N.to_nat (2 ^ 16)) ltac:(lia) (length pairs * 16) pairs
    (pre ++ put_u64 (N.of_nat (length pairs))) post F ltac:(lia)) as Hs.
  rewrite <-!app_assoc, length_app, put_u64_length in Hs. rewrite <-!app_assoc.
  assert (SCAN_CHUNK = N.to_nat (2 ^ 16) * 16)%nat as -> by (unfold SCAN_CHUNK; lia). exact Hs.
Qed.

(** ** Registries *)

(** The registry answers exactly the entries [es]. *)
Definition registry_entries (data : bytes) (r : RegistryTable) : option (list (NodeId * ScopeId)) :=
  match r with RegTableFlat t => flat_iter t data | RegTableBlocked t => blocked_iter t data end.

(** The table answers for the entries, and iterates over them. *)
Record serves (data : bytes) (r : RegistryTable) (es : list (NodeId * ScopeId)) : Prop := {
  sv_root root : ∃ l, registry_scopes_for data r root = Some l ∧ ∀ s, s ∈ l ↔ (root, s) ∈ es;
  sv_iter : ∃ l, registry_entries data r = Some l ∧ (l = es ∨ l = dedup es);
}.

Lemma elem_of_vals_of l key v : v ∈ vals_of l key ↔ (key, v) ∈ l.
Proof.
  unfold vals_of. rewrite list_elem_of_fmap. split.
  - intros ([k w] & -> & [<- H]%list_elem_of_filter). done.
  - intros H. exists (key, v). split; [done|]. by apply list_elem_of_filter.
Qed.

Lemma reg_push_all_flat es : ∀ w,
  rw_encoding w = RegFlat →
  rw_encoding (reg_push_all w es) = RegFlat ∧
  rw_flat (reg_push_all w es) = rw_flat w ++ mjoin (put_entry <$> es) ∧
  (reg_entries w + N.of_nat (length es) < u64_limit →
   reg_entries (reg_push_all w es) = reg_entries w + N.of_nat (length es)).
Proof.
  induction es as [|[r s] es IH]; intros w He.
  { split_and!; [done|by rewrite app_nil_r|cbn; lia]. }
  change (reg_push_all w ((r, s) :: es)) with (reg_push_all (reg_push w r s) es).
  destruct (IH (reg_push w r s)) as (H1 & H2 & H3); [unfold reg_push; by rewrite He|].
  split_and!; [done| |].
  - rewrite H2. unfold reg_push. rewrite He. cbn [rw_flat]. by rewrite fmap_cons, mjoin_cons, <-app_assoc.
  - intros Hn. cbn [length] in Hn |- *.
    assert (reg_entries (reg_push w r s) = reg_entries w + 1) as E.
    { unfold reg_push. rewrite He. unfold reg_entries in *. cbn [rw_writer w_entries]. apply wadd64_small. lia. }
    rewrite H3, E; lia.
Qed.

Lemma flat_registry_payload es ty payload :
  encode_registry es RegFlat = Some (ty, payload) → N.of_nat (length payload) < u64_limit →
  ty = FLAT_BLOB_TYPE ∧ payload = flat_table es ∧ 8 + 12 * N.of_nat (length es) < u64_limit.
Proof.
  unfold encode_registry, reg_finish.
  destruct (reg_push_all_flat es (reg_new RegFlat) eq_refl) as (He & Hf & Hc).
  destruct (_ =? 0); [done|]. rewrite He. intros H Hn. simplify_eq.
  assert (drop 8 (rw_flat (reg_push_all (reg_new RegFlat) es)) = mjoin (put_entry <$> es)) as Hd.
  { rewrite Hf. by rewrite drop_app_length'. }
  rewrite Hd in *. assert (length (mjoin (put_entry <$> es)) = length es * 12)%nat as Hl.
  { rewrite (concat_length 12), length_fmap; [done|]. by apply Forall_fmap, Forall_true. }
  rewrite length_app, put_u64_length, Hl in Hn. rewrite Hc; [|cbn; lia].
  split_and!; [done|done|lia].
Qed.

Lemma flat_registry_serves es pre post :
  entries_ok es → 8 + 12 * N.of_nat (length es) < u64_limit →
  ∃ t, flat_parse (pre ++ flat_table es ++ post) (length pre) (length (flat_table es)) = Ok t ∧
    serves (pre ++ flat_table es ++ post) (RegTableFlat t) es.
Proof.
  intros [E1 E2 E3] Hl. assert (entries_fit es) as F by (split; [apply Forall_and; auto|done]).
  destruct (flat_parse_spec es pre post F) as (ix & -> & Hix). eexists. split; [done|]. split.
  - intros root. exists (vals_of es root). split; [|apply elem_of_vals_of].
    cbn [registry_scopes_for]. by apply flat_scopes_for_spec.
  - exists es. split; [|by left]. by apply flat_iter_spec.
Qed.

Lemma blocked_registry_serves es ty payload pre post :
  entries_ok es → encode_registry es RegBlocked = Some (ty, payload) →
  N.of_nat (length payload) < u64_limit →
  ty = BLOCKED_BLOB_TYPE ∧
  ∃ t, parse (pre ++ payload ++ post) (length pre) (length pre + length payload) = Ok t ∧
    serves (pre ++ payload ++ post) (RegTableBlocked t) es.
Proof.
  intros E Hf Hn. destruct (reg_finish_table es BLOCK_BYTES ty payload E ltac:(done) Hf Hn)
    as (bs & -> & -> & Hfl & T & Hok). split; [done|].
  rewrite parse_table by (apply wrap64_lt || done). eexists. split; [done|]. split.
  - intros root. exists (vals_of (dedup es) root). split.
    + cbn [registry_scopes_for]. by rewrite scopes_for_table, Hfl.
    + intros s. by rewrite elem_of_vals_of, elem_of_dedup.
  - exists (dedup es). split; [|by right]. rewrite <-Hfl. eapply blocked_iter_yields;
      [by apply parse_table; [apply wrap64_lt|]|]. by apply (iter_blocks _ bs []).
Qed.

Lemma dedup_length {A} `{EqDecision A} (l : list A) : (length (dedup l) ≤ length l)%nat.
Proof.
  induction l as [|a [|b l] IH]; [done|done|]. cbn [dedup length] in *. case_decide; cbn [length] in *; lia.
Qed.

Lemma encode_registry_none es e :
  entries_ok es → N.of_nat (length es) < u64_limit → encode_registry es e = None → es = [].
Proof.
  intros [E1 _ _] Hn. unfold encode_registry, reg_finish.
  assert (reg_entries (reg_push_all (reg_new e) es) = 0 → es = []) as H.
  { destruct e.
    - destruct (reg_push_all_flat es (reg_new RegFlat) eq_refl) as (_ & _ & ->); cbn; [|done].
      intros H. destruct es; [done|]. cbn in H. lia.
    - destruct (reg_push_all_pushed es (reg_new RegBlocked) [] []) as (rs & _ & P & Hfl);
        [done|by apply writer_new_pushed|done|done|]. cbn [app] in Hfl.
      unfold reg_entries. rewrite (pu_entries _ _ P), Hfl. pose proof (dedup_length es).
      rewrite wrap64_small by lia. intros H'. assert (dedup es = []) as Hd by (apply nil_length_inv; lia).
      destruct es as [|x es]; [done|]. assert (x ∈ dedup (x :: es)) as Hx by (apply elem_of_dedup; left).
      rewrite Hd in Hx. by apply not_elem_of_nil in Hx. }
  destruct (N.eqb_spec (reg_entries (reg_push_all (reg_new e) es)) 0); [auto|]. by destruct (rw_encoding _).
Qed.

(** ** Member indexes *)

(** The pairs of a table by parent: what [encode_members] writes. *)
Definition members_of (pairs : list (NodeId * NodeId)) : list (NodeId * NodeId) :=
  sort_pairs ((fun np => (np.2, np.1)) <$> filter (fun np => np.1 ≠ np.2) pairs).

(** The index answers the children of each parent, ascending. *)
Definition lists (data : bytes) (m : MemberTable) (mp : list (NodeId * NodeId)) : Prop :=
  ∀ p limit, member_children_of data m p limit = Some (take limit (vals_of mp p)).

Lemma members_of_perm pairs :
  members_of pairs ≡ₚ (fun np => (np.2, np.1)) <$> filter (fun np => np.1 ≠ np.2) pairs.
Proof. unfold members_of, sort_pairs. apply merge_sort_Permutation. Qed.

Lemma elem_of_members_of pairs p c : (p, c) ∈ members_of pairs ↔ (c, p) ∈ pairs ∧ c ≠ p.
Proof.
  rewrite members_of_perm, list_elem_of_fmap. split.
  - intros ([a b] & [= -> ->] & [H1 H2]%list_elem_of_filter). done.
  - intros [H1 H2]. exists (c, p). split; [done|]. by apply list_elem_of_filter.
Qed.

Lemma members_of_sorted pairs : StronglySorted N.le (members_of pairs).*1.
Proof. apply sort_pairs_fst_sorted. Qed.

Lemma members_of_length pairs : (length (members_of pairs) ≤ length pairs)%nat.
Proof. rewrite members_of_perm, length_fmap. apply length_filter. Qed.

Lemma members_of_fit pairs : pairs_fit pairs → pairs_fit (members_of pairs).
Proof.
  intros [Hs Hl]. pose proof (members_of_length pairs). split; [|lia].
  apply Forall_forall. intros [p c] [Hin _]%elem_of_members_of. rewrite Forall_forall in Hs.
  destruct (Hs _ Hin) as [? ?]. done.
Qed.

Lemma members_of_ok pairs : pairs_fit pairs → pairs_ok (members_of pairs).
Proof.
  intros F. pose proof (members_of_fit pairs F) as [Hs _].
  split; [apply members_of_sorted|..]; (eapply Forall_impl; [exact Hs|]); by intros [a b] [? ?].
Qed.

Lemma mw_push_all_flat ps : ∀ w,
  mw_encoding w = MemFlat →
  mw_encoding (mw_push_all w ps) = MemFlat ∧ mw_tier (mw_push_all w ps) = mw_tier w ∧
  mw_flat (mw_push_all w ps) = mw_flat w ++ mjoin (put_pair <$> ps) ∧
  (mw_pairs w + N.of_nat (length ps) < u64_limit →
   mw_pairs (mw_push_all w ps) = mw_pairs w + N.of_nat (length ps)).
Proof.
  induction ps as [|[r s] ps IH]; intros w He.
  { split_and!; [done|done|by rewrite app_nil_r|cbn; lia]. }
  change (mw_push_all w ((r, s) :: ps)) with (mw_push_all (mw_push w r s) ps).
  destruct (IH (mw_push w r s)) as (H1 & H2 & H3 & H4); [unfold mw_push; by rewrite He|].
  split_and!; [done|rewrite H2; unfold mw_push; by rewrite He| |].
  - rewrite H3. unfold mw_push. rewrite He. cbn [mw_flat]. by rewrite fmap_cons, mjoin_cons, <-app_assoc.
  - intros Hn. cbn [length] in Hn |- *.
    assert (mw_pairs (mw_push w r s) = mw_pairs w + 1) as E.
    { unfold mw_push. rewrite He. unfold mw_pairs in *. cbn [mw_writer w_entries]. apply wadd64_small. lia. }
    rewrite H4, E; lia.
Qed.

Definition member_type (e : MemberEncoding) (t : MemberTier) : string :=
  match e, t with
  | MemFlat, Shared => SHARED_FLAT_BLOB_TYPE
  | MemFlat, Overlay => OVERLAY_FLAT_BLOB_TYPE
  | MemBlocked, Shared => SHARED_BLOCKED_BLOB_TYPE
  | MemBlocked, Overlay => OVERLAY_BLOCKED_BLOB_TYPE
  end.

(** Opening a member payload, by encoding. *)
Definition open_members (e : MemberEncoding) (data : bytes) (start len : nat) : result base_error MemberTable :=
  match e with
  | MemFlat => t ← map_err BaseTable (pair_parse data start len); Ok (MemTableFlat t)
  | MemBlocked => t ← map_err BaseBlocked (parse data start (start + len)); Ok (MemTableBlocked t)
  end.

Lemma encode_members_table pairs e t :
  pairs_fit pairs →
  encode_members (table pairs) e t =
    ('(ty, b) ← mw_finish (mw_push_all (mw_new e t) (members_of pairs));
     Some (ty, b, parents_of (members_of pairs) [])).
Proof. intros F. unfold encode_members. by rewrite table_keys_table. Qed.

Lemma flat_members_payload ps t ty payload :
  8 + 16 * N.of_nat (length ps) < u64_limit →
  mw_finish (mw_push_all (mw_new MemFlat t) ps) = Some (ty, payload) →
  ty = member_type MemFlat t ∧ payload = table ps.
Proof.
  intros Hn. unfold mw_finish. destruct (mw_push_all_flat ps (mw_new MemFlat t) eq_refl) as (He & Ht & Hf & Hc).
  destruct (_ =? 0); [done|]. rewrite He, Ht, Hc by (cbn; lia). intros H.
  assert (drop 8 (mw_flat (mw_push_all (mw_new MemFlat t) ps)) = mjoin (put_pair <$> ps)) as Hd.
  { rewrite Hf. by rewrite drop_app_length'. }
  rewrite Hd in H. cbn [mw_tier mw_new mem_with_block_size] in H. destruct t; simplify_eq; done.
Qed.

Lemma mw_push_all_kind ps : ∀ w,
  mw_encoding (mw_push_all w ps) = mw_encoding w ∧ mw_tier (mw_push_all w ps) = mw_tier w.
Proof.
  induction ps as [|[p c] ps IH]; intros w; [done|].
  change (mw_push_all w ((p, c) :: ps)) with (mw_push_all (mw_push w p c) ps).
  destruct (IH (mw_push w p c)) as [-> ->]. unfold mw_push. by destruct (mw_encoding w).
Qed.

Lemma encode_members_kind pairs e t ty payload ps :
  pairs_fit pairs → encode_members (table pairs) e t = Some (ty, payload, ps) →
  ty = member_type e t ∧ ps = parents_of (members_of pairs) [].
Proof.
  intros F. rewrite encode_members_table by done.
  destruct (mw_finish _) as [[ty' b]|] eqn:E; [|done]. cbn [mbind option_bind]. intros [= -> -> <-].
  split; [|done]. unfold mw_finish in E. destruct (_ =? 0); [done|].
  destruct (mw_push_all_kind (members_of pairs) (mw_new e t)) as [He Ht]. rewrite He, Ht in E.
  cbn [mw_new mem_with_block_size mw_encoding mw_tier] in E. destruct t, e; simplify_eq; done.
Qed.

Lemma members_list pairs e t ty payload ps pre post :
  pairs_fit pairs → encode_members (table pairs) e t = Some (ty, payload, ps) →
  N.of_nat (length payload) < u64_limit →
  ∃ m, open_members e (pre ++ payload ++ post) (length pre) (length payload) = Ok m ∧
    lists (pre ++ payload ++ post) m (members_of pairs).
Proof.
  intros F. rewrite encode_members_table by done.
  destruct (mw_finish _) as [[ty' b]|] eqn:E; [|done]. cbn [mbind option_bind]. intros [= -> -> <-] Hn.
  pose proof (members_of_fit pairs F) as F'. pose proof (pf_len _ F') as Hl.
  destruct e; cbn [open_members].
  - destruct (flat_members_payload _ _ _ _ Hl E) as [-> ->].
    rewrite pair_parse_spec by done. eexists. split; [done|]. intros p limit. cbn [member_children_of].
    apply values_for_spec; [done|apply members_of_sorted].
  - destruct (mw_finish_table (members_of pairs) t 512 ty payload (members_of_ok pairs F) ltac:(done) E Hn)
      as (-> & bs & -> & Hfl & T & Hok).
    rewrite parse_table by (apply wrap64_lt || done). eexists. split; [done|].
    intros p limit. cbn [member_children_of]. by rewrite children_of_table, Hfl.
Qed.

Lemma encode_members_none pairs e t :
  pairs_fit pairs → encode_members (table pairs) e t = None → members_of pairs = [].
Proof.
  intros F. rewrite encode_members_table by done.
  destruct (mw_finish _) as [[ty' b]|] eqn:E; [done|]. intros _. unfold mw_finish in E.
  pose proof (pf_len _ (members_of_fit pairs F)) as Hl.
  assert (mw_pairs (mw_push_all (mw_new e t) (members_of pairs)) = N.of_nat (length (members_of pairs))) as Hc.
  { destruct e.
    - destruct (mw_push_all_flat (members_of pairs) (mw_new MemFlat t) eq_refl) as (_ & _ & _ & ->); cbn; lia.
    - destruct (mw_push_all_pushed (members_of pairs) (mw_new MemBlocked t) [] []) as (rs & _ & _ & P & Hfl);
        [done|by apply writer_new_pushed|done|apply members_of_sorted|]. cbn [app] in Hfl.
      unfold mw_pairs. rewrite (pu_entries _ _ P), Hfl. apply wrap64_small. lia. }
  rewrite Hc in E. destruct (N.eqb_spec (N.of_nat (length (members_of pairs))) 0) as [H0|].
  - apply nil_length_inv. lia.
  - by destruct (mw_tier _), (mw_encoding _).
Qed.

Lemma elem_of_parents_of mp : ∀ acc p, p ∈ parents_of mp acc ↔ p ∈ acc ∨ p ∈ mp.*1.
Proof.
  induction mp as [|[q c] mp IH]; intros acc p; cbn [parents_of]; [set_solver|]. rewrite IH, fmap_cons.
  case_bool_decide as H; [|set_solver]. apply last_Some_elem_of in H. set_solver.
Qed.

(** ** Filters *)

(** A filter that never panics and never rejects a key. *)
Definition covers (f : BlockedFilter) (keys : N → Prop) : Prop :=
  (∀ k, is_Some (may_contain f k)) ∧ ∀ k, keys k → may_contain f k = Some true.

Lemma filter_covers keys hint bits f data pre post :
  build_filter keys hint bits = Some f → data = pre ++ encode f ++ post →
  N.of_nat (length data) <= 2 ^ 38 →
  decode (encode f) = Ok f ∧ covers f (fun k => k ∈ keys).
Proof.
  unfold build_filter, build_with. destruct (_ =? 0); [done|].
  destruct (build_spec keys (N.of_nat hint) (clamp_filter_bits bits)) as (f' & E & W & M).
  rewrite E. intros [= ->] -> Hn. split.
  - apply decode_encode, (build_encodable _ _ _ _ E).
    rewrite !length_app, encode_length in Hn by apply W. unfold u32_limit. lia.
  - split; [|intros k Hk; by apply holds_may_contain, M].
    intros k. destruct (locate_spec f W k) as (i & p & b & Hl & Hb & _). unfold may_contain.
    rewrite Hl. cbn. rewrite Hb. by eexists.
Qed.
