(* ===== verification/PuffinBaseInv.v ===== *)
(** Opening a run: every blob the codec writes fills its slot with a table that
    answers what the snapshot holds, in whatever order the blobs come. *)

From S2P Require Import Prelude Types Bytes Filter Varint Blocked BlockedRead Registry MemberIndex Decimal.
From S2P Require Import Graph Dsu View RoutingBase Forest Compaction CompactionInv Codec CodecInv PairTable PairTableInv Puffin PuffinBase PuffinSample PuffinBlobs.

(** ** Sound bases *)

(** The parents of a table's member index. *)
Definition is_parent (pairs : list (NodeId * NodeId)) (p : NodeId) : Prop := p ∈ (members_of pairs).*1.

Definition overlay_has (snap : ForestSnapshot) (P : list (NodeId * NodeId) → NodeId → Prop) (k : N) : Prop :=
  ∃ s x, P (scope_pairs snap s) x ∧ k = overlay_key s x.

(** Whatever slot of the base is filled answers for the snapshot. *)
Record base_sound (data : bytes) (snap : ForestSnapshot) (reg : list (NodeId * ScopeId)) (b : PuffinBase)
    : Prop := {
  bo_shared t : pb_shared b = Some t → stores data t (snap_global snap);
  bo_overlays s t : pb_overlays b !! s = Some t →
    s ∈ (snap_scopes snap).*1 ∧ stores data t (scope_pairs snap s);
  bo_shared_members m : pb_shared_members b = Some m → lists data m (members_of (snap_global snap));
  bo_overlay_members s m : pb_overlay_members b !! s = Some m → lists data m (members_of (scope_pairs snap s));
  bo_registry r : pb_registry b = Some r → serves data r reg;
  bo_fallback m : pb_fallback b = Some m →
    ∀ r s, s ∈ default [] (m !! r) ↔ (r, s) ∈ reg;
  bo_shared_filter f : pb_shared_filter b = Some f → covers f (fun k => k ∈ (snap_global snap).*1);
  bo_overlay_filter f : pb_overlay_filter b = Some f →
    covers f (overlay_has snap (fun pairs x => x ∈ pairs.*1));
  bo_shared_members_filter f : pb_shared_members_filter b = Some f → covers f (is_parent (snap_global snap));
  bo_overlay_members_filter f : pb_overlay_members_filter b = Some f → covers f (overlay_has snap is_parent);
}.

(** Slots are only ever filled or refilled. *)
Record extends (b b' : PuffinBase) : Prop := {
  ex_shared : is_Some (pb_shared b) → is_Some (pb_shared b');
  ex_overlays s : is_Some (pb_overlays b !! s) → is_Some (pb_overlays b' !! s);
  ex_shared_members : is_Some (pb_shared_members b) → is_Some (pb_shared_members b');
  ex_overlay_members s : is_Some (pb_overlay_members b !! s) → is_Some (pb_overlay_members b' !! s);
  ex_registry : is_Some (pb_registry b) → is_Some (pb_registry b');
}.

#[export] Instance extends_preorder : PreOrder extends.
Proof. split; [by split|]. intros b1 b2 b3 [] []. split; auto. Qed.

(** The slot an index entry fills. *)
Record filled (b : PuffinBase) (i : BlobIndex) : Prop := {
  fi_shared : ix_type i = GLOBAL_BLOB_TYPE → is_Some (pb_shared b);
  fi_overlay s : ix_type i = SCOPE_BLOB_TYPE → blob_scope i = Ok s → is_Some (pb_overlays b !! s);
  fi_shared_members e : ix_type i = member_type e Shared → is_Some (pb_shared_members b);
  fi_overlay_members e s : ix_type i = member_type e Overlay → blob_scope i = Ok s →
    is_Some (pb_overlay_members b !! s);
  fi_registry : ix_type i = FLAT_BLOB_TYPE ∨ ix_type i = BLOCKED_BLOB_TYPE → is_Some (pb_registry b);
}.

Lemma filled_extends b b' i : filled b i → extends b b' → filled b' i.
Proof. intros [] []. split; eauto. Qed.

(** ** Good entries *)

(** An index entry that opens to what the snapshot holds. *)
Inductive good (data : bytes) (snap : ForestSnapshot) (reg : list (NodeId * ScopeId)) (i : BlobIndex) : Prop :=
| good_global t :
    ix_type i = GLOBAL_BLOB_TYPE → open_pairs data i = Ok t → stores data t (snap_global snap) → good data snap reg i
| good_scope s t :
    ix_type i = SCOPE_BLOB_TYPE → blob_scope i = Ok s → open_pairs data i = Ok t →
    s ∈ (snap_scopes snap).*1 → stores data t (scope_pairs snap s) → good data snap reg i
| good_flat t :
    ix_type i = FLAT_BLOB_TYPE → flat_parse data (ix_offset i) (ix_length i) = Ok t →
    serves data (RegTableFlat t) reg → good data snap reg i
| good_blocked t :
    ix_type i = BLOCKED_BLOB_TYPE → open_blocked data i = Ok t →
    serves data (RegTableBlocked t) reg → good data snap reg i
| good_shared_members e m :
    ix_type i = member_type e Shared → open_members e data (ix_offset i) (ix_length i) = Ok m →
    lists data m (members_of (snap_global snap)) → good data snap reg i
| good_overlay_members e s m :
    ix_type i = member_type e Overlay → blob_scope i = Ok s →
    open_members e data (ix_offset i) (ix_length i) = Ok m →
    lists data m (members_of (scope_pairs snap s)) → good data snap reg i
| good_shared_filter f :
    ix_type i = SHARED_FILTER_BLOB_TYPE → open_filter data i = Ok f →
    covers f (fun k => k ∈ (snap_global snap).*1) → good data snap reg i
| good_overlay_filter f :
    ix_type i = OVERLAY_FILTER_BLOB_TYPE → open_filter data i = Ok f →
    covers f (overlay_has snap (fun pairs x => x ∈ pairs.*1)) → good data snap reg i
| good_shared_members_filter f :
    ix_type i = SHARED_MEMBERS_FILTER_BLOB_TYPE → open_filter data i = Ok f →
    covers f (is_parent (snap_global snap)) → good data snap reg i
| good_overlay_members_filter f :
    ix_type i = OVERLAY_MEMBERS_FILTER_BLOB_TYPE → open_filter data i = Ok f →
    covers f (overlay_has snap is_parent) → good data snap reg i.

(** Pick the branch of [build_blob] for a concrete blob type. *)
Ltac decide_types :=
  repeat match goal with
  | |- context [bool_decide (?a = ?b :> string)] =>
      let v := eval vm_compute in (bool_decide (a = b)) in
      change (bool_decide (a = b)) with v; cbn match
  end.

(** Two concrete blob types that differ. *)
Ltac type_clash :=
  match goal with
  | H : ?i = ?a, H' : ?i = ?b |- _ => rewrite H in H'; vm_compute in H'; discriminate H'
  end.

Ltac filled_tac :=
  split; cbn [pb_shared pb_overlays pb_shared_members pb_overlay_members pb_registry]; intros;
  repeat match goal with e : MemberEncoding |- _ => destruct e end; simplify_eq;
  try match goal with H : ?x = Ok _, H' : ?x = Ok _ |- _ => rewrite H in H'; simplify_eq end;
  try (by eexists); try (rewrite lookup_insert_eq; by eexists);
  destruct_or?; exfalso; type_clash.

Ltac extends_tac :=
  split; cbn [pb_shared pb_overlays pb_shared_members pb_overlay_members pb_registry];
  try done; intros;
  try (by eexists); try (apply lookup_insert_is_Some'; by right).

Ltac sound_tac :=
  split; cbn [pb_shared pb_overlays pb_shared_members pb_overlay_members pb_registry pb_fallback
              pb_shared_filter pb_overlay_filter pb_shared_members_filter pb_overlay_members_filter];
  intros; simplify_eq; try done; eauto;
  try (match goal with H : <[_ := _]> _ !! _ = Some _ |- _ =>
    apply lookup_insert_Some in H as [[<- <-]|[_ H]] end; eauto).

Lemma open_members_ok e data start len m :
  open_members e data start len = Ok m →
  match e with
  | MemFlat => ∃ t, map_err BaseTable (pair_parse data start len) = Ok t ∧ m = MemTableFlat t
  | MemBlocked => ∃ t, map_err BaseBlocked (parse data start (start + len)) = Ok t ∧ m = MemTableBlocked t
  end.
Proof.
  destruct e; cbn [open_members]; [destruct (map_err BaseTable _) as [t|]|destruct (map_err BaseBlocked _) as [t|]];
    try done; intros [= <-]; eauto.
Qed.

Lemma build_blob_good data snap reg b i :
  base_sound data snap reg b → good data snap reg i →
  ∃ b', build_blob data b i = Ok b' ∧ base_sound data snap reg b' ∧ extends b b' ∧ filled b' i.
Proof.
  intros [S1 S2 S3 S4 S5 S6 S7 S8 S9 S10] G.
  destruct b as [sh ov sm om rg fb shf ovf smf omf sq].
  cbn [pb_shared pb_overlays pb_shared_members pb_overlay_members pb_registry pb_fallback
       pb_shared_filter pb_overlay_filter pb_shared_members_filter pb_overlay_members_filter] in *.
  unfold build_blob.
  destruct G as [t Ty O H|s t Ty P O In H|t Ty O H|t Ty O H|e m Ty O H|e s m Ty P O H|
    f Ty O H|f Ty O H|f Ty O H|f Ty O H]; rewrite Ty; try destruct e; cbn [member_type] in *; decide_types;
    try rewrite P; cbn [mbind result_bind]; try rewrite O; cbn [mbind result_bind map_err];
    unfold open_pairs, open_blocked; try (apply open_members_ok in O as [t [-> ->]]);
    (eexists; split; [reflexivity|]; split_and!; [sound_tac|extends_tac|filled_tac]).
Qed.

Lemma build_blobs_good data snap reg idx : ∀ b,
  base_sound data snap reg b → Forall (good data snap reg) idx →
  ∃ b', build_blobs data b idx = Ok b' ∧ base_sound data snap reg b' ∧ extends b b' ∧ Forall (filled b') idx.
Proof.
  induction idx as [|i idx IH]; intros b S F; cbn [build_blobs]; [by exists b|].
  apply Forall_cons in F as [Fi F]. destruct (build_blob_good data snap reg b i S Fi) as (b1 & -> & S1 & E1 & F1).
  cbn [mbind result_bind]. destruct (IH b1 S1 F) as (b2 & -> & S2 & E2 & F2).
  exists b2. split_and!; [done|done|by transitivity b1|]. constructor; [by eapply filled_extends|done].
Qed.

(** ** The codec's blobs are good *)

Section blobs.
Context (data : bytes) (snap : ForestSnapshot) (reg : list (NodeId * ScopeId)).
Context (F : snap_fit snap) (O : snap_sorted snap) (Hs : StronglySorted N.lt (snap_scopes snap).*1).
Context (Hn : N.of_nat (length data) <= 2 ^ 38).

Definition good_blob (b : Blob) : Prop := ∀ i, placed data b i → good data snap reg i.

Lemma placed_at b i : placed data b i → ∃ pre post,
  data = pre ++ blob_data b ++ post ∧ ix_offset i = length pre ∧ ix_length i = length (blob_data b) ∧
  N.of_nat (length (blob_data b)) < u64_limit.
Proof using Hn.
  intros [_ _ _ _ P5 (pre & post & P6 & P7)]. exists pre, post. split_and!; [done|done|done|].
  rewrite P6, !length_app in Hn. unfold u64_limit. lia.
Qed.

Lemma placed_scope b i s :
  placed data b i → properties b = scope_props s → s < u32_limit → blob_scope i = Ok s.
Proof using.
  intros [_ P _ _ _ _] E H. unfold blob_scope. rewrite P, E. unfold scope_props.
  rewrite lookup_singleton_eq. by rewrite parse_to_string.
Qed.

Lemma scope_pairs_in s ps : (s, ps) ∈ snap_scopes snap → scope_pairs snap s = ps.
Proof using Hs.
  intros H. unfold scope_pairs. erewrite elem_of_list_to_map_1; [done| |done]. by apply sorted_lt_nodup.
Qed.

Lemma scope_in s ps : (s, ps) ∈ snap_scopes snap →
  s < u32_limit ∧ pairs_fit ps ∧ StronglySorted N.lt ps.*1.
Proof using F O.
  intros H. destruct F as [_ F2], O as [_ O2]. rewrite Forall_forall in F2, O2.
  destruct (F2 _ H). by pose proof (O2 _ H).
Qed.

Lemma scope_pairs_sorted s : StronglySorted N.lt (scope_pairs snap s).*1.
Proof using O.
  unfold scope_pairs. destruct (_ !! s) as [ps|] eqn:E; cbn; [|constructor].
  apply elem_of_list_to_map_2 in E. destruct O as [_ O2]. rewrite Forall_forall in O2. by apply (O2 _ E).
Qed.

Lemma good_global_blob seq : good_blob (plain_blob seq GLOBAL_BLOB_TYPE (encode_pairs (snap_global snap))).
Proof using F O Hn.
  intros i P. rewrite encode_pairs_sorted in P by apply O.
  destruct (placed_at _ i P) as (pre & post & E & Eo & El & _). cbn [blob_data plain_blob] in *.
  destruct (stores_parse data (snap_global snap) pre post E (sf_global _ F)) as (t & Ht & St).
  apply good_global with t; [apply P| |done]. unfold open_pairs. by rewrite Eo, El, Ht.
Qed.

Lemma good_scope_blob seq s ps :
  (s, ps) ∈ snap_scopes snap → good_blob (scope_blob seq s (encode_pairs ps)).
Proof using F O Hs Hn.
  intros Hin i P. destruct (scope_in s ps Hin) as (H1 & H2 & H3). rewrite encode_pairs_sorted in P by done.
  destruct (placed_at _ i P) as (pre & post & E & Eo & El & _). cbn [blob_data scope_blob] in *.
  destruct (stores_parse data ps pre post E H2) as (t & Ht & St).
  apply good_scope with s t; [apply P|by eapply placed_scope| | |by rewrite (scope_pairs_in s ps)].
  - unfold open_pairs. by rewrite Eo, El, Ht.
  - by apply (list_elem_of_fmap_2 fst _ (s, ps)).
Qed.

Lemma good_registry_blob seq e :
  entries_ok reg → Forall good_blob (option_blob seq (encode_registry reg e)).
Proof using Hn.
  intros Ok. apply Forall_option_blob. intros ty d He i P.
  destruct (placed_at _ i P) as (pre & post & E & Eo & El & Hl). cbn [blob_data plain_blob] in *.
  pose proof (pl_type _ _ _ P) as Ty. cbn [blob_type plain_blob] in Ty. destruct e.
  - destruct (flat_registry_payload _ _ _ He Hl) as (-> & -> & Hb).
    destruct (flat_registry_serves _ pre post Ok Hb) as (t & Ht & St).
    apply good_flat with t; [done|by rewrite E, Eo, El|by rewrite E].
  - destruct (blocked_registry_serves _ _ _ pre post Ok He Hl) as (-> & t & Ht & St).
    apply good_blocked with t; [done| |by rewrite E]. unfold open_blocked. by rewrite E, Eo, El, Ht.
Qed.

(** A filter blob opens to its filter. *)
Lemma filter_blob_opens seq ty keys hint bits f i :
  build_filter keys hint bits = Some f → placed data (plain_blob seq ty (Filter.encode f)) i →
  ix_type i = ty ∧ open_filter data i = Ok f ∧ covers f (fun k => k ∈ keys).
Proof using Hn.
  intros Hb P. destruct (placed_at _ i P) as (pre & post & E & Eo & El & _). cbn [blob_data plain_blob] in *.
  destruct (filter_covers keys hint bits f data pre post Hb E Hn) as [Hd Hc].
  split_and!; [apply P| |done]. unfold open_filter. rewrite Eo, El, E, slice_at_app. by rewrite Hd.
Qed.

Lemma covers_sub f (P Q : N → Prop) : covers f P → (∀ k, Q k → P k) → covers f Q.
Proof using. intros [H1 H2] H. split; auto. Qed.

Lemma good_opt_filter seq ty o :
  (∀ f, o = Some f → good_blob (plain_blob seq ty (Filter.encode f))) →
  Forall good_blob (filter_blobs seq (opt_blob ty o)).
Proof using. destruct o as [f|]; intros H; [|constructor]. apply Forall_singleton. by apply H. Qed.

Lemma filter_blobs_app seq l l' : filter_blobs seq (l ++ l') = filter_blobs seq l ++ filter_blobs seq l'.
Proof using. apply fmap_app. Qed.

Lemma scope_pairs_elem s p : p ∈ scope_pairs snap s → (s, scope_pairs snap s) ∈ snap_scopes snap.
Proof using.
  unfold scope_pairs. destruct (_ !! s) as [ps|] eqn:E; cbn; [|by intros ?%not_elem_of_nil].
  intros _. by apply elem_of_list_to_map_2.
Qed.

Lemma good_table_filters seq (h1 h2 : nat) bits :
  Forall good_blob (filter_blobs seq
    (opt_blob SHARED_FILTER_BLOB_TYPE (build_filter (snap_global snap).*1 h1 bits) ++
     opt_blob OVERLAY_FILTER_BLOB_TYPE
       (build_filter (sp ← snap_scopes snap; overlay_key sp.1 <$> sp.2.*1) h2 bits))).
Proof using Hn.
  rewrite filter_blobs_app. apply Forall_app. split; apply good_opt_filter; intros f Hf i P;
    destruct (filter_blob_opens _ _ _ _ _ _ _ Hf P) as (Ty & Ho & Hc).
  - by apply good_shared_filter with f.
  - apply good_overlay_filter with f; [done|done|]. eapply covers_sub; [exact Hc|].
    intros k (s & x & Hx & ->). apply list_elem_of_fmap in Hx as (p & -> & Hp).
    apply list_elem_of_bind. exists (s, scope_pairs snap s). split; [|by eapply scope_pairs_elem].
    cbn [fst snd]. apply list_elem_of_fmap_2. by apply list_elem_of_fmap_2.
Qed.

(** ** Member blobs *)

Section members.
Context (seq : Z) (opts : WriteOptions).

(** What the member pass has accumulated after the scopes in [seen]. *)
Record acc_ok (seen : list (ScopeId * list (NodeId * NodeId))) (a : member_acc) : Prop := {
  ao_good : Forall good_blob (acc_blobs a);
  ao_shared p : is_parent (snap_global snap) p → p ∈ acc_shared a;
  ao_shared_blob : members_of (snap_global snap) ≠ [] →
    ∃ b, b ∈ acc_blobs a ∧ blob_type b = member_type (opt_members opts) Shared;
  ao_overlay s ps p : (s, ps) ∈ seen → is_parent ps p → ∃ l, (s, l) ∈ acc_overlay a ∧ p ∈ l;
  ao_overlay_blob s ps : (s, ps) ∈ seen → members_of ps ≠ [] →
    ∃ b, b ∈ acc_blobs a ∧ blob_type b = member_type (opt_members opts) Overlay ∧
      properties b = scope_props s;
}.

Lemma good_member_blob pairs t ty d ps props :
  encode_members (table pairs) (opt_members opts) t = Some (ty, d, ps) → pairs_fit pairs →
  match t with
  | Shared => pairs = snap_global snap
  | Overlay => ∃ s, props = scope_props s ∧ s < u32_limit ∧ scope_pairs snap s = pairs
  end →
  good_blob (mkBlob ty d props seq seq).
Proof using Hn.
  intros He Hf Ht i P. destruct (placed_at _ i P) as (pre & post & E & Eo & El & Hl). cbn [blob_data] in *.
  destruct (members_list pairs _ t ty d ps pre post Hf He Hl) as (m & Hm & Hlist).
  destruct (encode_members_kind _ _ _ _ _ _ Hf He) as [-> _].
  pose proof (pl_type _ _ _ P) as Ty. cbn [blob_type] in Ty. rewrite <-E, <-Eo, <-El in Hm. rewrite <-E in Hlist.
  destruct t; [subst pairs; by eapply good_shared_members|].
  destruct Ht as (s & Hp & Hs' & <-). eapply good_overlay_members; [done| |done|done].
  eapply placed_scope; [done|done|done].
Qed.

(** The shared table, which comes first. *)
Lemma shared_step_ok :
  acc_ok [] (snapshot_member_step seq opts (mkAcc [] [] [])
    (plain_blob seq GLOBAL_BLOB_TYPE (encode_pairs (snap_global snap)))).
Proof using F O Hn.
  unfold snapshot_member_step. rewrite bool_decide_eq_true_2 by done.
  cbn [blob_data plain_blob acc_blobs acc_shared acc_overlay]. rewrite encode_pairs_sorted by apply O.
  pose proof (sf_global _ F) as Fg.
  destruct (encode_members _ _ _) as [[[ty d] ps]|] eqn:E.
  - destruct (encode_members_kind _ _ _ _ _ _ Fg E) as [Ety ->].
    split; cbn [acc_blobs acc_shared acc_overlay app].
    + apply Forall_singleton. by eapply (good_member_blob _ Shared).
    + intros p Hp. apply elem_of_parents_of. by right.
    + intros _. eexists. split; [by apply list_elem_of_singleton|done].
    + by intros s ps p ?%not_elem_of_nil.
    + by intros s ps ?%not_elem_of_nil.
  - pose proof (encode_members_none _ _ _ Fg E) as E0.
    split; cbn [acc_blobs acc_shared acc_overlay app]; [constructor| |done|..].
    + intros p Hp. unfold is_parent in Hp. rewrite E0 in Hp. by apply not_elem_of_nil in Hp.
    + by intros s ps p ?%not_elem_of_nil.
    + by intros s ps ?%not_elem_of_nil.
Qed.

Lemma scope_step_ok seen a s ps :
  acc_ok seen a → (s, ps) ∈ snap_scopes snap →
  acc_ok (seen ++ [(s, ps)]) (snapshot_member_step seq opts a (scope_blob seq s (encode_pairs ps))).
Proof using F O Hs Hn.
  intros [A1 A2 A3 A4 A5] Hin. destruct (scope_in s ps Hin) as (H1 & H2 & H3).
  unfold snapshot_member_step. rewrite bool_decide_eq_false_2, bool_decide_eq_true_2 by (by vm_compute).
  cbn [blob_data]. rewrite encode_pairs_sorted by done.
  change (properties (scope_blob seq s (table ps))) with (scope_props s).
  change (blob_data (scope_blob seq s (table ps))) with (table ps).
  rewrite scope_of_blob by done.
  destruct (encode_members _ _ _) as [[[ty d] l]|] eqn:E.
  - destruct (encode_members_kind _ _ _ _ _ _ H2 E) as [Ety ->].
    split; cbn [acc_blobs acc_shared acc_overlay].
    + apply Forall_app. split; [done|]. apply Forall_singleton. eapply (good_member_blob ps Overlay); [done|done|].
      exists s. split_and!; [done|done|]. by apply scope_pairs_in.
    + done.
    + intros Hm. destruct (A3 Hm) as (b & Hb & Ht). exists b. split; [set_solver|done].
    + intros s' ps' p [Hold|Hnew%list_elem_of_singleton]%elem_of_app Hp.
      * destruct (A4 s' ps' p Hold Hp) as (l & Hl & Hpl). exists l. set_solver.
      * simplify_eq. eexists. split; [apply elem_of_app; right; by apply list_elem_of_singleton|].
        apply elem_of_parents_of. by right.
    + intros s' ps' [Hold|Hnew%list_elem_of_singleton]%elem_of_app Hm.
      * destruct (A5 s' ps' Hold Hm) as (b & Hb & Ht). exists b. set_solver.
      * simplify_eq. eexists. split; [apply elem_of_app; right; by apply list_elem_of_singleton|]. done.
  - pose proof (encode_members_none _ _ _ H2 E) as E0. split; [done|done|done| |].
    + intros s' ps' p [Hold|Hnew%list_elem_of_singleton]%elem_of_app Hp; [by eapply A4|].
      simplify_eq. unfold is_parent in Hp. rewrite E0 in Hp. by apply not_elem_of_nil in Hp.
    + intros s' ps' [Hold|Hnew%list_elem_of_singleton]%elem_of_app Hm; [by eapply A5|]. simplify_eq.
Qed.

Lemma scope_steps_ok scopes : ∀ seen a,
  acc_ok seen a → scopes ⊆ snap_scopes snap →
  acc_ok (seen ++ scopes) (foldl (snapshot_member_step seq opts) a
    ((fun sp => scope_blob seq sp.1 (encode_pairs sp.2)) <$> scopes)).
Proof using F O Hs Hn.
  induction scopes as [|[s ps] scopes IH]; intros seen a A Hsub; [by rewrite app_nil_r|].
  rewrite fmap_cons. cbn [foldl fst snd]. rewrite cons_middle, app_assoc. apply IH; [|set_solver].
  apply scope_step_ok; [done|set_solver].
Qed.

Lemma inert_steps blobs : ∀ a, Forall inert_blob blobs → foldl (snapshot_member_step seq opts) a blobs = a.
Proof using.
  induction blobs as [|b blobs IH]; intros a H; [done|]. apply Forall_cons in H as [[H1 H2] H].
  cbn [foldl]. unfold snapshot_member_step at 2. rewrite !bool_decide_eq_false_2 by done. by apply IH.
Qed.

Lemma good_member_filters a bits :
  acc_ok (snap_scopes snap) a →
  Forall good_blob (filter_blobs seq (member_filters (acc_shared a) (acc_overlay a) bits)).
Proof using Hn.
  intros A. unfold member_filters. rewrite filter_blobs_app. apply Forall_app.
  split; apply good_opt_filter; intros f Hf i P; destruct (filter_blob_opens _ _ _ _ _ _ _ Hf P) as (Ty & Ho & Hc).
  - apply good_shared_members_filter with f; [done|done|]. eapply covers_sub; [exact Hc|apply A].
  - apply good_overlay_members_filter with f; [done|done|]. eapply covers_sub; [exact Hc|].
    intros k (s & x & Hx & ->). assert ((s, scope_pairs snap s) ∈ snap_scopes snap) as Hin.
    { apply list_elem_of_fmap in Hx as ([p c] & _ & [Hp _]%elem_of_members_of). by eapply scope_pairs_elem. }
    destruct (ao_overlay _ _ A _ _ _ Hin Hx) as (l & Hl & Hxl). apply list_elem_of_bind.
    exists (s, l). split; [|done]. by apply list_elem_of_fmap_2.
Qed.
End members.

(** ** All of a run's blobs *)

(** How the scopes of a root are found: from the registry blob; or there are no
    scopes; or the registry is what the tables say, and can be rebuilt. *)
Definition carries_registry (blobs : list Blob) : Prop :=
  ∃ b, b ∈ blobs ∧ (blob_type b = FLAT_BLOB_TYPE ∨ blob_type b = BLOCKED_BLOB_TYPE).

Definition registry_known (blobs : list Blob) : Prop :=
  carries_registry blobs ∨
  (snap_scopes snap = [] ∧ reg = []) ∨ reg = registry_from_snapshot snap.

Record written (indexed : bool) (opts : WriteOptions) (blobs : list Blob) : Prop := {
  wr_good : Forall good_blob blobs;
  wr_global : ∃ b, b ∈ blobs ∧ blob_type b = GLOBAL_BLOB_TYPE;
  wr_scope s : s ∈ (snap_scopes snap).*1 →
    ∃ b, b ∈ blobs ∧ blob_type b = SCOPE_BLOB_TYPE ∧ properties b = scope_props s;
  wr_shared_members : indexed = true → members_of (snap_global snap) ≠ [] →
    ∃ b, b ∈ blobs ∧ blob_type b = member_type (opt_members opts) Shared;
  wr_overlay_members s : indexed = true → members_of (scope_pairs snap s) ≠ [] →
    ∃ b, b ∈ blobs ∧ blob_type b = member_type (opt_members opts) Overlay ∧ properties b = scope_props s;
}.

(** Adding the member pass. *)
Lemma written_members seq opts blobs a bits :
  written false opts blobs → acc_ok opts (snap_scopes snap) a →
  written true opts (blobs ++ acc_blobs a ++
    filter_blobs seq (member_filters (acc_shared a) (acc_overlay a) bits)).
Proof using Hn.
  intros [W1 W2 W3 _ _] A. split.
  - apply Forall_app. split; [done|]. apply Forall_app. split; [apply A|]. by apply (good_member_filters seq opts).
  - destruct W2 as (b & ? & ?). exists b. split; [apply elem_of_app; by left|done].
  - intros s Hin. destruct (W3 s Hin) as (b & ? & ?). exists b. split; [apply elem_of_app; by left|done].
  - intros _ Hm. destruct (ao_shared_blob _ _ _ A Hm) as (b & ? & ?). exists b.
    split; [apply elem_of_app; right; apply elem_of_app; by left|done].
  - intros s _ Hm. assert ((s, scope_pairs snap s) ∈ snap_scopes snap) as Hin.
    { destruct (members_of (scope_pairs snap s)) as [|[p c] l] eqn:E; [done|].
      assert ((p, c) ∈ members_of (scope_pairs snap s)) as [Hp _]%elem_of_members_of by (rewrite E; left).
      by eapply scope_pairs_elem. }
    destruct (ao_overlay_blob _ _ _ A _ _ Hin Hm) as (b & ? & ?). exists b.
    split; [apply elem_of_app; right; apply elem_of_app; by left|done].
Qed.

Context (Hreg : entries_ok reg).

(** The blobs that do not depend on the member index. *)
Lemma base_blobs_written seq opts (h1 h2 : nat) :
  written false opts
    ([plain_blob seq GLOBAL_BLOB_TYPE (encode_pairs (snap_global snap))] ++
     ((fun sp => scope_blob seq sp.1 (encode_pairs sp.2)) <$> snap_scopes snap) ++
     option_blob seq (encode_registry reg (opt_registry opts)) ++
     filter_blobs seq
       (opt_blob SHARED_FILTER_BLOB_TYPE (build_filter (snap_global snap).*1 h1 (filter_bits opts)) ++
        opt_blob OVERLAY_FILTER_BLOB_TYPE
          (build_filter (sp ← snap_scopes snap; overlay_key sp.1 <$> sp.2.*1) h2 (filter_bits opts)))).
Proof using F O Hs Hn Hreg.
  split; try done.
  - repeat (apply Forall_app; split).
    + apply Forall_singleton, good_global_blob.
    + apply Forall_fmap, Forall_forall. intros [s ps] Hin. by apply good_scope_blob.
    + by apply good_registry_blob.
    + apply good_table_filters.
  - eexists. split; [by left|done].
  - intros s ([s' ps] & -> & Hin)%list_elem_of_fmap. exists (scope_blob seq s' (encode_pairs ps)).
    split; [|done]. apply elem_of_app. right. apply elem_of_app. left.
    by apply (list_elem_of_fmap_2 (fun sp => scope_blob seq sp.1 (encode_pairs sp.2)) _ (s', ps)).
Qed.

Lemma run_blobs_written seq opts :
  written (opt_member_index opts) opts (run_blobs snap reg seq opts).
Proof using F O Hs Hn Hreg.
  unfold run_blobs.
  match goal with |- written _ _ (if _ then _ else ?l) => set (blobs := l) end.
  assert (written false opts blobs) as W by apply base_blobs_written.
  destruct (opt_member_index opts); [|done]. apply written_members; [done|].
  unfold blobs. rewrite !foldl_app. cbn [foldl].
  rewrite (inert_steps seq opts (filter_blobs _ _)), inert_steps;
    [|apply registry_inert|apply filters_inert, table_filters_inert].
  apply (scope_steps_ok seq opts (snap_scopes snap) []); [by apply shared_step_ok|done].
Qed.

(** Runs written before the optional blobs existed: any of them can be missing. *)
Lemma optional_blobs_written seq opts (keep : Blob → Prop) `{∀ b, Decision (keep b)} :
  (∀ b, ¬ keep b → inert_blob b) →
  written false opts (filter keep (run_blobs snap reg seq opts)).
Proof using F O Hs Hn Hreg.
  intros Hk. destruct (run_blobs_written seq opts) as [W1 W2 W3 _ _]. split; try done.
  - apply Forall_forall. intros b [_ Hb]%list_elem_of_filter. rewrite Forall_forall in W1. by apply W1.
  - destruct W2 as (b & Hb & Ty). exists b. split; [|done]. apply list_elem_of_filter. split; [|done].
    destruct (decide (keep b)) as [|Hd]; [done|]. by destruct (Hk b Hd).
  - intros s Hin. destruct (W3 s Hin) as (b & Hb & Ty & Hp). exists b. split; [|done].
    apply list_elem_of_filter. split; [|done].
    destruct (decide (keep b)) as [|Hd]; [done|]. by destruct (Hk b Hd).
Qed.

(** A run that carries its registry. *)
Lemma run_blobs_carries seq opts :
  N.of_nat (length reg) < u64_limit → carries_registry (run_blobs snap reg seq opts) ∨ reg = [].
Proof using Hreg.
  intros Hl. destruct (encode_registry reg (opt_registry opts)) as [[ty d]|] eqn:E.
  - left. exists (plain_blob seq ty d). split; [|by eapply encode_registry_type].
    unfold run_blobs. rewrite E. cbn [option_blob].
    assert (∀ l : list Blob, plain_blob seq ty d ∈ ([plain_blob seq GLOBAL_BLOB_TYPE (encode_pairs (snap_global snap))] ++
      ((fun sp => scope_blob seq sp.1 (encode_pairs sp.2)) <$> snap_scopes snap) ++ [plain_blob seq ty d] ++ l)) as Hin.
    { intros l. apply elem_of_app. right. apply elem_of_app. right. by left. }
    destruct (opt_member_index opts); [apply elem_of_app; left|]; apply Hin.
  - apply encode_registry_none in E; [by right|done|done].
Qed.

Lemma run_blobs_registry seq opts :
  N.of_nat (length reg) < u64_limit → (reg = [] → snap_scopes snap = []) →
  registry_known (run_blobs snap reg seq opts).
Proof using Hreg.
  intros Hl He. destruct (run_blobs_carries seq opts Hl) as [H|H]; [by left|]. right. left. auto.
Qed.
End blobs.

Lemma registry_entries_ok snap :
  snap_fit snap → snap_sorted snap → entries_ok (registry_from_snapshot snap).
Proof.
  intros F O.
  assert (Forall (fun e => e.1 < u64_limit ∧ e.2 < u32_limit) (registry_from_snapshot snap)) as H.
  { apply Forall_forall. intros [r s] Hin.
    apply elem_of_snapshot_registry in Hin; [|apply sorted_lt_nodup, O].
    destruct Hin as (ps & a & b & Hsp & Hab & Hr). destruct (scope_in snap F O s ps Hsp) as (H1 & [H2 _] & _).
    split; [|done]. rewrite Forall_forall in H2. destruct (H2 _ Hab) as [Ha Hb].
    assert (∀ x, x < u64_limit → pairs_root (snap_global snap) x < u64_limit) as Hroot.
    { intros x Hx. unfold pairs_root. destruct (_ !! x) as [y|] eqn:E; [|done]. cbn.
      apply elem_of_list_to_map_2 in E. pose proof (pf_small _ (sf_global _ F)) as Fs.
      rewrite Forall_forall in Fs. by destruct (Fs _ E). }
    destruct Hr as [->| ->]; by apply Hroot. }
  split; [|by apply Forall_and in H as []..].
  unfold registry_from_snapshot in *. match goal with |- context [sort_pairs ?l] => set (out := l) end.
  destruct (dedup_sorted_nodup (sort_pairs out)) as [Hso _]; [apply StronglySorted_merge_sort; apply _|].
  by apply pair_le_fst_sorted.
Qed.

