(* ===== verification/PuffinServe.v ===== *)
(** What an opened run answers: a base whose filled slots are sound and complete for
    a snapshot serves exactly the snapshot, and opening good blobs gives such a
    base, rebuilding the registry when its blob is missing. *)

From S2P Require Import Prelude Types Bytes Filter Varint Blocked BlockedRead Registry MemberIndex Decimal.
From S2P Require Import Graph Dsu View RoutingBase Forest ForestInv Compaction CompactionInv FoldInv ForestProps Codec CodecInv CodecProps.
From S2P Require Import PairTable PairTableInv Puffin PuffinBase PuffinSample PuffinBlobs PuffinBaseInv.

(** ** Answers of an opened base *)

Section answers.
Context (data : bytes) (snap : ForestSnapshot) (reg : list (NodeId * ScopeId)).

Record answers (b : PuffinBase) : Prop := {
  an_shared x : pb_shared_parent data b x = Some ((list_to_map (snap_global snap) : gmap NodeId NodeId) !! x);
  an_overlay s x :
    pb_overlay_parent data b s x = Some ((list_to_map (scope_pairs snap s) : gmap NodeId NodeId) !! x);
  an_registry r : ∃ l, pb_scopes_for_root data b r = Some l ∧ ∀ s, s ∈ l ↔ (r, s) ∈ reg;
  an_iter : is_Some (pb_registry b) ∨ reg = [] → ∃ l, pb_registry_iter data b = Some l ∧ (l = reg ∨ l = dedup reg);
  an_scopes : pb_scopes b = (snap_scopes snap).*1;
  an_shared_pairs reader reopened : pb_shared_pairs reader reopened data b = Some (snap_global snap);
  an_overlay_pairs reader reopened s : pb_overlay_pairs reader reopened data b s = Some (scope_pairs snap s);
  an_shared_len : pb_shared_len b = length (snap_global snap);
  an_shared_at i kv : snap_global snap !! i = Some kv → pb_shared_pair_at data b i = Some kv;
  an_overlay_len s : pb_overlay_len b s = length (scope_pairs snap s);
  an_overlay_at s i kv : scope_pairs snap s !! i = Some kv → pb_overlay_pair_at data b s i = Some kv;
  an_shared_children p limit : is_Some (pb_shared_children data b p limit);
  an_overlay_children s p limit : is_Some (pb_overlay_children data b s p limit);
}.

(** The member index, when the run carries one. *)
Record answers_children (b : PuffinBase) : Prop := {
  ac_shared p limit :
    pb_shared_children data b p limit = Some (take limit (vals_of (members_of (snap_global snap)) p));
  ac_overlay s p limit :
    pb_overlay_children data b s p limit = Some (take limit (vals_of (members_of (scope_pairs snap s)) p));
}.

Context (F : snap_fit snap) (O : snap_sorted snap) (Hs : StronglySorted N.lt (snap_scopes snap).*1).

(** Every slot the snapshot needs is filled. *)
Record complete (indexed : bool) (b : PuffinBase) : Prop := {
  co_shared : is_Some (pb_shared b);
  co_overlays s : s ∈ (snap_scopes snap).*1 → is_Some (pb_overlays b !! s);
  co_shared_members : indexed = true → members_of (snap_global snap) ≠ [] → is_Some (pb_shared_members b);
  co_overlay_members s : indexed = true → members_of (scope_pairs snap s) ≠ [] →
    is_Some (pb_overlay_members b !! s);
}.

Lemma covers_reject o keys k :
  (∀ f, o = Some f → covers f keys) → ∃ r, filter_rejects o k = Some r ∧ (r = true → ¬ keys k).
Proof using.
  intros H. destruct o as [f|]; [|by exists false]. destruct (H f eq_refl) as [Ht Hk].
  destruct (Ht k) as [m Hm]. exists (negb m). cbn. rewrite Hm. split; [done|].
  intros E Hin. rewrite (Hk k Hin) in Hm. by simplify_eq.
Qed.

Lemma scope_pairs_absent s : s ∉ (snap_scopes snap).*1 → scope_pairs snap s = [].
Proof using. intros H. unfold scope_pairs. by rewrite not_elem_of_list_to_map_1. Qed.

Lemma vals_of_nonparent pairs p : ¬ is_parent pairs p → vals_of (members_of pairs) p = [].
Proof using.
  intros H. apply vals_of_none. intros q Hq <-. apply H. by apply list_elem_of_fmap_2.
Qed.

Section complete.
Context (indexed : bool) (b : PuffinBase) (S : base_sound data snap reg b) (C : complete indexed b).
Context (R : reg ≠ [] → is_Some (pb_registry b) ∨ is_Some (pb_fallback b)).

Lemma sound_shared_parent x :
  pb_shared_parent data b x = Some ((list_to_map (snap_global snap) : gmap NodeId NodeId) !! x).
Proof using O S C.
  unfold pb_shared_parent. destruct (covers_reject _ _ x (bo_shared_filter _ _ _ _ S)) as (r & -> & Hr).
  cbn [mbind option_bind]. destruct r.
  - f_equal. symmetry. apply not_elem_of_list_to_map_1. by apply Hr.
  - destruct (co_shared _ _ C) as [t Ht]. rewrite Ht. apply stores_lookup; [by apply S|apply O].
Qed.

Lemma sound_overlay_parent s x :
  pb_overlay_parent data b s x = Some ((list_to_map (scope_pairs snap s) : gmap NodeId NodeId) !! x).
Proof using O S C.
  unfold pb_overlay_parent.
  destruct (covers_reject _ _ (overlay_key s x) (bo_overlay_filter _ _ _ _ S)) as (r & -> & Hr).
  cbn [mbind option_bind]. destruct r.
  - f_equal. symmetry. apply not_elem_of_list_to_map_1. intros Hin. apply Hr; [done|]. by exists s, x.
  - destruct (pb_overlays b !! s) as [t|] eqn:E.
    + apply stores_lookup; [by apply (bo_overlays _ _ _ _ S)|by apply scope_pairs_sorted].
    + rewrite scope_pairs_absent; [done|]. intros Hin. destruct (co_overlays _ _ C s Hin). congruence.
Qed.

Lemma sound_registry r :
  ∃ l, pb_scopes_for_root data b r = Some l ∧ ∀ s, s ∈ l ↔ (r, s) ∈ reg.
Proof using S R.
  unfold pb_scopes_for_root. destruct (pb_registry b) as [rt|] eqn:E; [by apply (sv_root _ _ _ (bo_registry _ _ _ _ S rt E))|].
  eexists. split; [done|]. intros s. destruct (pb_fallback b) as [m|] eqn:Ef; cbn [mbind option_bind].
  - by apply (bo_fallback _ _ _ _ S).
  - cbn. destruct (reg) eqn:Er; [by rewrite !elem_of_nil|].
    destruct R as [[? ?]|[? ?]]; done.
Qed.

Lemma sound_iter :
  is_Some (pb_registry b) ∨ reg = [] → ∃ l, pb_registry_iter data b = Some l ∧ (l = reg ∨ l = dedup reg).
Proof using S.
  clear R. unfold pb_registry_iter. destruct (pb_registry b) as [rt|] eqn:E.
  - intros _. destruct (sv_iter _ _ _ (bo_registry _ _ _ _ S rt E)) as (l & Hl & H). exists l. split; [|done].
    by destruct rt.
  - intros [[? ?]|Hr]; [done|]. exists []. split; [done|]. by left.
Qed.

Lemma sound_scopes : pb_scopes b = (snap_scopes snap).*1.
Proof using Hs S C.
  apply sorted_lt_ext; [apply sorted_keys_sorted|done|]. intros s. unfold pb_scopes. rewrite elem_of_sorted_keys.
  split; [intros [t Ht]; by eapply (bo_overlays _ _ _ _ S)|apply (co_overlays _ _ C)].
Qed.

Lemma sound_overlay_pairs reader reopened s :
  pb_overlay_pairs reader reopened data b s = Some (scope_pairs snap s).
Proof using S C.
  unfold pb_overlay_pairs. destruct (pb_overlays b !! s) as [t|] eqn:E.
  - apply stores_scan. by apply (bo_overlays _ _ _ _ S).
  - rewrite scope_pairs_absent; [done|]. intros Hin. destruct (co_overlays _ _ C s Hin). congruence.
Qed.

Lemma sound_overlay_table s :
  pb_overlay_len b s = length (scope_pairs snap s) ∧
  ∀ i kv, scope_pairs snap s !! i = Some kv → pb_overlay_pair_at data b s i = Some kv.
Proof using S C.
  unfold pb_overlay_len, pb_overlay_pair_at. destruct (pb_overlays b !! s) as [t|] eqn:E.
  - destruct (bo_overlays _ _ _ _ S s t E) as [_ St]. split; [apply St|].
    intros i kv Hi. cbn [mbind option_bind]. by eapply stores_pair_at.
  - rewrite scope_pairs_absent; [done|]. intros Hin. destruct (co_overlays _ _ C s Hin). congruence.
Qed.

Lemma sound_shared_children p limit :
  is_Some (pb_shared_children data b p limit) ∧
  (indexed = true → pb_shared_children data b p limit =
     Some (take limit (vals_of (members_of (snap_global snap)) p))).
Proof using S C.
  unfold pb_shared_children. destruct (covers_reject _ _ p (bo_shared_members_filter _ _ _ _ S)) as (r & -> & Hr).
  cbn [mbind option_bind]. destruct r.
  - split; [by eexists|]. intros _. by rewrite vals_of_nonparent, take_nil by (by apply Hr).
  - destruct (pb_shared_members b) as [m|] eqn:E; [rewrite (bo_shared_members _ _ _ _ S m E); by eauto|].
    split; [by eexists|]. intros Hi. destruct (members_of (snap_global snap)) eqn:Em; [f_equal; symmetry; apply take_nil|].
    destruct (co_shared_members _ _ C Hi) as [m Hm]; [by rewrite Em|]. congruence.
Qed.

Lemma sound_overlay_children s p limit :
  is_Some (pb_overlay_children data b s p limit) ∧
  (indexed = true → pb_overlay_children data b s p limit =
     Some (take limit (vals_of (members_of (scope_pairs snap s)) p))).
Proof using S C.
  unfold pb_overlay_children.
  destruct (covers_reject _ _ (overlay_key s p) (bo_overlay_members_filter _ _ _ _ S)) as (r & -> & Hr).
  cbn [mbind option_bind]. destruct r.
  - split; [by eexists|]. intros _. rewrite vals_of_nonparent, take_nil; [done|].
    intros Hp. apply Hr; [done|]. by exists s, p.
  - destruct (pb_overlay_members b !! s) as [m|] eqn:E; [rewrite (bo_overlay_members _ _ _ _ S s m E); by eauto|].
    split; [by eexists|]. intros Hi. destruct (members_of (scope_pairs snap s)) eqn:Em; [f_equal; symmetry; apply take_nil|].
    destruct (co_overlay_members _ _ C s Hi) as [m Hm]; [by rewrite Em|]. congruence.
Qed.

Lemma sound_answers : answers b.
Proof using O Hs S C R.
  split; intros.
  - apply sound_shared_parent.
  - apply sound_overlay_parent.
  - apply sound_registry.
  - by apply sound_iter.
  - apply sound_scopes.
  - unfold pb_shared_pairs. destruct (co_shared _ _ C) as [t Ht]. rewrite Ht. by apply stores_scan, S.
  - apply sound_overlay_pairs.
  - unfold pb_shared_len. destruct (co_shared _ _ C) as [t Ht]. rewrite Ht. by apply S.
  - unfold pb_shared_pair_at. destruct (co_shared _ _ C) as [t Ht]. rewrite Ht.
    cbn [mbind option_bind]. eapply stores_pair_at; [by apply S|done].
  - by apply sound_overlay_table.
  - by apply sound_overlay_table.
  - apply sound_shared_children.
  - apply sound_overlay_children.
Qed.

Lemma sound_answers_children : indexed = true → answers_children b.
Proof using S C.
  intros Hi. split; intros; [by apply sound_shared_children|by apply sound_overlay_children].
Qed.
End complete.

(** ** Opening *)

Lemma placed_elem blobs idx bl :
  Forall2 (placed data) blobs idx → bl ∈ blobs → ∃ i, i ∈ idx ∧ placed data bl i.
Proof using.
  intros H2 [k Hk]%list_elem_of_lookup_1. destruct (Forall2_lookup_l _ _ _ _ _ H2 Hk) as (i & Hi & P).
  exists i. split; [by eapply list_elem_of_lookup_2|done].
Qed.

Lemma empty_sound : base_sound data snap reg base_empty.
Proof using. by split. Qed.

(** Opening fills every slot of the run. *)
Lemma build_blobs_complete indexed opts blobs idx :
  written data snap reg indexed opts blobs → Forall2 (placed data) blobs idx →
  ∃ b, build_blobs data base_empty idx = Ok b ∧ base_sound data snap reg b ∧ complete indexed b ∧
    ∀ bl, bl ∈ blobs ∧ (blob_type bl = FLAT_BLOB_TYPE ∨ blob_type bl = BLOCKED_BLOB_TYPE) → pb_registry b ≠ None.
Proof using F O.
  intros [W1 W2 W3 W5 W6] P. assert (Forall (good data snap reg) idx) as G.
  { apply Forall_forall. intros i [k Hk]%list_elem_of_lookup_1.
    destruct (Forall2_lookup_r _ _ _ _ _ P Hk) as (bl & Hbl & Pb).
    rewrite Forall_forall in W1. apply (W1 bl); [by eapply list_elem_of_lookup_2|done]. }
  destruct (build_blobs_good data snap reg idx base_empty empty_sound G) as (b & E & S & _ & Fl).
  exists b. split; [done|]. split; [done|].
  assert (∀ bl, bl ∈ blobs → ∃ i, placed data bl i ∧ filled b i ∧ ix_type i = blob_type bl) as Hf.
  { intros bl Hbl. destruct (placed_elem _ _ _ P Hbl) as (i & Hi & Pi). exists i.
    rewrite Forall_forall in Fl. split_and!; [done|by apply Fl|apply Pi]. }
  assert (∀ s, s ∈ (snap_scopes snap).*1 → s < u32_limit) as Hu.
  { intros s ([s' ps] & -> & Hin)%list_elem_of_fmap. by apply (scope_in snap F O s' ps). }
  split; [|intros bl [Hbl Ty]; destruct (Hf bl Hbl) as (i & _ & Fi & Ei); rewrite <-Ei in Ty;
    by destruct (fi_registry _ _ Fi Ty) as [? ->]].
  split.
  - destruct W2 as (bl & Hbl & Ty). destruct (Hf bl Hbl) as (i & _ & Fi & Ei). apply (fi_shared _ _ Fi). congruence.
  - intros s Hin. destruct (W3 s Hin) as (bl & Hbl & Ty & Hp). destruct (Hf bl Hbl) as (i & Pi & Fi & Ei).
    apply (fi_overlay _ _ Fi s); [congruence|]. eapply placed_scope; [done|done|auto].
  - intros Hi Hm. destruct (W5 Hi Hm) as (bl & Hbl & Ty). destruct (Hf bl Hbl) as (i & _ & Fi & Ei).
    apply (fi_shared_members _ _ Fi (opt_members opts)). congruence.
  - intros s Hi Hm. destruct (W6 s Hi Hm) as (bl & Hbl & Ty & Hp). destruct (Hf bl Hbl) as (i & Pi & Fi & Ei).
    apply (fi_overlay_members _ _ Fi (opt_members opts) s); [congruence|].
    eapply placed_scope; [done|done|]. apply Hu.
    destruct (members_of (scope_pairs snap s)) as [|[p c] l] eqn:Em; [done|].
    assert ((p, c) ∈ members_of (scope_pairs snap s)) as [Hpc _]%elem_of_members_of by (rewrite Em; left).
    by apply (list_elem_of_fmap_2 fst _ (s, scope_pairs snap s)), (scope_pairs_elem snap s (c, p)).
Qed.

(** ** The rebuilt registry *)

Section fallback.
Context (indexed : bool) (b : PuffinBase) (S : base_sound data snap reg b) (C : complete indexed b).

Definition entry_of (m : gmap NodeId (list ScopeId)) (r : NodeId) : list ScopeId := default [] (m !! r).

Lemma fallback_add_spec scope m member :
  ∃ m', fallback_add data b scope (Some m) member = Some m' ∧
    ∀ r s, s ∈ entry_of m' r ↔ s ∈ entry_of m r ∨ (s = scope ∧ r = pairs_root (snap_global snap) member).
Proof using F O Hs S C.
  unfold fallback_add. cbn [mbind option_bind]. rewrite (sound_shared_parent indexed b S C).
  cbn [mbind option_bind]. fold (pairs_root (snap_global snap) member).
  set (live := pairs_root (snap_global snap) member). eexists. split; [done|]. intros r s. unfold entry_of.
  destruct (decide (r = live)) as [->|Hne].
  - rewrite lookup_insert_eq. cbn [from_option id]. case_bool_decide; set_solver.
  - rewrite lookup_insert_ne by done. naive_solver.
Qed.

Lemma fallback_members scope ms : ∀ m,
  ∃ m', foldl (fallback_add data b scope) (Some m) ms = Some m' ∧
    ∀ r s, s ∈ entry_of m' r ↔
      s ∈ entry_of m r ∨ (s = scope ∧ ∃ x, x ∈ ms ∧ r = pairs_root (snap_global snap) x).
Proof using F O Hs S C.
  induction ms as [|x ms IH]; intros m; cbn [foldl]; [exists m; set_solver|].
  destruct (fallback_add_spec scope m x) as (m1 & -> & H1). destruct (IH m1) as (m2 & -> & H2).
  exists m2. split; [done|]. intros r s. rewrite H2, H1. set_solver.
Qed.

Lemma fallback_scopes scopes : ∀ m,
  scopes ⊆ (snap_scopes snap).*1 →
  ∃ m', foldl (fun out scope =>
      match (t ← pb_overlays b !! scope; pair_for_each t data) with
      | None => None
      | Some pairs => foldl (fallback_add data b scope) out (p ← pairs; [p.1; p.2])
      end) (Some m) scopes = Some m' ∧
    ∀ r s, s ∈ entry_of m' r ↔ s ∈ entry_of m r ∨
      (s ∈ scopes ∧ ∃ p, p ∈ scope_pairs snap s ∧
         (r = pairs_root (snap_global snap) p.1 ∨ r = pairs_root (snap_global snap) p.2)).
Proof using F O Hs S C.
  induction scopes as [|sc scopes IH]; intros m Hsub; cbn [foldl]; [exists m; set_solver|].
  destruct (co_overlays _ _ C sc) as [t Ht]; [set_solver|]. rewrite Ht. cbn [mbind option_bind].
  destruct (bo_overlays _ _ _ _ S sc t Ht) as [_ St]. rewrite (stores_for_each _ _ _ St).
  destruct (fallback_members sc (p ← scope_pairs snap sc; [p.1; p.2]) m) as (m1 & -> & H1).
  destruct (IH m1) as (m2 & -> & H2); [set_solver|]. exists m2. split; [done|]. intros r s.
  rewrite H2, H1. setoid_rewrite list_elem_of_bind.
  assert (∀ x, (∃ p, x ∈ [p.1; p.2] ∧ p ∈ scope_pairs snap sc) ↔
    ∃ p, p ∈ scope_pairs snap sc ∧ (x = p.1 ∨ x = p.2)) as Hx by set_solver.
  setoid_rewrite Hx. rewrite elem_of_cons. split.
  - intros [[?|[-> (x & (p & Hp & Hxp) & ->)]]|[? Hr]]; [by left| |by auto].
    right. split; [by left|]. exists p. split; [done|]. by destruct Hxp as [->| ->]; [left|right].
  - intros [?|[[->|?] (p & Hp & Hr)]]; [by left; left| |right; eauto].
    left. right. split; [done|]. destruct Hr as [->| ->]; [exists p.1|exists p.2]; eauto.
Qed.

(** The registry rebuilt in memory has the entries the blob would have had. *)
Lemma fallback_registry_spec :
  ∃ m, build_fallback_registry data b = Some m ∧
    ∀ r s, s ∈ default [] (m !! r) ↔ (r, s) ∈ registry_from_snapshot snap.
Proof using F O Hs S C.
  destruct (fallback_scopes (pb_scopes b) ∅) as (m & E & Hm).
  { rewrite (sound_scopes indexed b S C). done. }
  exists m. split; [exact E|]. intros r s. specialize (Hm r s). unfold entry_of in Hm. rewrite Hm.
  rewrite lookup_empty, (sound_scopes indexed b S C). cbn [from_option].
  rewrite elem_of_snapshot_registry by (apply sorted_lt_nodup, O). split.
  - intros [?%not_elem_of_nil|(_ & [p c] & Hp & Hr)]; [done|].
    exists (scope_pairs snap s), p, c. split_and!; [by eapply scope_pairs_elem|done|done].
  - intros (ps & p & c & Hin & Hpc & Hr). right. rewrite (scope_pairs_in snap Hs s ps Hin).
    split; [by apply (list_elem_of_fmap_2 fst _ (s, ps))|]. by exists (p, c).
Qed.
End fallback.

(** Building the indexes keeps a base sound and complete. *)
Lemma indexes_complete indexed b :
  base_sound data snap reg b → complete indexed b →
  ∃ b', build_indexes data b = Ok b' ∧ base_sound data snap reg b' ∧ complete indexed b' ∧
    pb_registry b' = pb_registry b ∧ pb_fallback b' = pb_fallback b.
Proof using.
  intros S C.
  destruct (build_indexes_spec data b (snap_global snap) (scope_pairs snap)) as (sh & ov & Ei & I1 & I2 & I3 & I4).
  { apply S. }
  { intros s t Ht. by apply (bo_overlays _ _ _ _ S). }
  exists (with_tables b sh ov). split; [done|].
  destruct S as [S1 S2 S3 S4 S5 S6 S7 S8 S9 S10], C as [C1 C2 C4 C5]. split_and!; [split|split|..]; cbn; try done.
  - intros s t Ht. split; [|by apply I3]. destruct (I4 s) as [[t' Ht'] _]; [by eexists|]. by eapply S2.
  - by apply I2.
  - intros s Hin. apply I4. auto.
Qed.

Lemma no_scopes_no_registry indexed b :
  complete indexed b → pb_overlays b = ∅ → registry_from_snapshot snap = [].
Proof using O.
  intros C E. destruct (registry_from_snapshot snap) as [|[r s] l] eqn:Er; [done|].
  assert ((r, s) ∈ registry_from_snapshot snap) as Hin by (rewrite Er; left).
  apply elem_of_snapshot_registry in Hin as (ps & a & c & Hin & _); [|apply sorted_lt_nodup, O].
  destruct (co_overlays _ _ C s) as [t Ht]; [by apply (list_elem_of_fmap_2 fst _ (s, ps))|].
  by rewrite E, lookup_empty in Ht.
Qed.

(** A run of good blobs opens, with or without its registry blob. *)
Lemma build_complete indexed opts blobs idx :
  written data snap reg indexed opts blobs → registry_known snap reg blobs → Forall2 (placed data) blobs idx →
  ∃ b, puffin_build data idx = Ok b ∧ answers b ∧ (indexed = true → answers_children b) ∧
    (carries_registry blobs → is_Some (pb_registry b)).
Proof using F O Hs.
  intros W K P. destruct (build_blobs_complete _ _ _ _ W P) as (b & E & S & C & Hk). unfold puffin_build. rewrite E.
  cbn [mbind result_bind]. destruct (fallback_registry_spec indexed b S C) as (m & Em & Hm).
  destruct (pb_registry b) as [rt|] eqn:Ereg; [|destruct (decide (pb_overlays b = ∅)) as [E0|E0]].
  - destruct (indexes_complete indexed b S C) as (b' & Ei & S' & C' & R1 & R2). exists b'.
    split; [destruct b; cbn in Ereg; by rewrite Ereg in Ei |- *|].
    split; [eapply sound_answers; [done..|]; rewrite R1, Ereg; by left|split; [by eapply sound_answers_children|]].
    rewrite R1, Ereg. by eexists.
  - destruct (indexes_complete indexed b S C) as (b' & Ei & S' & C' & R1 & R2). exists b'.
    split; [destruct b; cbn in Ereg, E0; rewrite Ereg, bool_decide_eq_true_2 by done; by rewrite Ereg in Ei|].
    split; [eapply sound_answers; [done..|]|split; [by eapply sound_answers_children|by intros [bl []%Hk]]].
    intros Hr. exfalso. apply Hr.
    destruct K as [[bl K]|[[_ K]|K]]; [by destruct (Hk _ K)|done|]. rewrite K. by apply (no_scopes_no_registry indexed b).
  - assert (reg = registry_from_snapshot snap) as Hreg.
    { destruct K as [[bl K]|[[K _]|K]]; [by destruct (Hk _ K)| |done]. exfalso. apply E0, map_empty.
      intros s. destruct (pb_overlays b !! s) as [t|] eqn:Et; [|done].
      destruct (bo_overlays _ _ _ _ S s t Et) as [Hin _]. rewrite K in Hin. by apply not_elem_of_nil in Hin. }
    set (b1 := mkPuffin (pb_shared b) (pb_overlays b) (pb_shared_members b) (pb_overlay_members b) (pb_registry b)
      (Some m) (pb_shared_filter b) (pb_overlay_filter b) (pb_shared_members_filter b)
      (pb_overlay_members_filter b) (pb_sequence b)).
    assert (base_sound data snap reg b1) as S1.
    { destruct S. split; cbn; try done. intros ? [= <-]. by rewrite Hreg. }
    assert (complete indexed b1) as C1 by (destruct C; by split).
    destruct (indexes_complete indexed b1 S1 C1) as (b' & Ei & S' & C' & R1 & R2). exists b'.
    split; [|split; [eapply sound_answers; [done..|]; rewrite R2; by right|
      split; [by eapply sound_answers_children|by intros [bl []%Hk]]]].
    destruct b as [sh ov sm om rg fb shf ovf smf omf sq]. cbn in Ereg, E0. subst rg.
    rewrite bool_decide_eq_false_2 by done. by rewrite Em.
Qed.
End answers.
