(* ===== verification/PuffinProps.v ===== *)
(** A base opened from the file a forest was compacted into serves the forest's
    state, so folding through the disk changes no answer. *)

From S2P Require Import Prelude Types Bytes Filter Varint Blocked BlockedRead Registry MemberIndex Decimal.
From S2P Require Import Graph Dsu View RoutingBase Forest ForestInv Compaction CompactionInv FoldInv ForestProps Codec CodecInv CodecProps.
From S2P Require Import PairTable PairTableInv Puffin PuffinBase PuffinSample PuffinBlobs PuffinBaseInv PuffinServe.

(** ** From the forest to the disk and back *)

Lemma stream_registry_eq f :
  tier_wf (tier f) →
  dedup (sort_pairs (omap reg_of_emission (compact_locked (tier f)).1)) = registry_from_snapshot (snapshot f).1.
Proof. intros W. rewrite snapshot_em, compact_em by done. by apply em_registry. Qed.

(** The children of a parent, as the member index lists them. *)
Lemma vals_of_members_sorted pairs p :
  StronglySorted N.lt pairs.*1 → StronglySorted N.lt (vals_of (members_of pairs) p).
Proof.
  intros Hs. assert (NoDup (members_of pairs)) as Hnd.
  { rewrite members_of_perm. apply NoDup_fmap_2; [by intros [] [] [= -> ->]|].
    apply NoDup_filter. apply (NoDup_fmap_1 fst). by apply sorted_lt_nodup. }
  assert (StronglySorted pair_le (members_of pairs)) as H by (apply StronglySorted_merge_sort; apply _).
  clear Hs. induction H as [|[q c] l H IH Hq]; [constructor|].
  apply NoDup_cons in Hnd as [Hc Hnd]. unfold vals_of in *. rewrite filter_cons. case_decide as E; [|auto].
  cbn [fst] in E. subst q. rewrite fmap_cons. constructor; [auto|]. apply Forall_forall.
  intros c' ([q' c''] & -> & [Hq' Hin]%list_elem_of_filter)%list_elem_of_fmap. cbn [fst] in Hq'. subst q'.
  rewrite Forall_forall in Hq. specialize (Hq _ Hin). unfold pair_le in Hq. cbn in Hq |- *.
  assert (c ≠ c'') by (intros ->; done). lia.
Qed.

Lemma elem_of_children pairs p c :
  StronglySorted N.lt pairs.*1 →
  c ∈ vals_of (members_of pairs) p ↔
  Some ((list_to_map pairs : gmap NodeId NodeId) !! c) = Some (Some p) ∧ c ≠ p.
Proof.
  intros Hs. rewrite elem_of_vals_of, elem_of_members_of.
  assert ((c, p) ∈ pairs ↔ (list_to_map pairs : gmap NodeId NodeId) !! c = Some p) as ->.
  { split; [apply elem_of_list_to_map_1; by apply sorted_lt_nodup|apply elem_of_list_to_map_2]. }
  split; intros [H1 H2]; split; congruence.
Qed.

(** What makes a compaction fit its file: ids fit their widths, the stream its
    counters, and the file the 32-bit block count of its filters. *)
Record run_fits (f : ScopedForest) (data : bytes) : Prop := {
  rf_snap : snap_fit (snapshot f).1;
  rf_stream : N.of_nat (length (compact_locked (tier f)).1) < u64_limit;
  rf_file : N.of_nat (length data) <= 2 ^ 38;
}.

Section disk.
Context (to_json : FileMetadata → bytes) (from_json : bytes → option FileMetadata).
Context (json_roundtrip : ∀ m, from_json (to_json m) = Some m).

(** Writing and opening a run. *)
Lemma open_written snap reg indexed opts blobs props data :
  puffin_write to_json blobs props = Ok data → N.of_nat (length data) <= 2 ^ 38 →
  snap_fit snap → snap_sorted snap → StronglySorted N.lt (snap_scopes snap).*1 →
  written data snap reg indexed opts blobs → registry_known snap reg blobs →
  ∃ b, puffin_open from_json data = Ok b ∧ answers data snap reg b ∧
    (indexed = true → answers_children data snap b) ∧ (carries_registry blobs → is_Some (pb_registry b)).
Proof using json_roundtrip.
  intros Hw Hn F O Hs W K.
  destruct (read_index_write to_json from_json json_roundtrip _ _ _ Hw) as (idx & Hi & P).
  { unfold u64_limit. lia. }
  unfold puffin_open. rewrite Hi. cbn [map_err mbind result_bind]. by eapply build_complete.
Qed.

(** A compaction's run, with all its blobs. *)
Lemma open_compaction f evs sequence opts props data :
  absorbed f evs → puffin_write to_json (compact_to_blobs f sequence opts) props = Ok data → run_fits f data →
  ∃ b, puffin_open from_json data = Ok b ∧ answers data (snapshot f).1 (registry_from_snapshot (snapshot f).1) b ∧
    (opt_member_index opts = true → answers_children data (snapshot f).1 b).
Proof using json_roundtrip.
  intros I Hw [R1 R2 R3]. assert (tier_wf (tier f)) as W by apply I. rewrite compact_to_blobs_spec in Hw by done.
  destruct (em_sorted f W) as [O Hs].
  destruct (open_written (snapshot f).1 (registry_from_snapshot (snapshot f).1) (opt_member_index opts) opts _ props
    data Hw) as (b & E & A & B & _); [done..| |by right; right|by eauto].
  rewrite snapshot_run_blobs. apply run_blobs_written; try done. by apply registry_entries_ok.
Qed.

Lemma answers_total data snap reg b reader reopened : answers data snap reg b → pb_total reader reopened data b.
Proof using.
  intros [A1 A2 A3 _ A4 A5 A6 _ _ _ _ A7 A8]. split; intros.
  - rewrite A1. by eexists.
  - rewrite A2. by eexists.
  - destruct (A3 r) as (l & -> & _). by eexists.
  - rewrite A5. by eexists.
  - rewrite A6. by eexists.
  - apply A7.
  - apply A8.
Qed.

(** C12. A mapped run answers for the forest it was compacted from. Compact a forest
    into blobs with any options, drop any of the optional blobs (registry, filters,
    member indexes, as in runs written before they existed), write the rest into
    a Puffin file and open it: opening succeeds, no lookup panics, and parents,
    registry, scopes and sweeps (buffered or mapped) are exactly those of the
    forest's snapshot, whatever the filters, encodings, sparse indexes and the
    registry rebuilt in memory do in between. *)
Theorem opened_run_answers (f : ScopedForest) (evs : list EdgeEvent) (sequence : N) (opts : WriteOptions)
    (keep : Blob → bool) (props : gmap string string) (data : bytes) :
  absorbed f evs → (∀ bl, keep bl = false → inert_blob bl) →
  puffin_write to_json (filter keep (compact_to_blobs f sequence opts)) props = Ok data →
  run_fits f data →
  ∃ b, puffin_open from_json data = Ok b ∧ answers data (snapshot f).1 (registry_from_snapshot (snapshot f).1) b ∧
    ∀ reader reopened, pb_total reader reopened data b.
Proof using json_roundtrip.
  intros I Hk Hw [R1 R2 R3]. assert (tier_wf (tier f)) as W by apply I. rewrite compact_to_blobs_spec in Hw by done.
  destruct (em_sorted f W) as [O Hs].
  destruct (open_written (snapshot f).1 (registry_from_snapshot (snapshot f).1) false opts _ props data Hw)
    as (b & E & A & _); [done..| |by right; right|].
  - rewrite snapshot_run_blobs. apply optional_blobs_written; try done; [by apply registry_entries_ok|].
    intros bl Hb. apply Hk. by destruct (keep bl).
  - exists b. split_and!; [done|done|]. intros. by eapply answers_total.
Qed.

(** The member index of a mapped run inverts its routing tables: on a run
    written with a member index, [shared_children] and [overlay_children] append,
    up to the limit, exactly the nodes whose recorded parent is the one asked
    for, ascending and without repetition. *)
Theorem opened_run_children (f : ScopedForest) (evs : list EdgeEvent) (sequence : N) (opts : WriteOptions)
    (props : gmap string string) (data : bytes) :
  absorbed f evs → puffin_write to_json (compact_to_blobs f sequence opts) props = Ok data →
  run_fits f data → opt_member_index opts = true →
  ∃ b, puffin_open from_json data = Ok b ∧
    (∀ p, ∃ l, StronglySorted N.lt l ∧
       (∀ c, c ∈ l ↔ pb_shared_parent data b c = Some (Some p) ∧ c ≠ p) ∧
       ∀ limit, pb_shared_children data b p limit = Some (take limit l)) ∧
    (∀ s p, ∃ l, StronglySorted N.lt l ∧
       (∀ c, c ∈ l ↔ pb_overlay_parent data b s c = Some (Some p) ∧ c ≠ p) ∧
       ∀ limit, pb_overlay_children data b s p limit = Some (take limit l)).
Proof using json_roundtrip.
  intros I Hw R Hm. destruct (open_compaction f evs sequence opts props data I Hw R) as (b & E & A & B).
  destruct (em_sorted f ltac:(apply I)) as [O Hs]. exists b. split; [done|]. destruct (B Hm) as [B1 B2]. split.
  - intros p. exists (vals_of (members_of (snap_global (snapshot f).1)) p). split_and!; [| |by intros; apply B1].
    + by apply vals_of_members_sorted, O.
    + intros c. rewrite (an_shared _ _ _ _ A). by apply elem_of_children, O.
  - intros s p. exists (vals_of (members_of (scope_pairs (snapshot f).1 s)) p).
    split_and!; [| |by intros; apply B2].
    + by apply vals_of_members_sorted, scope_pairs_sorted.
    + intros c. rewrite (an_overlay _ _ _ _ A). by apply elem_of_children, scope_pairs_sorted.
Qed.
End disk.

(** ** At work *)

Definition demo_run : bytes :=
  match puffin_write demo_to_json (compact_to_blobs demo_state 3 demo_opts) ∅ with Ok d => d | Err _ => [] end.

Lemma demo_run_written :
  puffin_write demo_to_json (compact_to_blobs demo_state 3 demo_opts) ∅ = Ok demo_run.
Proof.
  unfold demo_run. destruct (puffin_write _ _ _) as [d|e] eqn:E; [done|].
  assert (is_ok (puffin_write demo_to_json (compact_to_blobs demo_state 3 demo_opts) ∅) = true) as H
    by (by vm_compute).
  by rewrite E in H.
Qed.

Lemma demo_run_fits : run_fits demo_state demo_run.
Proof. split; [apply demo_fit|by vm_compute|by vm_compute]. Qed.

Lemma demo_absorbed : absorbed demo_state demo_events.
Proof. apply (apply_all_absorbed demo_events _ [] forest_new_absorbed). Qed.

(** A run from before the registry. *)
Definition demo_keep (bl : Blob) : bool := negb (bool_decide (blob_type bl = BLOCKED_BLOB_TYPE)).

Definition demo_legacy : bytes :=
  match puffin_write demo_to_json (filter demo_keep (compact_to_blobs demo_state 3 demo_opts)) ∅ with
  | Ok d => d | Err _ => [] end.

Lemma opened_run_answers_witness :
  ∃ b, puffin_open demo_from_json demo_legacy = Ok b ∧
    pb_overlay_parent demo_legacy b 7 8 = Some (Some 1) ∧ pb_scopes_for_root demo_legacy b 1 ≠ Some [].
Proof.
  destruct (opened_run_answers demo_to_json demo_from_json demo_json demo_state demo_events 3 demo_opts demo_keep ∅
    demo_legacy) as (b & E & A & _).
  - apply demo_absorbed.
  - intros bl Hb. unfold demo_keep in Hb. case_bool_decide as Ty; [|done]. unfold inert_blob, inert.
    rewrite Ty. by vm_compute.
  - unfold demo_legacy. destruct (puffin_write _ _ _) as [d|e] eqn:E; [done|].
    assert (is_ok (puffin_write demo_to_json
      (filter demo_keep (compact_to_blobs demo_state 3 demo_opts)) ∅) = true) as H by (by vm_compute).
    by rewrite E in H.
  - split; [apply demo_fit|by vm_compute|by vm_compute].
  - exists b. split_and!; [done|by rewrite (an_overlay _ _ _ _ A)|].
    destruct (an_registry _ _ _ _ A 1) as (l & -> & Hl). intros [= ->].
    assert ((7 : N) ∈ @nil N) as []%not_elem_of_nil. apply Hl.
    apply (bool_decide_unpack _). by vm_compute.
Defined.

Lemma opened_run_children_witness :
  ∃ b l, puffin_open demo_from_json demo_run = Ok b ∧ pb_shared_children demo_run b 1 1 = Some (take 1 l).
Proof.
  destruct (opened_run_children demo_to_json demo_from_json demo_json demo_state demo_events 3 demo_opts ∅ demo_run
    demo_absorbed demo_run_written demo_run_fits eq_refl) as (b & E & A & _).
  destruct (A 1) as (l & _ & _ & H). exists b, l. split; [done|apply H].
Defined.
