(* ===== verification/LayeredInv.v ===== *)
(** Stacks of runs: resolving through the layers is composing their tables, and the
    k-way merge enumerates every key once with its composed root, as long as the
    layers are stacked the way folds stack them ([stack_ok]). *)

From S2P Require Import Prelude Types Bytes Filter Registry MemberIndex Blocked.
From S2P Require Import Graph Dsu View RoutingBase Forest Compaction CompactionInv FoldInv Codec PairTable Puffin PuffinBase Layered.

(** ** Stacks of tables *)

#[local] Notation ptable := (list (NodeId * NodeId)).

(** The root of a node in one table after the other. *)
Definition stack_root (ps : list ptable) (x : NodeId) : NodeId := foldl (fun x p => pairs_root p x) x ps.

(** Keys ascend and point down. *)
Record table_wf (p : ptable) : Prop := {
  tw_sorted : StronglySorted N.lt p.*1;
  tw_below k v : (k, v) ∈ p → v < k;
}.

(** Layer keys are composed roots of the layers below, layer values composed roots
    of the layers up to their own. *)
Record stack_ok (ps : list ptable) : Prop := {
  sk_wf : Forall table_wf ps;
  sk_keys i p k v : ps !! i = Some p → (k, v) ∈ p → stack_root (take i ps) k = k;
  sk_vals i p k v : ps !! i = Some p → (k, v) ∈ p → stack_root (take (S i) ps) v = v;
}.

Lemma stack_root_app ps qs x : stack_root (ps ++ qs) x = stack_root qs (stack_root ps x).
Proof. apply foldl_app. Qed.

Lemma table_root p x :
  table_wf p → (x ∉ p.*1 ∧ pairs_root p x = x) ∨ ∃ v, (x, v) ∈ p ∧ pairs_root p x = v ∧ v < x.
Proof.
  intros [Hs Hb]. unfold pairs_root. destruct (_ !! x) as [v|] eqn:E; cbn.
  - right. apply elem_of_list_to_map_2 in E. exists v. split_and!; [done|done|by apply Hb].
  - left. split; [by apply not_elem_of_list_to_map_2 in E|done].
Qed.

Lemma stack_root_le ps x : Forall table_wf ps → stack_root ps x <= x.
Proof.
  intros H. revert x. induction H as [|p ps Hp _ IH]; intros x; cbn; [done|]. specialize (IH (pairs_root p x)).
  destruct (table_root p x Hp) as [[_ E]|(v & _ & E & ?)]; unfold stack_root in IH; lia.
Qed.

(** A fixed point of a stack is one of each prefix. *)
Lemma stack_root_prefix ps qs x :
  Forall table_wf (ps ++ qs) → stack_root (ps ++ qs) x = x → stack_root ps x = x.
Proof.
  intros [H1 H2]%Forall_app E. rewrite stack_root_app in E.
  pose proof (stack_root_le ps x H1). pose proof (stack_root_le qs (stack_root ps x) H2). lia.
Qed.

Lemma stack_ok_prefix ps qs : stack_ok (ps ++ qs) → stack_ok ps.
Proof.
  intros [H1 H2 H3]. assert (∀ i, (i < length ps)%nat → take i (ps ++ qs) = take i ps ∧
    take (S i) (ps ++ qs) = take (S i) ps) as Ht.
  { intros i Hi. rewrite !take_app_le by lia. done. }
  split; [by apply Forall_app in H1 as []|..]; intros i p k v Hi Hin; pose proof (lookup_lt_Some _ _ _ Hi) as Hl;
    destruct (Ht i Hl) as [E1 E2].
  - rewrite <-E1. eapply H2; [|done]. by apply lookup_app_l_Some.
  - rewrite <-E2. eapply H3; [|done]. by apply lookup_app_l_Some.
Qed.

Lemma stack_root_idem ps x : stack_ok ps → stack_root ps (stack_root ps x) = stack_root ps x.
Proof.
  induction ps as [|p ps IH] using rev_ind; [done|]. intros S. specialize (IH (stack_ok_prefix _ _ S)).
  rewrite !(stack_root_app ps [p]). set (y := stack_root ps x) in *. cbn [stack_root foldl].
  fold (stack_root ps (pairs_root p y)). pose proof (sk_wf _ S) as [_ [Hp _]%Forall_cons]%Forall_app.
  destruct (table_root p y Hp) as [[Hy E]|(v & Hin & E & _)]; rewrite E.
  - by rewrite IH, E.
  - assert (stack_root (take (Datatypes.S (length ps)) (ps ++ [p])) v = v) as Hv.
    { apply (sk_vals _ S (length ps) p y v); [by apply list_lookup_middle|done]. }
    rewrite take_ge in Hv by (rewrite length_app; cbn; lia). by rewrite stack_root_app in Hv.
Qed.

(** A key is resolved through its own layer first. *)
Lemma stack_root_key ps i p k v :
  stack_ok ps → ps !! i = Some p → (k, v) ∈ p → stack_root ps k = stack_root ps v ∧ stack_root ps k < k.
Proof.
  intros S Hi Hin. pose proof (sk_keys _ S _ _ _ _ Hi Hin) as Hk. pose proof (sk_vals _ S _ _ _ _ Hi Hin) as Hv.
  pose proof (sk_wf _ S) as Hw. rewrite Forall_forall in Hw.
  assert (table_wf p) as Hp by (apply Hw; by eapply list_elem_of_lookup_2).
  assert (pairs_root p k = v) as Ev.
  { unfold pairs_root. rewrite (elem_of_list_to_map_1 p k v); [done|apply sorted_lt_nodup, Hp|done]. }
  rewrite <-(take_drop (Datatypes.S i) ps), !stack_root_app, Hv.
  rewrite (take_S_r _ _ _ Hi), stack_root_app, Hk. cbn [stack_root foldl]. rewrite Ev. split; [done|].
  assert (stack_root (drop (Datatypes.S i) ps) v <= v) by (apply stack_root_le, Forall_drop; by apply Forall_forall).
  pose proof (tw_below _ Hp _ _ Hin). unfold stack_root in *. lia.
Qed.

(** Keys are disjoint across layers. *)
Lemma stack_keys_nodup ps : stack_ok ps → NoDup (mjoin ps).*1.
Proof.
  induction ps as [|p ps IH] using rev_ind; intros S; [constructor|].
  pose proof (sk_wf _ S) as [Hw [Hp _]%Forall_cons]%Forall_app.
  rewrite join_app, fmap_app. cbn [mjoin list_join]. rewrite app_nil_r. apply NoDup_app. split_and!.
  - by apply IH, (stack_ok_prefix _ [p]).
  - intros k ([k' v] & -> & (q & Hq & [i Hi]%list_elem_of_lookup_1)%list_elem_of_join)%list_elem_of_fmap Hk.
    apply list_elem_of_fmap in Hk as ([k'' v'] & E & Hin). cbn in E. subst k''.
    destruct (stack_root_key ps i q k' v (stack_ok_prefix _ _ S) Hi Hq) as [_ Hlt].
    assert (stack_root (take (length ps) (ps ++ [p])) k' = k') as Hfix.
    { apply (sk_keys _ S (length ps) p k' v'); [by apply list_lookup_middle|done]. }
    rewrite take_app_length in Hfix. lia.
  - apply sorted_lt_nodup, Hp.
Qed.

Lemma stack_root_touched ps x : stack_ok ps → stack_root ps x ≠ x ↔ x ∈ (mjoin ps).*1.
Proof.
  intros S. split.
  - intros Hne. destruct (decide (x ∈ (mjoin ps).*1)) as [|Hn]; [done|]. exfalso. apply Hne.
    clear Hne. pose proof (sk_wf _ S) as Hw. clear S. induction Hw as [|p ps Hp _ IH]; [done|].
    rewrite mjoin_cons, fmap_app in Hn. cbn [stack_root foldl].
    destruct (table_root p x Hp) as [[_ ->]|(v & Hin & _)].
    + apply IH. set_solver.
    + exfalso. apply Hn. apply elem_of_app. left. by apply (list_elem_of_fmap_2 fst _ (x, v)).
  - intros ([k v] & -> & (p & Hp & [i Hi]%list_elem_of_lookup_1)%list_elem_of_join)%list_elem_of_fmap.
    destruct (stack_root_key ps i p k v S Hi Hp). cbn. lia.
Qed.

(** ** Cursors *)

(** The rows of [p] from the cursor on. *)
Definition rows_left (ps : list ptable) (cs : list nat) : list ptable := zip_with (fun p c => drop c p) ps cs.

Lemma rows_left_alter ps : ∀ cs j k v rest,
  length cs = length ps → rows_left ps cs !! j = Some ((k, v) :: rest) →
  mjoin (rows_left ps cs) ≡ₚ (k, v) :: mjoin (rows_left ps (alter S j cs)).
Proof.
  induction ps as [|p ps IH]; intros cs j k v rest Hc Hj; destruct cs as [|c cs]; try done.
  injection Hc as Hc. change (rows_left (p :: ps) (c :: cs)) with (drop c p :: rows_left ps cs) in *.
  rewrite mjoin_cons. destruct j as [|j].
  - injection Hj as Hj. change (alter S 0%nat (c :: cs)) with (S c :: cs).
    change (rows_left (p :: ps) (S c :: cs)) with (drop (S c) p :: rows_left ps cs). rewrite mjoin_cons.
    assert (drop (S c) p = rest) as ->; [|by rewrite Hj].
    transitivity (drop 1 (drop c p)); [rewrite drop_drop; f_equal; lia|by rewrite Hj].
  - change (alter S (S j) (c :: cs)) with (c :: alter S j cs).
    change (rows_left (p :: ps) (c :: alter S j cs)) with (drop c p :: rows_left ps (alter S j cs)).
    rewrite mjoin_cons, (IH cs j k v rest Hc Hj). by rewrite Permutation_middle.
Qed.
Lemma drop_sorted c (p : ptable) : StronglySorted N.lt p.*1 → StronglySorted N.lt (drop c p).*1.
Proof.
  intros H. rewrite fmap_drop. rewrite <-(take_drop c p.*1) in H. by apply StronglySorted_app_1_r in H.
Qed.

Lemma rows_left_sorted ps cs :
  Forall table_wf ps → Forall (fun r => StronglySorted N.lt r.*1) (rows_left ps cs).
Proof.
  intros H. revert cs. induction H as [|p ps Hp _ IH]; intros [|c cs]; try constructor; [|apply IH].
  apply drop_sorted, Hp.
Qed.

Lemma rows_left_min rows k :
  Forall (fun r : ptable => StronglySorted N.lt r.*1) rows →
  Forall (fun r => ∀ k' v' rest, r = (k', v') :: rest → k <= k') rows →
  ∀ kv, kv ∈ mjoin rows → k <= kv.1.
Proof.
  intros Hs Hm kv (r & Hkv & Hr)%list_elem_of_join. rewrite Forall_forall in Hs, Hm.
  specialize (Hs r Hr). specialize (Hm r Hr). destruct r as [|[k0 v0] r]; [by apply not_elem_of_nil in Hkv|].
  specialize (Hm k0 v0 r eq_refl). apply elem_of_cons in Hkv as [->|Hin]; [done|].
  rewrite fmap_cons in Hs. apply StronglySorted_inv in Hs as [_ Hs]. rewrite Forall_forall in Hs.
  assert (k0 < kv.1) by (apply Hs; by apply list_elem_of_fmap_2). lia.
Qed.

(** ** Resolution *)

Section tables.
Context (probe : Layer → NodeId → option NodeId).
Context (len : Layer → nat) (pair_at : Layer → nat → NodeId * NodeId).

(** The layer [l] stores the table [p], for probes and by position. *)
Record layer_table (l : Layer) (p : ptable) : Prop := {
  lt_probe x : probe l x = (list_to_map p : gmap NodeId NodeId) !! x;
  lt_len : len l = length p;
  lt_at i kv : p !! i = Some kv → pair_at l i = kv;
}.

Lemma resolve_from_spec ls ps x :
  Forall2 layer_table ls ps → Forall table_wf ps → resolve_from probe ls x = stack_root ps x.
Proof using.
  intros H. revert x. induction H as [|l p ls ps Hl _ IH]; intros x Hw; [done|].
  apply Forall_cons in Hw as [Hp Hw]. cbn [resolve_from stack_root foldl]. rewrite (lt_probe _ _ Hl).
  destruct (table_root p x Hp) as [[Hx E]|(v & Hin & E & Hlt)].
  - rewrite not_elem_of_list_to_map_1 by done. rewrite E. by apply IH.
  - rewrite (elem_of_list_to_map_1 p x v) by (done || apply sorted_lt_nodup, Hp). rewrite E.
    destruct (N.eqb_spec v x); [lia|]. by apply IH.
Qed.

Lemma resolve_spec ls ps x :
  Forall2 layer_table ls ps → Forall table_wf ps →
  default x (resolve probe ls x) = stack_root ps x.
Proof using.
  intros H Hw. unfold resolve. rewrite (resolve_from_spec ls ps) by done.
  by destruct (N.eqb_spec (stack_root ps x) x).
Qed.

(** ** The merge *)

Lemma pick_loop_spec ls ps : Forall2 layer_table ls ps → ∀ cs i pick,
  length cs = length ls →
  match pick_loop len pair_at i ls cs pick with
  | None => pick = None ∧ Forall (fun r => r = []) (rows_left ps cs)
  | Some (j, k, v) =>
      (pick = Some (j, k, v) ∨
       ((i ≤ j)%nat ∧ ∃ rest, rows_left ps cs !! (j - i)%nat = Some ((k, v) :: rest))) ∧
      (∀ j' b v', pick = Some (j', b, v') → k <= b) ∧
      Forall (fun r => ∀ k' v' rest, r = (k', v') :: rest → k <= k') (rows_left ps cs)
  end.
Proof using.
  induction 1 as [|l p ls ps Hl _ IH]; intros cs i pick Hc.
  { destruct cs; [|done]. cbn. destruct pick as [[[j k] v]|]; [|by split].
    split_and!; [by left| |constructor]. intros ? ? ? [= _ <- _]. lia. }
  destruct cs as [|c cs]; [done|]. injection Hc as Hc. cbn [pick_loop]. rewrite (lt_len _ _ Hl).
  change (rows_left (p :: ps) (c :: cs)) with (drop c p :: rows_left ps cs).
  set (pick' := if (length p <=? c)%nat then pick else _). specialize (IH cs (S i) pick' Hc).
  assert (∀ m : option (nat * NodeId * NodeId), match m with
    | Some (j, k, v) => (S i ≤ j)%nat → ∀ rest, rows_left ps cs !! (j - S i)%nat = Some ((k, v) :: rest) →
        (drop c p :: rows_left ps cs) !! (j - i)%nat = Some ((k, v) :: rest) | None => True end) as Hsh.
  { intros [[[j k] v]|]; [|done]. intros Hj rest E. by replace (j - i)%nat with (S (j - S i)) by lia. }
  destruct (Nat.leb_spec (length p) c) as [Hend|Hmore].
  - assert (drop c p = []) as Ed by (by apply drop_ge). rewrite Ed in *. subst pick'.
    specialize (Hsh (pick_loop len pair_at (S i) ls cs pick)).
    destruct (pick_loop _ _ _ _ _ _) as [[[j k] v]|].
    + destruct IH as ([Hp|(Hj & rest & E)] & H2 & H3); (split_and!; [|done|by constructor]); [by left|].
      right. split; [lia|]. exists rest. by apply Hsh.
    + destruct IH as [-> H]. split; [done|]. by constructor.
  - destruct (lookup_lt_is_Some_2 p c Hmore) as [[k0 v0] E0]. pose proof (lt_at _ _ Hl _ _ E0) as Ea.
    rewrite (drop_S _ _ _ E0) in *. subst pick'. rewrite Ea in *.
    set (pick' := match pick with Some _ => _ | None => _ end) in *.
    specialize (Hsh (pick_loop len pair_at (S i) ls cs pick')).
    assert (∃ j1 k1 v1, pick' = Some (j1, k1, v1) ∧ k1 <= k0 ∧
      (∀ j' b v', pick = Some (j', b, v') → k1 <= b) ∧
      (pick = Some (j1, k1, v1) ∨ (j1 = i ∧ k1 = k0 ∧ v1 = v0))) as (j1 & k1 & v1 & Ep & Hk1 & Hb1 & Hsrc).
    { subst pick'. destruct pick as [[[j1 b] v1]|]; [destruct (N.ltb_spec k0 b)|].
      - eexists _, _, _. split_and!; [done|lia| |by right]. intros ? ? ? [= _ <- _]. lia.
      - eexists _, _, _. split_and!; [done|lia| |by left]. intros ? ? ? [= _ <- _]. lia.
      - eexists _, _, _. by split_and!; [done|lia| |by right]. }
    rewrite Ep in *. destruct (pick_loop _ _ _ _ _ _) as [[[j k] v]|]; [|by destruct IH].
    destruct IH as (Hor & H2 & H3). specialize (H2 _ _ _ eq_refl). split_and!.
    + destruct Hor as [[= -> -> ->]|(Hj & rest & E)].
      * destruct Hsrc as [->|(-> & -> & ->)]; [by left|]. right. split; [lia|]. rewrite Nat.sub_diag. by eexists.
      * right. split; [lia|]. exists rest. by apply Hsh.
    + intros j' b v' Hpk. specialize (Hb1 _ _ _ Hpk). lia.
    + constructor; [|done]. intros k' v' rest [= <- _ _]. lia.
Qed.

Lemma merge_loop_spec ls ps res : Forall2 layer_table ls ps → Forall table_wf ps → ∀ fuel cs,
  length cs = length ls → (length (mjoin (rows_left ps cs)) < fuel)%nat →
  NoDup (mjoin (rows_left ps cs)).*1 →
  (∀ kv, kv ∈ mjoin (rows_left ps cs) → default kv.2 (res kv.2) ≠ kv.1) →
  ∃ out, merge_loop len pair_at fuel ls res cs = Some out ∧ StronglySorted N.lt out.*1 ∧
    out ≡ₚ (fun kv => (kv.1, default kv.2 (res kv.2))) <$> mjoin (rows_left ps cs).
Proof using.
  intros Hl Hw. induction fuel as [|fuel IH]; intros cs Hc Hf Hnd Hne; [lia|]. cbn [merge_loop].
  pose proof (pick_loop_spec ls ps Hl cs 0 None Hc) as Hp.
  destruct (pick_loop _ _ _ _ _ _) as [[[j k] v]|].
  - destruct Hp as ([?|(_ & rest & Hj)] & _ & Hmin); [done|]. rewrite Nat.sub_0_r in Hj.
    assert (length cs = length ps) as Hcp by (rewrite Hc; by eapply Forall2_length).
    pose proof (rows_left_alter ps cs j k v rest Hcp Hj) as HP.
    set (rows' := mjoin (rows_left ps (alter S j cs))) in *.
    assert (NoDup (k :: rows'.*1)) as [Hk Hnd']%NoDup_cons by (by rewrite HP in Hnd).
    destruct (IH (alter S j cs)) as (out & -> & Hs & Ho).
    + by rewrite length_alter.
    + rewrite HP in Hf. cbn in Hf. fold rows'. lia.
    + done.
    + intros kv Hkv. apply Hne. rewrite HP. by right.
    + cbn [mbind option_bind]. assert (default v (res v) ≠ k) as Hvk.
      { apply (Hne (k, v)). rewrite HP. left. }
      destruct (N.eqb_spec (default v (res v)) k); [done|]. eexists. split; [done|]. split.
      * rewrite fmap_cons. constructor; [done|]. apply Forall_forall. intros k' Hk'.
        rewrite Ho, <-list_fmap_compose in Hk'. apply list_elem_of_fmap in Hk' as (kv & -> & Hkv). cbn.
        assert (k <= kv.1).
        { apply (rows_left_min (rows_left ps cs)); [by apply rows_left_sorted|done|]. rewrite HP. by right. }
        assert (k ≠ kv.1) by (intros ->; apply Hk; by apply list_elem_of_fmap_2). lia.
      * rewrite HP, fmap_cons. by constructor.
  - exists []. split; [done|]. split; [constructor|]. destruct Hp as [_ Hp].
    assert (mjoin (rows_left ps cs) = []) as ->; [|done].
    clear -Hp. induction Hp as [|r rows -> _ IH]; [done|]. by rewrite mjoin_cons, IH.
Qed.

Lemma rows_left_start ps : rows_left ps (replicate (length ps) 0%nat) = ps.
Proof using. clear. induction ps as [|p ps IH]; [done|]. cbn. unfold rows_left in IH. by rewrite IH. Qed.

Lemma lens_sum ls ps : Forall2 layer_table ls ps → sum_list (len <$> ls) = length (mjoin ps).
Proof using.
  induction 1 as [|l p ls ps Hl _ IH]; [done|]. rewrite fmap_cons, mjoin_cons, length_app. cbn.
  by rewrite IH, (lt_len _ _ Hl).
Qed.

(** The merge visits every key of the stack once, ascending, with its root. *)
Lemma layered_merge_spec ls ps :
  Forall2 layer_table ls ps → stack_ok ps →
  ∃ out, layered_merge len pair_at ls (resolve probe ls) = Some out ∧ StronglySorted N.lt out.*1 ∧
    ∀ k r, (k, r) ∈ out ↔ stack_root ps k = r ∧ r ≠ k.
Proof using.
  intros Hl S. pose proof (sk_wf _ S) as Hw. unfold layered_merge.
  assert (∀ k v, (k, v) ∈ mjoin ps → default v (resolve probe ls v) = stack_root ps k ∧ stack_root ps k < k) as Hr.
  { intros k v (p & Hin & [i Hi]%list_elem_of_lookup_1)%list_elem_of_join.
    destruct (stack_root_key ps i p k v S Hi Hin) as [E1 E2]. by rewrite (resolve_spec ls ps), <-E1. }
  assert (length ls = length ps) as El by (by eapply Forall2_length).
  destruct (merge_loop_spec ls ps (resolve probe ls) Hl Hw
    (Datatypes.S (sum_list (len <$> ls))) (replicate (length ls) 0%nat)) as (out & -> & Hs & Ho).
  - by rewrite length_replicate.
  - rewrite El, rows_left_start, (lens_sum ls ps Hl). lia.
  - rewrite El, rows_left_start. by apply stack_keys_nodup.
  - rewrite El, rows_left_start. intros [k v] Hin. cbn [fst snd]. destruct (Hr k v Hin) as [-> ?]. lia.
  - exists out. split; [done|]. split; [done|]. intros k r. rewrite El, rows_left_start in Ho.
    rewrite Ho, list_elem_of_fmap. split.
    + intros ([k' v] & E & Hin). destruct (Hr k' v Hin) as [Er ?]. cbn [fst snd] in E. rewrite Er in E.
      simplify_eq. split; [done|]. lia.
    + intros [<- Hne]. apply (stack_root_touched ps k S) in Hne as ([k' v] & -> & Hin)%list_elem_of_fmap.
      exists (k', v). split; [|done]. cbn [fst snd]. by destruct (Hr k' v Hin) as [-> _].
Qed.
End tables.
