(* ===== verification/LayeredServe.v ===== *)
(** A stack of runs as a routing base: what it answers, how a fold extends it and
    how a merged run replaces a stretch of it. *)

From S2P Require Import Prelude Types Bytes Filter Registry MemberIndex Blocked BlockedRead.
From S2P Require Import Graph Dsu View RoutingBase Forest ForestInv Compaction CompactionInv FoldInv ForestProps Codec CodecInv.
From S2P Require Import PairTable Puffin PuffinBase PuffinSample PuffinBlobs PuffinBaseInv PuffinServe Layered LayeredInv.

(** ** Layers and snapshots *)

(** The layer stores the snapshot. *)
Record layer_serves (l : Layer) (snap : ForestSnapshot) : Prop := {
  la_shared : layer_table (fun l => shared_parent (ly_base l)) ly_shared_len ly_shared_pair_at l (snap_global snap);
  la_overlay s : layer_table (fun l => overlay_parent (ly_base l) s) (fun l => ly_overlay_len l s)
    (fun l => ly_overlay_pair_at l s) l (scope_pairs snap s);
  la_scopes s : scope_pairs snap s ≠ [] → s ∈ base_scopes (ly_base l);
}.

Definition globals (snaps : list ForestSnapshot) : list (list (NodeId * NodeId)) := snap_global <$> snaps.
Definition overlays (s : ScopeId) (snaps : list ForestSnapshot) : list (list (NodeId * NodeId)) :=
  (fun snap => scope_pairs snap s) <$> snaps.

(** The layer carries the registry it answers from, in order and at its widths. *)
Record layer_registered (l : Layer) (snap : ForestSnapshot) : Prop := {
  lr_sorted : StronglySorted pair_le (ly_registry l);
  lr_entry r s : s ∈ scopes_for_root (ly_base l) r ↔ (r, s) ∈ ly_registry l;
  lr_small : Forall (fun e => e.1 < u64_limit ∧ e.2 < u32_limit) (ly_registry l);
  lr_scope s : scope_pairs snap s ≠ [] → ∃ r, (r, s) ∈ ly_registry l;
}.

(** The layer's member index lists who records a parent. *)
Record layer_lists (l : Layer) (snap : ForestSnapshot) : Prop := {
  ll_shared p limit :
    shared_children (ly_base l) p limit = take limit (vals_of (members_of (snap_global snap)) p);
  ll_overlay s p limit :
    overlay_children (ly_base l) s p limit = take limit (vals_of (members_of (scope_pairs snap s)) p);
}.

(** The layers store the snapshots, stacked the way folds stack them: the roots a
    layer registers had no parent when it was written. *)
Record stack_inv (lb : LayeredBase) (snaps : list ForestSnapshot) : Prop := {
  si_layers : Forall2 layer_serves (layers lb) snaps;
  si_shared : stack_ok (globals snaps);
  si_overlay s : stack_ok (overlays s snaps);
  si_registered : Forall2 layer_registered (layers lb) snaps;
  si_live i l r s : layers lb !! i = Some l → (r, s) ∈ ly_registry l →
    stack_root (take (S i) (globals snaps)) r = r;
}.

(** A mapped run is a layer that stores what it answers. *)
Lemma pb_layer_serves reader reopened data snap reg b :
  answers data snap reg b → layer_serves (pb_layer reader reopened data b) snap.
Proof.
  intros A. split; [split|intros s; split|]; cbn [pb_layer ly_base ly_shared_len ly_shared_pair_at ly_overlay_len
    ly_overlay_pair_at pb_routing shared_parent overlay_parent base_scopes].
  - intros x. by rewrite (an_shared _ _ _ _ A).
  - apply (an_shared_len _ _ _ _ A).
  - intros i kv Hi. by rewrite (an_shared_at _ _ _ _ A i kv Hi).
  - intros x. by rewrite (an_overlay _ _ _ _ A).
  - apply (an_overlay_len _ _ _ _ A).
  - intros i kv Hi. by rewrite (an_overlay_at _ _ _ _ A s i kv Hi).
  - intros s Hne. rewrite (an_scopes _ _ _ _ A). unfold scope_pairs in Hne.
    destruct (_ !! s) as [ps|] eqn:E; [|done]. apply elem_of_list_to_map_2 in E.
    by apply (list_elem_of_fmap_2 fst _ (s, ps)).
Qed.

Lemma pb_layer_lists reader reopened data snap b :
  answers_children data snap b → layer_lists (pb_layer reader reopened data b) snap.
Proof. intros [H1 H2]. split; intros; cbn; by rewrite ?H1, ?H2. Qed.

Lemma dedup_nodup {A} `{EqDecision A} (l : list A) : NoDup l → dedup l = l.
Proof.
  induction l as [|a [|b l] IH]; intros H; [done|done|]. apply NoDup_cons in H as [Ha H].
  change (dedup (a :: b :: l)) with (if decide (a = b) then dedup (b :: l) else a :: dedup (b :: l)).
  rewrite decide_False by (intros ->; apply Ha; left). by rewrite IH.
Qed.

(** And carries the registry it was written with. *)
Lemma pb_layer_registered reader reopened data snap reg b :
  answers data snap reg b → is_Some (pb_registry b) ∨ reg = [] →
  StronglySorted pair_le reg → NoDup reg → entries_ok reg → (∀ s, scope_pairs snap s ≠ [] → ∃ r, (r, s) ∈ reg) →
  layer_registered (pb_layer reader reopened data b) snap ∧ ly_registry (pb_layer reader reopened data b) = reg.
Proof.
  intros A Hc Hs Hn [_ E2 E3] Hsc. assert (ly_registry (pb_layer reader reopened data b) = reg) as E.
  { cbn [pb_layer ly_registry]. destruct (an_iter _ _ _ _ A Hc) as (l & -> & [->| ->]); [done|].
    by apply dedup_nodup. }
  split; [|done]. split; rewrite ?E; [done| |by apply Forall_and|done].
  intros r s. cbn [pb_layer ly_base pb_routing scopes_for_root].
  destruct (an_registry _ _ _ _ A r) as (l & -> & Hl). apply Hl.
Qed.

(** ** The stack as a base *)

Section stack.
Context (lb : LayeredBase) (snaps : list ForestSnapshot) (I : stack_inv lb snaps).

Lemma shared_tables :
  Forall2 (layer_table (fun l => shared_parent (ly_base l)) ly_shared_len ly_shared_pair_at) (layers lb) (globals snaps).
Proof using I. apply Forall2_fmap_r. eapply Forall2_impl; [apply I|]. intros l snap H. apply H. Qed.

Lemma overlay_tables s :
  Forall2 (layer_table (fun l => overlay_parent (ly_base l) s) (fun l => ly_overlay_len l s)
    (fun l => ly_overlay_pair_at l s)) (layers lb) (overlays s snaps).
Proof using I. apply Forall2_fmap_r. eapply Forall2_impl; [apply I|]. intros l snap H. apply H. Qed.

Lemma stack_shared x : base_shared (layered_routing lb) x = stack_root (globals snaps) x.
Proof using I. eapply (resolve_spec (fun l => shared_parent (ly_base l))); [apply shared_tables|apply (si_shared _ _ I)]. Qed.

Lemma stack_overlay s x : base_overlay (layered_routing lb) s x = stack_root (overlays s snaps) x.
Proof using I.
  eapply (resolve_spec (fun l => overlay_parent (ly_base l) s)); [apply overlay_tables|apply (si_overlay _ _ I s)].
Qed.

Lemma stack_shared_pairs :
  StronglySorted N.lt (shared_pairs (layered_routing lb)).*1 ∧
  ∀ k r, (k, r) ∈ shared_pairs (layered_routing lb) ↔ stack_root (globals snaps) k = r ∧ r ≠ k.
Proof using I.
  destruct (layered_merge_spec _ _ _ _ _ shared_tables (si_shared _ _ I)) as (out & E & Hs & Ho).
  cbn [layered_routing shared_pairs]. unfold layered_shared_pairs, layered_shared_parent. by rewrite E.
Qed.

Lemma stack_overlay_pairs s :
  StronglySorted N.lt (overlay_pairs (layered_routing lb) s).*1 ∧
  ∀ k r, (k, r) ∈ overlay_pairs (layered_routing lb) s ↔ stack_root (overlays s snaps) k = r ∧ r ≠ k.
Proof using I.
  destruct (layered_merge_spec _ _ _ _ _ (overlay_tables s) (si_overlay _ _ I s)) as (out & E & Hs & Ho).
  cbn [layered_routing overlay_pairs]. unfold layered_overlay_pairs, layered_overlay_parent. by rewrite E.
Qed.

Lemma elem_of_layered_scopes s :
  s ∈ base_scopes (layered_routing lb) ↔ ∃ l, l ∈ layers lb ∧ s ∈ base_scopes (ly_base l).
Proof using.
  cbn [layered_routing base_scopes]. unfold layered_scopes. rewrite elem_of_dedup, elem_of_sort_N.
  rewrite list_elem_of_join. setoid_rewrite list_elem_of_fmap. naive_solver.
Qed.

Lemma stack_scope_listed s x : base_overlay (layered_routing lb) s x ≠ x → s ∈ base_scopes (layered_routing lb).
Proof using I.
  rewrite stack_overlay, (stack_root_touched _ _ (si_overlay _ _ I s)).
  intros (kv & _ & (p & Hin & Hp)%list_elem_of_join)%list_elem_of_fmap.
  apply list_elem_of_fmap in Hp as (snap & -> & [i Hi]%list_elem_of_lookup_1).
  destruct (Forall2_lookup_r _ _ _ _ _ (si_layers _ _ I) Hi) as (l & Hl & Sv).
  apply elem_of_layered_scopes. exists l. split; [by eapply list_elem_of_lookup_2|].
  apply (la_scopes _ _ Sv). intros E. rewrite E in Hin. by apply not_elem_of_nil in Hin.
Qed.

Lemma stack_enum : BaseEnum (layered_routing lb).
Proof using I.
  split.
  - apply stack_shared_pairs.
  - intros x. rewrite stack_shared. intros Hne. apply (list_elem_of_fmap_2 fst _ (x, stack_root (globals snaps) x)).
    by apply stack_shared_pairs.
  - intros s. apply stack_overlay_pairs.
  - intros s x. rewrite stack_overlay. intros Hne.
    apply (list_elem_of_fmap_2 fst _ (x, stack_root (overlays s snaps) x)). by apply stack_overlay_pairs.
  - apply stack_scope_listed.
Qed.
End stack.

(** ** The union of the registries *)

Lemma elem_of_push_new out ss s : s ∈ foldl push_new out ss ↔ s ∈ out ∨ s ∈ ss.
Proof.
  revert out. induction ss as [|a ss IH]; intros out; cbn [foldl]; [set_solver|]. rewrite IH. unfold push_new.
  case_bool_decide; set_solver.
Qed.

Lemma elem_of_layered_registry lb r s :
  s ∈ scopes_for_root (layered_routing lb) r ↔ ∃ l, l ∈ layers lb ∧ s ∈ scopes_for_root (ly_base l) r.
Proof.
  cbn [layered_routing scopes_for_root]. unfold layered_scopes_for_root.
  assert (∀ ls out, s ∈ foldl (fun out l => foldl push_new out (scopes_for_root (ly_base l) r)) out ls ↔
    s ∈ out ∨ ∃ l, l ∈ ls ∧ s ∈ scopes_for_root (ly_base l) r) as H.
  { induction ls as [|l ls IH]; intros out; cbn [foldl]; [set_solver|]. rewrite IH, elem_of_push_new. set_solver. }
  rewrite H. set_solver.
Qed.
