(* ===== verification/LayeredProps.v ===== *)
(** Folds through the disk: a full fold starts a stack of runs, a delta fold pushes
    a run onto it, and neither changes an answer. *)

From S2P Require Import Prelude Types Bytes Filter Registry MemberIndex Blocked BlockedRead.
From S2P Require Import Graph Dsu View RoutingBase Forest ForestInv Compaction CompactionInv FoldInv ForestProps Codec CodecInv CodecProps.
From S2P Require Import PairTable Puffin PuffinBase PuffinSample PuffinBlobs PuffinBaseInv PuffinServe PuffinProps Layered LayeredInv LayeredServe.

(** ** A stream written to disk *)

Lemma omap_length_le {A B} (f : A → option B) l : (length (omap f l) <= length l)%nat.
Proof. induction l as [|a l IH]; cbn; [lia|]. destruct (f a); cbn; lia. Qed.


(** The registry a writer records of a stream. *)
Definition stream_registry_of (em : list emission) : list (NodeId * ScopeId) :=
  dedup (sort_pairs (omap reg_of_emission em)).

Lemma elem_of_stream_registry_of em r s : (r, s) ∈ stream_registry_of em ↔ RegistryEntry r s ∈ em.
Proof.
  unfold stream_registry_of, sort_pairs. rewrite elem_of_dedup, merge_sort_Permutation, list_elem_of_omap. split.
  - intros (e & He & Hr). destruct e; try done. cbn in Hr. by simplify_eq.
  - intros H. by exists (RegistryEntry r s).
Qed.

Lemma stream_registry_length em :
  N.of_nat (length em) < u64_limit → N.of_nat (length (stream_registry_of em)) < u64_limit.
Proof.
  intros H. assert (length (stream_registry_of em) <= length em)%nat; [|lia].
  unfold stream_registry_of. rewrite dedup_length. unfold sort_pairs.
  rewrite merge_sort_Permutation. apply omap_length_le.
Qed.

Section stream.
Context (G : NodeId → NodeId) (O : ScopeId → NodeId → NodeId).
Context (ks : list NodeId) (sids : list ScopeId) (oks : ScopeId → list NodeId).
Context (HG : ∀ x, G x <= x).
Context (Hks : StronglySorted N.lt ks) (Hsids : StronglySorted N.lt sids) (Hoks : ∀ s, StronglySorted N.lt (oks s)).

Let em := stream_of G O ks sids oks.

Lemma stream_sorted : snap_sorted (collect em) ∧ StronglySorted N.lt (snap_scopes (collect em)).*1.
Proof using Hks Hsids Hoks.
  unfold em. rewrite collect_stream. split; [split|]; cbn [snap_global snap_scopes].
  - by apply nonroot_pairs_fst_sorted.
  - apply Forall_forall. intros [s ps] (s' & [= -> ->] & _)%list_elem_of_fmap. by apply nonroot_pairs_fst_sorted.
  - rewrite nonempty_scopes_fst. by apply StronglySorted_filter.
Qed.

(** A scope with pairs is registered somewhere. *)
Lemma stream_scopes_registered s ps : (s, ps) ∈ snap_scopes (collect em) → ∃ r, RegistryEntry r s ∈ em.
Proof using.
  unfold em. rewrite collect_stream. cbn [snap_scopes].
  intros (s' & [= <- ->] & [Hne Hs]%list_elem_of_filter)%list_elem_of_fmap.
  unfold nonroot_pairs in Hne. destruct (filter _ (oks s)) as [|k ks'] eqn:Fk; [done|].
  assert (k ∈ filter (fun k => O s k ≠ k) (oks s)) as [Hk Hko]%list_elem_of_filter by (rewrite Fk; left).
  exists (G k). by apply (stream_registry_key G O ks sids oks s k Hs Hko Hk).
Qed.

Lemma stream_scope_registered s : scope_pairs (collect em) s ≠ [] → ∃ r, RegistryEntry r s ∈ em.
Proof using.
  unfold scope_pairs. destruct (_ !! s) as [ps|] eqn:E; [|done]. intros _.
  apply elem_of_list_to_map_2 in E. by eapply stream_scopes_registered.
Qed.

Lemma stream_registry_empty : stream_registry_of em = [] → snap_scopes (collect em) = [].
Proof using.
  intros E. destruct (snap_scopes (collect em)) as [|[s ps] l] eqn:F; [done|]. exfalso.
  destruct (stream_scopes_registered s ps) as [r H]; [rewrite F; left|].
  apply elem_of_stream_registry_of in H. rewrite E in H. by apply not_elem_of_nil in H.
Qed.

Lemma stream_entries_ok : snap_fit (collect em) → entries_ok (stream_registry_of em).
Proof using HG.
  intros F.
  assert (Forall (fun e => e.1 < u64_limit ∧ e.2 < u32_limit) (stream_registry_of em)) as H.
  { apply Forall_forall. intros [r s] Hin%elem_of_stream_registry_of.
    assert ((r, s) ∈ omap reg_of_emission em) as (Hs & k & Hk & Hne & Hr)%elem_of_stream_registry.
    { apply list_elem_of_omap. by exists (RegistryEntry r s). }
    assert ((s, nonroot_pairs (O s) (oks s)) ∈ snap_scopes (collect em)) as Hsp.
    { unfold em. rewrite collect_stream. cbn [snap_scopes]. apply list_elem_of_fmap. exists s. split; [done|].
      apply list_elem_of_filter. split; [|done]. unfold nonroot_pairs. intros E%fmap_nil_inv.
      assert (k ∈ filter (fun k => O s k ≠ k) (oks s)) as Hf by (by apply list_elem_of_filter).
      rewrite E in Hf. by apply not_elem_of_nil in Hf. }
    pose proof (sf_scopes _ F) as Fs. rewrite Forall_forall in Fs. destruct (Fs _ Hsp) as [H1 [H2 _]].
    split; [|done]. rewrite Forall_forall in H2.
    assert ((k, O s k) ∈ nonroot_pairs (O s) (oks s)) as Hp.
    { apply list_elem_of_fmap. exists k. split; [done|]. by apply list_elem_of_filter. }
    destruct (H2 _ Hp) as [Ha Hb]. cbn in Ha, Hb |- *. pose proof (HG k). pose proof (HG (O s k)).
    destruct Hr as [->| ->]; lia. }
  rewrite Forall_forall in H. split.
  - apply pair_le_fst_sorted, dedup_sorted_nodup. apply StronglySorted_merge_sort; apply _.
  - apply Forall_forall. intros e He. apply (H e He).
  - apply Forall_forall. intros e He. apply (H e He).
Qed.

Section disk.
Context (to_json : FileMetadata → bytes) (from_json : bytes → option FileMetadata).
Context (json_roundtrip : ∀ m, from_json (to_json m) = Some m).

(** A stream pushed into a writer, written and mapped, is a layer that stores what
    the stream collects to and its registry entries. *)
Lemma map_run_stream reader reopened sequence opts props data :
  let w := foldl bw_push (bw_new sequence opts) em in
  puffin_write to_json (bw_finish w) props = Ok data → snap_fit (collect em) →
  N.of_nat (length em) < u64_limit → N.of_nat (length data) <= 2 ^ 38 →
  ∃ l, map_run to_json from_json reader reopened props w = Ok (data, l) ∧ layer_serves l (collect em) ∧
    layer_registered l (collect em) ∧ (∀ r s, (r, s) ∈ ly_registry l ↔ RegistryEntry r s ∈ em) ∧
    (opt_member_index opts = true → layer_lists l (collect em)).
Proof using HG Hks Hsids Hoks json_roundtrip.
  intros w Hw F Hn Hd. destruct stream_sorted as [Ss Hs].
  pose proof (stream_entries_ok F) as Eo.
  assert (bw_finish w = run_blobs (collect em) (stream_registry_of em) (as_i64 sequence) opts) as Ew.
  { by apply (bw_finish_run sequence opts em _ _ (bw_sim_all sequence opts em [] _ _ Hn (bw_sim_new sequence opts))). }
  destruct (open_written to_json from_json json_roundtrip (collect em) (stream_registry_of em) (opt_member_index opts)
    opts _ props data Hw) as (b & E & A & Hm & Hc); [done..| | |].
  - rewrite Ew. by apply run_blobs_written.
  - rewrite Ew. by apply run_blobs_registry; [|apply stream_registry_length|apply stream_registry_empty].
  - destruct (pb_layer_registered reader reopened data (collect em) (stream_registry_of em) b A) as [Lr Er].
    + rewrite Ew in Hc. destruct (run_blobs_carries (collect em) (stream_registry_of em) Eo (as_i64 sequence) opts)
        as [H|H]; [by apply stream_registry_length|by left; apply Hc|by right].
    + apply dedup_sorted_nodup, StronglySorted_merge_sort; apply _.
    + apply dedup_sorted_nodup, StronglySorted_merge_sort; apply _.
    + done.
    + intros s Hne. destruct (stream_scope_registered s Hne) as [r H]. exists r. by apply elem_of_stream_registry_of.
    + exists (pb_layer reader reopened data b). split_and!; [|by eapply pb_layer_serves|done| |intros Hi; by apply pb_layer_lists, Hm].
      * unfold map_run. rewrite Hw. cbn [map_err mbind result_bind]. by rewrite E.
      * intros r s. rewrite Er. apply elem_of_stream_registry_of.
Qed.
End disk.
End stream.

(** ** Stacking a layer *)

Lemma sorted_pairs_ext (l1 l2 : list (NodeId * NodeId)) :
  StronglySorted N.lt l1.*1 → StronglySorted N.lt l2.*1 → (∀ kv, kv ∈ l1 ↔ kv ∈ l2) → l1 = l2.
Proof.
  intros H1. revert l2. induction l1 as [|a l1 IH]; intros l2 H2 E.
  { destruct l2 as [|b l2]; [done|]. assert (b ∈ @nil (NodeId * NodeId)) as []%not_elem_of_nil. apply E. left. }
  destruct l2 as [|b l2].
  { assert (a ∈ @nil (NodeId * NodeId)) as []%not_elem_of_nil. apply E. left. }
  rewrite !fmap_cons in *. apply StronglySorted_inv in H1 as [H1 Ha], H2 as [H2 Hb].
  rewrite Forall_forall in Ha, Hb.
  assert (∀ c, c ∈ l1 → a.1 < c.1) as Ha' by (intros c Hc; by apply Ha, list_elem_of_fmap_2).
  assert (∀ c, c ∈ l2 → b.1 < c.1) as Hb' by (intros c Hc; by apply Hb, list_elem_of_fmap_2).
  assert (a = b) as <-.
  { assert (a ∈ b :: l2) as [|Hab]%elem_of_cons by (apply E; left); [done|].
    assert (b ∈ a :: l1) as [|Hba]%elem_of_cons by (apply E; left); [done|].
    specialize (Ha' _ Hba). specialize (Hb' _ Hab). lia. }
  f_equal. apply IH; [done|done|]. intros c. specialize (E c). rewrite !elem_of_cons in E. split; intros Hc.
  - destruct (proj1 E (or_intror Hc)) as [->|]; [|done]. specialize (Ha' _ Hc). lia.
  - destruct (proj2 E (or_intror Hc)) as [->|]; [|done]. specialize (Hb' _ Hc). lia.
Qed.

Lemma elem_of_key_pairs ρ ks k v : (k, v) ∈ nonroot_pairs ρ ks ↔ k ∈ ks ∧ ρ k ≠ k ∧ v = ρ k.
Proof.
  unfold nonroot_pairs. rewrite list_elem_of_fmap. setoid_rewrite list_elem_of_filter. naive_solver.
Qed.

(** Keys the stack leaves alone, mapped to roots of the whole. *)
Lemma stack_ok_push ps ρ ks :
  stack_ok ps → StronglySorted N.lt ks → (∀ x, ρ x <= x) → (∀ x, ρ (ρ x) = ρ x) →
  (∀ k, k ∈ ks → ρ k ≠ k → stack_root ps k = k) →
  (∀ x, stack_root (ps ++ [nonroot_pairs ρ ks]) x = ρ x) →
  stack_ok (ps ++ [nonroot_pairs ρ ks]).
Proof.
  intros [S1 S2 S3] Hks Hle Hi Hk Hr. set (p := nonroot_pairs ρ ks) in *.
  assert (∀ i q, (ps ++ [p]) !! i = Some q →
    (ps !! i = Some q ∧ take i (ps ++ [p]) = take i ps ∧ take (S i) (ps ++ [p]) = take (S i) ps) ∨
    (q = p ∧ take i (ps ++ [p]) = ps ∧ take (S i) (ps ++ [p]) = ps ++ [p])) as Hcase.
  { intros i q Hq. apply lookup_app_Some in Hq as [Hq|[Hge Hq]].
    - left. pose proof (lookup_lt_Some _ _ _ Hq). by rewrite !take_app_le by lia.
    - right. assert (i = length ps) as ->.
      { apply lookup_lt_Some in Hq. cbn in Hq. lia. }
      rewrite Nat.sub_diag in Hq. injection Hq as <-.
      rewrite take_app_length, take_ge by (rewrite length_app; cbn; lia). done. }
  split.
  - apply Forall_app. split; [done|]. apply Forall_singleton. split.
    + by apply nonroot_pairs_fst_sorted.
    + intros k v (_ & Hne & ->)%elem_of_key_pairs. specialize (Hle k). lia.
  - intros i q k v Hq Hin. destruct (Hcase i q Hq) as [(Hq' & -> & _)|(-> & -> & _)]; [by eapply S2|].
    apply elem_of_key_pairs in Hin as (? & ? & _). by apply Hk.
  - intros i q k v Hq Hin. destruct (Hcase i q Hq) as [(Hq' & _ & ->)|(-> & _ & ->)]; [by eapply S3|].
    apply elem_of_key_pairs in Hin as (_ & _ & ->). by rewrite Hr.
Qed.

Lemma stack_ok_nil : stack_ok [].
Proof. split; [constructor|done|done]. Qed.

Lemma nonroot_pairs_unique ρ ks pairs :
  StronglySorted N.lt pairs.*1 → StronglySorted N.lt ks → (∀ x, ρ x ≠ x → x ∈ ks) →
  (∀ k r, (k, r) ∈ pairs ↔ ρ k = r ∧ r ≠ k) → pairs = nonroot_pairs ρ ks.
Proof.
  intros H1 H2 Hc H. apply sorted_pairs_ext; [done|by apply nonroot_pairs_fst_sorted|].
  intros [k r]. rewrite H, elem_of_key_pairs. split.
  - intros [<- Hne]. auto.
  - intros (_ & Hne & ->). auto.
Qed.

(** The roots a stream registers are live. *)
Lemma stream_root_live G O ks sids oks r s :
  (∀ x, G (G x) = G x) → RegistryEntry r s ∈ stream_of G O ks sids oks → G r = r.
Proof.
  intros Hi H. assert ((r, s) ∈ omap reg_of_emission (stream_of G O ks sids oks)) as Hin.
  { apply list_elem_of_omap. by exists (RegistryEntry r s). }
  apply elem_of_stream_registry in Hin as (_ & k & _ & _ & [->| ->]); apply Hi.
Qed.

(** ** A full fold starts a stack *)

Section full.
Context (t : Tier) (W : tier_wf t).
Let em := stream_of (G_of t) (O_of t) (shared_keys t) (scope_ids t) (scope_keys t).
Context (l : Layer) (Sv : layer_serves l (collect em)) (Lr : layer_registered l (collect em)).
Context (Hreg : ∀ r s, (r, s) ∈ ly_registry l ↔ RegistryEntry r s ∈ em).

Lemma full_globals : globals [collect em] = [nonroot_pairs (G_of t) (shared_keys t)].
Proof using. unfold globals, em. by rewrite collect_stream. Qed.

Lemma full_overlays s : overlays s [collect em] = [nonroot_pairs (O_of t s) (scope_keys t s)].
Proof using W.
  unfold overlays, em. rewrite collect_stream. cbn [fmap list_fmap].
  by rewrite scope_pairs_nonempty by (by apply sorted_lt_nodup, scope_ids_sorted || apply scope_ids_nonempty).
Qed.

Lemma full_shared_root x : stack_root (globals [collect em]) x = G_of t x.
Proof using W.
  rewrite full_globals. apply pairs_root_nonroot; [by apply sorted_lt_nodup, shared_keys_sorted|].
  by apply shared_keys_complete.
Qed.

Lemma full_overlay_root s x : stack_root (overlays s [collect em]) x = O_of t s x.
Proof using W.
  rewrite full_overlays. apply pairs_root_nonroot; [by apply sorted_lt_nodup, scope_keys_sorted|].
  by apply scope_keys_complete.
Qed.

Lemma full_stack : stack_inv (layered_new l) [collect em].
Proof using W Sv Lr Hreg.
  split.
  - apply Forall2_cons. by split.
  - pose proof full_shared_root as R. rewrite full_globals in *.
    by apply (stack_ok_push []); eauto using stack_ok_nil, shared_keys_sorted, G_le, G_idem.
  - intros s. pose proof (full_overlay_root s) as R. rewrite full_overlays in *.
    by apply (stack_ok_push []); eauto using stack_ok_nil, scope_keys_sorted, O_le, O_idem.
  - by apply Forall2_cons.
  - intros [|i] l' r s Hl Hin; [|done]. injection Hl as <-.
    rewrite (take_ge (globals _)) by done. rewrite full_shared_root. by eapply stream_root_live; [apply G_idem|apply Hreg].
Qed.

Lemma full_stack_encodes : base_encodes (layered_routing (layered_new l)) em.
Proof using W Sv Lr Hreg.
  pose proof full_stack as I. split.
  - intros x. by rewrite (stack_shared _ _ I).
  - intros s x. by rewrite (stack_overlay _ _ I).
  - intros r s H. apply elem_of_layered_registry. exists l. split; [left|by apply (lr_entry _ _ Lr), Hreg].
  - destruct (stack_shared_pairs _ _ I) as [H1 H2]. setoid_rewrite full_shared_root in H2.
    unfold em. rewrite collect_stream. cbn [snap_global].
    by apply nonroot_pairs_unique; [|by apply shared_keys_sorted|by apply shared_keys_complete|].
  - intros s. destruct (stack_overlay_pairs _ _ I s) as [H1 H2]. setoid_rewrite full_overlay_root in H2.
    unfold em. rewrite collect_stream, scope_pairs_nonempty
      by (by apply sorted_lt_nodup, scope_ids_sorted || apply scope_ids_nonempty).
    by apply nonroot_pairs_unique; [|by apply scope_keys_sorted|by apply scope_keys_complete|].
  - intros s Hs. apply elem_of_layered_scopes. exists l. split; [left|]. apply (la_scopes _ _ Sv).
    unfold em in *. rewrite collect_stream in *. cbn [snap_scopes] in Hs. rewrite nonempty_scopes_fst in Hs.
    apply list_elem_of_filter in Hs as [Hne _].
    by rewrite scope_pairs_nonempty by (by apply sorted_lt_nodup, scope_ids_sorted || apply scope_ids_nonempty).
Qed.
End full.

(** ** A delta fold pushes a layer *)

Section delta.
Context (t : Tier) (W : tier_wf t).
Let em := stream_of (G_of t) (O_of t) (mem_keys t) (mem_scopes t) (mem_scope_keys t).
Context (lb : LayeredBase) (snaps : list ForestSnapshot) (Hb : base_of t = layered_routing lb) (I : stack_inv lb snaps).
Context (l : Layer) (Sv : layer_serves l (collect em)) (Lr : layer_registered l (collect em)).
Context (Hreg : ∀ r s, (r, s) ∈ ly_registry l ↔ RegistryEntry r s ∈ em).

Lemma delta_globals : globals (snaps ++ [collect em]) = globals snaps ++ [nonroot_pairs (G_of t) (mem_keys t)].
Proof using. unfold globals, em. rewrite fmap_app, collect_stream. done. Qed.

Lemma delta_overlays s :
  overlays s (snaps ++ [collect em]) = overlays s snaps ++ [nonroot_pairs (O_of t s) (mem_scope_keys t s)].
Proof using W.
  unfold overlays, em. rewrite fmap_app, collect_stream. cbn [fmap list_fmap].
  rewrite scope_pairs_nonempty; [done|apply sorted_keys_nodup|].
  unfold nonroot_pairs. destruct (filter _ (mem_scope_keys t s)) as [|k ks] eqn:F; [done|]. intros _.
  assert (k ∈ filter (fun k => O_of t s k ≠ k) (mem_scope_keys t s)) as [_ Hk]%list_elem_of_filter by (rewrite F; left).
  apply (mem_scopes_complete t s k). by apply elem_of_mem_scope_keys.
Qed.

Lemma delta_shared_root x : stack_root (globals (snaps ++ [collect em])) x = G_of t x.
Proof using W Hb I.
  pose proof (tw_base t W). rewrite delta_globals, stack_root_app, <-(stack_shared _ _ I), <-Hb.
  by apply (delta_compose (droot (mem_global (tier_mem t))));
    [apply base_shared_idem|apply mem_keys_nodup|apply elem_of_mem_keys].
Qed.

Lemma delta_overlay_root s x : stack_root (overlays s (snaps ++ [collect em])) x = O_of t s x.
Proof using W Hb I.
  pose proof (tw_base t W). rewrite delta_overlays, stack_root_app, <-(stack_overlay _ _ I), <-Hb.
  by apply (delta_compose (overlay_fn t s));
    [apply base_overlay_idem|apply mem_scope_keys_nodup|apply elem_of_mem_scope_keys].
Qed.

Lemma delta_stack : stack_inv (layered_pushed lb l) (snaps ++ [collect em]).
Proof using W Hb I Sv Lr Hreg.
  split.
  - apply Forall2_app; [apply I|]. apply Forall2_cons. by split.
  - pose proof delta_shared_root as R. rewrite delta_globals in *.
    apply stack_ok_push; eauto using G_le, G_idem.
    + apply I.
    + apply sort_nodup_sorted, keys_nodup.
    + intros k Hk%elem_of_mem_keys _; [|done]. rewrite <-(stack_shared _ _ I), <-Hb. by apply (tw_glayer _ W).
  - intros s. pose proof (delta_overlay_root s) as R. rewrite delta_overlays in *.
    apply stack_ok_push; eauto using O_le, O_idem.
    + apply I.
    + apply sort_nodup_sorted, overlay_keys_nodup.
    + intros k Hk%elem_of_mem_scope_keys _; [|done]. rewrite <-(stack_overlay _ _ I), <-Hb. by apply (tw_olayer _ W).
  - apply Forall2_app; [apply I|]. by apply Forall2_cons.
  - intros i l' r s Hl Hin. cbn [layers layered_pushed] in Hl. apply lookup_app_Some in Hl as [Hl|[Hge Hl]].
    + unfold globals. rewrite fmap_app, take_app_le; [by eapply (si_live _ _ I)|].
      rewrite length_fmap, <-(Forall2_length _ _ _ (si_layers _ _ I)). apply lookup_lt_Some in Hl. lia.
    + apply list_lookup_singleton_Some in Hl as [Hi <-].
      rewrite (take_ge (globals _)).
      * rewrite delta_shared_root. by eapply stream_root_live; [apply G_idem|apply Hreg].
      * unfold globals. rewrite length_fmap, length_app, <-(Forall2_length _ _ _ (si_layers _ _ I)). cbn. lia.
Qed.

Lemma delta_stack_encodes : delta_encodes (layered_routing (layered_pushed lb l)) (base_of t) em.
Proof using W Hb I Sv Lr Hreg.
  pose proof delta_stack as I'. rewrite Hb. split.
  - intros x. rewrite (stack_shared _ _ I'), (stack_shared _ _ I). unfold globals. by rewrite fmap_app, stack_root_app.
  - intros s x. rewrite (stack_overlay _ _ I'), (stack_overlay _ _ I). unfold overlays. by rewrite fmap_app, stack_root_app.
  - intros r s H. apply elem_of_layered_registry. exists l. split; [|by apply (lr_entry _ _ Lr), Hreg].
    cbn [layers layered_pushed]. set_solver.
  - intros r s (l' & Hl & Hs)%elem_of_layered_registry. apply elem_of_layered_registry. exists l'. split; [|done].
    cbn [layers layered_pushed]. set_solver.
  - by eapply stack_enum.
Qed.
End delta.

(** ** Folding through the disk *)

(** What makes a delta fit its file. *)
Record delta_fits (f : ScopedForest) (data : bytes) : Prop := {
  df_snap : snap_fit (collect (stream_memtable (tier f)).1);
  df_stream : N.of_nat (length (stream_memtable (tier f)).1) < u64_limit;
  df_file : N.of_nat (length data) <= 2 ^ 38;
}.

Lemma mem_scopes_sorted t : StronglySorted N.lt (mem_scopes t).
Proof. apply sorted_keys_sorted. Qed.

Section disk.
Context (to_json : FileMetadata → bytes) (from_json : bytes → option FileMetadata).
Context (json_roundtrip : ∀ m, from_json (to_json m) = Some m).

(** The run of a full compaction, mapped. *)
Lemma full_map_run f evs sequence opts props reader reopened data :
  absorbed f evs → puffin_write to_json (compact_to_blobs f sequence opts) props = Ok data → run_fits f data →
  ∃ l, map_run to_json from_json reader reopened props
      (foldl bw_push (bw_new sequence opts) (compact_locked (tier f)).1) = Ok (data, l) ∧
    stack_inv (layered_new l) [(snapshot f).1] ∧
    base_encodes (layered_routing (layered_new l)) (compact_locked (tier f)).1 ∧
    (opt_member_index opts = true → layer_lists l (snapshot f).1).
Proof using json_roundtrip.
  intros I Hw [R1 R2 R3]. assert (tier_wf (tier f)) as W by apply I.
  pose proof (snapshot_em f) as Es. pose proof (compact_em f W) as Ec. rewrite Ec in Es. rewrite Es in *.
  destruct (map_run_stream (G_of (tier f)) (O_of (tier f)) (shared_keys (tier f)) (scope_ids (tier f))
    (scope_keys (tier f)) ltac:(by apply G_le) ltac:(by apply shared_keys_sorted) (scope_ids_sorted (tier f))
    ltac:(by apply scope_keys_sorted) to_json from_json json_roundtrip reader reopened sequence opts props data)
    as (l & El & Sv & Lr & Hreg & Hm); [by rewrite <-Ec|done|by rewrite <-Ec|done|].
  exists l. rewrite Ec. split_and!; [done|by apply full_stack|by apply full_stack_encodes|done].
Qed.

(** Folding with a build that publishes a given base. *)
Lemma fold_published {Er T} f evs (sink : BlobWriter) (build : BlobWriter → result Er (RoutingBase * T)) b out :
  absorbed f evs → build (foldl bw_push sink (compact_locked (tier f)).1) = Ok (b, out) →
  base_encodes b (compact_locked (tier f)).1 →
  compact_and_fold bw_push f sink build = (Ok out, publish f b) ∧ absorbed (publish f b) evs.
Proof using.
  intros I Hb He. pose proof (step_absorbed bw_push (f, evs) _ (step_fold bw_push f evs sink build
    ltac:(intros b' out'; rewrite Hb; by intros [= <- <-])) I) as I'.
  cbn [fst snd] in I'. unfold compact_and_fold in *.
  destruct (compact_locked (tier f)) as [es t']. cbn [fst] in Hb. by rewrite Hb in *.
Qed.

(** C7. A full fold through the disk changes no answer. A forest that has absorbed some
    events is compacted into a [BlobWriter], written as a Puffin file, mapped and
    published as a fresh stack of one run: the fold succeeds with the file's bytes,
    the stack stores the forest's snapshot, the memtable is empty afterwards, every
    scope answers every query as before, and the forest still answers for the same
    events, so it can go on from there. *)
Theorem fold_through_disk (f : ScopedForest) (evs : list EdgeEvent) (sequence : N) (opts : WriteOptions)
    (props : gmap string string) (reader : ScanReader) (reopened : bool) (data : bytes) :
  absorbed f evs → puffin_write to_json (compact_to_blobs f sequence opts) props = Ok data →
  run_fits f data →
  let '(r, f') := compact_and_fold bw_push f (bw_new sequence opts)
    (fold_build to_json from_json reader reopened props) in
  ∃ lb, r = Ok (data, lb) ∧ tier_base (tier f') = Some (layered_routing lb) ∧ stack_inv lb [(snapshot f).1] ∧
    memtable_links f' = 0 ∧ absorbed f' evs ∧ ∀ s x, (scope_root f' s x).1 = (scope_root f s x).1.
Proof using json_roundtrip.
  intros I Hw R. destruct (full_map_run f evs sequence opts props reader reopened data I Hw R) as (l & El & Sl & Be & _).
  destruct (fold_published f evs (bw_new sequence opts) (fold_build to_json from_json reader reopened props)
    (layered_routing (layered_new l)) (data, layered_new l) I) as [-> I']; [|done|].
  { unfold fold_build. by rewrite El. }
  exists (layered_new l). split_and!; [done|done|done|by vm_compute|done|].
  intros s x. by eapply absorbed_root_eq.
Qed.

(** The run of the memtable, mapped and pushed. *)
Lemma delta_map_run f evs lb snaps sequence opts props reader reopened data :
  absorbed f evs → tier_base (tier f) = Some (layered_routing lb) → stack_inv lb snaps →
  puffin_write to_json (bw_finish (foldl bw_push (bw_new sequence opts) (stream_memtable (tier f)).1)) props = Ok data →
  delta_fits f data →
  ∃ l, map_run to_json from_json reader reopened props
      (foldl bw_push (bw_new sequence opts) (stream_memtable (tier f)).1) = Ok (data, l) ∧
    stack_inv (layered_pushed lb l) (snaps ++ [collect (stream_memtable (tier f)).1]) ∧
    delta_encodes (layered_routing (layered_pushed lb l)) (base_of (tier f)) (stream_memtable (tier f)).1 ∧
    (opt_member_index opts = true → layer_lists l (collect (stream_memtable (tier f)).1)).
Proof using json_roundtrip.
  intros I Hlb Il Hw [R1 R2 R3]. assert (tier_wf (tier f)) as W by apply I.
  assert (base_of (tier f) = layered_routing lb) as Hbase by (unfold base_of; by rewrite Hlb).
  destruct (stream_memtable_spec (tier f) W) as (t' & Em & _).
  pose proof (f_equal fst Em) as Ec. cbn [fst] in Ec. rewrite Ec in R1, R2, Hw |- *.
  destruct (map_run_stream (G_of (tier f)) (O_of (tier f)) (mem_keys (tier f)) (mem_scopes (tier f))
    (mem_scope_keys (tier f)) ltac:(by apply G_le) ltac:(by apply sort_nodup_sorted, keys_nodup)
    (mem_scopes_sorted (tier f)) ltac:(intros s; by apply sort_nodup_sorted, overlay_keys_nodup)
    to_json from_json json_roundtrip reader reopened sequence opts props data)
    as (l & El & Sv & Lr & Hreg & Hm); [done..|].
  exists l. split_and!; [done|by eapply delta_stack|by eapply delta_stack_encodes|done].
Qed.

(** Delta folding with a build that publishes a given base. *)
Lemma delta_published {Er T} f evs (sink : BlobWriter)
    (build : BlobWriter → option RoutingBase → result Er (RoutingBase * T)) b out :
  absorbed f evs → build (foldl bw_push sink (stream_memtable (tier f)).1) (tier_base (tier f)) = Ok (b, out) →
  delta_encodes b (base_of (tier f)) (stream_memtable (tier f)).1 →
  fold_delta bw_push f sink build = (Ok out, publish f b) ∧ absorbed (publish f b) evs.
Proof using.
  intros I Hb He. pose proof (step_absorbed bw_push (f, evs) _ (step_delta bw_push f evs sink build
    ltac:(intros b' out'; rewrite Hb; by intros [= <- <-])) I) as I'.
  cbn [fst snd] in I'. unfold fold_delta in *.
  destruct (stream_memtable (tier f)) as [es t']. cbn [fst] in Hb. by rewrite Hb in *.
Qed.

(** C8. A delta fold through the disk changes no answer. On a forest served by a stack
    of runs, stream only the memtable into a [BlobWriter], write it, map it and push
    it as the top run: the fold succeeds, the new stack stores the runs it had and the
    delta, the memtable is empty afterwards and every scope answers every query as
    before. The stack it leaves is again one a fold can push onto, so the theorem
    applies to any number of delta folds in a row. *)
Theorem delta_fold_through_disk (f : ScopedForest) (evs : list EdgeEvent) (lb : LayeredBase)
    (snaps : list ForestSnapshot) (sequence : N) (opts : WriteOptions) (props : gmap string string)
    (reader : ScanReader) (reopened : bool) (data : bytes) :
  absorbed f evs → tier_base (tier f) = Some (layered_routing lb) → stack_inv lb snaps →
  puffin_write to_json (bw_finish (foldl bw_push (bw_new sequence opts) (stream_memtable (tier f)).1)) props = Ok data →
  delta_fits f data →
  let '(r, f') := fold_delta bw_push f (bw_new sequence opts)
    (delta_build to_json from_json reader reopened props lb) in
  ∃ lb', r = Ok (data, lb') ∧ tier_base (tier f') = Some (layered_routing lb') ∧
    stack_inv lb' (snaps ++ [collect (stream_memtable (tier f)).1]) ∧
    memtable_links f' = 0 ∧ absorbed f' evs ∧ ∀ s x, (scope_root f' s x).1 = (scope_root f s x).1.
Proof using json_roundtrip.
  intros I Hlb Il Hw R.
  destruct (delta_map_run f evs lb snaps sequence opts props reader reopened data I Hlb Il Hw R) as (l & El & Sl & De & _).
  destruct (delta_published f evs (bw_new sequence opts) (delta_build to_json from_json reader reopened props lb)
    (layered_routing (layered_pushed lb l)) (data, layered_pushed lb l) I) as [-> I']; [|done|].
  { unfold delta_build. by rewrite El. }
  exists (layered_pushed lb l). split_and!; [done|done|done|by vm_compute|done|].
  intros s x. by eapply absorbed_root_eq.
Qed.
End disk.

(** ** At work *)

Lemma fold_through_disk_witness :
  ∃ lb, (compact_and_fold bw_push demo_state (bw_new 3 demo_opts)
     (fold_build demo_to_json demo_from_json Buffered true ∅)).1 = Ok (demo_run, lb) ∧
    stack_inv lb [(snapshot demo_state).1].
Proof.
  pose proof (fold_through_disk demo_to_json demo_from_json demo_json demo_state demo_events 3 demo_opts ∅
    Buffered true demo_run demo_absorbed demo_run_written demo_run_fits) as H.
  destruct (compact_and_fold _ _ _ _) as [r f']. destruct H as (lb & -> & _ & I & _). by exists lb.
Defined.

(** The stack of that fold, and one more global edge on top of it. *)
Definition demo_layer : Layer :=
  match map_run demo_to_json demo_from_json Buffered true ∅
    (foldl bw_push (bw_new 3 demo_opts) (compact_locked (tier demo_state)).1) with
  | Ok (_, l) => l
  | Err _ => pb_layer Buffered true [] base_empty
  end.

Definition demo_stack : LayeredBase := layered_new demo_layer.

Definition demo_next : ScopedForest :=
  apply (publish demo_state (layered_routing demo_stack)) (ev 1 0 Global).

Definition demo_delta : bytes :=
  match puffin_write demo_to_json
    (bw_finish (foldl bw_push (bw_new 4 demo_opts) (stream_memtable (tier demo_next)).1)) ∅ with
  | Ok d => d | Err _ => [] end.

Lemma demo_stack_spec :
  stack_inv demo_stack [(snapshot demo_state).1] ∧ absorbed demo_next (demo_events ++ [ev 1 0 Global]).
Proof.
  destruct (full_map_run demo_to_json demo_from_json demo_json demo_state demo_events 3 demo_opts ∅ Buffered true demo_run
    demo_absorbed demo_run_written demo_run_fits) as (l & El & Sl & Be & _).
  assert (demo_layer = l) as E by (unfold demo_layer; by rewrite El).
  unfold demo_next, demo_stack. rewrite E. split; [done|]. apply apply_absorbed.
  by apply (fold_published demo_state demo_events (bw_new 3 demo_opts) (fun _ => Ok (layered_routing (layered_new l), tt))
    (Er := unit) _ tt demo_absorbed).
Qed.

Lemma demo_delta_written :
  puffin_write demo_to_json
    (bw_finish (foldl bw_push (bw_new 4 demo_opts) (stream_memtable (tier demo_next)).1)) ∅ = Ok demo_delta.
Proof.
  unfold demo_delta. destruct (puffin_write _ _ _) as [d|e] eqn:E; [done|].
  assert (is_ok (puffin_write demo_to_json
    (bw_finish (foldl bw_push (bw_new 4 demo_opts) (stream_memtable (tier demo_next)).1)) ∅) = true) as H
    by (by vm_compute).
  by rewrite E in H.
Qed.

Lemma demo_delta_fits : delta_fits demo_next demo_delta.
Proof.
  split; [|by vm_compute|by vm_compute].
  assert (collect (stream_memtable (tier demo_next)).1 = mkSnap [(1, 0)] [(7, [(1, 0)])]) as -> by (by vm_compute).
  split; cbn; repeat constructor; by vm_compute.
Qed.

Lemma delta_fold_through_disk_witness :
  ∃ lb, (fold_delta bw_push demo_next (bw_new 4 demo_opts)
     (delta_build demo_to_json demo_from_json Buffered true ∅ demo_stack)).1 = Ok (demo_delta, lb) ∧
    length (layers lb) = 2%nat.
Proof.
  destruct demo_stack_spec as [Is Ia].
  pose proof (delta_fold_through_disk demo_to_json demo_from_json demo_json demo_next _ demo_stack _ 4 demo_opts ∅
    Buffered true demo_delta Ia eq_refl Is demo_delta_written demo_delta_fits) as H.
  destruct (fold_delta _ _ _ _) as [r f']. destruct H as (lb & -> & _ & I & _).
  exists lb. split; [done|]. by rewrite (Forall2_length _ _ _ (si_layers _ _ I)).
Defined.
