(* ===== verification/MembersProps.v ===== *)
(** The member walk over the disk, and the query as a whole. *)

From S2P Require Import Prelude Types Bytes Filter Registry MemberIndex Blocked BlockedRead.
From S2P Require Import Graph Dsu View RoutingBase Forest ForestInv Compaction CompactionInv FoldInv ForestProps Codec CodecInv CodecProps.
From S2P Require Import PairTable Puffin PuffinBase PuffinSample PuffinBlobs PuffinBaseInv PuffinServe PuffinProps.
From S2P Require Import Layered LayeredInv LayeredServe LayeredProps Members MembersInv.

(** ** Children in a stack of tables *)

Definition table_kids (ps : list (list (NodeId * NodeId))) (p : NodeId) : list NodeId :=
  mjoin ((fun pairs => vals_of (members_of pairs) p) <$> ps).

Lemma elem_of_table_kids ps p c :
  c ∈ table_kids ps p ↔ ∃ i pairs, ps !! i = Some pairs ∧ (c, p) ∈ pairs ∧ c ≠ p.
Proof.
  unfold table_kids. rewrite list_elem_of_join. setoid_rewrite list_elem_of_fmap. split.
  - intros (l & Hc & pairs & -> & [i Hi]%list_elem_of_lookup_1). exists i, pairs. split; [done|].
    by apply elem_of_vals_of, elem_of_members_of in Hc.
  - intros (i & pairs & Hi & Hc). eexists. split; [|exists pairs; split; [done|by eapply list_elem_of_lookup_2]].
    by apply elem_of_vals_of, elem_of_members_of.
Qed.

Lemma table_kids_nodup ps p : Forall table_wf ps → NoDup (mjoin ps).*1 → NoDup (table_kids ps p).
Proof.
  induction 1 as [|pairs ps Hp Hps IH]; intros Hn; [constructor|]. rewrite mjoin_cons, fmap_app in Hn.
  apply NoDup_app in Hn as (_ & Hd & Hn). unfold table_kids. rewrite fmap_cons, mjoin_cons. apply NoDup_app. split_and!.
  - apply sorted_lt_nodup, vals_of_members_sorted, Hp.
  - intros c Hc Hk. apply elem_of_vals_of, elem_of_members_of in Hc as [Hc _].
    apply elem_of_table_kids in Hk as (i & qs & Hi & Hk & _).
    apply (Hd c); [by apply (list_elem_of_fmap_2 fst _ (c, p))|]. apply (list_elem_of_fmap_2 fst _ (c, p)).
    apply list_elem_of_join. exists qs. split; [done|by eapply list_elem_of_lookup_2].
  - by apply IH.
Qed.

Lemma table_kids_tree ps : stack_ok ps → tree_ok (table_kids ps) (stack_root ps).
Proof.
  intros S. split.
  - intros p c (i & pairs & Hi & Hc & _)%elem_of_table_kids. split; [|by eapply stack_root_key].
    pose proof (sk_wf _ S) as Hw. rewrite Forall_lookup in Hw. by eapply tw_below; [eapply Hw|].
  - intros c Hc. apply stack_root_touched in Hc as ([k v] & -> & (pairs & Hin & [i Hi]%list_elem_of_lookup_1)%list_elem_of_join)%list_elem_of_fmap; [|done].
    exists v. apply elem_of_table_kids. exists i, pairs. split_and!; [done|done|]. cbn.
    pose proof (sk_wf _ S) as Hw. rewrite Forall_lookup in Hw. pose proof (tw_below _ (Hw i pairs Hi) k v Hin). lia.
Qed.

(** The loop over the layers lists the concatenation, cut at the limit. *)
Lemma children_loop_take (get : Layer → nat → list NodeId) (kids : ForestSnapshot → list NodeId) ls snaps :
  Forall2 (fun l snap => ∀ limit, get l limit = take limit (kids snap)) ls snaps →
  ∀ limit, children_loop get ls limit = take limit (mjoin (kids <$> snaps)).
Proof.
  induction 1 as [|l snap ls snaps Hl _ IH]; intros limit; cbn [children_loop]; [symmetry; apply take_nil|].
  rewrite fmap_cons, mjoin_cons. destruct limit as [|limit]; [done|]. rewrite Hl, IH, take_app, length_take.
  f_equal. f_equal. lia.
Qed.

Lemma stack_indexed lb snaps :
  stack_inv lb snaps → Forall2 layer_lists (layers lb) snaps → indexed_base (layered_routing lb).
Proof.
  intros I L. split; [|intros s].
  - exists (table_kids (globals snaps)). split; [split|].
    + intros k limit. cbn [layered_routing shared_children].
      rewrite (children_loop_take _ (fun snap => vals_of (members_of (snap_global snap)) k) _ snaps);
        [|eapply Forall2_impl; [exact L|]; intros l snap H limit'; apply H].
      unfold table_kids, globals. by rewrite <- list_fmap_compose.
    + intros k. apply table_kids_nodup; [apply (si_shared _ _ I)|apply stack_keys_nodup, (si_shared _ _ I)].
    + destruct (table_kids_tree _ (si_shared _ _ I)) as [T1 T2]. split; intros *; rewrite ?(stack_shared lb snaps I); auto.
  - exists (table_kids (overlays s snaps)). split; [split|].
    + intros k limit. cbn [layered_routing overlay_children].
      rewrite (children_loop_take _ (fun snap => vals_of (members_of (scope_pairs snap s)) k) _ snaps);
        [|eapply Forall2_impl; [exact L|]; intros l snap H limit'; apply H].
      unfold table_kids, overlays. by rewrite <- list_fmap_compose.
    + intros k. apply table_kids_nodup; [apply (si_overlay _ _ I)|apply stack_keys_nodup, (si_overlay _ _ I)].
    + destruct (table_kids_tree _ (si_overlay _ _ I s)) as [T1 T2]. split; intros *; rewrite ?(stack_overlay lb snaps I); auto.
Qed.

(** ** The query, in every reachable state *)

Section reachable.
Context {Sk Er T : Type} (push : Sk → emission → Sk).

(** A step of a forest whose base, if it claims a member index, has one. *)
Definition members_step (s s' : ScopedForest * list EdgeEvent) : Prop :=
  forest_step (Er := Er) (T := T) push s s' ∧
  (from_option has_member_index true (tier_base (tier s'.1)) = true → indexed_base (base_of (tier s'.1))).

Lemma members_steps s s' :
  rtc members_step s s' → absorbed s.1 s.2 → members_inv s.1 → absorbed s'.1 s'.2 ∧ members_inv s'.1.
Proof using.
  induction 1 as [|s s1 s' [S Hb] _ IH]; intros I M; [done|]. apply IH; [by eapply step_absorbed|by eapply members_inv_step].
Qed.

Lemma tracking_new_absorbed (b : bool) : absorbed (if b then tracking_members forest_new else forest_new) [].
Proof using.
  destruct b; [|apply forest_new_absorbed]. split.
  - split; [apply empty_base_laws|..].
    + intros x p. cbn. by rewrite lookup_empty.
    + intros s o. cbn. by rewrite lookup_empty.
    + intros x _. done.
    + intros s x _. done.
  - by eapply view_inv_ext, view_inv_init.
Qed.

Lemma members_conn f evs s x c :
  absorbed f evs → members_inv f → c + 2 < u64_limit →
  (if members_available f
   then ∃ r, (members f s x c).1 = Some (Some r) ∧ answers_members (conn (visible_edges evs s) x) c r
   else (members f s x c).1 = Some None) ∧
  ∀ s' y, (scope_root (members f s x c).2 s' y).1 = (scope_root f s' y).1.
Proof using.
  intros I M Hc. destruct (members_available f) eqn:Ha.
  - destruct (members_run f evs s x c I M Ha Hc) as (r & f' & -> & C & A). cbn [fst snd]. split.
    + exists r. split; [done|]. eapply answers_members_ext, A. intros y. cbn beta.
      rewrite (component_min_conn (visible_edges evs s) y x) by (by apply absorbed_scope_min).
      split; intros H; by symmetry.
    + intros s' y. eapply absorbed_root_eq; [|exact I|done]. unfold absorbed in *. by eapply forest_inv_compressed.
  - unfold members_available in Ha. unfold members. destruct (member_index f); [|done]. cbn in Ha |- *.
    destruct (tier_base (tier f)) as [b|]; [|done]. cbn in Ha |- *. by rewrite Ha.
Qed.

(** C6. The member query is exact. In every state a forest reaches by writes, queries,
    folds, swaps, snapshots and restarts, and for every cap [c] with [c + 2] below [2^64]:
    when both halves of the index are there the walk ends and answers either with the whole
    component of the node as the scope sees it, each node once, or with exactly [cap] nodes
    of it, each once, and then there are more; when a half is missing it says so. It changes
    no answer. *)
Theorem members_exact (b : bool) (f : ScopedForest) (evs : list EdgeEvent) (s : ScopeId) (x : NodeId) (c : N) :
  rtc members_step (if b then tracking_members forest_new else forest_new, []) (f, evs) →
  c + 2 < u64_limit →
  (if members_available f
   then ∃ r, (members f s x c).1 = Some (Some r) ∧
     NoDup (nodes r) ∧ (∀ y, y ∈ nodes r → conn (visible_edges evs s) x y) ∧
     match r with
     | Complete v => N.of_nat (length v) <= c ∧ ∀ y, conn (visible_edges evs s) x y → y ∈ v
     | Truncated v => N.of_nat (length v) = c ∧ ∃ y, conn (visible_edges evs s) x y ∧ y ∉ v
     end
   else (members f s x c).1 = Some None) ∧
  ∀ s' y, (scope_root (members f s x c).2 s' y).1 = (scope_root f s' y).1.
Proof using.
  intros R Hc. destruct (members_steps _ _ R (tracking_new_absorbed b) (members_inv_new b)) as [I M].
  by apply members_conn.
Qed.
End reachable.

(** ** Through the disk *)

Section disk.
Context (to_json : FileMetadata → bytes) (from_json : bytes → option FileMetadata).
Context (json_roundtrip : ∀ m, from_json (to_json m) = Some m).

(** C11. Runs written with a member index keep the query answering. On a forest served by a
    stack of indexed runs, a delta fold through the disk that writes the index pushes a
    run whose index lists exactly who records a parent: the new stack is again one of
    indexed runs, and whenever it is available the member query over it is exact for the
    events absorbed so far. *)
Theorem members_through_disk (f : ScopedForest) (evs : list EdgeEvent) (lb : LayeredBase)
    (snaps : list ForestSnapshot) (sequence : N) (opts : WriteOptions) (props : gmap string string)
    (reader : ScanReader) (reopened : bool) (data : bytes) :
  absorbed f evs → tier_base (tier f) = Some (layered_routing lb) → stack_inv lb snaps →
  Forall2 layer_lists (layers lb) snaps → opt_member_index opts = true →
  puffin_write to_json (bw_finish (foldl bw_push (bw_new sequence opts) (stream_memtable (tier f)).1)) props = Ok data →
  delta_fits f data →
  ∃ lb' f', fold_delta bw_push f (bw_new sequence opts) (delta_build to_json from_json reader reopened props lb) =
      (Ok (data, lb'), f') ∧
    Forall2 layer_lists (layers lb') (snaps ++ [collect (stream_memtable (tier f)).1]) ∧
    members_available f' = member_index f && forallb (fun l => has_member_index (ly_base l)) (layers lb') ∧
    ∀ s x c, members_available f' = true → c + 2 < u64_limit →
      ∃ r, (members f' s x c).1 = Some (Some r) ∧ answers_members (conn (visible_edges evs s) x) c r.
Proof using json_roundtrip.
  intros I Hlb Il Ll Ho Hw R.
  destruct (delta_map_run to_json from_json json_roundtrip f evs lb snaps sequence opts props reader reopened data I Hlb Il Hw R)
    as (l & El & Sl & De & Hl).
  destruct (delta_published f evs (bw_new sequence opts) (delta_build to_json from_json reader reopened props lb)
    (layered_routing (layered_pushed lb l)) (data, layered_pushed lb l) I) as [-> I']; [|done|].
  { unfold delta_build. by rewrite El. }
  assert (Forall2 layer_lists (layers (layered_pushed lb l)) (snaps ++ [collect (stream_memtable (tier f)).1])) as Ll'.
  { apply Forall2_app; [done|]. constructor; [by apply Hl|constructor]. }
  eexists _, _. split; [done|]. split; [done|]. split; [done|]. intros s x c Ha Hc.
  pose proof (members_conn _ evs s x c I') as H. rewrite Ha in H. apply H; [|done].
  split; [apply tracked_mem_new|]. intros _. by eapply stack_indexed.
Qed.
End disk.

(** ** At work *)

Definition demo_tracked : ScopedForest := foldl apply (tracking_members forest_new) demo_events.

Lemma apply_steps es : ∀ f evs,
  tier_base (tier f) = None →
  rtc (members_step (Sk := list emission) (Er := unit) (T := unit) snoc) (f, evs) (foldl apply f es, evs ++ es).
Proof.
  induction es as [|e es IH]; intros f evs Hb; cbn [foldl]; [by rewrite app_nil_r|]. rewrite cons_middle, app_assoc.
  assert (tier_base (tier (apply f e)) = None) as Hb'.
  { by rewrite apply_base. }
  eapply rtc_l; [|by apply IH]. split; [constructor|]. cbn [fst]. unfold base_of. rewrite Hb'. intros _. apply indexed_empty.
Qed.

Lemma demo_tracked_steps :
  rtc (members_step (Sk := list emission) (Er := unit) (T := unit) snoc)
    (if true then tracking_members forest_new else forest_new, []) (demo_tracked, demo_events).
Proof. unfold demo_tracked. apply (apply_steps demo_events (tracking_members forest_new) [] eq_refl). Qed.

Lemma members_exact_witness :
  ∃ r, (members demo_tracked 7 8 2).1 = Some (Some r) ∧ is_truncated r = true ∧ length (nodes r) = 2%nat ∧
    ∀ y, y ∈ nodes r → conn (visible_edges demo_events 7) 8 y.
Proof.
  destruct (members_exact (Er := unit) (T := unit) snoc true demo_tracked demo_events 7 8 2
    demo_tracked_steps eq_refl) as [H _].
  assert (members_available demo_tracked = true) as Ha by (by vm_compute). rewrite Ha in H.
  destruct H as (r & E & _ & Hr & _). exists r. split; [exact E|].
  assert ((members demo_tracked 7 8 2).1 = Some (Some (Truncated [1; 5]))) as E' by (by vm_compute).
  rewrite E in E'. injection E' as ->. split; [done|]. split; [done|exact Hr].
Defined.

Definition demo_tracked_next : ScopedForest :=
  apply (publish demo_tracked (layered_routing demo_stack)) (ev 1 0 Global).

Lemma demo_stack_lists : Forall2 layer_lists (layers demo_stack) [(snapshot demo_state).1].
Proof.
  destruct (full_map_run demo_to_json demo_from_json demo_json demo_state demo_events 3 demo_opts ∅ Buffered true demo_run
    demo_absorbed demo_run_written demo_run_fits) as (l & El & _ & _ & Hl).
  assert (demo_layer = l) as E by (unfold demo_layer; by rewrite El).
  unfold demo_stack. rewrite E. constructor; [by apply Hl|constructor].
Qed.

Lemma demo_tracked_absorbed : absorbed demo_tracked_next (demo_events ++ [ev 1 0 Global]).
Proof.
  destruct (full_map_run demo_to_json demo_from_json demo_json demo_state demo_events 3 demo_opts ∅ Buffered true demo_run
    demo_absorbed demo_run_written demo_run_fits) as (l & El & Sl & Be & _).
  assert (demo_layer = l) as E by (unfold demo_layer; by rewrite El).
  unfold demo_tracked_next, demo_stack. rewrite E. apply apply_absorbed.
  assert ((compact_locked (tier demo_state)).1 = (compact_locked (tier demo_tracked)).1) as Ec by (by vm_compute).
  rewrite Ec in Be.
  apply (fold_published demo_tracked demo_events (bw_new 3 demo_opts) (fun _ => Ok (layered_routing (layered_new l), tt))
    (Er := unit) _ tt); [|done|done].
  exact (apply_all_absorbed demo_events _ [] (tracking_new_absorbed true)).
Qed.

Lemma members_through_disk_witness :
  ∃ lb' f', fold_delta bw_push demo_tracked_next (bw_new 4 demo_opts)
      (delta_build demo_to_json demo_from_json Buffered true ∅ demo_stack) = (Ok (demo_delta, lb'), f') ∧
    ∃ r, (members f' 7 8 10).1 = Some (Some r) ∧
      answers_members (conn (visible_edges (demo_events ++ [ev 1 0 Global]) 7) 8) 10 r.
Proof.
  assert ((stream_memtable (tier demo_next)).1 = (stream_memtable (tier demo_tracked_next)).1) as Ec by (by vm_compute).
  destruct (members_through_disk demo_to_json demo_from_json demo_json demo_tracked_next (demo_events ++ [ev 1 0 Global])
    demo_stack _ 4 demo_opts ∅ Buffered true demo_delta demo_tracked_absorbed eq_refl (proj1 demo_stack_spec)
    demo_stack_lists eq_refl) as (lb' & f' & E & _ & _ & H).
  { rewrite <- Ec. exact demo_delta_written. }
  { destruct demo_delta_fits as [F1 F2 F3]. rewrite Ec in F1, F2. by split. }
  exists lb', f'. split; [exact E|]. apply H; [|done].
  assert (members_available (fold_delta bw_push demo_tracked_next (bw_new 4 demo_opts)
    (delta_build demo_to_json demo_from_json Buffered true ∅ demo_stack)).2 = true) as Ha by (by vm_compute).
  rewrite E in Ha. exact Ha.
Defined.

(** A run claims a member index when it has one for the shared tier. A fold that only has
    scoped edges to write has no shared pair, writes no shared index, and its run makes
    the whole stack say it cannot answer, although every pair of it is indexed: the query
    answers before the fold and not after it. *)
Definition scoped_only : ScopedForest :=
  apply (publish demo_tracked (layered_routing demo_stack)) (ev 20 21 (Scoped [7])).

Lemma scoped_fold_silences_members :
  let '(r, f') := fold_delta bw_push scoped_only (bw_new 4 demo_opts)
    (delta_build demo_to_json demo_from_json Buffered true ∅ demo_stack) in
  is_ok r = true ∧ (members scoped_only 7 21 10).1 = Some (Some (Complete [20; 21])) ∧ (members f' 7 21 10).1 = Some None.
Proof. vm_compute. split_and!; reflexivity. Qed.

(** The budget [cap + 1] is computed at the width of a [usize]: at the largest cap it is
    zero, no child is ever fetched and a component of four is reported as the root alone. *)
Lemma expand_largest r get :
  get r 0%nat = [] → expand (walk_new (u64_limit - 1)) [r] get = Some (mkWalk (u64_limit - 1) {[r]} [r] false).
Proof.
  intros Hg. unfold expand. cbn [admit_all]. unfold admit_node. cbn [seen walk_new walk_out cap length].
  rewrite bool_decide_eq_false_2 by set_solver.
  assert ((u64_limit - 1 <=? N.of_nat 0) = false) as -> by done. cbn [truncated app walk_new].
  destruct (N.to_nat (cap (mkWalk (u64_limit - 1) ({[r]} ∪ ∅) [r] false))) as [|n] eqn:E.
  { exfalso. cbn [cap] in E. assert (u64_limit - 1 = 0) as E0 by lia. discriminate E0. }
  cbn [expand_loop].
  assert (N.to_nat (cap (mkWalk (u64_limit - 1) ({[r]} ∪ ∅) [r] false) ⊞ 1) = 0%nat) as -> by (by vm_compute). rewrite Hg. cbn [admit_all expand_loop].
  destruct n; cbn [expand_loop]; do 2 f_equal; set_solver.
Qed.

Lemma largest_cap_wraps :
  (members demo_tracked GLOBAL_SCOPE 9 (u64_limit - 1)).1 = Some (Some (Complete [1])) ∧
  (members demo_tracked GLOBAL_SCOPE 9 10).1 = Some (Some (Complete [1; 5; 9])).
Proof.
  split; [|by vm_compute]. unfold members.
  assert (member_index demo_tracked = true) as -> by (by vm_compute).
  assert (tier_base (tier demo_tracked) = None) as -> by (by vm_compute). cbn [negb from_option].
  destruct (shared_root (tier demo_tracked) 9 false) as [r t] eqn:E.
  assert (r = 1) as -> by (change r with (r, t).1; rewrite <- E; by vm_compute).
  assert (tier_base t = None) as Hb by (change t with (1, t).2; rewrite <- E, shared_root_base; by vm_compute).
  assert ((GLOBAL_SCOPE =? GLOBAL_SCOPE) = true) as -> by done. rewrite expand_largest; [done|].
  unfold global_children, children_of. rewrite Hb. destruct (children _) as [ch|]; [|done].
  destruct (ch !! 1) as [ks|]; [|done]. by rewrite Nat.min_0_r.
Qed.
