(* ===== verification/CompactInv.v ===== *)
(** The run merger: its tables are the stack's tables whatever the parallelism, its
    registry is the union of the layers' registries at the live roots, and its blobs
    are those of a run. *)

From S2P Require Import Prelude Types Bytes Filter Registry MemberIndex Blocked BlockedRead.
From S2P Require Import Graph Dsu View RoutingBase Forest ForestInv Compaction CompactionInv FoldInv ForestProps Codec CodecInv CodecProps.
From S2P Require Import PairTable Puffin PuffinBase PuffinSample PuffinBlobs PuffinBaseInv PuffinServe PuffinProps Layered Compact LayeredInv LayeredServe LayeredProps.

(** ** Tables *)

Lemma push_rows pairs : ∀ buf n,
  n + N.of_nat (length pairs) < u64_limit →
  foldl push_row (buf, n) pairs = (buf ++ mjoin (put_pair <$> pairs), n + N.of_nat (length pairs)).
Proof.
  induction pairs as [|[k v] pairs IH]; intros buf n Hn; cbn [foldl].
  - cbn. rewrite app_nil_r. f_equal. lia.
  - cbn [length] in Hn. unfold push_row at 2. cbn [fst snd]. rewrite wadd64_small by lia. rewrite IH by lia.
    rewrite fmap_cons, mjoin_cons. unfold put_pair at 2. cbn [fst snd length]. rewrite <-!app_assoc. f_equal. lia.
Qed.

Lemma table_payload_spec pairs :
  N.of_nat (length pairs) < u64_limit → table_payload pairs = (table pairs, N.of_nat (length pairs)).
Proof.
  intros H. unfold table_payload. rewrite push_rows by lia. rewrite N.add_0_l. by rewrite close_open_table.
Qed.

(** ** Overlays, in parallel or not *)

Lemma join_slice_chunks {A} per (l : list A) : (0 < per)%nat → ∀ fuel, (length l <= fuel)%nat →
  mjoin (slice_chunks fuel per l) = l.
Proof.
  intros Hp fuel. revert l. induction fuel as [|fuel IH]; intros [|a l] Hl; try done; [cbn in Hl; lia|].
  cbn [slice_chunks]. rewrite mjoin_cons, IH; [apply take_drop|]. rewrite length_drop. cbn in *. lia.
Qed.

Lemma omap_join {A B} (f : A → option B) (ls : list (list A)) : omap f (mjoin ls) = mjoin (omap f <$> ls).
Proof.
  induction ls as [|l ls IH]; [done|]. rewrite fmap_cons, !mjoin_cons, <-IH. apply omap_app.
Qed.

Lemma merge_overlays_seq parallelism lb : merge_overlays parallelism lb = omap (one_overlay lb) (layered_scopes lb).
Proof.
  unfold merge_overlays. set (scopes := layered_scopes lb).
  destruct (Nat.leb_spec (Nat.min parallelism (Nat.max (length scopes) 1)) 1) as [|H]; [done|].
  rewrite <-omap_join, join_slice_chunks; [done| |done]. unfold div_ceil.
  apply Nat.div_str_pos. lia.
Qed.

(** ** The k-way merge of the registries *)

#[export] Instance pair_le_refl : Reflexive pair_le.
Proof. intros a. right. lia. Qed.

Lemma pair_le_or_lt a b : pair_lt a b ∨ pair_le b a.
Proof. unfold pair_lt, pair_le. lia. Qed.

Lemma pair_lt_le a b : pair_lt a b → pair_le a b.
Proof. unfold pair_lt, pair_le. lia. Qed.

Lemma pick_run_spec runs : ∀ i pick,
  match pick_run i runs pick with
  | None => pick = None ∧ Forall (fun run => run = []) runs
  | Some (j, e) =>
      (pick = Some (j, e) ∨ ∃ k rest, j = (i + k)%nat ∧ runs !! k = Some (e :: rest)) ∧
      (∀ p, pick = Some p → pair_le e p.2) ∧
      Forall (fun run => ∀ x rest, run = x :: rest → pair_le e x) runs
  end.
Proof.
  induction runs as [|run runs IH]; intros i pick; cbn [pick_run].
  { destruct pick as [[j e]|]; [|done]. split_and!; [by left| |constructor]. intros p [= <-]. done. }
  specialize (IH (S i)). destruct run as [|x rest].
  - specialize (IH pick). destruct (pick_run (S i) runs pick) as [[j e]|].
    + destruct IH as (H1 & H2 & H3). split_and!; [|done|by constructor].
      destruct H1 as [->|(k & rest & -> & Hk)]; [by left|]. right. exists (S k), rest. split; [lia|done].
    + destruct IH as [-> H]. split; [done|]. by constructor.
  - set (pick' := match pick with Some (_, best) => if decide (pair_lt x best) then Some (i, x) else pick
                  | None => Some (i, x) end).
    assert (∃ j' e', pick' = Some (j', e') ∧ pair_le e' x ∧ (∀ p, pick = Some p → pair_le e' p.2) ∧
      (pick' = pick ∨ (j' = i ∧ e' = x))) as (j' & e' & Hp & Hx & Hb & Hor).
    { unfold pick'. destruct pick as [[j0 best]|]; [case_decide as Hlt|].
      - exists i, x. split_and!; [done|done| |by right]. intros p [= <-]. by apply pair_lt_le.
      - exists j0, best. split_and!; [done| | |by left].
        + by destruct (pair_le_or_lt x best).
        + intros p [= <-]. done.
      - exists i, x. split_and!; [done|done|done|by right]. }
    specialize (IH pick'). destruct (pick_run (S i) runs pick') as [[j e]|]; [|by destruct IH; congruence].
    destruct IH as (H1 & H2 & H3). specialize (H2 _ Hp). cbn in H2. split_and!.
    + destruct H1 as [E|(k & rest' & -> & Hk)].
      * destruct Hor as [Ho|[-> ->]]; [left; congruence|]. rewrite Hp in E. injection E as <- <-.
        right. exists 0%nat, rest. split; [lia|done].
      * right. exists (S k), rest'. split; [lia|done].
    + intros p Hpk. etrans; [exact H2|]. by apply Hb.
    + constructor; [|done]. intros y rest' [= <- <-]. by etrans.
Qed.

Lemma alter_tail_join (runs : list (list (NodeId * ScopeId))) : ∀ k e rest,
  runs !! k = Some (e :: rest) → mjoin runs ≡ₚ e :: mjoin (alter tail k runs).
Proof.
  induction runs as [|run runs IH]; intros [|k] e rest Hk; try done; cbn in Hk.
  - by simplify_eq.
  - change (alter tail (S k) (run :: runs)) with (run :: alter tail k runs).
    rewrite !mjoin_cons, (IH k e rest Hk). by rewrite Permutation_middle.
Qed.

Lemma alter_tail_sorted (runs : list (list (NodeId * ScopeId))) k :
  Forall (StronglySorted pair_le) runs → Forall (StronglySorted pair_le) (alter tail k runs).
Proof.
  intros H. revert k. induction H as [|run runs Hr H IH]; intros [|k]; try constructor; auto; try apply IH.
  destruct run; [done|]. by apply StronglySorted_inv in Hr as [? _].
Qed.

Lemma head_le_join (runs : list (list (NodeId * ScopeId))) e :
  Forall (StronglySorted pair_le) runs → Forall (fun run => ∀ x rest, run = x :: rest → pair_le e x) runs →
  Forall (pair_le e) (mjoin runs).
Proof.
  intros Hs Hh. apply Forall_join. apply Forall_forall. intros run Hr. rewrite Forall_forall in Hs, Hh.
  specialize (Hs _ Hr). specialize (Hh _ Hr). destruct run as [|x rest]; [constructor|].
  apply StronglySorted_inv in Hs as [_ Hx]. specialize (Hh x rest eq_refl). constructor; [done|].
  eapply Forall_impl; [exact Hx|]. intros y Hy. by etrans.
Qed.

Lemma merge_runs_spec fuel : ∀ runs,
  Forall (StronglySorted pair_le) runs → (length (mjoin runs) < fuel)%nat →
  ∃ out, merge_runs fuel runs = Some out ∧ StronglySorted pair_le out ∧ out ≡ₚ mjoin runs.
Proof.
  induction fuel as [|fuel IH]; intros runs Hs Hl; [lia|]. cbn [merge_runs].
  pose proof (pick_run_spec runs 0 None) as Hp. destruct (pick_run 0 runs None) as [[j e]|].
  - destruct Hp as ([|(k & rest & -> & Hk)] & _ & Hm); [done|]. cbn [Nat.add].
    pose proof (alter_tail_join runs k e rest Hk) as Hj. rewrite Hj in Hl. cbn in Hl.
    destruct (IH (alter tail k runs)) as (out & -> & So & Po); [by apply alter_tail_sorted|lia|].
    exists (e :: out). split; [done|]. split; [|by rewrite Hj, Po]. constructor; [done|].
    rewrite Po. pose proof (head_le_join runs e Hs Hm) as Hall. rewrite Hj in Hall. by apply Forall_cons in Hall as [_ ?].
  - destruct Hp as [_ Hp]. exists []. split; [done|]. split; [constructor|].
    clear -Hp. induction Hp as [|run runs -> _ IH]; [done|]. by rewrite mjoin_cons.
Qed.

Lemma length_join_sum {A} (ls : list (list A)) : length (mjoin ls) = sum_list (length <$> ls).
Proof. induction ls as [|l ls IH]; [done|]. rewrite mjoin_cons, length_app, IH. done. Qed.

(** ** The two passes over the registries *)

Lemma push_upto_spec cs e :
  StronglySorted pair_le cs → ∃ taken rest, cs = taken ++ rest ∧ Forall (fun c => pair_le c e) taken ∧
    Forall (pair_le e) rest ∧ ∀ st, push_upto cs e st = (rest, foldl push_entry_once st taken).
Proof.
  induction 1 as [|c cs Hs IH Hc]; [by exists [], []|]. cbn [push_upto]. case_decide as H.
  - destruct IH as (taken & rest & -> & Ht & Hr & IH). exists (c :: taken), rest.
    split_and!; [done|by constructor|done|]. intros st. by rewrite IH.
  - exists [], (c :: cs). split_and!; [done|constructor| |done]. destruct (pair_le_or_lt e c) as [Hlt|]; [|done].
    apply pair_lt_le in Hlt. constructor; [done|]. eapply Forall_impl; [exact Hc|]. intros x Hx. by etrans.
Qed.

Lemma sorted_pair_app (l1 l2 : list (N * N)) :
  StronglySorted pair_le l1 → StronglySorted pair_le l2 → (∀ x y, x ∈ l1 → y ∈ l2 → pair_le x y) →
  StronglySorted pair_le (l1 ++ l2).
Proof.
  induction 1 as [|a l1 H1 IH Ha]; intros H2 H; [done|]. cbn. constructor.
  - apply IH; [done|]. intros x y Hx. apply H. by right.
  - apply Forall_app. split; [done|]. apply Forall_forall. intros y. apply H. left.
Qed.

(** Both passes together push a sorted interleaving. *)
Lemma write_entries_spec moved entries : ∀ cs,
  StronglySorted pair_le entries → StronglySorted pair_le cs →
  ∃ out, (∀ st, write_entries moved entries cs st = foldl push_entry_once st out) ∧
    StronglySorted pair_le out ∧ out ≡ₚ filter (fun e => e.1 ∉ moved) entries ++ cs.
Proof.
  induction entries as [|e entries IH]; intros cs He Hc; cbn [write_entries].
  { exists cs. by split_and!. }
  apply StronglySorted_inv in He as [He Hle]. rewrite filter_cons. case_decide as Hm.
  { destruct (IH cs He Hc) as (out & H1 & H2 & H3). exists out. rewrite decide_False by naive_solver. by split_and!. }
  rewrite decide_True by done.
  destruct (push_upto_spec cs e Hc) as (taken & rest & -> & Ht & Hr & Hp).
  destruct (IH rest He) as (out & H1 & H2 & H3); [by apply StronglySorted_app_1_r in Hc|].
  assert (Forall (pair_le e) out) as Ho.
  { rewrite H3. apply Forall_app. split; [|done]. apply Forall_forall. intros x [_ Hx]%list_elem_of_filter.
    rewrite Forall_forall in Hle. by apply Hle. }
  exists (taken ++ e :: out). split_and!.
  - intros st. rewrite Hp, H1, foldl_app. done.
  - apply sorted_pair_app; [by apply StronglySorted_app_1_l in Hc|by constructor|].
    intros x y Hx Hy. rewrite Forall_forall in Ht, Ho. apply elem_of_cons in Hy as [->|Hy]; [by apply Ht|].
    etrans; [by apply Ht|by apply Ho].
  - rewrite H3. cbn [app]. rewrite <-Permutation_middle. apply perm_skip. rewrite !app_assoc.
    by rewrite (Permutation_app_comm taken).
Qed.

Lemma push_entry_once_dedup w es : ∀ l,
  foldl push_entry_once (last l, reg_push_all w (dedup l)) es = (last (l ++ es), reg_push_all w (dedup (l ++ es))).
Proof.
  induction es as [|e es IH]; intros l; cbn [foldl]; [by rewrite app_nil_r|].
  rewrite cons_middle, app_assoc, <-IH. f_equal. unfold push_entry_once. cbn [fst snd].
  rewrite dedup_snoc, last_snoc. unfold push_dedup. rewrite dedup_last. case_decide as H.
  - rewrite bool_decide_eq_true_2 by done. by rewrite H.
  - rewrite bool_decide_eq_false_2 by done. unfold reg_push_all. by rewrite foldl_app.
Qed.

(** ** What the merger writes *)

Definition registry_entries_of (lb : LayeredBase) : list (NodeId * ScopeId) := mjoin (ly_registry <$> layers lb).

(** The merged registry. *)
Definition merged_registry (lb : LayeredBase) : list (NodeId * ScopeId) :=
  let entries := default [] (for_each_registry_entry lb) in
  dedup (sort_pairs (filter (fun e => e.1 ∉ moved_roots lb) entries ++ corrections_of lb (moved_roots lb) entries)).

Lemma sort_dedup_sorted l : StronglySorted pair_le (dedup (sort_pairs l)) ∧ NoDup (dedup (sort_pairs l)).
Proof. apply dedup_sorted_nodup, StronglySorted_merge_sort; apply _. Qed.

Lemma sort_pairs_unique l out : StronglySorted pair_le out → out ≡ₚ l → out = sort_pairs l.
Proof.
  intros Hs Hp. apply (StronglySorted_unique pair_le); [done|apply StronglySorted_merge_sort; apply _|].
  unfold sort_pairs. by rewrite merge_sort_Permutation.
Qed.

Lemma for_each_registry_entry_spec lb :
  Forall (fun l => StronglySorted pair_le (ly_registry l)) (layers lb) →
  for_each_registry_entry lb = Some (sort_pairs (registry_entries_of lb)).
Proof.
  intros Hs. unfold for_each_registry_entry.
  destruct (merge_runs_spec (S (sum_list (length <$> (ly_registry <$> layers lb)))) (ly_registry <$> layers lb))
    as (out & -> & So & Po).
  - by apply Forall_fmap.
  - rewrite length_join_sum. lia.
  - f_equal. by apply sort_pairs_unique.
Qed.

Lemma compact_registry_spec lb encoding :
  Forall (fun l => StronglySorted pair_le (ly_registry l)) (layers lb) →
  mr_blob (compact_registry lb encoding) = encode_registry (merged_registry lb) encoding.
Proof.
  intros Hs. pose proof (for_each_registry_entry_spec lb Hs) as He.
  unfold compact_registry, merged_registry. rewrite He. cbn [default from_option id mr_blob].
  set (entries := sort_pairs (registry_entries_of lb)). set (cs := corrections_of lb (moved_roots lb) entries).
  destruct (write_entries_spec (moved_roots lb) entries cs) as (out & H1 & H2 & H3).
  - apply StronglySorted_merge_sort; apply _.
  - apply sort_dedup_sorted.
  - rewrite H1. change (None, reg_new encoding) with (last (@nil (N * N)), reg_push_all (reg_new encoding) (dedup [])).
    rewrite push_entry_once_dedup. cbn [app snd]. unfold encode_registry. do 3 f_equal. by apply sort_pairs_unique.
Qed.

(** The snapshot the merger writes. *)
Definition merged_scopes (lb : LayeredBase) : list (ScopeId * list (NodeId * NodeId)) :=
  (fun s => (s, overlay_pairs (layered_routing lb) s)) <$>
  filter (fun s => overlay_pairs (layered_routing lb) s ≠ []) (layered_scopes lb).

Definition merged_snap (lb : LayeredBase) : ForestSnapshot :=
  mkSnap (shared_pairs (layered_routing lb)) (merged_scopes lb).

Record merge_fits (lb : LayeredBase) : Prop := {
  mf_snap : snap_fit (merged_snap lb);
  mf_pairs : N.of_nat (sum_list ((fun sp => length sp.2) <$> merged_scopes lb)) < u64_limit;
  mf_registry : N.of_nat (length (registry_entries_of lb)) < u64_limit;
}.

Lemma inert_sources blobs : Forall inert_blob blobs → omap member_source blobs = [].
Proof.
  induction 1 as [|b blobs [H1 H2] _ IH]; [done|]. cbn [omap list_omap]. unfold member_source.
  rewrite !bool_decide_eq_false_2 by done. exact IH.
Qed.

Lemma omap_fmap {A B C} (f : A → B) (g : B → option C) (l : list A) : omap g (f <$> l) = omap (fun x => g (f x)) l.
Proof. induction l as [|x l IH]; [done|]. cbn. by rewrite IH. Qed.

Lemma omap_some {A B} (f : A → option B) (g : A → B) (l : list A) :
  (∀ x, x ∈ l → f x = Some (g x)) → omap f l = g <$> l.
Proof.
  induction l as [|x l IH]; intros H; [done|]. cbn. rewrite (H x) by left. f_equal. apply IH. intros y Hy. apply H. by right.
Qed.

Section run.
Context (lb : LayeredBase) (F : merge_fits lb).
Context (Hg : StronglySorted N.lt (shared_pairs (layered_routing lb)).*1).
Context (Ho : ∀ s, StronglySorted N.lt (overlay_pairs (layered_routing lb) s).*1).
Context (Hr : Forall (fun l => StronglySorted pair_le (ly_registry l)) (layers lb)).

Lemma merged_sorted : snap_sorted (merged_snap lb) ∧ StronglySorted N.lt (snap_scopes (merged_snap lb)).*1.
Proof using Hg Ho.
  split; [split|]; cbn [merged_snap snap_global snap_scopes]; [done| |].
  - apply Forall_fmap, Forall_forall. intros s _. apply Ho.
  - unfold merged_scopes. rewrite <-list_fmap_compose.
    rewrite (list_fmap_ext _ id) by done. rewrite list_fmap_id.
    apply StronglySorted_filter. apply dedup_sorted_lt, sort_N_sorted.
Qed.

Lemma merged_overlays parallelism :
  merge_overlays parallelism lb = (fun sp => (sp.1, table sp.2, N.of_nat (length sp.2))) <$> merged_scopes lb.
Proof using F.
  rewrite merge_overlays_seq. pose proof (sf_scopes _ (mf_snap _ F)) as Fs. cbn [merged_snap snap_scopes] in Fs.
  unfold merged_scopes in *. induction (layered_scopes lb) as [|s scopes IH]; [done|]. cbn [omap list_omap].
  unfold one_overlay at 1. change (default [] (layered_overlay_pairs lb s)) with (overlay_pairs (layered_routing lb) s).
  destruct (decide (overlay_pairs (layered_routing lb) s = [])) as [E|E].
  - rewrite filter_cons_False in Fs |- * by (by intros H). rewrite E. by apply IH.
  - rewrite filter_cons_True in Fs |- * by done. rewrite !fmap_cons in *. apply Forall_cons in Fs as [[_ [_ Fl]] Fs].
    cbn [fst snd] in Fl |- *. rewrite <-IH by done. clear IH Fs.
    destruct (overlay_pairs (layered_routing lb) s) as [|kv pairs]; [done|]. by rewrite table_payload_spec by lia.
Qed.

Lemma sum_counts (ls : list (ScopeId * list (NodeId * NodeId))) : ∀ n,
  n + N.of_nat (sum_list ((fun sp => length sp.2) <$> ls)) < u64_limit →
  foldl (fun n o => n ⊞ o.2) n ((fun sp => (sp.1, table sp.2, N.of_nat (length sp.2))) <$> ls) =
  n + N.of_nat (sum_list ((fun sp => length sp.2) <$> ls)).
Proof using.
  clear. induction ls as [|sp ls IH]; intros n Hn; [cbn; lia|]. rewrite !fmap_cons in *. cbn [foldl snd].
  change (sum_list (?a :: ?l)) with (a + sum_list l)%nat in *. rewrite wadd64_small by lia. rewrite IH by lia. lia.
Qed.

(** The merger's blobs are those of a run that stores the merged snapshot and the
    merged registry. *)
Lemma compact_layers_run parallelism sequence opts :
  (compact_layers parallelism lb sequence opts).1 =
  run_blobs (merged_snap lb) (merged_registry lb) (as_i64 sequence) opts.
Proof using F Hg Ho Hr.
  unfold compact_layers. destruct F as [[F1 F2] Fp Fr]. destruct merged_sorted as [[_ O2] _].
  cbn [merged_snap snap_global snap_scopes] in *.
  change (default [] (layered_shared_pairs lb)) with (shared_pairs (layered_routing lb)).
  rewrite table_payload_spec by (destruct F1; lia). rewrite merged_overlays, sum_counts by done. rewrite N.add_0_l, !Nat2N.id.
  rewrite compact_registry_spec by done. unfold run_blobs. cbn [merged_snap snap_global snap_scopes].
  rewrite encode_pairs_sorted by done. rewrite table_keys_table by done.
  rewrite Forall_forall in F2, O2.
  assert ((fun sp => scope_blob (as_i64 sequence) sp.1 (encode_pairs sp.2)) <$> merged_scopes lb =
    (fun sp => scope_blob (as_i64 sequence) sp.1 (table sp.2)) <$> merged_scopes lb) as ->.
  { apply fmap_ext_in. intros sp Hsp. by rewrite encode_pairs_sorted by (by apply O2). }
  rewrite <-(list_fmap_compose _ (fun o => scope_blob (as_i64 sequence) o.1.1 o.1.2)).
  unfold compose. cbn [fst snd].
  assert (((fun sp => (sp.1, table sp.2, N.of_nat (length sp.2))) <$> merged_scopes lb) ≫=
      (fun o => overlay_key o.1.1 <$> (table_keys o.1.2).*1) =
    merged_scopes lb ≫= (fun sp => overlay_key sp.1 <$> sp.2.*1)) as ->.
  { apply mbind_fmap_ext. intros sp Hsp. cbn [fst snd]. by rewrite table_keys_table by (by apply F2). }
  set (tables := [plain_blob _ GLOBAL_BLOB_TYPE _] ++ _ ++ _ ++ _).
  destruct (opt_member_index opts); [|done]. cbn [fst].
  rewrite <-member_steps_agree.
  - do 5 f_equal.
    all: unfold tables; rewrite !omap_app, (inert_sources (option_blob _ _)), (inert_sources (filter_blobs _ _)), !app_nil_r
      by (apply registry_inert || apply filters_inert, table_filters_inert).
    all: rewrite omap_fmap, (omap_some _ (fun sp => (Overlay, sp.1, table sp.2))), <-list_fmap_compose; [done|].
    all: intros sp Hsp; unfold member_source; cbn [blob_type scope_blob blob_data].
    all: rewrite scope_of_blob by (by apply F2); done.
  - apply Forall_app. split; [by repeat constructor|]. apply Forall_app. split.
    + apply Forall_fmap, Forall_forall. intros sp Hsp _. unfold compose. by rewrite scope_of_blob by (by apply F2).
    + apply inert_canonical, Forall_app. split; [apply registry_inert|apply filters_inert, table_filters_inert].
Qed.
End run.

(** ** Stretches of a stack *)

Lemma lookup_app_add {A} (l k : list A) i : (l ++ k) !! (length l + i)%nat = k !! i.
Proof. rewrite lookup_app_r by lia. f_equal. lia. Qed.

Lemma stack_root_suffix ps qs x :
  Forall table_wf (ps ++ qs) → stack_root (ps ++ qs) x = x → stack_root qs x = x.
Proof.
  intros H E. pose proof (stack_root_prefix ps qs x H E) as Ep. by rewrite stack_root_app, Ep in E.
Qed.

Lemma stack_ok_suffix ps qs : stack_ok (ps ++ qs) → stack_ok qs.
Proof.
  intros [H1 H2 H3].
  assert (∀ i, take (length ps + i) (ps ++ qs) = ps ++ take i qs) as Ht by (intros i; apply take_app_add).
  assert (∀ n, Forall table_wf (ps ++ take n qs)) as Hw.
  { intros n. apply Forall_app in H1 as [? ?]. apply Forall_app. split; [done|]. by apply Forall_take. }
  split; [by apply Forall_app in H1 as []|..]; intros i p k v Hi Hin.
  - apply (stack_root_suffix ps); [apply Hw|]. rewrite <-Ht. eapply H2; [|done]. by rewrite lookup_app_add.
  - apply (stack_root_suffix ps); [apply Hw|]. rewrite <-Ht, Nat.add_succ_r. eapply H3; [|done]. by rewrite lookup_app_add.
Qed.

(** A table that is a stretch of the stack composed can stand for it. *)
Section splice_tables.
Context (As Bs Cs : list (list (NodeId * NodeId))) (S : stack_ok (As ++ Bs ++ Cs)).
Context (p : list (NodeId * NodeId)) (Hs : StronglySorted N.lt p.*1).
Context (Hp : ∀ k r, (k, r) ∈ p ↔ stack_root Bs k = r ∧ r ≠ k).

Lemma splice_root x : pairs_root p x = stack_root Bs x.
Proof using Hs Hp.
  unfold pairs_root. destruct (_ !! x) as [r|] eqn:E; cbn.
  - apply elem_of_list_to_map_2 in E. symmetry. by apply Hp.
  - destruct (decide (stack_root Bs x = x)) as [|Hne]; [done|]. exfalso.
    rewrite (elem_of_list_to_map_1 p x (stack_root Bs x)) in E; [done|by apply sorted_lt_nodup|]. by apply Hp.
Qed.

Lemma splice_stack x : stack_root (As ++ [p] ++ Cs) x = stack_root (As ++ Bs ++ Cs) x.
Proof using Hs Hp.
  rewrite !stack_root_app. f_equal. cbn [stack_root foldl]. apply splice_root.
Qed.

Lemma splice_key k : stack_root Bs k ≠ k → stack_root As k = k.
Proof using S.
  intros Hne. pose proof (stack_ok_prefix _ Cs ltac:(by rewrite <-app_assoc)) as S'.
  pose proof (stack_ok_suffix As Bs S') as SB. apply (stack_root_touched _ _ SB) in Hne.
  apply list_elem_of_fmap in Hne as ([k' v] & -> & (q & Hq & [i Hi]%list_elem_of_lookup_1)%list_elem_of_join).
  assert (stack_root (take (length As + i) (As ++ Bs)) k' = k') as E.
  { eapply (sk_keys _ S'); [|exact Hq]. by rewrite lookup_app_add. }
  rewrite take_app_add in E. eapply stack_root_prefix, E. apply Forall_app. pose proof (sk_wf _ S') as Hw.
  apply Forall_app in Hw as [? ?]. split; [done|]. by apply Forall_take.
Qed.

Lemma splice_tables : stack_ok (As ++ [p] ++ Cs).
Proof using S Hs Hp.
  pose proof (sk_wf _ S) as Hw. rewrite !Forall_app in Hw. destruct Hw as (HwA & HwB & HwC).
  assert (stack_ok (As ++ Bs)) as S' by (eapply (stack_ok_prefix _ Cs); by rewrite <-app_assoc).
  split.
  - rewrite !Forall_app. split_and!; [done| |done]. apply Forall_singleton. split; [done|].
    intros k v [<- Hne]%Hp. pose proof (stack_root_le Bs k HwB). lia.
  - intros i q k v Hi Hin. apply lookup_app_Some in Hi as [Hi|[Hge Hi]].
    + pose proof (lookup_lt_Some _ _ _ Hi). rewrite take_app_le by lia.
      rewrite <-(take_app_le As (Bs ++ Cs)) by lia. eapply (sk_keys _ S); [|done]. by apply lookup_app_l_Some.
    + replace i with (length As + (i - length As))%nat by lia. rewrite take_app_add.
      destruct (i - length As)%nat as [|j] eqn:Ej.
      * injection Hi as <-. rewrite app_nil_r. apply Hp in Hin as [Hr Hne]. apply splice_key. congruence.
      * cbn in Hi. change (take (Datatypes.S j) ([p] ++ Cs)) with (p :: take j Cs).
        rewrite stack_root_app. cbn [stack_root foldl]. rewrite splice_root.
        assert (stack_root (take (length As + (length Bs + j)) (As ++ Bs ++ Cs)) k = k) as E.
        { eapply (sk_keys _ S); [|done]. by rewrite !lookup_app_add. }
        rewrite !take_app_add, !stack_root_app in E. exact E.
  - intros i q k v Hi Hin. apply lookup_app_Some in Hi as [Hi|[Hge Hi]].
    + pose proof (lookup_lt_Some _ _ _ Hi). rewrite take_app_le by lia.
      rewrite <-(take_app_le As (Bs ++ Cs)) by lia. eapply (sk_vals _ S); [|done]. by apply lookup_app_l_Some.
    + replace (Datatypes.S i) with (length As + Datatypes.S (i - length As))%nat by lia. rewrite take_app_add.
      destruct (i - length As)%nat as [|j] eqn:Ej.
      * injection Hi as <-. cbn [take app]. apply Hp in Hin as [Hr Hne]. rewrite stack_root_app.
        cbn [stack_root foldl]. rewrite splice_root, <-Hr. pose proof (stack_root_idem (As ++ Bs) k S') as E.
        by rewrite !stack_root_app, (splice_key k) in E by congruence.
      * cbn in Hi. change (take (Datatypes.S (Datatypes.S j)) ([p] ++ Cs)) with (p :: take (Datatypes.S j) Cs).
        rewrite stack_root_app. cbn [stack_root foldl]. rewrite splice_root.
        assert (stack_root (take (length As + (length Bs + Datatypes.S j)) (As ++ Bs ++ Cs)) v = v) as E.
        { rewrite !Nat.add_succ_r. eapply (sk_vals _ S); [|done]. by rewrite !lookup_app_add. }
        rewrite !take_app_add, !stack_root_app in E. exact E.
Qed.
End splice_tables.

(** ** The merged run of a stack *)

Section merged.
Context (lb : LayeredBase) (snaps : list ForestSnapshot) (I : stack_inv lb snaps).

Lemma stack_length : length (layers lb) = length snaps.
Proof using I. apply (Forall2_length _ _ _ (si_layers _ _ I)). Qed.

Lemma layer_at i l : layers lb !! i = Some l → ∃ snap, snaps !! i = Some snap ∧ layer_serves l snap ∧ layer_registered l snap.
Proof using I.
  intros Hl. destruct (Forall2_lookup_l _ _ _ _ _ (si_layers _ _ I) Hl) as (snap & Hs & Sv).
  destruct (Forall2_lookup_l _ _ _ _ _ (si_registered _ _ I) Hl) as (snap' & Hs' & Lr). exists snap.
  split_and!; [done|done|congruence].
Qed.

Lemma registries_sorted : Forall (fun l => StronglySorted pair_le (ly_registry l)) (layers lb).
Proof using I.
  apply Forall_forall. intros l [i Hi]%list_elem_of_lookup_1. destruct (layer_at i l Hi) as (snap & _ & _ & Lr). apply Lr.
Qed.

Lemma layer_keys l snap k : layer_serves l snap →
  k ∈ (fun i => (ly_shared_pair_at l i).1) <$> seq 0 (ly_shared_len l) ↔ k ∈ (snap_global snap).*1.
Proof using.
  intros Sv. destruct (la_shared _ _ Sv) as [_ Hl Ha]. rewrite Hl, !list_elem_of_fmap. split.
  - intros (i & -> & [_ Hi]%elem_of_seq). destruct (lookup_lt_is_Some_2 (snap_global snap) i) as [kv Hkv]; [lia|].
    exists kv. split; [by rewrite (Ha i kv Hkv)|by eapply list_elem_of_lookup_2].
  - intros (kv & -> & [i Hi]%list_elem_of_lookup_1). exists i. split; [by rewrite (Ha i kv Hi)|].
    apply elem_of_seq. apply lookup_lt_Some in Hi. lia.
Qed.

Lemma elem_of_moved_roots k : k ∈ moved_roots lb ↔ k ∈ (mjoin (drop 1 (globals snaps))).*1.
Proof using I.
  unfold moved_roots. rewrite elem_of_list_to_set, list_elem_of_bind, list_elem_of_fmap. setoid_rewrite list_elem_of_join.
  split.
  - intros (l & Hk & [i Hi]%list_elem_of_lookup_1). rewrite lookup_drop in Hi.
    destruct (layer_at _ l Hi) as (snap & Hs & Sv & _). apply (layer_keys l snap k Sv) in Hk.
    apply list_elem_of_fmap in Hk as (kv & -> & Hkv). exists kv. split; [done|]. exists (snap_global snap).
    split; [done|]. apply (list_elem_of_lookup_2 _ i). unfold globals. by rewrite lookup_drop, list_lookup_fmap, Hs.
  - intros (kv & -> & p & Hkv & [i Hi]%list_elem_of_lookup_1). unfold globals in Hi.
    rewrite lookup_drop, list_lookup_fmap in Hi. destruct (snaps !! (1 + i)%nat) as [snap|] eqn:Hs; [|done].
    injection Hi as <-. destruct (Forall2_lookup_r _ _ _ _ _ (si_layers _ _ I) Hs) as (l & Hl & Sv).
    exists l. split; [by apply (layer_keys l snap); [|by apply list_elem_of_fmap_2]|].
    apply (list_elem_of_lookup_2 _ i). by rewrite lookup_drop.
Qed.

(** For a registered root, "keyed in a delta" is "has a parent in the stack". *)
Lemma moved_root_exact i l r s :
  layers lb !! i = Some l → (r, s) ∈ ly_registry l → r ∈ moved_roots lb ↔ stack_root (globals snaps) r ≠ r.
Proof using I.
  intros Hl Hin. rewrite elem_of_moved_roots, (stack_root_touched _ _ (si_shared _ _ I)).
  pose proof (si_live _ _ I i l r s Hl Hin) as Hlive.
  pose proof (si_shared _ _ I) as Sg. rewrite <-(take_drop (S i) (globals snaps)) in Sg.
  pose proof (stack_ok_prefix _ _ Sg) as St. assert (r ∉ (mjoin (take (S i) (globals snaps))).*1) as Hn.
  { intros Hk. by apply (stack_root_touched _ _ St) in Hk. }
  split.
  - intros Hk. rewrite <-(take_drop 1 (globals snaps)), join_app, fmap_app. apply elem_of_app. by right.
  - intros Hk. rewrite <-(take_drop (S i) (globals snaps)), join_app, fmap_app in Hk.
    apply elem_of_app in Hk as [?|Hk]; [done|].
    assert (drop (S i) (globals snaps) = drop i (drop 1 (globals snaps))) as E by (by rewrite drop_drop).
    rewrite E in Hk. rewrite <-(take_drop i (drop 1 (globals snaps))), join_app, fmap_app. apply elem_of_app. by right.
Qed.

(** The merged registry has every entry at the live root of its root. *)
Lemma elem_of_merged_registry r s :
  (r, s) ∈ merged_registry lb ↔ ∃ r0, (r0, s) ∈ registry_entries_of lb ∧ r = stack_root (globals snaps) r0.
Proof using I.
  unfold merged_registry, corrections_of. rewrite (for_each_registry_entry_spec lb registries_sorted).
  cbn [default from_option id]. set (entries := registry_entries_of lb).
  assert (∀ l : list (N * N), ∀ x, x ∈ sort_pairs l ↔ x ∈ l) as Hs.
  { intros l x. unfold sort_pairs. by rewrite merge_sort_Permutation. }
  rewrite elem_of_dedup, Hs, elem_of_app, list_elem_of_filter, elem_of_dedup, !Hs, list_elem_of_omap.
  assert (∀ r0 s0, (r0, s0) ∈ entries → r0 ∈ moved_roots lb ↔ stack_root (globals snaps) r0 ≠ r0) as Hm.
  { intros r0 s0 (reg & Hin & (l & -> & [i Hi]%list_elem_of_lookup_1)%list_elem_of_fmap)%list_elem_of_join.
    by eapply moved_root_exact. }
  assert (∀ x, default x (layered_shared_parent lb x) = stack_root (globals snaps) x) as Hx by (apply (stack_shared lb snaps I)).
  split.
  - intros [[Hn Hin]|([r0 s0] & Hin & E)].
    + exists r. split; [done|]. cbn in Hn. destruct (decide (stack_root (globals snaps) r = r)) as [|Hne]; [done|].
      by apply (Hm r s Hin) in Hne.
    + apply (proj1 (Hs _ _)) in Hin. cbn [fst snd] in E. case_decide; [|done]. rewrite Hx in E. injection E as <- <-. by exists r0.
  - intros (r0 & Hin & ->). destruct (decide (stack_root (globals snaps) r0 = r0)) as [E|E].
    + left. rewrite E. split; [|done]. cbn. intros H%(Hm r0 s Hin). done.
    + right. exists (r0, s). split; [by apply (proj2 (Hs _ _))|]. cbn [fst snd]. rewrite decide_True by (by apply (Hm r0 s)).
      by rewrite Hx.
Qed.

Lemma merged_scope_pairs s : scope_pairs (merged_snap lb) s = overlay_pairs (layered_routing lb) s.
Proof using I.
  unfold scope_pairs, merged_snap. cbn [snap_scopes]. unfold merged_scopes.
  assert (∀ scopes, NoDup scopes → (overlay_pairs (layered_routing lb) s ≠ [] → s ∈ scopes) →
    default [] ((list_to_map ((fun s => (s, overlay_pairs (layered_routing lb) s)) <$>
      filter (fun s => overlay_pairs (layered_routing lb) s ≠ []) scopes) : gmap ScopeId (list (NodeId * NodeId))) !! s) =
    overlay_pairs (layered_routing lb) s) as H.
  { intros scopes Hn Hs. destruct (_ !! s) as [ps|] eqn:E; cbn.
    - apply elem_of_list_to_map_2 in E. apply list_elem_of_fmap in E as (s' & [= -> ->] & _). done.
    - apply not_elem_of_list_to_map_2 in E. rewrite <-list_fmap_compose in E.
      destruct (decide (overlay_pairs (layered_routing lb) s = [])) as [|Hne]; [done|]. destruct E.
      apply list_elem_of_fmap. exists s. split; [done|]. apply list_elem_of_filter. auto. }
  apply H.
  - apply sorted_lt_nodup, dedup_sorted_lt, sort_N_sorted.
  - intros Hne. destruct (overlay_pairs (layered_routing lb) s) as [|[k r] ps] eqn:E; [done|].
    apply (stack_scope_listed lb snaps I s k). rewrite (stack_overlay lb snaps I).
    assert ((k, r) ∈ overlay_pairs (layered_routing lb) s) as Hin by (rewrite E; left).
    apply (stack_overlay_pairs lb snaps I s) in Hin. destruct Hin as [-> ?]. done.
Qed.

Lemma merged_scope_registered s : scope_pairs (merged_snap lb) s ≠ [] → ∃ r, (r, s) ∈ merged_registry lb.
Proof using I.
  rewrite merged_scope_pairs. intros Hne. destruct (overlay_pairs (layered_routing lb) s) as [|[k r] ps] eqn:E; [done|].
  assert ((k, r) ∈ overlay_pairs (layered_routing lb) s) as Hin by (rewrite E; left).
  apply (stack_overlay_pairs lb snaps I s) in Hin as [Hr Hkr].
  assert (stack_root (overlays s snaps) k ≠ k) as Ht by congruence.
  apply (stack_root_touched _ _ (si_overlay _ _ I s)) in Ht.
  apply list_elem_of_fmap in Ht as (kv & _ & (p & Hkv & [i Hi]%list_elem_of_lookup_1)%list_elem_of_join).
  unfold overlays in Hi. rewrite list_lookup_fmap in Hi. destruct (snaps !! i) as [snap|] eqn:Hs; [|done].
  injection Hi as <-. destruct (Forall2_lookup_r _ _ _ _ _ (si_registered _ _ I) Hs) as (l & Hl & Lr).
  destruct (lr_scope _ _ Lr s) as [r0 Hr0]; [intros Ep; rewrite Ep in Hkv; by apply not_elem_of_nil in Hkv|].
  exists (stack_root (globals snaps) r0). apply elem_of_merged_registry. exists r0. split; [|done].
  apply list_elem_of_join. exists (ly_registry l). split; [done|]. apply list_elem_of_fmap. exists l.
  split; [done|by eapply list_elem_of_lookup_2].
Qed.

Lemma merged_registry_small : Forall (fun e => e.1 < u64_limit ∧ e.2 < u32_limit) (merged_registry lb).
Proof using I.
  apply Forall_forall. intros [r s] (r0 & Hin & ->)%elem_of_merged_registry.
  apply list_elem_of_join in Hin as (reg & Hin & (l & -> & [i Hi]%list_elem_of_lookup_1)%list_elem_of_fmap).
  destruct (layer_at i l Hi) as (snap & _ & _ & Lr). pose proof (lr_small _ _ Lr) as Hs. rewrite Forall_forall in Hs.
  destruct (Hs _ Hin) as [H1 H2]. cbn in *. split; [|done].
  pose proof (stack_root_le (globals snaps) r0 (sk_wf _ (si_shared _ _ I))). lia.
Qed.

Lemma merged_entries_ok : entries_ok (merged_registry lb).
Proof using I.
  pose proof merged_registry_small as H. apply Forall_and in H as [H1 H2]. split; [|done|done].
  apply pair_le_fst_sorted, sort_dedup_sorted.
Qed.

Lemma merged_registry_length :
  N.of_nat (length (registry_entries_of lb)) < u64_limit → N.of_nat (length (merged_registry lb)) < u64_limit.
Proof using I.
  intros H. assert (length (merged_registry lb) <= length (registry_entries_of lb))%nat; [|lia].
  assert (merged_registry lb ⊆+ ((fun e => (stack_root (globals snaps) e.1, e.2)) <$> registry_entries_of lb)) as Hsub.
  { apply NoDup_submseteq; [apply sort_dedup_sorted|]. intros [r s] (r0 & Hin & ->)%elem_of_merged_registry.
    apply list_elem_of_fmap. by exists (r0, s). }
  apply submseteq_length in Hsub. by rewrite length_fmap in Hsub.
Qed.
End merged.
