(* ===== verification/CompactProps.v ===== *)
(** Merging runs through the disk: a stretch of the stack is compacted into one run,
    written, mapped and spliced back, and no answer changes. *)

From S2P Require Import Prelude Types Bytes Filter Registry MemberIndex Blocked BlockedRead.
From S2P Require Import Graph Dsu View RoutingBase Forest ForestInv Compaction CompactionInv FoldInv ForestProps Codec CodecInv CodecProps.
From S2P Require Import PairTable Puffin PuffinBase PuffinSample PuffinBlobs PuffinBaseInv PuffinServe PuffinProps.
From S2P Require Import Layered Compact LayeredInv LayeredServe LayeredProps CompactInv.

(** ** Splicing *)

Lemma globals_app l k : globals (l ++ k) = globals l ++ globals k.
Proof. apply fmap_app. Qed.

Lemma overlays_app s l k : overlays s (l ++ k) = overlays s l ++ overlays s k.
Proof. apply fmap_app. Qed.

Section splice.
Context (A B C : list Layer) (sA sB sC : list ForestSnapshot).
Context (HA : length A = length sA) (HB : length B = length sB).
Context (I : stack_inv (mkLayered (A ++ B ++ C)) (sA ++ sB ++ sC)).

Lemma splice_forall2 (R : Layer → ForestSnapshot → Prop) :
  Forall2 R (A ++ B ++ C) (sA ++ sB ++ sC) → Forall2 R A sA ∧ Forall2 R B sB ∧ Forall2 R C sC.
Proof using HA HB.
  intros H. apply Forall2_app_inv in H as [H1 H]; [|done]. by apply Forall2_app_inv in H as [H2 H3].
Qed.

(** A stretch of a stack is a stack. *)
Lemma infix_inv : stack_inv (mkLayered B) sB.
Proof using HA HB I.
  destruct I as [I1 I2 I3 I4 I5]. cbn [layers] in *. split; cbn [layers].
  - by apply splice_forall2 in I1 as (_ & ? & _).
  - rewrite !globals_app in I2. by apply stack_ok_suffix, stack_ok_prefix in I2.
  - intros s. specialize (I3 s). rewrite !overlays_app in I3. by apply stack_ok_suffix, stack_ok_prefix in I3.
  - by apply splice_forall2 in I4 as (_ & ? & _).
  - intros i l r s Hl Hin. pose proof (lookup_lt_Some _ _ _ Hl) as Hi.
    specialize (I5 (length A + i)%nat l r s). rewrite lookup_app_add, lookup_app_l in I5 by done.
    specialize (I5 Hl Hin). rewrite !globals_app in I5.
    assert (length (globals sA) = length A) as EA by (unfold globals; by rewrite length_fmap).
    rewrite <-Nat.add_succ_r, <-EA, take_app_add in I5.
    rewrite (take_app_le (globals sB)) in I5 by (unfold globals; rewrite length_fmap; lia).
    eapply stack_root_suffix, I5. rewrite !globals_app in I2. pose proof (sk_wf _ I2) as Hw.
    rewrite !Forall_app in Hw. destruct Hw as (? & ? & _). apply Forall_app. split; [done|by apply Forall_take].
Qed.

Context (M : Layer) (Sv : layer_serves M (merged_snap (mkLayered B))).
Context (Lr : layer_registered M (merged_snap (mkLayered B))) (Er : ly_registry M = merged_registry (mkLayered B)).

Lemma merged_globals :
  StronglySorted N.lt (snap_global (merged_snap (mkLayered B))).*1 ∧
  ∀ k r, (k, r) ∈ snap_global (merged_snap (mkLayered B)) ↔ stack_root (globals sB) k = r ∧ r ≠ k.
Proof using HA HB I. apply (stack_shared_pairs _ _ infix_inv). Qed.

Lemma merged_overlay s :
  StronglySorted N.lt (scope_pairs (merged_snap (mkLayered B)) s).*1 ∧
  ∀ k r, (k, r) ∈ scope_pairs (merged_snap (mkLayered B)) s ↔ stack_root (overlays s sB) k = r ∧ r ≠ k.
Proof using HA HB I. rewrite (merged_scope_pairs _ _ infix_inv). apply (stack_overlay_pairs _ _ infix_inv). Qed.

(** The stack with its stretch [B] merged. *)
Let lb := mkLayered (A ++ B ++ C).
Let lb' := mkLayered (A ++ [M] ++ C).
Let snaps' := sA ++ [merged_snap (mkLayered B)] ++ sC.

Lemma splice_shared_root x : stack_root (globals snaps') x = stack_root (globals (sA ++ sB ++ sC)) x.
Proof using HA HB I.
  unfold snaps'. rewrite !globals_app. by apply splice_stack; apply merged_globals.
Qed.

Lemma splice_overlay_root s x : stack_root (overlays s snaps') x = stack_root (overlays s (sA ++ sB ++ sC)) x.
Proof using HA HB I.
  unfold snaps'. rewrite !overlays_app. by apply splice_stack; apply merged_overlay.
Qed.

(** A root registered below the top of the merged stretch is live in the new stack. *)
Lemma splice_live i l r s :
  layers lb' !! i = Some l → (r, s) ∈ ly_registry l → stack_root (take (S i) (globals snaps')) r = r.
Proof using HA HB I Er.
  intros Hl Hin. assert (length (globals sA) = length A) as EA by (unfold globals; by rewrite length_fmap).
  assert (length (globals sB) = length B) as EB by (unfold globals; by rewrite length_fmap).
  pose proof (si_live _ _ I) as I5. cbn [layers] in I5. unfold lb', snaps' in *. cbn [layers] in Hl.
  rewrite !globals_app in *. apply lookup_app_Some in Hl as [Hl|[Hge Hl]].
  - pose proof (lookup_lt_Some _ _ _ Hl). rewrite take_app_le by lia.
    rewrite <-(take_app_le _ (globals sB ++ globals sC)) by lia. eapply I5; [|done]. by apply lookup_app_l_Some.
  - replace (S i) with (length (globals sA) + S (i - length A))%nat by lia. rewrite take_app_add.
    pose proof (si_shared _ _ I) as Sg. rewrite !globals_app in Sg.
    destruct (i - length A)%nat as [|j] eqn:Ej.
    + injection Hl as <-. cbn [globals fmap list_fmap app take]. rewrite stack_root_app.
      rewrite Er in Hin. apply (elem_of_merged_registry _ _ infix_inv) in Hin as (r0 & Hin & ->).
      apply list_elem_of_join in Hin as (reg & Hin & (l & -> & [k Hk]%list_elem_of_lookup_1)%list_elem_of_fmap).
      cbn [layers] in Hk. pose proof (lookup_lt_Some _ _ _ Hk).
      assert (stack_root (globals sA) r0 = r0) as E0.
      { specialize (I5 (length A + k)%nat l r0 s). rewrite lookup_app_add, lookup_app_l in I5 by lia.
        specialize (I5 Hk Hin). rewrite <-Nat.add_succ_r, <-EA, take_app_add in I5.
        eapply stack_root_prefix, I5. pose proof (sk_wf _ Sg) as Hw. apply Forall_app in Hw as [? ?].
        apply Forall_app. split; [done|by apply Forall_take]. }
      cbn [stack_root foldl]. rewrite (splice_root (globals sB) _ ltac:(apply merged_globals) ltac:(apply merged_globals)).
      assert (stack_ok (globals sA ++ globals sB)) as Sab by (eapply (stack_ok_prefix _ (globals sC)); by rewrite <-app_assoc).
      pose proof (stack_root_idem _ r0 Sab) as E. by rewrite !stack_root_app, E0 in E.
    + cbn in Hl. change (globals [?x]) with [snap_global x].
      change (take (S (S j)) ([?x] ++ ?c)) with (x :: take (S j) c). rewrite stack_root_app. cbn [stack_root foldl].
      rewrite (splice_root (globals sB) _ ltac:(apply merged_globals) ltac:(apply merged_globals)).
      specialize (I5 (length A + (length B + j))%nat l r s). rewrite !lookup_app_add in I5. specialize (I5 Hl Hin).
      rewrite <-!Nat.add_succ_r, <-EA, <-EB, !take_app_add, !stack_root_app in I5. exact I5.
Qed.

Lemma splice_inv : stack_inv lb' snaps'.
Proof using HA HB I Sv Lr Er.
  split; [| | | |apply splice_live]; unfold lb', snaps'; cbn [layers].
  - destruct (splice_forall2 _ (si_layers _ _ I)) as (? & ? & ?). repeat (apply Forall2_app; [done|]); try done.
    apply Forall2_app; [|done]. by apply Forall2_cons.
  - rewrite !globals_app. apply splice_tables with (globals sB); [|apply merged_globals..].
    rewrite <-!globals_app. apply I.
  - intros s. rewrite !overlays_app. apply splice_tables with (overlays s sB); [|apply merged_overlay..].
    rewrite <-!overlays_app. apply I.
  - destruct (splice_forall2 _ (si_registered _ _ I)) as (? & ? & ?). apply Forall2_app; [done|].
    apply Forall2_app; [|done]. by apply Forall2_cons.
Qed.

(** The spliced stack replaces the old one. *)
Lemma splice_replaces : base_replaces (layered_routing lb') (layered_routing lb).
Proof using HA HB I Sv Lr Er.
  pose proof splice_inv as I'. split.
  - intros x. rewrite (stack_shared _ _ I'), (stack_shared _ _ I). apply splice_shared_root.
  - intros s x. rewrite (stack_overlay _ _ I'), (stack_overlay _ _ I). apply splice_overlay_root.
  - intros r s Hr (l & Hl & Hs)%elem_of_layered_registry. apply elem_of_layered_registry. unfold lb, lb' in *. cbn [layers] in *.
    rewrite !elem_of_app in Hl. destruct Hl as [Hl|[Hl|Hl]]; [exists l; split; [set_solver|done]| |exists l; split; [set_solver|done]].
    exists M. split; [set_solver|]. apply (lr_entry _ _ Lr). rewrite Er.
    apply (elem_of_merged_registry _ _ infix_inv). exists r. split.
    + apply list_elem_of_join. exists (ly_registry l). split; [|by apply list_elem_of_fmap_2].
      destruct (splice_forall2 _ (si_registered _ _ I)) as (_ & HBr & _).
      apply list_elem_of_lookup_1 in Hl as [i Hi]. destruct (Forall2_lookup_l _ _ _ _ _ HBr Hi) as (snap & _ & Lr').
      by apply (lr_entry _ _ Lr').
    + rewrite (stack_shared _ _ I) in Hr. pose proof (sk_wf _ (si_shared _ _ I)) as Hw. rewrite !globals_app in *.
      apply stack_root_suffix in Hr; [|done]. rewrite Forall_app in Hw. symmetry. eapply stack_root_prefix, Hr. apply Hw.
  - by eapply stack_enum.
Qed.
End splice.

(** ** Merging through the disk *)

Lemma slice_parts lb start end_ sub :
  slice lb start end_ = Ok sub →
  ∃ A B C, layers lb = A ++ B ++ C ∧ sub = mkLayered B ∧ length A = start ∧ (length B = end_ - start)%nat ∧
    (start < end_ <= length (layers lb))%nat.
Proof.
  unfold slice, from_layers. destruct (Nat.leb_spec end_ (length (layers lb))) as [He|]; [|done]. cbn [negb].
  destruct (Nat.ltb_spec end_ start) as [|Hs]; [done|].
  destruct (take (end_ - start) (drop start (layers lb))) as [|l ls] eqn:E; [done|]. intros [= <-].
  assert (length (l :: ls) = (end_ - start)%nat) as Hl by (rewrite <-E, length_take, length_drop; lia).
  exists (take start (layers lb)), (l :: ls), (drop end_ (layers lb)). split_and!; [|done| |done| |done].
  - rewrite <-E. rewrite <-(take_drop start (layers lb)) at 1. f_equal.
    rewrite <-(take_drop (end_ - start) (drop start (layers lb))) at 1. f_equal. rewrite drop_drop. f_equal. lia.
  - rewrite length_take. lia.
  - cbn in Hl. lia.
Qed.

Section disk.
Context (to_json : FileMetadata → bytes) (from_json : bytes → option FileMetadata).
Context (json_roundtrip : ∀ m, from_json (to_json m) = Some m).

(** The merged run of a stack, written and mapped. *)
Lemma map_merged lb snaps parallelism sequence opts props reader reopened data :
  stack_inv lb snaps → puffin_write to_json (compact_layers parallelism lb sequence opts).1 props = Ok data →
  merge_fits lb → N.of_nat (length data) <= 2 ^ 38 →
  ∃ b, puffin_open from_json data = Ok b ∧
    layer_serves (pb_layer reader reopened data b) (merged_snap lb) ∧
    layer_registered (pb_layer reader reopened data b) (merged_snap lb) ∧
    ly_registry (pb_layer reader reopened data b) = merged_registry lb ∧
    (opt_member_index opts = true → layer_lists (pb_layer reader reopened data b) (merged_snap lb)).
Proof using json_roundtrip.
  intros I Hw F Hd.
  destruct (stack_shared_pairs _ _ I) as [Hg _].
  assert (∀ s, StronglySorted N.lt (overlay_pairs (layered_routing lb) s).*1) as Ho
    by (intros s; apply (stack_overlay_pairs _ _ I)).
  destruct (merged_sorted lb Hg Ho) as [Ss Hs].
  rewrite (compact_layers_run lb F Hg Ho (registries_sorted _ _ I)) in Hw.
  pose proof (merged_entries_ok _ _ I) as Eo. pose proof (merged_registry_length _ _ I (mf_registry _ F)) as El.
  destruct (open_written to_json from_json json_roundtrip (merged_snap lb) (merged_registry lb) (opt_member_index opts)
    opts _ props data Hw) as (b & E & An & Hm & Hc); [done|apply F|done|done| | |].
  - by apply run_blobs_written; [apply F|..].
  - apply run_blobs_registry; [done|done|]. intros E. cbn [merged_snap snap_scopes].
    destruct (merged_scopes lb) as [|[s ps] l] eqn:Em; [done|]. exfalso.
    assert ((s, ps) ∈ merged_scopes lb) as Hin by (rewrite Em; left).
    apply list_elem_of_fmap in Hin as (s' & [= <- ->] & [Hne _]%list_elem_of_filter).
    rewrite <-(merged_scope_pairs _ _ I) in Hne. destruct (merged_scope_registered _ _ I s Hne) as [r Hr].
    rewrite E in Hr. by apply not_elem_of_nil in Hr.
  - exists b. split; [done|].
    destruct (pb_layer_registered reader reopened data (merged_snap lb) (merged_registry lb) b An) as [Lr Er].
    + destruct (run_blobs_carries (merged_snap lb) (merged_registry lb) Eo (as_i64 sequence) opts El) as [H|H];
        [by left; apply Hc|by right].
    + apply sort_dedup_sorted.
    + apply sort_dedup_sorted.
    + done.
    + by apply (merged_scope_registered _ _ I).
    + split_and!; [by eapply pb_layer_serves|done|done|]. intros Hi. by apply pb_layer_lists, Hm.
Qed.

(** A stretch of a stack, merged, written, mapped and spliced back: the new stack replaces
    the old one. *)
Lemma merge_splices lb sub snaps start end_ parallelism sequence opts props reader reopened data :
  stack_inv lb snaps → slice lb start end_ = Ok sub →
  puffin_write to_json (compact_layers parallelism sub sequence opts).1 props = Ok data →
  merge_fits sub → N.of_nat (length data) <= 2 ^ 38 →
  ∃ b lb', puffin_open from_json data = Ok b ∧
    spliced lb start end_ (pb_layer reader reopened data b) = Ok lb' ∧
    layers lb' = take start (layers lb) ++ [pb_layer reader reopened data b] ++ drop end_ (layers lb) ∧
    stack_inv lb' (take start snaps ++ [merged_snap sub] ++ drop end_ snaps) ∧
    (opt_member_index opts = true → Forall2 layer_lists (layers lb) snaps →
      Forall2 layer_lists (layers lb') (take start snaps ++ [merged_snap sub] ++ drop end_ snaps)) ∧
    base_replaces (layered_routing lb') (layered_routing lb).
Proof using json_roundtrip.
  intros Is Hs Hw F Hd. destruct (slice_parts _ _ _ _ Hs) as (A & B & C & EL & -> & LA & LB & Hr).
  destruct lb as [ls]. cbn [layers] in *. subst ls. pose proof (stack_length _ _ Is) as Hlen. cbn [layers] in Hlen.
  set (sA := take start snaps). set (sB := take (end_ - start) (drop start snaps)). set (sC := drop end_ snaps).
  assert (snaps = sA ++ sB ++ sC) as Es.
  { unfold sA, sB, sC. rewrite <-(take_drop start snaps) at 1. f_equal.
    rewrite <-(take_drop (end_ - start) (drop start snaps)) at 1. f_equal. rewrite drop_drop. f_equal. lia. }
  assert (length A = length sA) as HA by (unfold sA; rewrite length_take; lia).
  assert (length B = length sB) as HB by (unfold sB; rewrite length_take, length_drop; lia).
  rewrite Es in Is. clearbody sA sB sC.
  destruct (map_merged (mkLayered B) sB parallelism sequence opts props reader reopened data
    (infix_inv A B C sA sB sC HA HB Is) Hw F Hd) as (b & Eb & Sv & Lr & Er & Hm).
  set (M := pb_layer reader reopened data b) in *. exists b, (mkLayered (A ++ [M] ++ C)). split; [done|].
  assert (take start (A ++ B ++ C) = A) as EA by (rewrite <-LA; apply take_app_length).
  assert (drop end_ (A ++ B ++ C) = C) as EC by (rewrite app_assoc; apply drop_app_length'; rewrite length_app; lia).
  split_and!.
  - unfold spliced, from_layers. cbn [layers].
    destruct (Nat.ltb_spec start end_); [|lia]. destruct (Nat.leb_spec end_ (length (A ++ B ++ C))); [|lia].
    cbn [andb negb]. rewrite EA, EC. by destruct A.
  - cbn [layers]. by rewrite EA, EC.
  - by apply (splice_inv A B C sA sB sC).
  - intros Hi. rewrite Es. intros (kA & kBC & HA1 & HBC & E1)%Forall2_app_inv_l.
    apply Forall2_app_inv_l in HBC as (kB & kC & HB1 & HC1 & E2).
    assert (sA = kA ∧ sC = kC) as [-> ->].
    { subst kBC. apply app_inj_1 in E1 as [-> E1]; [|by rewrite <- HA, (Forall2_length _ _ _ HA1)].
      apply app_inj_1 in E1 as [_ ->]; [done|by rewrite <- HB, (Forall2_length _ _ _ HB1)]. }
    apply Forall2_app; [done|]. constructor; [by apply Hm|done].
  - by apply (splice_replaces A B C sA sB sC HA HB Is M Sv Lr Er).
Qed.

(** A forest that swaps its base for one that replaces it answers as before. *)
Lemma swap_absorbed f evs lb lb' :
  absorbed f evs → tier_base (tier f) = Some (layered_routing lb) → base_replaces (layered_routing lb') (layered_routing lb) →
  absorbed (swap_base f (layered_routing lb')) evs.
Proof using.
  intros I Hb Rp. assert (base_replaces (layered_routing lb') (base_of (tier f))) as Rf by (unfold base_of; by rewrite Hb).
  exact (step_absorbed (Er := unit) (T := unit) bw_push (f, evs) _ (step_swap bw_push f evs _ Rf) I).
Qed.

(** C9. A tiered merge through the disk changes no answer. On a forest served by a stack
    of runs, compact any stretch of the stack into one run without reading the
    forest, on any number of threads, write it, map it, splice it in place of the
    stretch and swap the base: opening and splicing succeed, the new stack has the
    stretch replaced by one run and is again one that folds and merges can work on,
    it lists members again where the merge wrote the index, and every scope answers every query as before, whatever is in the memtable. *)
Theorem merge_through_disk (f : ScopedForest) (evs : list EdgeEvent) (lb sub : LayeredBase)
    (snaps : list ForestSnapshot) (start end_ parallelism : nat) (sequence : N) (opts : WriteOptions)
    (props : gmap string string) (reader : ScanReader) (reopened : bool) (data : bytes) :
  absorbed f evs → tier_base (tier f) = Some (layered_routing lb) → stack_inv lb snaps →
  slice lb start end_ = Ok sub →
  puffin_write to_json (compact_layers parallelism sub sequence opts).1 props = Ok data →
  merge_fits sub → N.of_nat (length data) <= 2 ^ 38 →
  ∃ b lb', puffin_open from_json data = Ok b ∧
    spliced lb start end_ (pb_layer reader reopened data b) = Ok lb' ∧
    (length (layers lb') + (end_ - start) = S (length (layers lb)))%nat ∧
    stack_inv lb' (take start snaps ++ [merged_snap sub] ++ drop end_ snaps) ∧
    (opt_member_index opts = true → Forall2 layer_lists (layers lb) snaps →
      Forall2 layer_lists (layers lb') (take start snaps ++ [merged_snap sub] ++ drop end_ snaps)) ∧
    absorbed (swap_base f (layered_routing lb')) evs ∧
    ∀ s x, (scope_root (swap_base f (layered_routing lb')) s x).1 = (scope_root f s x).1.
Proof using json_roundtrip.
  intros I Hb Is Hs Hw F Hd.
  destruct (merge_splices lb sub snaps start end_ parallelism sequence opts props reader reopened data Is Hs Hw F Hd)
    as (b & lb' & Eb & Sp & El & Is' & Hm & Rp).
  pose proof (swap_absorbed f evs lb lb' I Hb Rp) as I'.
  exists b, lb'. do 2 (split; [done|]). split; [|split; [done|split; [done|split; [done|]]]].
  - destruct (slice_parts _ _ _ _ Hs) as (A & B & C & EL & _ & LA & LB & Hr).
    rewrite El, !length_app, length_take, length_drop. cbn [length]. lia.
  - intros s x. by eapply absorbed_root_eq.
Qed.
End disk.

(** A merge is deterministic: the blobs and the statistics a merge of runs produces do
    not depend on how many threads the overlays are merged on. *)
Theorem merge_parallelism_irrelevant (p q : nat) (lb : LayeredBase) (sequence : N) (opts : WriteOptions) :
  compact_layers p lb sequence opts = compact_layers q lb sequence opts.
Proof. unfold compact_layers. by rewrite !merge_overlays_seq. Qed.

(** ** At work *)

Definition demo_delta_layer : Layer :=
  match map_run demo_to_json demo_from_json Buffered true ∅
    (foldl bw_push (bw_new 4 demo_opts) (stream_memtable (tier demo_next)).1) with
  | Ok (_, l) => l
  | Err _ => pb_layer Buffered true [] base_empty
  end.

(** The two runs of the folds before, and the forest served by them. *)
Definition demo_runs : LayeredBase := layered_pushed demo_stack demo_delta_layer.
Definition demo_served : ScopedForest := publish demo_next (layered_routing demo_runs).

Definition demo_merged : bytes :=
  match puffin_write demo_to_json (compact_layers 8 demo_runs 5 demo_opts).1 ∅ with Ok d => d | Err _ => [] end.

Lemma demo_runs_spec :
  stack_inv demo_runs ([(snapshot demo_state).1] ++ [collect (stream_memtable (tier demo_next)).1]) ∧
  absorbed demo_served (demo_events ++ [ev 1 0 Global]).
Proof.
  destruct demo_stack_spec as [Is Ia].
  destruct (delta_map_run demo_to_json demo_from_json demo_json demo_next _ demo_stack _ 4 demo_opts ∅ Buffered true
    demo_delta Ia eq_refl Is demo_delta_written demo_delta_fits) as (l & El & Sl & De & _).
  assert (demo_delta_layer = l) as E by (unfold demo_delta_layer; by rewrite El).
  unfold demo_served, demo_runs. rewrite E. split; [done|].
  by apply (delta_published demo_next _ (bw_new 4 demo_opts)
    (fun _ _ => Ok (layered_routing (layered_pushed demo_stack l), tt)) (Er := unit) _ tt Ia).
Qed.

Lemma demo_merge_fits : merge_fits demo_runs.
Proof.
  assert (merged_snap demo_runs = mkSnap [(1, 0); (5, 0); (9, 0)] [(7, [(1, 0); (5, 0); (8, 0)])]) as E by (by vm_compute).
  split; [|by vm_compute|by vm_compute]. rewrite E. split; cbn; repeat constructor; by vm_compute.
Qed.

Lemma merge_through_disk_witness :
  ∃ b lb', puffin_open demo_from_json demo_merged = Ok b ∧
    spliced demo_runs 0 2 (pb_layer Buffered true demo_merged b) = Ok lb' ∧ length (layers lb') = 1%nat ∧
    (scope_root (swap_base demo_served (layered_routing lb')) 7 8).1 = 0.
Proof.
  destruct demo_runs_spec as [Is Ia].
  destruct (merge_through_disk demo_to_json demo_from_json demo_json demo_served _ demo_runs demo_runs _ 0 2 8 5 demo_opts ∅
    Buffered true demo_merged Ia eq_refl Is) as (b & lb' & E & Sp & Hl & _ & _ & _ & Hr).
  - unfold slice, demo_runs. by cbn.
  - unfold demo_merged. destruct (puffin_write _ _ _) as [d|e] eqn:E; [done|].
    assert (is_ok (puffin_write demo_to_json (compact_layers 8 demo_runs 5 demo_opts).1 ∅) = true) as H by (by vm_compute).
    by rewrite E in H.
  - apply demo_merge_fits.
  - by vm_compute.
  - exists b, lb'. split_and!; [done|done|cbn in Hl; lia|]. rewrite Hr. by vm_compute.
Defined.

(** ** Runs without a registry *)

(** A run written before registries existed, with a delta of today on top of it. *)
Definition legacy_layer : Layer :=
  match puffin_open demo_from_json demo_legacy with
  | Ok b => pb_layer Buffered true demo_legacy b
  | Err _ => pb_layer Buffered true [] base_empty
  end.

Definition legacy_next : ScopedForest :=
  apply (publish demo_state (layered_routing (layered_new legacy_layer))) (ev 20 21 (Scoped [3])).

Definition legacy_runs : LayeredBase :=
  match map_run demo_to_json demo_from_json Buffered true ∅
    (foldl bw_push (bw_new 4 demo_opts) (stream_memtable (tier legacy_next)).1) with
  | Ok (_, l) => layered_pushed (layered_new legacy_layer) l
  | Err _ => layered_new legacy_layer
  end.

Definition legacy_merged : LayeredBase :=
  match puffin_write demo_to_json (compact_layers 1 legacy_runs 5 demo_opts).1 ∅ with
  | Ok data =>
      match puffin_open demo_from_json data with
      | Ok b => layered_new (pb_layer Buffered true data b)
      | Err _ => legacy_runs
      end
  | Err _ => legacy_runs
  end.

(** Merging the two drops the registrations the old run answered from its rebuilt
    registry: the next global edge is not told to scope 7, whose answer for node 8
    is then not the root of what the scope sees. *)
Lemma legacy_merge_loses_scope :
  scopes_for_root (layered_routing legacy_runs) 8 = [7] ∧
  length (layers legacy_merged) = 1%nat ∧ scopes_for_root (layered_routing legacy_merged) 8 = [] ∧
  let served lb := apply (publish legacy_next (layered_routing lb)) (ev 8 2 Global) in
  (scope_root (served legacy_runs) 7 8).1 = 1 ∧ (scope_root (served legacy_merged) 7 8).1 = 2.
Proof. by vm_compute. Qed.
