(* ===== verification/ObjectStore.v ===== *)
(** The object store the workers share, as an interface.

    Everything durable goes through the [object_store] crate: whole objects under
    paths, read, overwritten, created if absent, deleted and listed, each stamped with
    the time it was last written. [ObjectStore] holds the operations the program calls
    and [ObjectStoreLaws] what their documentation promises; a call that fails for a
    reason of its own may or may not have taken effect. A client is a function of the
    store's state, so a claim about it holds for every store that keeps the laws;
    [ReliableStore] adds that no call fails for a reason of its own, which is what a
    liveness claim needs. *)

From S2P Require Import Prelude Bytes.

(** ** Effects

    Fallible code over a state: an [async fn] that returns [anyhow::Result]. *)

Definition io (St Er A : Type) : Type := St → result Er A * St.

#[export] Instance io_ret St Er : MRet (io St Er) := fun _ a st => (Ok a, st).
#[export] Instance io_bind St Er : MBind (io St Er) := fun _ _ f m st =>
  match m st with (Ok a, st') => f a st' | (Err e, st') => (Err e, st') end.

Section io.
Context {St Er : Type}.

Definition io_fail {A} (e : Er) : io St Er A := fun st => (Err e, st).

(** [?] on a pure result. *)
Definition lift {A} (r : result Er A) : io St Er A := fun st => (r, st).

Definition gets {A} (f : St → A) : io St Er A := fun st => (Ok (f st), st).
Definition modify (f : St → St) : io St Er unit := fun st => (Ok tt, f st).

(** A call whose error is inspected rather than propagated. *)
Definition attempt {Er' A} (m : io St Er' A) : io St Er (result Er' A) := fun st =>
  let '(r, st') := m st in (Ok r, st').

Lemma bind_unfold {A B} (m : io St Er A) (f : A → io St Er B) st :
  (m ≫= f) st = match m st with (Ok a, st') => f a st' | (Err e, st') => (Err e, st') end.
Proof. done. Qed.

Lemma bind_ok {A B} (m : io St Er A) (f : A → io St Er B) st a st' :
  m st = (Ok a, st') → (m ≫= f) st = f a st'.
Proof. intros H. by rewrite bind_unfold, H. Qed.

Lemma bind_err {A B} (m : io St Er A) (f : A → io St Er B) st e st' :
  m st = (Err e, st') → (m ≫= f) st = (Err e, st').
Proof. intros H. by rewrite bind_unfold, H. Qed.
End io.

(** Run an operation on a part of the state, [upd] putting the part back. *)
Definition zoom {St T Er A} (get : St → T) (upd : T → St → St) (m : io T Er A) : io St Er A := fun st =>
  let '(r, t) := m (get st) in (r, upd t st).

(** ** The interface *)

(** A path is the list of its segments. *)
Abbreviation Path := (list string).

Record Object := mkObject { o_data : bytes; o_modified : Z }.

(** What a head request or a listing says of an object. *)
Record ObjectMeta := mkObjectMeta { location : Path; last_modified : Z; size_bytes : nat }.

Definition meta_of (p : Path) (o : Object) : ObjectMeta := mkObjectMeta p (o_modified o) (length (o_data o)).

Inductive store_error := NotFound | AlreadyExists | StoreFailure.

#[export] Instance store_error_eq_dec : EqDecision store_error.
Proof. solve_decision. Defined.

Class ObjectStore (St : Type) := {
  objects : St → gmap Path Object;
  os_get : Path → io St store_error bytes;
  os_head : Path → io St store_error ObjectMeta;
  os_put : Path → bytes → io St store_error unit;
  os_create : Path → bytes → io St store_error unit;
  os_delete : Path → io St store_error unit;
  os_list : Path → io St store_error (list ObjectMeta);
}.

(** [b] is stored under [p] in [after] and nothing else changed. *)
Definition stored (p : Path) (b : bytes) (before after : gmap Path Object) : Prop :=
  ∃ t, after = <[p := mkObject b t]> before.

Class ObjectStoreLaws (St : Type) `{ObjectStore St} : Prop := {
  get_same p st : objects (os_get p st).2 = objects st;
  get_ok p st b : (os_get p st).1 = Ok b → o_data <$> objects st !! p = Some b;
  get_absent p st : (os_get p st).1 = Err NotFound → objects st !! p = None;
  head_same p st : objects (os_head p st).2 = objects st;
  head_ok p st m : (os_head p st).1 = Ok m → meta_of p <$> objects st !! p = Some m;
  head_absent p st : (os_head p st).1 = Err NotFound → objects st !! p = None;
  put_ok p b st : (os_put p b st).1 = Ok tt → stored p b (objects st) (objects (os_put p b st).2);
  put_failed p b st e : (os_put p b st).1 = Err e →
    objects (os_put p b st).2 = objects st ∨ stored p b (objects st) (objects (os_put p b st).2);
  create_ok p b st : (os_create p b st).1 = Ok tt →
    objects st !! p = None ∧ stored p b (objects st) (objects (os_create p b st).2);
  create_exists p b st : (os_create p b st).1 = Err AlreadyExists →
    is_Some (objects st !! p) ∧ objects (os_create p b st).2 = objects st;
  create_failed p b st e : (os_create p b st).1 = Err e →
    objects (os_create p b st).2 = objects st ∨
    (objects st !! p = None ∧ stored p b (objects st) (objects (os_create p b st).2));
  delete_ok p st : (os_delete p st).1 = Ok tt → objects (os_delete p st).2 = delete p (objects st);
  delete_failed p st e : (os_delete p st).1 = Err e →
    objects (os_delete p st).2 = objects st ∨ objects (os_delete p st).2 = delete p (objects st);
  list_same prefix st : objects (os_list prefix st).2 = objects st;
  list_ok prefix st l : (os_list prefix st).1 = Ok l →
    ∀ m, m ∈ l ↔ ∃ p o, objects st !! p = Some o ∧ m = meta_of p o ∧ prefix `prefix_of` p ∧ p ≠ prefix;
}.

(** No call fails for a reason of its own. *)
Class ReliableStore (St : Type) `{ObjectStore St} : Prop := {
  get_reliable p st : (os_get p st).1 ≠ Err StoreFailure ∧ (os_get p st).1 ≠ Err AlreadyExists;
  head_reliable p st : (os_head p st).1 ≠ Err StoreFailure ∧ (os_head p st).1 ≠ Err AlreadyExists;
  put_reliable p b st : (os_put p b st).1 = Ok tt;
  create_reliable p b st : (os_create p b st).1 = Ok tt ∨ (os_create p b st).1 = Err AlreadyExists;
  delete_reliable p st : (os_delete p st).1 = Ok tt;
  list_reliable prefix st : ∃ l, (os_list prefix st).1 = Ok l;
}.

(** A create that fails has had no effect. *)
Class CleanStore (St : Type) `{ObjectStore St} : Prop := {
  create_clean p b st e : (os_create p b st).1 = Err e → objects (os_create p b st).2 = objects st;
}.

#[export] Instance reliable_clean {St} `{!ObjectStore St, !ObjectStoreLaws St, !ReliableStore St} : CleanStore St.
Proof.
  split. intros p b st e He. destruct (create_reliable p b st) as [Hc|Hc]; [congruence|]. by apply create_exists in Hc as [_ ->].
Qed.

Section laws.
Context `{ObjectStoreLaws St}.

Lemma stored_other p b before after q : stored p b before after → q ≠ p → after !! q = before !! q.
Proof. intros [t ->] Hq. by rewrite lookup_insert_ne. Qed.

Lemma stored_same p b before after : stored p b before after → o_data <$> after !! p = Some b.
Proof. intros [t ->]. by rewrite lookup_insert_eq. Qed.

(** A create never changes an object that is there, whatever it returns. *)
Lemma create_keeps p b st q o : objects st !! q = Some o → objects (os_create p b st).2 !! q = Some o.
Proof.
  intros Hq. destruct (os_create p b st).1 as [[]|e] eqn:Hc.
  - destruct (create_ok p b st Hc) as [Hn Hs]. rewrite (stored_other _ _ _ _ q Hs); [done|]. by intros ->; rewrite Hn in Hq.
  - destruct (create_failed p b st e Hc) as [->|[Hn Hs]]; [done|].
    rewrite (stored_other _ _ _ _ q Hs); [done|]. by intros ->; rewrite Hn in Hq.
Qed.

(** A put changes its own path only. *)
Lemma put_other p b st q : q ≠ p → objects (os_put p b st).2 !! q = objects st !! q.
Proof.
  intros Hq. destruct (os_put p b st).1 as [[]|e] eqn:Hc.
  - eapply stored_other; [by apply put_ok|done].
  - destruct (put_failed p b st e Hc) as [->|Hs]; [done|]. by eapply stored_other.
Qed.

(** A delete changes its own path only. *)
Lemma delete_other p st q : q ≠ p → objects (os_delete p st).2 !! q = objects st !! q.
Proof.
  intros Hq. destruct (os_delete p st).1 as [[]|e] eqn:Hc.
  - rewrite (delete_ok p st Hc). by rewrite lookup_delete_ne.
  - destruct (delete_failed p st e Hc) as [->| ->]; [done|]. by rewrite lookup_delete_ne.
Qed.

(** On a reliable store the answers of the reads are the objects. *)
Lemma get_exact `{!ReliableStore St} p st :
  (os_get p st).1 = match objects st !! p with Some o => Ok (o_data o) | None => Err NotFound end.
Proof.
  destruct (os_get p st).1 as [b|e] eqn:Hg.
  - pose proof (get_ok p st b Hg) as Ho. by destruct (objects st !! p); simplify_eq/=.
  - destruct (get_reliable p st) as [H1 H2]. rewrite Hg in H1, H2.
    destruct e; [|done|done]. by rewrite (get_absent p st Hg).
Qed.

Lemma head_exact `{!ReliableStore St} p st :
  (os_head p st).1 = match objects st !! p with Some o => Ok (meta_of p o) | None => Err NotFound end.
Proof.
  destruct (os_head p st).1 as [m|e] eqn:Hg.
  - pose proof (head_ok p st m Hg) as Ho. by destruct (objects st !! p); simplify_eq/=.
  - destruct (head_reliable p st) as [H1 H2]. rewrite Hg in H1, H2.
    destruct e; [|done|done]. by rewrite (head_absent p st Hg).
Qed.
End laws.

(** ** A store in memory

    Objects are stamped with a clock the store keeps. *)

Record Memory := mkMemory { mem_objects : gmap Path Object; mem_clock : Z }.

Definition mem_get (p : Path) : io Memory store_error bytes := fun st =>
  (match mem_objects st !! p with Some o => Ok (o_data o) | None => Err NotFound end, st).

Definition mem_head (p : Path) : io Memory store_error ObjectMeta := fun st =>
  (match mem_objects st !! p with Some o => Ok (meta_of p o) | None => Err NotFound end, st).

Definition mem_put (p : Path) (b : bytes) : io Memory store_error unit := fun st =>
  (Ok tt, mkMemory (<[p := mkObject b (mem_clock st)]> (mem_objects st)) (mem_clock st)).

Definition mem_create (p : Path) (b : bytes) : io Memory store_error unit := fun st =>
  match mem_objects st !! p with
  | Some _ => (Err AlreadyExists, st)
  | None => mem_put p b st
  end.

Definition mem_delete (p : Path) : io Memory store_error unit := fun st =>
  (Ok tt, mkMemory (delete p (mem_objects st)) (mem_clock st)).

Definition mem_list (prefix : Path) : io Memory store_error (list ObjectMeta) := fun st =>
  (Ok ((fun po => meta_of po.1 po.2) <$>
       filter (fun po => prefix `prefix_of` po.1 ∧ po.1 ≠ prefix) (map_to_list (mem_objects st))), st).

#[export] Instance memory_store : ObjectStore Memory := {
  objects := mem_objects;
  os_get := mem_get;
  os_head := mem_head;
  os_put := mem_put;
  os_create := mem_create;
  os_delete := mem_delete;
  os_list := mem_list;
}.

#[export] Instance memory_laws : ObjectStoreLaws Memory.
Proof.
  split; cbn [objects os_get os_head os_put os_create os_delete os_list memory_store];
    unfold mem_get, mem_head, mem_create, mem_put, mem_delete, mem_list;
    cbn [fst snd mem_objects]; intros; try done; repeat case_match; simplify_eq/=; try done;
    try (by eexists); try (by split; [|eexists]); try by left.
  rewrite list_elem_of_fmap. split.
  - intros ([p o] & -> & [[Hp Hne] Hin%elem_of_map_to_list]%list_elem_of_filter). by exists p, o.
  - intros (p & o & Hl & -> & Hp & Hne). exists (p, o). split; [done|].
    apply list_elem_of_filter. by rewrite elem_of_map_to_list.
Qed.

#[export] Instance memory_reliable : ReliableStore Memory.
Proof.
  split; cbn [objects os_get os_head os_put os_create os_list memory_store];
    unfold mem_get, mem_head, mem_create, mem_put, mem_list; intros; repeat case_match; simplify_eq/=; eauto.
Qed.
