(* ===== verification/Conformance.v ===== *)
(** The put-if-absent probe of [src/storage/conformance.rs], and the gate [main] puts it
    behind.

    The commit protocol rests on the store letting exactly one of several concurrent
    creates of a path win. The probe runs against the deployed store before the worker
    commits anything. What concurrent creates of one path do is the store's business:
    [os_race] is the outcome of a set of them, in the order the callers were started, and
    [AtomicRace] says that an arbitrating store runs them in some order. A race is looked
    at when all its calls have ended. *)

From S2P Require Import Prelude Bytes Decimal ObjectStore.

Definition RACERS : nat := 8.
Definition ROUNDS : nat := 4.

Inductive ConformanceError :=
| CreateUnsupported (source : store_error)
| OverwritesOnCreate
| ConflictButOverwrote
| ConcurrentWinners (winners racers : nat)
| WinnerNotStored
| Unusable (source : store_error).

(** Concurrent creates of one path, one for each body. *)
Class RacingStore (St : Type) := os_race : Path → list bytes → St → list (result store_error unit) * St.

(** The creates one after the other, in the given order; the outcomes in that order. *)
Fixpoint creates `{ObjectStore St} (p : Path) (bodies : list bytes) (st : St) : list (result store_error unit) * St :=
  match bodies with
  | [] => ([], st)
  | b :: bodies =>
      let '(r, st) := os_create p b st in
      let '(rs, st) := creates p bodies st in (r :: rs, st)
  end.

(** An arbitrating store runs the callers in some order. *)
Class AtomicRace (St : Type) `{ObjectStore St, !RacingStore St} : Prop :=
  race_atomic p bodies st : ∃ order rs,
    order ≡ₚ bodies ∧ creates p order st = (rs, (os_race p bodies st).2) ∧
    zip order rs ≡ₚ zip bodies (os_race p bodies st).1 ∧ length (os_race p bodies st).1 = length bodies.

(** ** The probe *)

Section probe.
Context `{ObjectStore St, !RacingStore St}.

(** The store and the probes written so far. *)
Record Probing := mkProbing { pr_store : St; probes : list Path }.

Definition on_store {A} (m : io St store_error A) : io Probing ConformanceError (result store_error A) :=
  attempt (zoom pr_store (fun st p => mkProbing st (probes p)) m).

Definition push_probe (key : Path) : io Probing ConformanceError unit :=
  modify (fun p => mkProbing (pr_store p) (probes p ++ [key])).

(** [.map_err(unusable)?]. *)
Definition or_unusable {A} (r : result store_error A) : result ConformanceError A :=
  match r with Ok a => Ok a | Err e => Err (Unusable e) end.

Definition sequential_key (base : Path) (run : string) : Path := base ++ [String.append run "-sequential"].

Definition race_key (base : Path) (run : string) (round : nat) : Path :=
  base ++ [String.append run (String.append "-race-" (to_string (N.of_nat round)))].

Definition racer_body (racer : nat) : bytes := string_bytes (String.append "racer-" (to_string (N.of_nat racer))).

(** Steps 1 to 3 of [run_checks]. *)
Definition check_sequential (base : Path) (run : string) : io Probing ConformanceError unit :=
  let key := sequential_key base run in
  push_probe key;;
  r ← on_store (os_create key (string_bytes "first"));
  match r with
  | Err source => io_fail (CreateUnsupported source)
  | Ok _ =>
      r ← on_store (os_create key (string_bytes "second"));
      match r with
      | Ok _ => io_fail OverwritesOnCreate
      | Err AlreadyExists =>
          r ← on_store (os_get key);
          got ← lift (or_unusable r);
          if bool_decide (got = string_bytes "first") then mret tt else io_fail ConflictButOverwrote
      | Err e => io_fail (Unusable e)
      end
  end.

(** The loop over the joined tasks: the last winner and how many won. *)
Fixpoint tally (outcomes : list (bytes * result store_error unit)) (winner : option bytes) (winners : nat)
    : result ConformanceError (option bytes * nat) :=
  match outcomes with
  | [] => Ok (winner, winners)
  | (body, Ok _) :: outcomes => tally outcomes (Some body) (S winners)
  | (_, Err AlreadyExists) :: outcomes => tally outcomes winner winners
  | (_, Err e) :: _ => Err (Unusable e)
  end.

(** One round of step 4; one winner leaves a winner, so the [expect] holds. *)
Definition check_race (base : Path) (run : string) (round : nat) : io Probing ConformanceError unit :=
  let key := race_key base run round in
  let bodies := racer_body <$> seq 0 RACERS in
  push_probe key;;
  outcomes ← (fun p => let '(rs, st) := os_race key bodies (pr_store p) in (Ok rs, mkProbing st (probes p)));
  '(winner, winners) ← lift (tally (zip bodies outcomes) None 0);
  if negb (winners =? 1)%nat then io_fail (ConcurrentWinners winners RACERS)
  else
    r ← on_store (os_get key);
    got ← lift (or_unusable r);
    if bool_decide (Some got = winner) then mret tt else io_fail WinnerNotStored.

Fixpoint check_rounds (base : Path) (run : string) (rounds : list nat) : io Probing ConformanceError unit :=
  match rounds with
  | [] => mret tt
  | round :: rounds => check_race base run round;; check_rounds base run rounds
  end.

(** [run_checks]. *)
Definition run_checks (base : Path) (run : string) : io Probing ConformanceError unit :=
  check_sequential base run;; check_rounds base run (seq 0 ROUNDS).

(** The clean-up of [verify_conditional_put]; a delete that fails is only logged. *)
Definition remove_probes (paths : list Path) (st : St) : St := foldl (fun st p => (os_delete p st).2) st paths.

(** [verify_conditional_put]; [run] is the fresh uuid. *)
Definition verify_conditional_put (prefix : Path) (run : string) : io St ConformanceError unit := fun st =>
  let '(r, p) := run_checks (prefix ++ ["_preflight"]) run (mkProbing st []) in
  (r, remove_probes (probes p) (pr_store p)).

(** The gate of [main]: whether the worker goes on to start. *)
Definition preflight (prefix : Path) (run : string) (allow_unsafe_commits : bool) : io St ConformanceError unit := fun st =>
  match verify_conditional_put prefix run st with
  | (Err e, st) => if negb allow_unsafe_commits then (Err e, st) else (Ok tt, st)
  | r => r
  end.
End probe.
