(* ===== verification/ConformanceProps.v ===== *)
(** What the probe accepts and what it refuses. *)

From S2P Require Import Prelude Bytes Decimal ObjectStore Conformance.

(** ** Tallies *)

Definition conflicted (o : bytes * result store_error unit) : Prop := o.2 = Err AlreadyExists.

Lemma tally_conflicted l l' w n : Forall conflicted l → tally (l ++ l') w n = tally l' w n.
Proof.
  intros Hl. induction Hl as [|[b r] l Hb Hl IH]; [done|]. unfold conflicted in Hb. cbn in Hb. subst r. exact IH.
Qed.

Lemma tally_one b l w n l' :
  l ≡ₚ (b, Ok tt) :: l' → Forall conflicted l' → tally l w n = Ok (Some b, S n).
Proof.
  intros Hl Hc. destruct (Permutation_vs_cons_inv Hl) as (l1 & l2 & ->).
  assert (Forall conflicted (l1 ++ l2)) as [H1 H2]%Forall_app.
  { by rewrite (Permutation_app_inv l1 l2 [] l' _ Hl). }
  rewrite tally_conflicted by done. cbn [tally]. rewrite <- (app_nil_r l2). by rewrite tally_conflicted.
Qed.

(** A tally that succeeds has seen wins and conflicts only, and counts the wins. *)
Lemma tally_ok l : ∀ w n w' n',
  tally l w n = Ok (w', n') →
  Forall (fun o => o.2 = Ok tt ∨ conflicted o) l ∧
  n' = (n + length (filter (fun o => is_ok o.2 = true) l))%nat ∧
  (w' = w ∧ Forall conflicted l ∨ ∃ b, w' = Some b ∧ (b, Ok tt) ∈ l).
Proof.
  induction l as [|[b [[]|e]] l IH]; intros w n w' n' Ht; cbn [tally] in Ht.
  - simplify_eq. split_and!; [constructor|cbn; lia|by left; split].
  - apply IH in Ht as (H1 & -> & H3). split_and!.
    + constructor; [by left|done].
    + rewrite filter_cons_True by done. cbn. lia.
    + right. destruct H3 as [[-> _]|(b' & -> & Hb)]; [exists b; split; [done|left]|exists b'; split; [done|by right]].
  - destruct e; try done. apply IH in Ht as (H1 & -> & H3). split_and!.
    + constructor; [by right|done].
    + by rewrite filter_cons_False by done.
    + destruct H3 as [[-> H3]|(b' & -> & Hb)]; [left; split; [done|by constructor]|right; exists b'; split; [done|by right]].
Qed.

(** ** Keys *)

Lemma race_key_inj base run i j :
  N.of_nat i < u32_limit → N.of_nat j < u32_limit → race_key base run i = race_key base run j → i = j.
Proof.
  unfold race_key. intros Hi Hj H. apply (inj (app base)) in H. injection H as H.
  apply (inj (String.append run)), (inj (String.append "-race-")) in H.
  pose proof (parse_to_string _ Hi) as Ei. rewrite H, (parse_to_string _ Hj) in Ei. injection Ei as Ei. lia.
Qed.

Lemma race_not_sequential base run i : race_key base run i ≠ sequential_key base run.
Proof.
  unfold race_key, sequential_key. intros H. apply (inj (app base)) in H. injection H as H.
  apply (inj (String.append run)) in H. discriminate H.
Qed.

(** ** A store that arbitrates *)

Section arbitrating.
Context `{ObjectStoreLaws St, !ReliableStore St, !RacingStore St, !AtomicRace St}.

Lemma create_fresh p b st :
  objects st !! p = None → ∃ st', os_create p b st = (Ok tt, st') ∧ stored p b (objects st) (objects st').
Proof using All.
  intros Hn. destruct (os_create p b st) as [r st'] eqn:E. exists st'.
  assert ((os_create p b st).1 = Ok tt) as Hr.
  { destruct (create_reliable p b st) as [?|Hx]; [done|]. apply create_exists in Hx as [[? Hx] _]. congruence. }
  split; [by rewrite E in Hr; cbn in Hr; subst|]. apply create_ok in Hr as [_ Hs]. by rewrite E in Hs.
Qed.

Lemma create_taken p b st :
  is_Some (objects st !! p) → ∃ st', os_create p b st = (Err AlreadyExists, st') ∧ objects st' = objects st.
Proof using All.
  intros [o Ho]. destruct (os_create p b st) as [r st'] eqn:E. exists st'.
  assert ((os_create p b st).1 = Err AlreadyExists) as Hr.
  { destruct (create_reliable p b st) as [Hx|?]; [|done]. apply create_ok in Hx as [Hx _]. congruence. }
  split; [by rewrite E in Hr; cbn in Hr; subst|]. apply create_exists in Hr as [_ Hs]. by rewrite E in Hs.
Qed.

Lemma read_back p b st st0 :
  stored p b (objects st0) (objects st) → ∃ st', os_get p st = (Ok b, st') ∧ objects st' = objects st.
Proof using All.
  intros Hs%stored_same. destruct (os_get p st) as [r st'] eqn:E. exists st'.
  pose proof (get_exact p st) as Hg. pose proof (get_same p st) as Hk. rewrite E in Hg, Hk. cbn in Hg, Hk.
  split; [|done]. destruct (objects st !! p); [|done]. cbn in Hs. simplify_eq. done.
Qed.

Lemma creates_taken p l : ∀ st,
  is_Some (objects st !! p) →
  ∃ st', creates p l st = (replicate (length l) (Err AlreadyExists), st') ∧ objects st' = objects st.
Proof using All.
  induction l as [|b l IH]; intros st Hs; cbn [creates]; [by exists st|].
  destruct (create_taken p b st Hs) as (st1 & -> & E1). destruct (IH st1) as (st2 & -> & E2); [by rewrite E1|].
  exists st2. split; [done|congruence].
Qed.

Lemma zip_conflicted (l : list bytes) : Forall conflicted (zip l (replicate (length l) (Err AlreadyExists))).
Proof. induction l; cbn; constructor; done. Qed.

(** A race for a fresh path: one caller wins and its body is stored. *)
Lemma race_fresh p bodies st :
  bodies ≠ [] → objects st !! p = None →
  ∃ rs st' b, os_race p bodies st = (rs, st') ∧ stored p b (objects st) (objects st') ∧
    tally (zip bodies rs) None 0 = Ok (Some b, 1%nat).
Proof using All.
  intros Hne Hn. destruct (race_atomic p bodies st) as (order & rs & Ho & Hc & Hz & _).
  destruct order as [|b order]; [by apply Permutation_nil in Ho|]. cbn [creates] in Hc.
  destruct (create_fresh p b st Hn) as (st1 & E1 & Hs). rewrite E1 in Hc.
  destruct (creates_taken p order st1) as (st2 & E2 & Hs2).
  { apply stored_same in Hs. destruct (objects st1 !! p); [by eexists|done]. }
  rewrite E2 in Hc. injection Hc as <- Hst. destruct (os_race p bodies st) as [rs' st'] eqn:E. cbn in Hst, Hz. subst st'.
  exists rs', st2, b. split; [done|]. split; [by rewrite Hs2|]. eapply tally_one; [symmetry; exact Hz|apply zip_conflicted].
Qed.

(** Only probes were touched. *)
Definition touched (m : gmap Path Object) (p : Probing) : Prop :=
  ∀ q, q ∉ probes p → objects (pr_store p) !! q = m !! q.

Lemma sequential_passes m base run p :
  touched m p → m !! sequential_key base run = None → sequential_key base run ∉ probes p →
  ∃ p', check_sequential base run p = (Ok tt, p') ∧ probes p' = probes p ++ [sequential_key base run] ∧ touched m p'.
Proof using All.
  intros T Hm Hp. unfold check_sequential. rewrite bind_unfold. cbn [push_probe modify].
  assert (objects (pr_store p) !! sequential_key base run = None) as Hn by (by rewrite T).
  destruct (create_fresh _ (string_bytes "first") _ Hn) as (st1 & E1 & S1).
  rewrite bind_unfold. unfold on_store at 1, attempt, zoom. cbn [pr_store]. rewrite E1.
  destruct (create_taken (sequential_key base run) (string_bytes "second") st1) as (st2 & E2 & S2).
  { pose proof (stored_same _ _ _ _ S1). destruct (objects st1 !! _); [by eexists|done]. }
  rewrite bind_unfold. unfold on_store at 1, attempt, zoom. cbn [pr_store]. rewrite E2.
  destruct (read_back (sequential_key base run) (string_bytes "first") st2 (pr_store p)) as (st3 & E3 & S3); [by rewrite S2|].
  rewrite bind_unfold. unfold on_store at 1, attempt, zoom. cbn [pr_store]. rewrite E3, bind_unfold. cbn [lift or_unusable].
  rewrite bool_decide_eq_true_2 by done. eexists. split; [done|]. cbn [probes]. split; [done|].
  intros q Hq. cbn [probes pr_store] in *. rewrite S3, S2, (stored_other _ _ _ _ q S1) by set_solver. apply T. set_solver.
Qed.

Lemma race_passes m base run round p :
  touched m p → m !! race_key base run round = None → race_key base run round ∉ probes p →
  ∃ p', check_race base run round p = (Ok tt, p') ∧ probes p' = probes p ++ [race_key base run round] ∧ touched m p'.
Proof using All.
  intros T Hm Hp. unfold check_race. rewrite bind_unfold. cbn [push_probe modify].
  assert (objects (pr_store p) !! race_key base run round = None) as Hn by (by rewrite T).
  assert (racer_body <$> seq 0 RACERS ≠ []) as Hr by (unfold RACERS; discriminate).
  destruct (race_fresh _ (racer_body <$> seq 0 RACERS) _ Hr Hn) as (rs & st1 & b & E1 & S1 & Ht).
  rewrite bind_unfold. cbn [pr_store probes]. rewrite E1, bind_unfold, Ht. cbn [lift Nat.eqb negb].
  destruct (read_back (race_key base run round) b st1 (pr_store p) S1) as (st2 & E2 & S2).
  rewrite bind_unfold. unfold on_store at 1, attempt, zoom. cbn [pr_store]. rewrite E2, bind_unfold. cbn [lift or_unusable].
  rewrite bool_decide_eq_true_2 by done. eexists. split; [done|]. cbn [probes]. split; [done|].
  intros q Hq. cbn [probes pr_store] in *. rewrite S2, (stored_other _ _ _ _ q S1) by set_solver. apply T. set_solver.
Qed.

Lemma rounds_pass m base run rounds : ∀ p,
  touched m p → NoDup rounds → Forall (fun i => N.of_nat i < u32_limit) rounds →
  (∀ i, i ∈ rounds → m !! race_key base run i = None ∧ race_key base run i ∉ probes p) →
  ∃ p', check_rounds base run rounds p = (Ok tt, p') ∧ probes p' = probes p ++ (race_key base run <$> rounds) ∧ touched m p'.
Proof using All.
  induction rounds as [|i rounds IH]; intros p T Hd Hf Hk; cbn [check_rounds].
  { exists p. by rewrite app_nil_r. }
  apply NoDup_cons in Hd as [Hi Hd]. apply Forall_cons in Hf as [Hi' Hf].
  destruct (Hk i ltac:(left)) as [Hm Hp]. destruct (race_passes m base run i p T Hm Hp) as (p1 & E1 & P1 & T1).
  rewrite (bind_ok _ _ _ _ _ E1). destruct (IH p1 T1 Hd Hf) as (p2 & E2 & P2 & T2).
  { intros j Hj. destruct (Hk j ltac:(by right)) as [Hmj Hpj]. split; [done|]. rewrite P1.
    intros [?|Hx%list_elem_of_singleton]%elem_of_app; [done|]. apply race_key_inj in Hx as ->; [done| |done].
    by eapply Forall_forall in Hf. }
  exists p2. split; [done|]. split; [|done]. rewrite P2, P1. by rewrite <- app_assoc.
Qed.

Lemma remove_probes_lookup l : ∀ st q,
  objects (remove_probes l st) !! q = if bool_decide (q ∈ l) then None else objects st !! q.
Proof using All.
  induction l as [|p l IH]; intros st q; [by rewrite bool_decide_eq_false_2 by apply not_elem_of_nil|].
  unfold remove_probes in *. cbn [foldl]. rewrite IH. rewrite (delete_ok p st (delete_reliable p st)).
  destruct (decide (q = p)) as [->|Hne].
  - rewrite lookup_delete_eq. rewrite (bool_decide_eq_true_2 (p ∈ p :: l)) by left. by case_bool_decide.
  - rewrite lookup_delete_ne by done.
    assert (bool_decide (q ∈ p :: l) = bool_decide (q ∈ l)) as -> by (apply bool_decide_ext; set_solver). done.
Qed.

(** The worker starts on a store that arbitrates. When the store keeps its contract and
    runs concurrent creates in some order, whichever it is, the probe with a fresh run id
    passes every check, the worker goes on whether or not unsafe commits are allowed, and
    the store holds afterwards exactly what it held before. *)
Lemma probe_passes (prefix : Path) (run : string) (allow_unsafe_commits : bool) (st : St) :
  (∀ suffix, objects st !! (prefix ++ ["_preflight"; String.append run suffix]) = None) →
  ∃ st', preflight prefix run allow_unsafe_commits st = (Ok tt, st') ∧ objects st' = objects st.
Proof using All.
  intros Hf. set (base := prefix ++ ["_preflight"]).
  assert (∀ suffix, objects st !! (base ++ [String.append run suffix]) = None) as Hb.
  { intros suffix. unfold base. rewrite <- app_assoc. apply Hf. }
  destruct (sequential_passes (objects st) base run (mkProbing st [])) as (p1 & E1 & P1 & T1);
    [done|apply Hb|by apply not_elem_of_nil|].
  destruct (rounds_pass (objects st) base run (seq 0 ROUNDS) p1 T1) as (p2 & E2 & P2 & T2).
  { apply NoDup_seq. }
  { apply Forall_forall. intros i Hi%elem_of_seq. unfold ROUNDS in Hi. assert (4 < u32_limit) by done. lia. }
  { intros i _. split; [apply Hb|]. rewrite P1. cbn. rewrite list_elem_of_singleton. apply race_not_sequential. }
  unfold preflight, verify_conditional_put, run_checks. rewrite (bind_ok _ _ _ _ _ E1). fold base. rewrite E2.
  eexists. split; [done|]. apply map_eq. intros q. rewrite remove_probes_lookup. case_bool_decide as Hq; [|by apply T2].
  symmetry. rewrite P2, P1 in Hq. cbn in Hq. set_unfold in Hq. unfold race_key, sequential_key in Hq. naive_solver.
Qed.
End arbitrating.

(** ** What acceptance means, of any store *)

Lemma filter_one_unique {A} (P : A → Prop) `{∀ x, Decision (P x)} l : ∀ i j x y,
  length (filter P l) = 1%nat → l !! i = Some x → P x → l !! j = Some y → P y → i = j.
Proof.
  induction l as [|a l IH]; intros i j x y Hl Hi Hx Hj Hy; [done|].
  destruct (decide (P a)) as [Ha|Ha].
  - rewrite filter_cons_True in Hl by done. cbn in Hl. assert (filter P l = []) as Hn by (apply nil_length_inv; lia).
    assert (∀ k z, l !! k = Some z → P z → False) as Hno.
    { intros k z Hk Hz. apply (not_elem_of_nil z). rewrite <- Hn. apply list_elem_of_filter.
      split; [done|by eapply list_elem_of_lookup_2]. }
    destruct i, j; cbn in Hi, Hj; [done|exfalso; by eapply Hno..].
  - rewrite filter_cons_False in Hl by done. destruct i, j; cbn in Hi, Hj; simplify_eq; f_equal; by eapply IH.
Qed.

Section any_store.
Context `{ObjectStore St, !RacingStore St}.

(** Two creates of one path from [st], and a read that leaves [st']: the second was refused
    and the first one's bytes are there. *)
Definition refuses_second (key : Path) (st st' : St) : Prop :=
  let '(r1, st1) := os_create key (string_bytes "first") st in
  let '(r2, st2) := os_create key (string_bytes "second") st1 in
  r1 = Ok tt ∧ r2 = Err AlreadyExists ∧ os_get key st2 = (Ok (string_bytes "first"), st').

(** Of eight concurrent creates from [st], caller [w] alone was told it won, the others that
    they lost, and a read, which leaves [st'], returns what [w] wrote. *)
Definition arbitrated (key : Path) (st : St) (w : nat) (st' : St) : Prop :=
  let '(rs, st1) := os_race key (racer_body <$> seq 0 RACERS) st in
  (w < RACERS)%nat ∧ rs !! w = Some (Ok tt) ∧
  (∀ i r, (i < RACERS)%nat → rs !! i = Some r → i ≠ w → r = Err AlreadyExists) ∧
  os_get key st1 = (Ok (racer_body w), st').

Lemma race_sound base run round p p' :
  check_race base run round p = (Ok tt, p') →
  probes p' = probes p ++ [race_key base run round] ∧ ∃ w, arbitrated (race_key base run round) (pr_store p) w (pr_store p').
Proof using.
  unfold check_race. rewrite bind_unfold. cbn [push_probe modify]. rewrite bind_unfold. cbn [pr_store probes].
  set (bodies := racer_body <$> seq 0 RACERS). destruct (os_race _ bodies (pr_store p)) as [rs st1] eqn:E1.
  rewrite bind_unfold. cbn [lift]. destruct (tally (zip bodies rs) None 0) as [[winner winners]|e] eqn:Ht; [|done].
  destruct (Nat.eqb_spec winners 1) as [->|]; [|done]. cbn [negb].
  rewrite bind_unfold. unfold on_store, attempt, zoom. cbn [pr_store]. destruct (os_get _ st1) as [r st2] eqn:E2.
  rewrite bind_unfold. cbn [lift]. destruct r as [got|e]; [|done]. cbn [or_unusable]. case_bool_decide as Hg; [|done].
  intros [= <-]. cbn [probes pr_store]. split; [done|]. subst winner.
  apply tally_ok in Ht as (H1 & H2 & [[? _]|(b & Hb & Hin)]); [done|]. simplify_eq.
  assert (length (filter (fun o => is_ok o.2 = true) (zip bodies rs)) = 1%nat) as Hone by lia.
  apply list_elem_of_lookup in Hin as [w Hw]. exists w. unfold arbitrated. fold bodies. rewrite E1.
  pose proof Hw as Hz. apply lookup_zip_Some in Hz as [Hz1 Hz2]. unfold bodies in Hz1.
  apply list_lookup_fmap_Some in Hz1 as (w' & -> & [-> Hw']%lookup_seq). split; [done|]. split; [done|]. split; [|by rewrite E2].
  intros i r Hi Hr Hne.
  assert (zip bodies rs !! i = Some (racer_body i, r)) as Hzi.
  { apply lookup_zip_Some. split; [|done]. unfold bodies. rewrite list_lookup_fmap, lookup_seq_lt by done. done. }
  pose proof (Forall_lookup_1 _ _ _ _ H1 Hzi) as [Hok|Hc]; [|exact Hc]. cbn in Hok. subst r. exfalso. apply Hne.
  by eapply (filter_one_unique (fun o : bytes * result store_error unit => is_ok o.2 = true)).
Qed.

(** The rounds follow each other on the store. *)
Lemma rounds_sound base run n : ∀ i p p',
  check_rounds base run (seq i n) p = (Ok tt, p') →
  ∃ at_ : nat → St, at_ 0%nat = pr_store p ∧ at_ n = pr_store p' ∧ probes p' = probes p ++ (race_key base run <$> seq i n) ∧
    ∀ k, (k < n)%nat → ∃ w, arbitrated (race_key base run (i + k)) (at_ k) w (at_ (S k)).
Proof using.
  induction n as [|n IH]; intros i p p' Hr; cbn [seq check_rounds] in Hr.
  { injection Hr as <-. exists (fun _ => pr_store p). cbn. rewrite app_nil_r. split_and!; [done..|]. lia. }
  rewrite bind_unfold in Hr. destruct (check_race base run i p) as [[[]|e] p1] eqn:E; [|done].
  apply race_sound in E as [Hp (w & Hw)]. destruct (IH _ _ _ Hr) as (at_ & H0 & Hn & Hp' & Hk).
  exists (fun k => match k with O => pr_store p | S k => at_ k end). split; [done|]. split; [done|]. split.
  - rewrite Hp', Hp, <- app_assoc. done.
  - intros [|k] Hlt; [exists w; by rewrite H0, Nat.add_0_r|]. destruct (Hk k) as (w' & Hw'); [lia|]. exists w'.
    by replace (i + S k)%nat with (S i + k)%nat by lia.
Qed.

Lemma sequential_sound base run p p' :
  check_sequential base run p = (Ok tt, p') →
  probes p' = probes p ++ [sequential_key base run] ∧ refuses_second (sequential_key base run) (pr_store p) (pr_store p').
Proof using.
  unfold check_sequential, refuses_second. rewrite bind_unfold. cbn [push_probe modify]. rewrite bind_unfold.
  unfold on_store, attempt, zoom. cbn [pr_store probes]. intros Hs.
  destruct (os_create _ (string_bytes "first") (pr_store p)) as [[[]|e] st1] eqn:E1; [|done].
  rewrite bind_unfold in Hs. cbn [pr_store probes] in Hs.
  destruct (os_create _ (string_bytes "second") st1) as [[[]|[]] st2] eqn:E2; try done.
  rewrite bind_unfold in Hs. cbn [pr_store probes] in Hs. destruct (os_get _ st2) as [[got|e] st3] eqn:E3; [|done].
  rewrite bind_unfold in Hs. cbn [lift or_unusable] in Hs. case_bool_decide as Hg; [|done]. subst got. by injection Hs as <-.
Qed.

(** C14. A store that does not arbitrate is refused. Of any store at all, with no law assumed:
    a worker that may not commit unsafely starts only if, on the store it was given, the
    second of two creates of a path was refused and left the first one's bytes to be read,
    and then in each of the four races, one after the other, exactly one of the eight
    callers was told it won, every other one that it lost, and the bytes a reader gets are
    the winner's; and the store it goes on with is the one this left, the probe's objects
    deleted. *)
Theorem started_store_arbitrated (prefix : Path) (run : string) (st st' : St) :
  preflight prefix run false st = (Ok tt, st') →
  let base := prefix ++ ["_preflight"] in
  ∃ at_ : nat → St, refuses_second (sequential_key base run) st (at_ 0%nat) ∧
    (∀ round, (round < ROUNDS)%nat → ∃ w, arbitrated (race_key base run round) (at_ round) w (at_ (S round))) ∧
    st' = remove_probes (sequential_key base run :: (race_key base run <$> seq 0 ROUNDS)) (at_ ROUNDS).
Proof using.
  unfold preflight, verify_conditional_put, run_checks. rewrite bind_unfold.
  destruct (check_sequential _ run (mkProbing st [])) as [[[]|e] p1] eqn:E1; [|done].
  destruct (check_rounds _ run (seq 0 ROUNDS) p1) as [[[]|e] p2] eqn:E2; [|done]. intros [= <-].
  apply sequential_sound in E1 as [P1 Hs]. destruct (rounds_sound _ _ _ _ _ _ E2) as (at_ & H0 & Hn & P2 & Hk).
  exists at_. rewrite H0. split; [exact Hs|]. split; [exact Hk|]. by rewrite P2, P1, Hn.
Qed.
End any_store.

(** ** The store in memory *)

#[export] Instance memory_race : RacingStore Memory := creates.

#[export] Instance memory_atomic : AtomicRace Memory.
Proof.
  intros p bodies st. exists bodies, (os_race p bodies st).1. split_and!; [done|by destruct (os_race p bodies st) eqn:E|done|].
  unfold os_race, memory_race. revert st. induction bodies as [|b bodies IH]; intros st; [done|]. cbn [creates].
  destruct (os_create p b st) as [r st1]. specialize (IH st1). destruct (creates p bodies st1) as [rs st2]. cbn in *. lia.
Qed.

Definition probe_prefix : Path := ["graph"; "edges"].
Definition probe_store : Memory := mkMemory {[ ["graph"; "edges"; "metadata"] := mkObject [1] 5 ]} 7.

Lemma started_store_arbitrated_witness :
  ∃ at_ : nat → Memory, refuses_second (sequential_key (probe_prefix ++ ["_preflight"]) "u1") probe_store (at_ 0%nat) ∧
    ∃ w, arbitrated (race_key (probe_prefix ++ ["_preflight"]) "u1" 3) (at_ 3%nat) w (at_ 4%nat).
Proof.
  destruct (started_store_arbitrated probe_prefix "u1" probe_store (preflight probe_prefix "u1" false probe_store).2) as (at_ & H1 & H2 & _);
    [by vm_compute|]. exists at_. split; [exact H1|]. apply H2. unfold ROUNDS. lia.
Defined.
