(* ===== verification/Catalog.v ===== *)
(** The snapshot catalog: [src/storage/catalog.rs].

    A commit is one immutable metadata object per sequence, created if absent; the
    newest sequence is found by listing once and probing forward afterwards. The
    metadata names the runs that make up the routing state, and [run_set] is the one
    place their spans are checked. A path in the metadata is written as the string of
    an object store path; here it is that path. *)

From S2P Require Import Prelude Bytes Stream Decimal ObjectStore.

(** [DataFileMeta]. *)
Record DataFileMeta := mkDataFile {
  df_path : Path;
  df_rows : N;
  df_bytes : N;
  df_min_offset : N;
  df_max_offset : N;
  df_first_position : StreamPosition;
  df_last_position : StreamPosition;
}.

(** [RunMeta]. *)
Record RunMeta := mkRun {
  run_path : Path;
  run_level : N;
  min_sequence : N;
  max_sequence : N;
  run_pairs : N;
  run_bytes : N;
}.

#[export] Instance RunMeta_eq_dec : EqDecision RunMeta.
Proof. solve_decision. Defined.

(** [SnapshotMeta]. *)
Record SnapshotMeta := mkSnapshot {
  sm_sequence : N;
  committed_at_ms : Z;
  watermark : N;
  sm_position : StreamPosition;
  sm_stream : option StreamId;
  data_files : list DataFileMeta;
  puffin_path : Path;
  committer : string;
  sm_base_sequence : N;
  delta_chain_len : N;
  runs : list RunMeta;
  format_version : N;
}.

Definition FORMAT_RUN_SETS : N := 1.
Definition FORMAT_STREAM_POSITION : N := 2.

Inductive RunSet :=
| Runs (rs : list RunMeta)
| SequencesOnly (first last : N).

Inductive catalog_error :=
| PositionBackwards
| StreamMismatch
| ListsNoRuns
| SpansBackwards (r : RunMeta)
| NotAdjacent (a b : RunMeta)
| NewestElsewhere
| MissingSnapshot (sequence : N)
| BadJson
| CatalogStore (e : store_error)
| OutOfFuel.

(** ** What a snapshot says *)

(** [RunMeta::adjacent_to]. *)
Definition adjacent_to (a b : RunMeta) : bool := max_sequence a ⊞ 1 =? min_sequence b.

(** [SnapshotMeta::stream_position]. *)
Definition stream_position (m : SnapshotMeta) : StreamPosition :=
  if pos_is_empty (sm_position m) then single (watermark m) else sm_position m.

(** [SnapshotMeta::set_stream_position]. *)
Definition set_stream_position (m : SnapshotMeta) (position : StreamPosition) : SnapshotMeta :=
  mkSnapshot (sm_sequence m) (committed_at_ms m) (default 0 (as_scalar position)) position (sm_stream m)
    (data_files m) (puffin_path m) (committer m) (sm_base_sequence m) (delta_chain_len m) (runs m)
    (if (1 <? pos_len position)%nat then N.max (format_version m) FORMAT_STREAM_POSITION else format_version m).

(** [SnapshotMeta::advances_from]. *)
Definition advances_from (m previous : SnapshotMeta) : result catalog_error unit :=
  _ ← ensure (dominates (stream_position m) (stream_position previous)) PositionBackwards;
  match sm_stream m, sm_stream previous with
  | Some a, Some b => ensure (same_stream a b) StreamMismatch
  | _, _ => Ok tt
  end.

(** [SnapshotMeta::chain]: an inclusive range. *)
Definition chain (m : SnapshotMeta) : N * N :=
  (if sm_base_sequence m =? 0 then sm_sequence m else sm_base_sequence m, sm_sequence m).

(** [sort_by_key(|r| r.min_sequence)], a stable sort. *)
Fixpoint insert_by_min (r : RunMeta) (l : list RunMeta) : list RunMeta :=
  match l with
  | [] => [r]
  | x :: l' => if min_sequence r <=? min_sequence x then r :: l else x :: insert_by_min r l'
  end.

Definition sort_by_min (l : list RunMeta) : list RunMeta := foldr insert_by_min [] l.

Fixpoint check_spans (l : list RunMeta) : result catalog_error unit :=
  match l with
  | [] => Ok tt
  | r :: l' => _ ← ensure (min_sequence r <=? max_sequence r) (SpansBackwards r); check_spans l'
  end.

(** [windows(2)], each pair adjacent. *)
Fixpoint check_adjacent (l : list RunMeta) : result catalog_error unit :=
  match l with
  | a :: ((b :: _) as l') => _ ← ensure (adjacent_to a b) (NotAdjacent a b); check_adjacent l'
  | _ => Ok tt
  end.

(** [SnapshotMeta::run_set]. *)
Definition run_set (m : SnapshotMeta) : result catalog_error RunSet :=
  _ ← ensure (negb (FORMAT_RUN_SETS <=? format_version m) || negb (bool_decide (runs m = []))) ListsNoRuns;
  match last (sort_by_min (runs m)) with
  | None => let '(a, b) := chain m in Ok (SequencesOnly a b)
  | Some newest =>
      let rs := sort_by_min (runs m) in
      _ ← check_spans rs;
      _ ← check_adjacent rs;
      _ ← ensure (max_sequence newest =? sm_sequence m) NewestElsewhere;
      Ok (Runs rs)
  end.

(** ** The catalog over an object store *)

Inductive CommitOutcome := Committed | Conflict.

#[export] Instance CommitOutcome_eq_dec : EqDecision CommitOutcome.
Proof. solve_decision. Defined.

Fixpoint strip_prefix (p s : string) : option string :=
  match p, s with
  | String.EmptyString, _ => Some s
  | String.String a p', String.String b s' => if Ascii.eqb a b then strip_prefix p' s' else None
  | String.String _ _, String.EmptyString => None
  end.

Fixpoint strip_suffix (p s : string) : option string :=
  if String.eqb s p then Some "" else
  match s with
  | String.EmptyString => None
  | String.String c s' => String.String c <$> strip_suffix p s'
  end.

(** The sequence a metadata file name carries. *)
Definition name_sequence (name : string) : option N :=
  rest ← strip_prefix "snap-" name; digits ← strip_suffix ".json" rest; parse_u64 digits.

(** [format!("snap-{sequence:012}.json")]. *)
Definition snap_name (sequence : N) : string :=
  String.append "snap-" (String.append (pad_zeros 12 sequence) ".json").

Definition metadata_dir (prefix : Path) : Path := prefix ++ ["metadata"].

(** [SnapshotCatalog::snap_path]. *)
Definition snap_path (prefix : Path) (sequence : N) : Path := metadata_dir prefix ++ [snap_name sequence].

(** [SnapshotCatalog] beside the store it reads: the prefix is fixed for its life, the
    highest sequence this process has seen is not. *)
Record CatalogView (St : Type) := mkView { cv_store : St; cached_seq : N }.
Arguments mkView {St}.
Arguments cv_store {St}.
Arguments cached_seq {St}.

Section catalog.
Context {St : Type} `{ObjectStore St}.
Context (to_json : SnapshotMeta → bytes) (from_json : bytes → option SnapshotMeta).
Context (prefix : Path).

Abbreviation catalog_io := (io (CatalogView St) catalog_error).

(** A call on the store, its error inspected by the caller. *)
Definition on_store {A} (m : io St store_error A) : catalog_io (result store_error A) :=
  attempt (zoom cv_store (fun t v => mkView t (cached_seq v)) m).

Definition or_store {A} (r : result store_error A) : result catalog_error A :=
  match r with Ok a => Ok a | Err e => Err (CatalogStore e) end.

Definition parse_snapshot (b : bytes) : result catalog_error SnapshotMeta :=
  match from_json b with Some m => Ok m | None => Err BadJson end.

(** [SnapshotCatalog::exists]. *)
Definition exists_seq (sequence : N) : catalog_io bool :=
  r ← on_store (os_head (snap_path prefix sequence));
  match r with
  | Ok _ => mret true
  | Err NotFound => mret false
  | Err e => io_fail (CatalogStore e)
  end.

(** The newest sequence a listing names; a listing's own file name is its last segment. *)
Definition newest_named (l : list ObjectMeta) : N :=
  foldl (fun newest m =>
    match last (location m) ≫= name_sequence with Some seq => N.max newest seq | None => newest end) 0 l.

(** [SnapshotCatalog::scan_latest_seq]. *)
Definition scan_latest_seq : catalog_io N :=
  r ← on_store (os_list (metadata_dir prefix));
  l ← lift (or_store r);
  mret (newest_named l).

(** [while self.exists(seq + 1).await? { seq += 1 }]; the fuel bounds the iterations. *)
Fixpoint probe_forward (fuel : nat) (seq : N) : catalog_io N :=
  match fuel with
  | O => io_fail OutOfFuel
  | S fuel =>
      found ← exists_seq (seq ⊞ 1);
      if (found : bool) then probe_forward fuel (seq ⊞ 1) else mret seq
  end.

(** Every iteration that goes on has found another object. *)
Definition probe_fuel (v : CatalogView St) : nat := S (size (objects (cv_store v))).

Definition observe (seq : N) (v : CatalogView St) : CatalogView St :=
  mkView (cv_store v) (N.max (cached_seq v) seq).

(** [SnapshotCatalog::latest]. *)
Definition latest : catalog_io (option SnapshotMeta) :=
  cached ← gets cached_seq;
  seq ← (if cached =? 0 then scan_latest_seq else mret cached);
  if (cached =? 0) && (seq =? 0) then mret None else
  fuel ← gets probe_fuel;
  seq ← probe_forward fuel seq;
  _ ← modify (observe seq);
  r ← on_store (os_get (snap_path prefix seq));
  b ← lift (or_store r);
  m ← lift (parse_snapshot b);
  mret (Some m).

(** [SnapshotCatalog::get]. *)
Definition catalog_get (sequence : N) : catalog_io SnapshotMeta :=
  r ← on_store (os_get (snap_path prefix sequence));
  match r with
  | Err _ => io_fail (MissingSnapshot sequence)
  | Ok b => lift (parse_snapshot b)
  end.

(** [SnapshotCatalog::commit]. *)
Definition commit (m : SnapshotMeta) : catalog_io CommitOutcome :=
  r ← on_store (os_create (snap_path prefix (sm_sequence m)) (to_json m));
  match r with
  | Ok _ => _ ← modify (observe (sm_sequence m)); mret Committed
  | Err AlreadyExists => mret Conflict
  | Err e => io_fail (CatalogStore e)
  end.
End catalog.
