(* ===== verification/CatalogInv.v ===== *)
(** What the catalog keeps: lemmas on run spans, metadata paths and the operations of
    [src/storage/catalog.rs]. *)

From S2P Require Import Prelude Bytes Stream Decimal ObjectStore Catalog.

(** ** Spans *)

Definition in_span (r : RunMeta) (q : N) : Prop := min_sequence r <= q <= max_sequence r.

(** [a] ends before [b] starts. *)
Definition before (a b : RunMeta) : Prop := max_sequence a < min_sequence b.

Definition forward (r : RunMeta) : Prop := min_sequence r <= max_sequence r.

(** The sequences some run of [rs] covers. *)
Definition covered (rs : list RunMeta) (q : N) : Prop := ∃ r, r ∈ rs ∧ in_span r q.

(** The spans of [rs] are disjoint, in order, and together are the sequences
    [lo..=hi]. *)
Record tiles (rs : list RunMeta) (lo hi : N) : Prop := {
  tl_forward : Forall forward rs;
  tl_ordered : StronglySorted before rs;
  tl_covers : ∀ q, covered rs q ↔ lo <= q <= hi;
}.

(** Sequences stay below the last [u64], so that [max_sequence + 1] is exact. *)
Definition small_run (r : RunMeta) : Prop := max_sequence r + 1 < u64_limit.

Lemma covered_cons r rs q : covered (r :: rs) q ↔ in_span r q ∨ covered rs q.
Proof. unfold covered. setoid_rewrite elem_of_cons. naive_solver. Qed.

Lemma covered_app rs rs' q : covered (rs ++ rs') q ↔ covered rs q ∨ covered rs' q.
Proof. unfold covered. setoid_rewrite elem_of_app. naive_solver. Qed.

Lemma covered_nil q : ¬ covered [] q.
Proof. intros (r & Hr & _). by apply elem_of_nil in Hr. Qed.

Lemma check_spans_ok l : check_spans l = Ok tt ↔ Forall forward l.
Proof.
  induction l as [|r l IH]; cbn [check_spans]; [by split|].
  rewrite Forall_cons, <- IH. unfold ensure, forward.
  destruct (N.leb_spec (min_sequence r) (max_sequence r)); cbn; [naive_solver|]. split; [done|lia].
Qed.

Lemma check_adjacent_cons a b l :
  check_adjacent (a :: b :: l) = Ok tt ↔ adjacent_to a b = true ∧ check_adjacent (b :: l) = Ok tt.
Proof. cbn [check_adjacent]. unfold ensure. destruct (adjacent_to a b); cbn; naive_solver. Qed.

Lemma adjacent_iff a b : small_run a → adjacent_to a b = true ↔ max_sequence a + 1 = min_sequence b.
Proof. intros Hs. unfold adjacent_to. rewrite wadd64_small by exact Hs. apply N.eqb_eq. Qed.

(** Adjacent spans tile the sequences from the first run's start to the last one's end. *)
Lemma adjacent_tiles l : ∀ r newest,
  Forall forward (r :: l) → Forall small_run (r :: l) → check_adjacent (r :: l) = Ok tt →
  last (r :: l) = Some newest → tiles (r :: l) (min_sequence r) (max_sequence newest).
Proof.
  induction l as [|b l IH]; intros r newest Hf Hs Ha Hl.
  - apply Forall_cons in Hf as Hr. cbn in Hl. injection Hl as <-.
    split; [done|repeat constructor|]. intros q. rewrite covered_cons. pose proof (covered_nil q). unfold in_span. naive_solver.
  - apply check_adjacent_cons in Ha as [Hab Ha]. apply Forall_cons in Hf as [Hr Hf]. apply Forall_cons in Hs as [Hsr Hs].
    apply adjacent_iff in Hab; [|done]. rewrite last_cons_cons in Hl.
    destruct (IH b newest Hf Hs Ha Hl) as [_ Ho Hc].
    assert (∀ x, x ∈ b :: l → forward x ∧ min_sequence b <= min_sequence x) as Hx.
    { intros x Hx. rewrite Forall_forall in Hf. pose proof (Hf x Hx) as Hfx. split; [done|].
      destruct (Hc (min_sequence x)) as [Hc1 _]. apply Hc1. exists x. split; [done|]. unfold in_span, forward in *. lia. }
    split; [by constructor| |].
    + constructor; [done|]. rewrite Forall_forall. intros x [_ Hb]%Hx. unfold before. lia.
    + intros q. rewrite covered_cons, Hc. unfold in_span, forward in *.
      destruct (Hx b ltac:(left)) as [Hfb _]. unfold forward in Hfb.
      pose proof (proj1 (Hc (min_sequence b))) as Hb. unfold covered, in_span in Hb.
      assert (min_sequence b <= max_sequence newest) by (apply Hb; exists b; split; [by left|lia]). lia.
Qed.

(** And conversely spans that tile are pairwise adjacent. *)
Lemma tiles_adjacent l : ∀ r lo hi,
  tiles (r :: l) lo hi → Forall small_run (r :: l) →
  check_adjacent (r :: l) = Ok tt ∧ lo = min_sequence r ∧ (∀ n, last (r :: l) = Some n → max_sequence n = hi).
Proof.
  induction l as [|b l IH]; intros r lo hi [Hf Ho Hc] Hs.
  - apply Forall_cons in Hf as [Hr _]. unfold forward in Hr.
    assert (∀ q, in_span r q ↔ lo <= q <= hi) as Hq.
    { intros q. rewrite <- Hc, covered_cons. pose proof (covered_nil q). naive_solver. }
    unfold in_span in Hq. pose proof (Hq (min_sequence r)). pose proof (Hq (max_sequence r)).
    pose proof (Hq lo). pose proof (Hq hi).
    split; [done|]. split; [lia|]. intros n [= <-]. lia.
  - apply Forall_cons in Hf as [Hr Hf]. apply StronglySorted_inv in Ho as [Ho Hb]. apply Forall_cons in Hs as [Hsr Hs].
    rewrite Forall_forall in Hb. unfold forward in Hr.
    assert (∀ q, covered (b :: l) q ↔ max_sequence r + 1 <= q <= hi) as Hc'.
    { intros q. pose proof (Hc q) as Hq. rewrite covered_cons in Hq. split.
      - intros Hcq. assert (lo <= q <= hi) by (apply Hq; by right).
        destruct Hcq as (x & Hx & Hxq). specialize (Hb x Hx). unfold in_span, before in *. lia.
      - intros Hle. assert (lo <= q <= hi) as Hlq.
        { split; [|lia]. assert (covered (r :: b :: l) (max_sequence r)) as Hm%Hc by (exists r; split; [by left|unfold in_span; lia]). lia. }
        apply Hq in Hlq as [Hin|]; [unfold in_span in Hin; lia|done]. }
    destruct (IH b (max_sequence r + 1) hi) as (Hck & Hmin & Hlast); [split; done|done|].
    rewrite check_adjacent_cons, (adjacent_iff r b Hsr). split; [done|]. split.
    + assert (covered (r :: b :: l) (min_sequence r)) as Hm%Hc by (exists r; split; [by left|unfold in_span; lia]).
      assert (covered (r :: b :: l) lo) as Hlo by (apply Hc; lia).
      rewrite covered_cons, Hc' in Hlo. unfold in_span in Hlo. lia.
    + intros n Hn. rewrite last_cons_cons in Hn. by apply Hlast.
Qed.

(** ** The sort *)

Lemma insert_by_min_perm r l : insert_by_min r l ≡ₚ r :: l.
Proof.
  induction l as [|x l IH]; [done|]. cbn [insert_by_min]. case_match; [done|].
  rewrite IH. by rewrite Permutation_swap.
Qed.

Lemma sort_by_min_perm l : sort_by_min l ≡ₚ l.
Proof.
  induction l as [|r l IH]; [done|]. change (sort_by_min (r :: l)) with (insert_by_min r (sort_by_min l)).
  by rewrite insert_by_min_perm, IH.
Qed.

Definition min_le (a b : RunMeta) : Prop := min_sequence a <= min_sequence b.

Lemma insert_by_min_sorted r l : StronglySorted min_le l → StronglySorted min_le (insert_by_min r l).
Proof.
  induction 1 as [|x l Hs IH Hx]; cbn [insert_by_min]; [repeat constructor|].
  destruct (N.leb_spec (min_sequence r) (min_sequence x)).
  - constructor; [by constructor|]. constructor; [done|].
    rewrite Forall_forall in Hx |- *. intros y Hy. specialize (Hx y Hy). unfold min_le in *. lia.
  - constructor; [done|]. rewrite Forall_forall in Hx |- *. intros y Hy. rewrite insert_by_min_perm in Hy.
    apply elem_of_cons in Hy as [->|Hy]; [unfold min_le; lia|by apply Hx].
Qed.

Lemma sort_by_min_sorted l : StronglySorted min_le (sort_by_min l).
Proof. induction l as [|r l IH]; [constructor|]. by apply insert_by_min_sorted. Qed.

Lemma ordered_min_le rs : StronglySorted before rs → Forall forward rs → StronglySorted min_le rs.
Proof.
  induction 1 as [|r rs Hs IH Hr]; intros Hf; [constructor|]. apply Forall_cons in Hf as [Hfr Hf].
  constructor; [by apply IH|]. rewrite Forall_forall in Hr |- *. intros x Hx. specialize (Hr x Hx).
  unfold before, forward, min_le in *. lia.
Qed.

(** Runs whose spans are in order are told apart by where they start. *)
Lemma ordered_min_inj rs a b :
  StronglySorted before rs → Forall forward rs → a ∈ rs → b ∈ rs → min_sequence a = min_sequence b → a = b.
Proof.
  induction 1 as [|r rs Hs IH Hr]; intros Hf Ha Hb E; [by apply elem_of_nil in Ha|].
  apply Forall_cons in Hf as [Hfr Hf]. rewrite Forall_forall in Hr. unfold before, forward in *.
  apply elem_of_cons in Ha as [->|Ha], Hb as [->|Hb]; [done| | |by apply IH].
  - specialize (Hr b Hb). lia.
  - specialize (Hr a Ha). lia.
Qed.

Lemma sort_by_min_ordered rs l : StronglySorted before rs → Forall forward rs → rs ≡ₚ l → sort_by_min l = rs.
Proof.
  intros Ho Hf Hp. apply (StronglySorted_unique_strong min_le).
  - intros a b Ha Hb H1 H2. rewrite sort_by_min_perm, <- Hp in Ha. unfold min_le in *.
    eapply ordered_min_inj; [done|done|done|done|lia].
  - apply sort_by_min_sorted.
  - by apply ordered_min_le.
  - by rewrite sort_by_min_perm.
Qed.

Lemma sort_by_min_nil l : last (sort_by_min l) = None → l = [].
Proof.
  intros Hl%last_None. apply Permutation_nil. by rewrite <- (sort_by_min_perm l), Hl.
Qed.

Lemma wsub64_wadd64 s a : s < u64_limit → a < u64_limit → (s ⊞ a) ⊟ s = a.
Proof.
  intros Hs Ha. unfold wsub64, wadd64. rewrite (wrap64_small s) by done. unfold wrap64.
  rewrite N.Div0.add_mod_idemp_l. replace (s + a + (u64_limit - s)) with (a + 1 * u64_limit) by lia.
  rewrite N.Div0.mod_add. by apply N.mod_small.
Qed.

(** ** Metadata names *)

Lemma strip_prefix_app p s : strip_prefix p (String.append p s) = Some s.
Proof. induction p as [|c p IH]; [by destruct s|].
  change (String.append (String.String c p) s) with (String.String c (String.append p s)).
  cbn [strip_prefix]. by rewrite Ascii.eqb_refl. Qed.

Lemma length_string_append (s p : string) : String.length (String.append s p) = (String.length s + String.length p)%nat.
Proof.
  induction s as [|c s IH]; [done|].
  change (String.append (String.String c s) p) with (String.String c (String.append s p)).
  cbn [String.length]. by rewrite IH.
Qed.

Lemma strip_suffix_app p s : strip_suffix p (String.append s p) = Some s.
Proof.
  induction s as [|c s IH].
  - change (String.append "" p) with p. destruct p; [done|]. unfold strip_suffix at 1. by rewrite String.eqb_refl.
  - change (String.append (String.String c s) p) with (String.String c (String.append s p)). cbn [strip_suffix].
    destruct (String.eqb_spec (String.String c (String.append s p)) p) as [E|_]; [|by rewrite IH].
    exfalso. apply (f_equal String.length) in E. cbn [String.length] in E. rewrite length_string_append in E. lia.
Qed.

Lemma snap_name_sequence n : n < u64_limit → name_sequence (snap_name n) = Some n.
Proof.
  intros Hn. unfold name_sequence, snap_name. rewrite strip_prefix_app. cbn [mbind option_bind].
  rewrite strip_suffix_app. cbn [mbind option_bind]. by apply parse_pad_zeros.
Qed.

Lemma snap_path_last prefix n : n < u64_limit → last (snap_path prefix n) ≫= name_sequence = Some n.
Proof. intros Hn. unfold snap_path. rewrite last_snoc. by apply snap_name_sequence. Qed.

Lemma snap_path_inj prefix m n : m < u64_limit → n < u64_limit → snap_path prefix m = snap_path prefix n → m = n.
Proof.
  intros Hm Hn E. pose proof (snap_path_last prefix m Hm) as H1. rewrite E, snap_path_last in H1 by done. by injection H1.
Qed.

Lemma snap_path_under prefix n :
  metadata_dir prefix `prefix_of` snap_path prefix n ∧ snap_path prefix n ≠ metadata_dir prefix.
Proof.
  split; [by apply prefix_app_r|]. intros E. apply (f_equal length) in E. unfold snap_path in E.
  rewrite length_app in E. cbn in E. lia.
Qed.

(** ** Metadata as text

    The program writes its metadata with [serde_json]. All that is used of it is that
    what was written reads back; the encoding below has that property, and stands for
    it where a claim is evaluated. *)

#[export] Instance StreamPosition_countable : Countable StreamPosition.
Proof. apply (inj_countable' offsets mkPosition). by intros []. Defined.

#[export] Instance StreamId_eq_dec : EqDecision StreamId.
Proof. solve_decision. Defined.

#[export] Instance StreamId_countable : Countable StreamId.
Proof.
  apply (inj_countable' (fun s => (stream_source s, stream_name s, stream_group s))
    (fun '(a, b, c) => mkStream a b c)). by intros [].
Defined.

#[export] Instance DataFileMeta_eq_dec : EqDecision DataFileMeta.
Proof. solve_decision. Defined.

#[export] Instance DataFileMeta_countable : Countable DataFileMeta.
Proof.
  apply (inj_countable'
    (fun d => (df_path d, [df_rows d; df_bytes d; df_min_offset d; df_max_offset d], df_first_position d, df_last_position d))
    (fun '(p, l, f, la) => mkDataFile p (l !!! 0%nat) (l !!! 1%nat) (l !!! 2%nat) (l !!! 3%nat) f la)). by intros [].
Defined.

#[export] Instance RunMeta_countable : Countable RunMeta.
Proof.
  apply (inj_countable'
    (fun r => (run_path r, [run_level r; min_sequence r; max_sequence r; run_pairs r; run_bytes r]))
    (fun '(p, l) => mkRun p (l !!! 0%nat) (l !!! 1%nat) (l !!! 2%nat) (l !!! 3%nat) (l !!! 4%nat))). by intros [].
Defined.

Definition demo_snap_to_json (m : SnapshotMeta) : bytes :=
  N.pos <$> [encode (sm_sequence m); encode (committed_at_ms m); encode (watermark m); encode (sm_position m);
    encode (sm_stream m); encode (data_files m); encode (puffin_path m); encode (committer m);
    encode (sm_base_sequence m); encode (delta_chain_len m); encode (runs m); encode (format_version m)].

Definition demo_snap_field {A} `{Countable A} (b : bytes) (i : nat) : option A :=
  match b !! i with Some (N.pos p) => decode p | _ => None end.

Definition demo_snap_from_json (b : bytes) : option SnapshotMeta :=
  a ← demo_snap_field b 0; t ← demo_snap_field b 1; w ← demo_snap_field b 2; p ← demo_snap_field b 3; s ← demo_snap_field b 4;
  d ← demo_snap_field b 5; f ← demo_snap_field b 6; c ← demo_snap_field b 7; bs ← demo_snap_field b 8; l ← demo_snap_field b 9;
  r ← demo_snap_field b 10; v ← demo_snap_field b 11; Some (mkSnapshot a t w p s d f c bs l r v).

Lemma demo_snap_roundtrip m : demo_snap_from_json (demo_snap_to_json m) = Some m.
Proof.
  destruct m. unfold demo_snap_from_json, demo_snap_to_json, demo_snap_field. cbn [fmap list_fmap lookup list_lookup].
  repeat (rewrite decode_encode; cbn [mbind option_bind]). done.
Qed.
