(* ===== verification/CatalogProps.v ===== *)
(** The catalog's promises: a run set is accepted exactly when its spans tile the
    sequences up to its own; of all the workers that commit a sequence exactly one
    wins and what it wrote is what everyone reads from then on; and [latest] finds the
    newest snapshot, after a bounded number of requests. *)

From S2P Require Import Prelude Bytes Stream Decimal ObjectStore Catalog CatalogInv.

(** ** Run sets *)

Lemma run_set_ok m rs :
  Forall small_run (runs m) →
  run_set m = Ok (Runs rs) ↔ rs ≠ [] ∧ rs ≡ₚ runs m ∧ ∃ lo, tiles rs lo (sm_sequence m) ∧ lo <= sm_sequence m.
Proof.
  intros Hs. unfold run_set. split.
  - intros Hr. destruct (ensure _ _) as [[]|]; [|done]. cbn [mbind result_bind] in Hr.
    pose proof (sort_by_min_perm (runs m)) as Hp.
    destruct (last (sort_by_min (runs m))) as [newest|] eqn:Hl; [|done].
    destruct (check_spans _) as [[]|] eqn:Hf; [|done]. destruct (check_adjacent _) as [[]|] eqn:Ha; [|done].
    cbn [mbind result_bind] in Hr. unfold ensure in Hr.
    destruct (N.eqb_spec (max_sequence newest) (sm_sequence m)) as [E|]; [|done]. injection Hr as Hr. subst rs.
    destruct (sort_by_min (runs m)) as [|r l] eqn:Hsort; [done|]. split; [done|]. split; [done|].
    exists (min_sequence r). apply check_spans_ok in Hf.
    assert (tiles (r :: l) (min_sequence r) (sm_sequence m)) as Ht.
    { rewrite <- E. apply adjacent_tiles; [done| |done|done]. by rewrite Hp. }
    split; [done|]. destruct Ht as [_ _ Hc]. apply Forall_cons in Hf as [Hf _]. unfold forward in Hf.
    apply (Hc (min_sequence r)). exists r. split; [by left|]. unfold in_span. lia.
  - intros (Hne & Hp & lo & Ht & Hlo). pose proof Ht as [Hf Ho _].
    rewrite (sort_by_min_ordered rs (runs m)) by done.
    assert (runs m ≠ []) as Hrm by (intros E; rewrite E in Hp; by apply Permutation_nil_r in Hp).
    rewrite bool_decide_eq_false_2 by done. rewrite orb_true_r. cbn [ensure mbind result_bind].
    destruct rs as [|r l]; [done|].
    destruct (last (r :: l)) as [newest|] eqn:Hl; [|by apply last_None in Hl].
    apply check_spans_ok in Hf. rewrite Hf. cbn [mbind result_bind].
    destruct (tiles_adjacent l r lo (sm_sequence m)) as (Ha & _ & Hn); [done|by rewrite Hp|].
    rewrite Ha. cbn [mbind result_bind]. rewrite (Hn newest Hl), N.eqb_refl. done.
Qed.

(** C24. A snapshot's run set is accepted exactly when its runs, put in order of their
    spans, tile the sequences from some first one up to the snapshot's own: every run
    spans forward, no sequence is in two runs, none in between is in no run, and the
    newest run ends at the snapshot. What is returned is the same runs in that order. *)
Theorem run_set_exact m rs :
  Forall small_run (runs m) →
  run_set m = Ok (Runs rs) ↔
    rs ≠ [] ∧ rs ≡ₚ runs m ∧ Forall forward rs ∧ StronglySorted before rs ∧
    ∃ lo, lo <= sm_sequence m ∧ ∀ q, (∃ r, r ∈ rs ∧ in_span r q) ↔ lo <= q <= sm_sequence m.
Proof.
  intros Hs. rewrite run_set_ok by done. split.
  - intros (Hne & Hp & lo & [Hf Ho Hc] & Hlo). eauto 10.
  - intros (Hne & Hp & Hf & Ho & lo & Hlo & Hc). split_and!; [done|done|]. exists lo. by split.
Qed.

Definition demo_meta (level lo hi : N) : RunMeta := mkRun ["puffin"; pad_zeros 3 lo] level lo hi 1 1.

Definition demo_snapshot (sequence : N) (rs : list RunMeta) : SnapshotMeta :=
  mkSnapshot sequence 0 10 (single 10) None [] ["puffin"; pad_zeros 3 sequence] "w" sequence 0 rs FORMAT_RUN_SETS.

Lemma run_set_exact_witness :
  let m := demo_snapshot 9 [demo_meta 0 9 9; demo_meta 1 3 8] in
  let rs := [demo_meta 1 3 8; demo_meta 0 9 9] in
  run_set m = Ok (Runs rs) ∧ rs ≠ [] ∧ rs ≡ₚ runs m ∧ Forall forward rs ∧ StronglySorted before rs ∧
    ∃ lo, lo <= sm_sequence m ∧ ∀ q, (∃ r, r ∈ rs ∧ in_span r q) ↔ lo <= q <= sm_sequence m.
Proof.
  intros m rs. assert (run_set m = Ok (Runs rs)) as H by (by vm_compute). split; [exact H|].
  apply (run_set_exact m rs); [|exact H]. repeat constructor; by vm_compute.
Defined.

(** ** Positions a snapshot carries *)

(** A commit is let through exactly when it takes no partition backwards and, where
    both snapshots name a stream, names the same one; and the position set on a
    snapshot is the position read from it, whether or not it has a scalar form. *)
Theorem advances_from_exact m previous p :
  (advances_from m previous = Ok tt ↔
    covers (stream_position m) (stream_position previous) ∧
    ∀ a b, sm_stream m = Some a → sm_stream previous = Some b → same_stream a b = true) ∧
  stream_position (set_stream_position m p) ≡ p.
Proof.
  split.
  - unfold advances_from, ensure. pose proof (dominates_covers (stream_position m) (stream_position previous)) as Hd.
    destruct (dominates _ _); cbn [mbind result_bind].
    + destruct (sm_stream m) as [a|], (sm_stream previous) as [b|]; try (by split; [intros _; split; [by apply Hd|]|]).
      split.
      * intros Hs. split; [by apply Hd|]. intros ? ? [= <-] [= <-]. by destruct (same_stream a b).
      * intros [_ Hs]. by rewrite (Hs a b).
    + split; [done|]. intros [Hc _]. by apply Hd in Hc.
  - unfold stream_position, set_stream_position, pos_is_empty. cbn [sm_position watermark].
    case_bool_decide as Hp; [|done]. destruct p as [o]. cbn in Hp. subst o. intros k. unfold single.
    rewrite pos_get_advance. by case_decide.
Qed.

(** ** Workers racing for a sequence

    Any number of workers, each with its own view of the catalog, sharing one store.
    Between their commits anyone may read the catalog, write data and run objects, and
    delete what has expired; each request to the store is one step. *)

Inductive request :=
| Commit (worker : nat) (m : SnapshotMeta)
| Observe (worker : nat)
| Put (p : Path) (b : bytes)
| Delete (p : Path).

Section race.
Context {St : Type} `{!ObjectStore St, !ObjectStoreLaws St}.
Context (to_json : SnapshotMeta → bytes) (from_json : bytes → option SnapshotMeta).
Context (prefix : Path).

Record Cluster := mkCluster { cl_store : St; cl_cached : gmap nat N }.

Definition view_of (c : Cluster) (worker : nat) : CatalogView St :=
  mkView (cl_store c) (default 0 (cl_cached c !! worker)).

Definition put_view (worker : nat) (v : CatalogView St) (c : Cluster) : Cluster :=
  mkCluster (cv_store v) (<[worker := cached_seq v]> (cl_cached c)).

(** One step: what a commit was answered, and the cluster afterwards. *)
Definition serve (r : request) (c : Cluster) : option (result catalog_error CommitOutcome) * Cluster :=
  match r with
  | Commit w m => let '(o, v) := commit to_json prefix m (view_of c w) in (Some o, put_view w v c)
  | Observe w => let '(_, v) := latest from_json prefix (view_of c w) in (None, put_view w v c)
  | Put p b => (None, mkCluster (os_put p b (cl_store c)).2 (cl_cached c))
  | Delete p => (None, mkCluster (os_delete p (cl_store c)).2 (cl_cached c))
  end.

Fixpoint serve_all (rs : list request) (c : Cluster) : list (option (result catalog_error CommitOutcome)) * Cluster :=
  match rs with
  | [] => ([], c)
  | r :: rs => let '(o, c) := serve r c in let '(os, c) := serve_all rs c in (o :: os, c)
  end.

(** Nobody overwrites or expires the metadata of [s] by hand. *)
Definition leaves (s : N) (r : request) : Prop :=
  match r with
  | Put p _ | Delete p => p ≠ snap_path prefix s
  | _ => True
  end.

(** Request [i] is a commit of [s] and was answered [o]. *)
Definition answered (s : N) (rs : list request) (os : list (option (result catalog_error CommitOutcome)))
    (o : result catalog_error CommitOutcome) (i : nat) (m : SnapshotMeta) : Prop :=
  ∃ w, rs !! i = Some (Commit w m) ∧ sm_sequence m = s ∧ os !! i = Some (Some o).

Lemma commit_store m v :
  cv_store (commit to_json prefix m v).2 = (os_create (snap_path prefix (sm_sequence m)) (to_json m) (cv_store v)).2.
Proof.
  unfold commit. rewrite bind_unfold. unfold on_store, attempt, zoom.
  destruct (os_create _ _ _) as [[[]|[]] st]; done.
Qed.

Lemma commit_reply m v :
  (commit to_json prefix m v).1 =
  match (os_create (snap_path prefix (sm_sequence m)) (to_json m) (cv_store v)).1 with
  | Ok _ => Ok Committed
  | Err AlreadyExists => Ok Conflict
  | Err e => Err (CatalogStore e)
  end.
Proof.
  unfold commit. rewrite bind_unfold. unfold on_store, attempt, zoom.
  destruct (os_create _ _ _) as [[[]|[]] st]; done.
Qed.

(** Reads leave the objects alone. *)
Lemma on_store_objects {A} (m : io St store_error A) (v : CatalogView St) :
  (∀ st, objects (m st).2 = objects st) →
  ∃ r v', on_store m v = (Ok r, v') ∧ r = (m (cv_store v)).1 ∧ objects (cv_store v') = objects (cv_store v) ∧
    cached_seq v' = cached_seq v.
Proof.
  intros Hm. unfold on_store, attempt, zoom. pose proof (Hm (cv_store v)) as Hv.
  destruct (m (cv_store v)) as [r st]. by do 2 eexists.
Qed.

Lemma exists_seq_objects s v :
  objects (cv_store (exists_seq prefix s v).2) = objects (cv_store v) ∧
  cached_seq (exists_seq prefix s v).2 = cached_seq v.
Proof.
  unfold exists_seq. rewrite bind_unfold.
  destruct (on_store_objects (os_head (snap_path prefix s)) v) as (r & v' & -> & _ & Ho & Hc); [intros; apply head_same|].
  by destruct r as [|[]].
Qed.

Lemma probe_forward_objects fuel : ∀ s v,
  objects (cv_store (probe_forward prefix fuel s v).2) = objects (cv_store v) ∧
  cached_seq (probe_forward prefix fuel s v).2 = cached_seq v.
Proof.
  induction fuel as [|fuel IH]; intros s v; cbn [probe_forward]; [done|].
  rewrite bind_unfold. destruct (exists_seq_objects (s ⊞ 1) v) as [Ho Hc].
  destruct (exists_seq prefix (s ⊞ 1) v) as [[[]|] v']; cbn in *; [|done|done].
  rewrite (proj1 (IH _ _)), (proj2 (IH _ _)). done.
Qed.

Lemma scan_objects v :
  objects (cv_store (scan_latest_seq prefix v).2) = objects (cv_store v) ∧
  cached_seq (scan_latest_seq prefix v).2 = cached_seq v.
Proof.
  unfold scan_latest_seq. rewrite bind_unfold.
  destruct (on_store_objects (os_list (metadata_dir prefix)) v) as (r & v' & -> & _ & Ho & Hc); [intros; apply list_same|].
  by destruct r.
Qed.

Lemma latest_tail_objects fuel s v :
  objects (cv_store ((s' ← probe_forward prefix fuel s; _ ← modify (observe s');
    r ← on_store (os_get (snap_path prefix s')); b ← lift (or_store r); m ← lift (parse_snapshot from_json b);
    mret (Some m)) v : result catalog_error (option SnapshotMeta) * CatalogView St).2) = objects (cv_store v).
Proof.
  rewrite bind_unfold. destruct (probe_forward_objects fuel s v) as [Ho _].
  destruct (probe_forward prefix fuel s v) as [[s'|] v1]; cbn in Ho; [|done]. rewrite bind_unfold. cbn [modify].
  rewrite bind_unfold.
  destruct (on_store_objects (os_get (snap_path prefix s')) (observe s' v1)) as (r & v' & -> & _ & Ho' & _);
    [intros; apply get_same|].
  cbn [observe cv_store] in Ho'. rewrite bind_unfold. destruct r as [b|]; cbn; [|congruence]. unfold parse_snapshot.
  rewrite bind_unfold. destruct (from_json b); cbn; congruence.
Qed.

Lemma latest_objects v : objects (cv_store (latest from_json prefix v).2) = objects (cv_store v).
Proof.
  unfold latest. rewrite bind_unfold. cbn [gets]. rewrite bind_unfold.
  destruct (cached_seq v =? 0) eqn:E; cbn [andb].
  - destruct (scan_objects v) as [Ho _]. destruct (scan_latest_seq prefix v) as [[s|] v1]; cbn in Ho; [|done].
    destruct (s =? 0); [done|]. rewrite bind_unfold. cbn [gets]. rewrite latest_tail_objects. done.
  - cbn. rewrite bind_unfold. cbn [gets]. apply latest_tail_objects.
Qed.

(** What is at a sequence stays there. *)
Lemma serve_keeps s r c o :
  leaves s r → objects (cl_store c) !! snap_path prefix s = Some o →
  objects (cl_store (serve r c).2) !! snap_path prefix s = Some o.
Proof.
  intros Hl Ho. destruct r as [w m|w|p b|p]; cbn [serve leaves] in *.
  - pose proof (commit_store m (view_of c w)) as Hs. destruct (commit to_json prefix m (view_of c w)) as [x v].
    cbn in *. rewrite Hs. by apply create_keeps.
  - pose proof (latest_objects (view_of c w)) as Hs. destruct (latest from_json prefix (view_of c w)) as [x v].
    cbn in *. by rewrite Hs.
  - cbn. by rewrite put_other.
  - cbn. by rewrite delete_other.
Qed.

Lemma serve_commit w m c :
  serve (Commit w m) c =
    (Some (commit to_json prefix m (view_of c w)).1, put_view w (commit to_json prefix m (view_of c w)).2 c).
Proof. cbn [serve]. by destruct (commit _ _ _ _). Qed.

(** A commit that wins found nothing there and leaves its own metadata. *)
Lemma serve_wins w m c :
  (serve (Commit w m) c).1 = Some (Ok Committed) →
  objects (cl_store c) !! snap_path prefix (sm_sequence m) = None ∧
  o_data <$> objects (cl_store (serve (Commit w m) c).2) !! snap_path prefix (sm_sequence m) = Some (to_json m).
Proof.
  rewrite serve_commit. cbn [fst snd put_view cl_store]. rewrite commit_reply, commit_store. cbn [view_of cv_store].
  destruct (os_create _ _ _).1 as [[]|[]] eqn:Hc; intros; simplify_eq/=. apply create_ok in Hc as [Hn Hs].
  split; [done|]. eapply stored_same, Hs.
Qed.

Lemma serve_all_cons r rs c :
  serve_all (r :: rs) c = ((serve r c).1 :: (serve_all rs (serve r c).2).1, (serve_all rs (serve r c).2).2).
Proof. cbn [serve_all]. destruct (serve r c) as [o c']. cbn. by destruct (serve_all rs c'). Qed.

Lemma serve_all_keeps s rs : ∀ c o,
  Forall (leaves s) rs → objects (cl_store c) !! snap_path prefix s = Some o →
  objects (cl_store (serve_all rs c).2) !! snap_path prefix s = Some o ∧
  ∀ i m, ¬ answered s rs (serve_all rs c).1 (Ok Committed) i m.
Proof.
  induction rs as [|r rs IH]; intros c o Hl Ho.
  { split; [done|]. by intros i m (w & Hi & _). }
  apply Forall_cons in Hl as [Hr Hl]. rewrite serve_all_cons. cbn [fst snd].
  destruct (IH (serve r c).2 o Hl (serve_keeps s r c o Hr Ho)) as [Hk Hw]. split; [done|].
  intros [|i] m (w & Hi & Hs & Hans); cbn in Hi, Hans.
  - injection Hi as ->. injection Hans as Hans. subst s. destruct (serve_wins w m c Hans) as [Hn _]. by rewrite Hn in Ho.
  - apply (Hw i m). by exists w.
Qed.

(** Metadata that is there is taken away by a delete and by nothing else. *)
Lemma serve_present s r c :
  r ≠ Delete (snap_path prefix s) → is_Some (objects (cl_store c) !! snap_path prefix s) →
  is_Some (objects (cl_store (serve r c).2) !! snap_path prefix s).
Proof.
  intros Hr [o Ho]. destruct r as [w m|w|p b|p].
  - rewrite (serve_keeps s (Commit w m) c o) by done. by eexists.
  - rewrite (serve_keeps s (Observe w) c o) by done. by eexists.
  - cbn. destruct (os_put p b (cl_store c)).1 as [[]|e] eqn:Hp.
    + apply put_ok in Hp as [t ->]. destruct (decide (snap_path prefix s = p)) as [->|Hne];
        [rewrite lookup_insert_eq|rewrite lookup_insert_ne by done; rewrite Ho]; by eexists.
    + apply put_failed in Hp as [->|[t ->]]; [by exists o|]. destruct (decide (snap_path prefix s = p)) as [->|Hne];
        [rewrite lookup_insert_eq|rewrite lookup_insert_ne by done; rewrite Ho]; by eexists.
  - rewrite (serve_keeps s (Delete p) c o); [by eexists| |done]. cbn. congruence.
Qed.

(** So no commit wins it before a delete. *)
Lemma taken_until_deleted s rs : ∀ c j m,
  is_Some (objects (cl_store c) !! snap_path prefix s) → answered s rs (serve_all rs c).1 (Ok Committed) j m →
  ∃ k, (k < j)%nat ∧ rs !! k = Some (Delete (snap_path prefix s)).
Proof.
  induction rs as [|r rs IH]; intros c j m Ho (w & Hj & Hs & Ha); [done|]. rewrite serve_all_cons in Ha.
  destruct j as [|j]; cbn in Hj, Ha.
  - injection Hj as ->. injection Ha as Ha. subst s. destruct (serve_wins w m c Ha) as [Hn _]. rewrite Hn in Ho. by apply is_Some_None in Ho.
  - assert (r = Delete (snap_path prefix s) ∨ r ≠ Delete (snap_path prefix s)) as [->|Hr].
    { destruct r as [| | |p]; try (by right). destruct (decide (p = snap_path prefix s)) as [->|]; [by left|right; congruence]. }
    + exists 0%nat. split; [lia|done].
    + destruct (IH (serve r c).2 j m) as (k & Hk & Hd); [by apply serve_present|by exists w|]. exists (S k). split; [lia|done].
Qed.

(** Between two winners there is a delete. *)
Lemma winners_apart s rs : ∀ c i j m m', (i < j)%nat →
  answered s rs (serve_all rs c).1 (Ok Committed) i m → answered s rs (serve_all rs c).1 (Ok Committed) j m' →
  ∃ k, (i < k < j)%nat ∧ rs !! k = Some (Delete (snap_path prefix s)).
Proof.
  induction rs as [|r rs IH]; intros c i j m m' Hij (w & Hi & Hs & Ha) (w' & Hj & Hs' & Ha'); [done|].
  rewrite serve_all_cons in Ha, Ha'. destruct j as [|j]; [lia|]. cbn in Hj, Ha'. destruct i as [|i]; cbn in Hi, Ha.
  - injection Hi as ->. injection Ha as Ha. destruct (serve_wins w m c Ha) as [_ Ho]. rewrite Hs in Ho.
    apply fmap_Some in Ho as (o & Ho & _). destruct (taken_until_deleted s rs _ j m' (mk_is_Some _ _ Ho)) as (k & Hk & Hd); [by exists w'|].
    exists (S k). split; [lia|done].
  - destruct (IH (serve r c).2 i j m m') as (k & Hk & Hd); [lia|by exists w|by exists w'|]. exists (S k). split; [lia|done].
Qed.

(** The winner's metadata stays while it is left alone. *)
Lemma winner_kept s rs : ∀ c i m,
  Forall (leaves s) (drop (S i) rs) → answered s rs (serve_all rs c).1 (Ok Committed) i m →
  o_data <$> objects (cl_store (serve_all rs c).2) !! snap_path prefix s = Some (to_json m).
Proof.
  induction rs as [|r rs IH]; intros c i m Hl (w & Hi & Hs & Ha); [done|]. rewrite serve_all_cons in Ha |- *. cbn [snd].
  destruct i as [|i]; cbn in Hi, Ha.
  - injection Hi as ->. injection Ha as Ha. destruct (serve_wins w m c Ha) as [_ Ho]. rewrite Hs in Ho.
    apply fmap_Some in Ho as (o & Ho & Hd). rewrite (proj1 (serve_all_keeps s rs _ o Hl Ho)). cbn. by rewrite Hd.
  - apply (IH _ i); [done|by exists w].
Qed.

Lemma catalog_get_reply s v :
  (catalog_get from_json prefix s v).1 =
  match (os_get (snap_path prefix s) (cv_store v)).1 with
  | Ok b => parse_snapshot from_json b
  | Err _ => Err (MissingSnapshot s)
  end.
Proof.
  unfold catalog_get. rewrite bind_unfold. unfold on_store, attempt, zoom.
  by destruct (os_get _ _) as [[]].
Qed.

(** A create leaves the other paths alone. *)
Lemma create_other p b st q : q ≠ p → objects (os_create p b st).2 !! q = objects st !! q.
Proof.
  intros Hq. destruct (os_create p b st).1 as [[]|e] eqn:Hc.
  - apply create_ok in Hc as [_ Hs]. by eapply stored_other.
  - apply create_failed in Hc as [->|[_ Hs]]; [done|]. by eapply stored_other.
Qed.

(** A request has a [u64] for its sequence. *)
Definition typed (r : request) : Prop := match r with Commit _ m => sm_sequence m < u64_limit | _ => True end.

Lemma serve_absent s r c :
  s < u64_limit → typed r → leaves s r → (∀ w m, r = Commit w m → sm_sequence m ≠ s) →
  objects (cl_store c) !! snap_path prefix s = None → objects (cl_store (serve r c).2) !! snap_path prefix s = None.
Proof.
  intros Hs Ht Hl Hr Ho. destruct r as [w m|w|p b|p]; cbn [leaves typed] in *.
  - rewrite serve_commit. cbn [snd put_view cl_store]. rewrite commit_store, create_other; [done|].
    intros E%snap_path_inj; [|done|done]. by apply (Hr w m).
  - cbn [serve]. pose proof (latest_objects (view_of c w)) as E.
    destruct (latest from_json prefix (view_of c w)). cbn in *. by rewrite E.
  - cbn. by rewrite put_other.
  - cbn. by rewrite delete_other.
Qed.

(** On a reliable store the answer to a commit says what was there. *)
Lemma serve_reply `{!ReliableStore St} w m c :
  (serve (Commit w m) c).1 =
  Some (Ok (if decide (objects (cl_store c) !! snap_path prefix (sm_sequence m) = None) then Committed else Conflict)).
Proof.
  rewrite serve_commit. cbn [fst]. rewrite commit_reply. cbn [view_of cv_store].
  destruct (create_reliable (snap_path prefix (sm_sequence m)) (to_json m) (cl_store c)) as [E|E]; rewrite E.
  - apply create_ok in E as [Hn _]. by rewrite decide_True.
  - apply create_exists in E as [[o Ho] _]. rewrite decide_False; [done|]. by rewrite Ho.
Qed.

Lemma serve_all_taken `{!ReliableStore St} s rs : ∀ c o i w m,
  Forall (leaves s) rs → objects (cl_store c) !! snap_path prefix s = Some o →
  rs !! i = Some (Commit w m) → sm_sequence m = s → answered s rs (serve_all rs c).1 (Ok Conflict) i m.
Proof.
  induction rs as [|r rs IH]; intros c o i w m Hl Ho Hi Hs; [done|]. apply Forall_cons in Hl as [Hr Hl].
  rewrite serve_all_cons. destruct i as [|i].
  - injection Hi as ->. exists w. split; [done|]. split; [done|]. cbn [lookup list_lookup fst]. f_equal.
    rewrite serve_reply, Hs. rewrite decide_False; [done|]. by rewrite Ho.
  - destruct (IH (serve r c).2 o i w m Hl (serve_keeps s r c o Hr Ho) Hi Hs) as (w' & Hw). by exists w'.
Qed.

Lemma serve_all_some_winner `{!ReliableStore St} s rs : ∀ c i w m,
  s < u64_limit → Forall typed rs → Forall (leaves s) rs → objects (cl_store c) !! snap_path prefix s = None →
  rs !! i = Some (Commit w m) → sm_sequence m = s →
  ∃ j m', answered s rs (serve_all rs c).1 (Ok Committed) j m' ∧
    ∀ k w' m'', k ≠ j → rs !! k = Some (Commit w' m'') → sm_sequence m'' = s →
      answered s rs (serve_all rs c).1 (Ok Conflict) k m''.
Proof.
  induction rs as [|r rs IH]; intros c i w m Hs Ht Hl Ho Hi Hm; [done|].
  apply Forall_cons in Hl as [Hr Hl]. apply Forall_cons in Ht as [Htr Ht]. rewrite serve_all_cons.
  assert ((∃ w0 m0, r = Commit w0 m0 ∧ sm_sequence m0 = s) ∨ (∀ w0 m0, r = Commit w0 m0 → sm_sequence m0 ≠ s)) as [Hc|Hc].
  { destruct r as [w0 m0|?|??|?]; [|right; naive_solver..].
    destruct (decide (sm_sequence m0 = s)); [left; eauto|right; naive_solver]. }
  - destruct Hc as (w0 & m0 & -> & Hm0).
    assert ((serve (Commit w0 m0) c).1 = Some (Ok Committed)) as Hw by (by rewrite serve_reply, decide_True; [|rewrite Hm0]).
    destruct (serve_wins w0 m0 c Hw) as [_ Hd]. rewrite Hm0 in Hd. apply fmap_Some in Hd as (o & Hd & _).
    exists 0%nat, m0. split; [exists w0; split; [done|]; split; [done|]; by rewrite <- Hw|].
    intros [|k] w' m'' Hk Hkr Hks; [done|].
    destruct (serve_all_taken s rs _ o k w' m'' Hl Hd Hkr Hks) as (w1 & Hw1). by exists w1.
  - destruct i as [|i]; [injection Hi as ->; by destruct (Hc w m)|].
    destruct (IH (serve r c).2 i w m Hs Ht Hl) as (j & m' & (w' & Hj) & Hrest); [by apply serve_absent|done|done|].
    exists (S j), m'. split; [by exists w'|]. intros [|k] w1 m1 Hk Hkr Hks; [injection Hkr as ->; by destruct (Hc w1 m1)|].
    destruct (Hrest k w1 m1) as (w2 & Hw2); [lia|done|done|]. by exists w2.
Qed.
End race.

(** C13. However many workers race for a sequence, whatever the interleaving with reads,
    writes and deletes and whichever requests fail without an answer, two of their commits
    are answered [Committed] only if the metadata of that sequence was deleted between
    them, as retention does once it has expired; so while it is not, at most one is. And as
    long as nobody writes over or deletes it after the commit, every reader that gets a
    snapshot at that sequence gets the winner's, whole. *)
Theorem commit_at_most_one {St} `{!ObjectStore St, !ObjectStoreLaws St} to_json from_json prefix s rs (c : Cluster) i m
    (json_roundtrip : ∀ m', from_json (to_json m') = Some m') :
  answered s rs (serve_all to_json from_json prefix rs c).1 (Ok Committed) i m →
  (∀ j m', answered s rs (serve_all to_json from_json prefix rs c).1 (Ok Committed) j m' → j ≠ i →
    ∃ k, (Nat.min i j < k < Nat.max i j)%nat ∧ rs !! k = Some (Delete (snap_path prefix s))) ∧
  (Forall (leaves prefix s) (drop (S i) rs) →
    ∀ w, let r := (catalog_get from_json prefix s (view_of (serve_all to_json from_json prefix rs c).2 w)).1 in
      r = Ok m ∨ r = Err (MissingSnapshot s)).
Proof.
  intros Ha. split.
  - intros j m' Ha' Hj. destruct (decide (i < j)%nat) as [Hlt|Hge].
    + rewrite Nat.min_l, Nat.max_r by lia. by eapply winners_apart.
    + rewrite Nat.min_r, Nat.max_l by lia. eapply winners_apart; [|exact Ha'|exact Ha]. lia.
  - intros Hl w r. pose proof (winner_kept to_json from_json prefix s rs c i m Hl Ha) as Ho. unfold r. rewrite catalog_get_reply.
    cbn [view_of cv_store]. destruct (os_get _ _).1 as [b|e] eqn:Hg; [left|by right]. apply get_ok in Hg. rewrite Hg in Ho.
    injection Ho as ->. unfold parse_snapshot. by rewrite json_roundtrip.
Qed.

(** On a store whose requests are answered, a sequence nobody has committed is taken
    as soon as somebody tries: one of the commits is answered [Committed] and every
    other one [Conflict], so a loser always knows it has lost. *)
Theorem commit_some_winner {St} `{!ObjectStore St, !ObjectStoreLaws St, !ReliableStore St}
    to_json from_json prefix s rs (c : Cluster) i w m :
  s < u64_limit → Forall typed rs → Forall (leaves prefix s) rs →
  objects (cl_store c) !! snap_path prefix s = None → rs !! i = Some (Commit w m) → sm_sequence m = s →
  ∃ j m', answered s rs (serve_all to_json from_json prefix rs c).1 (Ok Committed) j m' ∧
    ∀ k w' m'', k ≠ j → rs !! k = Some (Commit w' m'') → sm_sequence m'' = s →
      answered s rs (serve_all to_json from_json prefix rs c).1 (Ok Conflict) k m''.
Proof. intros. by eapply serve_all_some_winner. Qed.

(** Two workers race for sequence 1, with a run object written in between. *)
Definition demo_race : list request :=
  [Observe 0; Put ["t"; "puffin"; "a"] [1; 2]; Commit 1 (demo_snapshot 1 [demo_meta 0 1 1]);
   Observe 2; Commit 0 (demo_snapshot 1 [demo_meta 1 1 1])].

Definition demo_cluster : Cluster := mkCluster (mkMemory ∅ 7) ∅.

Lemma demo_race_leaves : Forall (leaves ["t"] 1) demo_race.
Proof. repeat constructor; by vm_compute. Qed.

(** The same, and then the snapshot expires, is deleted, and its sequence taken again. *)
Definition demo_expiry : list request := demo_race ++ [Delete (snap_path ["t"] 1); Commit 0 (demo_snapshot 1 [demo_meta 1 1 1])].

Lemma commit_at_most_one_witness :
  let out := serve_all demo_snap_to_json demo_snap_from_json ["t"] demo_race demo_cluster in
  let out' := serve_all demo_snap_to_json demo_snap_from_json ["t"] demo_expiry demo_cluster in
  answered 1 demo_race out.1 (Ok Committed) 2 (demo_snapshot 1 [demo_meta 0 1 1]) ∧
  (∀ w, let r := (catalog_get demo_snap_from_json ["t"] 1 (view_of out.2 w)).1 in
    r = Ok (demo_snapshot 1 [demo_meta 0 1 1]) ∨ r = Err (MissingSnapshot 1)) ∧
  answered 1 demo_expiry out'.1 (Ok Committed) 6 (demo_snapshot 1 [demo_meta 1 1 1]) ∧
  ∃ k, (2 < k < 6)%nat ∧ demo_expiry !! k = Some (Delete (snap_path ["t"] 1)).
Proof.
  intros out out'.
  assert (answered 1 demo_race out.1 (Ok Committed) 2 (demo_snapshot 1 [demo_meta 0 1 1])) as Ha.
  { exists 1%nat. split; [done|]. split; [done|]. by vm_compute. }
  assert (answered 1 demo_expiry out'.1 (Ok Committed) 2 (demo_snapshot 1 [demo_meta 0 1 1])) as Hb.
  { exists 1%nat. split; [done|]. split; [done|]. by vm_compute. }
  assert (answered 1 demo_expiry out'.1 (Ok Committed) 6 (demo_snapshot 1 [demo_meta 1 1 1])) as Hc.
  { exists 0%nat. split; [done|]. split; [done|]. by vm_compute. }
  split; [exact Ha|]. split; [|split; [exact Hc|]].
  - apply (commit_at_most_one demo_snap_to_json demo_snap_from_json ["t"] 1 demo_race demo_cluster 2 _ demo_snap_roundtrip Ha).
    apply (Forall_drop _ 3), demo_race_leaves.
  - by apply (commit_at_most_one demo_snap_to_json demo_snap_from_json ["t"] 1 demo_expiry demo_cluster 2 _ demo_snap_roundtrip Hb) in Hc.
Defined.

Lemma commit_some_winner_witness :
  let out := serve_all demo_snap_to_json demo_snap_from_json ["t"] demo_race demo_cluster in
  ∃ j m', answered 1 demo_race out.1 (Ok Committed) j m' ∧
    ∀ k w' m'', k ≠ j → demo_race !! k = Some (Commit w' m'') → sm_sequence m'' = 1 →
      answered 1 demo_race out.1 (Ok Conflict) k m''.
Proof.
  apply (commit_some_winner demo_snap_to_json demo_snap_from_json ["t"] 1 demo_race demo_cluster 2 1
           (demo_snapshot 1 [demo_meta 0 1 1])); [done| |exact demo_race_leaves|by vm_compute|done|done].
  repeat constructor; by vm_compute.
Defined.
