(* ===== verification/CatalogLatest.v ===== *)
(** [SnapshotCatalog::latest]: it ends on every store, and on a catalog without holes it
    finds the newest snapshot, from a cold view as from a warm one. *)

From S2P Require Import Prelude Bytes Stream Decimal ObjectStore Catalog CatalogInv CatalogProps.

Section latest.
Context {St : Type} `{!ObjectStore St, !ObjectStoreLaws St}.
Context (from_json : bytes → option SnapshotMeta) (prefix : Path).

Abbreviation present v s := (is_Some (objects (cv_store v) !! snap_path prefix s)).

Lemma exists_seq_true s v v' : exists_seq prefix s v = (Ok true, v') → present v s.
Proof.
  unfold exists_seq. rewrite bind_unfold. unfold on_store, attempt, zoom.
  destruct (os_head (snap_path prefix s) (cv_store v)) as [r st] eqn:Hh. intros Hr.
  destruct r as [m|[]]; try by inversion Hr.
  pose proof (head_ok (snap_path prefix s) (cv_store v) m) as Ho. rewrite Hh in Ho.
  specialize (Ho eq_refl). apply fmap_Some in Ho as (o & -> & _). by eexists.
Qed.

(** Running out of fuel means every probe found its object. *)
Lemma probe_forward_out fuel : ∀ s v,
  s < u64_limit → (probe_forward prefix fuel s v).1 = Err OutOfFuel →
  ∀ i, (i < fuel)%nat → present v (s ⊞ N.of_nat (S i)).
Proof.
  induction fuel as [|fuel IH]; intros s v Hs Hout i Hi; [lia|]. cbn [probe_forward] in Hout.
  rewrite bind_unfold in Hout. destruct (exists_seq prefix (s ⊞ 1) v) as [[found|e] v'] eqn:He.
  - pose proof (exists_seq_objects prefix (s ⊞ 1) v) as [Ho _]. rewrite He in Ho. cbn in Ho.
    destruct found; [|done]. destruct i as [|i]; [by eapply exists_seq_true|].
    specialize (IH (s ⊞ 1) v' (wrap64_lt _) Hout i ltac:(lia)). rewrite Ho in IH.
    replace (s ⊞ N.of_nat (S (S i))) with ((s ⊞ 1) ⊞ N.of_nat (S i)); [done|].
    unfold wadd64, wrap64. rewrite N.Div0.add_mod_idemp_l. f_equal. lia.
  - exfalso. cbn in Hout. injection Hout as ->. clear IH. unfold exists_seq in He. rewrite bind_unfold in He.
    unfold on_store, attempt, zoom in He. destruct (os_head _ _) as [[m|[]] st]; inversion He.
Qed.

Lemma wadd64_inj s a b : s < u64_limit → a < u64_limit → b < u64_limit → s ⊞ a = s ⊞ b → a = b.
Proof.
  intros Hs Ha Hb E. rewrite <- (wsub64_wadd64 s a), <- (wsub64_wadd64 s b) by done. by rewrite E.
Qed.

(** So there is always fuel left: the objects the probes find are all different. *)
Lemma probe_forward_total s v :
  s < u64_limit → (N.of_nat (size (objects (cv_store v))) < u64_limit - 1) →
  (probe_forward prefix (probe_fuel v) s v).1 ≠ Err OutOfFuel.
Proof.
  intros Hs Hsize Hout. pose proof (probe_forward_out _ s v Hs Hout) as Hp. unfold probe_fuel in Hp.
  set (n := S (size (objects (cv_store v)))) in *.
  set (found := (fun i => snap_path prefix (s ⊞ N.of_nat (S i))) <$> seq 0 n).
  assert (NoDup found) as Hnd.
  { apply NoDup_fmap_2_strong; [|apply NoDup_seq]. intros i j Hi%elem_of_seq Hj%elem_of_seq E.
    apply snap_path_inj in E; [|apply wrap64_lt..]. apply wadd64_inj in E; lia. }
  assert (list_to_set found ⊆ dom (objects (cv_store v))) as Hsub.
  { intros p. rewrite elem_of_list_to_set. intros (i & -> & Hi%elem_of_seq)%list_elem_of_fmap.
    apply elem_of_dom, Hp. lia. }
  apply subseteq_size in Hsub. rewrite size_list_to_set, size_dom in Hsub by done. unfold found in Hsub.
  rewrite length_fmap, length_seq in Hsub. lia.
Qed.

(** ** Listing *)

Lemma parse_digits_lt limit s : ∀ acc n, acc < limit → parse_digits limit s acc = Some n → n < limit.
Proof.
  induction s as [|c s IH]; intros acc n Ha Hp; cbn [parse_digits] in Hp; [by simplify_eq|].
  destruct (_ && _); [|done]. bool_cases; [by eapply IH|done].
Qed.

Lemma parse_u64_lt s n : parse_u64 s = Some n → n < u64_limit.
Proof.
  unfold parse_u64, parse_uint. destruct s as [|c s]; [done|]. intros Hp.
  destruct (_ =? 43); [destruct s as [|c' s]; [done|]|]; by eapply parse_digits_lt in Hp.
Qed.

Lemma name_sequence_lt s n : name_sequence s = Some n → n < u64_limit.
Proof.
  unfold name_sequence. destruct (strip_prefix _ _) as [r|]; [|done]. cbn [mbind option_bind].
  destruct (strip_suffix _ _) as [d|]; [|done]. cbn [mbind option_bind]. apply parse_u64_lt.
Qed.

Lemma newest_named_acc l : ∀ acc,
  (∀ m s, m ∈ l → last (location m) ≫= name_sequence = Some s → s <= foldl (fun newest m =>
    match last (location m) ≫= name_sequence with Some seq => N.max newest seq | None => newest end) acc l) ∧
  ∀ n, acc <= n → (∀ m s, m ∈ l → last (location m) ≫= name_sequence = Some s → s <= n) →
    acc <= foldl (fun newest m =>
      match last (location m) ≫= name_sequence with Some seq => N.max newest seq | None => newest end) acc l <= n.
Proof.
  induction l as [|x l IH]; intros acc; cbn [foldl].
  { split; [by intros m s Hm%elem_of_nil|]. intros n Hn _. lia. }
  set (acc' := match last (location x) ≫= name_sequence with Some seq => N.max acc seq | None => acc end).
  assert (acc <= acc') by (unfold acc'; destruct (_ ≫= name_sequence); lia). destruct (IH acc') as [IH1 IH2]. split.
  - intros m s [->|Hm]%elem_of_cons Hs; [|by eapply IH1].
    assert (s <= acc') by (unfold acc'; rewrite Hs; lia).
    destruct (IH2 (N.max acc' (foldl (fun newest m => match last (location m) ≫= name_sequence with
      | Some seq => N.max newest seq | None => newest end) acc' l))) as [Hle _]; [lia| |lia].
    intros m' s' Hm' Hs'. specialize (IH1 m' s' Hm' Hs'). lia.
  - intros n Hn Hall. destruct (IH2 n) as [HH1 HH2].
    + unfold acc'. destruct (last (location x) ≫= name_sequence) as [s|] eqn:E; [|done].
      assert (s <= n) by (eapply Hall; [by left|done]). lia.
    + intros m s Hm. apply Hall. by right.
    + lia.
Qed.

(** ** The newest snapshot *)

(** The snapshots of a catalog without holes: [lo..=n], each holding its metadata, and
    nothing newer. *)
Record dense (v : CatalogView St) (lo n : N) (meta : N → SnapshotMeta) : Prop := {
  ds_range : 1 <= lo /\ lo <= n /\ n + 1 < u64_limit;
  ds_size : N.of_nat (size (objects (cv_store v))) < u64_limit - 1;
  ds_present s : lo <= s <= n →
    ∃ o, objects (cv_store v) !! snap_path prefix s = Some o ∧ from_json (o_data o) = Some (meta s);
  ds_newest p o s : objects (cv_store v) !! p = Some o → metadata_dir prefix `prefix_of` p →
    last p ≫= name_sequence = Some s → s <= n;
}.

Context `{!ReliableStore St}.

Lemma exists_seq_exact s v :
  ∃ v', exists_seq prefix s v = (Ok (bool_decide (present v s)), v') ∧
    objects (cv_store v') = objects (cv_store v) ∧ cached_seq v' = cached_seq v.
Proof.
  pose proof (exists_seq_objects prefix s v) as Ho. unfold exists_seq in *. rewrite bind_unfold in *.
  unfold on_store, attempt, zoom in *. pose proof (head_exact (snap_path prefix s) (cv_store v)) as He.
  destruct (os_head (snap_path prefix s) (cv_store v)) as [r st]. cbn in He, Ho |- *. subst r.
  destruct (objects (cv_store v) !! snap_path prefix s) as [o|]; cbn in *; eexists; by split.
Qed.

Lemma dense_next v lo n meta : dense v lo n meta → ¬ present v (n + 1).
Proof.
  intros [(H1 & H2 & H3) _ _ Hn] [o Ho].
  specialize (Hn _ o (n + 1) Ho (proj1 (snap_path_under _ _))). rewrite snap_path_last in Hn by done.
  specialize (Hn eq_refl). lia.
Qed.

(** One more snapshot, and whatever else outside the metadata. *)
Lemma dense_extend v v' first n meta m o :
  dense v first n meta → n + 2 < u64_limit →
  N.of_nat (size (objects (cv_store v'))) < u64_limit - 1 →
  objects (cv_store v') !! snap_path prefix (n + 1) = Some o → from_json (o_data o) = Some m →
  (∀ q, metadata_dir prefix `prefix_of` q → q ≠ snap_path prefix (n + 1) →
    objects (cv_store v') !! q = objects (cv_store v) !! q) →
  dense v' first (n + 1) (fun q => if q =? n + 1 then m else meta q).
Proof.
  intros [(H1 & H2 & H3) Hsz Hpr Hnew] Hn Hsz' Ho Hj Hsame. split; [lia|done| |].
  - intros q Hq. destruct (N.eqb_spec q (n + 1)) as [->|Hne]; [by exists o|].
    destruct (Hpr q) as (o' & Ho' & Hj'); [lia|]. exists o'. split; [|done]. rewrite Hsame; [done|apply snap_path_under|].
    intros E%snap_path_inj; lia.
  - intros p o' q Hp Hpre Hq. destruct (decide (p = snap_path prefix (n + 1))) as [->|Hne].
    + rewrite snap_path_last in Hq by lia. injection Hq as <-. lia.
    + rewrite Hsame in Hp by done. specialize (Hnew p o' q Hp Hpre Hq). lia.
Qed.

(** Requests may fail: from a view at the newest, [latest] finds it or gives an error. *)
Lemma latest_flaky v lo n meta :
  dense v lo n meta → cached_seq v = n →
  ∃ r v', latest from_json prefix v = (r, v') ∧ (r = Ok (Some (meta n)) ∨ ∃ e, r = Err e) ∧
    cached_seq v' = n ∧ objects (cv_store v') = objects (cv_store v).
Proof using ObjectStoreLaws0.
  intros Hd Hc. destruct (ds_range _ _ _ _ Hd) as (H1 & H2 & H3). pose proof (dense_next _ _ _ _ Hd) as Hnext.
  unfold latest. rewrite bind_unfold. cbn [gets]. rewrite Hc. destruct (N.eqb_spec n 0); [lia|]. cbn [andb].
  rewrite (bind_ok _ _ _ n v) by done. rewrite bind_unfold. cbn [gets probe_fuel probe_forward]. rewrite bind_unfold.
  assert ((x ← exists_seq prefix (n ⊞ 1); if (x : bool) then probe_forward prefix (size (objects (cv_store v))) (n ⊞ 1) else mret n) v =
    match (exists_seq prefix (n ⊞ 1) v).1 with Ok _ => (Ok n, (exists_seq prefix (n ⊞ 1) v).2)
      | Err e => (Err e, (exists_seq prefix (n ⊞ 1) v).2) end) as E.
  { rewrite bind_unfold, wadd64_small by lia. destruct (exists_seq prefix (n + 1) v) as [[[]|e] v'] eqn:E; [|done|done].
    exfalso. by apply Hnext, (exists_seq_true (n + 1) v v'). }
  rewrite E. clear E. destruct (exists_seq_objects prefix (n ⊞ 1) v) as [Ho1 Hc1].
  destruct (exists_seq prefix (n ⊞ 1) v) as [[x|e] v1]; cbn [fst snd] in *.
  2: { eexists _, v1. split; [done|]. split; [right; by eexists|]. split; [congruence|done]. }
  rewrite bind_unfold. cbn [modify]. rewrite bind_unfold.
  destruct (on_store_objects (os_get (snap_path prefix n)) (observe n v1)) as (r & v' & -> & Hr & Ho2 & Hc2); [intros; apply get_same|].
  cbn [observe cv_store cached_seq] in Hr, Ho2, Hc2.
  assert (cached_seq v' = n ∧ objects (cv_store v') = objects (cv_store v)) as Hend by (split; [rewrite Hc2, Hc1, Hc; lia|congruence]).
  destruct r as [b|e]; [|eexists _, v'; split; [done|]; split; [right; by eexists|done]].
  symmetry in Hr. apply get_ok in Hr. rewrite Ho1 in Hr. destruct (ds_present _ _ _ _ Hd n) as (o & Hoo & Hj); [lia|].
  rewrite Hoo in Hr. injection Hr as <-. rewrite bind_unfold. cbn [or_store lift]. rewrite bind_unfold. unfold parse_snapshot. rewrite Hj.
  eexists _, v'. split; [done|]. split; [by left|done].
Qed.

Lemma probe_dense lo n meta fuel : ∀ s v,
  dense v lo n meta → lo <= s <= n →
  (probe_forward prefix fuel s v).1 = Ok n ∨ (probe_forward prefix fuel s v).1 = Err OutOfFuel.
Proof.
  induction fuel as [|fuel IH]; intros s v Hd Hs; cbn [probe_forward]; [by right|]. rewrite bind_unfold.
  destruct (exists_seq_exact (s ⊞ 1) v) as (v' & -> & Ho & _). destruct (ds_range _ _ _ _ Hd) as (H1 & H2 & H3).
  rewrite wadd64_small by lia. case_bool_decide as Hp.
  - assert (s ≠ n) by (intros ->; by apply (dense_next v lo n meta)).
    apply IH; [|lia]. destruct Hd as [? ? ? ?]. split; rewrite ?Ho; try done.
  - left. cbn. f_equal. destruct (decide (s = n)); [done|]. exfalso. apply Hp.
    destruct (ds_present _ _ _ _ Hd (s + 1)) as (o & Hoo & _); [lia|]. by eexists.
Qed.

Lemma dense_scan v lo n meta :
  dense v lo n meta → ∃ v', scan_latest_seq prefix v = (Ok n, v') ∧ objects (cv_store v') = objects (cv_store v) ∧
    cached_seq v' = cached_seq v.
Proof.
  intros Hd. pose proof (scan_objects prefix v) as Ho. unfold scan_latest_seq in *. rewrite bind_unfold in *.
  unfold on_store, attempt, zoom in *. destruct (list_reliable (metadata_dir prefix) (cv_store v)) as [l Hl].
  pose proof (list_ok _ _ _ Hl) as Hm. destruct (os_list _ _) as [r st]. cbn in Hl. subst r.
  exists (mkView st (cached_seq v)). split; [|exact Ho].
  change ((Ok (newest_named l), mkView st (cached_seq v)) = (@Ok catalog_error N n, mkView st (cached_seq v))).
  do 2 f_equal. unfold newest_named. destruct (newest_named_acc l 0) as [Hge Hle].
  destruct (ds_range _ _ _ _ Hd) as (H1 & H2 & H3).
  apply N.le_antisymm.
  - apply (Hle n); [lia|]. intros m s (p & o & Hp & -> & Hpre & _)%Hm Hs. cbn in Hs.
    by eapply (ds_newest _ _ _ _ Hd).
  - destruct (ds_present _ _ _ _ Hd n) as (o & Hoo & _); [lia|].
    apply (Hge (meta_of (snap_path prefix n) o)); [|cbn; apply snap_path_last; lia].
    apply Hm. exists (snap_path prefix n), o. destruct (snap_path_under prefix n). done.
Qed.

Lemma latest_dense v lo n meta :
  dense v lo n meta → cached_seq v = 0 ∨ lo <= cached_seq v <= n →
  ∃ v', latest from_json prefix v = (Ok (Some (meta n)), v') ∧ cached_seq v' = n ∧
    objects (cv_store v') = objects (cv_store v).
Proof.
  intros Hd Hc. destruct (ds_range _ _ _ _ Hd) as (H1 & H2 & H3).
  assert (∃ s v1, (if cached_seq v =? 0 then scan_latest_seq prefix else mret (cached_seq v)) v = (Ok s, v1) ∧
    lo <= s <= n ∧ objects (cv_store v1) = objects (cv_store v) ∧ cached_seq v1 = cached_seq v) as (s & v1 & Hs & Hsn & Ho & Hc1).
  { destruct (N.eqb_spec (cached_seq v) 0) as [E|E].
    - destruct (dense_scan v lo n meta Hd) as (v1 & -> & Ho & Hc1). exists n, v1. split_and!; [done|lia|lia|done|done].
    - exists (cached_seq v), v. split_and!; try done; lia. }
  assert (dense v1 lo n meta) as Hd1 by (destruct Hd; split; rewrite ?Ho; done).
  unfold latest. rewrite bind_unfold. cbn [gets]. rewrite bind_unfold, Hs.
  destruct (N.eqb_spec s 0); [lia|]. rewrite andb_false_r. rewrite bind_unfold. cbn [gets]. rewrite bind_unfold.
  pose proof (probe_forward_total s v1 ltac:(lia) (ds_size _ _ _ _ Hd1)) as Ht.
  destruct (probe_dense lo n meta (probe_fuel v1) s v1 Hd1 Hsn) as [Hp|]; [|done].
  destruct (probe_forward_objects prefix (probe_fuel v1) s v1) as [Ho2 Hc2].
  destruct (probe_forward prefix (probe_fuel v1) s v1) as [r v2]. cbn in Hp, Ho2, Hc2. subst r.
  rewrite bind_unfold. cbn [modify]. rewrite bind_unfold.
  destruct (on_store_objects (os_get (snap_path prefix n)) (observe n v2)) as (r & v' & -> & Hr & Ho3 & Hc3);
    [intros; apply get_same|].
  cbn [observe cv_store cached_seq] in Hr, Ho3, Hc3. rewrite get_exact, Ho2 in Hr.
  destruct (ds_present _ _ _ _ Hd1 n) as (o & Hoo & Hj); [lia|]. rewrite Hoo in Hr. subst r.
  rewrite bind_unfold. cbn [or_store lift]. rewrite bind_unfold. unfold parse_snapshot. rewrite Hj.
  exists v'. split_and!; [done| |congruence]. rewrite Hc3, Hc2, Hc1. lia.
Qed.
End latest.

(** C32. [latest] makes finitely many requests, whatever the store holds and however its
    requests fail: the probe that goes on has always found an object no earlier probe
    found, even where the sequence wraps around. *)
Theorem latest_terminates {St} `{!ObjectStore St, !ObjectStoreLaws St} from_json prefix (v : CatalogView St) :
  cached_seq v < u64_limit → N.of_nat (size (objects (cv_store v))) < u64_limit - 1 →
  (latest from_json prefix v).1 ≠ Err OutOfFuel.
Proof.
  intros Hc Hsz. unfold latest. rewrite bind_unfold. cbn [gets]. rewrite bind_unfold.
  assert (∀ s v1 r v2, s < u64_limit → objects (cv_store v1) = objects (cv_store v) →
    probe_forward prefix (probe_fuel v1) s v1 = (r, v2) → r ≠ Err OutOfFuel) as Hp.
  { intros s v1 r v2 Hs Ho Hpr E. subst r. apply (probe_forward_total prefix s v1); [done|by rewrite Ho|by rewrite Hpr]. }
  assert (∀ s v1, s < u64_limit → objects (cv_store v1) = objects (cv_store v) →
    (((fuel ← gets probe_fuel; seq ← probe_forward prefix fuel s; _ ← modify (observe seq);
      r ← on_store (os_get (snap_path prefix seq)); b ← lift (or_store r); m ← lift (parse_snapshot from_json b);
      mret (Some m)) : io (CatalogView St) catalog_error (option SnapshotMeta)) v1).1 ≠ Err OutOfFuel) as Htail.
  { intros s v1 Hs Ho. rewrite bind_unfold. cbn [gets]. rewrite bind_unfold.
    destruct (probe_forward _ _ _ _) as [[s'|e] v2] eqn:Hpr; [|intros [= ->]; by eapply Hp in Hpr].
    rewrite bind_unfold. cbn [modify]. rewrite bind_unfold. unfold on_store, attempt, zoom.
    destruct (os_get _ _) as [[b|e] st]; [|done]. rewrite bind_unfold. cbn [or_store lift].
    rewrite bind_unfold. unfold parse_snapshot. by destruct (from_json b). }
  destruct (N.eqb_spec (cached_seq v) 0) as [E|E]; cbn [andb].
  - destruct (scan_objects prefix v) as [Ho _]. destruct (scan_latest_seq prefix v) as [[s|e] v1] eqn:Hs; cbn in Ho.
    + destruct (s =? 0); [done|]. apply Htail; [|done]. revert Hs. unfold scan_latest_seq. rewrite bind_unfold.
      unfold on_store, attempt, zoom. destruct (os_list _ _) as [[l|e] st]; [|by intros [= ]]. intros [= <- <-].
      apply (N.le_lt_trans _ (u64_limit - 1)); [|done]. unfold newest_named. apply (newest_named_acc l 0); [done|].
      intros m s _ Hs. destruct (last (location m)) as [x|]; [|done]. apply name_sequence_lt in Hs. lia.
    + intros [= ->]. revert Hs. unfold scan_latest_seq. rewrite bind_unfold. unfold on_store, attempt, zoom.
      by destruct (os_list _ _) as [[l|e] st].
  - apply Htail; [done|done].
Qed.

(** C23. On a reliable store whose snapshots are [lo..=n] without holes, [latest] returns
    the newest one and remembers it, whether the view is cold, warm or behind; nothing
    in the store changes. *)
Theorem latest_finds_newest {St} `{!ObjectStore St, !ObjectStoreLaws St, !ReliableStore St}
    from_json prefix (v : CatalogView St) lo n meta :
  dense from_json prefix v lo n meta → cached_seq v = 0 ∨ lo <= cached_seq v <= n →
  ∃ v', latest from_json prefix v = (Ok (Some (meta n)), v') ∧ cached_seq v' = n ∧
    objects (cv_store v') = objects (cv_store v).
Proof. intros Hd Hc. by apply (latest_dense from_json prefix v lo n meta). Qed.

(** Snapshots 3 to 5, as they are once 1 and 2 have expired. *)
Definition demo_catalog : Memory :=
  mkMemory (list_to_map ((fun s => (snap_path ["t"] s, mkObject (demo_snap_to_json (demo_snapshot s [demo_meta 0 1 s])) 7))
    <$> [3; 4; 5])) 9.

Lemma demo_catalog_dense cached :
  dense demo_snap_from_json ["t"] (mkView demo_catalog cached) 3 5 (fun s => demo_snapshot s [demo_meta 0 1 s]).
Proof.
  split; [by vm_compute|by vm_compute| |].
  - intros s Hs. assert (s = 3 ∨ s = 4 ∨ s = 5) as [->|[->| ->]] by lia; eexists; split;
      try apply demo_snap_roundtrip; by vm_compute.
  - intros p o s Hp _ Hs. unfold demo_catalog in Hp. cbn [cv_store objects memory_store mem_objects] in Hp.
    apply elem_of_list_to_map_2 in Hp. cbn [fmap list_fmap] in Hp.
    repeat (apply elem_of_cons in Hp as [Hp|Hp]; [injection Hp as -> ->; rewrite snap_path_last in Hs by done; simplify_eq; lia|]).
    by apply elem_of_nil in Hp.
Qed.

Lemma latest_finds_newest_witness :
  ∃ v', latest demo_snap_from_json ["t"] (mkView demo_catalog 0) = (Ok (Some (demo_snapshot 5 [demo_meta 0 1 5])), v') ∧
    cached_seq v' = 5 ∧ objects (cv_store v') = objects demo_catalog.
Proof.
  apply (latest_finds_newest demo_snap_from_json ["t"] (mkView demo_catalog 0) 3 5 (fun s => demo_snapshot s [demo_meta 0 1 s]));
    [exact (demo_catalog_dense 0)|by left].
Defined.

Lemma latest_terminates_witness : (latest demo_snap_from_json ["t"] (mkView demo_catalog 4)).1 ≠ Err OutOfFuel.
Proof. apply (latest_terminates demo_snap_from_json ["t"] (mkView demo_catalog 4)); by vm_compute. Defined.

(** A view that has fallen behind what has expired is lost: it probes forward from a
    sequence whose successor is gone, and asks for metadata that is gone too, every time;
    a cold view of the same store finds the newest snapshot. *)
Lemma stale_view_stuck :
  latest demo_snap_from_json ["t"] (mkView demo_catalog 1) = (Err (CatalogStore NotFound), mkView demo_catalog 1) ∧
  is_ok (latest demo_snap_from_json ["t"] (mkView demo_catalog 0)).1 = true.
Proof. split; by vm_compute. Qed.
