(* ===== verification/Retention.v ===== *)
(** Reclaiming what no retained snapshot can reach: [src/storage/retention.rs].

    Times are in milliseconds, as integers: the source subtracts at [i64], and the clock less
    a window or a grace period of less than two hundred million years does not leave it. A sweep that finds a snapshot it cannot read gives up
    without deleting anything. *)

From S2P Require Import Prelude Bytes Stream Decimal ObjectStore Catalog.

Record RetentionPolicy := mkPolicy { keep_snapshots : nat; keep_for : Z; grace : Z }.

(** [RetentionPolicy::default]. *)
Definition policy_default : RetentionPolicy := mkPolicy 10 (24 * 3600 * 1000) (3600 * 1000).

Record Reclaimed := mkReclaimed {
  snapshots_expired : N;
  objects_deleted : N;
  bytes_deleted : N;
  snapshots_kept : N;
  objects_live : N;
  objects_too_young : N;
}.

Definition reclaimed_default : Reclaimed := mkReclaimed 0 0 0 0 0 0.

Section retention.
Context {St : Type} `{ObjectStore St}.
Context (from_json : bytes → option SnapshotMeta) (prefix : Path).

Abbreviation catalog_io := (io (CatalogView St) catalog_error).

(** [list_snapshot_sequences]. *)
Definition list_snapshot_sequences : catalog_io (list N) :=
  r ← on_store (os_list (metadata_dir prefix));
  l ← lift (or_store r);
  mret (sort_N (omap (fun m => last (location m) ≫= name_sequence) l)).

(** The metadata of every sequence, or nothing when one cannot be read. *)
Fixpoint read_metas (all : list N) : catalog_io (option (list SnapshotMeta)) :=
  match all with
  | [] => mret (Some [])
  | sequence :: all =>
      r ← attempt (catalog_get from_json prefix sequence);
      match r with
      | Err _ => mret None
      | Ok m =>
          rest ← read_metas all;
          mret (match rest with Some ms => Some (m :: ms) | None => None end)
      end
  end.

(** The seed: the newest [keep], and whatever was committed inside the window. *)
Definition seed (policy : RetentionPolicy) (now_ms : Z) (all : list N) (metas : list SnapshotMeta) : gset N :=
  let keep := Nat.max (keep_snapshots policy) 1 in
  let cutoff_ms := (now_ms - keep_for policy)%Z in
  list_to_set (take keep (reverse all)) ∪
  list_to_set (omap (fun sm => if bool_decide (cutoff_ms <= committed_at_ms (sm.2))%Z then Some sm.1 else None)
    (zip all metas)).

(** [by_sequence]: the last metadata that carries the sequence. *)
Definition by_sequence (metas : list SnapshotMeta) : gmap N SnapshotMeta :=
  foldl (fun m x => <[sm_sequence x := x]> m) ∅ metas.

Fixpoint range_up (count : nat) (a : N) : list N :=
  match count with O => [] | S count => a :: range_up count (a + 1) end.

(** [a..=b]. *)
Definition inclusive (a b : N) : list N := range_up (N.to_nat (b + 1 - a)) a.

(** The sequences a snapshot needs besides its own. *)
Definition needed (m : SnapshotMeta) : list N :=
  match run_set m with Ok (SequencesOnly a b) => inclusive a b | _ => [] end.

Definition need_one (st : gset N * list N) (q : N) : gset N * list N :=
  if bool_decide (q ∈ st.1) then st else ({[q]} ∪ st.1, q :: st.2).

(** The worklist; its end is popped first. *)
Fixpoint closure (fuel : nat) (by_seq : gmap N SnapshotMeta) (retained : gset N) (queue : list N) : option (gset N) :=
  match queue with
  | [] => Some retained
  | sequence :: queue =>
      match fuel with
      | O => None
      | S fuel =>
          match by_seq !! sequence with
          | None => closure fuel by_seq retained queue
          | Some m =>
              let '(retained, queue) := foldl need_one (retained, queue) (needed m) in
              closure fuel by_seq retained queue
          end
      end
  end.

(** Every sequence that can ever be pushed. *)
Definition universe (metas : list SnapshotMeta) : gset N := list_to_set (metas ≫= needed).

Definition closure_fuel (metas : list SnapshotMeta) (retained : gset N) : nat :=
  size (universe metas ∪ retained).

(** The objects a snapshot names. *)
Definition named (m : SnapshotMeta) : list Path :=
  puffin_path m :: (df_path <$> data_files m) ++ (run_path <$> runs m).

Definition live_paths (metas : list SnapshotMeta) (retained : gset N) : gset Path :=
  list_to_set (filter (fun m => sm_sequence m ∈ retained) metas ≫= named).

(** One prefix of the sweep: what to delete, and how many were too young. *)
Definition doomed (live : gset Path) (grace_ms : Z) (l : list ObjectMeta) : list ObjectMeta :=
  filter (fun m => location m ∉ live ∧ (last_modified m <= grace_ms)%Z) l.

Definition young (live : gset Path) (grace_ms : Z) (l : list ObjectMeta) : list ObjectMeta :=
  filter (fun m => location m ∉ live ∧ (grace_ms < last_modified m)%Z) l.

Definition add_deleted (m : ObjectMeta) (out : Reclaimed) : Reclaimed :=
  mkReclaimed (snapshots_expired out) (objects_deleted out + 1) (bytes_deleted out + N.of_nat (size_bytes m))
    (snapshots_kept out) (objects_live out) (objects_too_young out).

Definition add_young (n : N) (out : Reclaimed) : Reclaimed :=
  mkReclaimed (snapshots_expired out) (objects_deleted out) (bytes_deleted out)
    (snapshots_kept out) (objects_live out) (objects_too_young out + n).

Definition add_expired (out : Reclaimed) : Reclaimed :=
  mkReclaimed (snapshots_expired out + 1) (objects_deleted out) (bytes_deleted out)
    (snapshots_kept out) (objects_live out) (objects_too_young out).

Fixpoint delete_all (l : list ObjectMeta) (out : Reclaimed) : catalog_io Reclaimed :=
  match l with
  | [] => mret out
  | m :: l =>
      r ← on_store (os_delete (location m));
      delete_all l (match r with Ok _ => add_deleted m out | Err _ => out end)
  end.

Definition sweep (live : gset Path) (grace_ms : Z) (sub : string) (out : Reclaimed) : catalog_io Reclaimed :=
  r ← on_store (os_list (prefix ++ [sub]));
  l ← lift (or_store r);
  delete_all (doomed live grace_ms l) (add_young (N.of_nat (length (young live grace_ms l))) out).

(** Expiring the metadata of what is not retained. *)
Fixpoint expire (grace_ms : Z) (l : list N) (out : Reclaimed) : catalog_io Reclaimed :=
  match l with
  | [] => mret out
  | sequence :: l =>
      h ← on_store (os_head (snap_path prefix sequence));
      match h with
      | Err _ => expire grace_ms l out
      | Ok m =>
          if bool_decide (grace_ms < last_modified m)%Z then expire grace_ms l (add_young 1 out) else
          r ← on_store (os_delete (snap_path prefix sequence));
          expire grace_ms l (match r with Ok _ => add_expired out | Err _ => out end)
      end
  end.

(** [collect]. *)
Definition collect (policy : RetentionPolicy) (now_ms : Z) : catalog_io Reclaimed :=
  all ← list_snapshot_sequences;
  if bool_decide (length all = 0%nat) then mret reclaimed_default else
  metas ← read_metas all;
  match metas with
  | None => mret reclaimed_default
  | Some metas =>
      let retained := seed policy now_ms all metas in
      match closure (closure_fuel metas retained) (by_sequence metas) retained (reverse (sort_N (elements retained))) with
      | None => io_fail OutOfFuel
      | Some retained =>
          let live := live_paths metas retained in
          let grace_ms := (now_ms - grace policy)%Z in
          let out := mkReclaimed 0 0 0 (N.of_nat (size retained)) (N.of_nat (size live)) 0 in
          out ← sweep live grace_ms "puffin" out;
          out ← sweep live grace_ms "data" out;
          expire grace_ms (filter (fun s => s ∉ retained) all) out
      end
  end.

(** One turn of the retention loop of [main.rs]: only a leader sweeps, and a sweep that
    fails is left to the next turn. *)
Definition retention_turn (leader : bool) (policy : RetentionPolicy) (now_ms : Z) (v : CatalogView St) : CatalogView St :=
  if leader then (collect policy now_ms v).2 else v.
End retention.
