(* ===== verification/RetentionProps.v ===== *)
(** A sweep deletes only what no retained snapshot can reach and what is older than the
    grace period, whichever requests fail; on a store that answers it deletes all of it. *)

From S2P Require Import Prelude Bytes Stream Decimal ObjectStore Catalog CatalogInv CatalogProps CatalogLatest Retention.

(** ** The closure *)

Lemma elem_of_range_up count : ∀ a q, q ∈ range_up count a ↔ a <= q < a + N.of_nat count.
Proof.
  induction count as [|count IH]; intros a q; cbn [range_up].
  - rewrite elem_of_nil. lia.
  - rewrite elem_of_cons, IH. lia.
Qed.

Lemma elem_of_inclusive a b q : q ∈ inclusive a b ↔ a <= q <= b.
Proof. unfold inclusive. rewrite elem_of_range_up. lia. Qed.

Lemma need_all l : ∀ R Q,
  NoDup Q → list_to_set Q ⊆ R →
  let st := foldl need_one (R, Q) l in
  st.1 = R ∪ list_to_set l ∧ NoDup st.2 ∧ list_to_set st.2 ⊆ st.1 ∧ st.1 ∖ list_to_set st.2 = R ∖ list_to_set Q.
Proof.
  induction l as [|q l IH]; intros R Q Hn Hs; cbn [foldl].
  { cbn. split_and!; [set_solver|done|done|done]. }
  assert (need_one (R, Q) q = if bool_decide (q ∈ R) then (R, Q) else ({[q]} ∪ R, q :: Q)) as -> by done.
  case_bool_decide as Hq.
  - destruct (IH R Q Hn Hs) as (E1 & E2 & E3 & E4). split_and!; [rewrite E1; set_solver|done|done|done].
  - destruct (IH ({[q]} ∪ R) (q :: Q)) as (E1 & E2 & E3 & E4).
    + constructor; [|done]. intros HQ. apply Hq, Hs. by apply elem_of_list_to_set.
    + set_solver.
    + split_and!; [rewrite E1; set_solver|done|done|]. rewrite E4. set_solver.
Qed.

(** Closed under what the snapshots in it need. *)
Definition closed (by_seq : gmap N SnapshotMeta) (P R : gset N) : Prop :=
  ∀ q m n, q ∈ P → by_seq !! q = Some m → n ∈ needed m → n ∈ R.

Lemma closure_ok by_seq (U : gset N) fuel : ∀ R Q,
  NoDup Q → list_to_set Q ⊆ R → R ⊆ U → (∀ q m n, by_seq !! q = Some m → n ∈ needed m → n ∈ U) →
  closed by_seq (R ∖ list_to_set Q) R → (size U <= size (R ∖ list_to_set Q) + fuel)%nat →
  ∃ R', closure fuel by_seq R Q = Some R' ∧ R ⊆ R' ∧ R' ⊆ U ∧ closed by_seq R' R' ∧
    (∀ X : N → Prop, (∀ x, x ∈ R → X x) → (∀ q m n, X q → by_seq !! q = Some m → n ∈ needed m → X n) → ∀ x, x ∈ R' → X x).
Proof.
  induction fuel as [|fuel IH]; intros R Q Hn HQ HU HN Hc Hf; destruct Q as [|q Q]; cbn [closure].
  - exists R. split_and!; try done. intros x m n Hx. apply Hc. set_solver.
  - exfalso. assert (size (R ∖ list_to_set (q :: Q)) < size U)%nat; [|lia]. apply subset_size. split; [set_solver|].
    intros Hsub. specialize (Hsub q). set_solver.
  - exists R. split_and!; try done. intros x m n Hx. apply Hc. set_solver.
  - apply NoDup_cons in Hn as [Hq Hn].
    assert (R ∖ list_to_set Q = {[q]} ∪ R ∖ list_to_set (q :: Q)) as HP.
    { apply leibniz_equiv. intros x. cbn. destruct (decide (x = q)); set_solver. }
    assert (size (R ∖ list_to_set Q) = S (size (R ∖ list_to_set (q :: Q)))) as HS.
    { rewrite HP, size_union by set_solver. by rewrite size_singleton. }
    destruct (by_seq !! q) as [m|] eqn:Em.
    + destruct (need_all (needed m) R Q Hn ltac:(set_solver)) as (E1 & E2 & E3 & E4).
      destruct (foldl need_one (R, Q) (needed m)) as [R1 Q1]. cbn [fst snd] in *.
      destruct (IH R1 Q1) as (R' & Hcl & H1 & H2 & H3 & H4); try done.
      * rewrite E1. intros x [Hx|Hx%elem_of_list_to_set]%elem_of_union; [by apply HU|by eapply HN].
      * rewrite E4, HP. intros x m' n Hx Hm Hnn. rewrite E1. apply elem_of_union in Hx as [->%elem_of_singleton|Hx].
        -- rewrite Em in Hm. injection Hm as <-. apply elem_of_union_r. by apply elem_of_list_to_set.
        -- apply elem_of_union_l. by eapply Hc.
      * rewrite E4, HS. lia.
      * exists R'. split_and!; try done; [set_solver|]. intros X HX HXc. apply H4; [|done]. rewrite E1.
        intros x [Hx|Hx%elem_of_list_to_set]%elem_of_union; [by apply HX|]. eapply HXc; [|exact Em|exact Hx].
        apply HX. set_solver.
    + apply IH; try done; [set_solver| |lia]. rewrite HP. intros x m' n [->%elem_of_singleton|Hx]%elem_of_union Hm Hnn.
      * by rewrite Em in Hm.
      * by eapply Hc.
Qed.

Lemma elem_of_universe metas n : n ∈ universe metas ↔ ∃ m, m ∈ metas ∧ n ∈ needed m.
Proof. unfold universe. rewrite elem_of_list_to_set, list_elem_of_bind. naive_solver. Qed.

Lemma by_sequence_elem metas q m : by_sequence metas !! q = Some m → m ∈ metas ∧ sm_sequence m = q.
Proof.
  unfold by_sequence. induction metas as [|x metas IH] using rev_ind; [cbn; by rewrite lookup_empty|].
  rewrite foldl_snoc. intros [[<- <-]|[_ Hl]]%lookup_insert_Some.
  - split; [|done]. apply elem_of_app. right. by left.
  - destruct (IH Hl) as [Hm Hs]. split; [|done]. apply elem_of_app. by left.
Qed.

(** The closure of a sweep ends, and is the least set that holds the seed and what its
    snapshots need. *)
Lemma sweep_closure metas R :
  ∃ R', closure (closure_fuel metas R) (by_sequence metas) R (reverse (sort_N (elements R))) = Some R' ∧
    R ⊆ R' ∧ closed (by_sequence metas) R' R' ∧
    ∀ X : N → Prop, (∀ x, x ∈ R → X x) → (∀ q m n, X q → by_sequence metas !! q = Some m → n ∈ needed m → X n) →
      ∀ x, x ∈ R' → X x.
Proof.
  assert (list_to_set (reverse (sort_N (elements R))) = R) as HQ.
  { apply leibniz_equiv. intros x. rewrite elem_of_list_to_set, elem_of_reverse, elem_of_sort_N. by rewrite elem_of_elements. }
  destruct (closure_ok (by_sequence metas) (universe metas ∪ R) (closure_fuel metas R) R (reverse (sort_N (elements R))))
    as (R' & H1 & H2 & _ & H4 & H5).
  - rewrite reverse_Permutation. rewrite sort_N_perm. apply NoDup_elements.
  - by rewrite HQ.
  - set_solver.
  - intros q m n Hm Hn. apply elem_of_union_l, elem_of_universe. exists m. split; [|done]. by eapply by_sequence_elem.
  - rewrite HQ. intros q m n Hq. set_solver.
  - unfold closure_fuel. lia.
  - by exists R'.
Qed.

(** ** What a sweep takes away *)

(** [objs'] is [objs] less objects for which [D] holds. *)
Definition taken (D : Path → Object → Prop) (objs objs' : gmap Path Object) : Prop :=
  ∀ p, objs' !! p = objs !! p ∨ (objs' !! p = None ∧ ∃ o, objs !! p = Some o ∧ D p o).

Lemma taken_refl D objs : taken D objs objs.
Proof. intros p. by left. Qed.

Lemma taken_trans D a b c : taken D a b → taken D b c → taken D a c.
Proof.
  intros H1 H2 p. destruct (H2 p) as [->|(-> & o & Ho & Hd)]; [apply H1|].
  right. split; [done|]. exists o. split; [|done]. destruct (H1 p) as [E|(E & _)]; rewrite E in Ho; done.
Qed.

Lemma taken_weaken (D D' : Path → Object → Prop) a b :
  taken D a b → (∀ p o, a !! p = Some o → D p o → D' p o) → taken D' a b.
Proof.
  intros H HD p. destruct (H p) as [E|(E & o & Ho & Hd)]; [by left|right]. split; [done|]. exists o. split; [done|]. by apply HD.
Qed.

Section effects.
Context {St : Type} `{!ObjectStore St, !ObjectStoreLaws St}.
Context (prefix : Path).

Abbreviation objs v := (objects (cv_store v)).

Lemma on_store_run {A} (m : io St store_error A) (v : CatalogView St) :
  on_store m v = (Ok (m (cv_store v)).1, mkView (m (cv_store v)).2 (cached_seq v)).
Proof. unfold on_store, attempt, zoom. by destruct (m (cv_store v)). Qed.

Lemma delete_taken D p st o :
  objects st !! p = Some o → D p o → taken D (objects st) (objects (os_delete p st).2).
Proof.
  intros Ho Hd q. destruct (decide (q = p)) as [->|Hq]; [|left; by apply delete_other].
  assert (objects (os_delete p st).2 = objects st ∨ objects (os_delete p st).2 = delete p (objects st)) as [->| ->].
  { destruct (os_delete p st).1 as [[]|e] eqn:E; [right; by apply delete_ok|by eapply delete_failed]. }
  - by left.
  - right. rewrite lookup_delete_eq. split; [done|]. by exists o.
Qed.

(** Deleting what is gone already takes nothing. *)
Lemma delete_taken' D p st :
  (∀ o, objects st !! p = Some o → D p o) → taken D (objects st) (objects (os_delete p st).2).
Proof.
  intros Hd. destruct (objects st !! p) as [o|] eqn:Ho; [by eapply delete_taken; [|apply Hd]|].
  intros q. left. destruct (decide (q = p)) as [->|Hq]; [|by apply delete_other].
  assert (objects (os_delete p st).2 = objects st ∨ objects (os_delete p st).2 = delete p (objects st)) as [->| ->]; [|done|].
  { destruct (os_delete p st).1 as [[]|e] eqn:E; [right; by apply delete_ok|by eapply delete_failed]. }
  by rewrite lookup_delete_eq, Ho.
Qed.

Lemma delete_all_taken D (l : list ObjectMeta) : ∀ out (v : CatalogView St),
  (∀ m o, m ∈ l → objs v !! location m = Some o → D (location m) o) →
  ∃ out' v', delete_all l out v = (Ok out', v') ∧ taken D (objs v) (objs v') ∧
    (ReliableStore St → ∀ m, m ∈ l → objs v' !! location m = None).
Proof.
  induction l as [|m l IH]; intros out v HD; cbn [delete_all].
  { exists out, v. split; [done|]. split; [apply taken_refl|]. intros _ m Hm. by apply elem_of_nil in Hm. }
  rewrite (bind_ok _ _ _ _ _ (on_store_run (os_delete (location m)) v)).
  set (v1 := mkView (os_delete (location m) (cv_store v)).2 (cached_seq v)).
  assert (taken D (objs v) (objs v1)) as T1 by (apply delete_taken'; intros o Ho; eapply HD; [by left|done]).
  destruct (IH (match (os_delete (location m) (cv_store v)).1 with Ok _ => add_deleted m out | Err _ => out end) v1)
    as (out' & v' & E & T2 & Hg).
  { intros m' o Hm' Ho. eapply HD; [by right|]. destruct (T1 (location m')) as [E|[E _]]; rewrite E in Ho; done. }
  exists out', v'. split; [done|]. split; [by eapply taken_trans|]. intros Hrel m' Hm'.
  apply elem_of_cons in Hm' as [->|Hm']; [|by apply Hg].
  assert (objs v1 !! location m = None) as Hn.
  { pose proof (delete_ok (location m) (cv_store v) (delete_reliable _ _)) as Ed. unfold v1. cbn [cv_store].
    rewrite Ed. apply lookup_delete_eq. }
  destruct (T2 (location m)) as [E2|[E2 _]]; [by rewrite E2|done].
Qed.

(** A listing, read off the objects. *)
Definition listed_under (dir : Path) (o : gmap Path Object) (p : Path) : Prop :=
  is_Some (o !! p) ∧ dir `prefix_of` p ∧ p ≠ dir.

(** Sweeping one directory: the old objects of it that are not live. *)
Definition sweeps (live : gset Path) (grace_ms : Z) (sub : string) (p : Path) (o : Object) : Prop :=
  prefix ++ [sub] `prefix_of` p ∧ p ≠ prefix ++ [sub] ∧ p ∉ live ∧ (o_modified o <= grace_ms)%Z.

Lemma sweep_taken live grace_ms sub out (v : CatalogView St) :
  ∃ r v', sweep prefix live grace_ms sub out v = (r, v') ∧ r ≠ Err OutOfFuel ∧
    taken (sweeps live grace_ms sub) (objs v) (objs v') ∧
    (ReliableStore St → is_ok r = true ∧ ∀ p o, objs v !! p = Some o → sweeps live grace_ms sub p o → objs v' !! p = None).
Proof.
  unfold sweep. rewrite (bind_ok _ _ _ _ _ (on_store_run (os_list (prefix ++ [sub])) v)).
  set (v1 := mkView _ _). assert (objs v1 = objs v) as Hv1 by apply list_same.
  destruct (os_list (prefix ++ [sub]) (cv_store v)).1 as [l|e] eqn:El.
  - pose proof (list_ok _ _ _ El) as Hl. rewrite bind_unfold. cbn [or_store lift].
    destruct (delete_all_taken (sweeps live grace_ms sub) (doomed live grace_ms l)
      (add_young (N.of_nat (length (young live grace_ms l))) out) v1) as (out' & v' & E & T & Hg).
    { intros m o Hm Ho. unfold doomed in Hm. apply list_elem_of_filter in Hm as [[Hnl Hold] Hm].
      apply Hl in Hm as (p & o' & Hp & -> & Hpre & Hne). cbn in *. rewrite Hv1, Hp in Ho. injection Ho as <-. done. }
    exists (Ok out'), v'. split; [done|]. split; [done|]. rewrite Hv1 in T. split; [done|]. intros Hrel. split; [done|].
    intros p o Hp (Hpre & Hne & Hnl & Hold). specialize (Hg Hrel (meta_of p o)). apply Hg. unfold doomed.
    apply list_elem_of_filter. split; [done|]. apply Hl. by exists p, o.
  - exists (Err (CatalogStore e)), v1. split; [done|]. split; [done|]. split; [rewrite Hv1; apply taken_refl|].
    intros Hrel. destruct (list_reliable (prefix ++ [sub]) (cv_store v)) as [l Hl]. by rewrite Hl in El.
Qed.

(** Expiring metadata. *)
Definition expires (grace_ms : Z) (l : list N) (p : Path) (o : Object) : Prop :=
  (∃ s, s ∈ l ∧ p = snap_path prefix s) ∧ (o_modified o <= grace_ms)%Z.

Lemma expire_taken grace_ms l : ∀ out (v : CatalogView St),
  ∃ out' v', expire prefix grace_ms l out v = (Ok out', v') ∧ taken (expires grace_ms l) (objs v) (objs v') ∧
    (ReliableStore St → ∀ p o, objs v !! p = Some o → expires grace_ms l p o → objs v' !! p = None).
Proof.
  induction l as [|s l IH]; intros out v; cbn [expire].
  { exists out, v. split; [done|]. split; [apply taken_refl|]. intros _ p o _ [(s & Hs & _) _]. by apply elem_of_nil in Hs. }
  rewrite (bind_ok _ _ _ _ _ (on_store_run (os_head (snap_path prefix s)) v)).
  set (v1 := mkView _ _). assert (objs v1 = objs v) as Hv1 by apply head_same.
  assert (∀ a b, taken (expires grace_ms l) a b → taken (expires grace_ms (s :: l)) a b) as Hweak.
  { intros a b T. eapply taken_weaken; [exact T|]. intros p o _ [(q & Hq & ->) Hold]. split; [|done]. exists q. split; [by right|done]. }
  assert (∀ out (v2 : CatalogView St), objs v2 = objs v → (ReliableStore St → ∀ o, objs v !! snap_path prefix s = Some o → (grace_ms < o_modified o)%Z) →
    ∃ out' v', expire prefix grace_ms l out v2 = (Ok out', v') ∧ taken (expires grace_ms (s :: l)) (objs v) (objs v') ∧
      (ReliableStore St → ∀ p o, objs v !! p = Some o → expires grace_ms (s :: l) p o → objs v' !! p = None)) as Hskip.
  { intros out2 v2 Hv2 Hy. destruct (IH out2 v2) as (out' & v' & E & T & Hg). rewrite Hv2 in T, Hg.
    exists out', v'. split; [done|]. split; [by apply Hweak|]. intros Hrel p o Hp [(q & Hq & ->) Hold].
    apply elem_of_cons in Hq as [->|Hq]; [specialize (Hy Hrel o Hp); lia|]. eapply Hg; [done|done|]. split; [|done]. by exists q. }
  destruct (os_head (snap_path prefix s) (cv_store v)).1 as [m|e] eqn:Eh.
  - apply head_ok in Eh. apply fmap_Some in Eh as (o & Ho & ->). cbn [last_modified meta_of].
    case_bool_decide as Hy; [apply Hskip; [done|]; intros _ o'; rewrite Ho; by intros [= <-]|].
    rewrite (bind_ok _ _ _ _ _ (on_store_run (os_delete (snap_path prefix s)) v1)).
    set (v2 := mkView _ _).
    assert (taken (expires grace_ms (s :: l)) (objs v) (objs v2)) as T1.
    { rewrite <- Hv1. eapply delete_taken; [by rewrite Hv1|]. split; [|lia]. exists s. split; [by left|done]. }
    destruct (IH (match (os_delete (snap_path prefix s) (cv_store v1)).1 with Ok _ => add_expired out | Err _ => out end) v2)
      as (out' & v' & E & T2 & Hg).
    exists out', v'. split; [done|]. split; [eapply taken_trans; [done|by apply Hweak]|].
    intros Hrel p o' Hp [(q & Hq & ->) Hold].
    assert (objs v2 !! snap_path prefix s = None) as Hn.
    { pose proof (delete_ok (snap_path prefix s) (cv_store v1) (delete_reliable _ _)) as Ed. unfold v2. cbn [cv_store].
      rewrite Ed. apply lookup_delete_eq. }
    destruct (objs v2 !! snap_path prefix q) as [o2|] eqn:E2.
    + apply elem_of_cons in Hq as [->|Hq]; [by rewrite E2 in Hn|]. eapply Hg; [done|exact E2|].
      destruct (T1 (snap_path prefix q)) as [E1|[E1 _]]; rewrite E1 in E2; [|done]. rewrite Hp in E2. injection E2 as <-.
      split; [|done]. by exists q.
    + destruct (T2 (snap_path prefix q)) as [E1|[E1 _]]; [by rewrite E1|done].
  - apply Hskip; [done|]. intros Hrel o Ho. exfalso. pose proof (head_exact (snap_path prefix s) (cv_store v)) as He.
    rewrite Ho in He. rewrite He in Eh. done.
Qed.
End effects.

Lemma Forall2_elem_r {A B} (P : A → B → Prop) l k y :
  Forall2 P l k → (∀ x y y', P x y → P x y' → y = y') → y ∈ k ↔ ∃ x, x ∈ l ∧ P x y.
Proof.
  intros H Hf. induction H as [|x z l k Hxz _ IH].
  - split; [by intros ?%elem_of_nil|]. by intros (x & ?%elem_of_nil & _).
  - rewrite elem_of_cons, IH. split.
    + intros [->|(x' & Hx & Hp)]; [exists x; split; [by left|done]|exists x'; split; [by right|done]].
    + intros (x' & Hx & Hp). apply elem_of_cons in Hx as [->|Hx]; [left; by eapply Hf|right; by exists x'].
Qed.

Lemma Forall2_zip {A B} (P : A → B → Prop) l k x y :
  Forall2 P l k → (∀ x y y', P x y → P x y' → y = y') → (x, y) ∈ zip l k ↔ x ∈ l ∧ P x y.
Proof.
  intros H Hf. induction H as [|a b l k Hab _ IH].
  - split; [by intros ?%elem_of_nil|]. by intros [?%elem_of_nil _].
  - cbn. rewrite !elem_of_cons, IH. split; [naive_solver|]. intros [[->|Hx] Hp]; [left; f_equal; by eapply Hf|by right].
Qed.

(** ** What a sweep keeps *)

(** Where a snapshot sends its readers: its Puffin file, its data files and its runs. *)
Definition mentions (m : SnapshotMeta) (p : Path) : Prop :=
  p = puffin_path m ∨ (∃ f, f ∈ data_files m ∧ p = df_path f) ∨ ∃ r, r ∈ runs m ∧ p = run_path r.

Lemma mentions_paths m p :
  mentions m p ↔ p = puffin_path m ∨ p ∈ df_path <$> data_files m ∨ p ∈ run_path <$> runs m.
Proof. unfold mentions. rewrite !list_elem_of_fmap. firstorder. Qed.

Lemma elem_of_named m p : p ∈ named m ↔ mentions m p.
Proof. rewrite mentions_paths. unfold named. by rewrite elem_of_cons, elem_of_app. Qed.

Section keeps.
Context {St : Type} `{!ObjectStore St, !ObjectStoreLaws St}.
Context (from_json : bytes → option SnapshotMeta) (prefix : Path).

Abbreviation objs v := (objects (cv_store v)).

(** The snapshot stored at a sequence. *)
Definition meta_at (o : gmap Path Object) (s : N) : option SnapshotMeta :=
  x ← o !! snap_path prefix s; from_json (o_data x).

(** Metadata is stored under its own sequence and names no metadata. *)
Record consistent (o : gmap Path Object) : Prop := {
  cs_sequence s m : s < u64_limit → meta_at o s = Some m → sm_sequence m = s;
  cs_named s m p : s < u64_limit → meta_at o s = Some m → mentions m p → ¬ metadata_dir prefix `prefix_of` p;
}.

(** The snapshots a policy keeps, out of those a listing shows: the newest ones, those
    committed inside the window, and whatever a kept one needs to be read. *)
Inductive keeps (policy : RetentionPolicy) (now_ms : Z) (o : gmap Path Object) (all : list N) : N → Prop :=
| keeps_newest s : s ∈ take (Nat.max (keep_snapshots policy) 1) (reverse all) → keeps policy now_ms o all s
| keeps_window s m : s ∈ all → meta_at o s = Some m → (now_ms - keep_for policy <= committed_at_ms m)%Z →
    keeps policy now_ms o all s
| keeps_chain q m s : keeps policy now_ms o all q → q ∈ all → meta_at o q = Some m → s ∈ needed m →
    keeps policy now_ms o all s.

Lemma list_sequences_ok (v : CatalogView St) all v1 :
  list_snapshot_sequences prefix v = (Ok all, v1) →
  objs v1 = objs v ∧ ∀ s, s ∈ all ↔ ∃ p o, objs v !! p = Some o ∧ metadata_dir prefix `prefix_of` p ∧
    p ≠ metadata_dir prefix ∧ last p ≫= name_sequence = Some s.
Proof.
  unfold list_snapshot_sequences. rewrite (bind_ok _ _ _ _ _ (on_store_run (os_list (metadata_dir prefix)) v)).
  pose proof (list_same (metadata_dir prefix) (cv_store v)) as Hs.
  destruct (os_list (metadata_dir prefix) (cv_store v)).1 as [l|e] eqn:El; [|by intros [= ]].
  pose proof (list_ok _ _ _ El) as Hl. rewrite bind_unfold. cbn [or_store lift]. intros [= <- <-]. split; [exact Hs|].
  intros s. rewrite elem_of_sort_N, list_elem_of_omap. split.
  - intros (m & Hm & Hn). apply Hl in Hm as (p & o & Hp & -> & Hpre & Hne). by exists p, o.
  - intros (p & o & Hp & Hpre & Hne & Hn). exists (meta_of p o). split; [|done]. apply Hl. by exists p, o.
Qed.

Lemma read_metas_ok all : ∀ (v : CatalogView St),
  ∃ x v', read_metas from_json prefix all v = (Ok x, v') ∧ objs v' = objs v ∧
    (∀ ms, x = Some ms → Forall2 (fun s m => meta_at (objs v) s = Some m) all ms) ∧
    (ReliableStore St → (∀ s, s ∈ all → is_Some (meta_at (objs v) s)) → is_Some x).
Proof.
  induction all as [|s all IH]; intros v; cbn [read_metas].
  { exists (Some []), v. split_and!; try done. by intros ms [= <-]. }
  rewrite bind_unfold. unfold attempt at 1. pose proof (catalog_get_reply from_json prefix s v) as Hr.
  assert (objs (catalog_get from_json prefix s v).2 = objs v) as Ho.
  { unfold catalog_get. rewrite (bind_ok _ _ _ _ _ (on_store_run (os_get (snap_path prefix s)) v)).
    pose proof (get_same (snap_path prefix s) (cv_store v)). by destruct (os_get _ _).1. }
  destruct (catalog_get from_json prefix s v) as [r v1]. cbn in Hr, Ho.
  destruct r as [m|e].
  - rewrite bind_unfold. destruct (IH v1) as (x & v' & -> & Ho' & Hms & Hrel).
    eexists _, v'. split; [done|]. split; [congruence|]. rewrite Ho in Hms, Hrel. split.
    + destruct x as [ms|]; [|done]. intros ? [= <-]. constructor; [|by apply Hms].
      destruct (os_get (snap_path prefix s) (cv_store v)).1 as [b|] eqn:Eg; [|done]. apply get_ok in Eg.
      unfold parse_snapshot in Hr. destruct (from_json b) eqn:Ej; [|done]. injection Hr as <-.
      unfold meta_at. apply fmap_Some in Eg as (o & -> & ->). done.
    + intros HR Hall. destruct (Hrel HR ltac:(intros q Hq; apply Hall; by right)) as [ms ->]. by eexists.
  - exists None, v1. split_and!; [done|done|done|]. intros HR Hall. exfalso.
    destruct (Hall s ltac:(by left)) as [m Hm]. rewrite get_exact in Hr. unfold meta_at in Hm.
    destruct (objs v !! snap_path prefix s) as [o|]; [|done]. cbn in Hm. unfold parse_snapshot in Hr. by rewrite Hm in Hr.
Qed.

Section run.
Context (policy : RetentionPolicy) (now_ms : Z) (v : CatalogView St) (all : list N) (metas : list SnapshotMeta).
Context (Hcs : consistent (objs v)).
Context (Hms : Forall2 (fun s m => meta_at (objs v) s = Some m) all metas).
Context (Hlt : ∀ s, s ∈ all → s < u64_limit).

Lemma metas_elem m : m ∈ metas ↔ ∃ s, s ∈ all ∧ meta_at (objs v) s = Some m.
Proof using Hms.
  apply (Forall2_elem_r (fun s m => meta_at (objs v) s = Some m)); [exact Hms|]. intros x y y' H1 H2. congruence.
Qed.

Lemma by_sequence_meta q m : q ∈ all → meta_at (objs v) q = Some m → by_sequence metas !! q = Some m.
Proof using Hms Hcs Hlt.
  intros Hq Hm. assert (m ∈ metas) as Hin by (apply metas_elem; eauto). pose proof (cs_sequence _ Hcs q m (Hlt q ltac:(assumption)) Hm) as Hs.
  assert (is_Some (by_sequence metas !! q)) as [m' Hm'].
  { unfold by_sequence. clear -Hin Hs. induction metas as [|x l IH] using rev_ind; [by apply elem_of_nil in Hin|].
    rewrite foldl_snoc. apply elem_of_app in Hin as [Hin|Hin].
    - rewrite lookup_insert. case_decide; [by eexists|by apply IH].
    - apply list_elem_of_singleton in Hin as <-. rewrite <- Hs, lookup_insert_eq. by eexists. }
  rewrite Hm'. f_equal. apply by_sequence_elem in Hm' as [Hin' Hs']. apply metas_elem in Hin' as (q' & Hq' & Hm2).
  pose proof (cs_sequence _ Hcs q' m' (Hlt q' ltac:(assumption)) Hm2). congruence.
Qed.

Lemma elem_of_seed s :
  s ∈ seed policy now_ms all metas ↔
  s ∈ take (Nat.max (keep_snapshots policy) 1) (reverse all) ∨
  ∃ m, s ∈ all ∧ meta_at (objs v) s = Some m ∧ (now_ms - keep_for policy <= committed_at_ms m)%Z.
Proof using Hms.
  unfold seed. rewrite elem_of_union, !elem_of_list_to_set. apply or_iff_compat_l. rewrite list_elem_of_omap.
  pose proof (fun q x => Forall2_zip (fun s m => meta_at (objs v) s = Some m) all metas q x Hms
    ltac:(intros a b c H1 H2; congruence)) as Hz.
  split.
  - intros ([q m] & Hin & Hs). cbn in Hs. case_bool_decide; [|done]. injection Hs as <-. exists m. apply Hz in Hin as [Hq Hm]. done.
  - intros (m & Hs & Hm & Hc). exists (s, m). split; [by apply Hz|]. cbn. by rewrite bool_decide_eq_true_2.
Qed.

(** The closure a sweep computes is what the policy keeps. *)
Lemma closure_keeps R' s :
  closure (closure_fuel metas (seed policy now_ms all metas)) (by_sequence metas) (seed policy now_ms all metas)
    (reverse (sort_N (elements (seed policy now_ms all metas)))) = Some R' →
  s ∈ R' ↔ keeps policy now_ms (objs v) all s.
Proof using Hms Hcs Hlt.
  destruct (sweep_closure metas (seed policy now_ms all metas)) as (R & E & Hseed & Hcl & Hmin). rewrite E.
  intros [= <-]. split.
  - revert s. apply Hmin.
    + intros s [Hs|(m & Hs & Hm & Hc)]%elem_of_seed; [by apply keeps_newest|by eapply keeps_window].
    + intros q m n Hq Hm Hn. apply by_sequence_elem in Hm as [Hm Hs]. apply metas_elem in Hm as (q' & Hq' & Hm).
      pose proof (cs_sequence _ Hcs q' m (Hlt q' ltac:(assumption)) Hm). assert (q' = q) as -> by congruence. by eapply keeps_chain.
  - induction 1 as [s Hs|s m Hs Hm Hc|q m s _ IH Hq Hm Hn].
    + apply Hseed, elem_of_seed. by left.
    + apply Hseed, elem_of_seed. right. eauto.
    + eapply Hcl; [exact IH|by eapply by_sequence_meta|done].
Qed.

Lemma keeps_lt s : keeps policy now_ms (objs v) all s → s < u64_limit.
Proof using Hcs Hlt.
  intros Hk. destruct Hk as [s Hs|s m Hs _ _|q m s _ Hq Hm Hn].
  - apply Hlt. apply elem_of_take in Hs as (i & Hi & _). apply list_elem_of_lookup_2 in Hi. by rewrite elem_of_reverse in Hi.
  - by apply Hlt.
  - pose proof (Hlt q Hq) as Hq'. pose proof (cs_sequence _ Hcs q m (Hlt q ltac:(assumption)) Hm) as Hs. unfold needed in Hn.
    destruct (run_set m) as [[rs|a b]|] eqn:Er; [by apply elem_of_nil in Hn| |by apply elem_of_nil in Hn].
    apply elem_of_inclusive in Hn. unfold run_set in Er. destruct (ensure _ _); [|done]. cbn in Er.
    destruct (last _); [by repeat (destruct (check_spans _) || destruct (check_adjacent _) || destruct (ensure _ _) || cbn in Er)|].
    unfold chain in Er. injection Er as <- <-. lia.
Qed.

Lemma elem_of_live R p : p ∈ live_paths metas R ↔ ∃ s m, s ∈ all ∧ s ∈ R ∧ meta_at (objs v) s = Some m ∧ mentions m p.
Proof using Hms Hcs Hlt.
  unfold live_paths. rewrite elem_of_list_to_set, list_elem_of_bind. setoid_rewrite list_elem_of_filter. setoid_rewrite elem_of_named.
  setoid_rewrite metas_elem. split.
  - intros (m & Hp & Hs & q & Hq & Hm). exists q, m. by rewrite (cs_sequence _ Hcs q m (Hlt q ltac:(assumption)) Hm) in Hs.
  - intros (q & m & Hq & HR & Hm & Hp). exists m. split; [done|]. rewrite (cs_sequence _ Hcs q m (Hlt q ltac:(assumption)) Hm). eauto.
Qed.
End run.

(** What no kept snapshot reaches: neither its metadata nor a file it names. *)
Definition unreachable (policy : RetentionPolicy) (now_ms : Z) (o : gmap Path Object) (all : list N) (p : Path) : Prop :=
  ∀ s, keeps policy now_ms o all s →
    p ≠ snap_path prefix s ∧ ∀ m, s ∈ all → meta_at o s = Some m → ¬ mentions m p.

(** What a sweep may delete: an unreachable object written before the grace period. *)
Definition dead (policy : RetentionPolicy) (now_ms : Z) (o : gmap Path Object) (all : list N) (p : Path) (x : Object) : Prop :=
  (o_modified x <= now_ms - grace policy)%Z ∧ unreachable policy now_ms o all p.

(** What it is in charge of: run files, data files, and the metadata of what it listed. *)
Definition reclaimable (all : list N) (p : Path) : Prop :=
  (∃ sub, sub ∈ ["puffin"; "data"] ∧ prefix ++ [sub] `prefix_of` p ∧ p ≠ prefix ++ [sub]) ∨
  ∃ s, s ∈ all ∧ p = snap_path prefix s.

Lemma not_under_metadata sub p :
  sub ≠ "metadata" → prefix ++ [sub] `prefix_of` p → ¬ metadata_dir prefix `prefix_of` p.
Proof using.
  intros Hs [k ->] [k' E]. unfold metadata_dir in E. rewrite <- !app_assoc in E. apply app_inv_head in E.
  by injection E as -> _.
Qed.

Lemma listed_lt (v : CatalogView St) all v1 s :
  list_snapshot_sequences prefix v = (Ok all, v1) → s ∈ all → s < u64_limit.
Proof using ObjectStoreLaws0.
  intros Hl Hs. apply list_sequences_ok in Hl as [_ Hl]. apply Hl in Hs as (p & o & _ & _ & _ & Hn).
  destruct (last p) as [x|]; [|done]. by eapply name_sequence_lt.
Qed.

Section dead.
Context (policy : RetentionPolicy) (now_ms : Z) (v : CatalogView St) (all : list N) (metas : list SnapshotMeta) (R : gset N).
Context (Hcs : consistent (objs v)).
Context (Hms : Forall2 (fun s m => meta_at (objs v) s = Some m) all metas).
Context (Hlt : ∀ s, s ∈ all → s < u64_limit).
Context (HR : ∀ s, s ∈ R ↔ keeps policy now_ms (objs v) all s).

Lemma sweeps_dead sub p x :
  sub ≠ "metadata" → sweeps prefix (live_paths metas R) (now_ms - grace policy) sub p x → dead policy now_ms (objs v) all p x.
Proof using Hcs Hms HR Hlt.
  intros Hsub (Hpre & _ & Hnl & Hold). split; [done|]. intros s Hs. split.
  - intros ->. by destruct (not_under_metadata sub _ Hsub Hpre), (snap_path_under prefix s).
  - intros m Hin Hm Hp. apply Hnl. eapply elem_of_live; [exact Hcs|exact Hms|exact Hlt|]. exists s, m. by rewrite HR.
Qed.

Lemma expires_dead p x :
  expires prefix (now_ms - grace policy) (filter (fun s => s ∉ R) all) p x → dead policy now_ms (objs v) all p x.
Proof using Hcs Hlt HR.
  intros [(s & Hs & ->) Hold]. apply list_elem_of_filter in Hs as [HsR Hs]. split; [done|]. intros q Hq. split.
  - intros E. apply HsR. rewrite HR. apply snap_path_inj in E as ->; [done|by apply Hlt|by eapply keeps_lt].
  - intros m Hin Hm Hp. eapply cs_named; [done|by apply Hlt|exact Hm|exact Hp|apply snap_path_under].
Qed.

(** What is dead and reclaimable falls to one of the three passes. *)
Lemma dead_swept p x :
  dead policy now_ms (objs v) all p x → reclaimable all p →
  sweeps prefix (live_paths metas R) (now_ms - grace policy) "puffin" p x ∨
  sweeps prefix (live_paths metas R) (now_ms - grace policy) "data" p x ∨
  expires prefix (now_ms - grace policy) (filter (fun s => s ∉ R) all) p x.
Proof using Hcs Hms HR Hlt.
  intros [Hold Hun] [(sub & Hsub & Hpre & Hne)|(s & Hs & ->)].
  - assert (p ∉ live_paths metas R) as Hnl.
    { intros (s & m & Hin & HsR & Hm & Hp)%(elem_of_live v all metas Hcs Hms Hlt). apply HR in HsR.
      by destruct (Hun s HsR) as [_ Hn]; apply (Hn m Hin Hm). }
    apply elem_of_cons in Hsub as [->|[->|[]%elem_of_nil]%elem_of_cons]; [by left|by right; left].
  - right. right. split; [|done]. exists s. split; [|done]. apply list_elem_of_filter. split; [|done].
    rewrite HR. intros Hk. by destruct (Hun s Hk) as [Hn _].
Qed.
End dead.

Lemma taken_gone D a b p : taken D a b → a !! p = None → b !! p = None.
Proof using. intros T Ha. destruct (T p) as [E|[E _]]; [by rewrite E|done]. Qed.

Lemma taken_left D a b p x : taken D a b → b !! p = Some x → a !! p = Some x.
Proof using. intros T Hb. destruct (T p) as [E|[E _]]; [by rewrite <- E|by rewrite E in Hb]. Qed.

Lemma collect_run policy now_ms (v v1 : CatalogView St) all :
  consistent (objs v) → list_snapshot_sequences prefix v = (Ok all, v1) →
  ∃ r v', collect from_json prefix policy now_ms v = (r, v') ∧ r ≠ Err OutOfFuel ∧
    taken (dead policy now_ms (objs v) all) (objs v) (objs v') ∧
    (ReliableStore St → all ≠ [] → (∀ s, s ∈ all → is_Some (meta_at (objs v) s)) →
      is_ok r = true ∧ ∀ p x, objs v !! p = Some x → reclaimable all p → dead policy now_ms (objs v) all p x → objs v' !! p = None).
Proof using ObjectStoreLaws0.
  intros Hcs Hl. pose proof (fun s => listed_lt v all v1 s Hl) as Hlt. unfold collect. rewrite (bind_ok _ _ _ _ _ Hl).
  apply list_sequences_ok in Hl as [Hv1 _]. case_bool_decide as Hne.
  { exists (Ok reclaimed_default), v1. split_and!; try done; [rewrite Hv1; apply taken_refl|].
    intros _ Hall. by destruct all. }
  destruct (read_metas_ok all v1) as (x & v2 & Er & Hv2 & Hms & Hrel). rewrite (bind_ok _ _ _ _ _ Er).
  rewrite Hv1 in Hv2, Hms, Hrel. destruct x as [metas|].
  2:{ exists (Ok reclaimed_default), v2. split_and!; try done; [rewrite Hv2; apply taken_refl|].
      intros HR _ Hall. by destruct (Hrel HR Hall). }
  specialize (Hms metas eq_refl).
  destruct (sweep_closure metas (seed policy now_ms all metas)) as (R & Ec & _). rewrite Ec.
  pose proof (fun s => closure_keeps policy now_ms v all metas Hcs Hms Hlt R s Ec) as HR. clear Ec Er Hrel Hne.
  set (D := dead policy now_ms (objs v) all).
  set (out0 := mkReclaimed _ _ _ _ _ _).
  destruct (sweep_taken prefix (live_paths metas R) (now_ms - grace policy) "puffin" out0 v2) as (r1 & v3 & E1 & F1 & T1 & G1).
  rewrite Hv2 in T1, G1. assert (taken D (objs v) (objs v3)) as T1'.
  { eapply taken_weaken; [exact T1|]. intros p x _. by apply sweeps_dead. }
  destruct r1 as [out1|e].
  2:{ rewrite (bind_err _ _ _ _ _ E1). exists (Err e), v3. split_and!; [done|congruence|done|]. intros HS _ _. by destruct (G1 HS). }
  rewrite (bind_ok _ _ _ _ _ E1).
  destruct (sweep_taken prefix (live_paths metas R) (now_ms - grace policy) "data" out1 v3) as (r2 & v4 & E2 & F2 & T2 & G2).
  assert (taken D (objs v) (objs v4)) as T2'.
  { eapply taken_trans; [exact T1'|]. eapply taken_weaken; [exact T2|]. intros p x _. by apply sweeps_dead. }
  destruct r2 as [out2|e].
  2:{ rewrite (bind_err _ _ _ _ _ E2). exists (Err e), v4. split_and!; [done|congruence|done|]. intros HS _ _. by destruct (G2 HS). }
  rewrite (bind_ok _ _ _ _ _ E2).
  destruct (expire_taken prefix (now_ms - grace policy) (filter (fun s => s ∉ R) all) out2 v4) as (out3 & v5 & E3 & T3 & G3).
  exists (Ok out3), v5. split_and!; [exact E3|done| |].
  { eapply taken_trans; [exact T2'|]. eapply taken_weaken; [exact T3|]. intros p x _. by eapply expires_dead. }
  intros HS _ _. split; [done|]. intros p x Hp Hrec Hd.
  destruct (objs v4 !! p) as [y|] eqn:E4; [|exact (taken_gone _ _ _ _ T3 E4)].
  assert (y = x) as ->. { pose proof (taken_left _ _ _ _ _ T2' E4). congruence. }
  pose proof (taken_left _ _ _ _ _ T2 E4) as E3'.
  destruct (dead_swept policy now_ms v all metas R Hcs Hms Hlt HR p x Hd Hrec) as [Hs|[Hs|Hs]].
  - destruct (G1 HS) as [_ G]. by rewrite (G p x Hp Hs) in E3'.
  - destruct (G2 HS) as [_ G]. by rewrite (G p x E3' Hs) in E4.
  - by eapply G3.
Qed.
End keeps.

(** ** A sweep does not move the cached sequence *)

Definition caches {St A E} (m : io (CatalogView St) E A) : Prop := ∀ v, cached_seq (m v).2 = cached_seq v.

Section caches.
Context {St : Type} `{!ObjectStore St}.

Lemma caches_bind {A B E} (m : io (CatalogView St) E A) (f : A → io (CatalogView St) E B) :
  caches m → (∀ x, caches (f x)) → caches (x ← m; f x).
Proof. intros Hm Hf v. rewrite bind_unfold. specialize (Hm v). destruct (m v) as [[x|e] v1]; [by rewrite Hf|done]. Qed.

Lemma caches_pure {A E} (r : result E A) : caches (fun v : CatalogView St => (r, v)).
Proof. done. Qed.

Lemma caches_store {A} (m : io St store_error A) : caches (on_store m).
Proof. intros v. by rewrite on_store_run. Qed.

Lemma caches_attempt {A E E'} (m : io (CatalogView St) E A) : caches m → caches (attempt m : io (CatalogView St) E' (result E A)).
Proof. intros Hm v. unfold attempt. specialize (Hm v). by destruct (m v) as [[x|e] v1]. Qed.

Lemma caches_get from_json prefix sequence : caches (catalog_get from_json prefix sequence).
Proof. apply caches_bind; [apply caches_store|]. intros [b|e]; apply caches_pure. Qed.

Lemma caches_read from_json prefix all : caches (read_metas from_json prefix all).
Proof.
  induction all as [|s all IH]; [apply caches_pure|]. apply caches_bind; [apply caches_attempt, caches_get|].
  intros [m|e]; [|apply caches_pure]. apply caches_bind; [done|]. intros x. apply caches_pure.
Qed.

Lemma caches_delete l : ∀ out, caches (delete_all l out).
Proof. induction l as [|m l IH]; intros out; [apply caches_pure|]. apply caches_bind; [apply caches_store|]. intros r. apply IH. Qed.

Lemma caches_sweep prefix live grace_ms sub out : caches (sweep prefix live grace_ms sub out).
Proof.
  apply caches_bind; [apply caches_store|]. intros r. apply caches_bind; [by intros v|]. intros l. apply caches_delete.
Qed.

Lemma caches_expire prefix grace_ms l : ∀ out, caches (expire prefix grace_ms l out).
Proof.
  induction l as [|s l IH]; intros out; [apply caches_pure|]. apply caches_bind; [apply caches_store|].
  intros [m|e]; [|apply IH]. case_bool_decide; [apply IH|]. apply caches_bind; [apply caches_store|]. intros r. apply IH.
Qed.

Lemma caches_collect from_json prefix policy now_ms : caches (collect from_json prefix policy now_ms).
Proof.
  apply caches_bind.
  { apply caches_bind; [apply caches_store|]. intros r. apply caches_bind; [by intros v|]. intros l. apply caches_pure. }
  intros all. case_bool_decide; [apply caches_pure|]. apply caches_bind; [apply caches_read|].
  intros [metas|]; [|apply caches_pure]. cbv zeta. case_match; [|apply caches_pure].
  apply caches_bind; [apply caches_sweep|]. intros out. apply caches_bind; [apply caches_sweep|]. intros out'. apply caches_expire.
Qed.
End caches.

(** ** The newest of a listing *)

Lemma list_sequences_sorted {St} `{!ObjectStore St} prefix (v v1 : CatalogView St) all :
  list_snapshot_sequences prefix v = (Ok all, v1) → StronglySorted N.le all.
Proof.
  unfold list_snapshot_sequences. rewrite (bind_ok _ _ _ _ _ (on_store_run (os_list (metadata_dir prefix)) v)).
  destruct (os_list _ _).1 as [l|e]; [|done]. rewrite bind_unfold. cbn [or_store lift]. intros [= <- _]. apply sort_N_sorted.
Qed.

Lemma list_sequences_reliable {St} `{!ObjectStore St, !ReliableStore St} prefix (v : CatalogView St) :
  ∃ all v1, list_snapshot_sequences prefix v = (Ok all, v1).
Proof.
  unfold list_snapshot_sequences. rewrite (bind_ok _ _ _ _ _ (on_store_run (os_list (metadata_dir prefix)) v)).
  destruct (list_reliable (metadata_dir prefix) (cv_store v)) as [l ->]. by eexists _, _.
Qed.

Lemma sorted_last_taken (all : list N) n k :
  StronglySorted N.le all → n ∈ all → (∀ s, s ∈ all → s <= n) → (1 <= k)%nat → n ∈ take k (reverse all).
Proof.
  intros Hs Hin Hle Hk. destruct all as [|x all _] using rev_ind; [by apply elem_of_nil in Hin|].
  rewrite reverse_snoc. destruct k as [|k]; [lia|]. cbn [take]. apply elem_of_cons. left.
  assert (x <= n) by (apply Hle; rewrite elem_of_app, list_elem_of_singleton; by right).
  apply elem_of_app in Hin as [Hin|Hin%list_elem_of_singleton]; [|done]. apply StronglySorted_app_1_elem_of with (x1 := n) (x2 := x) in Hs;
    [lia|done|by apply list_elem_of_singleton].
Qed.

Lemma taken_size D a b : taken D a b → (size b <= size a)%nat.
Proof.
  intros T. rewrite <- !size_dom. apply subseteq_size. intros p. rewrite !elem_of_dom. intros [x Hx].
  exists x. by eapply taken_left.
Qed.

(** C15. A sweep deletes nothing a reader could still want, whichever of its requests fail:
    every object it removes was last written before the grace period, is not the
    metadata of a snapshot the policy keeps (the newest ones, those committed inside the
    window, and the ones these need to be read) and is named by none of them; it creates
    and changes nothing, and its search for what is needed ends. *)
Theorem retention_keeps_reachable {St} `{!ObjectStore St, !ObjectStoreLaws St}
    from_json prefix policy now_ms (v v1 v' : CatalogView St) all r :
  consistent from_json prefix (objects (cv_store v)) →
  list_snapshot_sequences prefix v = (Ok all, v1) →
  collect from_json prefix policy now_ms v = (r, v') →
  r ≠ Err OutOfFuel ∧
  ∀ p, objects (cv_store v') !! p = objects (cv_store v) !! p ∨
    (objects (cv_store v') !! p = None ∧ ∃ x, objects (cv_store v) !! p = Some x ∧
      (o_modified x <= now_ms - grace policy)%Z ∧
      ∀ s, keeps from_json prefix policy now_ms (objects (cv_store v)) all s →
        p ≠ snap_path prefix s ∧
        ∀ m, s ∈ all → meta_at from_json prefix (objects (cv_store v)) s = Some m → ¬ mentions m p).
Proof.
  intros Hcs Hl Hc. destruct (collect_run from_json prefix policy now_ms v v1 all Hcs Hl) as (r' & w & E & Hf & T & _).
  rewrite Hc in E. injection E as -> ->. split; [done|]. exact T.
Qed.

(** C31. On a store that answers, with at least one snapshot and the metadata of all of them
    readable, a sweep returns and takes away
    everything it should: each run file, data file and listed snapshot that no kept
    snapshot reaches and that is older than the grace period is gone. *)
Theorem retention_reclaims_garbage {St} `{!ObjectStore St, !ObjectStoreLaws St, !ReliableStore St}
    from_json prefix policy now_ms (v v1 : CatalogView St) all :
  consistent from_json prefix (objects (cv_store v)) →
  list_snapshot_sequences prefix v = (Ok all, v1) → all ≠ [] →
  (∀ s, s ∈ all → is_Some (meta_at from_json prefix (objects (cv_store v)) s)) →
  ∃ out v', collect from_json prefix policy now_ms v = (Ok out, v') ∧
    ∀ p x, objects (cv_store v) !! p = Some x → reclaimable prefix all p →
      (o_modified x <= now_ms - grace policy)%Z →
      unreachable from_json prefix policy now_ms (objects (cv_store v)) all p →
      objects (cv_store v') !! p = None.
Proof.
  intros Hcs Hl Hne Hall. destruct (collect_run from_json prefix policy now_ms v v1 all Hcs Hl) as (r & v' & E & _ & _ & G).
  destruct (G _ Hne Hall) as [Hok Hg]. destruct r as [out|e]; [|done]. exists out, v'. split; [done|].
  intros p x Hp Hrec Hold Hun. by eapply Hg.
Qed.

(** Three snapshots written at 7, the last a delta over the one before it, with a run
    file each and a file no snapshot names. *)
Definition demo_chain (s : N) : SnapshotMeta :=
  mkSnapshot s 0 10 (single 10) None [] ["puffin"; pad_zeros 3 s] "w" (if s =? 5 then 4 else s) (if s =? 5 then 1 else 0) [] 0.

Definition demo_swept : Memory :=
  mkMemory (list_to_map (((fun s => (snap_path [] s, mkObject (demo_snap_to_json (demo_chain s)) 7)) <$> [3; 4; 5]) ++
    ((fun s => (["puffin"; pad_zeros 3 s], mkObject [1] 7)) <$> [3; 4; 5; 9]))) 9.

Definition demo_policy : RetentionPolicy := mkPolicy 1 0 10.

Abbreviation demo_view := (mkView demo_swept 0).

Lemma demo_listed_lt q : q ∈ [3; 4; 5] → q < u64_limit.
Proof. intros [->|[->|[->|[]%elem_of_nil]%elem_of_cons]%elem_of_cons]%elem_of_cons; done. Qed.

Lemma demo_swept_meta s m :
  s < u64_limit → meta_at demo_snap_from_json [] (mem_objects demo_swept) s = Some m → s ∈ [3; 4; 5] ∧ m = demo_chain s.
Proof.
  intros Hs. unfold meta_at. destruct (mem_objects demo_swept !! snap_path [] s) as [o|] eqn:Ho; [|done].
  unfold demo_swept in Ho. cbn [mem_objects] in Ho. apply elem_of_list_to_map_2 in Ho.
  apply elem_of_app in Ho as [Ho|Ho].
  - apply list_elem_of_fmap in Ho as (q & E & Hq). apply pair_equal_spec in E as [Eq ->].
    intros Hm. assert (demo_snap_from_json (demo_snap_to_json (demo_chain q)) = Some m) as Hm' by exact Hm.
    rewrite demo_snap_roundtrip in Hm'. injection Hm' as <-.
    apply snap_path_inj in Eq as ->; [done|done|]. by apply demo_listed_lt.
  - apply list_elem_of_fmap in Ho as (q & E & _). discriminate E.
Qed.

Lemma demo_swept_consistent : consistent demo_snap_from_json [] (objects (cv_store demo_view)).
Proof.
  split.
  - intros s m Hs [_ ->]%demo_swept_meta; done.
  - intros s m p Hs [_ ->]%demo_swept_meta Hp; [|done]. apply elem_of_named in Hp. cbn in Hp. apply list_elem_of_singleton in Hp as ->.
    intros [k E]. discriminate E.
Qed.

Lemma demo_swept_listed : list_snapshot_sequences [] demo_view = (Ok [3; 4; 5], demo_view).
Proof. by vm_compute. Qed.

Definition demo_after : CatalogView Memory := (collect demo_snap_from_json [] demo_policy 100 demo_view).2.

Lemma demo_swept_keeps s : keeps demo_snap_from_json [] demo_policy 100 (mem_objects demo_swept) [3; 4; 5] s → s = 5 ∨ s = 4.
Proof.
  induction 1 as [s Hs|s m Hs Hm Hc|q m s _ IH Hq Hm Hn].
  - left. by apply list_elem_of_singleton in Hs.
  - apply demo_swept_meta in Hm as [_ ->]; [|by apply demo_listed_lt]. cbn in Hc. lia.
  - apply demo_swept_meta in Hm as [_ ->]; [|by apply demo_listed_lt]. destruct IH as [->| ->].
    + assert (needed (demo_chain 5) = [4; 5]) as E by (by vm_compute). rewrite E in Hn. revert Hn. rewrite !elem_of_cons, elem_of_nil. tauto.
    + assert (needed (demo_chain 4) = [4]) as E by (by vm_compute). rewrite E in Hn. revert Hn. rewrite !elem_of_cons, elem_of_nil. tauto.
Qed.

Lemma demo_unreachable p :
  bool_decide (p ∉ [snap_path [] 4; snap_path [] 5] ++ named (demo_chain 4) ++ named (demo_chain 5)) = true →
  unreachable demo_snap_from_json [] demo_policy 100 (objects (cv_store demo_view)) [3; 4; 5] p.
Proof.
  intros Hp%bool_decide_eq_true_1 s Hs%demo_swept_keeps.
  assert (p ≠ snap_path [] s ∧ p ∉ named (demo_chain s)) as [H1 H2].
  { destruct Hs as [->| ->]; split; intros Hin; apply Hp; [subst p|..].
    - apply elem_of_app. left. right. left.
    - apply elem_of_app. right. apply elem_of_app. by right.
    - subst p. left.
    - apply elem_of_app. right. apply elem_of_app. by left. }
  split; [exact H1|]. intros m Hin Hm. apply demo_swept_meta in Hm as [_ ->]; [|by apply demo_listed_lt]. by rewrite <- elem_of_named.
Qed.

(** Keeping one snapshot keeps the delta and the base it is read over. *)
Lemma retention_keeps_reachable_witness :
  (collect demo_snap_from_json [] demo_policy 100 demo_view).1 ≠ Err OutOfFuel ∧
  ∀ p, mem_objects (cv_store demo_after) !! p = mem_objects demo_swept !! p ∨
    (mem_objects (cv_store demo_after) !! p = None ∧ p ≠ snap_path [] 5 ∧ ¬ mentions (demo_chain 5) p).
Proof.
  destruct (retention_keeps_reachable demo_snap_from_json [] demo_policy 100 demo_view demo_view demo_after [3; 4; 5]
    (collect demo_snap_from_json [] demo_policy 100 demo_view).1 demo_swept_consistent demo_swept_listed
    (surjective_pairing _)) as [Hf Hp].
  split; [exact Hf|]. intros p. destruct (Hp p) as [E|(E & x & _ & _ & Hk)]; [left; exact E|right].
  destruct (Hk 5) as [H1 H2].
  - apply keeps_newest. left.
  - split; [exact E|]. split; [exact H1|]. apply (H2 (demo_chain 5)); [right; right; left|]. exact (demo_snap_roundtrip (demo_chain 5)).
Defined.

(** The snapshot nothing needs, its run file and the file nothing names are gone. *)
Lemma retention_reclaims_garbage_witness :
  ∃ out v', collect demo_snap_from_json [] demo_policy 100 demo_view = (Ok out, v') ∧
    Forall (fun p => mem_objects (cv_store v') !! p = None)
      [["puffin"; "003"]; ["puffin"; "009"]; snap_path [] 3] ∧
    out = mkReclaimed 1 2 2 2 2 0.
Proof.
  destruct (retention_reclaims_garbage demo_snap_from_json [] demo_policy 100 demo_view demo_view [3; 4; 5]
    demo_swept_consistent demo_swept_listed ltac:(discriminate)) as (out & v' & E & G).
  { intros s Hs. exists (demo_chain s).
    apply elem_of_cons in Hs as [->|[->|[->|[]%elem_of_nil]%elem_of_cons]%elem_of_cons]; exact (demo_snap_roundtrip _). }
  exists out, v'. split; [exact E|]. assert (out = mkReclaimed 1 2 2 2 2 0) as ->.
  { assert ((collect demo_snap_from_json [] demo_policy 100 demo_view).1 = Ok (mkReclaimed 1 2 2 2 2 0)) as E' by (by vm_compute).
    rewrite E in E'. by injection E'. }
  assert (∀ x, x ∈ [["puffin"; "003"]; ["puffin"; "009"]] → reclaimable [] [3; 4; 5] x) as Hr.
  { intros x Hx. left. exists "puffin". split; [left|].
    apply elem_of_cons in Hx as [->|[->|[]%elem_of_nil]%elem_of_cons]; (split; [by eexists|done]). }
  split; [|done]. repeat (constructor; [eapply G; [by vm_compute| |done|apply demo_unreachable; by vm_compute]|]); [..|constructor].
  - apply Hr. left.
  - apply Hr. right; left.
  - right. exists 3. split; [left|done].
Defined.
