(* ===== verification/Buffer.v ===== *)
(** The edge buffer: [src/ingest/buffer.rs].

    Events append to the active buffer, one row per visible scope; a tick seals it into
    an immutable segment, and a segment goes once a committed position dominates it. A
    buffer of Arrow columns is the list of its rows; the Arrow kernels that sort them
    are an interface with the order they promise. *)

From S2P Require Import Prelude Types Stream.

Record Row := mkRow {
  row_partition : PartitionId;
  row_offset : N;
  row_src : NodeId;
  row_dst : NodeId;
  row_scope : ScopeId;
  row_event_time : Z;
  row_props : option string;
}.

Record ActiveBuf := mkActive { ab_rows : list Row; ab_first : StreamPosition; ab_last : StreamPosition }.

Definition active_default : ActiveBuf := mkActive [] pos_new pos_new.

(** [Segment]. *)
Record Segment := mkSegment { sg_batch : list Row; sg_first : StreamPosition; sg_last : StreamPosition }.

Record EdgeBuffer := mkBuffer { active : ActiveBuf; sealed : list Segment }.

(** [BufferStats], less the memory size of the batches. *)
Record BufferStats := mkBufferStats { active_rows : nat; sealed_rows : nat; sealed_count : nat }.

(** [lexsort_to_indices] on [scope_id] and [src], and [take] by the result. *)
Definition row_le (a b : Row) : Prop :=
  row_scope a < row_scope b ∨ (row_scope a = row_scope b ∧ row_src a <= row_src b).

#[export] Instance row_le_dec : RelDecision row_le.
Proof. intros a b. unfold row_le. apply _. Defined.

Class EdgeSort := {
  edge_sort : list Row → list Row;
  edge_sort_perm l : edge_sort l ≡ₚ l;
  edge_sort_sorted l : Sorted row_le (edge_sort l);
}.

(** [EdgeBuffer::new]. *)
Definition buffer_new : EdgeBuffer := mkBuffer active_default [].

(** One row per visible scope. *)
Definition event_rows (partition : PartitionId) (offset : N) (event : EdgeEvent) : list Row :=
  let scopes := match normalize (visibility event) with Global => [GLOBAL_SCOPE] | Scoped s => s end in
  (fun scope => mkRow partition offset (src event) (dst event) scope (event_time_ms event) (props event)) <$> scopes.

(** [EdgeBuffer::append]. *)
Definition append (b : EdgeBuffer) (partition : PartitionId) (offset : N) (event : EdgeEvent) : EdgeBuffer :=
  let buf := active b in
  let first := if pos_get (ab_first buf) partition =? 0 then advance (ab_first buf) partition offset else ab_first buf in
  mkBuffer (mkActive (ab_rows buf ++ event_rows partition offset event) first (advance (ab_last buf) partition offset))
    (sealed b).

Section seal.
Context `{EdgeSort}.

(** [EdgeBuffer::seal_active]. *)
Definition seal_active (b : EdgeBuffer) : option Segment * EdgeBuffer :=
  let buf := active b in
  if (length (ab_rows buf) =? 0)%nat then (None, b) else
  let segment := mkSegment (edge_sort (ab_rows buf)) (ab_first buf) (ab_last buf) in
  (Some segment, mkBuffer active_default (sealed b ++ [segment])).
End seal.

(** [EdgeBuffer::drop_committed]. *)
Definition drop_committed (b : EdgeBuffer) (committed : StreamPosition) : nat * EdgeBuffer :=
  let kept := filter (fun s => dominates committed (sg_last s) = false) (sealed b) in
  ((length (sealed b) - length kept)%nat, mkBuffer (active b) kept).

(** [EdgeBuffer::stats]. *)
Definition buffer_stats (b : EdgeBuffer) : BufferStats :=
  mkBufferStats (length (ab_rows (active b))) (foldr (fun s n => length (sg_batch s) + n)%nat 0%nat (sealed b))
    (length (sealed b)).

(** ** What it keeps *)

Definition row_covered (c : StreamPosition) (r : Row) : Prop := row_offset r <= pos_get c (row_partition r).

#[export] Instance row_covered_dec c r : Decision (row_covered c r).
Proof. unfold row_covered. apply _. Defined.

(** [last] is the highest offset per partition: above every row, and one row's own. *)
Record extent_ok (rows : list Row) (first last : StreamPosition) : Prop := {
  ex_above r : r ∈ rows → row_covered last r;
  ex_attained p : pos_get last p ≠ 0 → ∃ r, r ∈ rows ∧ row_partition r = p ∧ row_offset r = pos_get last p;
  ex_first p : pos_get first p ≠ 0 → ∃ r, r ∈ rows ∧ row_partition r = p ∧ row_offset r = pos_get first p;
}.

Record buffer_inv (b : EdgeBuffer) : Prop := {
  bi_active : extent_ok (ab_rows (active b)) (ab_first (active b)) (ab_last (active b));
  bi_sealed : Forall (fun s => extent_ok (sg_batch s) (sg_first s) (sg_last s) ∧ sg_batch s ≠ [] ∧
    Sorted row_le (sg_batch s)) (sealed b);
}.

Definition buffered (b : EdgeBuffer) : list Row := concat (sg_batch <$> sealed b) ++ ab_rows (active b).

Inductive buffer_op :=
| Append (partition : PartitionId) (offset : N) (event : EdgeEvent)
| Seal
| DropCommitted (committed : StreamPosition).

Definition op_rows (op : buffer_op) : list Row :=
  match op with Append p o e => event_rows p o e | _ => [] end.

Section keeps.
Context `{EdgeSort}.

Definition buffer_step (b : EdgeBuffer) (op : buffer_op) : EdgeBuffer :=
  match op with
  | Append p o e => append b p o e
  | Seal => (seal_active b).2
  | DropCommitted c => (drop_committed b c).2
  end.

Lemma event_rows_some p o e : ∃ r, r ∈ event_rows p o e ∧ row_partition r = p ∧ row_offset r = o.
Proof.
  unfold event_rows. destruct (normalize (visibility e)) as [|l] eqn:E; [by eexists; split; [left|]|].
  destruct l as [|s l].
  - exfalso. unfold normalize in E. destruct (visibility e) as [|l]; [done|]. case_match eqn:Hn; [done|].
    injection E as E. destruct l as [|x l]; [done|].
    assert (x ∈ dedup (sort_N (x :: l))) as Hx by (rewrite elem_of_dedup, elem_of_sort_N; by left).
    rewrite E in Hx. by apply elem_of_nil in Hx.
  - by eexists; split; [left|].
Qed.

Lemma extent_new : extent_ok [] pos_new pos_new.
Proof. split; [by intros r ?%elem_of_nil|done|done]. Qed.

Lemma extent_append b p o e :
  extent_ok (ab_rows (active b)) (ab_first (active b)) (ab_last (active b)) →
  extent_ok (ab_rows (active (append b p o e))) (ab_first (active (append b p o e))) (ab_last (active (append b p o e))).
Proof.
  intros [Ha Ht Hf]. destruct (event_rows_some p o e) as (r & Hr & Hp & Ho). cbn [append active ab_rows ab_first ab_last].
  assert (∃ r, r ∈ ab_rows (active b) ++ event_rows p o e ∧ row_partition r = p ∧ row_offset r = o) as Hnew.
  { exists r. split; [|done]. apply elem_of_app. by right. }
  split.
  - intros x Hx. unfold row_covered. rewrite pos_get_advance. apply elem_of_app in Hx as [Hx|Hx].
    + specialize (Ha x Hx). unfold row_covered in Ha. case_decide; lia.
    + unfold event_rows in Hx. apply list_elem_of_fmap in Hx as (s & -> & _). cbn. rewrite decide_True by done. lia.
  - intros q Hq. rewrite pos_get_advance in *. case_decide as E; [subst q|].
    + destruct (N.max_spec (pos_get (ab_last (active b)) p) o) as [[_ Em]|[_ Em]]; rewrite Em in *; [exact Hnew|].
      destruct (Ht p Hq) as (x & Hx & Hxp). exists x. split; [|done]. apply elem_of_app. by left.
    + destruct (Ht q Hq) as (x & Hx & Hxp). exists x. split; [|done]. apply elem_of_app. by left.
  - intros q Hq. destruct (N.eqb_spec (pos_get (ab_first (active b)) p) 0) as [E0|E0].
    + rewrite pos_get_advance in *. case_decide as E; [subst q; rewrite E0, N.max_0_l in *; exact Hnew|].
      destruct (Hf q Hq) as (x & Hx & Hxp). exists x. split; [|done]. apply elem_of_app. by left.
    + destruct (Hf q Hq) as (x & Hx & Hxp). exists x. split; [|done]. apply elem_of_app. by left.
Qed.

Lemma buffer_op_inv b op : buffer_inv b → buffer_inv (buffer_step b op).
Proof.
  intros [Ha Hs]. destruct op as [p o e| |c]; cbn [buffer_step].
  - split; [by apply extent_append|done].
  - unfold seal_active. destruct (Nat.eqb_spec (length (ab_rows (active b))) 0) as [E|E]; [by split|].
    split; cbn; [apply extent_new|]. apply Forall_app. split; [done|]. apply Forall_singleton. cbn.
    split; [|split; [|apply edge_sort_sorted]].
    + destruct Ha as [H1 H2 H3]. split; setoid_rewrite edge_sort_perm; done.
    + intros En. apply E. by rewrite <- (edge_sort_perm (ab_rows (active b))), En.
  - split; [done|]. cbn. rewrite Forall_forall in *. intros s [_ Hin]%list_elem_of_filter. by apply Hs.
Qed.

Lemma buffer_ops_inv ops b : buffer_inv b → buffer_inv (foldl buffer_step b ops).
Proof. revert b. induction ops as [|op ops IH]; intros b Hb; [done|]. apply IH. by apply buffer_op_inv. Qed.

Lemma buffer_new_inv : buffer_inv buffer_new.
Proof. split; [apply extent_new|constructor]. Qed.

(** A position dominates a segment exactly when it covers every row of it. *)
Lemma dominates_rows rows first last c :
  extent_ok rows first last → dominates c last = true ↔ ∀ r, r ∈ rows → row_covered c r.
Proof.
  intros [Ha Ht _]. rewrite dominates_covers. unfold covers, row_covered in *. split.
  - intros Hc r Hr. specialize (Ha r Hr). specialize (Hc (row_partition r)). lia.
  - intros Hc k. destruct (decide (pos_get last k = 0)) as [->|Hk]; [lia|].
    destruct (Ht k Hk) as (r & Hr & <- & <-). by apply Hc.
Qed.

(** Rows leave the buffer with the segments that are dropped, and nothing else does. *)
Lemma drop_rows l c :
  ∃ gone, concat (sg_batch <$> filter (fun s => dominates c (sg_last s) = false) l) ++ gone ≡ₚ concat (sg_batch <$> l) ∧
    (Forall (fun s => extent_ok (sg_batch s) (sg_first s) (sg_last s)) l → Forall (row_covered c) gone).
Proof.
  induction l as [|s l (gone & Hp & Hg)]; [by exists []|]. rewrite filter_cons. case_decide as E.
  - exists gone. cbn. rewrite <- app_assoc, Hp. split; [done|]. intros [_ Hl]%Forall_cons. by apply Hg.
  - exists (sg_batch s ++ gone). split.
    + cbn. rewrite <- Hp. rewrite !app_assoc. by rewrite (Permutation_app_comm _ (sg_batch s)).
    + intros [Hs Hl]%Forall_cons. apply Forall_app. split; [|by apply Hg]. rewrite Forall_forall.
      apply (dominates_rows _ _ _ _ Hs). by destruct (dominates c (sg_last s)).
Qed.

Lemma buffer_op_rows b op :
  buffer_inv b → ∃ gone, buffered (buffer_step b op) ++ gone ≡ₚ buffered b ++ op_rows op ∧
    Forall (fun r => ∃ c, op = DropCommitted c ∧ row_covered c r) gone.
Proof.
  intros [Ha Hs]. unfold buffered. destruct op as [p o e| |c]; cbn [buffer_step op_rows].
  - exists []. cbn. rewrite app_nil_r, app_assoc. by split.
  - exists []. split; [|constructor]. rewrite !app_nil_r. unfold seal_active.
    case_match; cbn; [done|]. rewrite fmap_app, concat_app, !app_nil_r. cbn. rewrite app_nil_r. by rewrite edge_sort_perm.
  - destruct (drop_rows (sealed b) c) as (gone & Hp & Hg). exists gone. cbn. rewrite app_nil_r. split.
    + rewrite <- Hp, <- !app_assoc. by rewrite (Permutation_app_comm gone).
    + eapply Forall_impl; [apply Hg; eapply Forall_impl; [exact Hs|naive_solver]|]. cbn. eauto.
Qed.

Lemma buffer_ops_rows ops : ∀ b, buffer_inv b →
  ∃ gone, buffered (foldl buffer_step b ops) ++ gone ≡ₚ buffered b ++ (ops ≫= op_rows) ∧
    Forall (fun r => ∃ c, DropCommitted c ∈ ops ∧ row_covered c r) gone.
Proof.
  induction ops as [|op ops IH]; intros b Hb; [exists []; cbn; by rewrite !app_nil_r|].
  destruct (buffer_op_rows b op Hb) as (g1 & Hp1 & Hg1). destruct (IH _ (buffer_op_inv b op Hb)) as (g2 & Hp2 & Hg2).
  exists (g2 ++ g1). cbn [foldl mbind list_bind]. split.
  - rewrite app_assoc, Hp2, <- app_assoc, (Permutation_app_comm _ g1), app_assoc, Hp1. by rewrite <- app_assoc.
  - apply Forall_app. split; (eapply Forall_impl; [eassumption|]); cbn.
    + intros r (c & Hc & Hr). exists c. split; [by right|done].
    + intros r (c & -> & Hr). exists c. split; [by left|done].
Qed.
End keeps.

(** C29. Through any sequence of appends, seals and prunes, every row appended is either
    still buffered or was dropped by a prune whose committed position covers it, each row
    once and none made up; and a prune drops a sealed segment exactly when the position
    covers every row of it, in every partition. *)
Theorem buffer_drops_only_durable `{EdgeSort} (ops : list buffer_op) (c : StreamPosition) :
  let b := foldl buffer_step buffer_new ops in
  (∃ gone, buffered b ++ gone ≡ₚ (ops ≫= op_rows) ∧
    Forall (fun r => ∃ c', DropCommitted c' ∈ ops ∧ row_covered c' r) gone) ∧
  ∀ s, s ∈ sealed (drop_committed b c).2 ↔ s ∈ sealed b ∧ ∃ r, r ∈ sg_batch s ∧ ¬ row_covered c r.
Proof.
  intros b. split; [apply (buffer_ops_rows ops buffer_new), buffer_new_inv|]. intros s.
  assert (buffer_inv b) as [_ Hs] by apply buffer_ops_inv, buffer_new_inv. rewrite Forall_forall in Hs.
  cbn. rewrite list_elem_of_filter. split; intros [H1 H2]; (split; [try done|try done]).
  - destruct (Hs s H2) as [He _].
    destruct (decide (Exists (fun r => ¬ row_covered c r) (sg_batch s))) as [Hx|Hx];
      [by apply Exists_exists in Hx|].
    exfalso. apply not_Exists_Forall in Hx; [|apply _]. rewrite Forall_forall in Hx.
    assert (dominates c (sg_last s) = true); [|congruence]. apply (dominates_rows _ _ _ _ He).
    intros r Hr. by apply dec_stable, (Hx r Hr).
  - destruct H2 as (r & Hr & Hn). destruct (dominates c (sg_last s)) eqn:Hd; [|done]. exfalso. apply Hn.
    destruct (Hs s H1) as [He _]. by apply (dominates_rows _ _ _ _ He).
Qed.

#[export] Instance row_le_total : Total row_le.
Proof. intros a b. unfold row_le. lia. Qed.

(** One such sort. *)
Definition merge_edge_sort : EdgeSort := {|
  edge_sort := merge_sort row_le;
  edge_sort_perm := merge_sort_Permutation row_le;
  edge_sort_sorted := Sorted_merge_sort row_le;
|}.

Lemma buffer_drops_only_durable_witness :
  let ops := [Append 0 10 (mkEvent 1 2 Global 0 None); Append 3 4 (mkEvent 3 4 (Scoped [7; 9]) 0 None); Seal] in
  let b := foldl (@buffer_step merge_edge_sort) buffer_new ops in
  length (buffered b) = 3%nat ∧
  ∀ s, s ∈ sealed (drop_committed b (single 99)).2 ↔ s ∈ sealed b ∧ ∃ r, r ∈ sg_batch s ∧ ¬ row_covered (single 99) r.
Proof.
  intros ops b. split; [by vm_compute|]. exact (proj2 (@buffer_drops_only_durable merge_edge_sort ops (single 99))).
Defined.
