(* ===== verification/Pipeline.v ===== *)
(** The single-writer ingest pipeline: [src/ingest/pipeline.rs].

    One task applies each event to the forest and appends it to the buffer under its
    offset. Offsets come with the records of a log ([apply_batch]) or are minted from a
    counter ([run]). *)

From S2P Require Import Prelude Types Stream Graph Dsu RoutingBase Forest Buffer.

(** [Record] of [src/ingest/log.rs]. *)
Record LogRecord := mkRecord { rec_partition : PartitionId; rec_offset : N; rec_event : EdgeEvent }.

Record PipelineStats := mkPipelineStats { last_offset : N; position : StreamPosition }.

Record Pipeline := mkPipeline { pl_forest : ScopedForest; pl_buffer : EdgeBuffer; pl_stats : PipelineStats }.

(** [Pipeline::resuming] and [Pipeline::new]. *)
Definition resuming (forest : ScopedForest) (buffer : EdgeBuffer) (start : StreamPosition) : Pipeline :=
  mkPipeline forest buffer (mkPipelineStats (pos_get start 0) start).

Definition pipeline_new (forest : ScopedForest) (buffer : EdgeBuffer) (start_offset : N) : Pipeline :=
  resuming forest buffer (single start_offset).

Inductive ingest_error :=
| OffsetZero
| OutOfOrder (partition : PartitionId) (offset previous : N)
| BlankLine (offset : N)
| BadRecord (offset : N)
| PastEnd (partition : PartitionId) (offset next : N)
| NoPartitions
| LogIo
| IngestFuel.

(** The forest and the buffer take a record; the position follows. *)
Definition ingest_one (p : Pipeline) (r : LogRecord) : Pipeline :=
  mkPipeline (apply (pl_forest p) (rec_event r))
    (append (pl_buffer p) (rec_partition r) (rec_offset r) (rec_event r))
    (mkPipelineStats (last_offset (pl_stats p)) (advance (position (pl_stats p)) (rec_partition r) (rec_offset r))).

(** The loop of [Pipeline::apply_batch]; [seen] is the highest offset of each partition in
    this batch. What was applied before an error stays applied. *)
Fixpoint apply_records (seen : StreamPosition) (p : Pipeline) (records : list LogRecord)
    : result ingest_error unit * Pipeline :=
  match records with
  | [] => (Ok tt, p)
  | r :: records =>
      if rec_offset r =? 0 then (Err OffsetZero, p) else
      let previous := pos_get seen (rec_partition r) in
      if (rec_offset r <=? previous) && negb (previous =? 0) then
        (Err (OutOfOrder (rec_partition r) (rec_offset r) previous), p)
      else
        let seen := advance seen (rec_partition r) (rec_offset r) in
        if rec_offset r <=? pos_get (position (pl_stats p)) (rec_partition r) then apply_records seen p records
        else apply_records seen (ingest_one p r) records
  end.

(** [Pipeline::apply_batch]. *)
Definition apply_batch (p : Pipeline) (records : list LogRecord) : result ingest_error N * Pipeline :=
  match apply_records pos_new p records with
  | (Err e, p) => (Err e, p)
  | (Ok _, p) =>
      let zero := pos_get (position (pl_stats p)) 0 in
      (Ok zero, mkPipeline (pl_forest p) (pl_buffer p) (mkPipelineStats zero (position (pl_stats p))))
  end.

(** One event of [Pipeline::run]: the counter is bumped, the position is not yet. *)
Definition mint_one (p : Pipeline) (event : EdgeEvent) : Pipeline :=
  let offset := last_offset (pl_stats p) ⊞ 1 in
  mkPipeline (apply (pl_forest p) event) (append (pl_buffer p) 0 offset event)
    (mkPipelineStats offset (position (pl_stats p))).

(** [Pipeline::run] on the batches the channel hands out. *)
Definition run_one (p : Pipeline) (batch : list EdgeEvent) : Pipeline :=
  let p := foldl mint_one p batch in
  mkPipeline (pl_forest p) (pl_buffer p)
    (mkPipelineStats (last_offset (pl_stats p)) (advance (position (pl_stats p)) 0 (last_offset (pl_stats p)))).

Definition run (p : Pipeline) (batches : list (list EdgeEvent)) : Pipeline := foldl run_one p batches.
