(* ===== verification/Log.v ===== *)
(** Ingest from a partitioned log of files: [src/ingest/log.rs].

    A file is its bytes and the position its reader stands at. The text of a record is
    parsed by [serde_json], a parameter. *)

From S2P Require Import Prelude Types Bytes Stream Decimal Graph Dsu RoutingBase Forest Buffer ObjectStore Catalog Pipeline.

(** ** Sources *)

(** [LogSource]. *)
Class LogSource (S : Type) := {
  poll : S → nat → result ingest_error (list LogRecord) * S;
  seek : S → StreamPosition → result ingest_error unit * S;
  is_live : S → bool;
}.

(** [LogSource::seek_after]. *)
Definition seek_after {S} `{LogSource S} (s : S) (offset : N) : result ingest_error unit * S := seek s (single offset).

(** ** Text *)

Definition newline : N := 10.
Definition carriage_return : N := 13.

(** [read_until(b'\n')]: up to and including the first newline. *)
Fixpoint read_until (l : bytes) : bytes :=
  match l with
  | [] => []
  | b :: l => if b =? newline then [b] else b :: read_until l
  end.

(** [trim_end_matches(['\n', '\r'])], on the reversed line. *)
Fixpoint drop_ends (l : bytes) : bytes :=
  match l with
  | b :: l' => if (b =? newline) || (b =? carriage_return) then drop_ends l' else l
  | [] => []
  end.

Definition trim_end (l : bytes) : bytes := reverse (drop_ends (reverse l)).

Definition continuation (b : N) : bool := (128 <=? b) && (b <? 192).

(** [str::from_utf8], by the table of well-formed sequences. *)
Fixpoint utf8 (l : bytes) : bool :=
  match l with
  | [] => true
  | a :: l1 =>
      if a <? 128 then utf8 l1
      else
        match l1 with
        | [] => false
        | b :: l2 =>
            if (194 <=? a) && (a <? 224) then continuation b && utf8 l2
            else
              match l2 with
              | [] => false
              | c :: l3 =>
                  if (224 <=? a) && (a <? 240) then
                    continuation b && (if a =? 224 then 160 <=? b else true) && (if a =? 237 then b <? 160 else true) &&
                    continuation c && utf8 l3
                  else
                    match l3 with
                    | [] => false
                    | d :: l4 =>
                        (240 <=? a) && (a <? 245) && continuation b && (if a =? 240 then 144 <=? b else true) &&
                        (if a =? 244 then b <? 144 else true) && continuation c && continuation d && utf8 l4
                    end
              end
        end
  end.

(** ** One file *)

Record FileLog := mkFileLog {
  fl_partition : PartitionId;
  fl_data : bytes;
  fl_at : nat;
  fl_next : N;
  fl_follow : bool;
}.

(** [FileLog::open] and [as_partition]. *)
Definition file_open (data : bytes) (follow : bool) : FileLog := mkFileLog 0 data 0 0 follow.

Definition as_partition (l : FileLog) (partition : PartitionId) : FileLog :=
  mkFileLog partition (fl_data l) (fl_at l) (fl_next l) (fl_follow l).

Definition set_at (l : FileLog) (at_ : nat) : FileLog :=
  mkFileLog (fl_partition l) (fl_data l) at_ (fl_next l) (fl_follow l).

Definition set_next (l : FileLog) (next : N) : FileLog :=
  mkFileLog (fl_partition l) (fl_data l) (fl_at l) next (fl_follow l).

(** [FileLog::read_line]: an unfinished line is left for later. *)
Definition read_line (l : FileLog) : result ingest_error (option bytes) * FileLog :=
  let line := read_until (drop (fl_at l) (fl_data l)) in
  if bool_decide (line = []) then (Ok None, l)
  else if negb (utf8 line) then (Err LogIo, set_at l (fl_at l + length line))
  else if bool_decide (last line = Some newline) then (Ok (Some (trim_end line)), set_at l (fl_at l + length line))
  else (Ok None, l).

Section file.
Context (from_json : bytes → option EdgeEvent).

(** The loop of [FileLog::poll]; [room] is what is left of [max]. *)
Fixpoint poll_loop (room : nat) (l : FileLog) (out : list LogRecord) : result ingest_error (list LogRecord) * FileLog :=
  match room with
  | O => (Ok out, l)
  | S room =>
      match read_line l with
      | (Err e, l) => (Err e, l)
      | (Ok None, l) => (Ok out, l)
      | (Ok (Some line), l) =>
          if bool_decide (line = []) then (Err (BlankLine (fl_next l ⊞ 1)), l)
          else
            match from_json line with
            | None => (Err (BadRecord (fl_next l ⊞ 1)), l)
            | Some event =>
                let l := set_next l (fl_next l ⊞ 1) in
                poll_loop room l (out ++ [mkRecord (fl_partition l) (fl_next l) event])
            end
      end
  end.

Definition file_poll (l : FileLog) (max : nat) : result ingest_error (list LogRecord) * FileLog := poll_loop max l [].

(** The scan of [FileLog::seek]: lines are counted, finished or not. *)
Fixpoint skip_lines (fuel : nat) (offset : N) (l : FileLog) : result ingest_error unit * FileLog :=
  if fl_next l <? offset then
    match fuel with
    | O => (Err IngestFuel, l)
    | S fuel =>
        let line := read_until (drop (fl_at l) (fl_data l)) in
        if bool_decide (line = []) then (Err (PastEnd (fl_partition l) offset (fl_next l)), l)
        else skip_lines fuel offset (set_next (set_at l (fl_at l + length line)) (fl_next l ⊞ 1))
    end
  else (Ok tt, l).

Definition file_seek (l : FileLog) (position : StreamPosition) : result ingest_error unit * FileLog :=
  let offset := pos_get position (fl_partition l) in
  skip_lines (S (length (fl_data l))) offset (set_next (set_at l 0) 0).

#[export] Instance file_source : LogSource FileLog := {
  poll := file_poll;
  seek := file_seek;
  is_live := fl_follow;
}.

(** ** A directory of files *)

Record PartitionedLog := mkPartitioned { parts : list FileLog }.

(** The partition a file name carries. *)
Definition name_partition (name : string) : option PartitionId :=
  rest ← strip_prefix "partition-" name; id ← strip_suffix ".ndjson" rest; parse_u32 id.

(** Insertion by partition, then by name: [sort_unstable] on pairs. *)
Definition found_le (a b : PartitionId * string * bytes) : bool :=
  (a.1.1 <? b.1.1) || ((a.1.1 =? b.1.1) && String.leb a.1.2 b.1.2).

Fixpoint insert_found (x : PartitionId * string * bytes) (l : list (PartitionId * string * bytes)) :=
  match l with
  | [] => [x]
  | y :: l => if found_le x y then x :: y :: l else y :: insert_found x l
  end.

Definition sort_found (l : list (PartitionId * string * bytes)) := foldr insert_found [] l.

(** [PartitionedLog::open_dir], on the entries of the directory. *)
Definition open_dir (dir : list (string * bytes)) (follow : bool) : result ingest_error PartitionedLog :=
  let found := omap (fun e => id ← name_partition e.1; Some (id, e.1, e.2)) dir in
  if bool_decide (found = []) then Err NoPartitions
  else Ok (mkPartitioned ((fun f => as_partition (file_open f.2 follow) f.1.1) <$> sort_found found)).

Definition ceil_div (a b : nat) : nat := ((a + b - 1) / b)%nat.

Fixpoint poll_parts (share : nat) (ps : list FileLog) : result ingest_error (list LogRecord) * list FileLog :=
  match ps with
  | [] => (Ok [], [])
  | p :: ps =>
      match file_poll p share with
      | (Err e, p) => (Err e, p :: ps)
      | (Ok out, p) =>
          match poll_parts share ps with
          | (Err e, ps) => (Err e, p :: ps)
          | (Ok rest, ps) => (Ok (out ++ rest), p :: ps)
          end
      end
  end.

Definition parts_poll (l : PartitionedLog) (max : nat) : result ingest_error (list LogRecord) * PartitionedLog :=
  let share := Nat.max (ceil_div max (length (parts l))) 1 in
  let '(r, ps) := poll_parts share (parts l) in (r, mkPartitioned ps).

Fixpoint seek_parts (position : StreamPosition) (ps : list FileLog) : result ingest_error unit * list FileLog :=
  match ps with
  | [] => (Ok tt, [])
  | p :: ps =>
      match file_seek p position with
      | (Err e, p) => (Err e, p :: ps)
      | (Ok _, p) => let '(r, ps) := seek_parts position ps in (r, p :: ps)
      end
  end.

Definition parts_seek (l : PartitionedLog) (position : StreamPosition) : result ingest_error unit * PartitionedLog :=
  let '(r, ps) := seek_parts position (parts l) in (r, mkPartitioned ps).

#[export] Instance parts_source : LogSource PartitionedLog := {
  poll := parts_poll;
  seek := parts_seek;
  is_live := fun l => existsb fl_follow (parts l);
}.
End file.

(** ** The consumer *)

(** [ConsumerConfig], less the time it sleeps. *)
Record ConsumerConfig := mkConsumer { batch : nat }.

Definition consumer_default : ConsumerConfig := mkConsumer 10000.

(** The loop of [consume] for [turns] turns; [stop] is what the stop flag reads at each
    turn. [None] is a loop still running. *)
Fixpoint consume_loop {S} `{LogSource S} (turns : nat) (stop : nat → bool) (cfg : ConsumerConfig) (s : S) (p : Pipeline) (last : N)
    : option (result ingest_error N * S * Pipeline) :=
  match turns with
  | O => None
  | Datatypes.S turns =>
      if stop 0%nat then Some (Ok last, s, p)
      else
        match poll s (batch cfg) with
        | (Err e, s) => Some (Err e, s, p)
        | (Ok [], s) =>
            if is_live s then consume_loop turns (fun n => stop (Datatypes.S n)) cfg s p last else Some (Ok last, s, p)
        | (Ok records, s) =>
            match apply_batch p records with
            | (Err e, p) => Some (Err e, s, p)
            | (Ok last, p) => consume_loop turns (fun n => stop (Datatypes.S n)) cfg s p last
            end
        end
  end.

(** [consume]. *)
Definition consume {S} `{LogSource S} (turns : nat) (stop : nat → bool) (cfg : ConsumerConfig) (s : S) (p : Pipeline)
    : option (result ingest_error N * S * Pipeline) :=
  consume_loop turns stop cfg s p (last_offset (pl_stats p)).

(** Where a worker resumes: the newest committed position, or the scalar watermark when
    there is no snapshot (the start-up of [src/main.rs]). *)
Definition start_position (latest : option SnapshotMeta) (watermark : N) : StreamPosition :=
  match latest with Some snapshot => stream_position snapshot | None => single watermark end.
