(* ===== verification/LogInv.v ===== *)
(** What a log delivers: every finished line once, under its line number, from where it was
    told to start; and what the pipeline makes of it. *)

From S2P Require Import Prelude Types Bytes Stream Decimal Graph Dsu RoutingBase Forest ForestInv Buffer ObjectStore Catalog Pipeline Log.

(** ** Lines *)

Lemma read_until_line line rest : newline ∉ line → read_until (line ++ newline :: rest) = line ++ [newline].
Proof.
  induction line as [|b line IH]; intros Hn; [done|]. cbn [app read_until].
  destruct (N.eqb_spec b newline) as [->|Hb]; [exfalso; apply Hn; left|]. f_equal. apply IH. intros H. apply Hn. by right.
Qed.

Lemma read_until_tail tail : newline ∉ tail → read_until tail = tail.
Proof.
  induction tail as [|b tail IH]; intros Hn; [done|]. cbn [read_until].
  destruct (N.eqb_spec b newline) as [->|Hb]; [exfalso; apply Hn; left|]. f_equal. apply IH. intros H. apply Hn. by right.
Qed.

Lemma read_until_length l : (length (read_until l) <= length l)%nat.
Proof. induction l as [|b l IH]; cbn [read_until]; [done|]. destruct (b =? newline); cbn; lia. Qed.

Lemma read_until_nil l : read_until l = [] → l = [].
Proof. destruct l as [|b l]; [done|]. cbn [read_until]. by destruct (b =? newline). Qed.

Lemma set_at_next l a n b m : set_next (set_at (set_next (set_at l a) n) b) m = set_next (set_at l b) m.
Proof. done. Qed.

Section file.
Context (from_json : bytes → option EdgeEvent).

(** Text whose finished lines are records, with an unfinished one at most. *)
Inductive holds : bytes → list EdgeEvent → Prop :=
| holds_tail tail : newline ∉ tail → utf8 tail = true → holds tail []
| holds_line line e rest evs :
    newline ∉ line → utf8 (line ++ [newline]) = true → trim_end (line ++ [newline]) ≠ [] →
    from_json (trim_end (line ++ [newline])) = Some e → holds rest evs →
    holds (line ++ newline :: rest) (e :: evs).

(** The records of a run of events, numbered from [next]. *)
Fixpoint numbered (partition : PartitionId) (next : N) (evs : list EdgeEvent) : list LogRecord :=
  match evs with
  | [] => []
  | e :: evs => mkRecord partition (next + 1) e :: numbered partition (next + 1) evs
  end.

Lemma length_numbered p n evs : length (numbered p n evs) = length evs.
Proof using. revert n. induction evs as [|e evs IH]; intros n; cbn; [done|]. by rewrite IH. Qed.

Lemma numbered_app p n a b : numbered p n (a ++ b) = numbered p n a ++ numbered p (n + N.of_nat (length a)) b.
Proof using.
  revert n. induction a as [|e a IH]; intros n; cbn [app numbered length]; [f_equal; lia|]. rewrite IH. do 2 f_equal. f_equal. lia.
Qed.

Lemma numbered_events p n evs : rec_event <$> numbered p n evs = evs.
Proof using. revert n. induction evs as [|e evs IH]; intros n; cbn; [done|]. by rewrite IH. Qed.

(** A file read up to some line, with [evs] to go. *)
Record file_at (l : FileLog) (next : N) (evs : list EdgeEvent) : Prop := {
  fa_holds : holds (drop (fl_at l) (fl_data l)) evs;
  fa_next : fl_next l = next;
}.

Lemma read_line_holds l next e evs :
  file_at l next (e :: evs) →
  ∃ line, read_line l = (Ok (Some line), set_at l (fl_at l + length (read_until (drop (fl_at l) (fl_data l))))) ∧
    line ≠ [] ∧ from_json line = Some e ∧
    holds (drop (fl_at l + length (read_until (drop (fl_at l) (fl_data l)))) (fl_data l)) evs.
Proof using.
  intros [Hh _]. remember (drop (fl_at l) (fl_data l)) as text eqn:Et. revert Et.
  inversion Hh as [|line e' rest evs' Hn Hu Hne Hj Hr]; subst. intros Et. unfold read_line. rewrite <- Et.
  rewrite read_until_line by done. exists (trim_end (line ++ [newline])).
  rewrite bool_decide_eq_false_2 by (by destruct line). rewrite Hu. cbn [negb].
  rewrite bool_decide_eq_true_2 by (by rewrite last_snoc). split_and!; [done|done|done|].
  rewrite <- drop_drop, <- Et. replace (line ++ newline :: rest) with ((line ++ [newline]) ++ rest) by (by rewrite <- app_assoc).
  by rewrite drop_app_length.
Qed.

Lemma read_line_end l next : file_at l next [] → read_line l = (Ok None, l).
Proof using.
  intros [Hh _]. inversion Hh as [tail Hn Hu E|]; subst. unfold read_line. rewrite read_until_tail by done.
  rewrite Hu. cbn [negb]. case_bool_decide; [done|]. rewrite bool_decide_eq_false_2; [done|].
  intros Hl. apply Hn. by apply last_Some_elem_of.
Qed.

Lemma poll_loop_holds room : ∀ l next evs out,
  file_at l next evs → next + N.of_nat (length evs) < u64_limit →
  ∃ l', poll_loop from_json room l out = (Ok (out ++ numbered (fl_partition l) next (take room evs)), l') ∧
    file_at l' (next + N.of_nat (length (take room evs))) (drop room evs) ∧
    fl_partition l' = fl_partition l ∧ fl_data l' = fl_data l ∧ fl_follow l' = fl_follow l.
Proof using.
  induction room as [|room IH]; intros l next evs out F Hb; cbn [poll_loop].
  { exists l. rewrite take_0, drop_0. cbn. rewrite app_nil_r, N.add_0_r. done. }
  destruct evs as [|e evs].
  { rewrite (read_line_end l next F). exists l. cbn. rewrite app_nil_r, N.add_0_r. done. }
  destruct (read_line_holds l next e evs F) as (line & E & Hne & Hj & Hh). rewrite E.
  rewrite bool_decide_eq_false_2 by done. rewrite Hj. cbn [fl_next set_at fl_partition set_next].
  rewrite (fa_next _ _ _ F). cbn [length] in Hb. rewrite wadd64_small by lia.
  match goal with |- context [poll_loop from_json room ?l2 ?o] => destruct (IH l2 (next + 1) evs o) as (l' & E' & F' & P1 & P2 & P3) end.
  { split; [exact Hh|done]. } { lia. }
  exists l'. rewrite E'. cbn [take drop numbered length fl_partition set_next set_at]. rewrite <- app_assoc. split; [done|].
  split_and!; [|done..]. destruct F' as [G1 G2]. split; [exact G1|]. rewrite G2. lia.
Qed.

Lemma file_poll_holds l next evs max :
  file_at l next evs → next + N.of_nat (length evs) < u64_limit →
  ∃ l', file_poll from_json l max = (Ok (numbered (fl_partition l) next (take max evs)), l') ∧
    file_at l' (next + N.of_nat (length (take max evs))) (drop max evs) ∧
    fl_partition l' = fl_partition l ∧ fl_data l' = fl_data l ∧ fl_follow l' = fl_follow l.
Proof using. intros F Hb. exact (poll_loop_holds max l next evs [] F Hb). Qed.

(** Seeking skips as many lines as were committed. *)
Lemma skip_lines_holds fuel : ∀ l next evs offset,
  file_at l next evs → next <= offset → offset <= next + N.of_nat (length evs) → offset < u64_limit →
  (N.to_nat (offset - next) <= fuel)%nat →
  ∃ l', skip_lines fuel offset l = (Ok tt, l') ∧ file_at l' offset (drop (N.to_nat (offset - next)) evs) ∧
    fl_partition l' = fl_partition l ∧ fl_data l' = fl_data l ∧ fl_follow l' = fl_follow l.
Proof using.
  induction fuel as [|fuel IH]; intros l next evs offset F Hlo Hhi Hb Hf; cbn [skip_lines]; rewrite (fa_next _ _ _ F);
    destruct (N.ltb_spec next offset) as [Hlt|Hge]; try lia.
  1,3: exists l; replace (offset - next) with 0 by lia; assert (next = offset) as -> by lia; done.
  destruct evs as [|e evs]; [cbn in Hhi; lia|]. destruct (read_line_holds l next e evs F) as (line & E & Hne & Hj & Hh).
  rewrite bool_decide_eq_false_2.
  2:{ intros Hnil. unfold read_line in E. rewrite Hnil in E. by rewrite bool_decide_eq_true_2 in E. }
  rewrite wadd64_small by lia.
  destruct (IH (set_next (set_at l (fl_at l + length (read_until (drop (fl_at l) (fl_data l))))) (next + 1)) (next + 1) evs offset)
    as (l' & E' & F' & P); [by split|lia|cbn [length] in Hhi; lia|done|lia|].
  exists l'. split; [done|]. split; [|done]. replace (N.to_nat (offset - next)) with (S (N.to_nat (offset - (next + 1)))) by lia. done.
Qed.

Lemma holds_length text evs : holds text evs → (length evs <= length text)%nat.
Proof using. induction 1 as [|line e rest evs _ _ _ _ _ IH]; cbn; [lia|]. rewrite length_app. cbn. lia. Qed.

Lemma file_seek_holds l evs c :
  holds (fl_data l) evs → pos_get c (fl_partition l) <= N.of_nat (length evs) → N.of_nat (length evs) < u64_limit →
  ∃ l', file_seek l c = (Ok tt, l') ∧
    file_at l' (pos_get c (fl_partition l)) (drop (N.to_nat (pos_get c (fl_partition l))) evs) ∧
    fl_partition l' = fl_partition l ∧ fl_data l' = fl_data l ∧ fl_follow l' = fl_follow l.
Proof using.
  intros H Hc Hb. unfold file_seek. pose proof (holds_length _ _ H) as Hl. set (o := pos_get c (fl_partition l)) in *.
  destruct (skip_lines_holds (S (length (fl_data l))) (set_next (set_at l 0) 0) 0 evs o) as (l' & E & F & P).
  { split; [by rewrite drop_0|done]. } { lia. } { lia. } { lia. } { lia. }
  exists l'. rewrite N.sub_0_r in F. done.
Qed.
End file.
