(* ===== verification/LogProps.v ===== *)
(** Restarts and redelivery: a log consumed from a committed position is ingested exactly
    once. *)

From S2P Require Import Prelude Types Bytes Stream Decimal Graph Dsu View RoutingBase Forest ForestInv Compaction FoldInv Buffer ObjectStore Catalog.
From S2P Require Import Pipeline Log LogInv.

(** ** Batches *)

(** Each record is the next of its partition, past the position. *)
Fixpoint fresh (c : StreamPosition) (rs : list LogRecord) : Prop :=
  match rs with
  | [] => True
  | r :: rs => pos_get c (rec_partition r) < rec_offset r ∧ fresh (advance c (rec_partition r) (rec_offset r)) rs
  end.

Definition advance_all (c : StreamPosition) (rs : list LogRecord) : StreamPosition :=
  foldl (fun c r => advance c (rec_partition r) (rec_offset r)) c rs.

Lemma fresh_app c a b : fresh c (a ++ b) ↔ fresh c a ∧ fresh (advance_all c a) b.
Proof. revert c. induction a as [|r a IH]; intros c; cbn; [tauto|]. rewrite IH. tauto. Qed.

Lemma ingest_position p r : position (pl_stats (ingest_one p r)) = advance (position (pl_stats p)) (rec_partition r) (rec_offset r).
Proof. done. Qed.

(** A fresh batch is applied record for record. *)
Lemma apply_records_fresh rs : ∀ seen p,
  fresh (position (pl_stats p)) rs → (∀ q, pos_get seen q <= pos_get (position (pl_stats p)) q) →
  apply_records seen p rs = (Ok tt, foldl ingest_one p rs).
Proof.
  induction rs as [|r rs IH]; intros seen p Hf Hs; cbn [apply_records foldl]; [done|]. destruct Hf as [Hlt Hf].
  destruct (N.eqb_spec (rec_offset r) 0) as [E|_]; [lia|]. specialize (Hs (rec_partition r)) as Hr.
  destruct (N.leb_spec (rec_offset r) (pos_get seen (rec_partition r))) as [Hle|_]; [lia|]. cbn [andb].
  destruct (N.leb_spec (rec_offset r) (pos_get (position (pl_stats p)) (rec_partition r))) as [Hle|_]; [lia|].
  apply IH; [done|]. intros q. rewrite ingest_position, !pos_get_advance. specialize (Hs q). case_decide; lia.
Qed.

(** What the records of a batch leave behind. *)
Definition append_record (b : EdgeBuffer) (r : LogRecord) : EdgeBuffer := append b (rec_partition r) (rec_offset r) (rec_event r).

Record ingested (p : Pipeline) (rs : list LogRecord) (p' : Pipeline) : Prop := {
  ig_forest : pl_forest p' = foldl apply (pl_forest p) (rec_event <$> rs);
  ig_buffer : pl_buffer p' = foldl append_record (pl_buffer p) rs;
  ig_position : position (pl_stats p') = advance_all (position (pl_stats p)) rs;
}.

Lemma ingested_all rs : ∀ p, ingested p rs (foldl ingest_one p rs).
Proof.
  induction rs as [|r rs IH]; intros p; cbn [foldl]; [by split|]. destruct (IH (ingest_one p r)) as [H1 H2 H3]. by split.
Qed.

Lemma ingested_trans p a p1 b p2 : ingested p a p1 → ingested p1 b p2 → ingested p (a ++ b) p2.
Proof.
  intros [A1 A2 A3] [B1 B2 B3]. split.
  - by rewrite B1, A1, fmap_app, foldl_app.
  - by rewrite B2, A2, foldl_app.
  - unfold advance_all in *. by rewrite B3, A3, foldl_app.
Qed.

Lemma apply_batch_fresh p rs :
  fresh (position (pl_stats p)) rs →
  ∃ p', apply_batch p rs = (Ok (pos_get (position (pl_stats p')) 0), p') ∧ ingested p rs p' ∧
    last_offset (pl_stats p') = pos_get (position (pl_stats p')) 0.
Proof.
  intros Hf. unfold apply_batch. rewrite apply_records_fresh; [|done|intros q; rewrite pos_get_None; [lia|apply lookup_empty]].
  destruct (ingested_all rs p) as [H1 H2 H3]. set (q := foldl ingest_one p rs) in *.
  exists (mkPipeline (pl_forest q) (pl_buffer q) (mkPipelineStats (pos_get (position (pl_stats q)) 0) (position (pl_stats q)))).
  split; [done|]. split; [by split|done].
Qed.

(** ** Redelivery *)

Lemma apply_records_seen rs : ∀ seen p p',
  apply_records seen p rs = (Ok tt, p') →
  (∀ q, pos_get (position (pl_stats p)) q <= pos_get (position (pl_stats p')) q) ∧
  Forall (fun r => rec_offset r <= pos_get (position (pl_stats p')) (rec_partition r)) rs.
Proof.
  induction rs as [|r rs IH]; intros seen p p'; cbn [apply_records]; [intros [= <-]; by split|].
  destruct (rec_offset r =? 0); [done|]. destruct (_ && _); [done|].
  destruct (N.leb_spec (rec_offset r) (pos_get (position (pl_stats p)) (rec_partition r))) as [Hle|Hgt]; intros E.
  - destruct (IH _ _ _ E) as [H1 H2]. split; [done|]. constructor; [|done]. specialize (H1 (rec_partition r)). lia.
  - destruct (IH _ _ _ E) as [H1 H2]. split.
    + intros q. specialize (H1 q). rewrite ingest_position, pos_get_advance in H1. case_decide; lia.
    + constructor; [|done]. specialize (H1 (rec_partition r)). rewrite ingest_position, pos_get_advance, decide_True in H1 by done. lia.
Qed.

Lemma apply_records_again rs : ∀ seen p p0 p',
  apply_records seen p rs = (Ok tt, p') →
  Forall (fun r => rec_offset r <= pos_get (position (pl_stats p0)) (rec_partition r)) rs →
  apply_records seen p0 rs = (Ok tt, p0).
Proof.
  induction rs as [|r rs IH]; intros seen p p0 p'; cbn [apply_records]; [done|].
  destruct (rec_offset r =? 0); [done|]. destruct (_ && _); [done|]. intros E [Hr Hrs]%Forall_cons.
  destruct (N.leb_spec (rec_offset r) (pos_get (position (pl_stats p0)) (rec_partition r))); [|lia].
  destruct (rec_offset r <=? pos_get (position (pl_stats p)) (rec_partition r)); by eapply IH.
Qed.

(** C21. Redelivery is harmless. Whatever batch a worker has applied, getting it again (as
    a log that delivers at least once may do) changes nothing: no edge is applied, no
    row is buffered a second time, and the position it reports is the same. *)
Theorem redelivery_harmless (p p' : Pipeline) (rs : list LogRecord) (zero : N) :
  apply_batch p rs = (Ok zero, p') → apply_batch p' rs = (Ok zero, p').
Proof.
  unfold apply_batch. destruct (apply_records pos_new p rs) as [[[]|e] p1] eqn:E; [|done]. intros [= <- <-].
  destruct (apply_records_seen _ _ _ _ E) as [_ H].
  rewrite (fun p0 H' => apply_records_again rs pos_new p p0 p1 E H'); [done|exact H].
Qed.

(** ** Partitions side by side *)

Section parts.
Context (from_json : bytes → option EdgeEvent).

(** A partition, the offset it has reached, and what is left of it. *)
Abbreviation part_state := (PartitionId * N * list EdgeEvent)%type.

Definition part_at (l : FileLog) (x : part_state) : Prop :=
  fl_partition l = x.1.1 ∧ file_at from_json l x.1.2 x.2 ∧ fl_follow l = false.

Definition slice_of (share : nat) (x : part_state) : list LogRecord := numbered x.1.1 x.1.2 (take share x.2).

Definition rest_of (share : nat) (x : part_state) : part_state :=
  (x.1.1, x.1.2 + N.of_nat (length (take share x.2)), drop share x.2).

Definition all_of (x : part_state) : list LogRecord := numbered x.1.1 x.1.2 x.2.

Definition in_width (x : part_state) : Prop := x.1.2 + N.of_nat (length x.2) < u64_limit.

Lemma poll_parts_at share ps st :
  Forall2 part_at ps st → Forall in_width st →
  ∃ ps', poll_parts from_json share ps = (Ok (mjoin (slice_of share <$> st)), ps') ∧ Forall2 part_at ps' (rest_of share <$> st).
Proof using.
  induction 1 as [|l x ps st (H1 & H2 & H3) _ IH]; intros Hw; cbn [poll_parts]; [by exists []|].
  apply Forall_cons in Hw as [Hx Hw]. destruct (file_poll_holds from_json l x.1.2 x.2 share H2 Hx) as (l' & -> & F & P1 & _ & P3).
  destruct (IH Hw) as (ps' & -> & Hps). exists (l' :: ps'). rewrite H1. split; [done|]. rewrite fmap_cons.
  constructor; [|done]. split_and!; [cbn; congruence|done|congruence].
Qed.

Lemma slice_rest share x : all_of x = slice_of share x ++ all_of (rest_of share x).
Proof using. unfold all_of, slice_of, rest_of. cbn. by rewrite <- numbered_app, take_drop. Qed.

Lemma slices_rest share st : mjoin (all_of <$> st) ≡ₚ mjoin (slice_of share <$> st) ++ mjoin (all_of <$> (rest_of share <$> st)).
Proof using.
  induction st as [|x st IH]; [done|]. rewrite !fmap_cons, !mjoin_cons, IH, (slice_rest share x). solve_Permutation.
Qed.

(** A position that stands where the partitions do. *)
Definition abreast (c : StreamPosition) (st : list part_state) : Prop := ∀ x, x ∈ st → pos_get c x.1.1 = x.1.2.

Lemma advance_numbered c p n evs k :
  pos_get c p = n → pos_get (advance_all c (numbered p n evs)) k = if decide (p = k) then n + N.of_nat (length evs) else pos_get c k.
Proof using.
  revert c n. induction evs as [|e evs IH]; intros c n Hc; cbn [numbered advance_all foldl].
  { cbn [length]. case_decide as E; [rewrite <- E, Hc; lia|done]. }
  fold (advance_all (advance c p (n + 1)) (numbered p (n + 1) evs)). rewrite IH.
  - cbn [length]. rewrite pos_get_advance. repeat case_decide; try done; lia.
  - rewrite pos_get_advance, decide_True by done. cbn [rec_offset]. lia.
Qed.

Lemma fresh_numbered c p n evs : pos_get c p = n → fresh c (numbered p n evs).
Proof using.
  revert c n. induction evs as [|e evs IH]; intros c n Hc; cbn; [done|]. split; [lia|]. apply IH.
  rewrite pos_get_advance, decide_True by done. cbn [rec_offset]. lia.
Qed.

Lemma fresh_slices share st : ∀ c,
  NoDup st.*1.*1 → abreast c st →
  fresh c (mjoin (slice_of share <$> st)) ∧ abreast (advance_all c (mjoin (slice_of share <$> st))) (rest_of share <$> st) ∧
  ∀ k, k ∉ st.*1.*1 → pos_get (advance_all c (mjoin (slice_of share <$> st))) k = pos_get c k.
Proof using.
  induction st as [|x st IH]; intros c Hn Ha; [split_and!; [done|by intros x ?%elem_of_nil|done]|].
  rewrite !fmap_cons in Hn. apply NoDup_cons in Hn as [Hx Hn]. rewrite !fmap_cons, mjoin_cons.
  assert (pos_get c x.1.1 = x.1.2) as Hc by (apply Ha; left).
  assert (∀ k, pos_get (advance_all c (slice_of share x)) k = if decide (x.1.1 = k) then x.1.2 + N.of_nat (length (take share x.2)) else pos_get c k) as Hk.
  { intros k. unfold slice_of. by rewrite advance_numbered. }
  destruct (IH (advance_all c (slice_of share x)) Hn) as (I1 & I2 & I3).
  { intros y Hy. rewrite Hk, decide_False; [apply Ha; by right|]. intros E. apply Hx. rewrite E.
    by apply (list_elem_of_fmap_2 fst), (list_elem_of_fmap_2 fst). }
  rewrite fresh_app. unfold advance_all in *. rewrite foldl_app. split_and!; [by apply fresh_numbered|done| |].
  - intros y [->|Hy]%elem_of_cons; [|by apply I2]. cbn [rest_of fst snd]. rewrite I3 by done. rewrite Hk, decide_True by done. done.
  - intros k Hkn. rewrite I3 by (intros H; apply Hkn; by right). rewrite Hk, decide_False; [done|]. intros <-. apply Hkn. left.
Qed.

Definition left_over (st : list part_state) : nat := length (mjoin (all_of <$> st)).

Lemma left_over_slice share st :
  (1 <= share)%nat → mjoin (slice_of share <$> st) ≠ [] → (left_over (rest_of share <$> st) < left_over st)%nat.
Proof using.
  intros Hs Hne. unfold left_over. rewrite (slices_rest share st), length_app.
  destruct (mjoin (slice_of share <$> st)); [done|cbn; lia].
Qed.

Lemma drained share st : (1 <= share)%nat → mjoin (slice_of share <$> st) = [] →
  mjoin (all_of <$> st) = [] ∧ ∀ x, x ∈ st → x.2 = [].
Proof using.
  intros Hs. induction st as [|x st IH]; [by split; [|intros x ?%elem_of_nil]|]. rewrite !fmap_cons, !mjoin_cons.
  intros [H1 H2]%app_nil. destruct (IH H2) as [IH1 IH2]. rewrite IH1.
  assert (x.2 = []) as Hx.
  { unfold slice_of in H1. destruct x as [[p n] evs]. cbn in *. destruct share as [|share]; [lia|]. by destruct evs. }
  split; [unfold all_of; by rewrite Hx|]. intros y [->|Hy]%elem_of_cons; [done|by apply IH2].
Qed.

Lemma rest_ids share st : (rest_of share <$> st).*1.*1 = st.*1.*1.
Proof using. rewrite <- !list_fmap_compose. by apply list_fmap_ext. Qed.

Lemma rest_width share st : Forall in_width st → Forall in_width (rest_of share <$> st).
Proof using.
  intros H. apply Forall_fmap. eapply Forall_impl; [exact H|]. intros x Hx. unfold in_width in *. cbn.
  rewrite length_take, length_drop. lia.
Qed.

Local Existing Instance parts_source.

(** Consuming a log to its end delivers all that was left of every partition. *)
Lemma consume_parts cfg turns : ∀ ps st p last stop,
  Forall2 part_at ps st → Forall in_width st → NoDup st.*1.*1 → abreast (position (pl_stats p)) st →
  (∀ n, stop n = false) → (left_over st < turns)%nat →
  ∃ last' ps' p' rs, @consume_loop _ (parts_source from_json) turns stop cfg (mkPartitioned ps) p last =
      Some (Ok last', mkPartitioned ps', p') ∧
    rs ≡ₚ mjoin (all_of <$> st) ∧ ingested p rs p' ∧
    ∀ x, x ∈ st → pos_get (position (pl_stats p')) x.1.1 = x.1.2 + N.of_nat (length x.2).
Proof using.
  induction turns as [|turns IH]; intros ps st p last stop Hps Hw Hn Ha Hstop Ht; [lia|]. cbn [consume_loop].
  rewrite Hstop. cbn [poll parts_source]. unfold parts_poll. cbn [parts].
  set (share := Nat.max (ceil_div (batch cfg) (length ps)) 1).
  assert (1 <= share)%nat as Hs1 by (unfold share; lia). clearbody share.
  destruct (poll_parts_at share ps st Hps Hw) as (ps' & -> & Hps').
  destruct (fresh_slices share st _ Hn Ha) as (F1 & F2 & _).
  destruct (mjoin (slice_of share <$> st)) as [|r rs] eqn:Er.
  - cbn [is_live parts_source parts].
    assert (existsb fl_follow ps' = false) as ->.
    { apply not_true_is_false. intros (l & Hl & Hf)%existsb_exists. apply list_elem_of_In, list_elem_of_lookup_1 in Hl as [i Hi].
      destruct (Forall2_lookup_l _ _ _ _ _ Hps' Hi) as (x & _ & _ & _ & E). congruence. }
    exists last, ps', p, []. rewrite (proj1 (drained share st Hs1 Er)). split_and!; [done|done|by split|].
    intros x Hx. rewrite (Ha x Hx), (proj2 (drained share st Hs1 Er) x Hx). cbn. lia.
  - destruct (apply_batch_fresh p _ F1) as (p1 & Ep & G & _). rewrite Ep.
    rewrite <- (ig_position _ _ _ G) in F2.
    destruct (IH ps' (rest_of share <$> st) p1 (pos_get (position (pl_stats p1)) 0) (fun n => stop (S n)))
      as (last' & ps2 & p2 & rs2 & E2 & P2 & G2 & Q2).
    + done.
    + by apply rest_width.
    + by rewrite rest_ids.
    + done.
    + done.
    + assert (left_over (rest_of share <$> st) < left_over st)%nat; [|lia]. apply left_over_slice; [done|by rewrite Er].
    + exists last', ps2, p2, ((r :: rs) ++ rs2). split_and!; [exact E2| |by eapply ingested_trans|].
      * rewrite (slices_rest share st), Er. by apply Permutation_app_head.
      * intros x Hx. specialize (Q2 (rest_of share x) (list_elem_of_fmap_2 _ _ _ Hx)). cbn in Q2. rewrite Q2.
        rewrite length_take, length_drop. lia.
Qed.
End parts.

(** ** Restarting from a committed position *)

(** The rows a record is buffered as. *)
Definition record_rows (r : LogRecord) : list Row := event_rows (rec_partition r) (rec_offset r) (rec_event r).

Lemma buffered_append b r : buffered (append_record b r) = buffered b ++ record_rows r.
Proof. unfold buffered, append_record, append. cbn. by rewrite app_assoc. Qed.

Lemma buffered_append_all rs : ∀ b, buffered (foldl append_record b rs) = buffered b ++ (rs ≫= record_rows).
Proof.
  induction rs as [|r rs IH]; intros b; cbn [foldl]; [by rewrite app_nil_r|]. rewrite IH, buffered_append, bind_cons. by rewrite app_assoc.
Qed.

Lemma visible_same evs evs' s x r :
  (∀ e, e ∈ evs ↔ e ∈ evs') → is_component_min (visible_edges evs s) x r → is_component_min (visible_edges evs' s) x r.
Proof.
  intros HP [H1 H2]. assert (∀ y z, conn (visible_edges evs s) y z ↔ conn (visible_edges evs' s) y z) as Hc.
  { apply conn_same_edges. intros u v. rewrite !elem_of_visible. by setoid_rewrite HP. }
  split; [by apply Hc|]. intros y Hy. by apply H2, Hc.
Qed.

Section replay.
Context (from_json : bytes → option EdgeEvent).

(** A partition: its id, its text, and the events of its finished lines. *)
Abbreviation part_file := (PartitionId * bytes * list EdgeEvent)%type.

Definition readable (c : StreamPosition) (x : part_file) : Prop :=
  holds from_json x.1.2 x.2 ∧ pos_get c x.1.1 <= N.of_nat (length x.2) /\ N.of_nat (length x.2) < u64_limit.

Definition opened (files : list part_file) : PartitionedLog :=
  mkPartitioned ((fun x => as_partition (file_open x.1.2 false) x.1.1) <$> files).

(** What is committed of a partition, and what is not. *)
Definition covered_part (c : StreamPosition) (x : part_file) : list EdgeEvent := take (N.to_nat (pos_get c x.1.1)) x.2.

Definition pending_part (c : StreamPosition) (x : part_file) : PartitionId * N * list EdgeEvent :=
  (x.1.1, pos_get c x.1.1, drop (N.to_nat (pos_get c x.1.1)) x.2).

Lemma seek_opened c files :
  Forall (readable c) files →
  ∃ ps, parts_seek (opened files) c = (Ok tt, mkPartitioned ps) ∧ Forall2 (part_at from_json) ps (pending_part c <$> files).
Proof using.
  unfold parts_seek, opened. cbn [parts]. induction 1 as [|x files (H1 & H2 & H3) _ IH]; [by exists []|].
  destruct IH as (ps & E & Hps). rewrite fmap_cons. cbn [seek_parts].
  destruct (file_seek_holds from_json (as_partition (file_open x.1.2 false) x.1.1) x.2 c H1 H2 H3) as (l & -> & F & P1 & P2 & P3).
  destruct (seek_parts c _) as [r ps']. injection E as -> ->. exists (l :: ps). split; [done|]. rewrite fmap_cons.
  constructor; [|done]. split_and!; [exact P1|exact F|by rewrite P3].
Qed.

(** Events of the log, everything the position covers among them. *)
Record logged (c : StreamPosition) (files : list part_file) (evs : list EdgeEvent) : Prop := {
  lg_covered e : e ∈ mjoin (covered_part c <$> files) → e ∈ evs;
  lg_within e : e ∈ evs → e ∈ mjoin files.*2;
}.

Lemma covered_within c files e : e ∈ mjoin (covered_part c <$> files) → e ∈ mjoin files.*2.
Proof using.
  intros (l & Hl & Hin)%list_elem_of_join. apply list_elem_of_fmap in Hin as (x & -> & Hx).
  apply list_elem_of_join. exists x.2. split; [|by apply list_elem_of_fmap_2].
  unfold covered_part in Hl. rewrite <- (take_drop (N.to_nat (pos_get c x.1.1)) x.2), elem_of_app. by left.
Qed.

Lemma logged_perm c files evs : evs ≡ₚ mjoin (covered_part c <$> files) → logged c files evs.
Proof using. intros HP. split; intros e; rewrite HP; [done|apply covered_within]. Qed.

(** Seeking, then consuming to the end. *)
Lemma replay_ok (files : list part_file) (c : StreamPosition) (cfg : ConsumerConfig) (f : ScopedForest)
    (b : EdgeBuffer) (evs : list EdgeEvent) (turns : nat) :
  Forall (readable c) files → NoDup files.*1.*1 →
  absorbed f evs → logged c files evs →
  (length (mjoin files.*2) < turns)%nat →
  ∃ log log' last p' rs, parts_seek (opened files) c = (Ok tt, log) ∧
    @consume _ (parts_source from_json) turns (fun _ => false) cfg log (resuming f b c) = Some (Ok last, log', p') ∧
    rs ≡ₚ mjoin ((fun x => all_of (pending_part c x)) <$> files) ∧
    pl_forest p' = foldl apply f (rec_event <$> rs) ∧ buffered (pl_buffer p') = buffered b ++ (rs ≫= record_rows) ∧
    (∀ x, x ∈ files → pos_get (position (pl_stats p')) x.1.1 = N.of_nat (length x.2)) ∧
    ∀ s x, is_component_min (visible_edges (mjoin files.*2) s) x (scope_root (pl_forest p') s x).1.
Proof using.
  intros Hr Hn I Hcov Ht. destruct (seek_opened c files Hr) as (ps & Es & Hps).
  destruct (consume_parts from_json cfg turns ps (pending_part c <$> files) (resuming f b c) (pos_get c 0) (fun _ => false))
    as (last & ps' & p' & rs & Ec & P & [G1 G2 G3] & Q).
  - done.
  - apply Forall_fmap. eapply Forall_impl; [exact Hr|]. intros x (_ & H2 & H3). unfold in_width. cbn. rewrite length_drop. lia.
  - rewrite <- !list_fmap_compose. rewrite <- list_fmap_compose in Hn. exact Hn.
  - intros x Hx. apply list_elem_of_fmap in Hx as (y & -> & _). done.
  - done.
  - eapply Nat.le_lt_trans; [|exact Ht]. unfold left_over. clear. induction files as [|x files IH]; [done|].
    rewrite !fmap_cons, !mjoin_cons, !length_app. unfold all_of at 1. rewrite length_numbered. cbn [pending_part snd].
    rewrite length_drop. lia.
  - exists (mkPartitioned ps), (mkPartitioned ps'), last, p', rs. rewrite <- list_fmap_compose in P.
    split_and!; [done|exact Ec|exact P|exact G1| | |].
    + rewrite G2. apply buffered_append_all.
    + intros x Hx. pose proof (Q (pending_part c x) (list_elem_of_fmap_2 _ _ _ Hx)) as Hq. cbn in Hq. rewrite Hq.
      rewrite Forall_forall in Hr. destruct (Hr x Hx) as (_ & H2 & _). rewrite length_drop. lia.
    + intros s x. rewrite G1. eapply visible_same; [|apply absorbed_scope_min, apply_all_absorbed, I].
      assert (mjoin (covered_part c <$> files) ++ (rec_event <$> rs) ≡ₚ mjoin files.*2) as HP.
      { rewrite (fmap_Permutation rec_event _ _ P). clear. induction files as [|y files IH]; [done|].
        rewrite !fmap_cons, !mjoin_cons, fmap_app. cbn [compose]. unfold all_of at 1. rewrite numbered_events.
        transitivity ((covered_part c y ++ drop (N.to_nat (pos_get c y.1.1)) y.2) ++ mjoin files.*2).
        * rewrite <- IH. cbn [pending_part snd fst]. solve_Permutation.
        * unfold covered_part. by rewrite take_drop. }
      intros e. rewrite elem_of_app. split.
      * intros [He|He]; [by apply (lg_within _ _ _ Hcov)|]. rewrite <- HP, elem_of_app. by right.
      * rewrite <- HP, elem_of_app. intros [He|He]; [left; by apply (lg_covered _ _ _ Hcov)|by right].
Qed.

(** C10. A restart loses nothing and repeats nothing. Partition files whose finished lines
    are records are consumed from a committed position by a worker whose forest has
    absorbed what that position covers: seeking succeeds, and consuming to the end
    returns. What it applies and buffers is every later record of every partition, once
    and under its line number, whatever the batch size; the position ends at the last
    line of each partition, and every answer of the forest is the one for all the events
    of the log. *)
Theorem replay_exact (files : list part_file) (c : StreamPosition) (cfg : ConsumerConfig) (f : ScopedForest)
    (b : EdgeBuffer) (evs : list EdgeEvent) (turns : nat) :
  Forall (readable c) files → NoDup files.*1.*1 →
  absorbed f evs → evs ≡ₚ mjoin (covered_part c <$> files) →
  (length (mjoin files.*2) < turns)%nat →
  ∃ log log' last p' rs, parts_seek (opened files) c = (Ok tt, log) ∧
    @consume _ (parts_source from_json) turns (fun _ => false) cfg log (resuming f b c) = Some (Ok last, log', p') ∧
    rs ≡ₚ mjoin ((fun x => all_of (pending_part c x)) <$> files) ∧
    pl_forest p' = foldl apply f (rec_event <$> rs) ∧ buffered (pl_buffer p') = buffered b ++ (rs ≫= record_rows) ∧
    (∀ x, x ∈ files → pos_get (position (pl_stats p')) x.1.1 = N.of_nat (length x.2)) ∧
    ∀ s x, is_component_min (visible_edges (mjoin files.*2) s) x (scope_root (pl_forest p') s x).1.
Proof using. intros H1 H2 H3 H4%logged_perm. by apply (replay_ok files c cfg f b evs turns). Qed.
End replay.

(** ** Minted offsets *)

(** The events of [run] as records of partition 0, numbered by the counter. *)
Lemma minted_all es : ∀ p,
  last_offset (pl_stats p) + N.of_nat (length es) < u64_limit →
  pl_forest (foldl mint_one p es) = foldl apply (pl_forest p) es ∧
  pl_buffer (foldl mint_one p es) = foldl append_record (pl_buffer p) (numbered 0 (last_offset (pl_stats p)) es) ∧
  last_offset (pl_stats (foldl mint_one p es)) = last_offset (pl_stats p) + N.of_nat (length es) ∧
  position (pl_stats (foldl mint_one p es)) = position (pl_stats p).
Proof.
  induction es as [|e es IH]; intros p Hw; cbn [foldl length]; [split_and!; try done; cbn; lia|]. cbn [length] in Hw.
  destruct (IH (mint_one p e)) as (I1 & I2 & I3 & I4); cbn [mint_one pl_stats last_offset pl_forest pl_buffer position] in *;
    rewrite ?wadd64_small in * by lia; [lia|]. split_and!; [exact I1|exact I2|lia|exact I4].
Qed.

Lemma run_spec batches : ∀ p,
  last_offset (pl_stats p) + N.of_nat (length (mjoin batches)) < u64_limit →
  pl_forest (run p batches) = foldl apply (pl_forest p) (mjoin batches) ∧
  pl_buffer (run p batches) = foldl append_record (pl_buffer p) (numbered 0 (last_offset (pl_stats p)) (mjoin batches)) ∧
  last_offset (pl_stats (run p batches)) = last_offset (pl_stats p) + N.of_nat (length (mjoin batches)) ∧
  (pos_get (position (pl_stats p)) 0 = last_offset (pl_stats p) →
   pos_get (position (pl_stats (run p batches))) 0 = last_offset (pl_stats (run p batches))).
Proof.
  unfold run. induction batches as [|es batches IH]; intros p Hw; cbn [foldl]; [split_and!; try done; cbn; lia|].
  rewrite mjoin_cons, length_app in *. destruct (minted_all es p ltac:(lia)) as (M1 & M2 & M3 & M4).
  set (q := run_one p es).
  assert (pl_forest q = pl_forest (foldl mint_one p es)) as Q1 by done.
  assert (pl_buffer q = pl_buffer (foldl mint_one p es)) as Q2 by done.
  assert (last_offset (pl_stats q) = last_offset (pl_stats (foldl mint_one p es))) as Q3 by done.
  assert (position (pl_stats q) = advance (position (pl_stats (foldl mint_one p es))) 0 (last_offset (pl_stats q))) as Q4 by done.
  clearbody q. destruct (IH q) as (I1 & I2 & I3 & I4); [rewrite Q3, M3; lia|].
  rewrite I1, I2, I3, Q1, Q2, Q3, M1, M2, M3, foldl_app, numbered_app, foldl_app. split_and!; [done|done|lia|].
  intros Hp. rewrite <- M3, <- Q3, <- I3. apply I4. rewrite Q4, M4, pos_get_advance, decide_True by done. rewrite Q3, M3. lia.
Qed.

(** ** At work *)

(** Records of two nodes, or of two nodes and a scope. *)
Definition demo_parse (l : bytes) : option EdgeEvent :=
  match l with
  | [a; b] => Some (ev a b Global)
  | [a; b; s] => Some (ev a b (Scoped [s]))
  | _ => None
  end.

Definition demo_files : list (PartitionId * bytes * list EdgeEvent) :=
  [(0, [65; 66; 10; 67; 68; 7; 13; 10], [ev 65 66 Global; ev 67 68 (Scoped [7])]); (3, [66; 67; 10; 70], [ev 66 67 Global])].

Lemma demo_files_readable : Forall (readable demo_parse (single 1)) demo_files.
Proof.
  repeat constructor; cbn.
  - apply (holds_line demo_parse [65; 66]); [set_solver|done|by vm_compute|by vm_compute|].
    apply (holds_line demo_parse [67; 68; 7; 13]); [set_solver|done|by vm_compute|by vm_compute|].
    apply holds_tail; [set_solver|done].
  - done.
  - apply (holds_line demo_parse [66; 67]); [set_solver|done|by vm_compute|by vm_compute|].
    apply holds_tail; [set_solver|done].
  - done.
Qed.

Lemma replay_exact_witness :
  let f := apply forest_new (ev 65 66 Global) in
  ∃ log log' last p' rs, parts_seek (opened demo_files) (single 1) = (Ok tt, log) ∧
    @consume _ (parts_source demo_parse) 4 (fun _ => false) (mkConsumer 1) log (resuming f buffer_new (single 1)) =
      Some (Ok last, log', p') ∧
    rs ≡ₚ [mkRecord 0 2 (ev 67 68 (Scoped [7])); mkRecord 3 1 (ev 66 67 Global)] ∧
    is_component_min (visible_edges (mjoin demo_files.*2) 7) 68 (scope_root (pl_forest p') 7 68).1.
Proof.
  intros f. destruct (replay_exact demo_parse demo_files (single 1) (mkConsumer 1) f buffer_new [ev 65 66 Global] 4
    demo_files_readable) as (log & log' & last & p' & rs & E1 & E2 & P & _ & _ & _ & A).
  - repeat constructor; set_solver.
  - exact (apply_absorbed forest_new [] (ev 65 66 Global) forest_new_absorbed).
  - by vm_compute.
  - cbn. lia.
  - exists log, log', last, p', rs. split; [exact E1|]. split; [exact E2|]. split; [exact P|]. apply A.
Defined.

Lemma redelivery_harmless_witness :
  let p := resuming forest_new buffer_new pos_new in
  let rs := [mkRecord 0 1 (ev 1 2 Global); mkRecord 4 9 (ev 2 3 (Scoped [7]))] in
  (apply_batch p rs).1 = Ok 1 ∧ apply_batch (apply_batch p rs).2 rs = (Ok 1, (apply_batch p rs).2).
Proof.
  intros p rs. assert ((apply_batch p rs).1 = Ok 1) as E by (by vm_compute). split; [exact E|].
  apply (redelivery_harmless p). rewrite <- E. apply surjective_pairing.
Defined.

(** ** A writer in the middle of a character

    The reader leaves an unfinished line for later, but it decodes the line first: when the
    writer has appended half of a two-byte character, the poll fails instead of waiting, and
    the consumer stops; a moment later the same file reads. *)
Lemma half_a_character :
  let partial := mkFileLog 0 [65; 195] 0 0 true in
  let finished := mkFileLog 0 [65; 195; 169; 10] 0 0 true in
  (file_poll demo_parse partial 5).1 = Err LogIo ∧
  (file_poll demo_parse finished 5).1 = Ok [mkRecord 0 1 (ev 65 195 (Scoped [169]))].
Proof. split; by vm_compute. Qed.

(** ** Resuming past the base

    Start-up opens the base from one snapshot and takes the position to resume from
    another, read later. A worker whose base is empty and that resumes at 1, because the
    leader has committed line 1 in between, drains the log without the edge of that line. *)
Definition late_worker : option Pipeline :=
  let start := start_position (Some (mkSnapshot 1 0 1 (single 1) None [] [] "w" 1 0 [] 0)) 0 in
  let log := mkPartitioned [as_partition (file_open [65; 66; 10; 67; 68; 10] false) 0] in
  match parts_seek log start with
  | (Ok _, log) =>
      match @consume _ (parts_source demo_parse) 9 (fun _ => false) (mkConsumer 5) log (resuming forest_new buffer_new start) with
      | Some (Ok _, _, p) => Some p
      | _ => None
      end
  | _ => None
  end.

Lemma late_position_skips :
  (fun p => ((connected (pl_forest p) GLOBAL_SCOPE 67 68).1, (connected (pl_forest p) GLOBAL_SCOPE 65 66).1)) <$> late_worker =
  Some (true, false).
Proof. by vm_compute. Qed.
