(* ===== verification/Serve.v ===== *)
(** The two front ends over one worker: the REST handlers of [src/api/mod.rs] and the gRPC
    service of [src/grpc/mod.rs].

    A handler is a function of the shared state and of the request as the framework has
    decoded it: numeric path segments, query parameters and bodies arrive at their widths,
    a scope in a path as text. An error is its status; the message is not kept. The
    channel to the ingest task is a queue whose sender waits for room, so a send only
    fails when the receiver is gone; [drain] is a turn of the loop of [Pipeline::run]. *)

From S2P Require Import Prelude Types Stream Graph Dsu RoutingBase Forest Members Buffer Decimal Pipeline.

(** ** Shared state *)

Record Channel := mkChannel { queue : list EdgeEvent; receiver_gone : bool }.

(** [AppState]; the forest, the buffer and the counters are the pipeline's own. *)
Record AppState := mkApp {
  app_pipeline : Pipeline;
  ingest_tx : option Channel;
  app_leader : bool;
  app_worker_id : string;
}.

Definition set_forest (s : AppState) (f : ScopedForest) : AppState :=
  let p := app_pipeline s in
  mkApp (mkPipeline f (pl_buffer p) (pl_stats p)) (ingest_tx s) (app_leader s) (app_worker_id s).

Definition set_tx (s : AppState) (tx : Channel) : AppState :=
  mkApp (app_pipeline s) (Some tx) (app_leader s) (app_worker_id s).

Definition app_forest (s : AppState) : ScopedForest := pl_forest (app_pipeline s).

(** One turn of [Pipeline::run]: [recv_many] hands out between one and 256 events. *)
Definition drain (s : AppState) (n : nat) : AppState :=
  match ingest_tx s with
  | Some tx =>
      let n := Nat.min n 256 in
      match take n (queue tx) with
      | [] => s
      | batch =>
          mkApp (run_one (app_pipeline s) batch) (Some (mkChannel (drop n (queue tx)) (receiver_gone tx)))
            (app_leader s) (app_worker_id s)
      end
  | None => s
  end.

(** ** REST *)

Inductive StatusCode := BAD_REQUEST | NOT_IMPLEMENTED | CONFLICT | SERVICE_UNAVAILABLE.

(** [str::eq_ignore_ascii_case]. *)
Definition ascii_lower (c : Ascii.ascii) : N :=
  let v := Ascii.N_of_ascii c in if (65 <=? v) && (v <=? 90) then v + 32 else v.

Fixpoint eq_ignore_ascii_case (a b : string) : bool :=
  match a, b with
  | String.EmptyString, String.EmptyString => true
  | String.String c a, String.String d b => (ascii_lower c =? ascii_lower d) && eq_ignore_ascii_case a b
  | _, _ => false
  end.

(** [parse_scope]. *)
Definition parse_scope (raw : string) : result StatusCode ScopeId :=
  if eq_ignore_ascii_case raw "global" then Ok GLOBAL_SCOPE
  else match parse_u32 raw with Some scope => Ok scope | None => Err BAD_REQUEST end.

Record ComponentResponse := mkComponent { cr_scope : ScopeId; cr_node : NodeId; cr_root : NodeId }.

(** [component]. *)
Definition rest_component (s : AppState) (scope : string) (node : NodeId) : result StatusCode ComponentResponse * AppState :=
  match parse_scope scope with
  | Err e => (Err e, s)
  | Ok scope =>
      let '(root, f) := scope_root (app_forest s) scope node in
      (Ok (mkComponent scope node root), set_forest s f)
  end.

Definition DEFAULT_MEMBER_CAP : N := 1000.
Definition MAX_MEMBER_CAP : N := 10000.

Record MembersResponse := mkMembersResponse {
  mp_scope : ScopeId;
  mp_node : NodeId;
  mp_root : NodeId;
  mp_members : list NodeId;
  mp_count : nat;
  mp_truncated : bool;
}.

(** [members]; the outer [None] is an exhausted fuel of the walk. *)
Definition rest_members (s : AppState) (scope : string) (node : NodeId) (cap : option N)
    : option (result StatusCode MembersResponse) * AppState :=
  match parse_scope scope with
  | Err e => (Some (Err e), s)
  | Ok scope =>
      let cap := default DEFAULT_MEMBER_CAP cap in
      if (cap =? 0) || (MAX_MEMBER_CAP <? cap) then (Some (Err BAD_REQUEST), s)
      else
        let '(found, f) := members (app_forest s) scope node cap in
        match found with
        | None => (None, set_forest s f)
        | Some None => (Some (Err NOT_IMPLEMENTED), set_forest s f)
        | Some (Some found) =>
            let '(root, f) := scope_root f scope node in
            (Some (Ok (mkMembersResponse scope node root (nodes found) (length (nodes found)) (is_truncated found))),
             set_forest s f)
        end
  end.

Record ConnectedResponse := mkConnected { cn_scope : ScopeId; cn_u : NodeId; cn_v : NodeId; cn_connected : bool }.

(** [connected]. *)
Definition rest_connected (s : AppState) (scope : string) (u v : NodeId) : result StatusCode ConnectedResponse * AppState :=
  match parse_scope scope with
  | Err e => (Err e, s)
  | Ok scope =>
      let '(c, f) := connected (app_forest s) scope u v in
      (Ok (mkConnected scope u v c), set_forest s f)
  end.

(** [InjectEdge], and the message of the same name. *)
Record InjectEdge := mkInject { ie_src : NodeId; ie_dst : NodeId; ie_scopes : list ScopeId; ie_props : option string }.

(** The event an injection enters the pipeline as; [now] is the clock in milliseconds. *)
Definition inject_event (body : InjectEdge) (now : Z) : EdgeEvent :=
  mkEvent (ie_src body) (ie_dst body) (normalize (Scoped (ie_scopes body))) now (ie_props body).

(** [Sender::send]. *)
Definition send (tx : Channel) (event : EdgeEvent) : option Channel :=
  if receiver_gone tx then None else Some (mkChannel (queue tx ++ [event]) false).

(** [inject_edge]; [Ok] is [StatusCode::ACCEPTED]. *)
Definition rest_inject_edge (s : AppState) (body : InjectEdge) (now : Z) : result StatusCode unit * AppState :=
  let event := inject_event body now in
  match ingest_tx s with
  | None => (Err CONFLICT, s)
  | Some tx =>
      match send tx event with
      | None => (Err SERVICE_UNAVAILABLE, s)
      | Some tx => (Ok tt, set_tx s tx)
      end
  end.

(** ** gRPC *)

Inductive GrpcStatus := InvalidArgument | Unimplemented | FailedPrecondition | Unavailable.

(** [get_component]. *)
Definition get_component (s : AppState) (scope : ScopeId) (node : NodeId) : result GrpcStatus ComponentResponse * AppState :=
  let '(root, f) := scope_root (app_forest s) scope node in
  (Ok (mkComponent scope node root), set_forest s f).

(** [check_connected]. *)
Definition check_connected (s : AppState) (scope : ScopeId) (u v : NodeId) : result GrpcStatus ConnectedResponse * AppState :=
  let '(c, f) := connected (app_forest s) scope u v in
  (Ok (mkConnected scope u v c), set_forest s f).

(** [GetMembersResponse] has no count. *)
Record GetMembersResponse := mkGetMembers {
  gm_scope : ScopeId;
  gm_node : NodeId;
  gm_root : NodeId;
  gm_members : list NodeId;
  gm_truncated : bool;
}.

(** [get_members]. *)
Definition get_members (s : AppState) (scope : ScopeId) (node : NodeId) (cap : N)
    : option (result GrpcStatus GetMembersResponse) * AppState :=
  if negb (cap =? 0) && (MAX_MEMBER_CAP <? cap) then (Some (Err InvalidArgument), s)
  else
    let cap := if cap =? 0 then DEFAULT_MEMBER_CAP else cap in
    let '(found, f) := members (app_forest s) scope node cap in
    match found with
    | None => (None, set_forest s f)
    | Some None => (Some (Err Unimplemented), set_forest s f)
    | Some (Some found) =>
        let '(root, f) := scope_root f scope node in
        (Some (Ok (mkGetMembers scope node root (nodes found) (is_truncated found))), set_forest s f)
    end.

(** [GetStatsResponse], less the memory size of the sealed batches. *)
Record GetStatsResponse := mkGetStats {
  gs_worker_id : string;
  gs_leader : bool;
  gs_events_applied : N;
  gs_global_merges : N;
  gs_global_links : N;
  gs_scope_links : N;
  gs_active_scopes : N;
  gs_merge_fixups : N;
  gs_members_available : bool;
  gs_buffer : BufferStats;
  gs_last_offset : N;
}.

(** [get_stats]. *)
Definition get_stats (s : AppState) : GetStatsResponse :=
  let f := app_forest s in
  let m := tier_mem (tier f) in
  mkGetStats (app_worker_id s) (app_leader s) (events_applied f) (merges (mem_global m))
    (N.of_nat (len_links (mem_global m))) (scope_links f) (N.of_nat (size (mem_overlays m))) (fixups f)
    (members_available f) (buffer_stats (pl_buffer (app_pipeline s))) (last_offset (pl_stats (app_pipeline s))).

(** The event the service builds, by code of its own. *)
Definition grpc_inject_event (req : InjectEdge) (now : Z) : EdgeEvent :=
  let visibility := normalize (Scoped (ie_scopes req)) in
  {| src := ie_src req; dst := ie_dst req; visibility := visibility; event_time_ms := now; props := ie_props req |}.

(** [inject_edge] of the service; [Ok] is [accepted: true]. *)
Definition grpc_inject_edge (s : AppState) (req : InjectEdge) (now : Z) : result GrpcStatus unit * AppState :=
  let event := grpc_inject_event req now in
  match ingest_tx s with
  | None => (Err FailedPrecondition, s)
  | Some tx =>
      match send tx event with
      | None => (Err Unavailable, s)
      | Some tx => (Ok tt, set_tx s tx)
      end
  end.
