(* ===== verification/ServeProps.v ===== *)
(** What the two front ends answer, in every state a serving worker reaches. *)

From S2P Require Import Prelude Types Stream Graph Dsu View RoutingBase Forest ForestInv Compaction CompactionInv FoldInv ForestProps Members MembersInv MembersProps Buffer Decimal Pipeline Serve.

(** ** Scopes in paths *)

Lemma digit_lower d : d < 10 → ascii_lower (digit d) = 48 + d.
Proof.
  intros Hd. unfold ascii_lower. rewrite digit_value by done. by destruct (N.leb_spec 65 (48 + d)); [lia|].
Qed.

Lemma not_global s : digit_head s → eq_ignore_ascii_case s "global" = false.
Proof.
  intros (d & s' & -> & Hd). cbn [eq_ignore_ascii_case]. rewrite digit_lower by done.
  match goal with |- (?a =? ?b) && _ = _ => destruct (N.eqb_spec a b) as [E|]; [|done]; change b with 103 in E; lia end.
Qed.

(** Every scope id can be written in a path. *)
Lemma parse_scope_to_string scope : scope < u32_limit → parse_scope (to_string scope) = Ok scope.
Proof.
  intros Hs. unfold parse_scope. rewrite not_global; [by rewrite parse_to_string|].
  unfold to_string. destruct (N.eqb_spec scope 0) as [->|]; [by exists 0, ""|]. apply to_string_go_head. right. split; [done|lia].
Qed.

Lemma parse_digits_bound limit s : ∀ acc n, acc < limit → parse_digits limit s acc = Some n → n < limit.
Proof.
  induction s as [|c s IH]; intros acc n Ha; cbn [parse_digits]; [by intros [= <-]|].
  destruct (_ && _); [|done]. destruct (N.ltb_spec (acc * 10 + (Ascii.N_of_ascii c - 48)) limit); [|done]. by apply IH.
Qed.

Lemma parse_scope_bound raw scope : parse_scope raw = Ok scope → scope < u32_limit.
Proof.
  unfold parse_scope. destruct (eq_ignore_ascii_case raw "global"); [by intros [= <-]|].
  destruct (parse_u32 raw) as [n|] eqn:E; [|done]. intros [= <-]. unfold parse_u32, parse_uint in E.
  destruct raw as [|c raw]; [done|]. destruct (_ =? 43).
  - destruct raw as [|d raw]; [done|]. by eapply parse_digits_bound in E.
  - by eapply parse_digits_bound in E.
Qed.

(** ** Two protocols, one worker *)

(** The gRPC status of a REST status. *)
Definition grpc_status (e : StatusCode) : GrpcStatus :=
  match e with
  | BAD_REQUEST => InvalidArgument
  | NOT_IMPLEMENTED => Unimplemented
  | CONFLICT => FailedPrecondition
  | SERVICE_UNAVAILABLE => Unavailable
  end.

Definition grpc_result {A B} (f : A → B) (r : result StatusCode A) : result GrpcStatus B :=
  match r with Ok a => Ok (f a) | Err e => Err (grpc_status e) end.

Definition drop_count (m : MembersResponse) : GetMembersResponse :=
  mkGetMembers (mp_scope m) (mp_node m) (mp_root m) (mp_members m) (mp_truncated m).

(** The two pieces of code build the same event. *)
Lemma grpc_event_same req now : grpc_inject_event req now = inject_event req now.
Proof. reflexivity. Qed.

(** C20. The two front ends are one. Every scope id has a spelling in a path, and for every
    spelling of it, in every state of the worker, a gRPC call answers what the REST call
    answers, refusals included, and leaves the same state behind: for components,
    connectivity, injections, and member queries under every cap but one. A cap of zero is
    refused by REST and is gRPC's way of leaving the cap out. *)
Theorem rest_grpc_agree (s : AppState) :
  (∀ scope, scope < u32_limit → parse_scope (to_string scope) = Ok scope) ∧
  (∀ body now, grpc_inject_edge s body now =
    (grpc_result id (rest_inject_edge s body now).1, (rest_inject_edge s body now).2)) ∧
  ∀ raw scope, parse_scope raw = Ok scope →
    (∀ node, get_component s scope node =
      (grpc_result id (rest_component s raw node).1, (rest_component s raw node).2)) ∧
    (∀ u v, check_connected s scope u v =
      (grpc_result id (rest_connected s raw u v).1, (rest_connected s raw u v).2)) ∧
    (∀ node cap, cap ≠ 0 → get_members s scope node cap =
      (grpc_result drop_count <$> (rest_members s raw node (Some cap)).1, (rest_members s raw node (Some cap)).2)) ∧
    (∀ node, get_members s scope node 0 =
      (grpc_result drop_count <$> (rest_members s raw node None).1, (rest_members s raw node None).2)) ∧
    ∀ node, rest_members s raw node (Some 0) = (Some (Err BAD_REQUEST), s).
Proof.
  split; [exact parse_scope_to_string|]. split.
  { intros body now. unfold grpc_inject_edge, rest_inject_edge. rewrite grpc_event_same. destruct (ingest_tx s) as [tx|]; [|done].
    by destruct (send tx _). }
  intros raw scope Hp. unfold rest_component, rest_connected, rest_members. rewrite Hp. split_and!.
  - intros node. unfold get_component. by destruct (scope_root _ _ _).
  - intros u v. unfold check_connected. by destruct (connected _ _ _ _).
  - intros node cap Hc. unfold get_members. cbn [default from_option id]. rewrite (proj2 (N.eqb_neq cap 0) Hc).
    cbn [negb andb orb]. destruct (MAX_MEMBER_CAP <? cap); [done|].
    destruct (members _ _ _ _) as [[[found|]|] f]; [|done..]. by destruct (scope_root _ _ _).
  - intros node. unfold get_members. cbn [N.eqb negb andb orb default from_option id].
    change (DEFAULT_MEMBER_CAP =? 0) with false. change (MAX_MEMBER_CAP <? DEFAULT_MEMBER_CAP) with false. cbn [orb].
    destruct (members _ _ _ _) as [[[found|]|] f]; [|done..]. by destruct (scope_root _ _ _).
  - done.
Qed.

(** ** Healthy forests *)

(** The forest has absorbed [evs] and both halves of its member index are what they claim. *)
Definition healthy (f : ScopedForest) (evs : list EdgeEvent) : Prop := absorbed f evs ∧ members_inv f.

Lemma healthy_same_base f evs f' evs' :
  forest_step (Er := unit) (T := unit) snoc (f, evs) (f', evs') → tier_base (tier f') = tier_base (tier f) →
  healthy f evs → healthy f' evs'.
Proof.
  intros S Hb [I M]. split; [by apply (step_absorbed snoc _ _ S)|].
  apply (members_inv_step snoc _ _ S I M). cbn [fst]. unfold base_of. rewrite Hb. apply (mv_base _ M).
Qed.

Lemma healthy_apply f evs e : healthy f evs → healthy (apply f e) (evs ++ [e]).
Proof. apply healthy_same_base; [constructor|apply apply_base]. Qed.

Lemma healthy_root f evs s x : healthy f evs → healthy (scope_root f s x).2 evs.
Proof. apply healthy_same_base; [constructor|apply scope_root_base]. Qed.

Lemma healthy_connected f evs s x y : healthy f evs → healthy (connected f s x y).2 evs.
Proof.
  intros Hf. unfold connected. pose proof (healthy_root f evs s x Hf) as H1. destruct (scope_root f s x) as [r f1].
  cbn in H1. pose proof (healthy_root f1 evs s y H1) as H2. by destruct (scope_root f1 s y).
Qed.

(** The walk itself reads only; it leaves behind what resolving the node leaves behind. *)
Lemma members_state f s x c : (members f s x c).2 = f ∨ (members f s x c).2 = (scope_root f s x).2.
Proof.
  unfold members, scope_root. destruct (negb _); [by left|]. destruct (from_option _ _ _); [by left|]. right.
  destruct (shared_root _ _ _) as [r t]. destruct (s =? GLOBAL_SCOPE); [done|]. by destruct (overlay_root _ _ _ _).
Qed.

Lemma healthy_members f evs s x c : healthy f evs → healthy (members f s x c).2 evs.
Proof. intros Hf. destruct (members_state f s x c) as [->| ->]; [done|by apply healthy_root]. Qed.

Lemma healthy_events es : ∀ f evs, healthy f evs → healthy (foldl apply f es) (evs ++ es).
Proof.
  induction es as [|e es IH]; intros f evs Hf; cbn [foldl]; [by rewrite app_nil_r|].
  rewrite cons_middle, app_assoc. by apply IH, healthy_apply.
Qed.

Lemma healthy_new (b : bool) : healthy (if b then tracking_members forest_new else forest_new) [].
Proof. split; [apply tracking_new_absorbed|apply members_inv_new]. Qed.

Lemma mint_forest es : ∀ p, pl_forest (foldl mint_one p es) = foldl apply (pl_forest p) es.
Proof. induction es as [|e es IH]; intros p; [done|]. cbn [foldl]. by rewrite IH. Qed.

(** ** A worker that serves *)

(** An accepted injection and its time, and the edge its caller meant. *)
Abbreviation injection := (InjectEdge * Z)%type.

Definition injected (i : injection) : EdgeEvent := inject_event i.1 i.2.

Definition meant (i : injection) : EdgeEvent :=
  mkEvent (ie_src i.1) (ie_dst i.1) (Scoped (ie_scopes i.1)) i.2 (ie_props i.1).

Lemma sees_normalize v s : sees (normalize v) s ↔ sees v s.
Proof.
  destruct (normalize v) as [|l] eqn:E.
  - apply normalize_global in E. unfold sees. naive_solver.
  - apply normalize_scoped in E as (H1 & _ & H2 & H3 & H4). rewrite <- H4. unfold sees, is_global. naive_solver.
Qed.

Lemma visible_meant l s : visible_edges (injected <$> l) s = visible_edges (meant <$> l) s.
Proof.
  unfold visible_edges. induction l as [|i l IH]; [done|]. rewrite !fmap_cons, !filter_cons.
  pose proof (sees_normalize (Scoped (ie_scopes i.1)) s) as E.
  destruct (decide (sees (visibility (injected i)) s)) as [H1|H1], (decide (sees (visibility (meant i)) s)) as [H2|H2];
    cbn [fmap list_fmap]; rewrite ?IH; try done; exfalso; cbn in H1, H2; tauto.
Qed.

Section worker.
Context `{EdgeSort} {Sk Er T : Type} (push : Sk → emission → Sk).

Definition set_buffer (s : AppState) (b : EdgeBuffer) : AppState :=
  let p := app_pipeline s in
  mkApp (mkPipeline (pl_forest p) b (pl_stats p)) (ingest_tx s) (app_leader s) (app_worker_id s).

(** A worker fed over the API, as [main] starts one with no snapshot. *)
Definition worker_start (b leader : bool) (id : string) : AppState :=
  mkApp (pipeline_new (if b then tracking_members forest_new else forest_new) buffer_new 0)
    (Some (mkChannel [] false)) leader id.

(** What happens to it, with the injections it has accepted: requests of either protocol, a
    turn of the ingest task, and what the flusher does to the forest and to the buffer. *)
Inductive serve_step : AppState * list injection → AppState * list injection → Prop :=
| sv_rest_inject s h body now :
    serve_step (s, h) ((rest_inject_edge s body now).2,
      if is_ok (rest_inject_edge s body now).1 then h ++ [(body, now)] else h)
| sv_grpc_inject s h body now :
    serve_step (s, h) ((grpc_inject_edge s body now).2,
      if is_ok (grpc_inject_edge s body now).1 then h ++ [(body, now)] else h)
| sv_drain s h n : serve_step (s, h) (drain s n, h)
| sv_rest_component s h raw node : serve_step (s, h) ((rest_component s raw node).2, h)
| sv_rest_connected s h raw u v : serve_step (s, h) ((rest_connected s raw u v).2, h)
| sv_rest_members s h raw node cap : serve_step (s, h) ((rest_members s raw node cap).2, h)
| sv_get_component s h scope node : serve_step (s, h) ((get_component s scope node).2, h)
| sv_check_connected s h scope u v : serve_step (s, h) ((check_connected s scope u v).2, h)
| sv_get_members s h scope node cap : serve_step (s, h) ((get_members s scope node cap).2, h)
| sv_forest s h f : (∀ evs, members_step (Er := Er) (T := T) push (app_forest s, evs) (f, evs)) →
    serve_step (s, h) (set_forest s f, h)
| sv_seal s h : serve_step (s, h) (set_buffer s (seal_active (pl_buffer (app_pipeline s))).2, h)
| sv_dropped s h c : serve_step (s, h) (set_buffer s (drop_committed (pl_buffer (app_pipeline s)) c).2, h).

(** Accepted injections are absorbed or still queued, in order. *)
Record serving (s : AppState) (h applied : list injection) : Prop := {
  sg_healthy : healthy (app_forest s) (injected <$> applied);
  sg_queue : ∃ pending, h = applied ++ pending ∧ ingest_tx s = Some (mkChannel (injected <$> pending) false);
}.

Lemma serving_forest s h applied f : healthy f (injected <$> applied) → serving s h applied → serving (set_forest s f) h applied.
Proof using. intros Hf [_ Hq]. by split. Qed.

(** Both protocols accept, as the queue is open. *)
Lemma serving_inject s h applied body now :
  serving s h applied →
  ∃ s', rest_inject_edge s body now = (Ok tt, s') ∧ grpc_inject_edge s body now = (Ok tt, s') ∧
    serving s' (h ++ [(body, now)]) applied.
Proof using.
  intros [Hf (pending & -> & Hq)]. unfold rest_inject_edge, grpc_inject_edge. rewrite Hq. cbn [send receiver_gone queue].
  eexists. split; [done|]. split; [done|]. split; [done|]. exists (pending ++ [(body, now)]).
  split; [by rewrite app_assoc|]. cbn. by rewrite fmap_app.
Qed.

Lemma serving_drain s h applied n :
  serving s h applied → ∃ more, serving (drain s n) h (applied ++ more) ∧
    ∃ pending, h = applied ++ pending ∧ more = take (Nat.min n 256) pending.
Proof using.
  intros [Hf (pending & -> & Hq)]. exists (take (Nat.min n 256) pending). split; [|by exists pending].
  unfold drain. rewrite Hq. cbn [queue receiver_gone]. rewrite <- fmap_take.
  assert (applied ++ pending = (applied ++ take (Nat.min n 256) pending) ++ drop (Nat.min n 256) pending) as E.
  { by rewrite <- app_assoc, take_drop. }
  destruct (injected <$> take (Nat.min n 256) pending) as [|e es] eqn:Eb.
  - apply fmap_nil_inv in Eb. rewrite Eb in *. rewrite app_nil_r. split; [done|]. exists pending. by rewrite Hq.
  - rewrite <- Eb. split.
    + unfold app_forest. cbn [app_pipeline run_one pl_forest]. rewrite mint_forest, fmap_app. by apply healthy_events.
    + exists (drop (Nat.min n 256) pending). split; [exact E|]. cbn. by rewrite fmap_drop.
Qed.

Lemma serving_step x y : serve_step x y → (∃ applied, serving x.1 x.2 applied) → ∃ applied, serving y.1 y.2 applied.
Proof using.
  intros St (applied & Hs). pose proof Hs as [Hf Hq].
  destruct St as [s h body now|s h body now|s h n|s h raw node|s h raw u v|s h raw node cap|s h scope node|s h scope u v|s h scope node cap|s h f Hst|s h|s h c]; cbn [fst snd] in *.
  - destruct (serving_inject _ _ _ body now Hs) as (s' & E & _ & Hs'). rewrite E. by exists applied.
  - destruct (serving_inject _ _ _ body now Hs) as (s' & _ & E & Hs'). rewrite E. by exists applied.
  - destruct (serving_drain _ _ _ n Hs) as (more & Hs' & _). by eexists.
  - exists applied. unfold rest_component. destruct (parse_scope raw) as [scope|]; [|done].
    pose proof (healthy_root _ _ scope node Hf). destruct (scope_root _ _ _). by apply serving_forest.
  - exists applied. unfold rest_connected. destruct (parse_scope raw) as [scope|]; [|done].
    pose proof (healthy_connected _ _ scope u v Hf). destruct (connected _ _ _ _). by apply serving_forest.
  - exists applied. unfold rest_members. destruct (parse_scope raw) as [scope|]; [|done]. destruct (_ || _); [done|].
    pose proof (healthy_members _ _ scope node (default DEFAULT_MEMBER_CAP cap) Hf) as Hm.
    destruct (members _ _ _ _) as [[[found|]|] f]; [|by apply serving_forest..].
    pose proof (healthy_root _ _ scope node Hm). cbn [snd] in *. destruct (scope_root f _ _). by apply serving_forest.
  - exists applied. unfold get_component. pose proof (healthy_root _ _ scope node Hf). destruct (scope_root _ _ _). by apply serving_forest.
  - exists applied. unfold check_connected. pose proof (healthy_connected _ _ scope u v Hf). destruct (connected _ _ _ _). by apply serving_forest.
  - exists applied. unfold get_members. destruct (_ && _); [done|].
    pose proof (healthy_members _ _ scope node (if cap =? 0 then DEFAULT_MEMBER_CAP else cap) Hf) as Hm.
    destruct (members _ _ _ _) as [[[found|]|] f]; [|by apply serving_forest..].
    pose proof (healthy_root _ _ scope node Hm). cbn [snd] in *. destruct (scope_root f _ _). by apply serving_forest.
  - exists applied. apply serving_forest; [|done]. destruct Hf as [I M]. destruct (Hst (injected <$> applied)) as [S Hb].
    split; [by apply (step_absorbed push _ _ S)|by apply (members_inv_step push _ _ S I M)].
  - by exists applied.
  - by exists applied.
Qed.

Lemma serving_reach b leader id s h :
  rtc serve_step (worker_start b leader id, []) (s, h) → ∃ applied, serving s h applied.
Proof using.
  intros R. apply (rtc_ind_r (fun x => ∃ applied, serving x.1 x.2 applied) (worker_start b leader id, [])) in R; [exact R| |].
  - exists []. split; [apply healthy_new|]. by exists [].
  - intros x y _ St IH. by eapply serving_step.
Qed.

(** Component and connectivity requests are answered for the edges [l] was meant to add. *)
Definition answers (s : AppState) (l : list injection) : Prop :=
  ∀ raw scope, parse_scope raw = Ok scope →
    (∀ node, ∃ root, (rest_component s raw node).1 = Ok (mkComponent scope node root) ∧
      is_component_min (visible_edges (meant <$> l) scope) node root) ∧
    ∀ u v, ∃ c, (rest_connected s raw u v).1 = Ok (mkConnected scope u v c) ∧
      (c = true ↔ conn (visible_edges (meant <$> l) scope) u v).

Lemma serving_answers s h applied : serving s h applied → answers s applied.
Proof using.
  intros [[I _] _] raw scope Hp. unfold rest_component, rest_connected. rewrite Hp. split.
  - intros node. pose proof (absorbed_scope_min _ _ scope node I) as Hm. rewrite visible_meant in Hm.
    destruct (scope_root _ _ _) as [r f]. by exists r.
  - intros u v. pose proof (connected_conn _ _ scope u v I) as Hm. rewrite visible_meant in Hm.
    destruct (connected _ _ _ _) as [c f]. by exists c.
Qed.

Lemma drain_all k : ∀ s h applied pending,
  serving s h applied → h = applied ++ pending → (length pending <= k)%nat →
  serving (foldl drain s (replicate k 256%nat)) h h.
Proof using.
  induction k as [|k IH]; intros s h applied pending Hs -> Hk; cbn [replicate foldl].
  { destruct pending; [|cbn in Hk; lia]. by rewrite app_nil_r in *. }
  destruct (serving_drain _ _ _ 256 Hs) as (more & Hs' & pending' & Hp & ->). apply app_inv_head in Hp as <-.
  eapply (IH _ _ _ (drop (Nat.min 256 256) pending) Hs').
  - by rewrite <- app_assoc, take_drop.
  - rewrite length_drop. lia.
Qed.

(** C5. The API serves what it accepted. In every state a worker fed over the API reaches,
    by requests of either protocol, turns of the ingest task and the folds, swaps, seals and
    drops of the flusher: the injections accepted so far are, in order, those absorbed and
    those still queued; component requests answer with the lowest node of the component,
    and connectivity requests with connectivity, in the graph of the absorbed edges as their
    callers meant them for that scope; and as many turns of the ingest task as there are
    queued injections make the answers those of all of them. *)
Theorem api_serves_injections (b leader : bool) (id : string) (s : AppState) (h : list injection) :
  rtc serve_step (worker_start b leader id, []) (s, h) →
  ∃ applied pending, h = applied ++ pending ∧ ingest_tx s = Some (mkChannel (injected <$> pending) false) ∧
    answers s applied ∧ answers (foldl drain s (replicate (length pending) 256%nat)) h.
Proof using.
  intros (applied & Hs)%serving_reach. pose proof (sg_queue _ _ _ Hs) as (pending & Hh & Hq).
  exists applied, pending. split; [done|]. split; [done|]. split; [by eapply serving_answers|].
  eapply serving_answers. by eapply drain_all.
Qed.

(** C18. Member answers stay within their bounds. In every state such a worker reaches, for
    every scope text, node and cap: the request ends; a text that is no scope and a cap
    outside 1 to 10 000 are refused; without both halves of the index the answer is 501;
    and otherwise the response counts what it lists, lists at most the cap, each node once
    and all of the component the response names by its lowest node, and is marked truncated
    exactly when the component has more nodes than that. *)
Theorem api_members_bounded (b leader : bool) (id : string) (s : AppState) (h : list injection)
    (raw : string) (node : NodeId) (cap : option N) :
  rtc serve_step (worker_start b leader id, []) (s, h) →
  ∃ applied, applied `prefix_of` h ∧
    let limit := default DEFAULT_MEMBER_CAP cap in
    match parse_scope raw with
    | Err e => e = BAD_REQUEST ∧ (rest_members s raw node cap).1 = Some (Err BAD_REQUEST)
    | Ok scope =>
        let E := visible_edges (meant <$> applied) scope in
        if (limit =? 0) || (MAX_MEMBER_CAP <? limit) then (rest_members s raw node cap).1 = Some (Err BAD_REQUEST)
        else if negb (members_available (app_forest s)) then (rest_members s raw node cap).1 = Some (Err NOT_IMPLEMENTED)
        else ∃ r, (rest_members s raw node cap).1 = Some (Ok r) ∧
          mp_count r = length (mp_members r) ∧ (1 <= mp_count r)%nat ∧ N.of_nat (mp_count r) <= limit ∧ limit <= MAX_MEMBER_CAP ∧
          NoDup (mp_members r) ∧ (∀ y, y ∈ mp_members r → conn E node y) ∧
          is_component_min E node (mp_root r) ∧
          (mp_truncated r = true ↔ ∃ y, conn E node y ∧ y ∉ mp_members r) ∧
          (mp_truncated r = true → N.of_nat (mp_count r) = limit)
    end.
Proof using.
  intros (applied & Hs)%serving_reach. pose proof Hs as [[I M] (pending & -> & _)]. exists applied. split; [by eexists|].
  cbv zeta. unfold rest_members. destruct (parse_scope raw) as [scope|e] eqn:Ep.
  2:{ unfold parse_scope in Ep. destruct (eq_ignore_ascii_case _ _); [done|]. destruct (parse_u32 raw); [done|]. by simplify_eq. }
  set (limit := default DEFAULT_MEMBER_CAP cap). destruct (N.eqb_spec limit 0) as [|H0]; [done|].
  destruct (N.ltb_spec MAX_MEMBER_CAP limit) as [|H1]; [done|]. cbn [orb].
  destruct (members_conn _ _ scope node limit I M) as [Hm Hk].
  { unfold MAX_MEMBER_CAP in H1. assert (10002 < u64_limit) by done. lia. }
  pose proof (absorbed_scope_min _ _ scope node I) as Hmin. rewrite <- Hk in Hmin.
  destruct (members_available _); cbn [negb].
  2:{ destruct (members _ _ _ _) as [o f]. cbn in Hm. by subst o. }
  destruct Hm as (r & Hr & Hn & Hc & Hx). destruct (members _ _ _ _) as [o f]. cbn [fst snd] in Hr, Hmin. subst o.
  destruct (scope_root f scope node) as [root f']. cbn [fst] in *. rewrite visible_meant in *.
  eexists. split; [done|]. cbn [mp_count mp_members mp_root mp_truncated].
  assert (N.of_nat (length (nodes r)) <= limit ∧ (1 <= length (nodes r))%nat ∧
    (is_truncated r = true ↔ ∃ y, conn (visible_edges (meant <$> applied) scope) node y ∧ y ∉ nodes r) ∧
    (is_truncated r = true → N.of_nat (length (nodes r)) = limit)) as (B1 & B2 & B3 & B4).
  { destruct r as [v|v]; cbn [nodes is_truncated] in *; destruct Hx as [Hl Hx].
    - split_and!; [done| | |done].
      + specialize (Hx node ltac:(done)). destruct v; [by apply elem_of_nil in Hx|cbn; lia].
      + split; [done|]. intros (y & Hy & Hny). by apply Hx in Hy.
    - split_and!; [lia|lia|done|done]. }
  split_and!; done.
Qed.

(** *** Widths *)

Definition u64 (n : N) : Prop := n < u64_limit.
Definition i64 (z : Z) : Prop := (- 2 ^ 63 <= z < 2 ^ 63)%Z.

(** A request as the framework decodes it: ids at their widths. *)
Definition body_typed (i : injection) : Prop :=
  u64 (ie_src i.1) ∧ u64 (ie_dst i.1) ∧ Forall (fun s => s < u32_limit) (ie_scopes i.1) ∧ i64 i.2.

#[export] Instance body_typed_dec i : Decision (body_typed i).
Proof. unfold body_typed, u64, i64. apply _. Defined.

(** An event with ids at their widths and a canonical visibility. *)
Definition event_typed (e : EdgeEvent) : Prop :=
  u64 (src e) ∧ u64 (dst e) ∧ i64 (event_time_ms e) ∧
  match visibility e with
  | Global => True
  | Scoped l => l ≠ [] ∧ StronglySorted N.lt l ∧ GLOBAL_SCOPE ∉ l ∧ Forall (fun s => s < u32_limit) l
  end.

Definition row_typed (r : Row) : Prop :=
  row_partition r = 0 ∧ u64 (row_offset r) ∧ u64 (row_src r) ∧ u64 (row_dst r) ∧ row_scope r < u32_limit ∧ i64 (row_event_time r).

Lemma injected_typed i : body_typed i → event_typed (injected i).
Proof using.
  intros (H1 & H2 & H3 & H4). split_and!; [done..|]. cbn. destruct (_ || _) eqn:E; [done|].
  assert (normalize (Scoped (ie_scopes i.1)) = Scoped (dedup (sort_N (ie_scopes i.1)))) as En by (cbn; by rewrite E).
  apply normalize_scoped in En as (_ & N1 & N2 & N3 & _). split_and!; [done..|].
  rewrite Forall_forall in *. intros s Hs. apply H3. by rewrite elem_of_dedup, elem_of_sort_N in Hs.
Qed.

Lemma typed_scopes e : event_typed e →
  Forall (fun s => s < u32_limit) (match normalize (visibility e) with Global => [GLOBAL_SCOPE] | Scoped l => l end).
Proof using.
  intros (_ & _ & _ & Hv). destruct (normalize (visibility e)) as [|l] eqn:E; [by repeat constructor|].
  apply normalize_scoped in E as (Hg & _ & _ & _ & E). rewrite Forall_forall. intros s Hs. apply E in Hs.
  destruct Hs as [Hs|Hs]; [done|]. destruct (visibility e) as [|l']; [exfalso; by apply Hg|].
  destruct Hv as (_ & _ & _ & Hv). rewrite Forall_forall in Hv. by apply Hv.
Qed.

(** Rows in the buffer and the last offset are at their widths. *)
Definition pipeline_typed (p : Pipeline) : Prop := Forall row_typed (buffered (pl_buffer p)) ∧ u64 (last_offset (pl_stats p)).

Lemma minted_typed es : ∀ p, Forall event_typed es → pipeline_typed p → pipeline_typed (foldl mint_one p es).
Proof using.
  induction es as [|e es IH]; intros p He Hp; [done|]. apply Forall_cons in He as [Hh He]. apply IH; [done|].
  destruct Hp as [Hr Hl]. split; [|apply wrap64_lt]. unfold buffered in *. cbn [mint_one pl_buffer append active ab_rows sealed].
  rewrite app_assoc. apply Forall_app. split; [done|]. unfold event_rows. pose proof (typed_scopes e Hh) as Hs.
  apply Forall_fmap. eapply Forall_impl; [exact Hs|]. intros scope Hscope. cbn. destruct Hh as (H1 & H2 & H3 & _).
  split_and!; try done. apply wrap64_lt.
Qed.

Lemma sealed_rows_same (bf : EdgeBuffer) : buffered (seal_active bf).2 ≡ₚ buffered bf.
Proof using.
  unfold seal_active. destruct (_ =? _)%nat; [done|]. unfold buffered. cbn. rewrite fmap_app, concat_app, app_nil_r. cbn.
  by rewrite app_nil_r, edge_sort_perm.
Qed.

Lemma dropped_rows_subset (bf : EdgeBuffer) c : buffered (drop_committed bf c).2 ⊆ buffered bf.
Proof using.
  unfold buffered. cbn. intros r. rewrite !elem_of_app. intros [Hr|Hr]; [left|by right].
  destruct (drop_rows (sealed bf) c) as (gone & Hp & _). rewrite <- Hp. apply elem_of_app. by left.
Qed.

Lemma typed_step x y :
  serve_step x y → (∃ applied, serving x.1 x.2 applied) →
  (Forall body_typed x.2 → pipeline_typed (app_pipeline x.1)) →
  Forall body_typed y.2 → pipeline_typed (app_pipeline y.1).
Proof using.
  intros St (applied & Hs) Hx.
  assert (∀ h body now (r : bool), Forall body_typed (if r then h ++ [(body, now)] else h) → Forall body_typed h) as Hgrow.
  { intros h body now [] Hh; [by apply Forall_app in Hh as [Hh _]|done]. }
  destruct St as [s h body now|s h body now|s h n|s h raw node|s h raw u v|s h raw node cap|s h scope node|s h scope u v|s h scope node cap|s h f Hst|s h|s h c]; cbn [fst snd] in *; intros Hh.
  - apply Hgrow, Hx in Hh. unfold rest_inject_edge. destruct (ingest_tx s) as [tx|]; [|done]. by destruct (send tx _).
  - apply Hgrow, Hx in Hh. unfold grpc_inject_edge. rewrite grpc_event_same. destruct (ingest_tx s) as [tx|]; [|done]. by destruct (send tx _).
  - pose proof (Hx Hh) as Hp. destruct (sg_queue _ _ _ Hs) as (pending & -> & Hq). unfold drain. rewrite Hq. cbn [queue].
    rewrite <- fmap_take. destruct (injected <$> take _ pending) as [|e es] eqn:Eb; [done|]. rewrite <- Eb. clear Eb.
    pose proof (minted_typed (injected <$> take (Nat.min n 256) pending) (app_pipeline s)) as Hm. apply Hm; [|done].
    apply Forall_app in Hh as [_ Hh]. apply Forall_fmap, Forall_take. eapply Forall_impl; [exact Hh|]. intros i Hi. by apply injected_typed.
  - specialize (Hx Hh). unfold rest_component. destruct (parse_scope raw); [|done]. by destruct (scope_root _ _ _).
  - specialize (Hx Hh). unfold rest_connected. destruct (parse_scope raw); [|done]. by destruct (connected _ _ _ _).
  - specialize (Hx Hh). unfold rest_members. destruct (parse_scope raw); [|done]. destruct (_ || _); [done|].
    destruct (members _ _ _ _) as [[[found|]|] f]; [|done..]. by destruct (scope_root _ _ _).
  - specialize (Hx Hh). unfold get_component. by destruct (scope_root _ _ _).
  - specialize (Hx Hh). unfold check_connected. by destruct (connected _ _ _ _).
  - specialize (Hx Hh). unfold get_members. destruct (_ && _); [done|].
    destruct (members _ _ _ _) as [[[found|]|] f]; [|done..]. by destruct (scope_root _ _ _).
  - by apply Hx.
  - destruct (Hx Hh) as [H1 H2]. split; [|done]. unfold set_buffer. cbn [app_pipeline pl_buffer]. by rewrite sealed_rows_same.
  - destruct (Hx Hh) as [H1 H2]. split; [|done]. rewrite Forall_forall in *. intros r Hr. apply H1. eapply dropped_rows_subset, Hr.
Qed.

Lemma conn_width (E : edges) x y :
  (∀ u v, (u, v) ∈ E → u64 u ∧ u64 v) → conn E x y → u64 x → u64 y.
Proof using. intros HE. induction 1 as [|x y z [Hxy|Hxy] _ IH]; intros Hx; [done| |]; apply IH; apply HE in Hxy; apply Hxy. Qed.

(** C19. Everything stays at its width. When the injections a worker accepted had ids at
    their widths, then in every state it reaches, the queued events have ids at their widths
    and a canonical visibility (global, or a non-empty ascending list of scopes without the
    global one); the buffered rows and the minted offset are at the widths of their columns;
    and every scope, root and member a response carries is an id at its width. *)
Theorem serving_typed (b leader : bool) (id : string) (s : AppState) (h : list injection) :
  rtc serve_step (worker_start b leader id, []) (s, h) → Forall body_typed h →
  (∃ tx, ingest_tx s = Some tx ∧ Forall event_typed (queue tx)) ∧
  pipeline_typed (app_pipeline s) ∧
  ∀ raw node, u64 node →
    (∀ r, (rest_component s raw node).1 = Ok r → cr_scope r < u32_limit ∧ u64 (cr_root r)) ∧
    ∀ cap r, (rest_members s raw node cap).1 = Some (Ok r) →
      mp_scope r < u32_limit ∧ u64 (mp_root r) ∧ Forall u64 (mp_members r).
Proof using.
  intros R Hh. pose proof (serving_reach _ _ _ _ _ R) as (applied & Hs).
  assert (pipeline_typed (app_pipeline s)) as Hp.
  { assert (Forall body_typed (s, h).2) as Hh' by exact Hh. revert Hh'. change s with (s, h).1.
    enough ((∃ applied, serving (s, h).1 (s, h).2 applied) ∧ (Forall body_typed (s, h).2 → pipeline_typed (app_pipeline (s, h).1))) by tauto.
    apply (rtc_ind_r (fun x => (∃ applied, serving x.1 x.2 applied) ∧ (Forall body_typed x.2 → pipeline_typed (app_pipeline x.1)))
      (worker_start b leader id, [])) in R; [exact R| |].
    - split; [|intros _; split; [constructor|done]]. exists []. split; [apply healthy_new|by exists []].
    - intros x y _ St [IH1 IH2]. split; [by eapply serving_step|by eapply typed_step]. }
  pose proof Hs as [[I M] (pending & -> & Hq)]. apply Forall_app in Hh as [Ha Hpend]. split; [|split; [exact Hp|]].
  { eexists. split; [exact Hq|]. apply Forall_fmap. eapply Forall_impl; [exact Hpend|]. intros i Hi. by apply injected_typed. }
  intros raw node Hn. split.
  - intros r. unfold rest_component. destruct (parse_scope raw) as [scope|] eqn:Ep; [|done]. apply parse_scope_bound in Ep.
    pose proof (absorbed_scope_min _ _ scope node I) as [_ Hle]. specialize (Hle node ltac:(done)).
    destruct (scope_root _ _ _) as [root f]. intros [= <-]. cbn in *. split; [done|]. unfold u64 in *. lia.
  - intros cap r. unfold rest_members. destruct (parse_scope raw) as [scope|] eqn:Ep; [|done]. apply parse_scope_bound in Ep.
    set (limit := default DEFAULT_MEMBER_CAP cap). destruct (N.eqb_spec limit 0) as [|H0]; [done|].
    destruct (N.ltb_spec MAX_MEMBER_CAP limit) as [|H1]; [done|]. cbn [orb].
    destruct (members_conn _ _ scope node limit I M) as [Hm Hk].
    { unfold MAX_MEMBER_CAP in H1. assert (10002 < u64_limit) by done. lia. }
    pose proof (absorbed_scope_min _ _ scope node I) as [_ Hle]. specialize (Hle node ltac:(done)). rewrite <- Hk in Hle.
    destruct (members _ _ _ _) as [[[found|]|] f]; [|done..]. cbn [fst snd] in *.
    destruct (scope_root f scope node) as [root f']. intros [= <-]. cbn [mp_scope mp_root mp_members fst] in *.
    split; [done|]. split; [unfold u64 in *; lia|]. destruct (members_available _); [|done]. destruct Hm as (r & [= ->] & _ & Hc & _).
    apply Forall_forall. intros y Hy%Hc. eapply conn_width; [|exact Hy|done]. intros u v.
    rewrite elem_of_visible. intros (e & He & _ & -> & ->). apply list_elem_of_fmap in He as (i & -> & Hi).
    rewrite Forall_forall in Ha. destruct (Ha i Hi) as (? & ? & _). done.
Qed.
End worker.

(** ** At work *)

Definition demo_body (u v : NodeId) (scopes : list ScopeId) : InjectEdge := mkInject u v scopes None.

Definition demo_worker : AppState :=
  let s := worker_start true true "w1" in
  let s := (rest_inject_edge s (demo_body 9 5 []) 100).2 in
  let s := (grpc_inject_edge s (demo_body 5 1 [7; 7]) 101).2 in
  let s := drain s 2 in
  (rest_inject_edge s (demo_body 1 0 [0; 3]) 102).2.

Definition demo_injections : list injection :=
  [(demo_body 9 5 [], 100%Z); (demo_body 5 1 [7; 7], 101%Z); (demo_body 1 0 [0; 3], 102%Z)].

Lemma demo_worker_reached :
  rtc (serve_step (H := merge_edge_sort) (Sk := list emission) (Er := unit) (T := unit) snoc)
    (worker_start true true "w1", []) (demo_worker, demo_injections).
Proof.
  eapply rtc_l; [apply (sv_rest_inject _ _ _ (demo_body 9 5 []) 100)|].
  eapply rtc_l; [apply (sv_grpc_inject _ _ _ (demo_body 5 1 [7; 7]) 101)|].
  eapply rtc_l; [apply (sv_drain _ _ _ 2)|].
  eapply rtc_l; [apply (sv_rest_inject _ _ _ (demo_body 1 0 [0; 3]) 102)|]. apply rtc_refl.
Qed.

Lemma rest_grpc_agree_witness :
  get_members demo_worker 7 9 2 =
    (grpc_result drop_count <$> (rest_members demo_worker "+7" 9 (Some 2)).1, (rest_members demo_worker "+7" 9 (Some 2)).2).
Proof. apply (rest_grpc_agree demo_worker); [reflexivity|discriminate]. Defined.

Lemma api_serves_injections_witness :
  ∃ applied pending, demo_injections = applied ++ pending ∧
    ingest_tx demo_worker = Some (mkChannel (injected <$> pending) false) ∧
    answers demo_worker applied ∧ answers (foldl drain demo_worker (replicate (length pending) 256%nat)) demo_injections.
Proof. exact (api_serves_injections (H := merge_edge_sort) snoc true true "w1" demo_worker demo_injections demo_worker_reached). Defined.

Lemma api_members_bounded_witness :
  ∃ r, (rest_members demo_worker "7" 9 (Some 2)).1 = Some (Ok r) ∧ mp_truncated r = true ∧ mp_count r = 2%nat ∧ NoDup (mp_members r).
Proof.
  destruct (api_members_bounded (H := merge_edge_sort) snoc true true "w1" demo_worker demo_injections "7" 9 (Some 2)
    demo_worker_reached) as (applied & _ & H).
  assert (parse_scope "7" = Ok 7) as Ep by (by vm_compute). rewrite Ep in H.
  assert (members_available (app_forest demo_worker) = true) as Ea by (by vm_compute). rewrite Ea in H. cbn -[demo_worker rest_members] in H.
  destruct H as (r & Hr & _ & _ & _ & _ & Hn & _). exists r. split; [exact Hr|].
  assert ((rest_members demo_worker "7" 9 (Some 2)).1 = Some (Ok (mkMembersResponse 7 9 1 [1; 5] 2 true))) as E by (by vm_compute).
  rewrite Hr in E. injection E as ->. split; [done|]. split; [done|exact Hn].
Defined.

Lemma serving_typed_witness :
  (∃ tx, ingest_tx demo_worker = Some tx ∧ Forall event_typed (queue tx)) ∧ pipeline_typed (app_pipeline demo_worker).
Proof.
  destruct (serving_typed (H := merge_edge_sort) snoc true true "w1" demo_worker demo_injections demo_worker_reached) as (H1 & H2 & _).
  - apply (bool_decide_unpack _). by vm_compute.
  - split; [exact H1|exact H2].
Defined.
