(* ===== verification/Simulator.v ===== *)
(** Made-up traffic: the firehose simulator of [src/ingest/source.rs], which feeds the
    channel of the ingest task, and the generator of [examples/edge_log.rs], which writes
    the log a worker consumes.

    The random number generator is a parameter, a function of its state that answers
    inside the range it is asked for; asked for an empty range it panics, as [rand]
    documents, which is [None]. The clock is a parameter too. *)

From S2P Require Import Prelude Types Bytes Stream Decimal Graph Dsu RoutingBase Forest ForestInv FoldInv Buffer Pipeline Log LogInv LogProps Members MembersInv Serve ServeProps Puffin.

(** [SimulatorConfig], less the seed. *)
Record SimulatorConfig := mkSimulator {
  sim_rate : N;
  sim_nodes : N;
  sim_scopes : N;
  global_pct : N;
  multi_scope_pct : N;
}.

(** [SimulatorConfig::default]. *)
Definition simulator_default : SimulatorConfig := mkSimulator 5000 1000000 3000 15 5.

(** A generator answers inside the range it is asked for. *)
Class Rng (G : Type) := {
  random_range : N → N → G → N * G;
  random_in lo hi g : lo < hi → lo <= (random_range lo hi g).1 < hi;
}.

(** [rng.random_range(lo..hi)]. *)
Definition draw `{!Rng G} (lo hi : N) (g : G) : option (N * G) :=
  if lo <? hi then Some (random_range lo hi g) else None.

(** The visibility both programs draw: global, of one scope or of two. *)
Definition draw_visibility `{!Rng G} (scopes global multi : N) (g : G) : option (Visibility * G) :=
  '(p, g) ← draw 0 100 g;
  if p <? global then Some (Global, g) else
  '(s1, g) ← draw 1 (scopes + 1) g;
  '(q, g) ← draw 0 100 g;
  if q <? multi then
    '(s2, g) ← draw 1 (scopes + 1) g;
    Some (Scoped [s1; s2], g)
  else Some (Scoped [s1], g).

(** ** The firehose *)

Definition weight_props (w : N) : string :=
  String.append "{" (String.append (String.String (Ascii.ascii_of_N 34) "weight")
    (String.append (String.String (Ascii.ascii_of_N 34) ":") (String.append (to_string w) "}"))).

(** One event of the body of [run_simulator]'s loop. *)
Definition simulate_event `{!Rng G} (cfg : SimulatorConfig) (now : Z) (g : G) : option (EdgeEvent * G) :=
  '(u, g) ← draw 0 (sim_nodes cfg) g;
  '(v, g) ← draw 0 (sim_nodes cfg) g;
  '(vis, g) ← draw_visibility (sim_scopes cfg) (global_pct cfg) (multi_scope_pct cfg) g;
  '(w, g) ← draw 1 100 g;
  Some (mkEvent u v vis now (Some (weight_props w)), g).

Definition per_tick (cfg : SimulatorConfig) : nat := N.to_nat (N.max (sim_rate cfg / 50) 1).

Inductive SimState (G : Type) := SimRunning (g : G) | SimReturned | SimPanicked.
Arguments SimRunning {G}.
Arguments SimReturned {G}.
Arguments SimPanicked {G}.

(** The events of one 20 ms tick; [clock] is the time each is made. *)
Fixpoint burst `{!Rng G} (cfg : SimulatorConfig) (count : nat) (clock : nat → Z) (g : G) (tx : Channel) : SimState G * Channel :=
  match count with
  | O => (SimRunning g, tx)
  | S count =>
      match simulate_event cfg (clock O) g with
      | None => (SimPanicked, tx)
      | Some (event, g) =>
          match send tx event with
          | None => (SimReturned, tx)
          | Some tx => burst cfg count (fun i => clock (S i)) g tx
          end
      end
  end.

(** One turn of [run_simulator]. *)
Definition simulator_tick `{!Rng G} (cfg : SimulatorConfig) (clock : nat → Z) (st : SimState G) (tx : Channel) : SimState G * Channel :=
  match st with SimRunning g => burst cfg (per_tick cfg) clock g tx | _ => (st, tx) end.

(** ** What is drawn *)

(** An event over the nodes and scopes of a configuration. *)
Definition drawn (nodes scopes : N) (e : EdgeEvent) : Prop :=
  src e < nodes ∧ dst e < nodes ∧
  match visibility e with
  | Global => True
  | Scoped l => (1 <= length l <= 2)%nat ∧ Forall (fun s => 1 <= s <= scopes) l
  end.

Lemma draw_some `{!Rng G} lo hi (g : G) : lo < hi → ∃ x g', draw lo hi g = Some (x, g') ∧ lo <= x < hi.
Proof.
  intros H. unfold draw. destruct (N.ltb_spec lo hi); [|lia]. pose proof (random_in lo hi g H).
  destruct (random_range lo hi g) as [x g']. by exists x, g'.
Qed.

Lemma draw_empty `{!Rng G} lo hi (g : G) : hi <= lo → draw lo hi g = None.
Proof. intros H. unfold draw. destruct (N.ltb_spec lo hi); [lia|done]. Qed.

Lemma draw_visibility_some `{!Rng G} scopes global multi (g : G) :
  1 <= scopes →
  ∃ vis g', draw_visibility scopes global multi g = Some (vis, g') ∧
    match vis with Global => True | Scoped l => (1 <= length l <= 2)%nat ∧ Forall (fun s => 1 <= s <= scopes) l end.
Proof.
  intros H. unfold draw_visibility. destruct (draw_some 0 100 g ltac:(lia)) as (p & g1 & -> & _). cbn [mbind option_bind].
  destruct (p <? global); [by exists Global, g1|].
  destruct (draw_some 1 (scopes + 1) g1 ltac:(lia)) as (s1 & g2 & -> & H1). cbn [mbind option_bind].
  destruct (draw_some 0 100 g2 ltac:(lia)) as (q & g3 & -> & _). cbn [mbind option_bind]. destruct (q <? multi).
  - destruct (draw_some 1 (scopes + 1) g3 ltac:(lia)) as (s2 & g4 & -> & H2). cbn [mbind option_bind].
    exists (Scoped [s1; s2]), g4. cbn. split; [done|]. split; [lia|]. repeat constructor; lia.
  - exists (Scoped [s1]), g3. cbn. split; [done|]. split; [lia|]. repeat constructor; lia.
Qed.

Lemma simulate_event_some `{!Rng G} cfg now (g : G) :
  1 <= sim_nodes cfg → 1 <= sim_scopes cfg →
  ∃ e g', simulate_event cfg now g = Some (e, g') ∧ drawn (sim_nodes cfg) (sim_scopes cfg) e ∧ event_time_ms e = now.
Proof.
  intros Hn Hs. unfold simulate_event. destruct (draw_some 0 (sim_nodes cfg) g ltac:(lia)) as (u & g1 & -> & Hu). cbn [mbind option_bind].
  destruct (draw_some 0 (sim_nodes cfg) g1 ltac:(lia)) as (v & g2 & -> & Hv). cbn [mbind option_bind].
  destruct (draw_visibility_some (sim_scopes cfg) (global_pct cfg) (multi_scope_pct cfg) g2 Hs) as (vis & g3 & -> & Hvis).
  cbn [mbind option_bind]. destruct (draw_some 1 100 g3 ltac:(lia)) as (w & g4 & -> & _). cbn [mbind option_bind].
  eexists _, g4. split; [done|]. split; [|done]. split; [apply Hu|]. split; [apply Hv|done].
Qed.

(** A burst into an open channel sends all its events. *)
Lemma burst_sends `{!Rng G} cfg count : ∀ clock (g : G) q,
  1 <= sim_nodes cfg → 1 <= sim_scopes cfg →
  ∃ g' es, burst cfg count clock g (mkChannel q false) = (SimRunning g', mkChannel (q ++ es) false) ∧
    length es = count ∧ Forall (drawn (sim_nodes cfg) (sim_scopes cfg)) es.
Proof.
  induction count as [|count IH]; intros clock g q Hn Hs; cbn [burst].
  { exists g, []. by rewrite app_nil_r. }
  destruct (simulate_event_some cfg (clock O) g Hn Hs) as (e & g1 & -> & He & _). cbn [send receiver_gone queue].
  destruct (IH (fun i => clock (S i)) g1 (q ++ [e]) Hn Hs) as (g' & es & -> & Hl & Hes).
  exists g', (e :: es). rewrite <- app_assoc. split; [done|]. split; [by cbn; rewrite Hl|by constructor].
Qed.

(** A burst into a closed one sends nothing and ends the task; without nodes to draw from it panics. *)
Lemma burst_closed `{!Rng G} cfg count clock (g : G) q :
  1 <= sim_nodes cfg → 1 <= sim_scopes cfg →
  burst cfg (S count) clock g (mkChannel q true) = (SimReturned, mkChannel q true).
Proof.
  intros Hn Hs. cbn [burst]. by destruct (simulate_event_some cfg (clock O) g Hn Hs) as (e & g1 & -> & _ & _).
Qed.

Lemma burst_no_nodes `{!Rng G} cfg count clock (g : G) tx :
  sim_nodes cfg = 0 → burst cfg (S count) clock g tx = (SimPanicked, tx).
Proof. intros Hn. cbn [burst]. unfold simulate_event. by rewrite Hn, draw_empty. Qed.

Lemma per_tick_pos cfg : (1 <= per_tick cfg)%nat.
Proof. unfold per_tick. lia. Qed.

(** ** A worker fed by the simulator *)

Section simulated.
Context `{!Rng G} (cfg : SimulatorConfig).

(** The worker, the simulator's task, and the events that have been sent, by it or by a
    request. *)
Inductive sim_step : AppState * SimState G * list EdgeEvent → AppState * SimState G * list EdgeEvent → Prop :=
| sim_tick s st tx clock h st' tx' :
    ingest_tx s = Some tx → simulator_tick cfg clock st tx = (st', tx') →
    sim_step (s, st, h) (set_tx s tx', st', h ++ drop (length (queue tx)) (queue tx'))
| sim_inject s st body now s' h :
    rest_inject_edge s body now = (Ok tt, s') → sim_step (s, st, h) (s', st, h ++ [inject_event body now])
| sim_drain s st n h : sim_step (s, st, h) (drain s n, st, h)
| sim_ask s st raw node h : sim_step (s, st, h) ((rest_component s raw node).2, st, h).

(** What has been sent is absorbed or still queued, in order, and the simulator runs. *)
Record fed (x : AppState * SimState G * list EdgeEvent) (applied : list EdgeEvent) : Prop := {
  fd_running : ∃ g, x.1.2 = SimRunning g;
  fd_healthy : healthy (app_forest x.1.1) applied;
  fd_queue : ∃ pending, x.2 = applied ++ pending ∧ ingest_tx x.1.1 = Some (mkChannel pending false);
}.

Lemma fed_drain s st n h applied : fed (s, st, h) applied → ∃ more, fed (drain s n, st, h) (applied ++ more) ∧
  ∃ pending, h = applied ++ pending ∧ more = take (Nat.min n 256) pending.
Proof.
  intros [Hr Hf (pending & Hh & Hq)]. cbn [fst snd] in *. exists (take (Nat.min n 256) pending). split; [|by exists pending].
  assert (h = (applied ++ take (Nat.min n 256) pending) ++ drop (Nat.min n 256) pending) as E.
  { by rewrite Hh, <- app_assoc, take_drop. }
  split; cbn [fst snd]; [done| |].
  - unfold drain. rewrite Hq. cbn [queue receiver_gone]. destruct (take (Nat.min n 256) pending) as [|e es] eqn:Eb.
    + by rewrite app_nil_r.
    + rewrite <- Eb. unfold app_forest. cbn [app_pipeline run_one pl_forest]. rewrite mint_forest. by apply healthy_events.
  - exists (drop (Nat.min n 256) pending). split; [done|]. unfold drain. rewrite Hq. cbn [queue receiver_gone].
    destruct (take (Nat.min n 256) pending) as [|e es] eqn:Eb; [|done]. rewrite Hq. do 2 f_equal.
    rewrite <- (take_drop (Nat.min n 256) pending) at 1. by rewrite Eb.
Qed.

Lemma fed_all k : ∀ s st h applied pending,
  fed (s, st, h) applied → h = applied ++ pending → (length pending <= k)%nat → fed (foldl drain s (replicate k 256%nat), st, h) h.
Proof using.
  induction k as [|k IH]; intros s st h applied pending Hs Hh Hk; cbn [replicate foldl].
  { destruct pending; [|cbn in Hk; lia]. rewrite app_nil_r in Hh. by rewrite Hh in Hs |- *. }
  destruct (fed_drain _ _ 256 _ _ Hs) as (more & Hs' & pending' & Hp & ->). rewrite Hh in Hp. apply app_inv_head in Hp as <-.
  eapply (IH _ _ _ _ (drop (Nat.min 256 256) pending) Hs').
  - by rewrite <- app_assoc, take_drop.
  - rewrite length_drop. lia.
Qed.

Context (Hnodes : 1 <= sim_nodes cfg) (Hscopes : 1 <= sim_scopes cfg).

Lemma fed_step x y applied : sim_step x y → fed x applied → ∃ applied', fed y applied'.
Proof using Hnodes Hscopes.
  intros St Hx. destruct St as [s st tx clock h st' tx' Htx Ht|s st body now s' h Hi|s st n h|s st raw node h].
  - destruct Hx as [[g Hg] Hf (pending & Hh & Hq)]. cbn [fst snd] in *. subst st. rewrite Htx in Hq. injection Hq as ->.
    cbn [simulator_tick] in Ht. destruct (burst_sends cfg (per_tick cfg) clock g pending Hnodes Hscopes) as (g' & es & E & _ & _).
    rewrite E in Ht. injection Ht as <- <-. exists applied. split; cbn [fst snd]; [by exists g'|done|].
    exists (pending ++ es). cbn [queue]. by rewrite drop_app_length, Hh, <- app_assoc.
  - destruct Hx as [Hg Hf (pending & Hh & Hq)]. cbn [fst snd] in *. unfold rest_inject_edge in Hi. rewrite Hq in Hi.
    cbn [send receiver_gone queue] in Hi. injection Hi as <-. exists applied. split; cbn [fst snd]; [done|done|].
    exists (pending ++ [inject_event body now]). by rewrite Hh, <- app_assoc.
  - destruct (fed_drain _ _ n _ _ Hx) as (more & Hm & _). by eexists.
  - exists applied. destruct Hx as [Hg Hf Hq]. unfold rest_component. destruct (parse_scope raw) as [scope|]; [|done].
    cbn [fst snd] in *. pose proof (healthy_root _ _ scope node Hf) as Hr. destruct (scope_root _ _ _) as [root f]. by split.
Qed.

(** C22. The simulator never stops and loses nothing. With nodes and scopes to draw from, in
    every state a worker reaches by simulator ticks, injections, turns of the ingest task
    and queries: the simulator runs; what has been sent is, in order, what is absorbed and
    what is queued; the forest answers for the former; each further tick sends its number
    of events, over the nodes and scopes of the configuration; and enough turns make the
    forest answer for everything sent. *)
Theorem simulated_traffic_served (b leader : bool) (id : string) (g : G) s st h :
  rtc sim_step (worker_start b leader id, SimRunning g, []) (s, st, h) →
  ∃ g' applied pending, st = SimRunning g' ∧ h = applied ++ pending ∧ ingest_tx s = Some (mkChannel pending false) ∧
    (∀ sc x, is_component_min (visible_edges applied sc) x (scope_root (app_forest s) sc x).1) ∧
    (∀ clock, ∃ g2 es, simulator_tick cfg clock st (mkChannel pending false) = (SimRunning g2, mkChannel (pending ++ es) false) ∧
      length es = per_tick cfg ∧ Forall (drawn (sim_nodes cfg) (sim_scopes cfg)) es) ∧
    ∀ sc x, is_component_min (visible_edges h sc) x
      (scope_root (app_forest (foldl drain s (replicate (length pending) 256%nat))) sc x).1.
Proof using Hnodes Hscopes.
  intros R. assert (∃ applied, fed (s, st, h) applied) as (applied & Hs).
  { apply (rtc_ind_r (fun x => ∃ applied, fed x applied) (worker_start b leader id, SimRunning g, [])) in R; [exact R| |].
    - exists []. split; cbn [fst snd]; [by exists g|apply healthy_new|by exists []].
    - intros x y _ St (applied & IH). by eapply fed_step. }
  pose proof Hs as [[g' Hg] Hf (pending & Hh & Hq)]. cbn [fst snd] in *. exists g', applied, pending.
  split; [done|]. split; [done|]. split; [done|]. split; [intros sc x; apply absorbed_scope_min, Hf|]. split.
  - intros clock. rewrite Hg. by apply burst_sends.
  - intros sc x. apply absorbed_scope_min. by destruct (fed_all _ _ _ _ _ _ Hs Hh (le_n _)) as [_ [Ha _] _].
Qed.
End simulated.

(** ** Generated logs *)

Section generated.
Context `{!Rng G} (to_json : EdgeEvent → bytes) (from_json : bytes → option EdgeEvent).

(** One turn of the loop of [examples/edge_log.rs]: the event of line [i]. *)
Definition generate_event (nodes scopes global multi : N) (i : N) (g : G) : option (EdgeEvent * G) :=
  '(vis, g) ← draw_visibility scopes global multi g;
  '(u, g) ← draw 0 nodes g;
  '(v, g) ← draw 0 nodes g;
  Some (mkEvent u v vis (1700000000000 + Z.of_N i) None, g).

(** The loop: the text written, and the events it is the text of. *)
Fixpoint generate_log (nodes scopes global multi : N) (links : nat) (i : N) (g : G) : option (bytes * list EdgeEvent) :=
  match links with
  | O => Some ([], [])
  | S links =>
      '(e, g) ← generate_event nodes scopes global multi i g;
      '(text, es) ← generate_log nodes scopes global multi links (i + 1) g;
      Some (to_json e ++ newline :: text, e :: es)
  end.

(** What [serde_json::to_writer] writes: UTF-8 on one line, not blank and not ending in
    white space, and read back as what was written. *)
Context (json_line : ∀ e, newline ∉ to_json e ∧ utf8 (to_json e ++ [newline]) = true ∧ to_json e ≠ [] ∧
  trim_end (to_json e ++ [newline]) = to_json e).
Context (event_roundtrip : ∀ e, from_json (to_json e) = Some e).

Lemma generated nodes scopes global multi links : ∀ i g,
  1 <= nodes → 1 <= scopes →
  ∃ text es, generate_log nodes scopes global multi links i g = Some (text, es) ∧ length es = links ∧
    Forall (drawn nodes scopes) es ∧ holds from_json text es.
Proof using json_line event_roundtrip.
  induction links as [|links IH]; intros i g Hn Hs; cbn [generate_log].
  { exists [], []. split; [done|]. split; [done|]. split; [constructor|]. apply holds_tail; [set_solver|done]. }
  unfold generate_event. destruct (draw_visibility_some scopes global multi g Hs) as (vis & g1 & -> & Hv). cbn [mbind option_bind].
  destruct (draw_some 0 nodes g1 ltac:(lia)) as (u & g2 & -> & H1). cbn [mbind option_bind].
  destruct (draw_some 0 nodes g2 ltac:(lia)) as (v & g3 & -> & H2). cbn [mbind option_bind].
  destruct (IH (i + 1) g3 Hn Hs) as (text & es & -> & Hl & Hd & Hh). cbn [mbind option_bind].
  set (e := mkEvent u v vis _ None). destruct (json_line e) as (J1 & J2 & J3 & J4). eexists _, (e :: es).
  split; [done|]. split; [by cbn; rewrite Hl|]. split; [constructor; [split; [apply H1|split; [apply H2|done]]|done]|].
  apply holds_line; [done|done|by rewrite J4|by rewrite J4|done].
Qed.

(** C27. A generated log reads back. The file the generator writes has a line for each of its
    events, and a worker that consumes it from the start, in batches of any size, applies
    each of them once and then answers for all of them. *)
Theorem generated_log_replays (nodes scopes global multi : N) (links : nat) (g : G) (cfg : ConsumerConfig) :
  1 <= nodes → 1 <= scopes → N.of_nat links < u64_limit →
  ∃ text es, generate_log nodes scopes global multi links 0 g = Some (text, es) ∧ length es = links ∧
    Forall (drawn nodes scopes) es ∧
    ∃ log log' last p', parts_seek (opened [(0, text, es)]) pos_new = (Ok tt, log) ∧
      @consume _ (parts_source from_json) (S links) (fun _ => false) cfg log (resuming forest_new buffer_new pos_new) =
        Some (Ok last, log', p') ∧
      (∃ rs, rec_event <$> rs ≡ₚ es ∧ buffered (pl_buffer p') = rs ≫= record_rows) ∧
      ∀ s x, is_component_min (visible_edges es s) x (scope_root (pl_forest p') s x).1.
Proof using json_line event_roundtrip.
  intros Hn Hs Hl. destruct (generated nodes scopes global multi links 0 g Hn Hs) as (text & es & E & Hlen & Hd & Hh).
  exists text, es. split; [done|]. split; [done|]. split; [done|].
  destruct (replay_ok from_json [(0, text, es)] pos_new cfg forest_new buffer_new [] (S links)) as
    (log & log' & last & p' & rs & E1 & E2 & Hrs & _ & Hb & _ & Hq).
  - apply Forall_singleton. split; [done|]. cbn. rewrite Hlen. split; [|done]. rewrite (pos_get_None pos_new) by apply lookup_empty. lia.
  - repeat constructor; set_solver.
  - apply forest_new_absorbed.
  - by apply logged_perm.
  - cbn. rewrite app_nil_r. lia.
  - exists log, log', last, p'. split; [done|]. split; [done|]. split; [exists rs|].
    + split; [|done]. rewrite Hrs. cbn. rewrite app_nil_r. unfold all_of, pending_part. cbn [fst snd]. rewrite numbered_events.
      by rewrite (pos_get_None pos_new) by apply lookup_empty.
    + intros s x. specialize (Hq s x). cbn in Hq. by rewrite app_nil_r in Hq.
Qed.
End generated.

(** ** At work *)

(** A linear congruential generator. *)
#[export] Instance lcg : Rng N.
Proof.
  refine (Build_Rng N (fun lo hi g => (lo + (g / 2 ^ 33) `mod` (hi - lo), g ⊠ 6364136223846793005 ⊞ 1442695040888963407)) _).
  intros lo hi g H. cbn [fst]. pose proof (N.mod_lt (g / 2 ^ 33) (hi - lo)). lia.
Defined.

Definition demo_sim : SimulatorConfig := mkSimulator 100 8 3 30 50.

Definition demo_first : SimState N * Channel := simulator_tick demo_sim (fun i => 7 + Z.of_nat i)%Z (SimRunning 42) (mkChannel [] false).

Definition demo_mixed : AppState :=
  drain (rest_inject_edge (set_tx (worker_start true true "w") demo_first.2) (mkInject 1 9 [2] None) 9).2 2.

Lemma simulated_traffic_served_witness :
  ∃ g h, rtc (sim_step demo_sim) (worker_start true true "w", SimRunning 42, []) (demo_mixed, SimRunning g, h) ∧ length h = 3%nat ∧
    ∀ sc x, is_component_min (visible_edges h sc) x (scope_root (app_forest (drain demo_mixed 256)) sc x).1.
Proof.
  set (h := queue demo_first.2 ++ [inject_event (mkInject 1 9 [2] None) 9]).
  assert (∃ g, demo_first.1 = SimRunning g) as [g Hg] by (eexists; by vm_compute).
  assert (rtc (sim_step demo_sim) (worker_start true true "w", SimRunning 42, []) (demo_mixed, SimRunning g, h)) as R.
  { eapply rtc_l; [apply (sim_tick demo_sim _ _ (mkChannel [] false) (fun i => 7 + Z.of_nat i)%Z [] demo_first.1 demo_first.2);
      [done|apply surjective_pairing]|].
    rewrite Hg. eapply rtc_l; [apply (sim_inject demo_sim _ _ (mkInject 1 9 [2] None) 9), surjective_pairing|].
    eapply rtc_l; [apply (sim_drain demo_sim _ _ 2)|]. apply rtc_refl. }
  exists g, h. split; [exact R|]. split; [by vm_compute|].
  destruct (simulated_traffic_served demo_sim ltac:(by vm_compute) ltac:(by vm_compute) true true "w" 42 demo_mixed (SimRunning g) h R)
    as (g' & applied & pending & _ & _ & Hq & _ & _ & Hall).
  assert (from_option (fun tx => length (queue tx)) 0%nat (ingest_tx demo_mixed) = 1%nat) as Hl by (by vm_compute).
  rewrite Hq in Hl. cbn in Hl. rewrite Hl in Hall. exact Hall.
Defined.

(** An encoding of events as lines of digits. *)
#[export] Instance Visibility_countable : Countable Visibility.
Proof.
  apply (inj_countable' (fun v => match v with Global => None | Scoped l => Some l end)
    (fun o => match o with None => Global | Some l => Scoped l end)). by intros [].
Defined.

#[export] Instance EdgeEvent_eq_dec : EqDecision EdgeEvent.
Proof. solve_decision. Defined.

#[export] Instance EdgeEvent_countable : Countable EdgeEvent.
Proof.
  apply (inj_countable' (fun e => (src e, dst e, visibility e, event_time_ms e, props e))
    (fun '(u, v, vis, t, p) => mkEvent u v vis t p)). by intros [].
Defined.

Definition demo_event_to_json (e : EdgeEvent) : bytes := ((fun b => b + 48) <$> pos_bytes (encode e)) ++ [93].

Definition demo_event_from_json (l : bytes) : option EdgeEvent :=
  decode (bytes_pos ((fun b => b - 48) <$> take (length l - 1) l)).

Lemma demo_event_roundtrip e : demo_event_from_json (demo_event_to_json e) = Some e.
Proof.
  unfold demo_event_from_json, demo_event_to_json. rewrite length_app, Nat.add_sub, take_app_length, <- list_fmap_compose.
  assert ((fun b => b - 48) ∘ (fun b => b + 48) <$> pos_bytes (encode e) = pos_bytes (encode e)) as ->.
  { rewrite <- (list_fmap_id (pos_bytes (encode e))) at 2. apply list_fmap_ext. intros i x _. cbn. lia. }
  assert (∀ p, bytes_pos (pos_bytes p) = p) as -> by (induction p; cbn; congruence). apply decode_encode.
Qed.

Lemma demo_event_digits e : Forall (fun b => 48 <= b < 128) (demo_event_to_json e).
Proof.
  apply Forall_app. split; [|repeat constructor; lia]. apply Forall_fmap. generalize (encode e).
  induction p as [p IH|p IH|]; cbn; constructor; try done; cbn; lia.
Qed.

Lemma ascii_utf8 l : Forall (fun b => b < 128) l → utf8 l = true.
Proof. induction 1 as [|b l Hb _ IH]; [done|]. cbn. by destruct (N.ltb_spec b 128); [|lia]. Qed.

Lemma demo_event_line e :
  newline ∉ demo_event_to_json e ∧ utf8 (demo_event_to_json e ++ [newline]) = true ∧ demo_event_to_json e ≠ [] ∧
  trim_end (demo_event_to_json e ++ [newline]) = demo_event_to_json e.
Proof.
  pose proof (demo_event_digits e) as Hd. split_and!.
  - rewrite Forall_forall in Hd. intros Hin%Hd. unfold newline in Hin. lia.
  - apply ascii_utf8, Forall_app. split; [|by repeat constructor]. eapply Forall_impl; [exact Hd|]. cbn. lia.
  - unfold demo_event_to_json. intros E%(f_equal length). rewrite length_app in E. cbn in E. lia.
  - unfold trim_end, demo_event_to_json. rewrite <- app_assoc, reverse_app.
    set (x := _ <$> _). change (reverse (93 :: reverse x) = x ++ [93]). by rewrite reverse_cons, reverse_involutive.
Qed.

Lemma generated_log_replays_witness :
  ∃ text es log log' last p', generate_log demo_event_to_json 8 3 30 50 4 0 42 = Some (text, es) ∧ length es = 4%nat ∧
    parts_seek (opened [(0, text, es)]) pos_new = (Ok tt, log) ∧
    @consume _ (parts_source demo_event_from_json) 5 (fun _ => false) (mkConsumer 3) log (resuming forest_new buffer_new pos_new) =
      Some (Ok last, log', p') ∧
    ∀ s x, is_component_min (visible_edges es s) x (scope_root (pl_forest p') s x).1.
Proof.
  destruct (generated_log_replays demo_event_to_json demo_event_from_json demo_event_line demo_event_roundtrip 8 3 30 50 4 42 (mkConsumer 3))
    as (text & es & E & Hl & _ & log & log' & last & p' & E1 & E2 & _ & Hq); [lia|lia|by vm_compute|].
  exists text, es, log, log', last, p'. exact (conj E (conj Hl (conj E1 (conj E2 Hq)))).
Defined.
