(* ===== verification/LocalRuns.v ===== *)
(** The bookkeeping of a worker's stack: the free functions and the small types of
    [src/storage/flush.rs]. *)

From S2P Require Import Prelude Types Bytes Stream Decimal ObjectStore Catalog Layered.

(** [LocalRun]. *)
Record LocalRun := mkLocal {
  lr_path : string;
  lr_remote : option Path;
  lr_level : N;
  lr_min : N;
  lr_max : N;
  lr_pairs : N;
  lr_bytes : N;
}.

(** [LocalLayers]. *)
Record LocalLayers := mkLocalLayers { ll_base : LayeredBase; ll_runs : list LocalRun }.

(** [LocalRun::written]. *)
Definition written (path : string) (mapped : Layer) (level lo hi : N) : LocalRun :=
  let stats := ly_stats mapped in
  mkLocal path None level lo hi (bst_shared_pairs stats + bst_overlay_pairs stats) (bst_mapped_bytes stats).

(** [LocalRun::committed]. *)
Definition committed (meta : RunMeta) (path : string) (mapped : Layer) : LocalRun :=
  let stats := ly_stats mapped in
  mkLocal path (Some (run_path meta)) (run_level meta) (min_sequence meta) (max_sequence meta)
    (bst_shared_pairs stats + bst_overlay_pairs stats) (bst_mapped_bytes stats).

(** [LocalRun::meta]. *)
Definition local_meta (r : LocalRun) (path : Path) : RunMeta :=
  mkRun path (lr_level r) (lr_min r) (lr_max r) (lr_pairs r) (lr_bytes r).

(** [LocalLayers::base_sequence]. *)
Definition base_sequence (l : LocalLayers) : N := from_option lr_max 0 (head (ll_runs l)).

Definition has_remote (r : LocalRun) : bool := bool_decide (is_Some (lr_remote r)).

(** [LocalLayers::fully_committed]. *)
Definition fully_committed (l : LocalLayers) : bool := forallb has_remote (ll_runs l).

(** The metas of runs that must all have an object. *)
Fixpoint remote_metas (rs : list LocalRun) : option (list RunMeta) :=
  match rs with
  | [] => Some []
  | r :: rs => remote ← lr_remote r; rest ← remote_metas rs; Some (local_meta r remote :: rest)
  end.

(** [LocalLayers::run_metas]. *)
Definition run_metas (l : LocalLayers) (newest_remote : Path) : option (list RunMeta) :=
  newest ← last (ll_runs l);
  out ← remote_metas (take (length (ll_runs l) - 1) (ll_runs l));
  Some (out ++ [local_meta newest (default newest_remote (lr_remote newest))]).

Definition set_remote (remote : Path) (r : LocalRun) : LocalRun :=
  mkLocal (lr_path r) (Some remote) (lr_level r) (lr_min r) (lr_max r) (lr_pairs r) (lr_bytes r).

(** [LocalLayers::mark_committed]. *)
Definition mark_committed (l : LocalLayers) (remote : Path) : LocalLayers :=
  mkLocalLayers (ll_base l) (alter (set_remote remote) (length (ll_runs l) - 1)%nat (ll_runs l)).

(** [run_set_format]. *)
Definition run_set_format (rs : list RunMeta) : N := if bool_decide (rs = []) then 0 else FORMAT_RUN_SETS.

(** [snapshot_format]. *)
Definition snapshot_format (rs : list RunMeta) (position : StreamPosition) : N :=
  let base := run_set_format rs in
  if base =? 0 then 0
  else match as_scalar position with None => N.max base FORMAT_STREAM_POSITION | Some _ => base end.

(** The first window of [runs] whose paths are [inputs]. *)
Fixpoint window_at (rs : list LocalRun) (inputs : list string) (at_ : nat) : option nat :=
  if (length rs <? length inputs)%nat then None
  else if bool_decide (lr_path <$> take (length inputs) rs = inputs) then Some at_
  else match rs with [] => None | _ :: rs => window_at rs inputs (S at_) end.

(** [locate_run_window]. *)
Definition locate_run_window (rs : list LocalRun) (inputs : list string) : option (nat * nat) :=
  if bool_decide (inputs = []) || (length rs <? length inputs)%nat then None
  else i ← window_at rs inputs 0; Some (i, (i + length inputs)%nat).

(** [run_object_path], the UUID given. *)
Definition run_object_path (table_prefix : Path) (sequence : N) (uuid : string) : Path :=
  table_prefix ++ ["puffin"; String.append "dsu-" (String.append (pad_zeros 12 sequence)
    (String.append "-" (String.append uuid ".puffin")))].

(** The file name of a Parquet data file, the UUID given. *)
Definition data_object_path (table_prefix : Path) (sequence : N) (uuid : string) : Path :=
  table_prefix ++ ["data"; String.append "part-" (String.append (pad_zeros 12 sequence)
    (String.append "-" (String.append uuid ".parquet")))].

(** A path as text: its segments joined. *)
Definition path_string (p : Path) : string := String.concat "/" p.

Definition hex_digit (d : N) : Ascii.ascii := if d <? 10 then digit d else Ascii.ascii_of_N (87 + d).

(** [format!("{n:016x}")]: sixteen hexadecimal digits. *)
Fixpoint hex_go (digits : nat) (n : N) (acc : string) : string :=
  match digits with O => acc | S d => hex_go d (n / 16) (String.String (hex_digit (n `mod` 16)) acc) end.

(** FNV-1a of a path. *)
Definition path_hash (p : Path) : N :=
  foldl (fun hash b => N.lxor hash b ⊠ 0x100000001b3) 0xcbf29ce484222325 (string_bytes (path_string p)).

(** [run_cache_name]. *)
Definition run_cache_name (r : RunMeta) : string :=
  String.append "routing-run-" (String.append (pad_zeros 12 (min_sequence r)) (String.append "-"
    (String.append (pad_zeros 12 (max_sequence r)) (String.append "-"
      (String.append (hex_go 16 (path_hash (run_path r)) "") ".puffin"))))).

Definition set_max (sequence : N) (r : RunMeta) : RunMeta :=
  mkRun (run_path r) (run_level r) (min_sequence r) sequence (run_pairs r) (run_bytes r).

(** [splice_run_set]. *)
Definition splice_run_set (inputs : list LocalRun) (start end_ : nat) (merged : RunMeta) (sequence : N)
    : option (list RunMeta) :=
  below ← remote_metas (take start inputs);
  above ← remote_metas (drop end_ inputs);
  let out := below ++ [merged] ++ above in
  Some (alter (set_max sequence) (length out - 1)%nat out).

(** [merged_level]; a level is a [u8]. *)
Definition merged_level (inputs : list LocalRun) : N :=
  match inputs with
  | [] => 0
  | _ => N.min 255 (foldr (fun r => N.max (lr_level r)) 0 inputs + 1)
  end.

(** [Display] of a position. *)
Definition pos_to_string (p : StreamPosition) : string :=
  if pos_is_empty p then "(nothing)"
  else String.concat "," ((fun po => String.append (u64_to_string po.1) (String.append ":" (u64_to_string po.2))) <$> pos_iter p).

(** [puffin_metadata]. *)
Definition puffin_metadata (position : StreamPosition) : gmap string string :=
  let meta := <["created-by" := "blaze"]> (<["position" := pos_to_string position]> ∅) in
  match as_scalar position with Some scalar => <["watermark" := u64_to_string scalar]> meta | None => meta end.

(** The lowest offset per partition of what is about to be persisted, and the highest. *)
Definition lower (m : gmap PartitionId N) (po : PartitionId * N) : gmap PartitionId N :=
  <[po.1 := match m !! po.1 with Some held => N.min held po.2 | None => po.2 end]> m.

Definition low_of (firsts : list StreamPosition) : StreamPosition :=
  let low := foldl (fun m f => foldl lower m (pos_iter f)) ∅ firsts in
  from_iter ((fun p => (p, default 0 (low !! p))) <$> sorted_keys low).
