(* ===== verification/LocalRunsInv.v ===== *)
(** Run sets as a worker describes them: when a commit's run set is one the catalog
    accepts, for a delta, a full fold and a merge. *)

From S2P Require Import Prelude Types Bytes Stream Decimal ObjectStore Catalog CatalogInv CatalogProps Layered LocalRuns TierPolicy PuffinBase.

(** [m] describes [r], which is in the store. *)
Definition describes (r : LocalRun) (m : RunMeta) : Prop := ∃ p, lr_remote r = Some p ∧ m = local_meta r p.

Lemma remote_metas_describes rs ms : remote_metas rs = Some ms ↔ Forall2 describes rs ms.
Proof.
  revert ms. induction rs as [|r rs IH]; intros ms; cbn [remote_metas].
  - split; [by intros [= <-]|]. by intros ->%Forall2_nil_inv_l.
  - split.
    + destruct (lr_remote r) as [p|] eqn:Hr; [|done]. cbn. destruct (remote_metas rs) as [rest|]; [|done]. cbn.
      intros [= <-]. constructor; [by exists p|]. by apply IH.
    + intros (m & ms' & (p & Hp & ->) & Hf & ->)%Forall2_cons_inv_l. rewrite Hp. cbn. apply IH in Hf. by rewrite Hf.
Qed.

Lemma remote_metas_some rs : forallb has_remote rs = true → ∃ ms, remote_metas rs = Some ms.
Proof.
  induction rs as [|r rs IH]; [by eexists|]. cbn. intros [Hr Hrs]%andb_prop. destruct (IH Hrs) as [ms Hms].
  unfold has_remote in Hr. apply bool_decide_eq_true in Hr as [p Hp]. rewrite Hp. cbn. rewrite Hms. by eexists.
Qed.

Lemma remote_metas_committed rs ms : remote_metas rs = Some ms → forallb has_remote rs = true.
Proof.
  intros Hm%remote_metas_describes. induction Hm as [|r m rs ms (p & Hp & _) _ IH]; [done|]. cbn.
  rewrite IH. unfold has_remote. rewrite Hp. done.
Qed.

Lemma remote_metas_app rs rs' ms ms' :
  remote_metas rs = Some ms → remote_metas rs' = Some ms' → remote_metas (rs ++ rs') = Some (ms ++ ms').
Proof. rewrite !remote_metas_describes. apply Forall2_app. Qed.

Lemma remote_metas_take rs ms n : remote_metas rs = Some ms → remote_metas (take n rs) = Some (take n ms).
Proof. rewrite !remote_metas_describes. apply Forall2_take. Qed.

Lemma remote_metas_drop rs ms n : remote_metas rs = Some ms → remote_metas (drop n rs) = Some (drop n ms).
Proof. rewrite !remote_metas_describes. apply Forall2_drop. Qed.

Lemma remote_metas_length rs ms : remote_metas rs = Some ms → length rs = length ms.
Proof. rewrite remote_metas_describes. apply Forall2_length. Qed.

(** A newest run that is not in the catalog yet is described by the object it is
    uploaded as. *)
Lemma run_metas_snoc base rs r ms object :
  remote_metas rs = Some ms → lr_remote r = None →
  run_metas (mkLocalLayers base (rs ++ [r])) object = Some (ms ++ [local_meta r object]).
Proof.
  intros Hm Hr. unfold run_metas. cbn [ll_runs]. rewrite last_snoc. cbn [mbind option_bind].
  rewrite length_app. cbn [length]. replace (length rs + 1 - 1)%nat with (length rs) by lia.
  rewrite take_app_length, Hm. cbn. by rewrite Hr.
Qed.

(** Once it is marked committed, the stack is described as it was published. *)
Lemma mark_committed_snoc base rs r ms object :
  remote_metas rs = Some ms →
  remote_metas (ll_runs (mark_committed (mkLocalLayers base (rs ++ [r])) object)) = Some (ms ++ [local_meta r object]).
Proof.
  intros Hm. unfold mark_committed. cbn [ll_runs ll_base]. rewrite length_app. cbn [length].
  replace (length rs + 1 - 1)%nat with (length rs + 0)%nat by lia. rewrite alter_app_r. cbn.
  eapply remote_metas_app; [done|]. done.
Qed.

(** ** Spans *)

(** A run that starts right after the tiled sequences extends them. *)
Lemma tiles_snoc ms lo hi m :
  tiles ms lo hi → lo <= hi → min_sequence m = hi + 1 → forward m → tiles (ms ++ [m]) lo (max_sequence m).
Proof.
  intros [Hf Ho Hc] Hlo Hm Hfm. unfold forward in Hfm. split.
  - apply Forall_app. split; [done|]. by repeat constructor.
  - apply StronglySorted_app_2; [|done|repeat constructor]. intros a b Ha Hb.
    apply list_elem_of_singleton in Hb as ->. unfold before. rewrite Forall_forall in Hf. specialize (Hf a Ha).
    assert (covered ms (max_sequence a)) as Hx%Hc by (exists a; split; [done|]; unfold in_span, forward in *; lia). lia.
  - intros q. rewrite covered_app, Hc, covered_cons. pose proof (covered_nil q). unfold in_span.
    split; [intros [|[|]]; [lia|lia|done]|]. intros Hq. destruct (decide (q <= hi)); [left; lia|right; left; lia].
Qed.

Lemma tiles_nonempty ms lo hi : tiles ms lo hi → lo <= hi → ms ≠ [].
Proof. intros [_ _ Hc] Hlo ->. apply (covered_nil lo), Hc. lia. Qed.

(** An ordered list of spans whose last two runs are not adjacent does not tile. *)
Lemma tiles_snoc_inv ms lo hi m lo' hi' :
  tiles ms lo hi → lo <= hi → forward m → tiles (ms ++ [m]) lo' hi' → min_sequence m = hi + 1.
Proof.
  intros [Hf Ho Hc] Hlo Hfm [Hf' Ho' Hc'].
  assert (∀ a, a ∈ ms → before a m) as Hb.
  { intros a Ha. eapply StronglySorted_app_1_elem_of; [exact Ho'|done|by left]. }
  assert (covered ms hi) as (a & Ha & Hin) by (apply Hc; lia). specialize (Hb a Ha) as Hbm.
  unfold before, in_span, forward in *.
  assert (covered (ms ++ [m]) hi) as Hhi%Hc' by (apply covered_app; left; apply Hc; lia).
  assert (covered (ms ++ [m]) (min_sequence m)) as Hmin%Hc'.
  { apply covered_app. right. exists m. split; [by left|]. unfold in_span. lia. }
  destruct (decide (min_sequence m = hi + 1)) as [|Hne]; [done|]. exfalso.
  assert (covered (ms ++ [m]) (hi + 1)) as Hgap by (apply Hc'; lia).
  apply covered_app in Hgap as [Hgap%Hc|(x & Hx & Hin')]; [lia|]. apply list_elem_of_singleton in Hx as ->.
  unfold in_span in Hin'. lia.
Qed.

(** What is read back from a snapshot: nothing in [run_set] depends on anything but the
    runs, the sequence and the format. *)
Lemma run_set_tiled m lo :
  Forall small_run (runs m) → tiles (runs m) lo (sm_sequence m) → lo <= sm_sequence m → run_set m = Ok (Runs (runs m)).
Proof. intros Hs Ht Hlo. apply run_set_ok; [done|]. split; [by eapply tiles_nonempty|]. split; [done|]. by exists lo. Qed.

(** ** What identifies a run

    A run's counts of pairs and bytes are for display: what a stack is described by is the
    objects, levels and spans of its runs. *)
Definition run_key (m : RunMeta) : Path * N * N * N := (run_path m, run_level m, min_sequence m, max_sequence m).

Lemma run_keys_forall2 ms ms' :
  run_key <$> ms = run_key <$> ms' → Forall2 (fun m m' => run_key m = run_key m') ms ms'.
Proof.
  revert ms'. induction ms as [|m ms IH]; intros [|m' ms'] E; [constructor|done|done|].
  rewrite !fmap_cons in E. injection E as E1 E2 E3 E4 E5. constructor; [unfold run_key; congruence|by apply IH].
Qed.

Lemma tiles_keys ms ms' lo hi : run_key <$> ms = run_key <$> ms' → tiles ms lo hi → tiles ms' lo hi.
Proof.
  intros E%run_keys_forall2 [Hf Ho Hc]. split.
  - clear Hc Ho. induction E as [|m m' ms ms' [= _ _ E1 E2] _ IH]; [constructor|].
    apply Forall_cons in Hf as [H1 H2]. constructor; [unfold forward in *; lia|by apply IH].
  - clear Hc Hf. induction E as [|m m' ms ms' [= _ _ E1 E2] E IH]; [constructor|].
    apply StronglySorted_inv in Ho as [H1 H2]. constructor; [by apply IH|]. clear IH H1.
    induction E as [|x x' ms ms' [= _ _ E3 E4] _ IH]; [constructor|].
    apply Forall_cons in H2 as [H1 H2]. constructor; [unfold before in *; lia|by apply IH].
  - intros q. rewrite <- Hc. clear Hc Hf Ho. induction E as [|m m' ms ms' [= _ _ E1 E2] _ IH]; [done|].
    rewrite !covered_cons, IH. unfold in_span. by rewrite E1, E2.
Qed.

(** ** A stack of committed runs

    The runs of a catalog, mapped from local files: what a cold start and an adopted merge
    leave. *)
Definition committed_all (rs : list RunMeta) (paths : list string) (lys : list Layer) : list LocalRun :=
  zip_with (fun mp l => committed mp.1 mp.2 l) (zip rs paths) lys.

Lemma committed_all_metas rs : ∀ paths lys, length rs = length paths → length rs = length lys →
  ∃ ms, remote_metas (committed_all rs paths lys) = Some ms ∧ run_key <$> ms = run_key <$> rs.
Proof.
  induction rs as [|r rs IH]; intros [|p paths] [|ly lys] Hp Hl; try done; [by exists []|]. injection Hp as Hp. injection Hl as Hl.
  destruct (IH paths lys Hp Hl) as (ms & Em & Ek). unfold committed_all in *. cbn [zip_with remote_metas committed lr_remote mbind option_bind].
  rewrite Em. eexists. split; [done|]. cbn. by rewrite Ek.
Qed.

Lemma committed_all_paths rs : ∀ paths lys, length rs = length paths → length rs = length lys →
  lr_path <$> committed_all rs paths lys = paths.
Proof.
  induction rs as [|r rs IH]; intros [|p paths] [|ly lys] Hp Hl; try done. injection Hp as Hp. injection Hl as Hl.
  cbn. f_equal. by apply IH.
Qed.

(** ** Splicing a merge *)

Lemma take_drop_window {A} (l : list A) a b :
  (a <= b)%nat → l = take a l ++ take (b - a) (drop a l) ++ drop b l.
Proof.
  intros Hab. rewrite <- (take_drop a l) at 1. f_equal. rewrite <- (take_drop (b - a) (drop a l)) at 1. f_equal.
  rewrite drop_drop. f_equal. lia.
Qed.

Lemma ordered_head b0 B x :
  StronglySorted before (b0 :: B) → Forall forward (b0 :: B) → x ∈ b0 :: B → min_sequence b0 <= min_sequence x.
Proof.
  intros Ho Hf Hx. apply ordered_min_le in Ho; [|done]. apply StronglySorted_inv in Ho as [_ Hb].
  apply elem_of_cons in Hx as [->|Hx]; [done|]. rewrite Forall_forall in Hb. by apply Hb.
Qed.

Lemma ordered_last B x b1 :
  StronglySorted before B → Forall forward B → x ∈ B → last B = Some b1 → max_sequence x <= max_sequence b1.
Proof.
  intros Ho Hf Hx Hl. apply last_Some in Hl as [B' ->]. apply elem_of_app in Hx as [Hx|Hx].
  - assert (before x b1) as Hb by (eapply StronglySorted_app_1_elem_of; [exact Ho|done|by left]).
    apply Forall_app in Hf as [_ [Hfb _]%Forall_cons]. unfold before, forward in *. lia.
  - apply list_elem_of_singleton in Hx as ->. done.
Qed.

(** Replacing a window by one run with the window's span. *)
Lemma tiles_splice A B C m b0 b1 lo hi :
  tiles (A ++ B ++ C) lo hi → head B = Some b0 → last B = Some b1 →
  min_sequence m = min_sequence b0 → max_sequence m = max_sequence b1 → tiles (A ++ [m] ++ C) lo hi.
Proof.
  intros [Hf Ho Hc] Hh Hl Hmin Hmax.
  apply Forall_app in Hf as [HfA Hf]. apply Forall_app in Hf as [HfB HfC].
  pose proof Ho as Ho0. apply StronglySorted_app in Ho as (HAr & HoA & Ho). apply StronglySorted_app in Ho as (HBC & HoB & HoC).
  destruct B as [|b B]; [done|]. injection Hh as ->.
  assert (b1 ∈ b0 :: B) as Hb1 by (apply last_Some in Hl as [B' ->]; apply elem_of_app; right; by left).
  assert (forward m) as Hfm.
  { unfold forward. rewrite Hmin, Hmax. pose proof (ordered_head b0 B b1 HoB HfB Hb1).
    rewrite Forall_forall in HfB. specialize (HfB b1 Hb1). unfold forward in HfB. lia. }
  assert (∀ a, a ∈ A → before a m) as HA.
  { intros a Ha. specialize (HAr a b0 Ha). unfold before in *. rewrite Hmin. apply HAr, elem_of_app. left. by left. }
  assert (∀ c, c ∈ C → before m c) as HC.
  { intros c Hcc. specialize (HBC b1 c Hb1 Hcc). unfold before in *. lia. }
  split.
  - apply Forall_app. split; [done|]. apply Forall_app. split; [by repeat constructor|done].
  - apply StronglySorted_app_2; [|done|].
    + intros a x Ha Hx. apply elem_of_app in Hx as [->%list_elem_of_singleton|Hx]; [by apply HA|].
      apply HAr; [done|]. apply elem_of_app. by right.
    + apply StronglySorted_app_2; [|repeat constructor|done]. intros x c ->%list_elem_of_singleton. apply HC.
  - intros q. rewrite <- Hc, !covered_app. assert (covered [m] q ↔ covered (b0 :: B) q) as Hmb; [|tauto].
    rewrite covered_cons. unfold in_span. rewrite Hmin, Hmax. split.
    + intros [Hq|Hq]; [|by apply covered_nil in Hq].
      assert (covered (A ++ (b0 :: B) ++ C) q) as Hcq.
      { apply Hc. assert (covered (A ++ (b0 :: B) ++ C) (min_sequence b0)) as H0%Hc.
        { apply covered_app. right. apply covered_app. left. exists b0. split; [by left|].
          apply Forall_cons in HfB as [Hb _]. unfold in_span, forward in *. lia. }
        assert (covered (A ++ (b0 :: B) ++ C) (max_sequence b1)) as H1%Hc.
        { apply covered_app. right. apply covered_app. left. exists b1. split; [done|].
          rewrite Forall_forall in HfB. specialize (HfB b1 Hb1). unfold in_span, forward in *. lia. }
        lia. }
      rewrite !covered_app in Hcq. destruct Hcq as [(x & Hx & Hin)|[Hcq|(x & Hx & Hin)]]; [|done|]; exfalso.
      * specialize (HA x Hx). unfold before, in_span in *. lia.
      * specialize (HC x Hx). unfold before, in_span in *. lia.
    + intros (x & Hx & Hin). left. pose proof (ordered_head b0 B x HoB HfB Hx).
      pose proof (ordered_last _ x b1 HoB HfB Hx Hl). unfold in_span in Hin. lia.
Qed.

(** Moving the end of the newest run. *)
Lemma tiles_extend ms lo hi sequence :
  tiles ms lo hi → lo <= hi → hi <= sequence → tiles (alter (set_max sequence) (length ms - 1)%nat ms) lo sequence.
Proof.
  intros [Hf Ho Hc] Hlo Hs. destruct (last ms) as [m|] eqn:Hl.
  2: { apply last_None in Hl as ->. exfalso. apply (covered_nil lo), Hc. lia. }
  pose proof Hl as Hl0. apply last_Some in Hl as [A ->]. rewrite length_app. cbn [length].
  replace (length A + 1 - 1)%nat with (length A + 0)%nat by lia. rewrite alter_app_r. cbn.
  apply Forall_app in Hf as [HfA [Hfm _]%Forall_cons]. pose proof Ho as Ho0.
  apply StronglySorted_app in Ho as (HAm & HoA & _).
  assert (max_sequence m = hi) as Hm.
  { assert (covered (A ++ [m]) hi) as (x & Hx & Hin) by (apply Hc; lia).
    pose proof (ordered_last _ x m Ho0 ltac:(apply Forall_app; by repeat constructor) Hx Hl0).
    assert (covered (A ++ [m]) (max_sequence m)) as H1%Hc.
    { apply covered_app. right. exists m. split; [by left|]. unfold in_span, forward in *. lia. }
    unfold in_span in Hin. lia. }
  unfold forward in Hfm. split.
  - apply Forall_app. split; [done|]. repeat constructor. unfold forward. cbn. lia.
  - apply StronglySorted_app_2; [|done|repeat constructor]. intros a x Ha ->%list_elem_of_singleton.
    specialize (HAm a m Ha ltac:(by left)). unfold before in *. by cbn.
  - assert (covered (A ++ [m]) (min_sequence m)) as Hmin%Hc.
    { apply covered_app. right. exists m. split; [by left|]. unfold in_span. lia. }
    intros q. specialize (Hc q). rewrite covered_app, covered_cons in *. pose proof (covered_nil q).
    unfold in_span in *. cbn [set_max min_sequence max_sequence]. split.
    + intros [HA|[Hin|Hn]]; [|lia|done]. assert (lo <= q <= hi) by (apply Hc; by left). lia.
    + intros Hq. destruct (decide (q <= hi)); [|right; left; lia].
      destruct (proj2 Hc ltac:(lia)) as [|[|]]; [by left|right; left; lia|done].
Qed.

(** ** Run sets a worker publishes *)

(** The window [start..end_] of a stack, merged: what [start_merge] plans and
    [adopt_merge] publishes. *)
Lemma splice_run_set_ok rs ms start end_ object level pairs size lo hi sequence :
  remote_metas rs = Some ms → tiles ms lo hi → lo <= hi → hi <= sequence → (start < end_ <= length rs)%nat →
  let window := take (end_ - start) (drop start rs) in
  let merged := mkRun object level (from_option lr_min 0 (head window)) (from_option lr_max 0 (last window)) pairs size in
  ∃ out, splice_run_set rs start end_ merged sequence = Some out ∧ tiles out lo sequence ∧
    length out = (length rs - (end_ - start) + 1)%nat.
Proof.
  intros Hm Ht Hlo Hs Hr window merged. pose proof (remote_metas_length _ _ Hm) as Hlen.
  unfold splice_run_set. rewrite (remote_metas_take _ _ _ Hm), (remote_metas_drop _ _ _ Hm). cbn [mbind option_bind].
  eexists. split; [done|]. rewrite (take_drop_window ms start end_) in Ht by lia.
  assert (Forall2 describes window (take (end_ - start) (drop start ms))) as HW.
  { unfold window. apply remote_metas_describes in Hm. by apply Forall2_take, Forall2_drop. }
  set (W := take (end_ - start) (drop start ms)) in *.
  assert (window ≠ []) as Hw0.
  { intros E. apply (f_equal length) in E. unfold window in E. rewrite length_take, length_drop in E. cbn in E. lia. }
  assert (tiles (take start ms ++ [merged] ++ drop end_ ms) lo hi) as Ht'.
  { destruct (last W) as [b1|] eqn:Hl1; [|apply last_None in Hl1; rewrite Hl1 in HW; by apply Forall2_nil_inv_r in HW].
    destruct W as [|b0 W'] eqn:HWe; [done|].
    assert (∃ r1, last window = Some r1 ∧ describes r1 b1) as (r1 & Hr1 & (p1 & _ & Hd1)).
    { apply last_Some in Hl1 as [W1 HW1]. rewrite HW1 in HW. apply Forall2_app_inv_r in HW as (x & y & _ & Hy & ->).
      apply Forall2_cons_inv_r in Hy as (r1 & y' & Hd & Hnil & ->). apply Forall2_nil_inv_r in Hnil as ->.
      exists r1. by rewrite last_snoc. }
    apply Forall2_cons_inv_r in HW as (r0 & w' & (p0 & _ & Hd0) & _ & Hwe).
    apply (tiles_splice _ (b0 :: W') _ merged b0 b1); [done|done|done| |].
    - unfold merged. cbn [min_sequence]. rewrite Hwe, Hd0. done.
    - unfold merged. cbn [max_sequence]. rewrite Hr1, Hd1. done. }
  split; [by apply tiles_extend with hi|].
  rewrite length_alter, !length_app, length_take, length_drop. cbn [length]. lia.
Qed.

Lemma pick_merge_range levels fanout max_runs a b :
  pick_merge levels fanout max_runs = Some (a, b) → (a < b <= length levels)%nat.
Proof.
  unfold pick_merge. pose proof (lowest_stretch_spec levels (Nat.max fanout 2)) as [B1 _].
  destruct (lowest_stretch levels (Nat.max fanout 2)) as [[a' b']|].
  - intros [= -> <-]. destruct (B1 a b' eq_refl) as (l & [Hab _] & _ & Hm & _). lia.
  - pose proof (lowest_stretch_spec levels 2) as [C1 _]. destruct (_ <=? _)%nat; [|done].
    intros Hp. destruct (C1 a b Hp) as (l & [Hab _] & _). lia.
Qed.

(** A stack that is all in the catalog can carry the delta of [sequence] exactly when
    the stack ends right below it: the commit's run set names the runs there were and
    the new one, and it is one the catalog accepts if and only if the last committed
    span of this worker ends at [sequence - 1]. *)
Theorem delta_run_set_iff (l : LocalLayers) (ms : list RunMeta) (lo hi sequence : N) (path : string) (ly : Layer)
    (object : Path) (m : SnapshotMeta) :
  remote_metas (ll_runs l) = Some ms → tiles ms lo hi → lo <= hi → Forall small_run ms →
  hi < sequence → sequence + 1 < u64_limit → sm_sequence m = sequence →
  run_metas (mkLocalLayers (layered_pushed (ll_base l) ly) (ll_runs l ++ [written path ly 0 sequence sequence])) object =
    Some (runs m) →
  (∃ rs, run_set m = Ok (Runs rs)) ↔ hi + 1 = sequence.
Proof.
  intros Hm Ht Hlo Hsm Hhi Hsq Hseq Hr.
  erewrite run_metas_snoc in Hr; [|done|done]. injection Hr as Hr.
  assert (Forall small_run (runs m)) as Hs.
  { rewrite <- Hr. apply Forall_app. split; [done|]. by repeat constructor. }
  split.
  - intros [rs Hrs]. apply run_set_ok in Hrs as (_ & Hp & lo' & [_ _ Hc'] & _); [|done]. rewrite Hseq in Hc'.
    assert (covered rs hi) as Hh%Hc'.
    { destruct (proj2 (tl_covers _ _ _ Ht hi) ltac:(lia)) as (x & Hx & Hin). exists x. split; [|done].
      rewrite Hp, <- Hr. apply elem_of_app. by left. }
    assert (covered rs (hi + 1)) as (x & Hx & Hin) by (apply Hc'; lia).
    rewrite Hp, <- Hr in Hx. apply elem_of_app in Hx as [Hx|Hx].
    + assert (covered ms (hi + 1)) as Hbad%(tl_covers _ _ _ Ht) by (by exists x). lia.
    + apply list_elem_of_singleton in Hx as ->. unfold in_span in Hin. cbn in Hin. lia.
  - intros <-. exists (runs m). apply run_set_tiled with lo; [done| |lia]. rewrite <- Hr, Hseq.
    eapply (tiles_snoc ms lo hi); [done|done|done|]. by unfold forward.
Qed.

(** Publishing a merge keeps the run set one the catalog accepts: when the stack's runs
    are in the store and tile [lo..=hi], the window a merge replaces goes, the merged run
    takes its span, the newest run is stretched to the commit's own sequence, and the
    result, one run shorter per run subsumed, is accepted as it is. *)
Theorem merge_run_set_accepted (rs : list LocalRun) (ms : list RunMeta) (start end_ : nat) (object : Path)
    (level pairs size lo hi sequence : N) (m : SnapshotMeta) :
  remote_metas rs = Some ms → tiles ms lo hi → lo <= hi → hi <= sequence → sequence + 1 < u64_limit →
  (start < end_ <= length rs)%nat →
  let window := take (end_ - start) (drop start rs) in
  let merged := mkRun object level (from_option lr_min 0 (head window)) (from_option lr_max 0 (last window)) pairs size in
  sm_sequence m = sequence → splice_run_set rs start end_ merged sequence = Some (runs m) →
  run_set m = Ok (Runs (runs m)) ∧ tiles (runs m) lo sequence ∧
  (length (runs m) + (end_ - start) = length rs + 1)%nat.
Proof.
  intros Hm Ht Hlo Hs Hsq Hr window merged Hseq Hsp.
  destruct (splice_run_set_ok rs ms start end_ object level pairs size lo hi sequence Hm Ht Hlo Hs Hr) as (out & Ho & Hto & Hlen).
  change (splice_run_set rs start end_ merged sequence = Some out) in Ho. rewrite Hsp in Ho. injection Ho as Ho. rewrite <- Ho in *. split; [|split; [done|lia]].
  apply run_set_tiled with lo; [|by rewrite Hseq|lia]. destruct Hto as [Hf _ Hc]. rewrite Forall_forall in *.
  intros x Hx. assert (covered (runs m) (max_sequence x)) as Hb%Hc.
  { exists x. split; [done|]. specialize (Hf x Hx). unfold in_span, forward in *. lia. }
  unfold small_run. lia.
Qed.

(** A run of nothing, and two committed runs over sequences 1 to 5. *)
Definition bare_layer : Layer := pb_layer Mapped false [] base_empty.

Definition demo_local (lo hi : N) : LocalRun := mkLocal "run" (Some ["puffin"; pad_zeros 3 lo]) 0 lo hi 1 1.

Definition demo_local_layers : LocalLayers :=
  mkLocalLayers (mkLayered [bare_layer; bare_layer]) [demo_local 1 3; demo_local 4 5].

Definition demo_metas : list RunMeta :=
  [local_meta (demo_local 1 3) ["puffin"; "001"]; local_meta (demo_local 4 5) ["puffin"; "004"]].

Lemma demo_metas_tile : tiles demo_metas 1 5.
Proof.
  apply (adjacent_tiles [local_meta (demo_local 4 5) ["puffin"; "004"]] (local_meta (demo_local 1 3) ["puffin"; "001"])
    (local_meta (demo_local 4 5) ["puffin"; "004"]));
    [repeat constructor; by vm_compute|repeat constructor; by vm_compute|by vm_compute|done].
Qed.

Lemma delta_run_set_iff_witness :
  let out := default [] (run_metas (mkLocalLayers (layered_pushed (ll_base demo_local_layers) bare_layer)
    (ll_runs demo_local_layers ++ [written "d" bare_layer 0 7 7])) ["puffin"; "007"]) in
  (∃ rs, run_set (demo_snapshot 7 out) = Ok (Runs rs)) ↔ 5 + 1 = 7.
Proof.
  apply (delta_run_set_iff demo_local_layers demo_metas 1 5 7 "d" bare_layer ["puffin"; "007"]);
    [by vm_compute|exact demo_metas_tile|done|repeat constructor; by vm_compute|done|done|done|by vm_compute].
Defined.

Lemma merge_run_set_accepted_witness :
  let m := demo_snapshot 7 [mkRun ["puffin"; "m"] 1 1 7 9 9] in
  run_set m = Ok (Runs (runs m)) ∧ tiles (runs m) 1 7 ∧ (length (runs m) + (2 - 0) = 2 + 1)%nat.
Proof.
  apply (merge_run_set_accepted (ll_runs demo_local_layers) demo_metas 0 2 ["puffin"; "m"] 1 9 9 1 5 7
    (demo_snapshot 7 [mkRun ["puffin"; "m"] 1 1 7 9 9]));
    [by vm_compute|exact demo_metas_tile|done|done|done|cbn; lia|done|by vm_compute].
Defined.
