(* ===== verification/Flush.v ===== *)
(** The flush loop of a worker: [src/storage/flush.rs].

    A tick seals the buffer, looks at the catalog, and on the leader adopts a finished
    merge, starts the next one, writes the batch's data file and run and commits them.
    The worker's state is a record; a tick is a function on it, with the answer of the
    elector and the clock given. A background merge reads immutable layers only, so its
    task is a value computed from them; [finish_merge] is the moment it ends. Local
    files are a map from names to contents, and a mapped layer outlives its file. *)

From S2P Require Import Prelude Types Bytes Stream Decimal ObjectStore Catalog Buffer LocalRuns.
From S2P Require Import RoutingBase Forest Compaction Codec Puffin PuffinBase Layered Compact TierPolicy.

Inductive flush_error :=
| FlushCatalog (e : catalog_error)
| FlushStore (e : store_error)
| FlushBase (e : base_error)
| FlushLayered (e : layered_error)
| FlushCodec (e : codec_error)
| FlushParquet
| MergeTaskFailed
| FileMissing (path : string).

(** The settings of [Flusher]. *)
Record Config := mkConfig {
  table_prefix : Path;
  worker_id : string;
  cfg_stream : option StreamId;
  base_dir : option string;
  follower_fold_after_links : N;
  max_delta_layers : nat;
  tier_fanout : nat;
  write : WriteOptions;
  inline_merges : bool;
}.

(** [MergeResult], less the time it took. *)
Record MergeResult := mkMergeResult { mr_bytes : bytes; mr_cstats : CompactionStats }.

(** [PendingMerge]: the task is the stack it reads and what it writes into the file's
    metadata; [pm_finished] is its result once it has ended. *)
Record PendingMerge := mkPending {
  pm_stack : LayeredBase;
  pm_sequence : N;
  pm_props : gmap string string;
  pm_finished : option (result flush_error MergeResult);
  pm_inputs : list string;
  pm_level : N;
  pm_span : N * N;
  pm_path : string;
}.

(** What a fold produced. *)
Inductive FoldKind := FoldBase | FoldDelta (base_sequence : N).

(** The catalog and the files of a worker's directory. *)
Record Disk (St : Type) := mkDisk { dk_view : CatalogView St; dk_files : gmap string bytes }.
Arguments mkDisk {St}.
Arguments dk_view {St}.
Arguments dk_files {St}.

Record Flusher (St : Type) := mkFlusher {
  fl_forest : ScopedForest;
  fl_buffer : EdgeBuffer;
  fl_disk : Disk St;
  fl_layers : option LocalLayers;
  fl_pending : option PendingMerge;
  fl_uuids : nat;
}.
Arguments mkFlusher {St}.
Arguments fl_forest {St}.
Arguments fl_buffer {St}.
Arguments fl_disk {St}.
Arguments fl_layers {St}.
Arguments fl_pending {St}.
Arguments fl_uuids {St}.

Section flush.
Context {St : Type} `{!ObjectStore St, !EdgeSort}.
Context (snap_to_json : SnapshotMeta → bytes) (snap_from_json : bytes → option SnapshotMeta).
Context (to_json : FileMetadata → bytes) (from_json : bytes → option FileMetadata).
Context (parquet : list (list Row) → option bytes) (uuid : nat → string).
Context (cfg : Config) (parallelism : nat) (reader : ScanReader) (reopened : bool).

Abbreviation flush_io := (io (Flusher St) flush_error).
Abbreviation disk_io := (io (Disk St) flush_error).

Definition set_forest (f : ScopedForest) (s : Flusher St) : Flusher St :=
  mkFlusher f (fl_buffer s) (fl_disk s) (fl_layers s) (fl_pending s) (fl_uuids s).
Definition set_buffer (b : EdgeBuffer) (s : Flusher St) : Flusher St :=
  mkFlusher (fl_forest s) b (fl_disk s) (fl_layers s) (fl_pending s) (fl_uuids s).
Definition set_disk (d : Disk St) (s : Flusher St) : Flusher St :=
  mkFlusher (fl_forest s) (fl_buffer s) d (fl_layers s) (fl_pending s) (fl_uuids s).
Definition set_layers (l : option LocalLayers) (s : Flusher St) : Flusher St :=
  mkFlusher (fl_forest s) (fl_buffer s) (fl_disk s) l (fl_pending s) (fl_uuids s).
Definition set_pending (p : option PendingMerge) (s : Flusher St) : Flusher St :=
  mkFlusher (fl_forest s) (fl_buffer s) (fl_disk s) (fl_layers s) p (fl_uuids s).
Definition set_uuids (n : nat) (s : Flusher St) : Flusher St :=
  mkFlusher (fl_forest s) (fl_buffer s) (fl_disk s) (fl_layers s) (fl_pending s) n.

(** ** Calls on the catalog, the store and the local directory *)

Definition io_map_err {S' E E' A} (f : E → E') (m : io S' E A) : io S' E' A := fun st =>
  let '(r, st') := m st in (map_err f r, st').

Definition disk_catalog {A} (m : io (CatalogView St) catalog_error A) : disk_io A :=
  io_map_err FlushCatalog (zoom dk_view (fun v d => mkDisk v (dk_files d)) m).

Definition disk_store {A} (m : io St store_error A) : disk_io A :=
  io_map_err FlushStore (zoom (fun d => cv_store (dk_view d))
    (fun st d => mkDisk (mkView st (cached_seq (dk_view d))) (dk_files d)) m).

Definition on_disk {A} (m : disk_io A) : flush_io A := zoom fl_disk set_disk m.

(** [write_atomically]. *)
Definition write_file (path : string) (b : bytes) (d : Disk St) : Disk St :=
  mkDisk (dk_view d) (<[path := b]> (dk_files d)).

(** [std::fs::remove_file], its error ignored. *)
Definition remove_file (path : string) (d : Disk St) : Disk St :=
  mkDisk (dk_view d) (delete path (dk_files d)).

(** [PuffinBase::open] of a local file. *)
Definition map_file (path : string) : disk_io Layer :=
  content ← gets (fun d => dk_files d !! path);
  match content with
  | None => io_fail (FileMissing path)
  | Some data => b ← lift (map_err FlushBase (puffin_open from_json data)); mret (pb_layer reader reopened data b)
  end.

Definition update_disk (f : Disk St → Disk St) : flush_io unit := modify (fun s => set_disk (f (fl_disk s)) s).

(** [Uuid::new_v4]. *)
Definition new_uuid : flush_io string :=
  n ← gets fl_uuids; _ ← modify (set_uuids (S n)); mret (uuid n).

Definition join_path (dir name : string) : string := String.append dir (String.append "/" name).

(** The name of a fold's file. *)
Definition fold_path (dir : string) (sequence : N) (compact : bool) : string :=
  join_path dir (String.append "routing-" (String.append (worker_id cfg) (String.append "-"
    (String.append (pad_zeros 12 sequence) (String.append "-"
      (String.append (if compact then "base" else "delta") ".puffin")))))).

(** The name of a merge's file. *)
Definition merge_path (dir : string) (sequence level : N) : string :=
  join_path dir (String.append "routing-" (String.append (worker_id cfg) (String.append "-"
    (String.append (pad_zeros 12 sequence) (String.append "-L" (String.append (u64_to_string level) ".puffin")))))).

(** ** [Flusher::fold] *)

(** The bytes the closure writes before it maps them. *)
Definition run_file (position : StreamPosition) (w : BlobWriter) : option bytes :=
  match puffin_write to_json (bw_finish w) (puffin_metadata position) with Ok b => Some b | Err _ => None end.

Definition put_file (path : string) (b : option bytes) (d : Disk St) : Disk St :=
  match b with Some b => write_file path b d | None => d end.

(** The full fold: the live forest, under the lock. *)
Definition fold_full (path : string) (sequence : N) (position : StreamPosition) (inputs : list LocalRun)
    : flush_io (bytes * LocalLayers) :=
  f ← gets fl_forest;
  let sink := bw_new sequence (write cfg) in
  let '(r, f') := compact_and_fold bw_push f sink
    (fold_build to_json from_json reader reopened (puffin_metadata position)) in
  _ ← update_disk (put_file path (run_file position (foldl bw_push sink (compact_locked (tier f)).1)));
  _ ← modify (set_forest f');
  out ← lift (map_err FlushBase r);
  let lo := from_option lr_min sequence (head inputs) in
  run ← lift (match layers out.2 with
    | l :: _ => Ok (written path l (merged_level inputs) lo sequence)
    | [] => Err (FlushBase BasePanic)
    end);
  mret (out.1, mkLocalLayers out.2 [run]).

(** The delta fold: what the memtable contributes, as a layer on top. *)
Definition fold_delta_run (path : string) (sequence : N) (position : StreamPosition) (base : LayeredBase)
    (rs : list LocalRun) : flush_io (bytes * LocalLayers) :=
  f ← gets fl_forest;
  let sink := bw_new sequence (write cfg) in
  let '(r, f') := fold_delta bw_push f sink
    (delta_build to_json from_json reader reopened (puffin_metadata position) base) in
  _ ← update_disk (put_file path (run_file position (foldl bw_push sink (stream_memtable (tier f)).1)));
  _ ← modify (set_forest f');
  out ← lift (map_err FlushBase r);
  run ← lift (match last (layers out.2) with
    | Some l => Ok (written path l 0 sequence sequence)
    | None => Err (FlushBase BasePanic)
    end);
  mret (out.1, mkLocalLayers out.2 (rs ++ [run])).

(** [Flusher::fold]. *)
Definition fold (sequence : N) (position : StreamPosition) (force : bool)
    : flush_io (option (bytes * FoldKind)) :=
  match base_dir cfg with
  | None => mret None
  | Some dir =>
      links ← gets (fun s => memtable_links (fl_forest s));
      if negb force && (links <? follower_fold_after_links cfg) then mret None else
      current ← gets fl_layers;
      let inputs := from_option ll_runs [] current in
      let compact := match current with None => true | Some l => negb (fully_committed l) end in
      let path := fold_path dir sequence compact in
      out ← (match current with
        | Some l => if compact then fold_full path sequence position inputs
                    else fold_delta_run path sequence position (ll_base l) (ll_runs l)
        | None => fold_full path sequence position inputs
        end);
      let next := out.2 in
      let kind := if compact then FoldBase else FoldDelta (base_sequence next) in
      _ ← modify (set_layers (Some next));
      _ ← (if compact then update_disk (fun d => foldl (fun d r => remove_file (lr_path r) d) d inputs) else mret tt);
      mret (Some (out.1, kind))
  end.

(** ** Merges *)

(** The task of a merge. *)
Definition merge_task (p : PendingMerge) : result flush_error MergeResult :=
  let '(blobs, cstats) := compact_layers parallelism (pm_stack p) (pm_sequence p) (write cfg) in
  b ← map_err (fun e => FlushBase (BaseContainer e)) (puffin_write to_json blobs (pm_props p));
  Ok (mkMergeResult b cstats).

Definition set_finished (r : result flush_error MergeResult) (p : PendingMerge) : PendingMerge :=
  mkPending (pm_stack p) (pm_sequence p) (pm_props p) (Some r) (pm_inputs p) (pm_level p) (pm_span p) (pm_path p).

(** The task ends: with its result, its file written, or, [lost], with the task failed. *)
Definition finish_merge (lost : bool) (s : Flusher St) : Flusher St :=
  match fl_pending s with
  | None => s
  | Some p =>
      match pm_finished p with
      | Some _ => s
      | None =>
          let r := if lost then Err MergeTaskFailed else merge_task p in
          let d := match r with Ok m => write_file (pm_path p) (mr_bytes m) (fl_disk s) | Err _ => fl_disk s end in
          set_pending (Some (set_finished r p)) (set_disk d s)
      end
  end.

(** [Flusher::wait_for_merge]. *)
Definition wait_for_merge (lost : bool) : flush_io unit := modify (finish_merge lost).

(** [Flusher::start_merge]. *)
Definition start_merge (sequence : N) (position : StreamPosition) : flush_io unit :=
  match base_dir cfg with
  | None => mret tt
  | Some dir =>
      pending ← gets fl_pending;
      if bool_decide (is_Some pending) then mret tt else
      held ← gets fl_layers;
      match held with
      | None => mret tt
      | Some l =>
          let inputs := ll_runs l in
          if negb (fully_committed l) then mret tt else
          match pick_merge (lr_level <$> inputs) (tier_fanout cfg) (max_delta_layers cfg) with
          | None => mret tt
          | Some (start, end_) =>
              let window := take (end_ - start) (drop start inputs) in
              let level := merged_level window in
              merge_stack ← lift (map_err FlushLayered (slice (ll_base l) start end_));
              modify (set_pending (Some (mkPending merge_stack sequence (puffin_metadata position) None
                (lr_path <$> window) level
                (from_option lr_min 0 (head window), from_option lr_max 0 (last window))
                (merge_path dir sequence level))))
          end
      end
  end.

(** What is published for a merge: the metadata of the snapshot. *)
Definition merge_snapshot (now : Z) (sequence : N) (position : StreamPosition) (object : Path) (rs : list RunMeta)
    : SnapshotMeta :=
  let base := from_option max_sequence 0 (head rs) in
  mkSnapshot sequence now (default 0 (as_scalar position)) position (cfg_stream cfg) [] object (worker_id cfg)
    base (sequence ⊟ base) rs (snapshot_format rs position).

(** [Flusher::adopt_merge]. *)
Definition adopt_merge (now : Z) (sequence : N) (position : StreamPosition) : flush_io bool :=
  pending ← gets fl_pending;
  match pending with
  | None => mret false
  | Some p =>
      match pm_finished p with
      | None => mret false
      | Some outcome =>
          _ ← modify (set_pending None);
          match outcome with
          | Err _ => _ ← update_disk (remove_file (pm_path p)); mret false
          | Ok res =>
              held ← gets fl_layers;
              match held with
              | None => mret false
              | Some l =>
                  let current := ll_runs l in
                  match locate_run_window current (pm_inputs p) with
                  | None => _ ← update_disk (remove_file (pm_path p)); mret false
                  | Some (start, end_) =>
                      if negb (fully_committed l) then mret false else
                      u ← new_uuid;
                      let object := run_object_path (table_prefix cfg) sequence u in
                      _ ← on_disk (disk_store (os_put object (mr_bytes res)));
                      let merged := mkRun object (pm_level p) (pm_span p).1 (pm_span p).2
                        (st_shared_pairs (mr_cstats res) + st_overlay_pairs (mr_cstats res))
                        (N.of_nat (length (mr_bytes res))) in
                      match splice_run_set current start end_ merged sequence with
                      | None => _ ← update_disk (remove_file (pm_path p)); mret false
                      | Some rs =>
                          let meta := merge_snapshot now sequence position object rs in
                          won ← on_disk (disk_catalog (commit snap_to_json (table_prefix cfg) meta));
                          if bool_decide (won = Conflict) then
                            _ ← update_disk (remove_file (pm_path p)); mret false
                          else
                            mapped ← on_disk (map_file (pm_path p));
                            lb ← lift (map_err FlushLayered (spliced (ll_base l) start end_ mapped));
                            _ ← modify (fun s => set_forest (swap_base (fl_forest s) (layered_routing lb)) s);
                            let local_paths := (lr_path <$> take start current) ++ [pm_path p] ++
                              (lr_path <$> drop end_ current) in
                            let next := zip_with (fun mp l => committed mp.1 mp.2 l) (zip rs local_paths) (layers lb) in
                            _ ← modify (set_layers (Some (mkLocalLayers lb next)));
                            _ ← update_disk (fun d => foldl (fun d r => remove_file (lr_path r) d) d
                                  (take (end_ - start) (drop start current)));
                            mret true
                      end
                  end
              end
          end
      end
  end.

(** ** [Flusher::tick] *)

(** The rows of the segments, a row group each, and their number. *)
Definition segments_to_parquet (segments : list Segment) : result flush_error (bytes * N) :=
  match parquet (sg_batch <$> segments) with
  | None => Err FlushParquet
  | Some b => Ok (b, foldl (fun rows s => rows ⊞ N.of_nat (length (sg_batch s))) 0 segments)
  end.

(** The commit of a batch: data file, run, metadata. *)
Definition batch_snapshot (now : Z) (sequence : N) (position first file_last : StreamPosition) (data : Path)
    (data_len rows : N) (object : Path) (base : N) (rs : list RunMeta) : SnapshotMeta :=
  let watermark := default 0 (as_scalar position) in
  mkSnapshot sequence now watermark position (cfg_stream cfg)
    [mkDataFile data rows data_len (default 0 (as_scalar first)) watermark first file_last]
    object (worker_id cfg) base (sequence ⊟ base) rs (snapshot_format rs position).

Definition commit_batch (now : Z) (previous : option SnapshotMeta) (sequence : N) (segments : list Segment)
    : flush_io unit :=
  let file_last := foldl (fun p s => pos_merge p (sg_last s)) pos_new segments in
  let first := low_of (sg_first <$> segments) in
  let position := pos_merge (from_option stream_position pos_new previous) file_last in
  pq ← lift (segments_to_parquet segments);
  u ← new_uuid;
  let data := data_object_path (table_prefix cfg) sequence u in
  _ ← on_disk (disk_store (os_put data pq.1));
  folded ← fold sequence position true;
  out ← (match folded with
    | Some out => mret out
    | None =>
        f ← gets fl_forest;
        b ← lift (map_err (fun e => FlushBase (BaseContainer e))
          (puffin_write to_json (compact_to_blobs f sequence (write cfg)) (puffin_metadata position)));
        mret (b, FoldBase)
    end);
  u ← new_uuid;
  let object := run_object_path (table_prefix cfg) sequence u in
  _ ← on_disk (disk_store (os_put object out.1));
  let base := match out.2 with FoldBase => sequence | FoldDelta b => b end in
  held ← gets fl_layers;
  let rs := match held with None => [] | Some l => default [] (run_metas l object) end in
  let meta := batch_snapshot now sequence position first file_last data (N.of_nat (length pq.1)) pq.2 object base rs in
  _ ← lift (match previous with None => Ok tt | Some p => map_err FlushCatalog (advances_from meta p) end);
  won ← on_disk (disk_catalog (commit snap_to_json (table_prefix cfg) meta));
  match won with
  | Committed =>
      _ ← modify (fun s => set_buffer (drop_committed (fl_buffer s) position).2 s);
      modify (fun s => set_layers ((fun l => mark_committed l object) <$> fl_layers s) s)
  | Conflict => mret tt
  end.

(** The merges of a leader's tick; returns the sequence of the batch. *)
Definition tick_merges (lost : bool) (now : Z) (sequence : N) (position : StreamPosition) : flush_io N :=
  adopted ← adopt_merge now sequence position;
  let sequence := if (adopted : bool) then sequence ⊞ 1 else sequence in
  _ ← start_merge sequence position;
  if inline_merges cfg then
    _ ← wait_for_merge lost;
    adopted ← adopt_merge now sequence position;
    mret (if (adopted : bool) then sequence ⊞ 1 else sequence)
  else mret sequence.

(** [Flusher::tick]; [leader] is what the elector answers, [lost] whether a merge that
    is waited for fails. *)
Definition tick (leader lost : bool) (now : Z) : flush_io unit :=
  _ ← modify (fun s => set_buffer (seal_active (fl_buffer s)).2 s);
  newest ← on_disk (disk_catalog (latest snap_from_json (table_prefix cfg)));
  _ ← (match newest with
    | Some m => modify (fun s => set_buffer (drop_committed (fl_buffer s) (stream_position m)).2 s)
    | None => mret tt
    end);
  let sequence := from_option (fun m => sm_sequence m ⊞ 1) 1 newest in
  let position := from_option stream_position pos_new newest in
  if negb leader then _ ← fold sequence position false; mret tt else
  sequence ← tick_merges lost now sequence position;
  segments ← gets (fun s => sealed (fl_buffer s));
  if bool_decide (length segments = 0%nat) then mret tt
  else commit_batch now newest sequence segments.

(** ** Cold start *)

(** The links of a chain that names no runs, each from its own snapshot. *)
Fixpoint chain_runs (count : nat) (newest : SnapshotMeta) (sequence : N) : disk_io (list RunMeta) :=
  match count with
  | O => mret []
  | S count =>
      meta ← (if sequence =? sm_sequence newest then mret newest
              else disk_catalog (catalog_get snap_from_json (table_prefix cfg) sequence));
      rest ← chain_runs count newest (sequence + 1);
      mret (mkRun (puffin_path meta) 0 sequence sequence 0 0 :: rest)
  end.

(** [committed_runs]. *)
Definition committed_runs (newest : SnapshotMeta) : disk_io (list RunMeta) :=
  rs ← lift (map_err FlushCatalog (run_set newest));
  match rs with
  | Runs rs => mret rs
  | SequencesOnly a b => chain_runs (N.to_nat (b + 1 - a)) newest a
  end.

(** One run of [open_base_from_catalog]: through the local cache, then mapped. *)
Definition fetch_run (dir : string) (r : RunMeta) : disk_io (LocalRun * Layer) :=
  let local := join_path dir (run_cache_name r) in
  held ← gets (fun d => dk_files d !! local);
  _ ← (match held with
    | Some _ => mret tt
    | None => b ← disk_store (os_get (run_path r)); modify (write_file local b)
    end);
  l ← map_file local;
  mret (committed r local l, l).

Fixpoint fetch_runs (dir : string) (rs : list RunMeta) : disk_io (list (LocalRun * Layer)) :=
  match rs with
  | [] => mret []
  | r :: rs => x ← fetch_run dir r; xs ← fetch_runs dir rs; mret (x :: xs)
  end.

(** [open_base_from_catalog]. *)
Definition open_base_from_catalog (dir : string) : disk_io (option (LayeredBase * N * LocalLayers)) :=
  newest ← disk_catalog (latest snap_from_json (table_prefix cfg));
  match newest with
  | None => mret None
  | Some m =>
      rs ← committed_runs m;
      xs ← fetch_runs dir rs;
      base ← lift (map_err FlushLayered (from_layers xs.*2));
      mret (Some (base, watermark m, mkLocalLayers base xs.*1))
  end.

(** One run of [hydrate_from_catalog]. *)
Fixpoint hydrate_runs (rs : list RunMeta) (f : ScopedForest) : disk_io ScopedForest :=
  match rs with
  | [] => mret f
  | r :: rs =>
      b ← disk_store (os_get (run_path r));
      blobs ← lift (map_err (fun e => FlushBase (BaseContainer e)) (puffin_read from_json b));
      snap ← lift (map_err FlushCodec (blobs_to_snapshot blobs));
      hydrate_runs rs (hydrate f snap)
  end.

(** [hydrate_from_catalog]. *)
Definition hydrate_from_catalog (f : ScopedForest) : disk_io (N * ScopedForest) :=
  newest ← disk_catalog (latest snap_from_json (table_prefix cfg));
  match newest with
  | None => mret (0, f)
  | Some m => rs ← committed_runs m; f ← hydrate_runs rs f; mret (watermark m, f)
  end.
End flush.
