(* ===== verification/FlushNames.v ===== *)
(** Names of a worker's files and objects: two of them are the same only when they are
    meant to be. *)

From S2P Require Import Prelude Types Bytes Stream Decimal ObjectStore Catalog CatalogInv LocalRuns Flush.

(** Text up to the first dash. *)
Fixpoint no_dash (s : string) : Prop :=
  match s with String.EmptyString => True | String.String c s => c ≠ Ascii.ascii_of_N 45 ∧ no_dash s end.

Fixpoint before_dash (s : string) : string :=
  match s with
  | String.EmptyString => ""
  | String.String c s => if Ascii.eqb c (Ascii.ascii_of_N 45) then "" else String.String c (before_dash s)
  end.

Lemma before_dash_app s t : no_dash s → before_dash (String.append s (String.append "-" t)) = s.
Proof.
  induction s as [|c s IH]; [done|]. intros [Hc Hs].
  change (String.append (String.String c s) (String.append "-" t)) with (String.String c (String.append s (String.append "-" t))).
  cbn [before_dash]. destruct (Ascii.eqb_spec c (Ascii.ascii_of_N 45)); [done|]. by rewrite IH.
Qed.

Lemma digit_not_dash d : d < 10 → digit d ≠ Ascii.ascii_of_N 45.
Proof.
  intros Hd E. apply (f_equal Ascii.N_of_ascii) in E. rewrite digit_value in E by done.
  rewrite Ascii.N_ascii_embedding in E by done. lia.
Qed.

Lemma to_string_go_no_dash fuel : ∀ n acc, no_dash acc → no_dash (to_string_go fuel n acc).
Proof.
  induction fuel as [|fuel IH]; intros n acc Ha; cbn [to_string_go]; [done|].
  destruct (n =? 0); [done|]. apply IH. split; [|done]. by apply digit_not_dash, N.mod_lt.
Qed.

Lemma pad_zeros_no_dash width n : no_dash (pad_zeros width n).
Proof.
  unfold pad_zeros. assert (no_dash (u64_to_string n)) as Hn.
  { unfold u64_to_string. destruct (n =? 0); [|by apply to_string_go_no_dash].
    split; [|done]. by apply (digit_not_dash 0). }
  induction (width - _)%nat as [|k IH]; [done|]. split; [by apply digit_not_dash|done].
Qed.

(** Runs that start at different sequences are cached under different names. *)
Lemma run_cache_name_inj a b :
  min_sequence a < u64_limit → min_sequence b < u64_limit → run_cache_name a = run_cache_name b →
  min_sequence a = min_sequence b.
Proof.
  intros Ha Hb E. unfold run_cache_name in E. apply (f_equal (strip_prefix "routing-run-")) in E.
  rewrite !strip_prefix_app in E. injection E as E. apply (f_equal before_dash) in E.
  rewrite !before_dash_app in E by apply pad_zeros_no_dash. apply (f_equal parse_u64) in E.
  rewrite !parse_pad_zeros in E by done. by injection E.
Qed.

Lemma join_path_inj dir a b : join_path dir a = join_path dir b → a = b.
Proof.
  unfold join_path. intros E. apply (f_equal (strip_prefix dir)) in E. rewrite !strip_prefix_app in E. by injection E.
Qed.

(** ** Text after the last dash *)

Lemma append_assoc s t u : String.append (String.append s t) u = String.append s (String.append t u).
Proof. induction s as [|c s IH]; [done|]. exact (f_equal (String.String c) IH). Qed.

Lemma length_append s t : String.length (String.append s t) = (String.length s + String.length t)%nat.
Proof. induction s as [|c s IH]; [done|]. exact (f_equal S IH). Qed.

Lemma append_inj_r s s' t : String.append s t = String.append s' t → s = s'.
Proof.
  revert s'. induction s as [|c s IH]; intros [|c' s'] E; [done| | |].
  - apply (f_equal String.length) in E. change ("" +:+ t) with t in E. rewrite length_append in E. cbn in E. lia.
  - apply (f_equal String.length) in E. change ("" +:+ t) with t in E. rewrite length_append in E. cbn in E. lia.
  - injection E as -> E. f_equal. by apply IH.
Qed.

Lemma no_dash_app s t : no_dash s → no_dash t → no_dash (String.append s t).
Proof. induction s as [|c s IH]; [done|]. intros [Hc Hs] Ht. split; [done|]. by apply IH. Qed.

Lemma dash_inside s t : ¬ no_dash (String.append s (String.append "-" t)).
Proof. induction s as [|c s IH]; [by intros [? _]|]. intros [_ Hs]. by apply IH. Qed.

Lemma after_dash_inj s s' t t' :
  no_dash t → no_dash t' → String.append s (String.append "-" t) = String.append s' (String.append "-" t') → t = t'.
Proof.
  intros Ht Ht'. revert s'. induction s as [|c s IH]; intros [|c' s'] E.
  - by injection E.
  - exfalso. injection E as _ E. apply (dash_inside s' t'). by rewrite <- E.
  - exfalso. injection E as _ E. apply (dash_inside s t). by rewrite E.
  - injection E as _ E. by eapply IH.
Qed.

(** What follows a number and a dash. *)
Lemma after_number a b s t :
  a < u64_limit → b < u64_limit →
  String.append (pad_zeros 12 a) (String.append "-" s) = String.append (pad_zeros 12 b) (String.append "-" t) → a = b ∧ s = t.
Proof.
  intros Ha Hb E. pose proof (f_equal before_dash E) as E'. rewrite !before_dash_app in E' by apply pad_zeros_no_dash.
  pose proof (f_equal parse_u64 E') as En. rewrite !parse_pad_zeros in En by done. injection En as ->. split; [done|].
  apply (f_equal (strip_prefix (pad_zeros 12 b))) in E. rewrite !strip_prefix_app in E. by injection E.
Qed.

(** ** Runs of a worker *)

Section worker.
Context (cfg : Config) (dir : string).

Lemma routing_inj s t :
  join_path dir (String.append "routing-" (String.append (worker_id cfg) (String.append "-" s))) =
  join_path dir (String.append "routing-" (String.append (worker_id cfg) (String.append "-" t))) → s = t.
Proof.
  intros E%join_path_inj. apply (f_equal (strip_prefix "routing-")) in E. rewrite !strip_prefix_app in E. injection E as E.
  apply (f_equal (strip_prefix (worker_id cfg))) in E. rewrite !strip_prefix_app in E. by injection E.
Qed.

Lemma fold_path_inj a b compact compact' :
  a < u64_limit → b < u64_limit → fold_path cfg dir a compact = fold_path cfg dir b compact' → a = b.
Proof. intros Ha Hb E%routing_inj. by apply after_number in E as [E _]. Qed.

Lemma merge_path_inj a b x y :
  a < u64_limit → b < u64_limit → merge_path cfg dir a x = merge_path cfg dir b y → a = b.
Proof. intros Ha Hb E%routing_inj. by apply (after_number a b (String.append "L" _) (String.append "L" _)) in E as [E _]. Qed.

Lemma fold_not_merge a b compact x :
  a < u64_limit → b < u64_limit → fold_path cfg dir a compact ≠ merge_path cfg dir b x.
Proof.
  intros Ha Hb E%routing_inj. apply (after_number a b _ (String.append "L" _)) in E as [_ E]; [|done|done]. by destruct compact.
Qed.

(** ** Cached runs *)

Lemma hex_go_no_dash digits : ∀ n acc, no_dash acc → no_dash (hex_go digits n acc).
Proof.
  induction digits as [|d IH]; intros n acc Ha; cbn [hex_go]; [done|]. apply IH. split; [|done].
  unfold hex_digit. pose proof (N.mod_lt n 16 ltac:(done)). destruct (N.ltb_spec (n `mod` 16) 10); [by apply digit_not_dash|].
  intros E. apply (f_equal Ascii.N_of_ascii) in E. rewrite !Ascii.N_ascii_embedding in E by lia. lia.
Qed.

Lemma hex_go_length digits : ∀ n acc, String.length (hex_go digits n acc) = (digits + String.length acc)%nat.
Proof. induction digits as [|d IH]; intros n acc; cbn [hex_go]; [done|]. rewrite IH. cbn. lia. Qed.

(** Sixteen hexadecimal digits. *)
Lemma hex_head digits n acc : ∃ c s, hex_go (S digits) n acc = String.String c s ∧ c ≠ Ascii.ascii_of_N 76.
Proof.
  revert n acc. induction digits as [|d IH]; intros n acc.
  - eexists _, _. split; [done|]. unfold hex_digit. pose proof (N.mod_lt n 16 ltac:(done)).
    destruct (N.ltb_spec (n `mod` 16) 10) as [Hd|Hd]; intros E; apply (f_equal Ascii.N_of_ascii) in E.
    + rewrite digit_value in E by done. change (Ascii.N_of_ascii (Ascii.ascii_of_N 76)) with 76 in E. lia.
    + rewrite !Ascii.N_ascii_embedding in E by lia. lia.
  - apply (IH (n / 16)).
Qed.

Lemma u64_to_string_no_dash n : no_dash (u64_to_string n).
Proof.
  unfold u64_to_string. destruct (n =? 0); [|by apply to_string_go_no_dash]. split; [|done]. by apply (digit_not_dash 0).
Qed.

Lemma run_cache_name_tail r :
  ∃ s, run_cache_name r = String.append s (String.append "-" (String.append (hex_go 16 (path_hash (run_path r)) "") ".puffin")).
Proof.
  exists (String.append "routing-run-" (String.append (pad_zeros 12 (min_sequence r)) (String.append "-" (pad_zeros 12 (max_sequence r))))).
  unfold run_cache_name. by rewrite !append_assoc.
Qed.

Lemma hex_tail_no_dash n : no_dash (String.append (hex_go 16 n "") ".puffin").
Proof. apply no_dash_app; [by apply hex_go_no_dash|by vm_compute]. Qed.

Lemma cache_not_fold r q compact : join_path dir (run_cache_name r) ≠ fold_path cfg dir q compact.
Proof.
  destruct (run_cache_name_tail r) as [s ->]. intros E%join_path_inj.
  assert (∃ t u, String.append "routing-" (String.append (worker_id cfg) (String.append "-" (String.append (pad_zeros 12 q)
    (String.append "-" (String.append (if compact then "base" else "delta") ".puffin"))))) = String.append t (String.append "-" u) ∧
    no_dash u ∧ (String.length u < 20)%nat) as (t & u & Eu & Hu & Hl).
  { exists (String.append "routing-" (String.append (worker_id cfg) (String.append "-" (pad_zeros 12 q)))).
    eexists. split; [by rewrite !append_assoc|]. destruct compact; (split; [by vm_compute|by apply Nat.ltb_lt; vm_compute]). }
  rewrite Eu in E. apply after_dash_inj in E; [|apply hex_tail_no_dash|done].
  rewrite <- E, length_append, hex_go_length in Hl. cbn in Hl. lia.
Qed.

Lemma cache_not_merge r q x : join_path dir (run_cache_name r) ≠ merge_path cfg dir q x.
Proof.
  destruct (run_cache_name_tail r) as [s ->]. intros E%join_path_inj.
  assert (∃ t, String.append "routing-" (String.append (worker_id cfg) (String.append "-" (String.append (pad_zeros 12 q)
    (String.append "-L" (String.append (u64_to_string x) ".puffin"))))) =
    String.append t (String.append "-" (String.append "L" (String.append (u64_to_string x) ".puffin")))) as (t & Eu).
  { exists (String.append "routing-" (String.append (worker_id cfg) (String.append "-" (pad_zeros 12 q)))). by rewrite !append_assoc. }
  rewrite Eu in E. apply after_dash_inj in E; [|apply hex_tail_no_dash|].
  - destruct (hex_head 15 (path_hash (run_path r)) "") as (c & u & Ec & Hc). rewrite Ec in E. by injection E as -> _.
  - apply (no_dash_app "L"); [by vm_compute|]. apply no_dash_app; [apply u64_to_string_no_dash|by vm_compute].
Qed.
End worker.
