(* ===== verification/FlushInv.v ===== *)
(** What a tick does to a worker, step by step: lemmas on [Flush]. *)

From S2P Require Import Prelude Types Bytes Stream Decimal ObjectStore Catalog CatalogInv CatalogProps CatalogLatest Buffer LocalRuns Flush.
From S2P Require Import Graph Dsu RoutingBase Forest ForestInv Compaction CompactionInv FoldInv ForestProps Codec Puffin PuffinBase Layered Compact.
From S2P Require Import PuffinServe PuffinProps LayeredInv LayeredServe LayeredProps.

(** A layer is the mapping of [data]. *)
Definition maps (from_json : bytes → option FileMetadata) (reader : ScanReader) (reopened : bool) (data : bytes)
    (l : Layer) : Prop :=
  ∃ b, puffin_open from_json data = Ok b ∧ l = pb_layer reader reopened data b.

Lemma map_run_maps to_json from_json reader reopened props w data l :
  map_run to_json from_json reader reopened props w = Ok (data, l) →
  puffin_write to_json (bw_finish w) props = Ok data ∧ maps from_json reader reopened data l.
Proof.
  unfold map_run. intros Hm. destruct (puffin_write _ _ _) as [d|]; [|done]. cbn in Hm.
  destruct (puffin_open from_json d) as [b|] eqn:Hb; [|done]. cbn in Hm. injection Hm as <- <-.
  split; [done|]. by exists b.
Qed.

(** ** Calls *)

Section calls.
Context {St : Type} `{!ObjectStore St}.

Lemma disk_catalog_ok {A} (m : io (CatalogView St) catalog_error A) d a v :
  m (dk_view d) = (Ok a, v) → disk_catalog m d = (Ok a, mkDisk v (dk_files d)).
Proof. intros Hm. unfold disk_catalog, io_map_err, zoom. by rewrite Hm. Qed.

Lemma disk_store_ok {A} (m : io St store_error A) d a st :
  m (cv_store (dk_view d)) = (Ok a, st) →
  disk_store m d = (Ok a, mkDisk (mkView st (cached_seq (dk_view d))) (dk_files d)).
Proof. intros Hm. unfold disk_store, io_map_err, zoom. by rewrite Hm. Qed.

Lemma on_disk_ok {A} (m : io (Disk St) flush_error A) s a d :
  m (fl_disk s) = (Ok a, d) → on_disk m s = (Ok a, set_disk d s).
Proof. intros Hm. unfold on_disk, zoom. by rewrite Hm. Qed.

Abbreviation disk_objects d := (objects (cv_store (dk_view d))).

Lemma on_disk_run {A} (m : io (Disk St) flush_error A) s : on_disk m s = ((m (fl_disk s)).1, set_disk (m (fl_disk s)).2 s).
Proof. unfold on_disk, zoom. by destruct (m (fl_disk s)). Qed.

(** A put: its object is there, or the call failed and it may be. *)
Lemma put_disk_run `{!ObjectStoreLaws St} p b (s : Flusher St) :
  ∃ r d, on_disk (disk_store (os_put p b)) s = (r, set_disk d s) ∧ dk_files d = dk_files (fl_disk s) ∧
    cached_seq (dk_view d) = cached_seq (dk_view (fl_disk s)) ∧
    match r with
    | Ok _ => stored p b (disk_objects (fl_disk s)) (disk_objects d)
    | Err _ => disk_objects d = disk_objects (fl_disk s) ∨ stored p b (disk_objects (fl_disk s)) (disk_objects d)
    end ∧ (ReliableStore St → r = Ok tt).
Proof.
  set (st := cv_store (dk_view (fl_disk s))). rewrite on_disk_run. unfold disk_store, io_map_err, zoom. fold st.
  pose proof (put_ok p b st) as H1. pose proof (put_failed p b st) as H2.
  assert (ReliableStore St → (os_put p b st).1 = Ok tt) as H3 by (intros; apply put_reliable).
  destruct (os_put p b st) as [[[]|e] st']; cbn in *; eexists _, _; split_and!; try done; [by apply H1|by eapply H2|].
  intros HR. by specialize (H3 HR).
Qed.

Lemma put_disk_ok `{!ObjectStoreLaws St, !ReliableStore St} p b (s : Flusher St) :
  ∃ d, on_disk (disk_store (os_put p b)) s = (Ok tt, set_disk d s) ∧ stored p b (disk_objects (fl_disk s)) (disk_objects d) ∧
    dk_files d = dk_files (fl_disk s) ∧ cached_seq (dk_view d) = cached_seq (dk_view (fl_disk s)).
Proof. destruct (put_disk_run p b s) as (r & d & E & H1 & H2 & H3 & Hr). rewrite (Hr _) in *. by exists d. Qed.

(** A commit of a sequence nobody has taken: it is taken, or the call failed and it is not. *)
Lemma commit_disk_run `{!ObjectStoreLaws St, !CleanStore St} to_json prefix m (s : Flusher St) :
  disk_objects (fl_disk s) !! snap_path prefix (sm_sequence m) = None →
  ∃ r d, on_disk (disk_catalog (commit to_json prefix m)) s = (r, set_disk d s) ∧ dk_files d = dk_files (fl_disk s) ∧
    match r with
    | Ok c => c = Committed ∧ stored (snap_path prefix (sm_sequence m)) (to_json m) (disk_objects (fl_disk s)) (disk_objects d) ∧
        cached_seq (dk_view d) = N.max (cached_seq (dk_view (fl_disk s))) (sm_sequence m)
    | Err _ => disk_objects d = disk_objects (fl_disk s) ∧ cached_seq (dk_view d) = cached_seq (dk_view (fl_disk s))
    end ∧ (ReliableStore St → is_ok r = true).
Proof.
  intros Hn. set (st := cv_store (dk_view (fl_disk s))) in *. set (p := snap_path prefix (sm_sequence m)) in *.
  rewrite on_disk_run. unfold disk_catalog, io_map_err, zoom, commit. rewrite bind_unfold. unfold on_store, attempt, zoom. fold st. fold p.
  pose proof (create_ok p (to_json m) st) as H1. pose proof (create_exists p (to_json m) st) as H2.
  pose proof (create_clean p (to_json m) st) as H3.
  assert (ReliableStore St → is_ok (os_create p (to_json m) st).1 = true) as H4.
  { intros HR. destruct (create_reliable p (to_json m) st) as [->|Hc]; [done|]. apply H2 in Hc as [[o Ho] _]. by rewrite Hn in Ho. }
  destruct (os_create p (to_json m) st) as [[[]|e] st']; cbn in *.
  - eexists _, _. split; [done|]. split; [done|]. split; [|done]. split; [done|]. by split; [apply H1|].
  - specialize (H3 e eq_refl). destruct e; try (eexists _, _; split; [done|]; split; [done|]; split; [done|]; intros HR; by specialize (H4 HR)).
    destruct (H2 eq_refl) as [[o Ho] _]. by rewrite Hn in Ho.
Qed.

Lemma commit_disk_ok `{!ObjectStoreLaws St, !ReliableStore St} to_json prefix m (s : Flusher St) :
  disk_objects (fl_disk s) !! snap_path prefix (sm_sequence m) = None →
  ∃ d, on_disk (disk_catalog (commit to_json prefix m)) s = (Ok Committed, set_disk d s) ∧
    stored (snap_path prefix (sm_sequence m)) (to_json m) (disk_objects (fl_disk s)) (disk_objects d) ∧
    dk_files d = dk_files (fl_disk s) ∧ cached_seq (dk_view d) = N.max (cached_seq (dk_view (fl_disk s))) (sm_sequence m).
Proof.
  intros Hn. destruct (commit_disk_run to_json prefix m s Hn) as (r & d & E & Hf & Hr & Hk). specialize (Hk _).
  destruct r as [c|e]; [|done]. destruct Hr as (-> & H1 & H2). by exists d.
Qed.
End calls.

(** ** Folds *)

Section folds.
Context {St : Type} `{!ObjectStore St, !EdgeSort}.
Context (to_json : FileMetadata → bytes) (from_json : bytes → option FileMetadata).
Context (json_roundtrip : ∀ m, from_json (to_json m) = Some m).
Context (cfg : Config) (reader : ScanReader) (reopened : bool).

Lemma run_file_eq position w data :
  puffin_write to_json (bw_finish w) (puffin_metadata position) = Ok data →
  run_file to_json position w = Some data.
Proof. intros Hw. unfold run_file. by rewrite Hw. Qed.

(** A worker whose stack is all in the catalog folds a delta on top. *)
Lemma fold_delta_ok (s : Flusher St) evs l snaps dir sequence position data :
  base_dir cfg = Some dir → fl_layers s = Some l → fully_committed l = true →
  absorbed (fl_forest s) evs → tier_base (tier (fl_forest s)) = Some (layered_routing (ll_base l)) →
  stack_inv (ll_base l) snaps →
  puffin_write to_json (bw_finish (foldl bw_push (bw_new sequence (write cfg)) (stream_memtable (tier (fl_forest s))).1))
    (puffin_metadata position) = Ok data →
  delta_fits (fl_forest s) data →
  ∃ ly, let next := mkLocalLayers (layered_pushed (ll_base l) ly)
      (ll_runs l ++ [written (fold_path cfg dir sequence false) ly 0 sequence sequence]) in
    (∀ d k, fold to_json from_json cfg reader reopened sequence position true (set_disk d (set_uuids k s)) =
      (Ok (Some (data, FoldDelta (base_sequence next))),
       set_layers (Some next) (set_forest (publish (fl_forest s) (layered_routing (layered_pushed (ll_base l) ly)))
         (set_disk (write_file (fold_path cfg dir sequence false) data d) (set_uuids k s))))) ∧
    maps from_json reader reopened data ly ∧
    stack_inv (ll_base next) (snaps ++ [collect (stream_memtable (tier (fl_forest s))).1]) ∧
    absorbed (publish (fl_forest s) (layered_routing (ll_base next))) evs.
Proof using json_roundtrip.
  intros Hdir Hl Hfc I Hb Is Hw Hfit.
  destruct (delta_map_run to_json from_json json_roundtrip (fl_forest s) evs (ll_base l) snaps sequence (write cfg)
    (puffin_metadata position) reader reopened data I Hb Is Hw Hfit) as (ly & El & Sl & De & _).
  destruct (delta_published (fl_forest s) evs (bw_new sequence (write cfg))
    (delta_build to_json from_json reader reopened (puffin_metadata position) (ll_base l))
    (layered_routing (layered_pushed (ll_base l) ly)) (data, layered_pushed (ll_base l) ly) I) as [Hf I']; [|done|].
  { unfold delta_build. by rewrite El. }
  exists ly. intros next. split; [|split; [exact (proj2 (map_run_maps _ _ _ _ _ _ _ _ El))|done]]. intros d k.
  unfold fold. rewrite Hdir. rewrite bind_unfold. cbn [gets negb andb].
  rewrite bind_unfold. cbn [gets fl_layers set_disk set_uuids]. rewrite Hl, Hfc. cbn [negb].
  rewrite (bind_ok _ _ _ (data, next) (set_forest (publish (fl_forest s) (layered_routing (layered_pushed (ll_base l) ly)))
    (set_disk (write_file (fold_path cfg dir sequence false) data d) (set_uuids k s)))).
  2: { unfold fold_delta_run. rewrite bind_unfold. cbn [gets fl_forest set_disk set_uuids]. rewrite Hf. rewrite (run_file_eq _ _ _ Hw).
    rewrite bind_unfold. cbn [update_disk modify put_file]. rewrite bind_unfold. cbn [modify]. rewrite bind_unfold.
    cbn [lift map_err snd]. rewrite bind_unfold. unfold layered_pushed. cbn [layers]. rewrite last_snoc. done. }
  rewrite bind_unfold. cbn [modify]. done.
Qed.
End folds.
