(* ===== verification/FlushTick.v ===== *)
(** A leader's tick, from end to end, and the cold start that follows it. *)

From S2P Require Import Prelude Types Bytes Stream Decimal ObjectStore Catalog CatalogInv CatalogProps CatalogLatest Buffer LocalRuns LocalRunsInv Flush FlushInv.
From S2P Require Import Graph Dsu RoutingBase Forest ForestInv Compaction CompactionInv FoldInv ForestProps Codec Puffin PuffinBase Layered Compact TierPolicy.
From S2P Require Import PuffinServe PuffinProps LayeredInv LayeredServe LayeredProps.

(** What the next commit of a worker will hold, given the newest snapshot. *)
Section next.
Context {St : Type} `{!EdgeSort}.

Definition next_buffer (s : Flusher St) (m : SnapshotMeta) : EdgeBuffer :=
  (drop_committed (seal_active (fl_buffer s)).2 (stream_position m)).2.

Definition next_segments (s : Flusher St) (m : SnapshotMeta) : list Segment := sealed (next_buffer s m).

Definition file_last (s : Flusher St) (m : SnapshotMeta) : StreamPosition :=
  foldl (fun p sg => pos_merge p (sg_last sg)) pos_new (next_segments s m).

Definition next_position (s : Flusher St) (m : SnapshotMeta) : StreamPosition :=
  pos_merge (stream_position m) (file_last s m).
End next.

Section tick.
Context {St : Type} `{!ObjectStore St, !ObjectStoreLaws St, !ReliableStore St, !EdgeSort}.
Context (snap_to_json : SnapshotMeta → bytes) (snap_from_json : bytes → option SnapshotMeta).
Context (snap_roundtrip : ∀ m, snap_from_json (snap_to_json m) = Some m).
Context (to_json : FileMetadata → bytes) (from_json : bytes → option FileMetadata).
Context (json_roundtrip : ∀ m, from_json (to_json m) = Some m).
Context (parquet : list (list Row) → option bytes) (uuid : nat → string).
Context (cfg : Config) (reader : ScanReader) (reopened : bool).

Abbreviation disk_objects d := (objects (cv_store (dk_view d))).

(** The forest answers for [evs] over the stack [l]. *)
Record serving (s : Flusher St) (evs : list EdgeEvent) (l : LocalLayers) (snaps : list ForestSnapshot) : Prop := {
  sv_layers : fl_layers s = Some l;
  sv_absorbed : absorbed (fl_forest s) evs;
  sv_base : tier_base (tier (fl_forest s)) = Some (layered_routing (ll_base l));
  sv_stack : stack_inv (ll_base l) snaps;
}.

(** A run is in the store as the bytes its layer maps. *)
Definition stored_run (objs : gmap Path Object) (r : LocalRun) (ly : Layer) : Prop :=
  ∃ p data, lr_remote r = Some p ∧ o_data <$> objs !! p = Some data ∧ maps from_json reader reopened data ly.

(** The catalog's newest snapshot [n] describes the stack [l], whose runs, spanning
    [lo..=n], are in the store; snapshots before [first] have expired. *)
Record in_catalog (v : CatalogView St) (l : LocalLayers) (ms : list RunMeta) (first lo n : N) (meta : N → SnapshotMeta)
    : Prop := {
  ic_dense : dense snap_from_json (table_prefix cfg) v first n meta;
  ic_cached : cached_seq v = 0 ∨ first <= cached_seq v <= n;
  ic_metas : remote_metas (ll_runs l) = Some ms;
  ic_runs : run_key <$> runs (meta n) = run_key <$> ms;
  ic_seq : sm_sequence (meta n) = n;
  ic_tiles : tiles ms lo n;
  ic_lo : lo <= n;
  ic_stored : Forall2 (stored_run (objects (cv_store v))) (ll_runs l) (layers (ll_base l));
}.

(** The objects behind the described runs. *)
Lemma stored_metas (v : CatalogView St) l ms first lo n meta :
  in_catalog v l ms first lo n meta →
  Forall2 (fun m ly => ∃ data, o_data <$> objects (cv_store v) !! run_path m = Some data ∧
    maps from_json reader reopened data ly) ms (layers (ll_base l)).
Proof.
  intros Hic. pose proof (ic_metas _ _ _ _ _ _ _ Hic) as Hm%remote_metas_describes.
  pose proof (ic_stored _ _ _ _ _ _ _ Hic) as Hst. clear Hic.
  revert Hst. generalize (layers (ll_base l)). induction Hm as [|r m rs ms (p & Hp & ->) _ IH]; intros lys Hst.
  - apply Forall2_nil_inv_l in Hst as ->. constructor.
  - apply Forall2_cons_inv_l in Hst as (ly & lys' & (p' & data & Hp' & Hd & Hmap) & Hst & ->).
    constructor; [|by apply IH]. rewrite Hp in Hp'. injection Hp' as <-. by exists data.
Qed.

(** The runs of a catalog, mapped, are stored when their objects are. *)
Lemma stored_committed objs rs paths lys :
  length rs = length paths →
  Forall2 (fun m ly => ∃ data, o_data <$> objs !! run_path m = Some data ∧ maps from_json reader reopened data ly) rs lys →
  Forall2 (stored_run objs) (committed_all rs paths lys) lys.
Proof.
  intros Hp Hst. revert paths Hp. induction Hst as [|r ly rs lys (data & Hd & Hm) _ IH]; intros [|p paths] Hp; try done.
  injection Hp as Hp. constructor; [|by apply IH]. by exists (run_path r), data.
Qed.

(** No merge waits to be adopted. *)
Definition no_merge (s : Flusher St) : Prop := ∀ p, fl_pending s = Some p → pm_finished p = None.

(** ** Before the batch *)

Lemma adopt_none now sequence position (s : Flusher St) :
  no_merge s →
  adopt_merge snap_to_json from_json uuid cfg reader reopened now sequence position s = (Ok false, s).
Proof.
  intros Hp. unfold adopt_merge. rewrite bind_unfold. cbn [gets].
  destruct (fl_pending s) as [p|] eqn:E; [|done]. by rewrite (Hp p E).
Qed.

Lemma start_merge_ok sequence position (s : Flusher St) evs l snaps :
  serving s evs l snaps → length (ll_runs l) = length (layers (ll_base l)) → no_merge s →
  ∃ p, start_merge cfg sequence position s = (Ok tt, set_pending p s) ∧ ∀ q, p = Some q → pm_finished q = None.
Proof.
  intros [Hl _ _ Is] Hlen Hp. unfold start_merge.
  assert (set_pending (fl_pending s) s = s) as Hid by (by destruct s).
  destruct (base_dir cfg) as [dir|]; [|exists (fl_pending s); rewrite Hid; by split].
  rewrite bind_unfold. cbn [gets]. case_bool_decide; [exists (fl_pending s); rewrite Hid; by split|].
  rewrite bind_unfold. cbn [gets]. rewrite Hl. destruct (fully_committed l); cbn [negb];
    [|exists (fl_pending s); rewrite Hid; by split].
  destruct (pick_merge _ _ _) as [[a b]|] eqn:Hpick; [|exists (fl_pending s); rewrite Hid; by split].
  apply pick_merge_range in Hpick. rewrite length_fmap in Hpick.
  assert (∃ sub, slice (ll_base l) a b = Ok sub) as [sub Hsub].
  { unfold slice. destruct (Nat.leb_spec b (length (layers (ll_base l)))); [|lia]. cbn [negb].
    destruct (Nat.ltb_spec b a); [lia|]. unfold from_layers. destruct (take _ _) eqn:E; [|by eexists].
    exfalso. apply (f_equal length) in E. rewrite length_take, length_drop in E. cbn in E. lia. }
  rewrite bind_unfold, Hsub. cbn [lift map_err]. eexists. split; [done|]. by intros q [= <-].
Qed.

(** A leader's tick with no merge to adopt, up to the commit of its batch. *)
Lemma tick_head parallelism lost now (s : Flusher St) evs l snaps ms first lo n meta :
  serving s evs l snaps → in_catalog (dk_view (fl_disk s)) l ms first lo n meta → no_merge s →
  inline_merges cfg = false → next_segments s (meta n) ≠ [] →
  ∃ s1, tick snap_to_json snap_from_json to_json from_json parquet uuid cfg parallelism reader reopened true lost now s =
      commit_batch snap_to_json to_json from_json parquet uuid cfg reader reopened now (Some (meta n)) (n + 1)
        (next_segments s (meta n)) s1 ∧
    serving s1 evs l snaps ∧ in_catalog (dk_view (fl_disk s1)) l ms first lo n meta ∧ no_merge s1 ∧
    fl_forest s1 = fl_forest s ∧ fl_buffer s1 = next_buffer s (meta n) ∧ fl_uuids s1 = fl_uuids s ∧
    disk_objects (fl_disk s1) = disk_objects (fl_disk s) ∧ cached_seq (dk_view (fl_disk s1)) = n.
Proof.
  intros Hs Hc Hp Hin Hseg. destruct Hc as [Hd Hca Hm Hrs Hseq Ht Hlo Hst].
  destruct (latest_dense snap_from_json (table_prefix cfg) (dk_view (fl_disk s)) first n meta Hd Hca)
    as (v' & Hlat & Hcv & Hov).
  set (s0 := set_buffer (seal_active (fl_buffer s)).2 s).
  assert (dk_view (fl_disk s0) = dk_view (fl_disk s)) as Hv0 by done.
  set (s1 := set_buffer (next_buffer s (meta n)) (set_disk (mkDisk v' (dk_files (fl_disk s))) s)).
  assert (serving s1 evs l snaps) as Hs1 by (destruct Hs; by split).
  destruct (ds_range _ _ _ _ _ _ Hd) as (H1 & H2 & H3).
  destruct (start_merge_ok (n + 1) (stream_position (meta n)) s1 evs l snaps Hs1) as (p & Hsm & Hpp).
  { by eapply Forall2_length. } { exact Hp. }
  exists (set_pending p s1). split; [|split_and!; try done].
  - unfold tick. rewrite bind_unfold. cbn [modify].
    rewrite (bind_ok _ _ _ (Some (meta n)) (set_disk (mkDisk v' (dk_files (fl_disk s))) s0))
      by (apply on_disk_ok, disk_catalog_ok, Hlat).
    rewrite bind_unfold. cbn [modify]. change (set_buffer _ (set_disk (mkDisk v' (dk_files (fl_disk s))) s0)) with s1.
    cbn [from_option negb]. rewrite Hseq, wadd64_small by lia.
    rewrite (bind_ok _ _ _ (n + 1) (set_pending p s1)).
    2: { unfold tick_merges. rewrite (bind_ok _ _ _ false s1) by (by apply adopt_none).
      rewrite (bind_ok _ _ _ tt (set_pending p s1)) by exact Hsm. by rewrite Hin. }
    rewrite bind_unfold. cbn [gets]. change (sealed (fl_buffer (set_pending p s1))) with (next_segments s (meta n)).
    rewrite bool_decide_eq_false_2; [done|]. intros E. by apply nil_length_inv in E.
  - destruct Hs1; by split.
  - split; [| |done|done|done|done|done|]; cbn.
    + destruct Hd as [E1 E2 E3 E4]. split; rewrite ?Hov; done.
    + right. rewrite Hcv. lia.
    + by rewrite Hov.
Qed.

(** ** The batch *)

Lemma not_metadata (prefix : Path) x y : x ≠ "metadata" → ¬ metadata_dir prefix `prefix_of` prefix ++ [x; y].
Proof.
  intros Hx [k Hk]. unfold metadata_dir in Hk. rewrite <- app_assoc in Hk. apply app_inv_head in Hk. by injection Hk as -> _.
Qed.

Lemma object_paths_apart prefix sequence sequence' u u' :
  data_object_path prefix sequence u ≠ run_object_path prefix sequence' u'.
Proof. unfold data_object_path, run_object_path. intros E%app_inv_head. discriminate. Qed.

Lemma not_snap_path prefix p q : ¬ metadata_dir prefix `prefix_of` p → p ≠ snap_path prefix q.
Proof. intros Hn ->. apply Hn, snap_path_under. Qed.

Lemma stored_run_keep objs objs' r ly :
  stored_run objs r ly → (∀ q, is_Some (objs !! q) → objs' !! q = objs !! q) → stored_run objs' r ly.
Proof.
  intros (p & data & Hp & Hd & Hm) Hk. exists p, data. split; [done|]. split; [|done].
  apply fmap_Some in Hd as (o & Ho & ->). rewrite Hk by eauto. by rewrite Ho.
Qed.

Lemma stored_size (p : Path) (b : bytes) (o o' : gmap Path Object) : stored p b o o' → (size o' ≤ S (size o))%nat.
Proof. intros [t ->]. rewrite map_size_insert. destruct (o !! p); cbn; lia. Qed.

(** What a snapshot's position reads as, where its watermark is kept in step. *)
Lemma batch_position now sequence position first fl data dl rows object base rs :
  stream_position (batch_snapshot cfg now sequence position first fl data dl rows object base rs) ≡ position.
Proof.
  unfold stream_position, batch_snapshot, pos_is_empty. cbn [sm_position Catalog.watermark].
  case_bool_decide as Hp; [|done]. destruct position as [o]. cbn in Hp. subst o. intros k. unfold single.
  rewrite pos_get_advance. by case_decide.
Qed.

Lemma pos_merge_covers p q : covers (pos_merge p q) p.
Proof. intros k. rewrite pos_get_merge. lia. Qed.

(** What the batch of the next tick takes: a Parquet encoding, names nobody has used, a
    run that fits its file, and a stream the catalog agrees with. *)
Record batch_ready (s : Flusher St) (n : N) (m : SnapshotMeta) (segments : list Segment) (position : StreamPosition)
    (pq data : bytes) : Prop := {
  br_parquet : parquet (sg_batch <$> segments) = Some pq;
  br_data_fresh : disk_objects (fl_disk s) !! data_object_path (table_prefix cfg) (n + 1) (uuid (fl_uuids s)) = None;
  br_run_fresh : disk_objects (fl_disk s) !! run_object_path (table_prefix cfg) (n + 1) (uuid (S (fl_uuids s))) = None;
  br_room : N.of_nat (size (disk_objects (fl_disk s))) + 3 < u64_limit - 1 ∧ n + 2 < u64_limit;
  br_written : puffin_write to_json (bw_finish (foldl bw_push (bw_new (n + 1) (write cfg))
    (stream_memtable (tier (fl_forest s))).1)) (puffin_metadata position) = Ok data;
  br_fits : delta_fits (fl_forest s) data;
  br_stream a b : cfg_stream cfg = Some a → sm_stream m = Some b → same_stream a b = true;
}.

Lemma batch_advances now sequence position first fl data dl rows object base rs m :
  covers position (stream_position m) →
  (∀ a b, cfg_stream cfg = Some a → sm_stream m = Some b → same_stream a b = true) →
  advances_from (batch_snapshot cfg now sequence position first fl data dl rows object base rs) m = Ok tt.
Proof.
  intros Hc Hst. unfold advances_from, ensure.
  assert (dominates (stream_position (batch_snapshot cfg now sequence position first fl data dl rows object base rs))
    (stream_position m) = true) as ->.
  { apply dominates_covers. by rewrite batch_position. }
  cbn [mbind result_bind]. unfold batch_snapshot. cbn [sm_stream].
  destruct (cfg_stream cfg) as [a|] eqn:Ea, (sm_stream m) as [b|] eqn:Eb; try done. by rewrite (Hst a b).
Qed.

(** The stack after a delta has been folded, and after it has been committed. *)
Definition delta_layers (l : LocalLayers) (ly : Layer) (dir : string) (sequence : N) : LocalLayers :=
  mkLocalLayers (layered_pushed (ll_base l) ly)
    (ll_runs l ++ [written (fold_path cfg dir sequence false) ly 0 sequence sequence]).

Definition next_layers (l : LocalLayers) (ly : Layer) (dir : string) (sequence : N) (object : Path) : LocalLayers :=
  mark_committed (delta_layers l ly dir sequence) object.

Lemma next_layers_base l ly dir sequence object : ll_base (next_layers l ly dir sequence object) = layered_pushed (ll_base l) ly.
Proof. done. Qed.

(** The catalog after three objects have been written: the data file, the run, and the
    metadata that names them. *)
Lemma in_catalog_extend (v v' : CatalogView St) l ms first lo n meta ly dir dp object pq data m O1 O2 :
  in_catalog v l ms first lo n meta → n + 2 < u64_limit →
  N.of_nat (size (objects (cv_store v))) + 3 < u64_limit - 1 →
  ¬ metadata_dir (table_prefix cfg) `prefix_of` dp → ¬ metadata_dir (table_prefix cfg) `prefix_of` object →
  dp ≠ object → objects (cv_store v) !! dp = None → objects (cv_store v) !! object = None →
  stored dp pq (objects (cv_store v)) O1 → stored object data O1 O2 →
  stored (snap_path (table_prefix cfg) (n + 1)) (snap_to_json m) O2 (objects (cv_store v')) →
  cached_seq v' = n + 1 → maps from_json reader reopened data ly → sm_sequence m = n + 1 →
  runs m = ms ++ [local_meta (written (fold_path cfg dir (n + 1) false) ly 0 (n + 1) (n + 1)) object] →
  in_catalog v' (next_layers l ly dir (n + 1) object)
    (ms ++ [local_meta (written (fold_path cfg dir (n + 1) false) ly 0 (n + 1) (n + 1)) object])
    first lo (n + 1) (fun q => if q =? n + 1 then m else meta q).
Proof.
  intros [Hd Hca Hm Hrs Hseq Ht Hlo Hst] Hn Hsz Hnd Hno Hne Hfd Hfo S1 S2 S3 Hcv Hmap Hsm Hruns.
  assert (∀ q, q ≠ dp → q ≠ object → q ≠ snap_path (table_prefix cfg) (n + 1) →
    objects (cv_store v') !! q = objects (cv_store v) !! q) as Hother.
  { intros q Hq1 Hq2 Hq3. rewrite (stored_other _ _ _ _ q S3), (stored_other _ _ _ _ q S2), (stored_other _ _ _ _ q S1) by done.
    done. }
  pose proof (stored_same _ _ _ _ S3) as Hsnap. apply fmap_Some in Hsnap as (o & Ho & Hod).
  pose proof (stored_size _ _ _ _ S1) as Z1. pose proof (stored_size _ _ _ _ S2) as Z2. pose proof (stored_size _ _ _ _ S3) as Z3.
  destruct (ds_range _ _ _ _ _ _ Hd) as (R1 & R2 & R3).
  assert (¬ is_Some (objects (cv_store v) !! snap_path (table_prefix cfg) (n + 1))) as Hnext by (by eapply dense_next).
  split.
  - apply (dense_extend snap_from_json (table_prefix cfg) v v' first n meta m o Hd Hn); [lia|done|by rewrite <- Hod|].
    intros q Hq Hqn. apply Hother; [by intros ->|by intros ->|done].
  - right. lia.
  - by apply mark_committed_snoc.
  - rewrite N.eqb_refl. by rewrite Hruns.
  - by rewrite N.eqb_refl.
  - apply (tiles_snoc ms lo n); [done|done|done|]. by unfold forward.
  - lia.
  - unfold next_layers, mark_committed. cbn [ll_runs ll_base delta_layers layered_pushed layers].
    rewrite length_app. cbn [length]. replace (length (ll_runs l) + 1 - 1)%nat with (length (ll_runs l) + 0)%nat by lia.
    rewrite alter_app_r. cbn. apply Forall2_app.
    + eapply Forall2_impl; [exact Hst|]. intros r ly' Hr. eapply stored_run_keep; [exact Hr|].
      intros q Hq. apply Hother; intros ->; [rewrite Hfd in Hq|rewrite Hfo in Hq|done]; by apply is_Some_None in Hq.
    + repeat constructor. exists object, data. split; [done|]. split; [|done].
      rewrite (stored_other _ _ _ _ object S3) by (by apply not_snap_path). by eapply stored_same.
Qed.

End tick.
