(* ===== verification/FlushBatch.v ===== *)
(** The batch of a tick, on a store whose requests may fail: where it stops, and what the
    worker and the table are then. *)

From S2P Require Import Prelude Types Bytes Stream Decimal ObjectStore Catalog CatalogInv CatalogProps CatalogLatest Buffer LocalRuns LocalRunsInv Flush FlushInv FlushTick.
From S2P Require Import Graph Dsu RoutingBase Forest ForestInv Compaction CompactionInv FoldInv ForestProps Codec Puffin PuffinBase Layered Compact TierPolicy.
From S2P Require Import PuffinServe PuffinProps LayeredInv LayeredServe LayeredProps.

Section fail.
Context {St : Type} `{!ObjectStore St, !ObjectStoreLaws St, !CleanStore St, !EdgeSort}.
Context (snap_to_json : SnapshotMeta → bytes) (snap_from_json : bytes → option SnapshotMeta).
Context (snap_roundtrip : ∀ m, snap_from_json (snap_to_json m) = Some m).
Context (to_json : FileMetadata → bytes) (from_json : bytes → option FileMetadata).
Context (json_roundtrip : ∀ m, from_json (to_json m) = Some m).
Context (parquet : list (list Row) → option bytes) (uuid : nat → string).
Context (cfg : Config) (parallelism : nat) (reader : ScanReader) (reopened : bool).

Abbreviation disk_objects d := (objects (cv_store (dk_view d))).
Abbreviation stands := (in_catalog snap_from_json from_json cfg reader reopened).
Abbreviation folds := (fold to_json from_json cfg reader reopened).

(** ** The full fold *)

(** The stack of a worker that holds a run nobody has committed is folded into one run that
    covers all of it. *)
Definition full_layers (l : LocalLayers) (ly : Layer) (dir : string) (sequence : N) : LocalLayers :=
  mkLocalLayers (layered_new ly) [written (fold_path cfg dir sequence true) ly (merged_level (ll_runs l))
    (from_option lr_min sequence (head (ll_runs l))) sequence].

Lemma fold_full_ok (s : Flusher St) evs l dir sequence position data :
  base_dir cfg = Some dir → fl_layers s = Some l → fully_committed l = false → absorbed (fl_forest s) evs →
  puffin_write to_json (compact_to_blobs (fl_forest s) sequence (write cfg)) (puffin_metadata position) = Ok data →
  run_fits (fl_forest s) data →
  ∃ ly, let next := full_layers l ly dir sequence in
    (∀ d k, folds sequence position true (set_disk d (set_uuids k s)) = (Ok (Some (data, FoldBase)),
      set_layers (Some next) (set_forest (publish (fl_forest s) (layered_routing (ll_base next)))
        (set_disk (foldl (fun d r => remove_file (lr_path r) d)
          (write_file (fold_path cfg dir sequence true) data d) (ll_runs l)) (set_uuids k s))))) ∧
    maps from_json reader reopened data ly ∧ stack_inv (ll_base next) [(snapshot (fl_forest s)).1] ∧
    absorbed (publish (fl_forest s) (layered_routing (ll_base next))) evs.
Proof using json_roundtrip.
  intros Hdir Hl Hfc I Hw Hfit.
  destruct (full_map_run to_json from_json json_roundtrip (fl_forest s) evs sequence (write cfg) (puffin_metadata position)
    reader reopened data I Hw Hfit) as (ly & El & Sl & Be & _).
  destruct (fold_published (fl_forest s) evs (bw_new sequence (write cfg))
    (fold_build to_json from_json reader reopened (puffin_metadata position)) (layered_routing (layered_new ly))
    (data, layered_new ly) I) as [Hf I']; [|done|].
  { unfold fold_build. by rewrite El. }
  exists ly. intros next. split; [|split; [exact (proj2 (map_run_maps _ _ _ _ _ _ _ _ El))|done]]. intros d k.
  unfold fold. rewrite Hdir. rewrite bind_unfold. cbn [gets negb andb].
  rewrite bind_unfold. cbn [gets fl_layers set_disk set_uuids]. rewrite Hl, Hfc. cbn [negb from_option].
  rewrite (bind_ok _ _ _ (data, next) (set_forest (publish (fl_forest s) (layered_routing (layered_new ly)))
    (set_disk (write_file (fold_path cfg dir sequence true) data d) (set_uuids k s)))).
  2: { unfold fold_full. rewrite bind_unfold. cbn [gets fl_forest set_disk set_uuids]. rewrite Hf. rewrite (run_file_eq to_json position _ _ Hw).
    rewrite bind_unfold. cbn [update_disk modify put_file]. rewrite bind_unfold. cbn [modify]. rewrite bind_unfold.
    cbn [lift map_err snd]. rewrite bind_unfold. cbn [layered_new layers]. done. }
  rewrite bind_unfold. cbn [modify]. rewrite bind_unfold. cbn [update_disk modify]. done.
Qed.

(** ** Where a batch can stop *)

(** The metadata of the batch. *)
Definition batch_meta (now : Z) (n : N) (position : StreamPosition) (segments : list Segment) (dp : Path) (pq : bytes) (op : Path)
    (kind : FoldKind) (rs : list RunMeta) : SnapshotMeta :=
  batch_snapshot cfg now (n + 1) position (low_of (sg_first <$> segments)) (foldl (fun p sg => pos_merge p (sg_last sg)) pos_new segments)
    dp (N.of_nat (length pq)) (foldl (fun rows s => rows ⊞ N.of_nat (length (sg_batch s))) 0 segments) op
    (match kind with FoldBase => n + 1 | FoldDelta b => b end) rs.

(** Before the fold, after it, or not at all. *)
Inductive batch_stop (s : Flusher St) (n : N) (position : StreamPosition) (dp op : Path) (pq data : bytes) (next : LocalLayers)
    (f : ScopedForest) (files : gmap string bytes) (m : SnapshotMeta) : result flush_error unit → Flusher St → Prop :=
| stop_early e d :
    dk_files d = dk_files (fl_disk s) → cached_seq (dk_view d) = cached_seq (dk_view (fl_disk s)) →
    disk_objects d = disk_objects (fl_disk s) ∨ stored dp pq (disk_objects (fl_disk s)) (disk_objects d) →
    batch_stop s n position dp op pq data next f files m (Err e) (set_disk d (set_uuids (S (fl_uuids s)) s))
| stop_folded e d O1 :
    dk_files d = files → cached_seq (dk_view d) = cached_seq (dk_view (fl_disk s)) →
    stored dp pq (disk_objects (fl_disk s)) O1 → disk_objects d = O1 ∨ stored op data O1 (disk_objects d) →
    batch_stop s n position dp op pq data next f files m (Err e)
      (set_disk d (set_uuids (S (S (fl_uuids s))) (set_layers (Some next) (set_forest f s))))
| stop_done d O1 O2 :
    dk_files d = files → cached_seq (dk_view d) = N.max (cached_seq (dk_view (fl_disk s))) (n + 1) →
    stored dp pq (disk_objects (fl_disk s)) O1 → stored op data O1 O2 →
    stored (snap_path (table_prefix cfg) (n + 1)) (snap_to_json m) O2 (disk_objects d) →
    batch_stop s n position dp op pq data next f files m (Ok tt)
      (set_layers (Some (mark_committed next op)) (set_buffer (drop_committed (fl_buffer s) position).2
        (set_disk d (set_uuids (S (S (fl_uuids s))) (set_forest f s))))).

Lemma commit_batch_run now (s : Flusher St) n prev segments pq data kind next f files rs :
  let position := pos_merge (stream_position prev) (foldl (fun p sg => pos_merge p (sg_last sg)) pos_new segments) in
  let dp := data_object_path (table_prefix cfg) (n + 1) (uuid (fl_uuids s)) in
  let op := run_object_path (table_prefix cfg) (n + 1) (uuid (S (fl_uuids s))) in
  parquet (sg_batch <$> segments) = Some pq →
  (∀ a b, cfg_stream cfg = Some a → sm_stream prev = Some b → same_stream a b = true) →
  disk_objects (fl_disk s) !! snap_path (table_prefix cfg) (n + 1) = None →
  (∀ d1, dk_files d1 = dk_files (fl_disk s) → folds (n + 1) position true (set_disk d1 (set_uuids (S (fl_uuids s)) s)) =
    (Ok (Some (data, kind)), set_layers (Some next) (set_forest f (set_disk (mkDisk (dk_view d1) files) (set_uuids (S (fl_uuids s)) s))))) →
  run_metas next op = Some rs →
  ∃ r s', commit_batch snap_to_json to_json from_json parquet uuid cfg reader reopened now (Some prev) (n + 1) segments s = (r, s') ∧
    (ReliableStore St → r = Ok tt) ∧
    batch_stop s n position dp op pq data next f files (batch_meta now n position segments dp pq op kind rs) r s'.
Proof using ObjectStoreLaws0 CleanStore0.
  intros position dp op Bp Bst Hnone Hfold Hrm. set (k := fl_uuids s) in *.
  assert (¬ metadata_dir (table_prefix cfg) `prefix_of` dp) as Hnd by (by apply not_metadata).
  assert (¬ metadata_dir (table_prefix cfg) `prefix_of` op) as Hno by (by apply not_metadata).
  unfold commit_batch. fold position. unfold segments_to_parquet. rewrite Bp.
  rewrite (bind_ok _ _ s (pq, _) s) by done. rewrite (bind_ok _ _ s (uuid k) (set_uuids (S k) s)) by done. cbn [fst snd]. fold dp.
  destruct (put_disk_run dp pq (set_uuids (S k) s)) as (r1 & d1 & P1 & F1 & C1 & S1 & R1). cbn [fl_disk set_uuids] in F1, C1, S1.
  destruct r1 as [[]|e1].
  2: { rewrite (bind_err _ _ _ _ _ P1). eexists _, _. split; [done|]. split; [|by apply stop_early]. intros HR. by specialize (R1 HR). }
  rewrite (bind_ok _ _ _ _ _ P1). rewrite (bind_ok _ _ _ _ _ (Hfold d1 F1)). cbn match.
  set (s2 := set_layers (Some next) _). rewrite (bind_ok _ _ s2 (data, kind) s2) by done.
  rewrite (bind_ok _ _ s2 (uuid (S k)) (set_uuids (S (S k)) s2)) by done. cbn [fst snd]. fold op.
  destruct (put_disk_run op data (set_uuids (S (S k)) s2)) as (r3 & d3 & P3 & F3 & C3 & S3 & R3). cbn in F3, C3, S3.
  destruct r3 as [[]|e3].
  2: { rewrite (bind_err _ _ _ _ _ P3). eexists _, _. split; [done|]. split; [intros HR; by specialize (R3 HR)|].
    change (set_disk d3 _) with (set_disk d3 (set_uuids (S (S k)) (set_layers (Some next) (set_forest f s)))).
    apply (stop_folded _ _ _ _ _ _ _ _ _ _ _ _ d3 (disk_objects d1)); [done|congruence|done|done]. }
  rewrite (bind_ok _ _ _ _ _ P3). set (s3 := set_disk d3 _). rewrite (bind_ok _ _ s3 (Some next) s3) by done. rewrite Hrm. cbn [default].
  set (m := batch_snapshot _ _ _ _ _ _ _ _ _ _ _ _).
  rewrite (bind_ok _ _ s3 tt s3).
  2: { unfold lift. unfold m. rewrite batch_advances; [done|apply pos_merge_covers|done]. }
  assert (disk_objects (fl_disk s3) !! snap_path (table_prefix cfg) (sm_sequence m) = None) as Habs.
  { change (disk_objects d3 !! snap_path (table_prefix cfg) (n + 1) = None).
    rewrite (stored_other _ _ _ _ _ S3) by (symmetry; by apply not_snap_path).
    by rewrite (stored_other _ _ _ _ _ S1) by (symmetry; by apply not_snap_path). }
  destruct (commit_disk_run snap_to_json (table_prefix cfg) m s3 Habs) as (r4 & d4 & P4 & F4 & S4 & R4). cbn in F4.
  destruct r4 as [c|e4].
  2: { rewrite (bind_err _ _ _ _ _ P4). destruct S4 as [O4 C4]. cbn in O4, C4. eexists _, _. split; [done|].
    split; [intros HR; by specialize (R4 HR)|].
    change (set_disk d4 _) with (set_disk d4 (set_uuids (S (S k)) (set_layers (Some next) (set_forest f s)))).
    apply (stop_folded _ _ _ _ _ _ _ _ _ _ _ _ d4 (disk_objects d1)); [congruence|congruence|done|by right; rewrite O4]. }
  destruct S4 as (-> & S4 & C4). cbn in S4, C4. rewrite (bind_ok _ _ _ _ _ P4). eexists _, (set_layers (Some (mark_committed next op)) (set_buffer (drop_committed (fl_buffer s) position).2
    (set_disk d4 (set_uuids (S (S k)) (set_forest f s))))). split; [done|]. split; [done|].
  apply (stop_done _ _ _ _ _ _ _ _ _ _ _ d4 (disk_objects d1) (disk_objects d3)); [congruence|rewrite C4, C3, C1; done|done|done|exact S4].
Qed.

(** ** The batch of a worker whose stack is committed *)

Abbreviation ready := (batch_ready to_json parquet uuid cfg).

Lemma batch_absent (v : CatalogView St) l ms first lo n meta :
  stands v l ms first lo n meta → objects (cv_store v) !! snap_path (table_prefix cfg) (n + 1) = None.
Proof using ObjectStoreLaws0.
  intros [Hd _ _ _ _ _ _ _]. destruct (objects (cv_store v) !! snap_path (table_prefix cfg) (n + 1)) eqn:E; [|done].
  exfalso. by apply (dense_next _ _ _ _ _ _ Hd).
Qed.

Lemma delta_run now (s : Flusher St) evs l snaps ms first lo n meta prev segments pq data dir :
  serving s evs l snaps → stands (dk_view (fl_disk s)) l ms first lo n meta → base_dir cfg = Some dir →
  let position := pos_merge (stream_position prev) (foldl (fun p sg => pos_merge p (sg_last sg)) pos_new segments) in
  let dp := data_object_path (table_prefix cfg) (n + 1) (uuid (fl_uuids s)) in
  let op := run_object_path (table_prefix cfg) (n + 1) (uuid (S (fl_uuids s))) in
  ready s n prev segments position pq data →
  ∃ ly r s', commit_batch snap_to_json to_json from_json parquet uuid cfg reader reopened now (Some prev) (n + 1) segments s = (r, s') ∧
    (ReliableStore St → r = Ok tt) ∧ maps from_json reader reopened data ly ∧
    stack_inv (layered_pushed (ll_base l) ly) (snaps ++ [collect (stream_memtable (tier (fl_forest s))).1]) ∧
    absorbed (publish (fl_forest s) (layered_routing (layered_pushed (ll_base l) ly))) evs ∧
    let next := delta_layers cfg l ly dir (n + 1) in
    batch_stop s n position dp op pq data next (publish (fl_forest s) (layered_routing (ll_base next)))
      (<[fold_path cfg dir (n + 1) false := data]> (dk_files (fl_disk s)))
      (batch_meta now n position segments dp pq op (FoldDelta (base_sequence next))
        (ms ++ [local_meta (written (fold_path cfg dir (n + 1) false) ly 0 (n + 1) (n + 1)) op])) r s'.
Proof using ObjectStoreLaws0 CleanStore0 json_roundtrip.
  intros Hs Hic Hdir position dp op [Bp Bd Br [Bz Bn] Bw Bf Bst]. pose proof Hs as [Hl I Hb Is].
  pose proof (ic_metas _ _ _ _ _ _ _ _ _ _ _ _ Hic) as Hm.
  destruct (fold_delta_ok to_json from_json json_roundtrip cfg reader reopened s evs l snaps dir (n + 1) position data)
    as (ly & Hfold & Hmap & Is' & I'); try done; [by eapply remote_metas_committed|].
  destruct (commit_batch_run now s n prev segments pq data (FoldDelta (base_sequence (delta_layers cfg l ly dir (n + 1))))
    (delta_layers cfg l ly dir (n + 1)) (publish (fl_forest s) (layered_routing (layered_pushed (ll_base l) ly)))
    (<[fold_path cfg dir (n + 1) false := data]> (dk_files (fl_disk s)))
    (ms ++ [local_meta (written (fold_path cfg dir (n + 1) false) ly 0 (n + 1) (n + 1)) op]) Bp Bst) as (r & s' & Ec & Hr & Hstop).
  - by eapply batch_absent.
  - intros d1 Hd1. rewrite Hfold. unfold write_file. by rewrite Hd1.
  - by apply run_metas_snoc.
  - by exists ly, r, s'.
Qed.

(** ** The batch of a worker that holds a run nobody has committed *)

Lemma remove_all_files rs : ∀ d : Disk St,
  foldl (fun d r => remove_file (lr_path r) d) d rs = mkDisk (dk_view d) (foldl (fun f r => delete (lr_path r) f) (dk_files d) rs).
Proof using. induction rs as [|r rs IH]; intros [v f]; [done|]. cbn [foldl]. by rewrite IH. Qed.

Lemma full_run now (s : Flusher St) evs l snaps n prev segments pq data dir :
  serving s evs l snaps → fully_committed l = false → base_dir cfg = Some dir →
  disk_objects (fl_disk s) !! snap_path (table_prefix cfg) (n + 1) = None →
  let position := pos_merge (stream_position prev) (foldl (fun p sg => pos_merge p (sg_last sg)) pos_new segments) in
  let dp := data_object_path (table_prefix cfg) (n + 1) (uuid (fl_uuids s)) in
  let op := run_object_path (table_prefix cfg) (n + 1) (uuid (S (fl_uuids s))) in
  parquet (sg_batch <$> segments) = Some pq →
  puffin_write to_json (compact_to_blobs (fl_forest s) (n + 1) (write cfg)) (puffin_metadata position) = Ok data →
  run_fits (fl_forest s) data →
  (∀ a b, cfg_stream cfg = Some a → sm_stream prev = Some b → same_stream a b = true) →
  ∃ ly r s' files, commit_batch snap_to_json to_json from_json parquet uuid cfg reader reopened now (Some prev) (n + 1) segments s = (r, s') ∧
    (ReliableStore St → r = Ok tt) ∧ maps from_json reader reopened data ly ∧
    stack_inv (layered_new ly) [(snapshot (fl_forest s)).1] ∧ absorbed (publish (fl_forest s) (layered_routing (layered_new ly))) evs ∧
    let next := full_layers l ly dir (n + 1) in
    batch_stop s n position dp op pq data next (publish (fl_forest s) (layered_routing (ll_base next))) files
      (batch_meta now n position segments dp pq op FoldBase (flip local_meta op <$> ll_runs next)) r s'.
Proof using ObjectStoreLaws0 CleanStore0 json_roundtrip.
  intros [Hl I Hb Is] Hfc Hdir Hnone position dp op Bp Bw Bf Bst.
  destruct (fold_full_ok s evs l dir (n + 1) position data Hdir Hl Hfc I Bw Bf) as (ly & Hfold & Hmap & Is' & I').
  set (files := foldl (fun f r => delete (lr_path r) f) (<[fold_path cfg dir (n + 1) true := data]> (dk_files (fl_disk s))) (ll_runs l)).
  destruct (commit_batch_run now s n prev segments pq data FoldBase (full_layers l ly dir (n + 1))
    (publish (fl_forest s) (layered_routing (layered_new ly))) files (flip local_meta op <$> ll_runs (full_layers l ly dir (n + 1)))
    Bp Bst Hnone) as (r & s' & Ec & Hr & Hstop).
  - intros d1 Hd1. rewrite Hfold, remove_all_files. unfold files, write_file. cbn [dk_view dk_files]. by rewrite Hd1.
  - done.
  - by exists ly, r, s', files.
Qed.

(** What a delta that went through leaves. *)
Lemma delta_done now (s : Flusher St) evs l snaps ms first lo n meta prev segments pq data dir ly d O1 O2 :
  serving s evs l snaps → stands (dk_view (fl_disk s)) l ms first lo n meta → cached_seq (dk_view (fl_disk s)) = n →
  let position := pos_merge (stream_position prev) (foldl (fun p sg => pos_merge p (sg_last sg)) pos_new segments) in
  let dp := data_object_path (table_prefix cfg) (n + 1) (uuid (fl_uuids s)) in
  let op := run_object_path (table_prefix cfg) (n + 1) (uuid (S (fl_uuids s))) in
  let next := delta_layers cfg l ly dir (n + 1) in
  let m := batch_meta now n position segments dp pq op (FoldDelta (base_sequence next))
    (ms ++ [local_meta (written (fold_path cfg dir (n + 1) false) ly 0 (n + 1) (n + 1)) op]) in
  ready s n prev segments position pq data →
  maps from_json reader reopened data ly → cached_seq (dk_view d) = N.max (cached_seq (dk_view (fl_disk s))) (n + 1) →
  stored dp pq (disk_objects (fl_disk s)) O1 → stored op data O1 O2 →
  stored (snap_path (table_prefix cfg) (n + 1)) (snap_to_json m) O2 (disk_objects d) →
  stands (dk_view d) (mark_committed next op) (runs m) first lo (n + 1) (fun q => if q =? n + 1 then m else meta q).
Proof using snap_roundtrip ObjectStoreLaws0.
  intros Hs Hic Hcn position dp op next m [Bp Bd Br [Bz Bn] Bw Bf Bst] Hmap Hc S1 S2 S3.
  apply (in_catalog_extend snap_to_json snap_from_json snap_roundtrip from_json cfg reader reopened (dk_view (fl_disk s)) (dk_view d)
    l ms first lo n meta ly dir dp op pq data m O1 O2); try done;
    [by apply not_metadata|by apply not_metadata|apply object_paths_apart|rewrite Hc, Hcn; lia].
Qed.
End fail.

(** On a store that answers it goes through. *)
Section reliable.
Context {St : Type} `{!ObjectStore St, !ObjectStoreLaws St, !ReliableStore St, !EdgeSort}.
Context (snap_to_json : SnapshotMeta → bytes) (snap_from_json : bytes → option SnapshotMeta).
Context (snap_roundtrip : ∀ m, snap_from_json (snap_to_json m) = Some m).
Context (to_json : FileMetadata → bytes) (from_json : bytes → option FileMetadata).
Context (json_roundtrip : ∀ m, from_json (to_json m) = Some m).
Context (parquet : list (list Row) → option bytes) (uuid : nat → string).
Context (cfg : Config) (reader : ScanReader) (reopened : bool).

Lemma commit_batch_ok now (s : Flusher St) evs l snaps ms first lo n meta prev segments pq data dir :
  serving s evs l snaps → in_catalog snap_from_json from_json cfg reader reopened (dk_view (fl_disk s)) l ms first lo n meta →
  cached_seq (dk_view (fl_disk s)) = n → base_dir cfg = Some dir →
  let position := pos_merge (stream_position prev) (foldl (fun p sg => pos_merge p (sg_last sg)) pos_new segments) in
  batch_ready to_json parquet uuid cfg s n prev segments position pq data →
  ∃ s' ly m, commit_batch snap_to_json to_json from_json parquet uuid cfg reader reopened now (Some prev) (n + 1)
      segments s = (Ok tt, s') ∧
    let l' := next_layers cfg l ly dir (n + 1) (run_object_path (table_prefix cfg) (n + 1) (uuid (S (fl_uuids s)))) in
    serving s' evs l' (snaps ++ [collect (stream_memtable (tier (fl_forest s))).1]) ∧
    in_catalog snap_from_json from_json cfg reader reopened (dk_view (fl_disk s')) l' (runs m) first lo (n + 1)
      (fun q => if q =? n + 1 then m else meta q) ∧
    memtable_links (fl_forest s') = 0 ∧ fl_pending s' = fl_pending s ∧
    fl_buffer s' = (drop_committed (fl_buffer s) position).2 ∧ stream_position m ≡ position ∧ sm_stream m = cfg_stream cfg ∧
    fl_forest s' = publish (fl_forest s) (layered_routing (ll_base l')).
Proof using All.
  intros Hs Hic Hcn Hdir position Hbr.
  destruct (delta_run snap_to_json snap_from_json to_json from_json json_roundtrip parquet uuid cfg reader reopened now s evs l snaps
    ms first lo n meta prev segments pq data dir Hs Hic Hdir Hbr) as (ly & r & s' & Ec & Hr & Hmap & Is' & I' & Hstop).
  rewrite (Hr _) in *. inversion Hstop as [| |d O1 O2 Hf Hc S1 S2 S3 Er Es].
  eexists _, ly, _. split; [exact Ec|]. subst s'. intros l'.
  split; [by split|]. split; [by eapply delta_done|]. by split_and!; try apply batch_position.
Qed.
End reliable.
