(* ===== verification/FlushTable.v ===== *)
(** The table a leader commits to, as the catalog shows it: the stack its newest snapshot
    describes serves the events that are durable, and no object has a name still to come.
    What a tick and a sweep do to it. *)

From S2P Require Import Prelude Types Bytes Stream Decimal ObjectStore Catalog CatalogInv CatalogProps CatalogLatest Retention RetentionProps Buffer LocalRuns LocalRunsInv Flush FlushNames FlushInv FlushTick FlushBatch.
From S2P Require Import Graph Dsu RoutingBase Forest ForestInv Compaction CompactionInv FoldInv ForestProps Codec Puffin PuffinBase Layered Compact TierPolicy.
From S2P Require Import PuffinServe PuffinProps LayeredInv LayeredServe LayeredProps CompactInv CompactProps.

(** ** Object names *)

Lemma run_object_inj prefix q q' u u' : run_object_path prefix q u = run_object_path prefix q' u' → u = u'.
Proof.
  unfold run_object_path. intros E%app_inv_head. apply (f_equal (fun p : Path => nth 1 p "")) in E. cbn [nth] in E.
  apply (f_equal (strip_prefix "dsu-")) in E. rewrite !strip_prefix_app in E. apply (inj Some) in E.
  pose proof (f_equal before_dash E) as Eb. rewrite !before_dash_app in Eb by apply pad_zeros_no_dash. rewrite Eb in E.
  apply (f_equal (strip_prefix (pad_zeros 12 q'))) in E. rewrite !strip_prefix_app in E. apply (inj Some) in E.
  apply (f_equal (strip_prefix "-")) in E. rewrite !strip_prefix_app in E. apply (inj Some) in E. by apply append_inj_r in E.
Qed.

Lemma data_object_inj prefix q q' u u' : data_object_path prefix q u = data_object_path prefix q' u' → u = u'.
Proof.
  unfold data_object_path. intros E%app_inv_head. apply (f_equal (fun p : Path => nth 1 p "")) in E. cbn [nth] in E.
  apply (f_equal (strip_prefix "part-")) in E. rewrite !strip_prefix_app in E. apply (inj Some) in E.
  pose proof (f_equal before_dash E) as Eb. rewrite !before_dash_app in Eb by apply pad_zeros_no_dash. rewrite Eb in E.
  apply (f_equal (strip_prefix (pad_zeros 12 q'))) in E. rewrite !strip_prefix_app in E. apply (inj Some) in E.
  apply (f_equal (strip_prefix "-")) in E. rewrite !strip_prefix_app in E. apply (inj Some) in E. by apply append_inj_r in E.
Qed.

Section table.
Context {St : Type} `{!ObjectStore St}.
Context (snap_to_json : SnapshotMeta → bytes) (snap_from_json : bytes → option SnapshotMeta) (from_json : bytes → option FileMetadata) (uuid : nat → string).
Context (cfg : Config) (reader : ScanReader) (reopened : bool).

Abbreviation disk_objects d := (objects (cv_store (dk_view d))).
Abbreviation stands := (in_catalog snap_from_json from_json cfg reader reopened).

(** No object has the name of a UUID that is still to come. *)
Definition ids_fresh (objs : gmap Path Object) (k : nat) : Prop :=
  ∀ j q, (k <= j)%nat → objs !! run_object_path (table_prefix cfg) q (uuid j) = None ∧
    objs !! data_object_path (table_prefix cfg) q (uuid j) = None.

(** The catalog's newest snapshot [n] stands for [durable]. *)
Record held (v : CatalogView St) (uuids : nat) (durable : list EdgeEvent) (l : LocalLayers) (snaps : list ForestSnapshot)
    (ms : list RunMeta) (first lo n : N) (meta : N → SnapshotMeta) : Prop := {
  hd_stands : stands v l ms first lo n meta;
  hd_stack : stack_inv (ll_base l) snaps;
  hd_durable : absorbed (with_base (layered_routing (ll_base l))) durable;
  hd_ids : ids_fresh (objects (cv_store v)) uuids;
  hd_cached : cached_seq v = n;
  hd_metas : consistent snap_from_json (table_prefix cfg) (objects (cv_store v));
}.

(** One more snapshot, that names objects and no metadata. *)
Lemma consistent_commit objs objs' n m :
  consistent snap_from_json (table_prefix cfg) objs → n + 1 < u64_limit → sm_sequence m = n + 1 →
  (∀ p, mentions m p → ¬ metadata_dir (table_prefix cfg) `prefix_of` p) →
  (∀ q, metadata_dir (table_prefix cfg) `prefix_of` q → q ≠ snap_path (table_prefix cfg) (n + 1) → objs' !! q = objs !! q) →
  meta_at snap_from_json (table_prefix cfg) objs' (n + 1) = Some m → consistent snap_from_json (table_prefix cfg) objs'.
Proof using.
  intros [C1 C2] Hn Hq Hnm Ho Hm.
  assert (∀ s, s < u64_limit → s ≠ n + 1 → meta_at snap_from_json (table_prefix cfg) objs' s = meta_at snap_from_json (table_prefix cfg) objs s)
    as Hsame.
  { intros s Hs Hne. unfold meta_at. rewrite Ho; [done|apply snap_path_under|]. intros E%snap_path_inj; [by apply Hne|done|done]. }
  split; intros s m'; destruct (decide (s = n + 1)) as [->|Hne].
  - intros _. rewrite Hm. by intros [= <-].
  - intros Hs. rewrite Hsame by done. by apply C1.
  - intros p _. rewrite Hm. intros [= <-]. apply Hnm.
  - intros p Hs. rewrite Hsame by done. by apply C2.
Qed.

(** The runs of a stack that stands in the catalog are named by the newest snapshot. *)
Lemma stands_named v l ms first lo n meta p :
  stands v l ms first lo n meta → p ∈ run_path <$> ms → mentions (meta n) p.
Proof using.
  intros Hic Hp. apply mentions_paths. right; right. pose proof (ic_runs _ _ _ _ _ _ _ _ _ _ _ _ Hic) as E.
  apply (f_equal (fmap (fun k => k.1.1.1))) in E. rewrite <- !list_fmap_compose in E. 
  change (run_path <$> runs (meta n) = run_path <$> ms) in E. by rewrite E.
Qed.

Lemma stands_meta v l ms first lo n meta :
  stands v l ms first lo n meta → n < u64_limit ∧ meta_at snap_from_json (table_prefix cfg) (objects (cv_store v)) n = Some (meta n).
Proof using.
  intros Hic. pose proof (ic_dense _ _ _ _ _ _ _ _ _ _ _ _ Hic) as [(H1 & H2 & H3) _ Hp _]. split; [lia|].
  destruct (Hp n ltac:(lia)) as (o & Ho & Hj). unfold meta_at. by rewrite Ho.
Qed.

(** No run of such a stack is metadata. *)
Lemma stands_runs v l ms first lo n meta p :
  stands v l ms first lo n meta → consistent snap_from_json (table_prefix cfg) (objects (cv_store v)) → p ∈ run_path <$> ms →
  ¬ metadata_dir (table_prefix cfg) `prefix_of` p.
Proof using.
  intros Hic Hc Hp. destruct (stands_meta _ _ _ _ _ _ _ Hic) as [Hn Hm]. eapply cs_named; [exact Hc|exact Hn|exact Hm|].
  by eapply stands_named.
Qed.

(** ** New objects *)

(** The names of the objects a tick has written or is about to. *)
Definition taken_id (k : nat) (p : Path) : Prop :=
  ∃ j q, (j < k)%nat ∧ (p = run_object_path (table_prefix cfg) q (uuid j) ∨ p = data_object_path (table_prefix cfg) q (uuid j)).

Lemma taken_not_metadata k p : taken_id k p → ¬ metadata_dir (table_prefix cfg) `prefix_of` p.
Proof using. intros (j & q & _ & [-> | ->]); by apply not_metadata. Qed.

(** Objects have been added, under names that were free and UUIDs now spent. *)
Record grown (objs objs' : gmap Path Object) (k k' : nat) : Prop := {
  gr_uuids : (k <= k')%nat;
  gr_kept p : is_Some (objs !! p) → objs' !! p = objs !! p;
  gr_new p : objs' !! p = objs !! p ∨ taken_id k' p;
}.

Lemma grown_refl objs k k' : (k <= k')%nat → grown objs objs k k'.
Proof using. split; [done|done|by left]. Qed.

Lemma grown_trans o1 o2 o3 k1 k2 k3 : grown o1 o2 k1 k2 → grown o2 o3 k2 k3 → grown o1 o3 k1 k3.
Proof using.
  intros [U1 K1 N1] [U2 K2 N2]. split; [lia| |].
  - intros p Hp. rewrite K2; [by apply K1|]. by rewrite K1.
  - intros p. destruct (N2 p) as [->|H2]; [|by right]. destruct (N1 p) as [->|(j & q & Hj & H1)]; [by left|right].
    exists j, q. split; [lia|done].
Qed.

Lemma grown_metadata objs objs' k k' p :
  grown objs objs' k k' → metadata_dir (table_prefix cfg) `prefix_of` p → objs' !! p = objs !! p.
Proof using.
  intros [_ _ Hn] Hp. destruct (Hn p) as [E|E]; [done|]. by apply taken_not_metadata in E.
Qed.

Context (uuid_unique : ∀ i j, uuid i = uuid j → i = j).

Lemma taken_fresh objs objs' k k' : grown objs objs' k k' → ids_fresh objs k → ids_fresh objs' k'.
Proof using uuid_unique.
  intros [Hk _ Hn] Hf j q Hj. destruct (Hf j q ltac:(lia)) as [H1 H2].
  split; [destruct (Hn (run_object_path (table_prefix cfg) q (uuid j))) as [->|(i & q' & Hi & [E|E])]; [done|..]
    |destruct (Hn (data_object_path (table_prefix cfg) q (uuid j))) as [->|(i & q' & Hi & [E|E])]; [done|..]].
  - apply run_object_inj, uuid_unique in E. lia.
  - symmetry in E. by apply object_paths_apart in E.
  - by apply object_paths_apart in E.
  - apply data_object_inj, uuid_unique in E. lia.
Qed.

(** One object under a name whose UUID is fresh. *)
Lemma grown_stored objs objs' k k' p b :
  objs !! p = None → taken_id k' p → (k <= k')%nat → stored p b objs objs' → grown objs objs' k k'.
Proof using.
  intros Hp Ht Hk Hs. split; [done| |].
  - intros q Hq. apply (stored_other _ _ _ _ _ Hs). intros ->. rewrite Hp in Hq. by apply is_Some_None in Hq.
  - intros q. destruct (decide (q = p)) as [->|Hne]; [by right|left]. by apply (stored_other _ _ _ _ _ Hs).
Qed.

Lemma grown_maybe objs objs' k k' p b :
  objs !! p = None → taken_id k' p → (k <= k')%nat → objs' = objs ∨ stored p b objs objs' → grown objs objs' k k'.
Proof using. intros Hp Ht Hk [->|Hs]; [by apply grown_refl|by eapply grown_stored]. Qed.

Lemma consistent_grown objs objs' k k' :
  grown objs objs' k k' → consistent snap_from_json (table_prefix cfg) objs → consistent snap_from_json (table_prefix cfg) objs'.
Proof using.
  intros Hg [C1 C2]. assert (∀ s, meta_at snap_from_json (table_prefix cfg) objs' s = meta_at snap_from_json (table_prefix cfg) objs s) as E.
  { intros s. unfold meta_at. by rewrite (grown_metadata _ _ _ _ _ Hg (proj1 (snap_path_under _ _))). }
  split; intros s m; rewrite E; [apply C1|apply C2].
Qed.

Lemma stands_grown v v' l ms first lo n meta k k' :
  grown (objects (cv_store v)) (objects (cv_store v')) k k' → N.of_nat (size (objects (cv_store v'))) < u64_limit - 1 →
  cached_seq v' = cached_seq v → stands v l ms first lo n meta → stands v' l ms first lo n meta.
Proof using.
  intros Hg Hsz Hc [[D1 D2 D3 D4] I1 I2 I3 I4 I5 I6 I7]. split; try done; [split; try done|by rewrite Hc|].
  - intros s Hs. rewrite (grown_metadata _ _ _ _ _ Hg (proj1 (snap_path_under _ _))). by apply D3.
  - intros p o s Hp Hd. rewrite (grown_metadata _ _ _ _ _ Hg Hd) in Hp. by eapply D4.
  - eapply Forall2_impl; [exact I7|]. intros r ly Hr. eapply stored_run_keep; [exact Hr|]. intros q Hq. by apply (gr_kept _ _ _ _ Hg).
Qed.

Lemma held_grown v v' k k' durable l snaps ms first lo n meta :
  grown (objects (cv_store v)) (objects (cv_store v')) k k' → N.of_nat (size (objects (cv_store v'))) < u64_limit - 1 →
  cached_seq v' = cached_seq v → held v k durable l snaps ms first lo n meta → held v' k' durable l snaps ms first lo n meta.
Proof using uuid_unique.
  intros Hg Hsz Hc [H1 H2 H3 H4 H5 H6]. split; try done.
  - by eapply stands_grown.
  - by eapply taken_fresh.
  - congruence.
  - by eapply consistent_grown.
Qed.

(** The next snapshot has been committed, over objects that were written before it. *)
Lemma held_commit v v' k k' durable durable' l l' snaps snaps' ms ms' first lo n meta m O1 :
  held v k durable l snaps ms first lo n meta → grown (objects (cv_store v)) O1 k k' →
  stored (snap_path (table_prefix cfg) (n + 1)) (snap_to_json m) O1 (objects (cv_store v')) →
  stands v' l' ms' first lo (n + 1) (fun q => if q =? n + 1 then m else meta q) →
  stack_inv (ll_base l') snaps' → absorbed (with_base (layered_routing (ll_base l'))) durable' → cached_seq v' = n + 1 →
  (∀ p, mentions m p → taken_id k' p ∨ p ∈ run_path <$> ms) →
  held v' k' durable' l' snaps' ms' first lo (n + 1) (fun q => if q =? n + 1 then m else meta q).
Proof using uuid_unique.
  intros [H1 H2 H3 H4 H5 H6] Hg Hs Hst Hsi Hab Hc Hnm. destruct (stands_meta _ _ _ _ _ _ _ Hst) as [Hn Hm]. rewrite N.eqb_refl in Hm.
  assert (∀ q, q ≠ snap_path (table_prefix cfg) (n + 1) → objects (cv_store v') !! q = O1 !! q) as Ho by (intros q; by eapply stored_other).
  split; try done.
  - intros j q Hj. rewrite !Ho by (apply not_snap_path; by apply not_metadata). by eapply taken_fresh.
  - apply (consistent_commit O1 _ n m); try done; [by eapply consistent_grown| |intros p Hp|intros q _; apply Ho].
    + pose proof (ic_seq _ _ _ _ _ _ _ _ _ _ _ _ Hst) as E. cbv beta in E. by rewrite N.eqb_refl in E.
    + destruct (Hnm p Hp) as [Ht|Hp']; [by eapply taken_not_metadata|exact (stands_runs _ _ _ _ _ _ _ _ H1 H6 Hp')].
Qed.

(** The whole of the stack has been folded into one run, and the snapshot that says so
    committed. *)
Lemma stands_folded v v' l ms first lo n meta k k' O2 op data ly run m :
  (∀ m, snap_from_json (snap_to_json m) = Some m) →
  stands v l ms first lo n meta → n + 2 < u64_limit → N.of_nat (size (objects (cv_store v'))) < u64_limit - 1 →
  grown (objects (cv_store v)) O2 k k' → o_data <$> O2 !! op = Some data → taken_id k' op →
  stored (snap_path (table_prefix cfg) (n + 1)) (snap_to_json m) O2 (objects (cv_store v')) → cached_seq v' = n + 1 →
  maps from_json reader reopened data ly → sm_sequence m = n + 1 → lr_remote run = Some op → lr_min run = lo → lr_max run = n + 1 →
  runs m = [local_meta run op] →
  stands v' (mkLocalLayers (layered_new ly) [run]) (runs m) first lo (n + 1) (fun q => if q =? n + 1 then m else meta q).
Proof using.
  intros Hrt Hic Hn Hsz Hg Hop Hid Hs Hc Hmap Hm Hr H1 H2 Hrs. pose proof (ic_lo _ _ _ _ _ _ _ _ _ _ _ _ Hic) as Hlo.
  pose proof (ic_dense _ _ _ _ _ _ _ _ _ _ _ _ Hic) as Hd. destruct (ds_range _ _ _ _ _ _ Hd) as (R1 & R2 & R3).
  pose proof (stored_same _ _ _ _ Hs) as Hsn. apply fmap_Some in Hsn as (o & Ho & Hod).
  split; rewrite ?N.eqb_refl; try done.
  - apply (dense_extend snap_from_json (table_prefix cfg) v v' first n meta m o Hd Hn Hsz Ho); [by rewrite <- Hod|].
    intros q Hq Hne. rewrite (stored_other _ _ _ _ _ Hs Hne). exact (grown_metadata _ _ _ _ _ Hg Hq).
  - right. lia.
  - rewrite Hrs. cbn. by rewrite Hr.
  - rewrite Hrs. split; [repeat constructor; unfold forward; cbn; lia|repeat constructor|]. intros q. rewrite covered_cons.
    unfold in_span. cbn. rewrite H1, H2. split; [intros [Hq|(r & Hin%elem_of_nil & _)]; done|by left].
  - lia.
  - repeat constructor. exists op, data. split; [done|]. split; [|done]. rewrite (stored_other _ _ _ _ _ Hs); [done|].
    apply not_snap_path, (taken_not_metadata _ _ Hid).
Qed.

(** ** Sweeps *)

Lemma meta_at_taken D objs objs' q m :
  taken D objs objs' → meta_at snap_from_json (table_prefix cfg) objs' q = Some m →
  meta_at snap_from_json (table_prefix cfg) objs q = Some m.
Proof using.
  unfold meta_at. intros T. destruct (objs' !! _) as [o|] eqn:E; [|done]. by rewrite (taken_left _ _ _ _ _ T E).
Qed.

Context `{!ObjectStoreLaws St, !ReliableStore St}.

(** The newest snapshot of a table is listed last, and so kept by every policy. *)
Lemma newest_kept policy now_ms (v v1 : CatalogView St) all l ms first lo n meta :
  stands v l ms first lo n meta → list_snapshot_sequences (table_prefix cfg) v = (Ok all, v1) →
  n ∈ all ∧ keeps snap_from_json (table_prefix cfg) policy now_ms (objects (cv_store v)) all n.
Proof using ObjectStoreLaws0.
  intros Hic Hl. pose proof (ic_dense _ _ _ _ _ _ _ _ _ _ _ _ Hic) as [(R1 & R2 & R3) _ Hp Hnew].
  pose proof (list_sequences_sorted _ _ _ _ Hl) as Hsorted. apply list_sequences_ok in Hl as [_ Hall].
  destruct (Hp n ltac:(lia)) as (o & Ho & _).
  assert (n ∈ all) as Hin.
  { apply Hall. exists (snap_path (table_prefix cfg) n), o. split; [done|]. destruct (snap_path_under (table_prefix cfg) n).
    split; [done|]. split; [done|]. apply snap_path_last. lia. }
  split; [done|]. apply keeps_newest. apply (sorted_last_taken all n); [done|done| |lia].
  intros s (p & o' & Hp' & Hpre & _ & Hs)%Hall. by eapply Hnew.
Qed.

(** A sweep takes nothing the newest snapshot names. *)
Lemma held_swept policy now_ms v k durable l snaps ms first lo n meta r v' :
  held v k durable l snaps ms first lo n meta →
  Retention.collect snap_from_json (table_prefix cfg) policy now_ms v = (r, v') →
  held v' k durable l snaps ms n lo n meta.
Proof using ObjectStoreLaws0 ReliableStore0.
  intros [Hic His Hdu Hid Hcn Hcs] Hc.
  destruct (list_sequences_reliable (table_prefix cfg) v) as (all & v1 & Hl).
  destruct (newest_kept policy now_ms v v1 all l ms first lo n meta Hic Hl) as [Hin Hk].
  destruct (stands_meta _ _ _ _ _ _ _ Hic) as [Hn Hm].
  destruct (collect_run snap_from_json (table_prefix cfg) policy now_ms v v1 all Hcs Hl) as (r' & w & E & _ & T & _).
  rewrite Hc in E. injection E as <- <-.
  assert (∀ p, p = snap_path (table_prefix cfg) n ∨ mentions (meta n) p → objects (cv_store v') !! p = objects (cv_store v) !! p) as Hkeep.
  { intros p Hp. destruct (T p) as [->|(_ & o & _ & _ & Hun)]; [done|]. destruct (Hun n Hk) as [H1 H2].
    destruct Hp as [->|Hp]; [done|]. by destruct (H2 _ Hin Hm). }
  pose proof (caches_collect snap_from_json (table_prefix cfg) policy now_ms v) as Hc'. rewrite Hc, Hcn in Hc'. cbn [snd] in Hc'.
  pose proof Hic as [[(R1 & R2 & R3) Hz Hp Hnew] _ I1 I2 I3 I4 I5 I6]. split; try done.
  - split; try done; [split|right; lia|].
    + lia.
    + apply taken_size in T. lia.
    + intros q Hq. assert (q = n) as -> by lia. rewrite Hkeep by (by left). apply Hp. lia.
    + intros p o q Ho. apply (taken_left _ _ _ _ _ T) in Ho. by eapply Hnew.
    + apply remote_metas_describes in I1. apply (Forall2_impl_elem _ _ _ _ I6). intros run ly Hr (p & data & Hrem & Hd & Hmap).
      exists p, data. rewrite Hkeep; [done|]. right. eapply stands_named; [exact Hic|].
      apply list_elem_of_lookup_1 in Hr as [i Hi]. destruct (Forall2_lookup_l _ _ _ _ _ I1 Hi) as (m & Hm' & p' & Hp' & ->).
      apply list_elem_of_fmap. exists (local_meta run p'). split; [cbn; congruence|by eapply list_elem_of_lookup_2].
  - intros j q Hj. destruct (Hid j q Hj) as [H1 H2]. by split; eapply taken_gone.
  - destruct Hcs as [C1 C2]. split.
    + intros q m Hq Hm'. apply (C1 q m Hq). by eapply meta_at_taken.
    + intros q m p Hq Hm'. apply (C2 q m p Hq). by eapply meta_at_taken.
Qed.
End table.

(** ** Another client of the same objects *)

(** What is held is a matter of the objects, not of how requests for them fare. *)
Lemma held_same {St} (S1 S2 : ObjectStore St) snap_from_json from_json uuid cfg reader reopened v k durable l snaps ms first lo n meta :
  @objects St S1 = @objects St S2 →
  @held St S1 snap_from_json from_json uuid cfg reader reopened v k durable l snaps ms first lo n meta →
  @held St S2 snap_from_json from_json uuid cfg reader reopened v k durable l snaps ms first lo n meta.
Proof.
  destruct S1 as [o1 g1 h1 p1 c1 d1 l1]. cbn. intros ->. intros [[[]] ? ? ? ? ?].
  by repeat (split; try done).
Qed.
