(* ===== verification/FlushProps.v ===== *)
(** The flush loop's promises: a leader's tick publishes exactly what it serves, and a
    cold start from the catalog serves exactly that. *)

From S2P Require Import Prelude Types Bytes Stream Decimal ObjectStore Catalog CatalogInv CatalogProps CatalogLatest Buffer LocalRuns LocalRunsInv Flush FlushNames FlushInv FlushTick FlushBatch.
From S2P Require Import Graph Dsu RoutingBase Forest ForestInv Compaction CompactionInv FoldInv ForestProps Codec Puffin PuffinBase Layered Compact TierPolicy.
From S2P Require Import CodecProps PuffinServe PuffinProps LayeredInv LayeredServe LayeredProps.

(** ** A forest opened on a base *)

(** A forest that has just published a base answers as one opened on it. *)
Lemma with_base_absorbed f b evs : absorbed (publish f b) evs → absorbed (with_base b) evs.
Proof.
  intros [[H1 H2 H3 H4 H5] V]. unfold absorbed, forest_inv. split; [split|exact V].
  - exact H1.
  - intros x p. simpl. by rewrite lookup_empty.
  - exact H3.
  - exact H4.
  - exact H5.
Qed.

(** ** Cold start *)

Lemma tiles_small ms lo n : tiles ms lo n → n + 1 < u64_limit → Forall small_run ms.
Proof.
  intros [Hf _ Hc] Hn. rewrite Forall_forall in *. intros r Hr. specialize (Hf r Hr).
  assert (covered ms (max_sequence r)) as Hm%Hc by (exists r; split; [done|]; unfold in_span, forward in *; lia).
  unfold small_run. lia.
Qed.

Section cold.
Context {St : Type} `{!ObjectStore St, !ObjectStoreLaws St, !ReliableStore St}.
Context (from_json : bytes → option FileMetadata) (reader : ScanReader) (reopened : bool) (dir : string).

Abbreviation disk_objects d := (objects (cv_store (dk_view d))).

(** The object of a run, mapped, is [ly]; what the cache holds under the run's name, if
    anything, is that object. *)
Definition cached_ok (d : Disk St) (r : RunMeta) (ly : Layer) : Prop :=
  ∃ data, o_data <$> disk_objects d !! run_path r = Some data ∧ maps from_json reader reopened data ly ∧
    (dk_files d !! join_path dir (run_cache_name r) = None ∨ dk_files d !! join_path dir (run_cache_name r) = Some data).

Lemma fetch_run_ok d r ly :
  cached_ok d r ly →
  ∃ d', fetch_run from_json reader reopened dir r d = (Ok (committed r (join_path dir (run_cache_name r)) ly, ly), d') ∧
    disk_objects d' = disk_objects d ∧ cached_seq (dk_view d') = cached_seq (dk_view d) ∧
    ∀ p, p ≠ join_path dir (run_cache_name r) → dk_files d' !! p = dk_files d !! p.
Proof.
  intros (data & Ho & (b & Hb & ->) & Hf). unfold fetch_run. rewrite bind_unfold. cbn [gets].
  assert (∀ d1 : Disk St, dk_files d1 !! join_path dir (run_cache_name r) = Some data →
    map_file from_json reader reopened (join_path dir (run_cache_name r)) d1 =
    (Ok (pb_layer reader reopened data b), d1)) as Hmap.
  { intros d1 Hd1. unfold map_file. rewrite bind_unfold. cbn [gets]. rewrite Hd1. rewrite bind_unfold, Hb. done. }
  destruct Hf as [Hf|Hf]; rewrite Hf.
  - apply fmap_Some in Ho as (o & Ho & ->).
    pose proof (get_exact (run_path r) (cv_store (dk_view d))) as Hg. rewrite Ho in Hg.
    pose proof (get_same (run_path r) (cv_store (dk_view d))) as Hs.
    destruct (os_get (run_path r) (cv_store (dk_view d))) as [x st] eqn:E. cbn in Hg, Hs. subst x.
    set (d1 := mkDisk (mkView st (cached_seq (dk_view d))) (dk_files d)).
    exists (write_file (join_path dir (run_cache_name r)) (o_data o) d1). split_and!.
    + rewrite (bind_ok _ _ d tt (write_file (join_path dir (run_cache_name r)) (o_data o) d1)).
      2: { by rewrite (bind_ok _ _ d (o_data o) d1) by (by apply disk_store_ok). }
      rewrite (bind_ok _ _ _ _ _ (Hmap (write_file (join_path dir (run_cache_name r)) (o_data o) d1) (lookup_insert_eq _ _ _))). done.
    + exact Hs.
    + done.
    + intros p Hp. cbn. by rewrite lookup_insert_ne.
  - exists d. split; [|done]. rewrite (bind_ok _ _ d tt d) by done. by rewrite (bind_ok _ _ _ _ _ (Hmap _ Hf)).
Qed.

Lemma fetch_runs_ok rs lys : ∀ d,
  Forall2 (cached_ok d) rs lys → StronglySorted before rs → Forall forward rs → Forall small_run rs →
  ∃ d', fetch_runs from_json reader reopened dir rs d =
      (Ok (zip_with (fun r ly => (committed r (join_path dir (run_cache_name r)) ly, ly)) rs lys), d') ∧
    disk_objects d' = disk_objects d ∧ cached_seq (dk_view d') = cached_seq (dk_view d).
Proof.
  intros d Hf. revert d Hf. revert lys. induction rs as [|r rs IH]; intros lys d Hf Ho Hfw Hsm.
  { apply Forall2_nil_inv_l in Hf as ->. by exists d. }
  apply Forall2_cons_inv_l in Hf as (ly & lys' & Hr & Hf & ->).
  apply StronglySorted_inv in Ho as [Ho Hb]. apply Forall_cons in Hfw as [Hfr Hfw]. apply Forall_cons in Hsm as [Hsr Hsm].
  destruct (fetch_run_ok d r ly Hr) as (d1 & E1 & Ho1 & Hq1 & Hfiles).
  destruct (IH lys' d1) as (d2 & E2 & Ho2 & Hq2); try done.
  { eapply Forall2_impl_elem; [exact Hf|]. intros r' ly' Hr' (data & H1 & H2 & H3). exists data. rewrite Ho1.
    split; [done|]. split; [done|]. rewrite Hfiles; [done|]. intros E%join_path_inj%run_cache_name_inj.
    - rewrite Forall_forall in Hb. specialize (Hb r' Hr'). unfold before, forward in *. lia.
    - rewrite Forall_forall in Hsm, Hfw. specialize (Hsm r' Hr'). specialize (Hfw r' Hr'). unfold small_run, forward in *. lia.
    - unfold small_run, forward in *. lia. }
  exists d2. cbn [fetch_runs zip_with]. rewrite (bind_ok _ _ _ _ _ E1), (bind_ok _ _ _ _ _ E2). split; [done|split; congruence].
Qed.
End cold.

Section promises.
Context {St : Type} `{!ObjectStore St, !ObjectStoreLaws St, !ReliableStore St, !EdgeSort}.
Context (snap_to_json : SnapshotMeta → bytes) (snap_from_json : bytes → option SnapshotMeta).
Context (snap_roundtrip : ∀ m, snap_from_json (snap_to_json m) = Some m).
Context (to_json : FileMetadata → bytes) (from_json : bytes → option FileMetadata).
Context (json_roundtrip : ∀ m, from_json (to_json m) = Some m).
Context (parquet : list (list Row) → option bytes) (uuid : nat → string).
Context (cfg : Config) (parallelism : nat) (reader : ScanReader) (reopened : bool).

Abbreviation disk_objects d := (objects (cv_store (dk_view d))).
Abbreviation stands := (in_catalog snap_from_json from_json cfg reader reopened).

(** A directory whose cached files, where it has any of these runs, are the objects. *)
Definition cache_true (dir : string) (d : Disk St) (ms : list RunMeta) : Prop :=
  ∀ r b, r ∈ ms → dk_files d !! join_path dir (run_cache_name r) = Some b →
    o_data <$> disk_objects d !! run_path r = Some b.

Definition cache_paths (dir : string) (rs : list RunMeta) : list string := (fun r => join_path dir (run_cache_name r)) <$> rs.

(** What the catalog names, which differs from the stack's own metas in counts at most. *)
Lemma named_runs (v : CatalogView St) l ms first lo n meta dir d :
  stands v l ms first lo n meta →
  let rs := runs (meta n) in
  tiles rs lo n ∧ (cache_true dir d ms → cache_true dir d rs) ∧
  Forall2 (fun m ly => ∃ data, o_data <$> objects (cv_store v) !! run_path m = Some data ∧
    maps from_json reader reopened data ly) rs (layers (ll_base l)).
Proof.
  intros Hic rs. pose proof (stored_metas _ _ _ _ _ _ _ _ _ _ _ _ Hic) as Hst.
  destruct Hic as [_ _ _ Hrs _ Ht _ _]. symmetry in Hrs. split; [by eapply tiles_keys|].
  apply run_keys_forall2 in Hrs. fold rs in Hrs. split.
  - intros Hcache r b (i & Hi)%list_elem_of_lookup_1 Hb. destruct (Forall2_lookup_r _ _ _ _ _ Hrs Hi) as (r' & Hr' & [= E1 E2 E3 E4]).
    rewrite <- E1. apply (Hcache r' b); [by eapply list_elem_of_lookup_2|]. rewrite <- Hb. unfold run_cache_name. by rewrite E1, E3, E4.
  - revert Hst. generalize (layers (ll_base l)). clear -Hrs.
    induction Hrs as [|m m' ms rs [= E _ _ _] _ IH]; intros lys Hst; [done|].
    apply Forall2_cons_inv_l in Hst as (ly & lys' & Hly & Hst & ->). constructor; [by rewrite <- E|by apply IH].
Qed.

Lemma fetched_split (rs : list RunMeta) dir : ∀ lys, length rs = length lys →
  let xs := zip_with (fun r ly => (committed r (join_path dir (run_cache_name r)) ly, ly)) rs lys in
  xs.*2 = lys ∧ xs.*1 = committed_all rs (cache_paths dir rs) lys.
Proof.
  induction rs as [|r rs IH]; intros [|ly lys] Hl; try done. injection Hl as Hl. destruct (IH lys Hl) as [E1 E2]. cbn in *. by rewrite E1, E2.
Qed.

Lemma open_base_ok (v : CatalogView St) l ms first lo n meta dir d :
  stands v l ms first lo n meta → disk_objects d = objects (cv_store v) → cached_seq (dk_view d) = 0 →
  cache_true dir d ms →
  ∃ d', open_base_from_catalog snap_from_json from_json cfg reader reopened dir d =
      (Ok (Some (ll_base l, watermark (meta n),
        mkLocalLayers (ll_base l) (committed_all (runs (meta n)) (cache_paths dir (runs (meta n))) (layers (ll_base l))))), d') ∧
    disk_objects d' = disk_objects d ∧ cached_seq (dk_view d') = n.
Proof.
  intros Hic Ho Hc Hcache. destruct (named_runs _ _ _ _ _ _ _ dir d Hic) as (Ht & Hcache'%(fun f => f Hcache) & Hst).
  destruct Hic as [Hd _ _ _ Hseq _ Hlo _]. set (rs := runs (meta n)) in *.
  assert (dense snap_from_json (table_prefix cfg) (dk_view d) first n meta) as Hd'
    by (destruct Hd as [E1 E2 E3 E4]; split; rewrite ?Ho; done).
  destruct (latest_dense snap_from_json (table_prefix cfg) (dk_view d) first n meta Hd' ltac:(by left)) as (v' & Hlat & Hq & Hov).
  set (d1 := mkDisk v' (dk_files d)). destruct (ds_range _ _ _ _ _ _ Hd) as (R1 & R2 & R3).
  pose proof (tiles_small _ _ _ Ht R3) as Hsm.
  assert (Forall2 (cached_ok from_json reader reopened dir d1) rs (layers (ll_base l))) as Hco.
  { eapply Forall2_impl_elem; [exact Hst|]. intros r ly Hr (data & Hdata & Hmap). exists data.
    change (disk_objects d1) with (objects (cv_store v')). rewrite Hov, Ho. split; [done|]. split; [done|].
    change (dk_files d1) with (dk_files d). destruct (dk_files d !! _) as [b|] eqn:E; [right|by left].
    specialize (Hcache' r b Hr E). rewrite Ho, Hdata in Hcache'. by injection Hcache' as ->. }
  destruct (fetch_runs_ok from_json reader reopened dir rs (layers (ll_base l)) d1 Hco (tl_ordered _ _ _ Ht) (tl_forward _ _ _ Ht) Hsm)
    as (d2 & Hfetch & Ho2 & Hq2).
  destruct (fetched_split rs dir (layers (ll_base l)) (Forall2_length _ _ _ Hst)) as [Hx2 Hx1].
  set (xs := zip_with _ _ _) in Hfetch, Hx1, Hx2.
  exists d2. split; [|split; [rewrite Ho2; exact Hov|by rewrite Hq2]].
  unfold open_base_from_catalog. rewrite (bind_ok _ _ d (Some (meta n)) d1) by (by apply disk_catalog_ok).
  rewrite (bind_ok _ _ d1 rs d1).
  2: { unfold committed_runs. assert (run_set (meta n) = Ok (Runs rs)) as ->; [|done].
    apply run_set_tiled with lo; rewrite ?Hseq; done. }
  rewrite (bind_ok _ _ _ _ _ Hfetch). rewrite Hx2, Hx1. unfold from_layers.
  destruct (layers (ll_base l)) as [|ly lys] eqn:El.
  { apply Forall2_nil_inv_r in Hst. rewrite Hst in Ht. by apply tiles_nonempty in Ht. }
  rewrite <- El. by destruct (ll_base l).
Qed.

(** A cold start from the catalog serves the committed state. When the newest snapshot
    describes a stack whose runs are in the store, a worker that starts with a cold view
    and whatever true copies its directory still has maps exactly that stack, run for
    run with the same spans and levels, every run known to be committed, so that it can
    layer deltas on it at once. *)
Theorem cold_start_reproduces (v : CatalogView St) (l : LocalLayers) (ms : list RunMeta) (first lo n : N)
    (meta : N → SnapshotMeta) (dir : string) (d : Disk St) :
  stands v l ms first lo n meta → disk_objects d = objects (cv_store v) → cached_seq (dk_view d) = 0 →
  cache_true dir d ms →
  ∃ ll d', open_base_from_catalog snap_from_json from_json cfg reader reopened dir d =
      (Ok (Some (ll_base l, watermark (meta n), ll)), d') ∧ ll_base ll = ll_base l ∧ fully_committed ll = true ∧
    (fun r => (lr_remote r, lr_level r, lr_min r, lr_max r)) <$> ll_runs ll =
    (fun m => (Some (run_path m), run_level m, min_sequence m, max_sequence m)) <$> ms ∧
    disk_objects d' = disk_objects d.
Proof.
  intros H1 H2 H3 H4. destruct (open_base_ok _ _ _ _ _ _ _ dir _ H1 H2 H3 H4) as (d' & E & Ho & _).
  destruct (named_runs _ _ _ _ _ _ _ dir d H1) as (_ & _ & Hst%Forall2_length).
  destruct (committed_all_metas (runs (meta n)) (cache_paths dir (runs (meta n))) (layers (ll_base l))) as (ms' & Em & Ek);
    [by unfold cache_paths; rewrite length_fmap|done|].
  eexists _, d'. split; [exact E|]. split; [done|]. split; [by eapply remote_metas_committed|]. split; [|done].
  rewrite (ic_runs _ _ _ _ _ _ _ _ _ _ _ _ H1) in Ek. clear -Em Ek. apply remote_metas_describes in Em. cbn [ll_runs].
  revert ms Ek. induction Em as [|r m rs ms' (p & Hp & ->) _ IH]; intros [|m0 ms] Ek; try done.
  rewrite !fmap_cons in Ek. injection Ek as E1 E2 E3 E4 Ek.
  rewrite !fmap_cons. f_equal; [cbn in *; congruence|by apply IH].
Qed.

(** A leader's tick, and the stack it leaves in the catalog. *)
Lemma tick_publishes (s : Flusher St) evs l snaps ms first lo n meta pq data dir lost now :
  serving s evs l snaps → stands (dk_view (fl_disk s)) l ms first lo n meta → no_merge s →
  base_dir cfg = Some dir → inline_merges cfg = false → next_segments s (meta n) ≠ [] →
  batch_ready to_json parquet uuid cfg s n (meta n) (next_segments s (meta n)) (next_position s (meta n)) pq data →
  ∃ s' l' m, tick snap_to_json snap_from_json to_json from_json parquet uuid cfg parallelism reader reopened true lost now s =
      (Ok tt, s') ∧
    serving s' evs l' (snaps ++ [collect (stream_memtable (tier (fl_forest s))).1]) ∧
    stands (dk_view (fl_disk s')) l' (runs m) first lo (n + 1) (fun q => if q =? n + 1 then m else meta q) ∧ no_merge s' ∧
    memtable_links (fl_forest s') = 0 ∧ stream_position m ≡ next_position s (meta n) ∧ sm_stream m = cfg_stream cfg ∧
    fl_buffer s' = (drop_committed (next_buffer s (meta n)) (next_position s (meta n))).2 ∧
    absorbed (with_base (layered_routing (ll_base l'))) evs.
Proof.
  intros Hs Hic Hp Hdir Hin Hseg Hbr.
  destruct (tick_head snap_to_json snap_from_json to_json from_json parquet uuid cfg reader reopened parallelism lost now s evs l
    snaps ms first lo n meta Hs Hic Hp Hin Hseg) as (s1 & Htick & Hs1 & Hic1 & Hp1 & Hf1 & Hb1 & Hu1 & Ho1 & Hc1).
  destruct (commit_batch_ok snap_to_json snap_from_json snap_roundtrip to_json from_json json_roundtrip parquet uuid cfg reader
    reopened now s1 evs l snaps ms first lo n meta (meta n) (next_segments s (meta n)) pq data dir Hs1 Hic1 Hc1 Hdir)
    as (s' & ly & m & Hcb & Hs' & Hic' & Hlinks & Hpend & Hbuf & Hpos & Hstr & Hpub).
  { destruct Hbr as [B1 B2 B3 B4 B5 B6 B7]. split; rewrite ?Ho1, ?Hu1, ?Hf1; done. }
  rewrite Hf1 in Hs'. set (l' := next_layers _ _ _ _ _ _) in *.
  exists s', l', m. split; [by rewrite Htick|]. split; [done|]. split; [done|].
  split; [intros p; rewrite Hpend; apply Hp1|]. split; [done|]. split; [done|]. split; [done|].
  split; [by rewrite Hbuf, Hb1|]. destruct Hs' as [_ Ha _ _]. rewrite Hpub in Ha. by eapply with_base_absorbed.
Qed.

(** A leader's tick publishes what it serves. A leader whose stack is the newest
    snapshot's, with edges buffered and no finished merge waiting, ticks on a store that
    answers: the tick succeeds, commits sequence [n + 1], drains the memtable into the
    committed stack, answers every query as before and prunes what the commit covers; the
    worker stands to the catalog afterwards as it did before, so the theorem applies to
    the next tick. And any worker that then starts cold from the store, with an empty
    directory, answers every query of every scope exactly as the leader did before the
    tick. *)
Theorem tick_then_cold_start (s : Flusher St) (evs : list EdgeEvent) (l : LocalLayers) (snaps : list ForestSnapshot)
    (ms : list RunMeta) (first lo n : N) (meta : N → SnapshotMeta) (pq data : bytes) (dir : string) (lost : bool) (now : Z) :
  serving s evs l snaps → stands (dk_view (fl_disk s)) l ms first lo n meta → no_merge s →
  base_dir cfg = Some dir → inline_merges cfg = false → next_segments s (meta n) ≠ [] →
  batch_ready to_json parquet uuid cfg s n (meta n) (next_segments s (meta n)) (next_position s (meta n)) pq data →
  ∃ s' l' m, tick snap_to_json snap_from_json to_json from_json parquet uuid cfg parallelism reader reopened true lost now s =
      (Ok tt, s') ∧
    serving s' evs l' (snaps ++ [collect (stream_memtable (tier (fl_forest s))).1]) ∧
    stands (dk_view (fl_disk s')) l' (runs m) first lo (n + 1) (fun q => if q =? n + 1 then m else meta q) ∧ no_merge s' ∧
    memtable_links (fl_forest s') = 0 ∧ stream_position m ≡ next_position s (meta n) ∧
    fl_buffer s' = (drop_committed (next_buffer s (meta n)) (next_position s (meta n))).2 ∧
    (∀ sc x, (scope_root (fl_forest s') sc x).1 = (scope_root (fl_forest s) sc x).1) ∧
    ∀ dir' st, objects st = disk_objects (fl_disk s') →
      ∃ lb ll d', open_base_from_catalog snap_from_json from_json cfg reader reopened dir' (mkDisk (mkView st 0) ∅) =
          (Ok (Some (lb, watermark m, ll)), d') ∧
        ∀ sc x, (scope_root (with_base (layered_routing lb)) sc x).1 = (scope_root (fl_forest s) sc x).1.
Proof.
  intros Hs Hic Hp Hdir Hin Hseg Hbr.
  destruct (tick_publishes s evs l snaps ms first lo n meta pq data dir lost now Hs Hic Hp Hdir Hin Hseg Hbr)
    as (s' & l' & m & Ht & Hs' & Hic' & Hn & Hl & Hpos & _ & Hbuf & Ha).
  assert (∀ sc x, (scope_root (fl_forest s') sc x).1 = (scope_root (fl_forest s) sc x).1) as Hroots.
  { intros sc x. eapply absorbed_root_eq; [apply Hs'|apply Hs|done]. }
  exists s', l', m. do 8 (split; [done|]). intros dir' st Hst.
  destruct (open_base_ok _ l' (runs m) first lo (n + 1) _ dir' (mkDisk (mkView st 0) ∅) Hic' Hst eq_refl) as (d' & Hopen & _).
  { intros r b _. cbn. by rewrite lookup_empty. }
  eexists (ll_base l'), _, d'. rewrite Hopen, N.eqb_refl. split; [done|]. intros sc x.
  eapply absorbed_root_eq; [exact Ha|apply Hs|done].
Qed.
End promises.

(** ** At work: a leader with one committed run and one more edge *)

Definition demo_cfg : Config := mkConfig ["t"] "w" None (Some "d") 1000 24 10 demo_opts false.

Definition demo_object : Path := ["t"; "puffin"; "r1"].

Definition demo_run_local : LocalRun := mkLocal "d/r1" (Some demo_object) 0 1 1 9 9.

Definition demo_led : LocalLayers := mkLocalLayers demo_stack [demo_run_local].

Definition committed_in (stream : option StreamId) : SnapshotMeta :=
  mkSnapshot 1 0 3 (single 3) stream [] demo_object "w" 1 0 [local_meta demo_run_local demo_object] 1.

Definition store_in (stream : option StreamId) : Memory :=
  mkMemory (<[snap_path ["t"] 1 := mkObject (demo_snap_to_json (committed_in stream)) 5]>
    (<[demo_object := mkObject demo_run 5]> ∅)) 6.

Definition demo_committed : SnapshotMeta := committed_in None.

Definition demo_store : Memory := store_in None.

Definition demo_worker : Flusher Memory :=
  mkFlusher demo_next (append buffer_new 0 4 (ev 1 0 Global)) (mkDisk (mkView demo_store 1) ∅) (Some demo_led) None 0.

Definition demo_parquet (rows : list (list Row)) : option bytes := Some [N.of_nat (length rows)].

Definition demo_uuid (n : nat) : string := pad_zeros 4 (N.of_nat n).

Lemma demo_layer_maps : maps demo_from_json Buffered true demo_run demo_layer.
Proof.
  destruct (full_map_run demo_to_json demo_from_json demo_json demo_state demo_events 3 demo_opts ∅ Buffered true demo_run
    demo_absorbed demo_run_written demo_run_fits) as (l & El & _).
  assert (demo_layer = l) as -> by (unfold demo_layer; by rewrite El). by apply map_run_maps in El as [_ Hm].
Qed.

Lemma stands_in stream cached :
  cached = 0 ∨ cached = 1 →
  in_catalog demo_snap_from_json demo_from_json demo_cfg Buffered true (mkView (store_in stream) cached) demo_led
    [local_meta demo_run_local demo_object] 1 1 1 (fun _ => committed_in stream).
Proof.
  intros Hc. assert (demo_object ≠ snap_path ["t"] 1) as Hne by (by vm_compute). split; try done.
  - split; [by vm_compute|by vm_compute| |].
    + intros s Hs. assert (s = 1) as -> by lia. eexists. split; [apply lookup_insert_eq|]. apply demo_snap_roundtrip.
    + intros p o s Hp Hpre Hs. unfold store_in in Hp. cbn [cv_store objects memory_store mem_objects] in Hp.
      apply lookup_insert_Some in Hp as [[<- _]|[_ Hp]]; [rewrite snap_path_last in Hs by done; by injection Hs as <-|].
      apply lookup_insert_Some in Hp as [[<- _]|[_ Hp]]; [|by rewrite lookup_empty in Hp].
      exfalso. revert Hpre. by apply (not_metadata ["t"] "puffin" "r1").
  - cbn. lia.
  - apply (adjacent_tiles [] (local_meta demo_run_local demo_object) (local_meta demo_run_local demo_object));
      [repeat constructor; by vm_compute|repeat constructor; by vm_compute|done|done].
  - repeat constructor. exists demo_object, demo_run. split; [done|]. split; [|apply demo_layer_maps].
    unfold store_in. cbn [cv_store objects memory_store mem_objects]. rewrite lookup_insert_ne by done.
    by rewrite lookup_insert_eq.
Qed.

Lemma demo_stands cached :
  cached = 0 ∨ cached = 1 →
  in_catalog demo_snap_from_json demo_from_json demo_cfg Buffered true (mkView demo_store cached) demo_led
    [local_meta demo_run_local demo_object] 1 1 1 (fun _ => demo_committed).
Proof. apply (stands_in None). Qed.

Lemma cold_start_reproduces_witness :
  ∃ ll d', open_base_from_catalog demo_snap_from_json demo_from_json demo_cfg Buffered true "e" (mkDisk (mkView demo_store 0) ∅) =
      (Ok (Some (demo_stack, 3, ll)), d') ∧ fully_committed ll = true.
Proof.
  destruct (cold_start_reproduces demo_snap_from_json demo_from_json demo_cfg Buffered true (mkView demo_store 1) demo_led
    [local_meta demo_run_local demo_object] 1 1 1 (fun _ => demo_committed) "e" (mkDisk (mkView demo_store 0) ∅)
    (demo_stands 1 (or_intror eq_refl)) eq_refl eq_refl) as (ll & d' & Hopen & _ & Hf & _).
  { intros r b _. cbn. by rewrite lookup_empty. }
  exists ll, d'. exact (conj Hopen Hf).
Defined.

(** What the demonstration's next batch is. *)
Definition demo_file : bytes :=
  match puffin_write demo_to_json (bw_finish (foldl bw_push (bw_new 2 demo_opts) (stream_memtable (tier demo_next)).1))
    (puffin_metadata (@next_position Memory merge_edge_sort demo_worker demo_committed)) with
  | Ok d => d | Err _ => [] end.

Lemma demo_file_written :
  puffin_write demo_to_json (bw_finish (foldl bw_push (bw_new 2 demo_opts) (stream_memtable (tier demo_next)).1))
    (puffin_metadata (@next_position Memory merge_edge_sort demo_worker demo_committed)) = Ok demo_file.
Proof.
  unfold demo_file. destruct (puffin_write _ _ _) as [d|e] eqn:E; [done|].
  assert (is_ok (puffin_write demo_to_json (bw_finish (foldl bw_push (bw_new 2 demo_opts) (stream_memtable (tier demo_next)).1))
    (puffin_metadata (@next_position Memory merge_edge_sort demo_worker demo_committed))) = true) as H by (by vm_compute).
  by rewrite E in H.
Qed.

Lemma demo_file_fits : delta_fits demo_next demo_file.
Proof. destruct demo_delta_fits as [H1 H2 _]. split; [done|done|by vm_compute]. Qed.

Lemma tick_then_cold_start_witness :
  let out := @tick Memory memory_store merge_edge_sort demo_snap_to_json demo_snap_from_json demo_to_json demo_from_json
    demo_parquet demo_uuid demo_cfg 1 Buffered true true false 7 demo_worker in
  out.1 = Ok tt ∧ memtable_links (fl_forest out.2) = 0 ∧
  ∃ lb w ll d', open_base_from_catalog demo_snap_from_json demo_from_json demo_cfg Buffered true "e"
      (mkDisk (mkView (cv_store (dk_view (fl_disk out.2))) 0) ∅) = (Ok (Some (lb, w, ll)), d') ∧
    ∀ sc x, (scope_root (with_base (layered_routing lb)) sc x).1 = (scope_root demo_next sc x).1.
Proof.
  intros out. destruct demo_stack_spec as [Is Ia].
  assert (serving demo_worker (demo_events ++ [ev 1 0 Global]) demo_led [(snapshot demo_state).1]) as Hs
    by (split; [exact eq_refl|exact Ia|exact eq_refl|exact Is]).
  assert (no_merge demo_worker) as Hn by (intros p Hp; discriminate Hp).
  assert (@next_segments Memory merge_edge_sort demo_worker demo_committed ≠ []) as Hseg
    by (assert (length (@next_segments Memory merge_edge_sort demo_worker demo_committed) = 1%nat) as Hl by (by vm_compute);
        intros E; rewrite E in Hl; discriminate Hl).
  assert (batch_ready demo_to_json demo_parquet demo_uuid demo_cfg demo_worker 1 demo_committed
    (@next_segments Memory merge_edge_sort demo_worker demo_committed)
    (@next_position Memory merge_edge_sort demo_worker demo_committed) [1] demo_file) as Hbr.
  { split; [by vm_compute|by vm_compute|by vm_compute|by vm_compute|exact demo_file_written|exact demo_file_fits|].
    intros a b Ha. discriminate Ha. }
  destruct (@tick_then_cold_start Memory memory_store memory_laws memory_reliable merge_edge_sort demo_snap_to_json
    demo_snap_from_json demo_snap_roundtrip demo_to_json demo_from_json demo_json demo_parquet demo_uuid demo_cfg 1 Buffered true
    demo_worker _ demo_led _ _ 1 1 1 (fun _ => demo_committed) [1] demo_file "d" false 7
    Hs (demo_stands 1 (or_intror eq_refl)) Hn eq_refl eq_refl Hseg Hbr)
    as (s' & l' & m & Ht & _ & _ & _ & Hl & _ & _ & _ & Hcold).
  unfold out. rewrite Ht. split; [exact eq_refl|]. split; [exact Hl|].
  destruct (Hcold "e" (cv_store (dk_view (fl_disk s'))) eq_refl) as (lb & ll & d' & Hopen & Hroots).
  exists lb, (watermark m), ll, d'. exact (conj Hopen Hroots).
Defined.
