(* ===== verification/FlushMerge.v ===== *)
(** Background merges: a merge is planned on a window of the stack, runs while the leader
    goes on folding, and is adopted where its window is by then. *)

From S2P Require Import Prelude Types Bytes Stream Decimal ObjectStore Catalog CatalogInv CatalogProps CatalogLatest Buffer LocalRuns LocalRunsInv Flush FlushNames FlushInv FlushTick FlushBatch FlushProps.
From S2P Require Import Graph Dsu RoutingBase Forest ForestInv Compaction CompactionInv FoldInv ForestProps Codec Puffin PuffinBase Layered Compact TierPolicy.
From S2P Require Import PuffinServe PuffinProps LayeredInv LayeredServe LayeredProps CompactInv CompactProps.

(** ** Windows *)

Definition window {A} (a b : nat) (l : list A) : list A := take (b - a) (drop a l).

Lemma window_length {A} (a b : nat) (l : list A) : (b <= length l)%nat → length (window a b l) = (b - a)%nat.
Proof. intros Hb. unfold window. rewrite length_take, length_drop. lia. Qed.

Lemma window_app {A} (a b : nat) (l k : list A) : (b <= length l)%nat → window a b (l ++ k) = window a b l.
Proof.
  intros Hb. unfold window. destruct (decide (a <= b)%nat).
  - rewrite drop_app_le by lia. rewrite take_app_le; [done|]. rewrite length_drop. lia.
  - by replace (b - a)%nat with 0%nat by lia.
Qed.

Lemma fmap_window {A B} (f : A → B) a b l : f <$> window a b l = window a b (f <$> l).
Proof. unfold window. by rewrite fmap_take, fmap_drop. Qed.

(** In a stack whose files have different names, a window is found where it is. *)
Lemma window_at_unique rs : ∀ inputs a at_,
  NoDup (lr_path <$> rs) → inputs ≠ [] → lr_path <$> take (length inputs) (drop a rs) = inputs →
  (a + length inputs <= length rs)%nat → window_at rs inputs at_ = Some (at_ + a)%nat.
Proof.
  induction rs as [|r rs IH]; intros inputs a at_ Hnd Hne Hw Hl.
  { destruct inputs; [done|]. cbn in Hl. lia. }
  cbn [window_at]. destruct (Nat.ltb_spec (length (r :: rs)) (length inputs)); [lia|].
  destruct a as [|a]; [rewrite drop_0 in Hw; rewrite bool_decide_eq_true_2 by done; f_equal; lia|].
  rewrite fmap_cons in Hnd. apply NoDup_cons in Hnd as [Hn Hnd]. rewrite bool_decide_eq_false_2.
  2: { intros E. apply Hn. destruct inputs as [|p inputs]; [done|]. injection E as -> _. cbn [drop] in Hw.
    destruct (drop a rs) as [|r' rs'] eqn:Ed; [done|]. injection Hw as <- _.
    apply list_elem_of_fmap_2, (list_elem_of_lookup_2 _ a). rewrite <- (Nat.add_0_r a), <- lookup_drop, Ed. done. }
  cbn [drop] in Hw. rewrite (IH inputs a (S at_)) by (done || cbn in Hl; lia). f_equal. lia.
Qed.

Lemma locate_window rs a b :
  NoDup (lr_path <$> rs) → (a < b <= length rs)%nat → locate_run_window rs (lr_path <$> window a b rs) = Some (a, b).
Proof.
  intros Hnd Hab. unfold locate_run_window.
  assert (length (lr_path <$> window a b rs) = (b - a)%nat) as Hl by (rewrite length_fmap; apply window_length; lia).
  assert (lr_path <$> window a b rs ≠ []) as Hne by (intros E; rewrite E in Hl; cbn in Hl; lia).
  rewrite bool_decide_eq_false_2 by done. rewrite Hl. destruct (Nat.ltb_spec (length rs) (b - a)); [lia|]. cbn [orb].
  rewrite (window_at_unique rs _ a 0); [|done|done|by rewrite Hl|rewrite Hl; lia]. cbn. do 2 f_equal. lia.
Qed.

Lemma alter_paths (f : RunMeta → RunMeta) (i : nat) (ms : list RunMeta) :
  (∀ m, run_path (f m) = run_path m) → run_path <$> alter f i ms = run_path <$> ms.
Proof.
  intros Hf. revert i. induction ms as [|m ms IH]; intros [|i]; [done|done|cbn; by rewrite Hf|]. cbn. f_equal. apply IH.
Qed.

(** The objects a spliced run set names. *)
Lemma splice_paths rs ms a b merged sequence out :
  remote_metas rs = Some ms → splice_run_set rs a b merged sequence = Some out →
  run_path <$> out = (run_path <$> take a ms) ++ [run_path merged] ++ (run_path <$> drop b ms).
Proof.
  intros Hm. unfold splice_run_set. rewrite (remote_metas_take _ _ _ Hm), (remote_metas_drop _ _ _ Hm). cbn [mbind option_bind].
  intros [= <-]. rewrite alter_paths by done. by rewrite !fmap_app.
Qed.

Lemma remove_all_view {St} rs : ∀ d : Disk St, dk_view (foldl (fun d r => remove_file (lr_path r) d) d rs) = dk_view d.
Proof. induction rs as [|r rs IH]; intros d; [done|]. cbn [foldl]. by rewrite IH. Qed.

Section merge.
Context {St : Type} `{!ObjectStore St, !ObjectStoreLaws St, !CleanStore St, !EdgeSort}.
Context (snap_to_json : SnapshotMeta → bytes) (snap_from_json : bytes → option SnapshotMeta).
Context (snap_roundtrip : ∀ m, snap_from_json (snap_to_json m) = Some m).
Context (to_json : FileMetadata → bytes) (from_json : bytes → option FileMetadata).
Context (json_roundtrip : ∀ m, from_json (to_json m) = Some m).
Context (uuid : nat → string) (cfg : Config) (parallelism : nat) (reader : ScanReader) (reopened : bool).

Abbreviation disk_objects d := (objects (cv_store (dk_view d))).
Abbreviation stands := (in_catalog snap_from_json from_json cfg reader reopened).
Abbreviation merged_by := (merge_task to_json cfg parallelism).

(** A merge that was planned on a window of the stack, which is still there. *)
Record planned (l : LocalLayers) (p : PendingMerge) (a b : nat) : Prop := {
  pn_range : (a < b <= length (ll_runs l))%nat;
  pn_inputs : pm_inputs p = lr_path <$> window a b (ll_runs l);
  pn_slice : slice (ll_base l) a b = Ok (pm_stack p);
  pn_span : pm_span p =
    (from_option lr_min 0 (head (window a b (ll_runs l))), from_option lr_max 0 (last (window a b (ll_runs l))));
}.

(** A merge that has ended well has written its file. *)
Definition landed (d : Disk St) (p : PendingMerge) : Prop :=
  ∀ res, pm_finished p = Some (Ok res) → merged_by p = Ok res ∧ dk_files d !! pm_path p = Some (mr_bytes res).

(** What a merge takes of the format's widths. *)
Definition merge_small (p : PendingMerge) : Prop :=
  ∀ res, pm_finished p = Some (Ok res) → merge_fits (pm_stack p) ∧ N.of_nat (length (mr_bytes res)) <= 2 ^ 38.

Lemma merge_task_written p res :
  merged_by p = Ok res →
  puffin_write to_json (compact_layers parallelism (pm_stack p) (pm_sequence p) (write cfg)).1 (pm_props p) = Ok (mr_bytes res).
Proof using.
  unfold merge_task. destruct (compact_layers _ _ _ _) as [blobs cstats]. cbn [fst].
  destruct (puffin_write _ _ _); [|done]. by intros [= <-].
Qed.

(** The catalog after the merged run and the snapshot that names it have been written. *)
Lemma in_catalog_merged (v v' : CatalogView St) l ms first lo n meta a b object data M lb rs paths m O1 :
  stands v l ms first lo n meta → n + 2 < u64_limit → N.of_nat (size (objects (cv_store v))) + 2 < u64_limit - 1 →
  ¬ metadata_dir (table_prefix cfg) `prefix_of` object → objects (cv_store v) !! object = None →
  stored object data (objects (cv_store v)) O1 →
  stored (snap_path (table_prefix cfg) (n + 1)) (snap_to_json m) O1 (objects (cv_store v')) → cached_seq v' = n + 1 →
  maps from_json reader reopened data M → layers lb = take a (layers (ll_base l)) ++ [M] ++ drop b (layers (ll_base l)) →
  tiles rs lo (n + 1) → run_path <$> rs = (run_path <$> take a ms) ++ [object] ++ (run_path <$> drop b ms) →
  length rs = length paths → sm_sequence m = n + 1 → runs m = rs →
  ∃ ms', stands v' (mkLocalLayers lb (committed_all rs paths (layers lb))) ms' first lo (n + 1)
    (fun q => if q =? n + 1 then m else meta q).
Proof using All.
  intros Hic Hn Hsz Hno Hfo S1 S2 Hcv Hmap El Ht Hpaths Hlen Hsm Hruns.
  pose proof (stored_metas _ _ _ _ _ _ _ _ _ _ _ _ Hic) as Hst. destruct Hic as [Hd _ _ _ _ _ Hlo _].
  assert (∀ q, q ≠ object → q ≠ snap_path (table_prefix cfg) (n + 1) →
    objects (cv_store v') !! q = objects (cv_store v) !! q) as Hother.
  { intros q Hq1 Hq2. by rewrite (stored_other _ _ _ _ q S2), (stored_other _ _ _ _ q S1). }
  pose proof (stored_same _ _ _ _ S2) as Hsnap. apply fmap_Some in Hsnap as (o & Ho & Hod).
  pose proof (stored_size _ _ _ _ S1) as Z1. pose proof (stored_size _ _ _ _ S2) as Z2.
  assert (¬ is_Some (objects (cv_store v) !! snap_path (table_prefix cfg) (n + 1))) as Hnext by (by eapply dense_next).
  set (P := fun p ly => ∃ data, o_data <$> objects (cv_store v') !! p = Some data ∧ maps from_json reader reopened data ly).
  assert (Forall2 P (run_path <$> ms) (layers (ll_base l))) as HP.
  { apply Forall2_fmap_l. eapply Forall2_impl; [exact Hst|]. intros r ly (dt & Hdt & Hm). exists dt. split; [|done].
    rewrite Hother; [done| |]; intros E; rewrite E in Hdt; [by rewrite Hfo in Hdt|]. apply Hnext.
    apply fmap_Some in Hdt as (o' & -> & _). by exists o'. }
  assert (Forall2 P (run_path <$> rs) (layers lb)) as HR.
  { rewrite Hpaths, El. rewrite fmap_take, fmap_drop. apply Forall2_app; [by apply Forall2_take|].
    apply Forall2_app; [|by apply Forall2_drop]. repeat constructor. exists data. split; [|done].
    rewrite (stored_other _ _ _ _ object S2) by (by apply not_snap_path). by eapply stored_same. }
  apply Forall2_fmap_l in HR. pose proof (Forall2_length _ _ _ HR) as Hll.
  destruct (committed_all_metas rs paths (layers lb) Hlen Hll) as (ms' & Em & Ek).
  exists ms'. split; rewrite ?N.eqb_refl; try done.
  - apply (dense_extend snap_from_json (table_prefix cfg) v v' first n meta m o Hd Hn); [lia|done|by rewrite <- Hod|].
    intros q Hq Hqn. apply Hother; [by intros ->|done].
  - right. destruct (ds_range _ _ _ _ _ _ Hd) as (R1 & R2 & R3). lia.
  - by rewrite Hruns, Ek.
  - by eapply tiles_keys.
  - lia.
  - by apply stored_committed.
Qed.

(** What the catalog is told of a merge: the run that takes the window's place. *)
Definition merged_meta (p : PendingMerge) (res : MergeResult) (object : Path) : RunMeta :=
  mkRun object (pm_level p) (pm_span p).1 (pm_span p).2
    (st_shared_pairs (mr_cstats res) + st_overlay_pairs (mr_cstats res)) (N.of_nat (length (mr_bytes res))).

Lemma planned_spliced (v : CatalogView St) l ms first lo n meta p res a b object :
  stands v l ms first lo n meta → planned l p a b →
  ∃ rs, splice_run_set (ll_runs l) a b (merged_meta p res object) (n + 1) = Some rs ∧ tiles rs lo (n + 1) ∧
    run_path <$> rs = (run_path <$> take a ms) ++ [object] ++ (run_path <$> drop b ms) ∧
    length rs = (a + 1 + (length (ll_runs l) - b))%nat.
Proof using.
  clear uuid. intros Hic [Rg _ _ Rsp]. pose proof Hic as [_ _ Hm _ _ Ht Hlo _].
  destruct (splice_run_set_ok (ll_runs l) ms a b object (pm_level p)
    (st_shared_pairs (mr_cstats res) + st_overlay_pairs (mr_cstats res)) (N.of_nat (length (mr_bytes res))) lo n (n + 1)
    Hm Ht Hlo ltac:(lia) Rg) as (rs & Ers & Htiles & Hrl).
  assert (splice_run_set (ll_runs l) a b (merged_meta p res object) (n + 1) = Some rs) as Esr.
  { rewrite <- Ers. unfold merged_meta. rewrite Rsp. done. }
  exists rs. split; [done|]. split; [done|]. split; [by rewrite (splice_paths _ _ _ _ _ _ _ Hm Esr)|].
  rewrite Hrl. lia.
Qed.

(** The requests of an adoption: the put of the object and the commit. *)
Lemma adopt_requests now position (s : Flusher St) l n p res a b rs pb lb :
  let object := run_object_path (table_prefix cfg) (n + 1) (uuid (fl_uuids s)) in
  let m := merge_snapshot cfg now (n + 1) position object rs in
  let paths := (lr_path <$> take a (ll_runs l)) ++ [pm_path p] ++ (lr_path <$> drop b (ll_runs l)) in
  fl_layers s = Some l → fully_committed l = true → fl_pending s = Some p → pm_finished p = Some (Ok res) →
  locate_run_window (ll_runs l) (pm_inputs p) = Some (a, b) →
  splice_run_set (ll_runs l) a b (merged_meta p res object) (n + 1) = Some rs →
  dk_files (fl_disk s) !! pm_path p = Some (mr_bytes res) → puffin_open from_json (mr_bytes res) = Ok pb →
  spliced (ll_base l) a b (pb_layer reader reopened (mr_bytes res) pb) = Ok lb →
  disk_objects (fl_disk s) !! snap_path (table_prefix cfg) (n + 1) = None →
  (∃ e d, adopt_merge snap_to_json from_json uuid cfg reader reopened now (n + 1) position s =
      (Err e, set_disk d (set_uuids (S (fl_uuids s)) (set_pending None s))) ∧ (ReliableStore St → False) ∧
    dk_files d = dk_files (fl_disk s) ∧ cached_seq (dk_view d) = cached_seq (dk_view (fl_disk s)) ∧
    (disk_objects d = disk_objects (fl_disk s) ∨ stored object (mr_bytes res) (disk_objects (fl_disk s)) (disk_objects d))) ∨
  ∃ d O1, adopt_merge snap_to_json from_json uuid cfg reader reopened now (n + 1) position s =
      (Ok true, set_disk d (set_layers (Some (mkLocalLayers lb (committed_all rs paths (layers lb))))
        (set_forest (swap_base (fl_forest s) (layered_routing lb)) (set_uuids (S (fl_uuids s)) (set_pending None s))))) ∧
    stored object (mr_bytes res) (disk_objects (fl_disk s)) O1 ∧
    stored (snap_path (table_prefix cfg) (n + 1)) (snap_to_json m) O1 (disk_objects d) ∧
    cached_seq (dk_view d) = N.max (cached_seq (dk_view (fl_disk s))) (n + 1).
Proof using ObjectStoreLaws0 CleanStore0.
  intros object m paths Hl Hfc Hpe Hfi Hloc Esr Hfile Epb Esp Habs. set (k := fl_uuids s) in *. set (s1 := set_uuids (S k) (set_pending None s)).
  destruct (put_disk_run object (mr_bytes res) s1) as (r1 & d1 & P1 & F1 & C1 & S1 & R1). cbn in S1, C1, F1.
  unfold adopt_merge. rewrite bind_unfold. cbn [gets]. rewrite Hpe, Hfi. rewrite bind_unfold. cbn [modify].
  rewrite bind_unfold. cbn [gets]. change (fl_layers (set_pending None s)) with (fl_layers s). rewrite Hl.
  rewrite Hloc, Hfc. cbn [negb]. rewrite (bind_ok _ _ _ (uuid k) s1) by done. fold object.
  destruct r1 as [[]|e1].
  2: { left. rewrite (bind_err _ _ _ _ _ P1). eexists _, _. split; [done|]. split; [intros HR; by specialize (R1 HR)|]. by split. }
  rewrite (bind_ok _ _ _ _ _ P1). fold (merged_meta p res object). rewrite Esr. fold m.
  destruct (commit_disk_run snap_to_json (table_prefix cfg) m (set_disk d1 s1)) as (r2 & d2 & P2 & F2 & S2 & R2).
  { cbn. rewrite (stored_other _ _ _ _ _ S1); [exact Habs|]. symmetry. by apply not_snap_path, not_metadata. }
  cbn in F2, S2. destruct r2 as [c|e2].
  2: { left. destruct S2 as [S2 C2]. rewrite (bind_err _ _ _ _ _ P2). eexists _, d2. split; [done|].
    split; [intros HR; by specialize (R2 HR)|]. split; [congruence|]. split; [congruence|]. right. by rewrite S2. }
  destruct S2 as (-> & S2 & C2). right. rewrite (bind_ok _ _ _ _ _ P2). rewrite bool_decide_eq_false_2 by done.
  exists (foldl (fun d r => remove_file (lr_path r) d) d2 (take (b - a) (drop a (ll_runs l)))), (disk_objects d1).
  rewrite remove_all_view. split; [|split; [done|split; [done|by rewrite C2, C1]]].
  rewrite (bind_ok _ _ _ (pb_layer reader reopened (mr_bytes res) pb) (set_disk d2 s1)).
  2: { refine (on_disk_ok _ (set_disk d2 s1) _ d2 _). unfold map_file. rewrite bind_unfold. cbn [gets fl_disk set_disk].
    rewrite F2, F1, Hfile, bind_unfold, Epb. done. }
  rewrite bind_unfold, Esp. cbn [lift map_err]. rewrite bind_unfold. cbn [modify]. rewrite bind_unfold. cbn [modify].
  rewrite bind_unfold. cbn [update_disk modify]. done.
Qed.

(** A finished merge is adopted: it is published as the next snapshot, at the position the
    catalog already had, and spliced into the stack the forest serves from. Or a request
    fails, and the merge is gone with its object maybe written. *)
Lemma adopt_run now position (s : Flusher St) evs l snaps ms first lo n meta p res a b :
  serving s evs l snaps → stands (dk_view (fl_disk s)) l ms first lo n meta → cached_seq (dk_view (fl_disk s)) = n →
  fl_pending s = Some p → pm_finished p = Some (Ok res) → planned l p a b → NoDup (lr_path <$> ll_runs l) →
  landed (fl_disk s) p → merge_small p →
  n + 2 < u64_limit → N.of_nat (size (disk_objects (fl_disk s))) + 2 < u64_limit - 1 →
  disk_objects (fl_disk s) !! run_object_path (table_prefix cfg) (n + 1) (uuid (fl_uuids s)) = None →
  (∃ e d, adopt_merge snap_to_json from_json uuid cfg reader reopened now (n + 1) position s =
      (Err e, set_disk d (set_uuids (S (fl_uuids s)) (set_pending None s))) ∧ (ReliableStore St → False) ∧
    dk_files d = dk_files (fl_disk s) ∧ cached_seq (dk_view d) = n ∧
    (disk_objects d = disk_objects (fl_disk s) ∨
     stored (run_object_path (table_prefix cfg) (n + 1) (uuid (fl_uuids s))) (mr_bytes res) (disk_objects (fl_disk s)) (disk_objects d))) ∨
  ∃ s' rs ms' lb m d, adopt_merge snap_to_json from_json uuid cfg reader reopened now (n + 1) position s = (Ok true, s') ∧
    let paths := (lr_path <$> take a (ll_runs l)) ++ [pm_path p] ++ (lr_path <$> drop b (ll_runs l)) in
    let l' := mkLocalLayers lb (committed_all rs paths (layers lb)) in
    s' = set_disk d (set_layers (Some l') (set_forest (swap_base (fl_forest s) (layered_routing lb))
      (set_uuids (S (fl_uuids s)) (set_pending None s)))) ∧
    m = merge_snapshot cfg now (n + 1) position (run_object_path (table_prefix cfg) (n + 1) (uuid (fl_uuids s))) rs ∧
    serving s' evs l' (take a snaps ++ [merged_snap (pm_stack p)] ++ drop b snaps) ∧
    stands (dk_view d) l' ms' first lo (n + 1) (fun q => if q =? n + 1 then m else meta q) ∧ cached_seq (dk_view d) = n + 1 ∧
    base_replaces (layered_routing lb) (layered_routing (ll_base l)) ∧ lr_path <$> ll_runs l' = paths ∧
    run_path <$> rs = (run_path <$> take a ms) ++ [puffin_path m] ++ (run_path <$> drop b ms) ∧
    (∃ O1, stored (run_object_path (table_prefix cfg) (n + 1) (uuid (fl_uuids s))) (mr_bytes res) (disk_objects (fl_disk s)) O1 ∧
      stored (snap_path (table_prefix cfg) (n + 1)) (snap_to_json m) O1 (disk_objects d)) ∧
    (size (disk_objects d) <= S (S (size (disk_objects (fl_disk s)))))%nat.
Proof using All.
  intros Hs Hic Hcn Hpe Hfi Hpl Hnd Hla Hsm Hn Hsz Hfo. pose proof Hs as [Hl I Hb Is]. pose proof Hpl as [Rg Ri Rs Rsp].
  destruct (Hla res Hfi) as [Htask Hfile]. destruct (Hsm res Hfi) as [Hfit Hdl].
  set (object := run_object_path (table_prefix cfg) (n + 1) (uuid (fl_uuids s))) in *.
  destruct (merge_splices to_json from_json json_roundtrip (ll_base l) (pm_stack p) snaps a b parallelism (pm_sequence p) (write cfg)
    (pm_props p) reader reopened (mr_bytes res) Is Rs (merge_task_written p res Htask) Hfit Hdl)
    as (pb & lb & Epb & Esp & El & Is' & _ & Rp).
  destruct (planned_spliced _ _ _ _ _ _ _ p res a b object Hic Hpl) as (rs & Esr & Htiles & Hpaths & Hrl).
  assert (fully_committed l = true) as Hfc by (by eapply remote_metas_committed, (ic_metas _ _ _ _ _ _ _ _ _ _ _ _ Hic)).
  destruct (adopt_requests now position s l n p res a b rs pb lb) as [(e & d & Ea & Hrel & Hf & Hc & Hd)|(d & O1 & Ea & S1 & S2 & Hc)]; try done.
  { rewrite Ri. by apply locate_window. }
  { by eapply batch_absent. }
  { left. exists e, d. split; [exact Ea|]. split; [done|]. split; [done|]. split; [congruence|done]. }
  right. set (m := merge_snapshot cfg now (n + 1) position object rs) in *. set (paths := _ ++ [pm_path p] ++ _) in *.
  assert (length rs = length paths) as Hlen.
  { unfold paths. rewrite Hrl, !length_app, !length_fmap, length_take, length_drop. cbn [length]. lia. }
  assert (length rs = length (layers lb)) as Hll.
  { pose proof (ic_stored _ _ _ _ _ _ _ _ _ _ _ _ Hic) as Hst%Forall2_length. rewrite El, Hrl, !length_app, length_take, length_drop.
    cbn [length]. lia. }
  destruct (in_catalog_merged (dk_view (fl_disk s)) (dk_view d) l ms first lo n meta a b object (mr_bytes res)
    (pb_layer reader reopened (mr_bytes res) pb) lb rs paths m O1) as (ms' & Hic'); try done; [by apply not_metadata|rewrite Hc, Hcn; lia|by exists pb|].
  eexists _, rs, ms', lb, m, d. split; [exact Ea|]. cbv zeta. fold paths. split_and!; try done.
  - split; [done| |done|done]. by apply (swap_absorbed _ _ (ll_base l)).
  - rewrite Hc, Hcn. lia.
  - by apply committed_all_paths.
  - by exists O1.
  - apply stored_size in S1, S2. lia.
Qed.

End merge.

(** ** Planning *)

Section plan.
Context {St : Type} (cfg : Config).

(** The window a merge is planned on. *)
Lemma start_merge_plans sequence position (s : Flusher St) evs l snaps dir :
  base_dir cfg = Some dir → serving s evs l snaps → length (ll_runs l) = length (layers (ll_base l)) →
  start_merge cfg sequence position s = (Ok tt, s) ∨
  ∃ p a b, fl_pending s = None ∧ start_merge cfg sequence position s = (Ok tt, set_pending (Some p) s) ∧ planned l p a b ∧
    pm_finished p = None ∧ pm_path p = merge_path cfg dir sequence (pm_level p).
Proof.
  intros Hdir [Hl _ _ Is] Hlen. unfold start_merge. rewrite Hdir. rewrite bind_unfold. cbn [gets].
  case_bool_decide as Hp; [by left|]. apply eq_None_not_Some in Hp.
  rewrite bind_unfold. cbn [gets]. rewrite Hl. destruct (fully_committed l); cbn [negb]; [|by left].
  destruct (pick_merge _ _ _) as [[a b]|] eqn:Hpick; [|by left]. right.
  apply pick_merge_range in Hpick. rewrite length_fmap in Hpick.
  assert (∃ sub, slice (ll_base l) a b = Ok sub) as [sub Hsub].
  { unfold slice. destruct (Nat.leb_spec b (length (layers (ll_base l)))); [|lia]. cbn [negb].
    destruct (Nat.ltb_spec b a); [lia|]. unfold from_layers. destruct (take _ _) eqn:E; [|by eexists].
    exfalso. apply (f_equal length) in E. rewrite length_take, length_drop in E. cbn in E. lia. }
  rewrite bind_unfold, Hsub. cbn [lift map_err]. eexists _, a, b. split; [done|]. split; [done|]. split; [by split|done].
Qed.

(** A delta on top of the stack leaves the window where it was. *)
Lemma planned_next l p a b ly dir sequence object :
  length (ll_runs l) = length (layers (ll_base l)) → planned l p a b → planned (next_layers cfg l ly dir sequence object) p a b.
Proof.
  intros Hlen [Rg Ri Rs Rsp]. unfold next_layers, mark_committed. cbn [delta_layers ll_runs ll_base].
  rewrite length_app. cbn [length]. replace (length (ll_runs l) + 1 - 1)%nat with (length (ll_runs l) + 0)%nat by lia.
  rewrite alter_app_r. set (r := alter _ 0%nat _).
  split; cbn [ll_runs ll_base]; rewrite ?window_app by lia; try done.
  - rewrite length_app. lia.
  - revert Rs. unfold slice, layered_pushed. cbn [layers]. rewrite length_app.
    destruct (Nat.leb_spec b (length (layers (ll_base l)))); [|lia]. destruct (Nat.leb_spec b (length (layers (ll_base l)) + length [ly])); [|lia].
    cbn [negb]. destruct (b <? a)%nat; [done|]. fold (window a b (layers (ll_base l))). 
    fold (window a b (layers (ll_base l) ++ [ly])). by rewrite window_app by lia.
Qed.
End plan.
