(* ===== verification/FlushLife.v ===== *)
(** The life of a leader on disk: whatever it ingests, however its ticks and merges fall and
    whichever of its requests fail, it serves what it ingested, and the catalog holds a
    stack that serves what it committed. *)

From S2P Require Import Prelude Types Bytes Stream Decimal ObjectStore Catalog CatalogInv CatalogProps CatalogLatest Retention RetentionProps Buffer LocalRuns LocalRunsInv Flush FlushNames FlushInv FlushTick FlushBatch FlushProps FlushTable FlushMerge.
From S2P Require Import Graph Dsu RoutingBase Forest ForestInv Compaction CompactionInv FoldInv ForestProps Codec Puffin PuffinBase Layered Compact TierPolicy.
From S2P Require Import PuffinServe PuffinProps LayeredInv LayeredServe LayeredProps CompactInv CompactProps.

(** ** Where a merge is not found *)

Lemma window_at_inputs rs : ∀ inputs at_ i, window_at rs inputs at_ = Some i → ∀ x, x ∈ inputs → x ∈ lr_path <$> rs.
Proof.
  induction rs as [|r rs IH]; intros inputs at_ i; cbn [window_at]; destruct (_ <? _)%nat; try done; case_bool_decide as E; try done.
  - intros _ x. rewrite <- E, take_nil. done.
  - intros _ x Hx. rewrite <- E, fmap_take in Hx. apply elem_of_take in Hx as (j & Hj & _). by eapply list_elem_of_lookup_2.
  - intros Hw x Hx. rewrite fmap_cons, elem_of_cons. right. by eapply IH.
Qed.

Lemma locate_gone rs inputs x : x ∈ inputs → x ∉ lr_path <$> rs → locate_run_window rs inputs = None.
Proof.
  intros Hx Hn. unfold locate_run_window. destruct (_ || _); [done|]. destruct (window_at rs inputs 0) eqn:E; [|done].
  by eapply window_at_inputs in E.
Qed.

(** The first run of a stack starts where the stack does. *)
Lemma tiles_head ms lo hi : tiles ms lo hi → lo <= hi → min_sequence <$> head ms = Some lo.
Proof.
  intros [Hf Ho Hc] Hlo. destruct ms as [|m ms]; [destruct (proj2 (Hc lo) ltac:(lia)) as (r & Hr%elem_of_nil & _); done|].
  cbn. f_equal. apply Forall_cons in Hf as [Hm Hf]. apply StronglySorted_inv in Ho as [_ Hb].
  assert (lo <= min_sequence m <= hi) as H1.
  { apply Hc. exists m. split; [by left|]. unfold in_span, forward in *. lia. }
  destruct (proj2 (Hc lo) ltac:(lia)) as (r & [->|Hr]%elem_of_cons & Hin); [unfold in_span in Hin; lia|].
  rewrite Forall_forall in Hb. specialize (Hb r Hr). unfold before, in_span, forward in *. lia.
Qed.

Section life.
Context {St : Type} `{!ObjectStore St, !ObjectStoreLaws St, !CleanStore St, !EdgeSort}.
Context (snap_to_json : SnapshotMeta → bytes) (snap_from_json : bytes → option SnapshotMeta).
Context (snap_roundtrip : ∀ m, snap_from_json (snap_to_json m) = Some m).
Context (to_json : FileMetadata → bytes) (from_json : bytes → option FileMetadata).
Context (json_roundtrip : ∀ m, from_json (to_json m) = Some m).
Context (parquet : list (list Row) → option bytes) (uuid : nat → string).
Context (uuid_unique : ∀ i j, uuid i = uuid j → i = j).
Context (cfg : Config) (parallelism : nat) (reader : ScanReader) (reopened : bool).
Context (dir : string) (Hdir : base_dir cfg = Some dir).

Abbreviation disk_objects d := (objects (cv_store (dk_view d))).
Abbreviation stands := (in_catalog snap_from_json from_json cfg reader reopened).
Abbreviation adopt := (adopt_merge snap_to_json from_json uuid cfg reader reopened).
Abbreviation holds := (held snap_from_json from_json uuid cfg reader reopened).

(** A name no fold after [n] gives its file. *)
Definition old_name (n : N) (p : string) : Prop := ∀ q c, n < q → q < u64_limit → p ≠ fold_path cfg dir q c.

(** The files of the stack have names of their own, none of which a later fold or merge takes. *)
Record names_ok (paths : list string) (n : N) : Prop := {
  nm_apart : NoDup paths;
  nm_fold p : p ∈ paths → old_name n p;
  nm_merge p q x : p ∈ paths → n < q → q < u64_limit → p ≠ merge_path cfg dir q x;
}.

(** The merge under way, if there is one: planned on a window of the stack, or on runs
    that are no longer in it. *)
Record pending_ok (d : Disk St) (l : LocalLayers) (n : N) (p : PendingMerge) : Prop := {
  pd_planned : ∃ a b, planned l p a b;
  pd_landed : landed to_json cfg parallelism d p;
  pd_new : pm_path p ∉ lr_path <$> ll_runs l;
  pd_path : ∃ q, q <= n + 1 ∧ pm_path p = merge_path cfg dir q (pm_level p);
}.

Definition outdated (l : LocalLayers) (n : N) (p : PendingMerge) : Prop :=
  ∃ x, x ∈ pm_inputs p ∧ x ∉ lr_path <$> ll_runs l ∧ old_name n x.

(** The stack a worker serves from is the one the catalog has, [lc]; or a commit has failed
    and it holds a run that is in no snapshot. *)
Inductive stance (s : Flusher St) (lc : LocalLayers) (lo n : N) : LocalLayers → Prop :=
| in_step :
    names_ok (lr_path <$> ll_runs lc) n → (∀ p, fl_pending s = Some p → pending_ok (fl_disk s) lc n p ∨ outdated lc n p) →
    stance s lc lo n lc
| adrift l :
    fully_committed l = false → lr_min <$> head (ll_runs l) = Some lo →
    (∀ p, fl_pending s = Some p → ∃ x, x ∈ pm_inputs p ∧ old_name n x) → stance s lc lo n l.

(** A leader that has ingested [evs] and whose catalog holds [durable]. *)
Record leading (s : Flusher St) (evs durable : list EdgeEvent) (lc : LocalLayers) (snaps : list ForestSnapshot)
    (ms : list RunMeta) (first lo n : N) (meta : N → SnapshotMeta) : Prop := {
  ld_held : holds (dk_view (fl_disk s)) (fl_uuids s) durable lc snaps ms first lo n meta;
  ld_serves : ∃ l snaps', serving s evs l snaps' ∧ stance s lc lo n l;
}.

Lemma leading_absorbed s evs durable lc snaps ms first lo n meta :
  leading s evs durable lc snaps ms first lo n meta → absorbed (fl_forest s) evs.
Proof using. intros [_ (l & sn & Hs & _)]. apply Hs. Qed.

(** The forest and the buffer are the ingest task's to change. *)
Lemma leading_forest s f evs evs' durable lc snaps ms first lo n meta :
  leading s evs durable lc snaps ms first lo n meta → absorbed f evs' → tier_base (tier f) = tier_base (tier (fl_forest s)) →
  leading (set_forest f s) evs' durable lc snaps ms first lo n meta.
Proof using.
  intros [Hh (l & sn & [S1 S2 S3 S4] & Hst)] Hf Hb. split; [done|]. exists l, sn. split; [split; try done; by rewrite <- S3|].
  by destruct Hst; [apply in_step|apply adrift].
Qed.

Lemma leading_buffer s b evs durable lc snaps ms first lo n meta :
  leading s evs durable lc snaps ms first lo n meta → leading (set_buffer b s) evs durable lc snaps ms first lo n meta.
Proof using.
  intros [Hh (l & sn & [] & Hst)]. split; [done|]. exists l, sn. split; [done|]. by destruct Hst; [apply in_step|apply adrift].
Qed.

Lemma stance_old s lc lo n l p :
  stance s lc lo n l → fl_pending s = Some p → ∃ x, x ∈ pm_inputs p ∧ old_name n x.
Proof using.
  intros [Hnm Hpe|l' _ _ Hpe] Hp; [|by apply Hpe].
  destruct (Hpe p Hp) as [[(a & b & [Rg Ri _ _]) _ _ _]|(x & H1 & _ & H2)]; [|by exists x].
  destruct (window a b (ll_runs lc)) as [|r w] eqn:Ew.
  { apply (f_equal length) in Ew. rewrite window_length in Ew by lia. cbn in Ew. lia. }
  exists (lr_path r). rewrite Ri. split; [rewrite fmap_cons; by left|]. apply (nm_fold _ _ Hnm), list_elem_of_fmap_2.
  assert (r ∈ window a b (ll_runs lc)) as Hr by (rewrite Ew; by left). unfold window in Hr.
  apply elem_of_take in Hr as (i & Hi & _). rewrite lookup_drop in Hi. by eapply list_elem_of_lookup_2.
Qed.

(** A stance without its merge. *)
Lemma stance_dropped s s' lc lo n l : stance s lc lo n l → fl_pending s' = None → stance s' lc lo n l.
Proof using. intros [Hnm _|l' H1 H2 _] Hp; [apply in_step|apply adrift]; try done; intros p Hp'; congruence. Qed.

Lemma stance_same s s' lc lo n l :
  stance s lc lo n l → fl_pending s' = fl_pending s → dk_files (fl_disk s') = dk_files (fl_disk s) → stance s' lc lo n l.
Proof using.
  intros [Hnm Hpe|l' H1 H2 Hpe] Hp Hd; [apply in_step|apply adrift]; try done; intros p; rewrite Hp; intros Hp'; [|by apply Hpe].
  destruct (Hpe p Hp') as [[P1 P2 P3 P4]|Ho]; [left|by right]. split; try done. intros res Hres. rewrite Hd. by apply P2.
Qed.

Lemma stands_layers v l ms first lo n meta : stands v l ms first lo n meta → length (ll_runs l) = length (layers (ll_base l)).
Proof using. intros Hic. eapply Forall2_length, (ic_stored _ _ _ _ _ _ _ _ _ _ _ _ Hic). Qed.

Lemma stands_head v l ms first lo n meta : stands v l ms first lo n meta → lr_min <$> head (ll_runs l) = Some lo.
Proof using.
  intros Hic. pose proof (ic_metas _ _ _ _ _ _ _ _ _ _ _ _ Hic) as Hm%remote_metas_describes.
  pose proof (tiles_head _ _ _ (ic_tiles _ _ _ _ _ _ _ _ _ _ _ _ Hic) (ic_lo _ _ _ _ _ _ _ _ _ _ _ _ Hic)) as Hh.
  by destruct Hm as [|r m rs ms' (p & _ & ->) _].
Qed.

(** ** Names *)

(** The names a cold start gives the files it fetches. *)
Lemma cache_names_ok rs lo n : tiles rs lo n → n + 1 < u64_limit → names_ok (cache_paths dir rs) n.
Proof using.
  intros Ht Hn. pose proof (tiles_small _ _ _ Ht Hn) as Hsm. destruct Ht as [Hf Ho _]. unfold cache_paths. split.
  - induction rs as [|r rs IH]; [constructor|]. rewrite fmap_cons. apply StronglySorted_inv in Ho as [Ho Hb].
    apply Forall_cons in Hf as [Hfr Hf]. apply Forall_cons in Hsm as [Hsr Hsm]. constructor; [|by apply IH].
    intros (r' & E%join_path_inj & Hr')%list_elem_of_fmap. rewrite Forall_forall in Hb, Hsm, Hf.
    specialize (Hb r' Hr'). specialize (Hsm r' Hr'). specialize (Hf r' Hr'). unfold before, small_run, forward in *.
    apply run_cache_name_inj in E; lia.
  - intros p (r & -> & _)%list_elem_of_fmap q c _ _. apply cache_not_fold.
  - intros p q x (r & -> & _)%list_elem_of_fmap _ _. apply cache_not_merge.
Qed.

(** The names after a merge has taken the place of its window. *)
Lemma names_spliced paths n a b x q lv :
  names_ok paths n → (a < b <= length paths)%nat → x ∉ paths → x = merge_path cfg dir q lv → q <= n + 1 → n + 2 < u64_limit →
  names_ok (take a paths ++ [x] ++ drop b paths) (n + 1).
Proof using.
  intros [H1 H2 H3] Hab Hx -> Hq Hn.
  assert (∀ p, p ∈ take a paths ++ [merge_path cfg dir q lv] ++ drop b paths → p ∈ paths ∨ p = merge_path cfg dir q lv) as Hin.
  { intros p. rewrite !elem_of_app, list_elem_of_singleton. intros [Hp|[->|Hp]]; [left|by right|left].
    - rewrite <- (take_drop a paths), elem_of_app. by left.
    - rewrite <- (take_drop b paths), elem_of_app. by right. }
  split.
  - rewrite (take_drop_window paths a b) in H1, Hx by lia.
    rewrite !NoDup_app in H1. rewrite !not_elem_of_app in Hx. destruct H1 as (N1 & N2 & N3 & N4 & N5), Hx as (X1 & X2 & X3).
    apply NoDup_app. split; [done|]. split.
    + intros p Hp. rewrite elem_of_app, list_elem_of_singleton. intros [->|Hp']; [done|].
      eapply (N2 p Hp). rewrite elem_of_app. by right.
    + apply NoDup_cons. by split.
  - intros p Hp q' c Hq1 Hq2. apply Hin in Hp as [Hp| ->]; [apply H2; [done|lia|done]|].
    intros E. symmetry in E. apply fold_not_merge in E; lia.
  - intros p q' y Hp Hq1 Hq2. apply Hin in Hp as [Hp| ->]; [apply H3; [done|lia|done]|].
    intros E. apply merge_path_inj in E; lia.
Qed.

Lemma names_pushed paths n :
  names_ok paths n → n + 2 < u64_limit → names_ok (paths ++ [fold_path cfg dir (n + 1) false]) (n + 1).
Proof using.
  intros [H1 H2 H3] Hn. split.
  - apply NoDup_app. split; [done|]. split; [|apply NoDup_singleton].
    intros p Hp E%list_elem_of_singleton. eapply H2; [exact Hp| | |exact E]; lia.
  - intros p [Hp|Hp%list_elem_of_singleton]%elem_of_app q c Hq1 Hq2; [apply H2; [done|lia|done]|]. subst p.
    intros E. apply fold_path_inj in E; lia.
  - intros p q x [Hp|Hp%list_elem_of_singleton]%elem_of_app Hq1 Hq2; [apply H3; [done|lia|done]|]. subst p.
    apply fold_not_merge; lia.
Qed.

Lemma next_layers_paths l ly sequence object :
  lr_path <$> ll_runs (next_layers cfg l ly dir sequence object) = (lr_path <$> ll_runs l) ++ [fold_path cfg dir sequence false].
Proof using.
  unfold next_layers, mark_committed, delta_layers. cbn [ll_runs]. rewrite length_app. cbn [length].
  replace (length (ll_runs l) + 1 - 1)%nat with (length (ll_runs l) + 0)%nat by lia. rewrite alter_app_r. by rewrite fmap_app.
Qed.

(** ** Merges *)

Definition pending_small (s : Flusher St) : Prop := ∀ p, fl_pending s = Some p → merge_small p.

Lemma merge_position now sequence position object rs : stream_position (merge_snapshot cfg now sequence position object rs) ≡ position.
Proof using.
  unfold stream_position, merge_snapshot, pos_is_empty. cbn [sm_position Catalog.watermark].
  case_bool_decide as Hp; [|done]. destruct position as [o]. cbn in Hp. subst o. intros k. unfold single.
  rewrite pos_get_advance. by case_decide.
Qed.

(** The newest snapshot is as it was, or one that a merge has published at [position]. *)
Definition republished (position : StreamPosition) (m m' : SnapshotMeta) : Prop :=
  m' = m ∨ (stream_position m' ≡ position ∧ sm_stream m' = cfg_stream cfg).

(** What a part of a tick leaves: the worker leads, and the catalog has moved by at most
    [j] snapshots of a merge each. *)
Record led_on (position : StreamPosition) (evs durable : list EdgeEvent) (first lo n : N) (meta : N → SnapshotMeta)
    (j : N) (s s' : Flusher St) (n' : N) : Prop := {
  lo_leads : ∃ l snaps ms meta', leading s' evs durable l snaps ms first lo n' meta' ∧ republished position (meta n) (meta' n');
  lo_buffer : fl_buffer s' = fl_buffer s;
  lo_range : n <= n' <= n + j;
  lo_size : N.of_nat (size (disk_objects (fl_disk s'))) <= N.of_nat (size (disk_objects (fl_disk s))) + 2 * j;
}.

Lemma led_same position evs durable lc snaps ms first lo n meta j s s' :
  leading s' evs durable lc snaps ms first lo n meta → fl_buffer s' = fl_buffer s →
  N.of_nat (size (disk_objects (fl_disk s'))) <= N.of_nat (size (disk_objects (fl_disk s))) + 2 * j →
  led_on position evs durable first lo n meta j s s' n.
Proof using. intros Hld Hb Hs. split; [|done|lia|done]. exists lc, snaps, ms, meta. split; [done|by left]. Qed.

(** A merge that cannot be found, or not be described, is dropped. *)
Lemma adopt_skips now sequence position s l :
  fl_layers s = Some l →
  (∀ p res, fl_pending s = Some p → pm_finished p = Some (Ok res) →
    locate_run_window (ll_runs l) (pm_inputs p) = None ∨ fully_committed l = false) →
  adopt now sequence position s = (Ok false, s) ∧ no_merge s ∨
  ∃ d, adopt now sequence position s = (Ok false, set_disk d (set_pending None s)) ∧ dk_view d = dk_view (fl_disk s).
Proof using.
  intros Hl Hsk. unfold no_merge. destruct (fl_pending s) as [p|] eqn:Ep.
  2: { left. split; [apply adopt_none; intros q Hq; congruence|done]. }
  destruct (pm_finished p) as [[res|e]|] eqn:Ef.
  - right. unfold adopt_merge. rewrite bind_unfold. cbn [gets]. rewrite Ep, Ef. rewrite bind_unfold. cbn [modify].
    rewrite bind_unfold. cbn [gets]. change (fl_layers (set_pending None s)) with (fl_layers s). rewrite Hl.
    destruct (locate_run_window (ll_runs l) (pm_inputs p)) as [[a b]|] eqn:Ew; [|by eexists].
    destruct (Hsk p res eq_refl Ef) as [E|E]; [congruence|]. rewrite E. exists (fl_disk s). by destruct s.
  - right. unfold adopt_merge. rewrite bind_unfold. cbn [gets]. rewrite Ep, Ef. by eexists.
  - left. split; [apply adopt_none|]; intros q Hq; congruence.
Qed.

Lemma leading_dropped s d evs durable lc snaps ms first lo n meta :
  leading s evs durable lc snaps ms first lo n meta → dk_view d = dk_view (fl_disk s) →
  leading (set_disk d (set_pending None s)) evs durable lc snaps ms first lo n meta.
Proof using.
  intros [Hh (l & sn & [] & Hst)] Hv. split; [cbn; by rewrite Hv|]. exists l, sn. split; [done|]. by eapply stance_dropped.
Qed.

Lemma adopt_skipped now position s evs durable lc snaps ms first lo n meta l :
  leading s evs durable lc snaps ms first lo n meta → fl_layers s = Some l →
  (∀ p res, fl_pending s = Some p → pm_finished p = Some (Ok res) →
    locate_run_window (ll_runs l) (pm_inputs p) = None ∨ fully_committed l = false) →
  ∃ s', adopt now (n + 1) position s = (Ok false, s') ∧ no_merge s' ∧ led_on position evs durable first lo n meta 1 s s' n.
Proof using.
  intros Hld Hl Hsk. destruct (adopt_skips now (n + 1) position s l Hl Hsk) as [[E Hno]|(d & E & Hv)].
  - exists s. split; [done|]. split; [done|]. eapply led_same; [done|done|lia].
  - exists (set_disk d (set_pending None s)). split; [done|]. split; [by intros p Hp|].
    eapply led_same; [by apply leading_dropped|done|]. cbn. rewrite Hv. lia.
Qed.

(** A merge is adopted, skipped, or lost to a request that fails. *)
Lemma adopt_leads now position s evs durable lc snaps ms first lo n meta :
  leading s evs durable lc snaps ms first lo n meta → pending_small s →
  n + 2 < u64_limit → N.of_nat (size (disk_objects (fl_disk s))) + 2 < u64_limit - 1 →
  ∃ r s', adopt now (n + 1) position s = (r, s') ∧ (ReliableStore St → is_ok r = true) ∧ no_merge s' ∧
    led_on position evs durable first lo n meta 1 s s' (match r with Ok true => n + 1 | _ => n end).
Proof using All.
  intros Hld Hsm Hn Hsz. pose proof Hld as [Hh (l & sn & Hs & Hst)]. pose proof Hh as [Hic Hsi Hdu Hid Hcn Hcs].
  assert (∀ l, fl_layers s = Some l → (∀ p res, fl_pending s = Some p → pm_finished p = Some (Ok res) →
      locate_run_window (ll_runs l) (pm_inputs p) = None ∨ fully_committed l = false) →
    ∃ r s', adopt now (n + 1) position s = (r, s') ∧ (ReliableStore St → is_ok r = true) ∧ no_merge s' ∧
    led_on position evs durable first lo n meta 1 s s' (match r with Ok true => n + 1 | _ => n end)) as Hskip.
  { intros l0 Hl Hsk. destruct (adopt_skipped now position _ _ _ _ _ _ _ _ _ _ _ Hld Hl Hsk) as (s' & E & Hno & Hon).
    exists (Ok false), s'. by split_and!. }
  pose proof Hst as Hst0. destruct Hst as [Hnm Hpe|l Hfc Hlo Hpe]; [|apply (Hskip l); [apply Hs|by right]].
  destruct (fl_pending s) as [p|] eqn:Ep; [|apply (Hskip lc); [apply Hs|by intros p res Hp]].
  destruct (pm_finished p) as [[res|e]|] eqn:Ef; [|apply (Hskip lc); [apply Hs|intros p' res [= <-]; congruence]..].
  destruct (Hpe p eq_refl) as [[(a & b & Hpl) Hla Hnew (q & Hq & Hpath)]|(x & Hx1 & Hx2 & _)].
  2: { apply (Hskip lc); [apply Hs|]. intros p' res' [= <-] _. left. by eapply locate_gone. }
  clear Hskip. pose proof Hpl as [Rg _ _ _]. set (object := run_object_path (table_prefix cfg) (n + 1) (uuid (fl_uuids s))).
  assert (taken_id uuid cfg (S (fl_uuids s)) object) as Hto by (exists (fl_uuids s), (n + 1); split; [lia|by left]).
  pose proof (proj1 (Hid (fl_uuids s) (n + 1) ltac:(lia))) as Hfo. fold object in Hfo.
  destruct (adopt_run snap_to_json snap_from_json snap_roundtrip to_json from_json json_roundtrip uuid cfg parallelism reader reopened
    now position s evs lc sn ms first lo n meta p res a b Hs Hic Hcn Ep Ef Hpl (nm_apart _ _ Hnm) Hla (Hsm p Ep) Hn Hsz Hfo)
    as [(e & d & Ea & Hrel & Hfi & Hcd & Hd)|(s' & rs & ms' & lb & m & d & Ea & Es & Em & Hs' & Hic' & Hcn' & Rp & Hpaths & Hrp & (O1 & S1 & S2) & Hsize)].
  - exists (Err e), (set_disk d (set_uuids (S (fl_uuids s)) (set_pending None s))). split; [done|]. split; [intros HR; by destruct Hrel|].
    split; [by intros p' Hp'|]. fold object in Hd.
    assert (size (disk_objects d) <= S (size (disk_objects (fl_disk s))))%nat as Hz by (destruct Hd as [->|Hd%stored_size]; lia).
    eapply led_same; [|done|cbn; lia]. split.
    + eapply held_grown; [done| | | |exact Hh]; cbn; [|lia|congruence]. eapply grown_maybe; [exact Hfo|exact Hto|lia|exact Hd].
    + exists lc, sn. split; [by destruct Hs|]. by apply (stance_dropped s).
  - fold object in Em. set (l' := mkLocalLayers _ _) in *. exists (Ok true), s'. split; [done|]. split; [done|].
    split; [intros p' Hp'; by rewrite Es in Hp'|]. split; [|by rewrite Es|lia|rewrite Es; cbn [fl_disk set_disk]; lia].
    exists l', (take a sn ++ [merged_snap (pm_stack p)] ++ drop b sn), ms', (fun q => if q =? n + 1 then m else meta q).
    split; [split|].
    + rewrite Es. cbn [fl_disk set_disk fl_uuids set_layers set_forest set_uuids].
      assert (grown uuid cfg (disk_objects (fl_disk s)) O1 (fl_uuids s) (S (fl_uuids s))) as Hg by (by eapply grown_stored; [| |lia|]).
      eapply held_commit; [done|exact Hh|exact Hg|exact S2|exact Hic'|apply Hs'| |done|].
      * exact (swap_absorbed (with_base (layered_routing (ll_base lc))) durable (ll_base lc) lb Hdu eq_refl Rp).
      * intros q'. rewrite mentions_paths. assert (runs m = rs) as -> by (by rewrite Em).
        rewrite Hrp, !elem_of_app, list_elem_of_singleton. assert (puffin_path m = object) as -> by (by rewrite Em).
        intros [->|[Hq'|[Hq'|[->|Hq']]]]; [by left|rewrite Em in Hq'; by apply elem_of_nil in Hq'|right|by left|right].
        -- rewrite <- (take_drop a ms), fmap_app, elem_of_app. by left.
        -- rewrite <- (take_drop b ms), fmap_app, elem_of_app. by right.
    + exists l', (take a sn ++ [merged_snap (pm_stack p)] ++ drop b sn). split; [done|]. apply in_step; [|intros p' Hp'; by rewrite Es in Hp'].
      rewrite Hpaths, fmap_take, fmap_drop. apply names_spliced with q (pm_level p); try done. by rewrite length_fmap.
    + rewrite N.eqb_refl. right. rewrite Em. split; [apply merge_position|done].
Qed.

Lemma start_leads position s evs durable lc snaps ms first lo n meta :
  leading s evs durable lc snaps ms first lo n meta → n + 1 < u64_limit →
  ∃ p, start_merge cfg (n + 1) position s = (Ok tt, set_pending p s) ∧
    leading (set_pending p s) evs durable lc snaps ms first lo n meta.
Proof using Hdir.
  intros Hld Hn. pose proof Hld as [Hh (l & sn & Hs & Hst)]. assert (set_pending (fl_pending s) s = s) as Hid by (by destruct s).
  destruct Hst as [Hnm Hpe|l Hfc Hlo Hpe].
  - destruct (start_merge_plans cfg (n + 1) position s evs lc sn dir Hdir Hs (stands_layers _ _ _ _ _ _ _ (hd_stands _ _ _ _ _ _ _ _ _ _ _ _ _ _ _ _ Hh)))
      as [E|(p & a & b & Ep & E & Hpl & Hf & Hpath)].
    + exists (fl_pending s). by rewrite E, Hid.
    + exists (Some p). split; [done|]. split; [done|]. exists lc, sn. split; [by destruct Hs|]. apply in_step; [done|].
      intros q [= <-]. left. split; [by exists a, b| | |by exists (n + 1)].
      * intros res Hres. congruence.
      * intros Hin. eapply (nm_merge _ _ Hnm); [exact Hin| |exact Hn|exact Hpath]. lia.
  - exists (fl_pending s). rewrite Hid. split; [|done]. unfold start_merge. rewrite Hdir. rewrite bind_unfold. cbn [gets].
    case_bool_decide; [done|]. rewrite bind_unfold. cbn [gets]. by rewrite (sv_layers _ _ _ _ Hs), Hfc.
Qed.

Lemma finish_leads lost s evs durable lc snaps ms first lo n meta :
  leading s evs durable lc snaps ms first lo n meta →
  leading (finish_merge to_json cfg parallelism lost s) evs durable lc snaps ms first lo n meta ∧
  dk_view (fl_disk (finish_merge to_json cfg parallelism lost s)) = dk_view (fl_disk s) ∧
  fl_buffer (finish_merge to_json cfg parallelism lost s) = fl_buffer s.
Proof using.
  intros Hld. unfold finish_merge. destruct (fl_pending s) as [p|] eqn:Ep; [|done].
  destruct (pm_finished p) eqn:Ef; [done|]. destruct Hld as [Hh (l & sn & Hs & Hst)].
  set (r := if lost then Err MergeTaskFailed else merge_task to_json cfg parallelism p).
  set (d := match r with Ok m => _ | Err _ => _ end).
  assert (dk_view d = dk_view (fl_disk s)) as Hv by (unfold d; by destruct r).
  split; [|split; [exact Hv|done]]. split; [cbn; by rewrite Hv|]. exists l, sn. split; [by destruct Hs|].
  destruct Hst as [Hnm Hpe|l Hfc Hlo Hpe]; [apply in_step|apply adrift]; try done; intros q [= <-]; [|by apply (Hpe p Ep)].
  destruct (Hpe p Ep) as [[(a & b & [R1 R2 R3 R4]) Hla Hnew Hpath]|Hold]; [left|by right].
  split; [exists a, b; by split| |done|done]. intros res. cbn [pm_finished set_finished]. intros [= Er].
  unfold r in Er. destruct lost; [done|]. split; [exact Er|]. unfold d, r. rewrite Er. apply lookup_insert_eq.
Qed.

(** What the merges of a tick take. *)
Definition merges_small (lost : bool) (now : Z) (n : N) (position : StreamPosition) (s : Flusher St) : Prop :=
  pending_small s ∧
  (inline_merges cfg = true → ∀ adopted s1, adopt now (n + 1) position s = (Ok adopted, s1) →
    pending_small (finish_merge to_json cfg parallelism lost
      (start_merge cfg (if (adopted : bool) then n + 1 + 1 else n + 1) position s1).2)).

Lemma led_trans position evs durable first lo n n1 n2 meta l snaps ms meta1 i j s s1 s2 :
  leading s1 evs durable l snaps ms first lo n1 meta1 → republished position (meta n) (meta1 n1) → fl_buffer s1 = fl_buffer s →
  n <= n1 <= n + i → N.of_nat (size (disk_objects (fl_disk s1))) <= N.of_nat (size (disk_objects (fl_disk s))) + 2 * i →
  led_on position evs durable first lo n1 meta1 j s1 s2 n2 → led_on position evs durable first lo n meta (i + j) s s2 n2.
Proof using.
  intros Hld Hre Hb Hr Hz [(l2 & sn2 & ms2 & meta2 & Hld2 & Hre2) Hb2 Hr2 Hz2]. split; [|congruence|lia|lia].
  exists l2, sn2, ms2, meta2. split; [done|]. destruct Hre2 as [->|Hre2]; [done|by right].
Qed.

Lemma merges_lead lost now position s evs durable lc snaps ms first lo n meta :
  leading s evs durable lc snaps ms first lo n meta →
  merges_small lost now n position s → n + 4 < u64_limit → N.of_nat (size (disk_objects (fl_disk s))) + 4 < u64_limit - 1 →
  ∃ r s' n', tick_merges snap_to_json to_json from_json uuid cfg parallelism reader reopened lost now (n + 1) position s = (r, s') ∧
    led_on position evs durable first lo n meta 2 s s' n' ∧ (ReliableStore St → is_ok r = true) ∧ (∀ q, r = Ok q → q = n' + 1).
Proof using All.
  intros Hld [Hsm Hin] Hn Hsz.
  destruct (adopt_leads now position s evs durable lc snaps ms first lo n meta Hld Hsm ltac:(lia) ltac:(lia))
    as (r1 & s1 & E1 & Hrel1 & _ & [(l1 & snaps1 & ms1 & meta1 & Hld1 & Hre1) Hb1 Hr1 Hz1]). unfold tick_merges.
  destruct r1 as [adopted|e].
  2: { rewrite (bind_err _ _ _ _ _ E1). exists (Err e), s1, n. split; [done|]. split; [|done]. split; [|done|lia|lia].
    by exists l1, snaps1, ms1, meta1. }
  rewrite (bind_ok _ _ _ _ _ E1). set (n1 := if adopted then n + 1 else n).
  assert (match Ok (Er:=flush_error) adopted with Ok true => n + 1 | _ => n end = n1) as En by done. rewrite En in *. clear En.
  assert ((if adopted then (n + 1) ⊞ 1 else n + 1) = n1 + 1) as ->.
  { unfold n1. destruct adopted; [apply wadd64_small; lia|done]. }
  destruct (start_leads position s1 evs durable l1 snaps1 ms1 first lo n1 meta1 Hld1 ltac:(lia)) as (p & E2 & Hld2).
  rewrite (bind_ok _ _ _ _ _ E2). destruct (inline_merges cfg) eqn:Einl.
  2: { exists (Ok (n1 + 1)), (set_pending p s1), n1. split; [done|]. split; [|split; [done|by intros q [= <-]]].
    split; [|done|lia|cbn; lia]. by exists l1, snaps1, ms1, meta1. }
  destruct (finish_leads lost _ _ _ _ _ _ _ _ _ _ Hld2) as (Hld3 & Hv3 & Hb3). set (s3 := finish_merge _ _ _ _ _) in *.
  assert (pending_small s3) as Hsm3.
  { specialize (Hin eq_refl adopted s1 E1). replace (if adopted then n + 1 + 1 else n + 1) with (n1 + 1) in Hin by (by destruct adopted).
    by rewrite E2 in Hin. }
  rewrite (bind_ok _ _ _ tt s3) by done.
  destruct (adopt_leads now position s3 evs durable l1 snaps1 ms1 first lo n1 meta1 Hld3 Hsm3) as (r4 & s4 & E4 & Hrel4 & _ & Hon);
    [lia|rewrite Hv3; cbn; lia|].
  assert (∀ n4, led_on position evs durable first lo n1 meta1 1 s3 s4 n4 → led_on position evs durable first lo n meta 2 s s4 n4) as Htr.
  { intros n4. apply (led_trans position evs durable first lo n n1 n4 meta l1 snaps1 ms1 meta1 1 1 s s3 s4 Hld3 Hre1); [by rewrite Hb3|lia|].
    rewrite Hv3. cbn. lia. }
  destruct r4 as [adopted'|e].
  2: { rewrite (bind_err _ _ _ _ _ E4). exists (Err e), s4, n1. split; [done|]. split; [by apply Htr|done]. }
  rewrite (bind_ok _ _ _ _ _ E4). eexists _, s4, _. split; [done|]. split; [apply Htr, Hon|]. split; [done|].
  intros q [= <-]. destruct adopted'; [apply wadd64_small; lia|done].
Qed.

(** ** The batch *)

(** What the batch takes: a Parquet encoding and a run that fits its file, the memtable's,
    or the whole forest's when the stack holds a run nobody has committed. *)
Definition batch_fits (s : Flusher St) (n : N) (segments : list Segment) (position : StreamPosition) (pq data : bytes) : Prop :=
  parquet (sg_batch <$> segments) = Some pq ∧
  match fl_layers s with
  | Some l =>
      if fully_committed l then
        puffin_write to_json (bw_finish (foldl bw_push (bw_new (n + 1) (write cfg)) (stream_memtable (tier (fl_forest s))).1))
          (puffin_metadata position) = Ok data ∧ delta_fits (fl_forest s) data
      else
        puffin_write to_json (compact_to_blobs (fl_forest s) (n + 1) (write cfg)) (puffin_metadata position) = Ok data ∧
        run_fits (fl_forest s) data
  | None => False
  end.

(** The stack a fold for sequence [n + 1] leaves, [next] below the forest [f]: not all of it
    committed until [op] is. *)
Record folded (s : Flusher St) (evs : list EdgeEvent) (lo n : N) (next : LocalLayers) (f : ScopedForest) (files : gmap string bytes)
    (op : Path) (snaps : list ForestSnapshot) : Prop := {
  fd_absorbed : absorbed f evs;
  fd_base : tier_base (tier f) = Some (layered_routing (ll_base next));
  fd_stack : stack_inv (ll_base next) snaps;
  fd_durable : absorbed (with_base (layered_routing (ll_base next))) evs;
  fd_open : fully_committed next = false;
  fd_head : lr_min <$> head (ll_runs next) = Some lo;
  fd_names : names_ok (lr_path <$> ll_runs (mark_committed next op)) (n + 1);
  fd_pending d p : dk_files d = files → fl_pending s = Some p →
    pending_ok d (mark_committed next op) (n + 1) p ∨ outdated (mark_committed next op) (n + 1) p;
}.

(** Wherever a batch stops, the worker leads. *)
Lemma stop_leads s evs durable lc snaps ms first lo n meta position pq data next f files m r s' snaps' :
  let dp := data_object_path (table_prefix cfg) (n + 1) (uuid (fl_uuids s)) in
  let op := run_object_path (table_prefix cfg) (n + 1) (uuid (S (fl_uuids s))) in
  leading s evs durable lc snaps ms first lo n meta → N.of_nat (size (disk_objects (fl_disk s))) + 3 < u64_limit - 1 →
  folded s evs lo n next f files op snaps' →
  (∀ d O1 O2, grown uuid cfg (disk_objects (fl_disk s)) O2 (fl_uuids s) (S (S (fl_uuids s))) →
    cached_seq (dk_view d) = n + 1 → stored dp pq (disk_objects (fl_disk s)) O1 → stored op data O1 O2 →
    stored (snap_path (table_prefix cfg) (n + 1)) (snap_to_json m) O2 (disk_objects d) →
    stands (dk_view d) (mark_committed next op) (runs m) first lo (n + 1) (fun q => if q =? n + 1 then m else meta q)) →
  (∀ p, mentions m p → p = dp ∨ p = op ∨ p ∈ run_path <$> ms) →
  batch_stop snap_to_json cfg s n position dp op pq data next f files m r s' →
  match r with
  | Ok _ => leading s' evs evs (mark_committed next op) snaps' (runs m) first lo (n + 1) (fun q => if q =? n + 1 then m else meta q) ∧
      fl_buffer s' = (drop_committed (fl_buffer s) position).2
  | Err _ => leading s' evs durable lc snaps ms first lo n meta ∧ fl_buffer s' = fl_buffer s
  end.
Proof using uuid_unique.
  intros dp op [Hh (l & sn & Hs & Hst)] Hsz [F1 F2 F3 F4 F5 F6 F7 F8] Hdone Hnm Hstop.
  pose proof Hh as [Hic Hsi Hdu Hid Hcn Hcs]. set (k := fl_uuids s) in *.
  destruct (Hid k (n + 1) ltac:(lia)) as [_ Hfd]. destruct (Hid (S k) (n + 1) ltac:(lia)) as [Hfr _]. fold dp in Hfd. fold op in Hfr.
  assert (∀ j, (k < j)%nat → taken_id uuid cfg j dp) as Htd by (intros j Hj; exists k, (n + 1); split; [done|by right]).
  assert (taken_id uuid cfg (S (S k)) op) as Hto by (exists (S k), (n + 1); split; [lia|by left]).
  assert (∀ O1, stored dp pq (disk_objects (fl_disk s)) O1 → O1 !! op = None) as Hfo.
  { intros O1 S1. rewrite (stored_other _ _ _ _ _ S1); [done|]. intros E. symmetry in E. by apply object_paths_apart in E. }
  destruct Hstop as [e d E1 E2 Hd|e d O1 E1 E2 S1 Hd|d O1 O2 E1 E2 S1 S2 S3].
  - split; [|done]. split.
    + eapply held_grown; [done| | | |exact Hh]; cbn; [|destruct Hd as [->|Hd%stored_size]; lia|congruence].
      eapply grown_maybe; [exact Hfd|apply Htd; lia|fold k; lia|exact Hd].
    + exists l, sn. split; [by destruct Hs|]. by apply (stance_same s).
  - split; [|done]. pose proof (stored_size _ _ _ _ S1) as Z1. split.
    + eapply held_grown; [done| | | |exact Hh]; cbn; [|destruct Hd as [->|Hd%stored_size]; lia|congruence].
      eapply grown_trans; [eapply (grown_stored uuid cfg _ _ k (S k)); [exact Hfd|apply Htd; lia|lia|exact S1]|].
      eapply grown_maybe; [by apply Hfo|exact Hto|lia|exact Hd].
    + exists next, snaps'. split; [by split|]. apply adrift; [done|done|]. intros p Hp. by eapply stance_old.
  - assert (grown uuid cfg (disk_objects (fl_disk s)) O2 k (S (S k))) as Hg.
    { eapply grown_trans; [eapply (grown_stored uuid cfg _ _ k (S k)); [exact Hfd|apply Htd; lia|lia|exact S1]|].
      eapply grown_stored; [by apply Hfo|exact Hto|lia|exact S2]. }
    split; [|done]. split.
    + eapply (held_commit snap_to_json) with (O1 := O2); [done|exact Hh|exact Hg|exact S3| |exact F3|exact F4|cbn; lia|].
      * eapply Hdone; [exact Hg|cbn; lia|exact S1|exact S2|exact S3].
      * intros p [->|[->|Hp]]%Hnm; [left; apply Htd; cbn; fold k; lia|by left|by right].
    + exists (mark_committed next op), snaps'. split; [by split|]. apply in_step; [done|]. intros p Hp. by apply F8.
Qed.

Lemma next_open l ly sequence : fully_committed (delta_layers cfg l ly dir sequence) = false.
Proof using. unfold fully_committed, delta_layers. cbn [ll_runs]. rewrite forallb_app. cbn. by rewrite andb_false_r. Qed.

(** A worker that is in step folds a delta, and is in step again when it is committed. *)
Lemma delta_folded s evs lc ms first lo n meta ly pq data snaps' :
  stands (dk_view (fl_disk s)) lc ms first lo n meta → stance s lc lo n lc → n + 2 < u64_limit → fully_committed lc = true →
  stack_inv (layered_pushed (ll_base lc) ly) snaps' → absorbed (publish (fl_forest s) (layered_routing (layered_pushed (ll_base lc) ly))) evs →
  folded s evs lo n (delta_layers cfg lc ly dir (n + 1)) (publish (fl_forest s) (layered_routing (layered_pushed (ll_base lc) ly)))
    (<[fold_path cfg dir (n + 1) false := data]> (dk_files (fl_disk s))) pq snaps'.
Proof using.
  intros Hic Hst Hn Hfc Is I. pose proof (stands_layers _ _ _ _ _ _ _ Hic) as Hrl.
  assert (names_ok (lr_path <$> ll_runs lc) n ∧ ∀ p, fl_pending s = Some p → pending_ok (fl_disk s) lc n p ∨ outdated lc n p) as [Hnm Hpe].
  { inversion Hst as [|? Hfc']; [done|]. congruence. }
  split; try done.
  - by eapply with_base_absorbed.
  - apply next_open.
  - cbn [ll_runs delta_layers]. pose proof (stands_head _ _ _ _ _ _ _ Hic) as Hh. by destruct (ll_runs lc).
  - change (mark_committed _ _) with (next_layers cfg lc ly dir (n + 1) pq). rewrite next_layers_paths. by apply names_pushed.
  - intros d p Hd Hp. change (mark_committed _ _) with (next_layers cfg lc ly dir (n + 1) pq).
    destruct (Hpe p Hp) as [[(a & b & Hpl) Hla Hnew (q & Hq & Hpath)]|(x & X1 & X2 & X3)]; [left|right].
    + assert (pm_path p ≠ fold_path cfg dir (n + 1) false) as Hne.
      { rewrite Hpath. intros E. symmetry in E. apply fold_not_merge in E; lia. }
      split; [exists a, b; by apply planned_next| |rewrite next_layers_paths, not_elem_of_app, list_elem_of_singleton; by split|exists q; split; [lia|done]].
      intros res Hres. destruct (Hla res Hres) as [H1 H2]. split; [done|]. rewrite Hd. by rewrite lookup_insert_ne.
    + exists x. split; [done|]. rewrite next_layers_paths, not_elem_of_app, list_elem_of_singleton. split; [|intros q c Hq; apply X3; lia].
      split; [done|]. apply X3; lia.
Qed.

(** A worker adrift folds everything, and whatever was planned on its runs is out of date. *)
Lemma full_folded s evs lc lo n l ly files op snaps' :
  stance s lc lo n l → n + 2 < u64_limit → lr_min <$> head (ll_runs l) = Some lo →
  stack_inv (layered_new ly) snaps' → absorbed (publish (fl_forest s) (layered_routing (layered_new ly))) evs →
  folded s evs lo n (full_layers cfg l ly dir (n + 1)) (publish (fl_forest s) (layered_routing (layered_new ly))) files op snaps'.
Proof using.
  intros Hst Hn Hlo Is I.
  assert (lr_path <$> ll_runs (mark_committed (full_layers cfg l ly dir (n + 1)) op) = [fold_path cfg dir (n + 1) true]) as Ep by done.
  split; try done.
  - by eapply with_base_absorbed.
  - revert Hlo. cbn [full_layers ll_runs]. by destruct (ll_runs l).
  - rewrite Ep. split; [apply NoDup_singleton| |].
    + intros p ->%list_elem_of_singleton q c Hq1 Hq2 E. apply fold_path_inj in E; lia.
    + intros p q x ->%list_elem_of_singleton Hq1 Hq2. apply fold_not_merge; lia.
  - intros d p _ Hp. right. destruct (stance_old _ _ _ _ _ _ Hst Hp) as (x & X1 & X2). exists x. split; [done|].
    rewrite Ep, list_elem_of_singleton. split; [apply X2; lia|]. intros q c Hq. apply X2. lia.
Qed.

Lemma named_batch now n position segments dp pq op kind rs p :
  mentions (batch_meta cfg now n position segments dp pq op kind rs) p ↔ p = op ∨ p = dp ∨ p ∈ run_path <$> rs.
Proof using. rewrite mentions_paths. cbn. by rewrite list_elem_of_singleton. Qed.

Lemma batch_leads now s evs durable lc snaps ms first lo n meta prev segments pq data :
  leading s evs durable lc snaps ms first lo n meta → n + 2 < u64_limit →
  N.of_nat (size (disk_objects (fl_disk s))) + 3 < u64_limit - 1 →
  (∀ a b, cfg_stream cfg = Some a → sm_stream prev = Some b → same_stream a b = true) →
  let position := pos_merge (stream_position prev) (foldl (fun p sg => pos_merge p (sg_last sg)) pos_new segments) in
  batch_fits s n segments position pq data →
  ∃ r s', commit_batch snap_to_json to_json from_json parquet uuid cfg reader reopened now (Some prev) (n + 1) segments s = (r, s') ∧
    (ReliableStore St → r = Ok tt) ∧
    match r with
    | Ok _ => ∃ l' snaps' ms' m, leading s' evs evs l' snaps' ms' first lo (n + 1) (fun q => if q =? n + 1 then m else meta q) ∧
        stream_position m ≡ position ∧ sm_stream m = cfg_stream cfg ∧ fl_buffer s' = (drop_committed (fl_buffer s) position).2
    | Err _ => leading s' evs durable lc snaps ms first lo n meta ∧ fl_buffer s' = fl_buffer s
    end.
Proof using All.
  intros Hld Hn Hsz Hstr position (Bp & Hfit). pose proof Hld as [Hh (l & sn & Hs & Hst)]. pose proof Hh as [Hic Hsi Hdu Hid Hcn Hcs].
  rewrite (sv_layers _ _ _ _ Hs) in Hfit. destruct (Hid (fl_uuids s) (n + 1) ltac:(lia)) as [_ Hfd].
  destruct (Hid (S (fl_uuids s)) (n + 1) ltac:(lia)) as [Hfr _]. pose proof Hst as Hst0. destruct Hst as [Hnm Hpe|l Hfc Hlo Hpe].
  - assert (fully_committed lc = true) as Hfc by (by eapply remote_metas_committed, (ic_metas _ _ _ _ _ _ _ _ _ _ _ _ Hic)).
    rewrite Hfc in Hfit. destruct Hfit as [Bw Bf].
    destruct (delta_run snap_to_json snap_from_json to_json from_json json_roundtrip parquet uuid cfg reader reopened now s evs lc sn
      ms first lo n meta prev segments pq data dir Hs Hic Hdir) as (ly & r & s' & Ec & Hrel & Hmap & Is & I & Hstop); [by split|].
    exists r, s'. split; [done|]. split; [done|].
    pose proof (delta_folded s evs lc ms first lo n meta ly (run_object_path (table_prefix cfg) (n + 1) (uuid (S (fl_uuids s)))) data _
      Hic Hst0 Hn Hfc Is I) as Hfo.
    unshelve epose proof (stop_leads _ _ _ _ _ _ _ _ _ _ _ _ _ _ _ _ _ _ _ _ Hld Hsz Hfo _ _ Hstop) as Hout; cycle 2.
    + destruct r as [[]|e]; [|done]. destruct Hout as [Hl' Hb]. eexists _, _, _, _. split; [exact Hl'|].
      split; [apply batch_position|done].
    + intros d O1 O2 _ Hc S1 S2 S3. eapply delta_done; try done. rewrite Hc, Hcn. lia.
    + intros p. rewrite named_batch, fmap_app, elem_of_app. cbn. rewrite list_elem_of_singleton. tauto.
  - rewrite Hfc in Hfit. destruct Hfit as [Bw Bf]. pose proof (batch_absent _ _ _ _ _ _ _ _ _ _ _ _ Hic) as Hab.
    destruct (full_run snap_to_json to_json from_json json_roundtrip parquet uuid cfg reader reopened now s evs l sn n prev segments
      pq data dir Hs Hfc Hdir Hab Bp Bw Bf Hstr) as (ly & r & s' & files & Ec & Hrel & Hmap & Is & I & Hstop).
    exists r, s'. split; [done|]. split; [done|].
    pose proof (full_folded s evs lc lo n l ly files (run_object_path (table_prefix cfg) (n + 1) (uuid (S (fl_uuids s)))) _
      Hst0 Hn Hlo Is I) as Hfo.
    unshelve epose proof (stop_leads _ _ _ _ _ _ _ _ _ _ _ _ _ _ _ _ _ _ _ _ Hld Hsz Hfo _ _ Hstop) as Hout; cycle 2.
    + destruct r as [[]|e]; [|done]. destruct Hout as [Hl' Hb]. eexists _, _, _, _. split; [exact Hl'|].
      split; [apply batch_position|done].
    + intros d O1 O2 Hg Hc S1 S2 S3. eapply (stands_folded snap_to_json); try done.
      * apply stored_size in S1, S2, S3. lia.
      * by eapply stored_same.
      * exists (S (fl_uuids s)), (n + 1). split; [lia|by left].
      * revert Hlo. cbn. destruct (ll_runs l) as [|r0 rs]; [done|]. by intros [= <-].
    + intros p. rewrite named_batch. cbn. rewrite list_elem_of_singleton. tauto.
Qed.

(** ** A leader's tick after the buffer has been sealed *)

Definition tick_rest (lost : bool) (now : Z) : io (Flusher St) flush_error unit :=
  newest ← on_disk (disk_catalog (latest snap_from_json (table_prefix cfg)));
  _ ← (match newest with
    | Some m => modify (fun s => set_buffer (drop_committed (fl_buffer s) (stream_position m)).2 s)
    | None => mret tt
    end);
  let sequence := from_option (fun m => sm_sequence m ⊞ 1) 1 newest in
  let position := from_option stream_position pos_new newest in
  sequence ← tick_merges snap_to_json to_json from_json uuid cfg parallelism reader reopened lost now sequence position;
  segments ← gets (fun s => sealed (fl_buffer s));
  if bool_decide (length segments = 0%nat) then mret tt
  else commit_batch snap_to_json to_json from_json parquet uuid cfg reader reopened now newest sequence segments.

(** Ingest that falls between the seal and the rest of the tick is ingest between these. *)
Lemma tick_seals lost now s :
  tick snap_to_json snap_from_json to_json from_json parquet uuid cfg parallelism reader reopened true lost now s =
  tick_rest lost now (set_buffer (seal_active (fl_buffer s)).2 s).
Proof using. done. Qed.

(** The worker once it has seen the newest snapshot. *)
Definition observed (s : Flusher St) (m : SnapshotMeta) : Flusher St :=
  set_buffer (drop_committed (fl_buffer s) (stream_position m)).2
    (on_disk (disk_catalog (latest snap_from_json (table_prefix cfg))) s).2.

Definition rest_segments (s : Flusher St) (m : SnapshotMeta) : list Segment :=
  sealed (drop_committed (fl_buffer s) (stream_position m)).2.

Definition rest_position (s : Flusher St) (m : SnapshotMeta) : StreamPosition :=
  pos_merge (stream_position m) (foldl (fun p sg => pos_merge p (sg_last sg)) pos_new (rest_segments s m)).

(** The room a tick takes. *)
Record tick_fits (lost : bool) (now : Z) (s : Flusher St) (n : N) (m : SnapshotMeta) : Prop := {
  tf_room : n + 6 < u64_limit ∧ N.of_nat (size (disk_objects (fl_disk s))) + 8 < u64_limit - 1;
  tf_merges : merges_small lost now n (stream_position m) (observed s m);
  tf_batch s1 n1 : rest_segments s m ≠ [] →
    tick_merges snap_to_json to_json from_json uuid cfg parallelism reader reopened lost now (n + 1) (stream_position m)
      (observed s m) = (Ok (n1 + 1), s1) →
    ∃ pq data, batch_fits s1 n1 (rest_segments s m) (rest_position s m) pq data;
  tf_stream a b : cfg_stream cfg = Some a → sm_stream m = Some b → same_stream a b = true;
}.

(** The newest snapshot is found, or a request for it fails. *)
Lemma newest_leads s evs durable lc snaps ms first lo n meta :
  leading s evs durable lc snaps ms first lo n meta →
  ∃ r s1, on_disk (disk_catalog (latest snap_from_json (table_prefix cfg))) s = (r, s1) ∧
    (r = Ok (Some (meta n)) ∨ ∃ e, r = Err e) ∧ (ReliableStore St → r = Ok (Some (meta n))) ∧
    leading s1 evs durable lc snaps ms first lo n meta ∧ fl_buffer s1 = fl_buffer s ∧
    disk_objects (fl_disk s1) = disk_objects (fl_disk s).
Proof using All.
  intros [Hh (l & sn & Hs & Hst)]. pose proof Hh as [Hic _ _ _ Hcn _]. pose proof Hic as [Hd Hca _ _ _ _ _ _].
  destruct (latest_flaky snap_from_json (table_prefix cfg) (dk_view (fl_disk s)) first n meta Hd Hcn) as (r & v' & E & Hr & Hcv & Hov).
  assert (ReliableStore St → r = Ok (Some (meta n))) as Hrel.
  { intros HR. destruct (latest_dense snap_from_json (table_prefix cfg) (dk_view (fl_disk s)) first n meta Hd Hca) as (v2 & E2 & _). congruence. }
  rewrite on_disk_run. unfold disk_catalog, io_map_err, zoom. rewrite E. eexists _, _. split; [done|]. cbn [fst snd].
  split; [destruct Hr as [->|[e ->]]; [by left|right; by eexists]|]. split; [intros HR; by rewrite (Hrel HR)|]. split; [|done].
  split.
  - eapply held_grown; [done| | | |exact Hh]; cbn; rewrite ?Hov; [by apply grown_refl|apply Hd|congruence].
  - exists l, sn. split; [by destruct Hs|]. by apply (stance_same s).
Qed.

(** What a tick makes durable, and what it leaves of the buffer: nothing and about all of it,
    or everything ingested so far and what came after it. *)
Inductive ticked (s : Flusher St) (evs durable : list EdgeEvent) (m m' : SnapshotMeta) (b : EdgeBuffer) : list EdgeEvent → Prop :=
| ticked_idle :
    stream_position m' ≡ stream_position m → b = fl_buffer s ∨ b = (drop_committed (fl_buffer s) (stream_position m)).2 →
    ticked s evs durable m m' b durable
| ticked_batch :
    stream_position m' ≡ rest_position s m →
    b = (drop_committed (drop_committed (fl_buffer s) (stream_position m)).2 (rest_position s m)).2 → ticked s evs durable m m' b evs.

Lemma republished_position m m' :
  republished (stream_position m) m m' → stream_position m' ≡ stream_position m ∧ (sm_stream m' = sm_stream m ∨ sm_stream m' = cfg_stream cfg).
Proof using. intros [->|[H1 H2]]; [by split; [|left]|by split; [|right]]. Qed.

(** A tick leaves a leader, whichever request fails; if none does, it succeeds. *)
Lemma tick_leads lost now s evs durable lc snaps ms first lo n meta :
  leading s evs durable lc snaps ms first lo n meta →
  ((on_disk (disk_catalog (latest snap_from_json (table_prefix cfg))) s).1 = Ok (Some (meta n)) → tick_fits lost now s n (meta n)) →
  ∃ r s' durable' l' snaps' ms' n' meta', tick_rest lost now s = (r, s') ∧ (ReliableStore St → r = Ok tt) ∧
    leading s' evs durable' l' snaps' ms' first lo n' meta' ∧ ticked s evs durable (meta n) (meta' n') (fl_buffer s') durable' ∧
    (sm_stream (meta' n') = sm_stream (meta n) ∨ sm_stream (meta' n') = cfg_stream cfg).
Proof using All.
  intros Hld Hfits. destruct (newest_leads _ _ _ _ _ _ _ _ _ _ Hld) as (r0 & s0 & E0 & Hr0 & Hrel0 & Hld0 & Hb0 & Ho0).
  unfold tick_rest. destruct Hr0 as [->|[e ->]].
  2: { rewrite (bind_err _ _ _ _ _ E0). eexists _, s0, durable, lc, snaps, ms, n, meta. split; [done|]. split; [intros HR; by specialize (Hrel0 HR)|].
    split; [done|]. split; [|by left]. apply ticked_idle; [done|by left]. }
  destruct (Hfits ltac:(by rewrite E0)) as [[Hn Hsz] Hsm Hba Hst]. clear Hfits Hrel0. set (m := meta n) in *.
  assert (observed s m = set_buffer (drop_committed (fl_buffer s) (stream_position m)).2 s0) as Eobs by (unfold observed; by rewrite E0).
  rewrite Eobs in Hsm, Hba. set (s1 := set_buffer _ s0) in *.
  assert (sm_sequence m = n) as Hseq by (apply (ic_seq _ _ _ _ _ _ _ _ _ _ _ _ (hd_stands _ _ _ _ _ _ _ _ _ _ _ _ _ _ _ _ (ld_held _ _ _ _ _ _ _ _ _ _ Hld)))).
  assert (leading s1 evs durable lc snaps ms first lo n meta) as Hld1.
  { by apply leading_buffer. }
  rewrite (bind_ok _ _ _ _ _ E0). rewrite bind_unfold. cbn [modify]. rewrite Hb0. fold s1. cbn [from_option]. rewrite Hseq, wadd64_small by lia.
  assert (disk_objects (fl_disk s1) = disk_objects (fl_disk s)) as Ho1 by done.
  destruct (merges_lead lost now (stream_position m) s1 evs durable lc snaps ms first lo n meta Hld1 Hsm ltac:(lia))
    as (r2 & s2 & n2 & E2 & [(l2 & sn2 & ms2 & meta2 & Hld2 & Hre) Hb2 Hr2 Hz2] & Hrel2 & Hq); [rewrite Ho1; lia|].
  apply republished_position in Hre as [Hp2 Hs2].
  assert (ticked s evs durable m (meta2 n2) (fl_buffer s2) durable) as Hidle by (apply ticked_idle; [done|right; by rewrite Hb2]).
  destruct r2 as [q|e].
  2: { rewrite (bind_err _ _ _ _ _ E2). eexists _, s2, durable, l2, sn2, ms2, n2, meta2. split; [done|].
    split; [intros HR; by specialize (Hrel2 HR)|done]. }
  rewrite (Hq q eq_refl) in E2. rewrite (bind_ok _ _ _ _ _ E2), bind_unfold. cbn [gets]. rewrite Hb2.
  change (sealed (fl_buffer s1)) with (rest_segments s m). case_bool_decide as Hseg.
  { eexists _, s2, durable, l2, sn2, ms2, n2, meta2. split; [done|]. by split. }
  destruct (Hba s2 n2) as (pq & data & Hbf); [by intros E; rewrite E in Hseg|exact E2|].
  destruct (batch_leads now s2 evs durable l2 sn2 ms2 first lo n2 meta2 m (rest_segments s m) pq data Hld2 ltac:(lia)
    ltac:(rewrite Ho1 in Hz2; lia) Hst Hbf) as (r3 & s3 & E3 & Hrel3 & Hout). rewrite E3. destruct r3 as [[]|e].
  - destruct Hout as (l3 & sn3 & ms3 & m3 & Hld3 & Hpos & Hstr & Hbuf).
    exists (Ok tt), s3, evs, l3, sn3, ms3, (n2 + 1), (fun q => if q =? n2 + 1 then m3 else meta2 q). rewrite N.eqb_refl. split; [done|].
    split; [done|]. split; [done|]. split; [|by right]. apply ticked_batch; [exact Hpos|]. by rewrite Hbuf, Hb2.
  - destruct Hout as [Hld3 Hbuf]. exists (Err e), s3, durable, l2, sn2, ms2, n2, meta2. split; [done|].
    split; [intros HR; by specialize (Hrel3 HR)|]. split; [done|]. split; [by rewrite Hbuf|done].
Qed.

Context `{!ReliableStore St}.

(** A sweep leaves the leader as it was: what it serves from, and what the newest snapshot
    names. *)
Lemma swept_leads policy now_ms s evs durable lc snaps ms first lo n meta r v' :
  leading s evs durable lc snaps ms first lo n meta →
  Retention.collect snap_from_json (table_prefix cfg) policy now_ms (dk_view (fl_disk s)) = (r, v') →
  leading (set_disk (mkDisk v' (dk_files (fl_disk s))) s) evs durable lc snaps ms n lo n meta.
Proof using ObjectStoreLaws0 ReliableStore0.
  intros [Hh (l & sn & Hs & Hst)] Hc. split; [by eapply held_swept|]. exists l, sn. split; [by destruct Hs|]. by apply (stance_same s).
Qed.
End life.

(** Whether requests fail is nothing to what a leader has. *)
Lemma leading_same {St} (S1 S2 : ObjectStore St) snap_from_json to_json from_json uuid cfg parallelism reader reopened dir s evs durable lc
    snaps ms first lo n meta :
  @objects St S1 = @objects St S2 →
  @leading St S1 snap_from_json to_json from_json uuid cfg parallelism reader reopened dir s evs durable lc snaps ms first lo n meta →
  @leading St S2 snap_from_json to_json from_json uuid cfg parallelism reader reopened dir s evs durable lc snaps ms first lo n meta.
Proof. intros E [H1 H2]. split; [exact (held_same S1 S2 _ _ _ _ _ _ _ _ _ _ _ _ _ _ _ _ E H1)|done]. Qed.
