(* ===== verification/FlushRam.v ===== *)
(** The flush loop of a worker that serves from memory: no runs of its own, each commit a
    full snapshot, a restart that hydrates it. This is the default of the command line. *)

From S2P Require Import Prelude Types Bytes Stream Decimal ObjectStore Catalog CatalogInv CatalogProps CatalogLatest Buffer LocalRuns LocalRunsInv Flush FlushInv FlushTick FlushProps.
From S2P Require Import Graph Dsu RoutingBase Forest ForestInv Compaction CompactionInv FoldInv ForestProps Codec CodecInv CodecProps Puffin PuffinBase Layered Compact TierPolicy PuffinProps.

(** ** The catalog between commits *)

Section catalog.
Context {St : Type} `{!ObjectStore St, !ObjectStoreLaws St, !ReliableStore St}.
Context (snap_from_json : bytes → option SnapshotMeta) (prefix : Path).

Abbreviation dense' := (dense snap_from_json prefix).

(** The newest snapshot and its sequence: none yet, or the last of a catalog without holes. *)
Inductive catalog_at (v : CatalogView St) : option SnapshotMeta → N → Prop :=
| catalog_empty :
    cached_seq v = 0 → N.of_nat (size (objects (cv_store v))) < u64_limit - 1 →
    (∀ p o, objects (cv_store v) !! p = Some o → ¬ metadata_dir prefix `prefix_of` p) → catalog_at v None 0
| catalog_dense first n meta :
    dense' v first n meta → cached_seq v = 0 ∨ first <= cached_seq v <= n → sm_sequence (meta n) = n →
    catalog_at v (Some (meta n)) n.

Lemma latest_empty v :
  cached_seq v = 0 → (∀ p o, objects (cv_store v) !! p = Some o → ¬ metadata_dir prefix `prefix_of` p) →
  ∃ v', latest snap_from_json prefix v = (Ok None, v') ∧ cached_seq v' = 0 ∧ objects (cv_store v') = objects (cv_store v).
Proof using All.
  intros Hc Hn. unfold latest. rewrite bind_unfold. cbn [gets]. rewrite Hc. change (0 =? 0) with true. cbn match.
  pose proof (scan_objects prefix v) as Ho. unfold scan_latest_seq in *. rewrite bind_unfold in *.
  unfold on_store, attempt, zoom in *. rewrite bind_unfold in *.
  destruct (list_reliable (metadata_dir prefix) (cv_store v)) as [l Hl].
  pose proof (list_ok _ _ _ Hl) as Hm. destruct (os_list _ _) as [r st]. cbn in Hl. subst r.
  assert (l = []) as ->.
  { destruct l as [|m l]; [done|]. destruct (proj1 (Hm m) ltac:(left)) as (p & o & Hp & _ & Hpre & _). by apply Hn in Hp. }
  exists (mkView st (cached_seq v)). split; [done|]. split; [done|]. exact (proj1 Ho).
Qed.

Lemma catalog_latest v newest n :
  catalog_at v newest n →
  ∃ v', latest snap_from_json prefix v = (Ok newest, v') ∧ cached_seq v' = n ∧ objects (cv_store v') = objects (cv_store v).
Proof using All.
  intros [Hc _ Hn|first k meta Hd Hc _]; [by apply latest_empty|]. by eapply latest_dense.
Qed.

(** It only depends on the objects, for a view that is cold or has seen the newest. *)
Lemma catalog_view v newest n v' :
  catalog_at v newest n → objects (cv_store v') = objects (cv_store v) → cached_seq v' = 0 ∨ cached_seq v' = n →
  catalog_at v' newest n.
Proof using All.
  intros [Hc Hs Hn|first k meta Hd Hc Hk] Ho Hq.
  - apply catalog_empty; [by destruct Hq|by rewrite Ho|]. intros p o. rewrite Ho. apply Hn.
  - pose proof (ds_range _ _ _ _ _ _ Hd) as (R1 & R2 & R3). apply (catalog_dense v' first); [|destruct Hq; [by left|right; lia]|done].
    destruct Hd as [D1 D2 D3 D4]. split; rewrite ?Ho; done.
Qed.

Lemma catalog_next v newest n :
  catalog_at v newest n → objects (cv_store v) !! snap_path prefix (n + 1) = None.
Proof using All.
  intros [Hc _ Hn|first k meta Hd Hc _].
  - destruct (objects (cv_store v) !! _) as [o|] eqn:E; [|done]. exfalso. apply (Hn _ _ E), snap_path_under.
  - destruct (objects (cv_store v) !! _) as [o|] eqn:E; [|done]. exfalso. by apply (dense_next _ _ _ _ _ _ Hd).
Qed.

(** One more snapshot, and whatever else outside the metadata. *)
Lemma catalog_extend v newest n v' m o :
  catalog_at v newest n → n + 2 < u64_limit → N.of_nat (size (objects (cv_store v'))) < u64_limit - 1 →
  objects (cv_store v') !! snap_path prefix (n + 1) = Some o → snap_from_json (o_data o) = Some m → sm_sequence m = n + 1 →
  (∀ q, metadata_dir prefix `prefix_of` q → q ≠ snap_path prefix (n + 1) → objects (cv_store v') !! q = objects (cv_store v) !! q) →
  cached_seq v' = 0 ∨ cached_seq v' = n + 1 → catalog_at v' (Some m) (n + 1).
Proof using All.
  intros Hc Hn Hsz Ho Hj Hm Hsame Hq.
  assert (∃ first meta, dense' v' first (n + 1) (fun q => if q =? n + 1 then m else meta q)) as (first & meta & Hd).
  { destruct Hc as [_ _ Hnone|first k meta Hd _ _].
    - exists 1, (fun _ => m). split; [lia|done| |].
      + intros q Hq'. assert (q = 0 + 1) as -> by lia. exists o. by rewrite N.eqb_refl.
      + intros p o' q Hp Hpre Hl. destruct (decide (p = snap_path prefix (0 + 1))) as [->|Hne].
        * rewrite snap_path_last in Hl by lia. injection Hl as <-. lia.
        * rewrite Hsame in Hp by done. exfalso. by apply (Hnone _ _ Hp).
    - exists first, meta. by eapply dense_extend. }
  pose proof (catalog_dense v' first (n + 1) _ Hd) as H. cbn beta in H. rewrite N.eqb_refl in H.
  apply H; [|done]. destruct (ds_range _ _ _ _ _ _ Hd). lia.
Qed.
End catalog.

(** ** Hydration *)

Section hydration.
Context {St : Type} `{!ObjectStore St, !ObjectStoreLaws St, !ReliableStore St}.
Context (snap_from_json : bytes → option SnapshotMeta).
Context (to_json : FileMetadata → bytes) (from_json : bytes → option FileMetadata).
Context (json_roundtrip : ∀ m, from_json (to_json m) = Some m).
Context (cfg : Config).

(** A catalog whose newest snapshot is one full run hydrates to what was written. *)
Lemma hydrate_ok (v : CatalogView St) m n f evs opts props data (d : Disk St) (track : bool) :
  catalog_at snap_from_json (table_prefix cfg) v (Some m) n → 1 <= n → runs m = [] → format_version m = 0 → sm_base_sequence m = n → sm_sequence m = n →
  absorbed f evs → snap_fit (snapshot f).1 → N.of_nat (length (compact_locked (tier f)).1) < u64_limit →
  puffin_write to_json (compact_to_blobs f n opts) props = Ok data → N.of_nat (length data) < u64_limit →
  o_data <$> objects (cv_store v) !! puffin_path m = Some data → dk_view d = v →
  ∃ d', hydrate_from_catalog snap_from_json from_json cfg (if track then tracking_members forest_new else forest_new) d =
      (Ok (watermark m, hydrate (if track then tracking_members forest_new else forest_new) (snapshot f).1), d') ∧
    objects (cv_store (dk_view d')) = objects (cv_store (dk_view d)) ∧ cached_seq (dk_view d') = n.
Proof using All.
  intros Hc Hn Hr Hfv Hb Hs I Hfit Hlen Hw Hd Ho Hv. destruct (catalog_latest _ _ _ _ _ Hc) as (v' & Hlat & Hcv & Hov).
  unfold hydrate_from_catalog. rewrite (bind_ok _ _ d (Some m) (mkDisk v' (dk_files d))) by (apply disk_catalog_ok; by rewrite Hv).
  rewrite (bind_ok _ _ _ [mkRun (puffin_path m) 0 n n 0 0] (mkDisk v' (dk_files d))).
  2: { unfold committed_runs. assert (run_set m = Ok (SequencesOnly n n)) as ->.
    { unfold run_set. rewrite Hr, Hfv. cbn. unfold chain. rewrite Hb, Hs. destruct (N.eqb_spec n 0); [lia|done]. }
    rewrite bind_unfold. cbn [lift map_err]. replace (N.to_nat (n + 1 - n)) with 1%nat by lia. cbn [chain_runs].
    rewrite Hs, N.eqb_refl. done. }
  apply fmap_Some in Ho as (o & Ho & ->).
  pose proof (get_exact (puffin_path m) (cv_store v')) as Hg. rewrite Hov, Ho in Hg.
  pose proof (get_same (puffin_path m) (cv_store v')) as Hsame.
  destruct (os_get (puffin_path m) (cv_store v')) as [x st] eqn:E. cbn in Hg, Hsame. subst x.
  set (d1 := mkDisk (mkView st (cached_seq v')) (dk_files d)).
  exists d1. split; [|split; [cbn; rewrite Hsame, Hov, Hv; done|exact Hcv]].
  assert (puffin_read from_json (o_data o) = Ok (compact_to_blobs f n opts)) as Hread.
  { destruct (read_index_write to_json from_json json_roundtrip _ _ _ Hw Hd) as (idx & Hi & Hp).
    unfold puffin_read. rewrite Hi. cbn [mbind result_bind]. by apply copy_placed. }
  rewrite (bind_ok _ _ _ (hydrate (if track then tracking_members forest_new else forest_new) (snapshot f).1) d1); [done|].
  cbn [hydrate_runs run_path]. rewrite (bind_ok _ _ _ (o_data o) d1) by (by apply (disk_store_ok _ (mkDisk v' (dk_files d)))).
  rewrite bind_unfold. cbn [lift]. rewrite Hread. cbn [map_err]. rewrite bind_unfold. cbn [lift].
  rewrite compact_to_blobs_spec by (done || apply I).
  rewrite blobs_to_snapshot_spec by (done || apply em_sorted, I). done.
Qed.
End hydration.

(** ** A tick, and a restart from memory *)

Section ram.
Context {St : Type} `{!ObjectStore St, !ObjectStoreLaws St, !ReliableStore St, !EdgeSort}.
Context (snap_to_json : SnapshotMeta → bytes) (snap_from_json : bytes → option SnapshotMeta).
Context (snap_roundtrip : ∀ m, snap_from_json (snap_to_json m) = Some m).
Context (to_json : FileMetadata → bytes) (from_json : bytes → option FileMetadata).
Context (json_roundtrip : ∀ m, from_json (to_json m) = Some m).
Context (parquet : list (list Row) → option bytes) (uuid : nat → string).
Context (cfg : Config) (parallelism : nat) (reader : ScanReader) (reopened : bool).

Abbreviation disk_objects d := (objects (cv_store (dk_view d))).
Abbreviation catalog := (catalog_at snap_from_json (table_prefix cfg)).

(** A worker without a directory: it keeps no runs and merges none. *)
Record in_memory (s : Flusher St) (evs : list EdgeEvent) : Prop := {
  im_absorbed : absorbed (fl_forest s) evs;
  im_layers : fl_layers s = None;
  im_pending : fl_pending s = None;
}.

(** The buffer once sealed and pruned to the newest snapshot, and the position after it. *)
Definition ram_buffer (s : Flusher St) (newest : option SnapshotMeta) : EdgeBuffer :=
  let b := (seal_active (fl_buffer s)).2 in
  match newest with Some m => (drop_committed b (stream_position m)).2 | None => b end.

Definition ram_position (s : Flusher St) (newest : option SnapshotMeta) : StreamPosition :=
  pos_merge (from_option stream_position pos_new newest)
    (foldl (fun p sg => pos_merge p (sg_last sg)) pos_new (sealed (ram_buffer s newest))).

(** What the commit takes: a Parquet encoding, room, a run that fits its file, and a stream
    the catalog agrees with. *)
Record snapshot_ready (s : Flusher St) (newest : option SnapshotMeta) (n : N) (pq data : bytes) : Prop := {
  sr_parquet : parquet (sg_batch <$> sealed (ram_buffer s newest)) = Some pq;
  sr_room : N.of_nat (size (disk_objects (fl_disk s))) + 3 < u64_limit - 1 ∧ n + 2 < u64_limit;
  sr_fit : snap_fit (snapshot (fl_forest s)).1;
  sr_stream : N.of_nat (length (compact_locked (tier (fl_forest s))).1) < u64_limit;
  sr_written : puffin_write to_json (compact_to_blobs (fl_forest s) (n + 1) (write cfg))
    (puffin_metadata (ram_position s newest)) = Ok data;
  sr_length : N.of_nat (length data) < u64_limit;
  sr_same a b m : newest = Some m → cfg_stream cfg = Some a → sm_stream m = Some b → same_stream a b = true;
}.

(** The tick reaches the commit of its batch. *)
Lemma ram_tick_head lost now s evs newest n :
  in_memory s evs → base_dir cfg = None → catalog (dk_view (fl_disk s)) newest n → n + 2 < u64_limit →
  sealed (ram_buffer s newest) ≠ [] →
  ∃ s1, tick snap_to_json snap_from_json to_json from_json parquet uuid cfg parallelism reader reopened true lost now s =
      commit_batch snap_to_json to_json from_json parquet uuid cfg reader reopened now newest (n + 1)
        (sealed (ram_buffer s newest)) s1 ∧
    fl_forest s1 = fl_forest s ∧ fl_buffer s1 = ram_buffer s newest ∧ fl_layers s1 = None ∧ fl_pending s1 = None ∧
    fl_uuids s1 = fl_uuids s ∧ disk_objects (fl_disk s1) = disk_objects (fl_disk s) ∧ cached_seq (dk_view (fl_disk s1)) = n.
Proof using All.
  intros [I Hl Hp] Hdir Hc Hn Hseg. destruct (catalog_latest _ _ _ _ _ Hc) as (v' & Hlat & Hcv & Hov).
  set (s1 := set_buffer (ram_buffer s newest) (set_disk (mkDisk v' (dk_files (fl_disk s))) s)).
  exists s1. split_and!; try done. unfold tick. rewrite bind_unfold. cbn [modify].
  rewrite (bind_ok _ _ _ newest (set_disk (mkDisk v' (dk_files (fl_disk s))) (set_buffer (seal_active (fl_buffer s)).2 s)))
    by (apply on_disk_ok, disk_catalog_ok, Hlat).
  rewrite (bind_ok _ _ _ tt s1) by (by destruct newest).
  assert (from_option (fun m => sm_sequence m ⊞ 1) 1 newest = n + 1) as ->.
  { destruct Hc as [|first k meta Hd _ Hk]; [done|]. cbn. rewrite Hk. apply wadd64_small. lia. }
  cbn [negb]. rewrite (bind_ok _ _ _ (n + 1) s1).
  2: { unfold tick_merges. rewrite (bind_ok _ _ _ false s1) by (apply adopt_none; intros q Hq; cbn in Hq; congruence).
    rewrite (bind_ok _ _ _ tt s1) by (unfold start_merge; by rewrite Hdir).
    destruct (inline_merges cfg); [|done]. rewrite (bind_ok _ _ _ tt s1).
    2: { unfold wait_for_merge, modify, finish_merge. change (fl_pending s1) with (fl_pending s). by rewrite Hp. }
    by rewrite (bind_ok _ _ _ false s1) by (apply adopt_none; intros q Hq; cbn in Hq; congruence). }
  rewrite bind_unfold. cbn [gets]. change (sealed (fl_buffer s1)) with (sealed (ram_buffer s newest)).
  rewrite bool_decide_eq_false_2; [done|]. intros E. by apply nil_length_inv in E.
Qed.

Lemma ram_commit_ok now s evs newest n pq data :
  in_memory s evs → base_dir cfg = None → catalog (dk_view (fl_disk s)) newest n →
  snapshot_ready s newest n pq data →
  ∀ s1, fl_forest s1 = fl_forest s → fl_buffer s1 = ram_buffer s newest → fl_layers s1 = None → fl_pending s1 = None →
    fl_uuids s1 = fl_uuids s → disk_objects (fl_disk s1) = disk_objects (fl_disk s) → cached_seq (dk_view (fl_disk s1)) = n →
  ∃ s' m, commit_batch snap_to_json to_json from_json parquet uuid cfg reader reopened now newest (n + 1)
      (sealed (ram_buffer s newest)) s1 = (Ok tt, s') ∧
    fl_forest s' = fl_forest s ∧ fl_layers s' = None ∧ fl_pending s' = None ∧
    fl_buffer s' = (drop_committed (ram_buffer s newest) (ram_position s newest)).2 ∧
    catalog (dk_view (fl_disk s')) (Some m) (n + 1) ∧ stream_position m ≡ ram_position s newest ∧ sm_stream m = cfg_stream cfg ∧
    runs m = [] ∧ format_version m = 0 ∧ sm_base_sequence m = n + 1 ∧
    o_data <$> disk_objects (fl_disk s') !! puffin_path m = Some data.
Proof using All.
  intros [I Hl Hp] Hdir Hc [Bp [Bz Bn] Bfit Blen Bw Bd Bst] s1 Ef Eb El Epd Eu Eo Eq.
  set (k := fl_uuids s) in *. set (position := ram_position s newest) in *. set (segments := sealed (ram_buffer s newest)) in *.
  set (dp := data_object_path (table_prefix cfg) (n + 1) (uuid k)).
  set (op := run_object_path (table_prefix cfg) (n + 1) (uuid (S k))).
  assert (¬ metadata_dir (table_prefix cfg) `prefix_of` dp) as Hnd by (by apply not_metadata).
  assert (¬ metadata_dir (table_prefix cfg) `prefix_of` op) as Hno by (by apply not_metadata).
  destruct (put_disk_ok dp pq (set_uuids (S k) s1)) as (d1 & P1 & S1 & F1 & C1). cbn in S1, C1.
  set (s2 := set_disk d1 (set_uuids (S k) s1)) in *.
  destruct (put_disk_ok op data (set_uuids (S (S k)) s2)) as (d2 & P2 & S2 & F2 & C2). cbn in S2, C2.
  set (s3 := set_disk d2 (set_uuids (S (S k)) s2)) in *.
  set (m := batch_snapshot cfg now (n + 1) position (low_of (sg_first <$> segments))
    (foldl (fun p sg => pos_merge p (sg_last sg)) pos_new segments) dp (N.of_nat (length pq))
    (foldl (fun rows s => rows ⊞ N.of_nat (length (sg_batch s))) 0 segments) op (n + 1) []).
  assert (disk_objects (fl_disk s3) !! snap_path (table_prefix cfg) (sm_sequence m) = None) as Habs.
  { change (disk_objects d2 !! snap_path (table_prefix cfg) (n + 1) = None).
    rewrite (stored_other _ _ _ _ _ S2) by (symmetry; by apply not_snap_path).
    rewrite (stored_other _ _ _ _ _ S1) by (symmetry; by apply not_snap_path). rewrite Eo. by eapply catalog_next. }
  destruct (commit_disk_ok snap_to_json (table_prefix cfg) m s3 Habs) as (d3 & P3 & S3 & F3 & C3).
  set (s' := set_layers None (set_buffer (drop_committed (ram_buffer s newest) position).2 (set_disk d3 s3))).
  exists s', m. split.
  { unfold commit_batch. cbv zeta. change (pos_merge (from_option stream_position pos_new newest) (foldl (fun p sg => pos_merge p (sg_last sg)) pos_new segments)) with position.
    unfold segments_to_parquet. rewrite Bp. rewrite (bind_ok _ _ s1 (pq, _) s1) by done.
    rewrite (bind_ok _ _ s1 (uuid k) (set_uuids (S k) s1)) by (unfold new_uuid; rewrite bind_unfold; cbn [gets]; by rewrite Eu).
    cbn [fst snd]. fold dp. rewrite (bind_ok _ _ _ _ _ P1).
    rewrite (bind_ok _ _ s2 None s2) by (unfold fold; by rewrite Hdir). cbn match.
    rewrite (bind_ok _ _ s2 (data, FoldBase) s2).
    2: { rewrite bind_unfold. cbn [gets]. change (fl_forest s2) with (fl_forest s1). rewrite Ef, bind_unfold.
      by rewrite Bw. }
    rewrite (bind_ok _ _ s2 (uuid (S k)) (set_uuids (S (S k)) s2)) by done. cbn [fst snd]. fold op.
    rewrite (bind_ok _ _ _ _ _ P2). rewrite (bind_ok _ _ s3 None s3) by (unfold gets; f_equal; f_equal; exact El). cbn match.
    fold m. rewrite (bind_ok _ _ s3 tt s3).
    2: { unfold lift. destruct newest as [m0|]; [|done]. unfold m. rewrite batch_advances; [done|apply pos_merge_covers|].
      intros a b. by apply Bst. }
    rewrite (bind_ok _ _ _ _ _ P3). cbn match. unfold modify. rewrite bind_unfold. f_equal. unfold s'.
    change (fl_buffer (set_disk d3 s3)) with (fl_buffer s1). rewrite Eb.
    change (fl_layers (set_buffer _ (set_disk d3 s3))) with (fl_layers s1). by rewrite El. }
  assert (op ≠ snap_path (table_prefix cfg) (n + 1)) as Hop by (by apply not_snap_path).
  split_and!; try done.
  - destruct S3 as [t S3]. eapply (catalog_extend snap_from_json (table_prefix cfg) (dk_view (fl_disk s)) newest n _ m); try done.
    + change (N.of_nat (size (disk_objects d3)) < u64_limit - 1).
      pose proof (stored_size _ _ _ _ S1) as Z1. pose proof (stored_size _ _ _ _ S2) as Z2.
      assert (size (disk_objects d3) ≤ S (size (disk_objects d2)))%nat by (eapply stored_size; eexists; exact S3).
      change (fl_disk s1) with (fl_disk s1) in Z1. rewrite Eo in Z1. change (fl_disk s2) with d1 in Z2. lia.
    + change (disk_objects (fl_disk s')) with (disk_objects d3). rewrite S3. apply lookup_insert_eq.
    + apply snap_roundtrip.
    + intros q Hq Hne. change (disk_objects (fl_disk s')) with (disk_objects d3). rewrite S3, lookup_insert_ne by done.
      change (disk_objects (fl_disk s3)) with (disk_objects d2).
      rewrite (stored_other _ _ _ _ _ S2) by (intros ->; done). change (fl_disk s2) with d1.
      rewrite (stored_other _ _ _ _ _ S1) by (intros ->; done). by rewrite Eo.
    + right. change (cached_seq (dk_view d3) = n + 1). rewrite C3. change (fl_disk s3) with d2. rewrite C2.
      change (fl_disk (set_uuids (S (S k)) s2)) with d1. rewrite C1. change (fl_disk (set_uuids (S k) s1)) with (fl_disk s1).
      rewrite Eq. change (sm_sequence m) with (n + 1). lia.
  - apply batch_position.
  - change (o_data <$> disk_objects d3 !! op = Some data). destruct S3 as [t S3]. rewrite S3, lookup_insert_ne by done.
    by apply stored_same in S2.
Qed.

(** The tick, and the catalog it leaves. *)
Lemma ram_tick_ok s evs newest n pq data lost now :
  in_memory s evs → base_dir cfg = None → catalog (dk_view (fl_disk s)) newest n →
  sealed (ram_buffer s newest) ≠ [] → snapshot_ready s newest n pq data →
  ∃ s' m, tick snap_to_json snap_from_json to_json from_json parquet uuid cfg parallelism reader reopened true lost now s =
      (Ok tt, s') ∧
    in_memory s' evs ∧ catalog (dk_view (fl_disk s')) (Some m) (n + 1) ∧ stream_position m ≡ ram_position s newest ∧
    fl_forest s' = fl_forest s ∧
    fl_buffer s' = (drop_committed (ram_buffer s newest) (ram_position s newest)).2 ∧ sm_stream m = cfg_stream cfg ∧
    ∀ cfg' st (track : bool), table_prefix cfg' = table_prefix cfg → objects st = disk_objects (fl_disk s') →
      ∃ f d', hydrate_from_catalog snap_from_json from_json cfg' (if track then tracking_members forest_new else forest_new)
          (mkDisk (mkView st 0) ∅) = (Ok (watermark m, f), d') ∧ absorbed f evs ∧
        disk_objects d' = objects st ∧ catalog (dk_view d') (Some m) (n + 1).
Proof using All.
  intros Hm Hdir Hc Hseg Hr. pose proof Hm as [I Hl Hp]. pose proof Hr as [_ [_ Hn] Hfit Hlen Hw Hd _].
  destruct (ram_tick_head lost now s evs newest n Hm Hdir Hc Hn Hseg) as (s1 & -> & E1 & E2 & E3 & E4 & E5 & E6 & E7).
  destruct (ram_commit_ok now s evs newest n pq data Hm Hdir Hc Hr s1 E1 E2 E3 E4 E5 E6 E7)
    as (s' & m & -> & F1 & F2 & F3 & F4 & F5 & F6 & Fs & F7 & F8 & F9 & F10).
  exists s', m. split; [done|]. split; [split; [by rewrite F1|done|done]|]. do 5 (split; [done|]).
  intros cfg' st track Hcfg Hst.
  assert (∀ v : CatalogView St, objects (cv_store v) = objects st → cached_seq v = 0 ∨ cached_seq v = n + 1 →
    catalog v (Some m) (n + 1)) as Hcat.
  { intros v Hv Hq. eapply catalog_view; [exact F5|by rewrite Hv, Hst|exact Hq]. }
  assert (sm_sequence m = n + 1) as Hseq by (by inversion F5).
  pose proof (Hcat (mkView st 0) eq_refl ltac:(by left)) as Hcold.
  destruct (hydrate_ok snap_from_json to_json from_json json_roundtrip cfg' (mkView st 0) m (n + 1) (fl_forest s) evs (write cfg)
    (puffin_metadata (ram_position s newest)) data (mkDisk (mkView st 0) ∅) track) as (d' & Eh & Ho & Hq); try done; [by rewrite Hcfg|lia|cbn; by rewrite Hst|].
  eexists _, d'. split; [exact Eh|]. split; [by apply hydrate_snapshot_absorbed|]. split; [exact Ho|].
  apply Hcat; [exact Ho|by right].
Qed.

(** A leader that serves from memory, which is the default, publishes what it serves. On
    a store that answers, whether its table has a snapshot yet or not, its tick succeeds,
    commits the next sequence as one full run, changes no answer, prunes what the commit
    covers and leaves the worker as the theorem asks it to be for the next tick; and any
    worker that then hydrates from the store, tracking members or not, absorbs exactly the
    leader's events and answers every query as the leader does. *)
Theorem ram_tick_then_cold_start (s : Flusher St) (evs : list EdgeEvent) (newest : option SnapshotMeta) (n : N)
    (pq data : bytes) (lost : bool) (now : Z) :
  in_memory s evs → base_dir cfg = None → catalog (dk_view (fl_disk s)) newest n →
  sealed (ram_buffer s newest) ≠ [] → snapshot_ready s newest n pq data →
  ∃ s' m, tick snap_to_json snap_from_json to_json from_json parquet uuid cfg parallelism reader reopened true lost now s =
      (Ok tt, s') ∧
    in_memory s' evs ∧ catalog (dk_view (fl_disk s')) (Some m) (n + 1) ∧ stream_position m ≡ ram_position s newest ∧
    fl_forest s' = fl_forest s ∧
    fl_buffer s' = (drop_committed (ram_buffer s newest) (ram_position s newest)).2 ∧
    ∀ st (track : bool), objects st = disk_objects (fl_disk s') →
      ∃ f d', hydrate_from_catalog snap_from_json from_json cfg (if track then tracking_members forest_new else forest_new)
          (mkDisk (mkView st 0) ∅) = (Ok (watermark m, f), d') ∧
        absorbed f evs ∧ ∀ sc x, (scope_root f sc x).1 = (scope_root (fl_forest s) sc x).1.
Proof using All.
  intros Hm Hdir Hc Hseg Hr. destruct (ram_tick_ok s evs newest n pq data lost now Hm Hdir Hc Hseg Hr)
    as (s' & m & Ht & Hm' & Hc' & Hpos & Hf & Hb & _ & Hcold).
  exists s', m. do 6 (split; [done|]). intros st track Hst.
  destruct (Hcold cfg st track eq_refl Hst) as (f & d' & Eh & Ha & _). exists f, d'. split; [done|]. split; [done|].
  intros sc x. eapply absorbed_root_eq; [exact Ha|apply Hm|done].
Qed.
End ram.

(** ** At work: the first commit of a table *)

Definition ram_cfg : Config := mkConfig ["t"] "w" None None 1000 24 10 demo_opts true.

Definition ram_worker : Flusher Memory :=
  mkFlusher demo_state (append (append (append buffer_new 0 1 (ev 9 5 Global)) 0 2 (ev 9 8 (Scoped [7]))) 0 3 (ev 5 1 Global))
    (mkDisk (mkView (mkMemory ∅ 6) 0) ∅) None None 0.

Definition ram_file : bytes :=
  match puffin_write demo_to_json (compact_to_blobs demo_state 1 demo_opts)
    (puffin_metadata (@ram_position Memory merge_edge_sort ram_worker None)) with
  | Ok d => d | Err _ => [] end.

Lemma ram_catalog : catalog_at demo_snap_from_json ["t"] (dk_view (fl_disk ram_worker)) None 0.
Proof. apply catalog_empty; [exact eq_refl|by vm_compute|]. intros p o Hp. cbn in Hp. rewrite lookup_empty in Hp. discriminate Hp. Qed.

Lemma ram_sealed : sealed (@ram_buffer Memory merge_edge_sort ram_worker None) ≠ [].
Proof.
  assert (length (sealed (@ram_buffer Memory merge_edge_sort ram_worker None)) = 1%nat) as Hl by (by vm_compute).
  intros E. rewrite E in Hl. discriminate Hl.
Qed.

Lemma ram_file_written :
  puffin_write demo_to_json (compact_to_blobs demo_state 1 demo_opts)
    (puffin_metadata (@ram_position Memory merge_edge_sort ram_worker None)) = Ok ram_file.
Proof.
  assert (is_ok (puffin_write demo_to_json (compact_to_blobs demo_state 1 demo_opts)
    (puffin_metadata (@ram_position Memory merge_edge_sort ram_worker None))) = true) as H by (by vm_compute).
  unfold ram_file. destruct (puffin_write _ _ _); [done|discriminate H].
Qed.

Lemma ram_tick_then_cold_start_witness :
  let out := @tick Memory memory_store merge_edge_sort demo_snap_to_json demo_snap_from_json demo_to_json demo_from_json
    demo_parquet demo_uuid ram_cfg 1 Buffered true true false 7 ram_worker in
  out.1 = Ok tt ∧
  ∃ w f d', hydrate_from_catalog demo_snap_from_json demo_from_json ram_cfg (tracking_members forest_new)
      (mkDisk (mkView (cv_store (dk_view (fl_disk out.2))) 0) ∅) = (Ok (w, f), d') ∧
    ∀ sc x, (scope_root f sc x).1 = (scope_root demo_state sc x).1.
Proof.
  intros out.
  destruct (@ram_tick_then_cold_start Memory memory_store memory_laws memory_reliable merge_edge_sort demo_snap_to_json
    demo_snap_from_json demo_snap_roundtrip demo_to_json demo_from_json demo_json demo_parquet demo_uuid ram_cfg 1 Buffered true
    ram_worker demo_events None 0 [1] ram_file false 7) as (s' & m & Ht & _ & _ & _ & _ & _ & Hcold).
  - split; [exact demo_absorbed|exact eq_refl|exact eq_refl].
  - exact eq_refl.
  - exact ram_catalog.
  - exact ram_sealed.
  - split; [by vm_compute|by vm_compute|exact demo_fit|by vm_compute|exact ram_file_written|by vm_compute|].
    intros a b m0 E. discriminate E.
  - unfold out. rewrite Ht. split; [exact eq_refl|].
    destruct (Hcold (cv_store (dk_view (fl_disk s'))) true eq_refl) as (f & d' & Eh & _ & Hroots).
    exists (watermark m), f, d'. exact (conj Eh Hroots).
Defined.
