(* ===== verification/FlushFindings.v ===== *)
(** Runs of the flush loop that do not do what its comments promise. *)

From S2P Require Import Prelude Types Bytes Stream Decimal ObjectStore Catalog CatalogInv CatalogProps CatalogLatest Buffer LocalRuns LocalRunsInv Flush FlushInv FlushTick FlushProps.
From S2P Require Import Graph Dsu RoutingBase Forest ForestInv Compaction CompactionInv FoldInv ForestProps Codec Puffin PuffinBase Layered Compact TierPolicy.
From S2P Require Import CodecProps PuffinServe PuffinProps LayeredInv LayeredServe LayeredProps.

(** ** A takeover leaves a hole

    Another worker has committed sequence 2 since this one's stack was committed, as
    happens to a follower that has not folded and to a leader that lost the lease. *)

Definition other_committed : SnapshotMeta :=
  mkSnapshot 2 0 11 (single 11) None [] demo_object "v" 2 0 [mkRun demo_object 1 1 2 9 9] 1.

Definition takeover_store : Memory :=
  mkMemory (<[snap_path ["t"] 2 := mkObject (demo_snap_to_json other_committed) 5]> (mem_objects demo_store)) 6.

Definition takeover : Flusher Memory :=
  mkFlusher demo_next (append buffer_new 0 12 (ev 1 0 Global)) (mkDisk (mkView takeover_store 1) ∅) (Some demo_led) None 0.

Definition leader_tick (store : ObjectStore Memory) (s : Flusher Memory) : result flush_error unit * Flusher Memory :=
  @tick Memory store merge_edge_sort demo_snap_to_json demo_snap_from_json demo_to_json demo_from_json
    demo_parquet demo_uuid demo_cfg 1 Buffered true true false 7 s.

Definition takeover_tick : result flush_error unit * Flusher Memory := leader_tick memory_store takeover.

(** The runs of a snapshot's metadata object, as spans. *)
Definition spans_at (st : Memory) (sequence : N) : option (list (N * N)) :=
  o ← mem_objects st !! snap_path ["t"] sequence;
  m ← demo_snap_from_json (o_data o);
  Some ((fun r => (min_sequence r, max_sequence r)) <$> runs m).

(** The new leader's stack is all committed, so its tick folds a delta; the commit is
    accepted as sequence 3 over a stack that ends at 1, sequence 2 is in no run, and no
    cold start can read the catalog any more: [run_set] refuses the snapshot. *)
Lemma takeover_unreadable :
  takeover_tick.1 = Ok tt ∧
  spans_at (cv_store (dk_view (fl_disk takeover_tick.2))) 3 = Some [(1, 1); (3, 3)] ∧
  is_ok (open_base_from_catalog demo_snap_from_json demo_from_json demo_cfg Buffered true "e"
    (mkDisk (mkView (cv_store (dk_view (fl_disk takeover_tick.2))) 0) ∅)).1 = false ∧
  is_ok (hydrate_from_catalog demo_snap_from_json demo_from_json demo_cfg forest_new
    (mkDisk (mkView (cv_store (dk_view (fl_disk takeover_tick.2))) 0) ∅)).1 = false.
Proof. split_and!; by vm_compute. Qed.

(** ** A follower that folds twice at one sequence unlinks its own run

    While the catalog stands still a follower's folds all carry the same sequence, and
    from its second local-only fold on they are all full folds, so they all have the same
    file name: the new file replaces the old one, and is then unlinked as superseded. *)

Definition eager_cfg : Config := mkConfig ["t"] "w" None (Some "d") 0 24 10 demo_opts false.

Definition follower_tick (s : Flusher Memory) : Flusher Memory :=
  (@tick Memory memory_store merge_edge_sort demo_snap_to_json demo_snap_from_json demo_to_json demo_from_json
    demo_parquet demo_uuid eager_cfg 1 Buffered true false false 7 s).2.

Definition files_of_stack (s : Flusher Memory) : list (string * bool) :=
  match fl_layers s with
  | None => []
  | Some l => (fun r => (lr_path r, bool_decide (is_Some (dk_files (fl_disk s) !! lr_path r)))) <$> ll_runs l
  end.

Lemma refold_unlinks_itself :
  let s2 := follower_tick (follower_tick demo_worker) in
  files_of_stack s2 = [("d/routing-w-000000000002-base.puffin", true)] ∧
  files_of_stack (follower_tick s2) = [("d/routing-w-000000000002-base.puffin", false)].
Proof. split; by vm_compute. Qed.

(** ** A finished merge that cannot be described is thrown away

    A merge has finished while a fold whose commit was lost is on the stack. It is taken
    out of the pending slot, not published and not put back, and its file stays. *)

Definition merged_pending : PendingMerge :=
  mkPending demo_stack 2 ∅ (Some (Ok (mkMergeResult [1; 2; 3] (mkStats 0 0 0 0 0 0)))) ["d/r1"] 1 (1, 1) "d/m".

Definition undescribable : Flusher Memory :=
  mkFlusher demo_next buffer_new (mkDisk (mkView demo_store 1) {["d/m" := [1; 2; 3]]})
    (Some (mkLocalLayers (mkLayered [demo_layer; demo_layer]) [demo_run_local; mkLocal "d/x" None 0 2 2 1 1]))
    (Some merged_pending) 0.

Lemma undescribable_merge_dropped :
  let out := adopt_merge demo_snap_to_json demo_from_json demo_uuid demo_cfg Buffered true 7 2 (single 10) undescribable in
  out.1 = Ok false ∧ fl_pending out.2 = None ∧ dk_files (fl_disk out.2) !! "d/m" = Some [1; 2; 3].
Proof. split_and!; by vm_compute. Qed.

(** ** An adoption whose commit is not known to have taken effect leaves a hole

    The create of an adopted merge's snapshot gets through and its answer does not, which
    the store's contract allows. *)

Definition unheard_store : ObjectStore Memory :=
  Build_ObjectStore Memory mem_objects mem_get mem_head mem_put (fun p b st => (Err StoreFailure, (mem_create p b st).2)) mem_delete mem_list.

Lemma unheard_laws : @ObjectStoreLaws Memory unheard_store.
Proof.
  destruct memory_laws as [H1 H2 H3 H4 H5 H6 H7 H8 H9 H10 H11 H12 H13 H14 H15 H16].
  split; try done. intros p b st e _. cbn. specialize (H11 p b st). cbn in H9, H10, H11.
  destruct (mem_create p b st) as [[[]|e'] st'] eqn:E; cbn in *.
  - right. specialize (H9 p b st). rewrite E in H9. by apply H9.
  - by eapply H11.
Qed.

Definition adopting : Flusher Memory :=
  mkFlusher demo_next (append buffer_new 0 4 (ev 1 0 Global)) (mkDisk (mkView demo_store 1) {["d/m" := demo_run]}) (Some demo_led)
    (Some (mkPending demo_stack 2 ∅ (Some (Ok (mkMergeResult demo_run (mkStats 0 0 0 0 0 0)))) ["d/r1"] 1 (1, 1) "d/m")) 0.

(** The tick fails with the leader's stack as it was, all of it committed. The next one finds
    the snapshot, folds a delta over it all the same, and its commit is accepted over a run
    set that says nothing of sequence 2: no cold start can read the catalog any more. *)
Lemma unheard_adoption_unreadable :
  let torn := leader_tick unheard_store adopting in
  let next := leader_tick memory_store torn.2 in
  is_ok torn.1 = false ∧ from_option fully_committed false (fl_layers torn.2) = true ∧ next.1 = Ok tt ∧
  spans_at (cv_store (dk_view (fl_disk next.2))) 2 = Some [(1, 2)] ∧
  spans_at (cv_store (dk_view (fl_disk next.2))) 3 = Some [(1, 1); (3, 3)] ∧
  is_ok (open_base_from_catalog demo_snap_from_json demo_from_json demo_cfg Buffered true "e"
    (mkDisk (mkView (cv_store (dk_view (fl_disk next.2))) 0) ∅)).1 = false.
Proof. intros torn next. split_and!; by vm_compute. Qed.
