(* ===== verification/Start.v ===== *)
(** The start of a worker: [src/main.rs], up to the point where it ingests.

    [start] is [main] with its arguments decoded: it picks the store, puts the probe before
    the catalog, opens the committed state, checks that the offsets of the catalog are
    measured in the stream it is configured for, and resumes the log at the committed
    position. The machine's files are the store behind the warehouse, the worker's data
    directory and the log; [Path::from] of the object-store crate is a parameter. The
    tasks [main] spawns (flusher, retention, servers, consumer) are other files' subject;
    what it hands them is computed here. *)

From S2P Require Import Prelude Types Bytes Stream Decimal ObjectStore Conformance Catalog Retention Buffer Pipeline Log LocalRuns Flush.
From S2P Require Import RoutingBase Forest Registry MemberIndex Codec Puffin PuffinBase Layered.

(** [Args]. *)
Record Args := mkArgs {
  listen : string;
  grpc_listen : string;
  warehouse : string;
  table : string;
  routing_base : string;
  data_dir : string;
  arg_fold_after : N;
  arg_max_delta_layers : nat;
  arg_tier_fanout : nat;
  arg_inline_merges : bool;
  arg_filter_bits : N;
  arg_registry : RegistryEncoding;
  arg_member_index : bool;
  allow_unsafe_commits : bool;
  allow_stream_change : bool;
  retention_interval_secs : N;
  arg_keep_snapshots : nat;
  keep_snapshots_hours : N;
  retention_grace_secs : N;
  edge_log : option string;
  edge_log_follow : bool;
  edge_log_batch : nat;
  flush_interval_secs : N;
  arg_worker_id : option string;
  simulate : bool;
  arg_sim_rate : N;
  arg_sim_nodes : N;
  arg_sim_scopes : N;
  election : string;
  k8s_namespace : string;
  k8s_lease : string;
}.

(** ** The warehouse *)

(** [str::starts_with], [trim_start_matches] and [trim_end_matches] of a character,
    [split_once] and the first piece of [split]. *)
Definition starts_with (p s : string) : bool := bool_decide (is_Some (strip_prefix p s)).

Fixpoint trim_start_go (fuel : nat) (p s : string) : string :=
  match fuel with
  | O => s
  | S fuel => match strip_prefix p s with Some rest => trim_start_go fuel p rest | None => s end
  end.

Definition trim_start_matches (p s : string) : string := trim_start_go (String.length s) p s.

Definition slash : Ascii.ascii := Ascii.ascii_of_N 47.

Fixpoint trim_end_slashes (s : string) : string :=
  match s with
  | String.EmptyString => String.EmptyString
  | String.String c s =>
      match trim_end_slashes s with
      | String.EmptyString => if Ascii.eqb c slash then String.EmptyString else String.String c String.EmptyString
      | s => String.String c s
      end
  end.

Fixpoint split_once (s : string) : option (string * string) :=
  match s with
  | String.EmptyString => None
  | String.String c s =>
      if Ascii.eqb c slash then Some (String.EmptyString, s)
      else '(a, b) ← split_once s; Some (String.String c a, b)
  end.

Definition split_first (s : string) : string := from_option fst s (split_once s).

Inductive start_error :=
| UnsupportedWarehouse
| MissingBucket
| CannotArbitrate (e : ConformanceError)
| StartFlush (e : flush_error)
| StartCatalog (e : catalog_error)
| UnknownRoutingBase
| UnknownElection
| StreamChanged
| SimulateWithLog
| StartLog (e : ingest_error).

(** [s3_bucket]. *)
Definition s3_bucket (uri : string) : result start_error string :=
  let rest := trim_start_matches "s3://" uri in
  let bucket := split_first rest in
  _ ← ensure (negb (bool_decide (bucket = ""))) MissingBucket;
  Ok bucket.

Inductive StoreKind := LocalFileSystem (path : string) | InMemory | AmazonS3 (bucket : string).

(** [build_store]: which store, before it is opened. *)
Definition build_store (uri : string) : result start_error StoreKind :=
  match strip_prefix "file://" uri with
  | Some path => Ok (LocalFileSystem path)
  | None =>
      if starts_with "memory://" uri then Ok InMemory
      else if starts_with "s3://" uri then bucket ← s3_bucket uri; Ok (AmazonS3 bucket)
      else Err UnsupportedWarehouse
  end.

(** The policy the retention loop is given; [Duration::from_secs] takes a [u64]. *)
Definition retention_policy (args : Args) : RetentionPolicy :=
  mkPolicy (arg_keep_snapshots args) (Z.of_N (keep_snapshots_hours args ⊠ 3600) * 1000)
    (Z.of_N (retention_grace_secs args) * 1000).

(** The election modes of a build without the [k8s] feature. *)
Definition elector (mode : string) : result start_error bool :=
  if bool_decide (mode = "static:true") then Ok true
  else if bool_decide (mode = "static:false") then Ok false
  else Err UnknownElection.

(** The stream a log names. *)
Definition stream_id (args : Args) : option StreamId := (fun path => mkStream "file" path None) <$> edge_log args.

(** What is at the path of the log. *)
Inductive LogPath := LogDirectory (entries : list (string * bytes)) | LogFile (content : bytes) | NoLog.

(** Where a started worker gets its edges. *)
Inductive Ingest := FromParts (log : PartitionedLog) | FromFile (log : FileLog) | FromChannel.

Record Worker := mkWorker {
  wk_pipeline : Pipeline;
  wk_layers : option LocalLayers;
  wk_leader : bool;
  wk_ingest : Ingest;
}.

Section start.
Context {St : Type} `{!ObjectStore St, !RacingStore St}.
Context (snap_from_json : bytes → option SnapshotMeta) (from_json : bytes → option FileMetadata).
Context (path_from : string → Path) (reader : ScanReader) (reopened : bool).
Context (log_at : string → LogPath).

(** [s3_table_prefix], and the prefix of the other stores. *)
Definition s3_table_prefix (uri tbl : string) : Path :=
  let rest := trim_start_matches "s3://" uri in
  match split_once rest with
  | Some (_, prefix) =>
      if negb (bool_decide (prefix = "")) then path_from (String.append (trim_end_slashes prefix) (String.append "/" tbl))
      else path_from tbl
  | None => path_from tbl
  end.

Definition prefix_of_args (args : Args) : Path :=
  if starts_with "s3://" (warehouse args) then s3_table_prefix (warehouse args) (table args) else path_from (table args).

(** The settings [main] builds the [Flusher] with. *)
Definition config_of (args : Args) (worker : string) : Config :=
  mkConfig (prefix_of_args args) worker (stream_id args)
    (if bool_decide (routing_base args = "disk") then Some (data_dir args) else None)
    (arg_fold_after args) (arg_max_delta_layers args) (arg_tier_fanout args)
    (mkOptions (arg_filter_bits args) (arg_registry args) (arg_member_index args) MemBlocked) (arg_inline_merges args).

Abbreviation start_io := (io (Disk St) start_error).

Definition on_catalog {A} (m : io (CatalogView St) catalog_error A) : start_io A :=
  io_map_err StartCatalog (zoom dk_view (fun v d => mkDisk v (dk_files d)) m).

Definition on_probe {A} (m : io St ConformanceError A) : start_io A :=
  io_map_err CannotArbitrate (zoom (fun d => cv_store (dk_view d))
    (fun st d => mkDisk (mkView st (cached_seq (dk_view d))) (dk_files d)) m).

Definition new_forest (args : Args) (f : ScopedForest) : ScopedForest :=
  if arg_member_index args then tracking_members f else f.

(** The committed state: hydrated into the heap, or mapped from the data directory. *)
Definition open_forest (args : Args) (cfg : Config) : start_io (ScopedForest * N * option LocalLayers) :=
  if bool_decide (routing_base args = "ram") then
    '(mark, f) ← io_map_err StartFlush (hydrate_from_catalog snap_from_json from_json cfg (new_forest args forest_new));
    mret (f, mark, None)
  else if bool_decide (routing_base args = "disk") then
    opened ← io_map_err StartFlush (open_base_from_catalog snap_from_json from_json cfg reader reopened (data_dir args));
    match opened with
    | Some (base, mark, local) => mret (new_forest args (with_base (layered_routing base)), mark, Some local)
    | None => mret (new_forest args forest_new, 0, None)
    end
  else io_fail UnknownRoutingBase.

(** Offsets are only meaningful in the stream that assigned them. *)
Definition check_stream (args : Args) (cfg : Config) : start_io unit :=
  match stream_id args with
  | None => mret tt
  | Some id =>
      newest ← on_catalog (latest snap_from_json (table_prefix cfg));
      match newest ≫= sm_stream with
      | Some committed => if negb (same_stream committed id) && negb (allow_stream_change args) then io_fail StreamChanged else mret tt
      | None => mret tt
      end
  end.

(** The log, opened and moved to the position to resume after. *)
Definition open_ingest (args : Args) (start : StreamPosition) : result start_error Ingest :=
  match edge_log args with
  | Some path =>
      if simulate args then Err SimulateWithLog
      else
        match log_at path with
        | LogDirectory entries =>
            log ← map_err StartLog (open_dir entries (edge_log_follow args));
            match parts_seek log start with
            | (Ok _, log) => Ok (FromParts log)
            | (Err e, _) => Err (StartLog e)
            end
        | LogFile content =>
            match file_seek (file_open content (edge_log_follow args)) start with
            | (Ok _, log) => Ok (FromFile log)
            | (Err e, _) => Err (StartLog e)
            end
        | NoLog => Err (StartLog LogIo)
        end
  | None => Ok FromChannel
  end.

(** [main], up to where it spawns its tasks; [run] is the probe's uuid. *)
Definition start (args : Args) (worker run : string) : start_io Worker :=
  let cfg := config_of args worker in
  _ ← lift (build_store (warehouse args));
  _ ← on_probe (preflight (table_prefix cfg) run (allow_unsafe_commits args));
  '(forest, mark, local) ← open_forest args cfg;
  leader ← lift (elector (election args));
  _ ← check_stream args cfg;
  newest ← on_catalog (latest snap_from_json (table_prefix cfg));
  let start := start_position newest mark in
  ingest ← lift (open_ingest args start);
  mret (mkWorker (resuming forest buffer_new start) local leader ingest).
End start.
