(* ===== verification/StartProps.v ===== *)
(** Failover: what a worker that starts from the catalog and the log serves. *)

From S2P Require Import Prelude Types Bytes Stream Decimal ObjectStore Conformance ConformanceProps Catalog CatalogInv CatalogProps CatalogLatest Buffer Pipeline Log LogInv LogProps LocalRuns LocalRunsInv Flush FlushInv FlushTick FlushProps FlushRam Start.
From S2P Require Import Graph Dsu RoutingBase Forest ForestInv Compaction CompactionInv FoldInv ForestProps MemberIndex Registry Codec Puffin PuffinBase Layered Compact CodecProps PuffinProps PuffinServe LayeredInv LayeredServe LayeredProps Retention.

(** A forest opened with member tracking absorbed what the plain one did. *)
Lemma tracking_absorbed b evs : absorbed (with_base b) evs → absorbed (tracking_members (with_base b)) evs.
Proof.
  intros [[H1 H2 H3 H4 H5] V]. unfold absorbed, forest_inv. split; [split|exact V].
  - exact H1.
  - intros x p. simpl. by rewrite lookup_empty.
  - exact H3.
  - exact H4.
  - exact H5.
Qed.

Section starting.
Context {St : Type} `{!ObjectStore St, !ObjectStoreLaws St, !ReliableStore St, !RacingStore St, !AtomicRace St}.
Context (snap_from_json : bytes → option SnapshotMeta) (from_json : bytes → option FileMetadata).
Context (path_from : string → Path) (reader : ScanReader) (reopened : bool).
Context (log_at : string → LogPath).

Abbreviation disk_objects d := (objects (cv_store (dk_view d))).
Abbreviation stands cfg := (in_catalog snap_from_json from_json cfg reader reopened).
Abbreviation config := (config_of path_from).
Abbreviation starts := (start snap_from_json from_json path_from reader reopened log_at).

(** Arguments of a worker that drains a directory of partitions. *)
Record drains_log (args : Args) (path : string) (files : list (PartitionId * bytes * list EdgeEvent)) : Prop := {
  dl_store : is_ok (build_store (warehouse args)) = true;
  dl_elector : is_ok (elector (election args)) = true;
  dl_log : edge_log args = Some path;
  dl_finite : edge_log_follow args = false;
  dl_alone : simulate args = false;
  dl_files : ∃ entries, log_at path = LogDirectory entries ∧ open_dir entries false = Ok (opened files);
}.

Lemma on_catalog_ok {A} (m : io (CatalogView St) catalog_error A) d a v :
  m (dk_view d) = (Ok a, v) → on_catalog m d = (Ok a, mkDisk v (dk_files d)).
Proof using. intros E. unfold on_catalog, io_map_err, zoom. by rewrite E. Qed.

Lemma newest_ok cfg newest n (d : Disk St) :
  catalog_at snap_from_json (table_prefix cfg) (dk_view d) newest n →
  ∃ d', on_catalog (latest snap_from_json (table_prefix cfg)) d = (Ok newest, d') ∧
    disk_objects d' = disk_objects d ∧ catalog_at snap_from_json (table_prefix cfg) (dk_view d') newest n ∧
    cached_seq (dk_view d') = n.
Proof using All.
  intros Hc. destruct (catalog_latest _ _ _ _ _ Hc) as (v' & Hlat & Hq & Ho).
  exists (mkDisk v' (dk_files d)). split; [by apply on_catalog_ok|]. split; [done|]. split; [|exact Hq].
  eapply catalog_view; [exact Hc|done|by right].
Qed.

Lemma stands_cfg cfg cfg' (v : CatalogView St) l ms first lo n meta :
  table_prefix cfg = table_prefix cfg' → stands cfg v l ms first lo n meta → stands cfg' v l ms first lo n meta.
Proof using. intros E [H1 H2 H3 H4 H5 H6 H7 H8]. split; try done. by rewrite <- E. Qed.

(** The part of [start] after the committed state is open. *)
Definition start_rest (args : Args) (cfg : Config) (forest : ScopedForest) (mark : N) (local : option LocalLayers) (leader : bool)
    : io (Disk St) start_error Worker :=
  _ ← check_stream snap_from_json args cfg;
  newest ← on_catalog (latest snap_from_json (table_prefix cfg));
  let position := start_position newest mark in
  ingest ← lift (open_ingest log_at args position);
  mret (mkWorker (resuming forest buffer_new position) local leader ingest).

(** A worker whose arguments are in order and whose probe finds the way free gets to open its
    committed state on a store with the same objects, and goes on from what that gives. *)
Lemma start_opened args worker run (st : St) (Q : ScopedForest → N → option LocalLayers → Disk St → Prop) :
  is_ok (build_store (warehouse args)) = true → is_ok (elector (election args)) = true →
  (∀ suffix, objects st !! (prefix_of_args path_from args ++ ["_preflight"; String.append run suffix]) = None) →
  (∀ st1, objects st1 = objects st → ∃ forest mark local d,
    open_forest snap_from_json from_json reader reopened args (config args worker) (mkDisk (mkView st1 0) ∅) =
      (Ok (forest, mark, local), d) ∧ Q forest mark local d) →
  ∃ forest mark local leader d, starts args worker run (mkDisk (mkView st 0) ∅) =
      start_rest args (config args worker) forest mark local leader d ∧ Q forest mark local d.
Proof using All.
  intros A1 A3 Hf Hopen. unfold start. set (cfg := config args worker) in *.
  destruct (build_store (warehouse args)) as [kind|]; [|done]. rewrite (bind_ok _ _ _ kind (mkDisk (mkView st 0) ∅)) by done.
  destruct (probe_passes (prefix_of_args path_from args) run (allow_unsafe_commits args) st Hf) as (st1 & Ep & Ho1).
  rewrite (bind_ok _ _ _ tt (mkDisk (mkView st1 0) ∅)).
  2: { unfold on_probe, io_map_err, zoom. cbn [dk_view cv_store]. change (table_prefix cfg) with (prefix_of_args path_from args).
    rewrite Ep. done. }
  destruct (Hopen st1 Ho1) as (forest & mark & local & d2 & Eo & HQ). rewrite (bind_ok _ _ _ _ _ Eo).
  destruct (elector (election args)) as [leader|]; [|done]. rewrite (bind_ok _ _ _ leader d2) by done.
  by exists forest, mark, local, leader, d2.
Qed.

(** The stack a worker on disk maps: the runs of the catalog, in its own directory. *)
Definition reopened_layers (args : Args) (l : LocalLayers) (rs : list RunMeta) : LocalLayers :=
  mkLocalLayers (ll_base l) (committed_all rs (cache_paths (data_dir args) rs) (layers (ll_base l))).

(** On disk, opening maps the committed stack and leaves the store as it was. *)
Lemma open_forest_disk args worker (v : CatalogView St) l ms first lo n meta (st : St) :
  routing_base args = "disk" → stands (config args worker) v l ms first lo n meta → objects st = objects (cv_store v) →
  ∃ d, open_forest snap_from_json from_json reader reopened args (config args worker) (mkDisk (mkView st 0) ∅) =
      (Ok (new_forest args (with_base (layered_routing (ll_base l))), watermark (meta n),
        Some (reopened_layers args l (runs (meta n)))), d) ∧
    disk_objects d = objects st ∧
    catalog_at snap_from_json (table_prefix (config args worker)) (dk_view d) (Some (meta n)) n.
Proof using All.
  intros A2 Hic Ho. set (cfg := config args worker) in *.
  destruct (open_base_ok snap_from_json from_json cfg reader reopened v l ms first lo n meta (data_dir args)
    (mkDisk (mkView st 0) ∅) Hic) as (d2 & Eo & B3 & B4).
  { done. } { done. } { intros r b _. cbn. by rewrite lookup_empty. }
  exists d2. split; [|split; [exact B3|]].
  - unfold open_forest. rewrite A2. rewrite bool_decide_eq_false_2 by done. rewrite bool_decide_eq_true_2 by done.
    rewrite (bind_ok _ _ _ (Some (ll_base l, watermark (meta n), reopened_layers args l (runs (meta n)))) d2); [done|].
    unfold io_map_err. by rewrite Eo.
  - destruct Hic as [Hd Hc _ _ Hs _ _ _]. apply (catalog_view _ _ v); [by apply (catalog_dense _ _ _ first)|by rewrite B3|by right].
Qed.

(** What [check_stream] does with the newest snapshot's stream. *)
Lemma check_stream_ok args worker path m n (d : Disk St) :
  edge_log args = Some path → catalog_at snap_from_json (table_prefix (config args worker)) (dk_view d) (Some m) n →
  ∃ d', disk_objects d' = disk_objects d ∧ catalog_at snap_from_json (table_prefix (config args worker)) (dk_view d') (Some m) n ∧
    check_stream snap_from_json args (config args worker) d =
      match sm_stream m with
      | Some id =>
          if negb (same_stream id (mkStream "file" path None)) && negb (allow_stream_change args) then (Err StreamChanged, d')
          else (Ok tt, d')
      | None => (Ok tt, d')
      end.
Proof using All.
  intros A4 Hc. destruct (newest_ok _ _ _ _ Hc) as (d' & E & O & C & _).
  exists d'. split; [done|]. split; [done|]. unfold check_stream, stream_id. rewrite A4. cbn [fmap option_fmap option_map].
  rewrite (bind_ok _ _ _ _ _ E). cbn [mbind option_bind]. destruct (sm_stream m) as [id|]; [|done]. by destruct (_ && _).
Qed.

(** A worker whose committed state is open resumes its own stream after the committed
    position. *)
Lemma start_rest_ok args worker path files m n forest mark local leader (d : Disk St) log :
  drains_log args path files → catalog_at snap_from_json (table_prefix (config args worker)) (dk_view d) (Some m) n →
  (∀ id, sm_stream m = Some id → same_stream id (mkStream "file" path None) = true) →
  parts_seek (opened files) (stream_position m) = (Ok tt, log) →
  ∃ d', start_rest args (config args worker) forest mark local leader d =
      (Ok (mkWorker (resuming forest buffer_new (stream_position m)) local leader (FromParts log)), d') ∧
    disk_objects d' = disk_objects d ∧ cached_seq (dk_view d') = n.
Proof using All.
  intros [_ _ A4 A5 A6 (entries & A7 & A8)] Hc Hstr Hseek. unfold start_rest.
  destruct (check_stream_ok args worker path m n d A4 Hc) as (d1 & O1 & C1 & E1).
  rewrite (bind_ok _ _ _ tt d1) by (rewrite E1; destruct (sm_stream m) as [id|]; [by rewrite (Hstr id eq_refl)|done]).
  destruct (newest_ok _ _ _ _ C1) as (d2 & E2 & O2 & _ & Q2). rewrite (bind_ok _ _ _ _ _ E2). cbn [start_position].
  rewrite (bind_ok _ _ _ (FromParts log) d2).
  2: { unfold open_ingest. rewrite A4, A5, A6, A7, A8. cbn [map_err mbind result_bind]. by rewrite Hseek. }
  exists d2. split; [done|]. split; [congruence|done].
Qed.

(** A worker on disk, started on a store whose catalog stands. *)
Lemma start_disk_ok args worker run path files (v : CatalogView St) l ms first lo n meta (st : St) log :
  routing_base args = "disk" → drains_log args path files →
  stands (config args worker) v l ms first lo n meta → objects st = objects (cv_store v) →
  (∀ suffix, objects st !! (prefix_of_args path_from args ++ ["_preflight"; String.append run suffix]) = None) →
  (∀ id, sm_stream (meta n) = Some id → same_stream id (mkStream "file" path None) = true) →
  parts_seek (opened files) (stream_position (meta n)) = (Ok tt, log) →
  ∃ leader d', starts args worker run (mkDisk (mkView st 0) ∅) =
      (Ok (mkWorker (resuming (new_forest args (with_base (layered_routing (ll_base l)))) buffer_new (stream_position (meta n)))
        (Some (reopened_layers args l (runs (meta n)))) leader (FromParts log)), d') ∧
    disk_objects d' = objects st ∧ cached_seq (dk_view d') = n.
Proof using All.
  intros A2 Hargs Hic Ho Hf Hstr Hseek.
  destruct (start_opened args worker run st (fun forest mark local d =>
    forest = new_forest args (with_base (layered_routing (ll_base l))) ∧ local = Some (reopened_layers args l (runs (meta n))) ∧
    disk_objects d = objects st ∧ catalog_at snap_from_json (table_prefix (config args worker)) (dk_view d) (Some (meta n)) n)
    (dl_store _ _ _ Hargs) (dl_elector _ _ _ Hargs) Hf) as (forest & mark & local & leader & d & Es & -> & -> & Ho1 & Hc).
  { intros st1 Ho1. destruct (open_forest_disk args worker v l ms first lo n meta st1 A2 Hic ltac:(congruence)) as (d & E & H1 & H2).
    eexists _, _, _, d. split; [exact E|]. split; [done|]. split; [done|]. split; [congruence|done]. }
  destruct (start_rest_ok args worker path files (meta n) n
    (new_forest args (with_base (layered_routing (ll_base l)))) mark (Some (reopened_layers args l (runs (meta n)))) leader d log
    Hargs Hc Hstr Hseek) as (d' & E' & Ho' & Hq').
  exists leader, d'. rewrite Es. split; [exact E'|]. split; [congruence|done].
Qed.

(** C17. Offsets of another stream are never resumed. When the newest snapshot was committed
    against a stream other than the log a worker on disk is configured for, and changing
    the stream is not allowed, the worker does not start, and leaves the store as it found
    it: it says so after opening the base and before any record is read. *)
Theorem foreign_stream_refused (args : Args) (worker run path : string) (v : CatalogView St) (l : LocalLayers) (ms : list RunMeta)
    (first lo n : N) (meta : N → SnapshotMeta) (st : St) (id : StreamId) :
  is_ok (build_store (warehouse args)) = true → routing_base args = "disk" → is_ok (elector (election args)) = true →
  edge_log args = Some path → allow_stream_change args = false →
  stands (config args worker) v l ms first lo n meta → objects st = objects (cv_store v) →
  (∀ suffix, objects st !! (prefix_of_args path_from args ++ ["_preflight"; String.append run suffix]) = None) →
  sm_stream (meta n) = Some id → stream_source id ≠ "file" ∨ stream_name id ≠ path →
  ∃ d', starts args worker run (mkDisk (mkView st 0) ∅) = (Err StreamChanged, d') ∧ disk_objects d' = objects st.
Proof using All.
  intros A1 A2 A3 A4 A5 Hic Ho Hf Hid Hne.
  destruct (start_opened args worker run st (fun _ _ _ d => disk_objects d = objects st ∧
    catalog_at snap_from_json (table_prefix (config args worker)) (dk_view d) (Some (meta n)) n) A1 A3 Hf)
    as (forest & mark & local & leader & d2 & -> & B3 & B4).
  { intros st1 Ho1. destruct (open_forest_disk args worker v l ms first lo n meta st1 A2 Hic ltac:(congruence)) as (d & E & H1 & H2).
    eexists _, _, _, d. split; [exact E|]. split; [congruence|done]. }
  destruct (check_stream_ok args worker path _ n d2 A4 B4) as (d3 & O3 & _ & E3).
  exists d3. split; [|congruence]. unfold start_rest. apply bind_err. rewrite E3, Hid, A5.
  assert (same_stream id (mkStream "file" path None) = false) as ->; [|done].
  unfold same_stream. cbn. destruct Hne; [rewrite bool_decide_eq_false_2 by done; done|].
  by rewrite (bool_decide_eq_false_2 (stream_name id = path)), andb_false_r.
Qed.

End starting.

Section failover.
Context {St : Type} `{!ObjectStore St, !ObjectStoreLaws St, !ReliableStore St, !RacingStore St, !AtomicRace St, !EdgeSort}.
Context (snap_to_json : SnapshotMeta → bytes) (snap_from_json : bytes → option SnapshotMeta).
Context (snap_roundtrip : ∀ m, snap_from_json (snap_to_json m) = Some m).
Context (to_json : FileMetadata → bytes) (from_json : bytes → option FileMetadata).
Context (json_roundtrip : ∀ m, from_json (to_json m) = Some m).
Context (event_from_json : bytes → option EdgeEvent).
Context (parquet : list (list Row) → option bytes) (uuid : nat → string).
Context (path_from : string → Path) (parallelism : nat) (reader : ScanReader) (reopened : bool).
Context (log_at : string → LogPath).

Abbreviation disk_objects d := (objects (cv_store (dk_view d))).
Abbreviation stands cfg := (in_catalog snap_from_json from_json cfg reader reopened).
Abbreviation config := (config_of path_from).
Abbreviation starts := (start snap_from_json from_json path_from reader reopened log_at).

Lemma readable_equiv c c' files :
  c ≡ c' → Forall (readable event_from_json c) files → Forall (readable event_from_json c') files.
Proof using.
  intros E Hall. eapply Forall_impl; [exact Hall|]. intros x (H1 & H2 & H3). split; [done|]. by rewrite <- (E x.1.1).
Qed.

Lemma covered_equiv c c' (files : list (PartitionId * bytes * list EdgeEvent)) : c ≡ c' → covered_part c <$> files = covered_part c' <$> files.
Proof using. intros E. apply list_fmap_ext. intros i x _. unfold covered_part. by rewrite (E x.1.1). Qed.

(** A snapshot committed with these arguments is measured in their stream. *)
Lemma own_stream args path m :
  edge_log args = Some path → sm_stream m = stream_id args →
  ∀ id, sm_stream m = Some id → same_stream id (mkStream "file" path None) = true.
Proof using.
  intros Hp Hs id. rewrite Hs. unfold stream_id. rewrite Hp. cbn. intros [= <-]. unfold same_stream. cbn.
  by rewrite !bool_decide_eq_true_2.
Qed.

(** What a restart comes to once its committed state is known to open to a forest that
    absorbed the events of the log the committed position covers. *)
Lemma restart_exact args new run path files evs m n c turns (st : St) :
  drains_log log_at args path files → Forall (readable event_from_json c) files → NoDup files.*1.*1 →
  logged c files evs → (length (mjoin files.*2) < turns)%nat →
  stream_position m ≡ c → (∀ id, sm_stream m = Some id → same_stream id (mkStream "file" path None) = true) →
  (∀ suffix, objects st !! (prefix_of_args path_from args ++ ["_preflight"; String.append run suffix]) = None) →
  (∀ st1, objects st1 = objects st → ∃ forest local d,
    open_forest snap_from_json from_json reader reopened args (config args new) (mkDisk (mkView st1 0) ∅) =
      (Ok (forest, watermark m, local), d) ∧ absorbed forest evs ∧ disk_objects d = objects st1 ∧
    catalog_at snap_from_json (table_prefix (config args new)) (dk_view d) (Some m) n) →
  ∃ w d' log log' last p', starts args new run (mkDisk (mkView st 0) ∅) = (Ok w, d') ∧ disk_objects d' = objects st ∧
    wk_ingest w = FromParts log ∧
    @consume _ (parts_source event_from_json) turns (fun _ => false) (mkConsumer (edge_log_batch args)) log (wk_pipeline w) =
      Some (Ok last, log', p') ∧
    ∀ sc x, is_component_min (visible_edges (mjoin files.*2) sc) x (scope_root (pl_forest p') sc x).1.
Proof using All.
  intros Hargs Hr Hd Hev Ht Hpos Hstr Hfresh Hopen.
  destruct (start_opened snap_from_json from_json path_from reader reopened log_at args new run st
    (fun f _ _ d => absorbed f evs ∧ disk_objects d = objects st ∧
      catalog_at snap_from_json (table_prefix (config args new)) (dk_view d) (Some m) n)
    (dl_store _ _ _ _ Hargs) (dl_elector _ _ _ _ Hargs) Hfresh) as (f & mark & local & leader & d & Es & Ha & Ho & Hc).
  { intros st1 H1. destruct (Hopen st1 H1) as (f & local & d & E & H2 & H3 & H4).
    exists f, (watermark m), local, d. split; [done|]. split; [done|]. split; [congruence|done]. }
  destruct (replay_ok event_from_json files (stream_position m) (mkConsumer (edge_log_batch args)) f buffer_new evs turns)
    as (log & log' & last & p' & rs & Hseek & Hcons & _ & _ & _ & _ & Hans); [|done|done| |done|].
  { by eapply readable_equiv. } { split; [|apply Hev]. intros e. rewrite (covered_equiv _ _ files Hpos). apply Hev. }
  destruct (start_rest_ok snap_from_json from_json path_from reader reopened log_at args new path files m n f mark local leader d log Hargs Hc)
    as (d' & Hstart & Ho' & _); [done|done|].
  eexists _, d', log, log', last, p'. rewrite Es. split; [exact Hstart|]. split; [congruence|]. split; [done|].
  split; [exact Hcons|exact Hans].
Qed.

(** C3. Failover loses nothing. A leader that has absorbed the log up to its position, that
    does not merge inline and for which no background merge has finished, ticks and dies; another worker, with the same arguments and an empty directory, starts from
    the store. The tick commits; the start passes the probe, maps the committed stack,
    finds the catalog measured in its own stream and resumes the log after the committed
    position; consuming the log to its end returns; and then every component answer, in
    every scope, is the one for all the events of the log, with the store as the leader
    left it. *)
Theorem failover_exact (args : Args) (old new run path : string) (files : list (PartitionId * bytes * list EdgeEvent))
    (s : Flusher St) (evs : list EdgeEvent) (l : LocalLayers) (snaps : list ForestSnapshot) (ms : list RunMeta)
    (first lo n : N) (meta : N → SnapshotMeta) (pq data : bytes) (lost : bool) (now : Z) (turns : nat) :
  serving s evs l snaps → stands (config args old) (dk_view (fl_disk s)) l ms first lo n meta → no_merge s →
  arg_inline_merges args = false → next_segments s (meta n) ≠ [] →
  batch_ready to_json parquet uuid (config args old) s n (meta n) (next_segments s (meta n)) (next_position s (meta n)) pq data →
  routing_base args = "disk" → drains_log log_at args path files →
  Forall (readable event_from_json (next_position s (meta n))) files → NoDup files.*1.*1 →
  evs ≡ₚ mjoin (covered_part (next_position s (meta n)) <$> files) → (length (mjoin files.*2) < turns)%nat →
  ∃ s', tick snap_to_json snap_from_json to_json from_json parquet uuid (config args old) parallelism reader reopened true lost now s =
      (Ok tt, s') ∧
    ∀ st, objects st = disk_objects (fl_disk s') →
      (∀ suffix, objects st !! (prefix_of_args path_from args ++ ["_preflight"; String.append run suffix]) = None) →
      ∃ w d' log log' last p', starts args new run (mkDisk (mkView st 0) ∅) = (Ok w, d') ∧ disk_objects d' = objects st ∧
        wk_ingest w = FromParts log ∧
        @consume _ (parts_source event_from_json) turns (fun _ => false) (mkConsumer (edge_log_batch args)) log (wk_pipeline w) =
          Some (Ok last, log', p') ∧
        ∀ sc x, is_component_min (visible_edges (mjoin files.*2) sc) x (scope_root (pl_forest p') sc x).1.
Proof using All.
  intros Hs Hic Hn Hin Hseg Hbr Hdisk Hargs Hr Hd Hev Ht.
  assert (base_dir (config args old) = Some (data_dir args)) as Hdir by (cbn; rewrite Hdisk; by rewrite bool_decide_eq_true_2).
  destruct (tick_publishes snap_to_json snap_from_json snap_roundtrip to_json from_json json_roundtrip parquet uuid (config args old)
    parallelism reader reopened s evs l snaps ms first lo n meta pq data _ lost now Hs Hic Hn Hdir Hin Hseg Hbr)
    as (s' & l' & m & Htick & _ & Hic' & _ & _ & Hpos & Hstr & _ & Ha).
  exists s'. split; [exact Htick|]. intros st Hst Hfresh.
  apply (stands_cfg snap_from_json from_json reader reopened _ (config args new)) in Hic'; [|done].
  eapply (restart_exact args new run path files evs m (n + 1)); try done;
    [by apply logged_perm|eapply own_stream; [apply (dl_log _ _ _ _ Hargs)|done]|].
  intros st1 Hst1. destruct (open_forest_disk snap_from_json from_json path_from reader reopened log_at args new _ l' (runs m) first lo (n + 1) _ st1
    Hdisk Hic' ltac:(congruence)) as (d & E & Ho & Hc).
  rewrite N.eqb_refl in E, Hc. eexists _, _, d. split; [exact E|]. split; [|done].
  unfold new_forest. destruct (arg_member_index args); [by apply tracking_absorbed|done].
Qed.

(** C4. Failover loses nothing in memory either, which is the default. A leader without a
    directory that has absorbed the log up to its position ticks and dies, be it the first
    commit of the table; another worker, with the same arguments, starts from the store.
    The tick commits; the start passes the probe, hydrates the snapshot into its heap,
    resumes the log after the committed position; consuming the log to its end returns; and
    then every component answer, in every scope, is the one for all the events of the log,
    with the store as the leader left it. *)
Theorem ram_failover_exact (args : Args) (old new run path : string) (files : list (PartitionId * bytes * list EdgeEvent))
    (s : Flusher St) (evs : list EdgeEvent) (newest : option SnapshotMeta) (n : N) (pq data : bytes) (lost : bool) (now : Z)
    (turns : nat) :
  in_memory s evs → catalog_at snap_from_json (prefix_of_args path_from args) (dk_view (fl_disk s)) newest n →
  sealed (ram_buffer s newest) ≠ [] → snapshot_ready to_json parquet (config args old) s newest n pq data →
  routing_base args = "ram" → drains_log log_at args path files →
  Forall (readable event_from_json (ram_position s newest)) files → NoDup files.*1.*1 →
  evs ≡ₚ mjoin (covered_part (ram_position s newest) <$> files) → (length (mjoin files.*2) < turns)%nat →
  ∃ s', tick snap_to_json snap_from_json to_json from_json parquet uuid (config args old) parallelism reader reopened true lost now s =
      (Ok tt, s') ∧
    ∀ st, objects st = disk_objects (fl_disk s') →
      (∀ suffix, objects st !! (prefix_of_args path_from args ++ ["_preflight"; String.append run suffix]) = None) →
      ∃ w d' log log' last p', starts args new run (mkDisk (mkView st 0) ∅) = (Ok w, d') ∧ disk_objects d' = objects st ∧
        wk_ingest w = FromParts log ∧
        @consume _ (parts_source event_from_json) turns (fun _ => false) (mkConsumer (edge_log_batch args)) log (wk_pipeline w) =
          Some (Ok last, log', p') ∧
        ∀ sc x, is_component_min (visible_edges (mjoin files.*2) sc) x (scope_root (pl_forest p') sc x).1.
Proof using All.
  intros Hm Hcat Hseg Hready Hram Hargs Hr Hd Hev Ht.
  assert (base_dir (config args old) = None) as Hdir by (cbn; rewrite Hram; by rewrite bool_decide_eq_false_2).
  destruct (ram_tick_ok snap_to_json snap_from_json snap_roundtrip to_json from_json json_roundtrip parquet uuid (config args old)
    parallelism reader reopened s evs newest n pq data lost now Hm Hdir Hcat Hseg Hready)
    as (s' & m & Htick & _ & _ & Hpos & _ & _ & Hstr & Hcold).
  exists s'. split; [exact Htick|]. intros st Hst Hfresh.
  eapply (restart_exact args new run path files evs m (n + 1)); try done;
    [by apply logged_perm|eapply own_stream; [apply (dl_log _ _ _ _ Hargs)|done]|].
  intros st1 Hst1. destruct (Hcold (config args new) st1 (arg_member_index args) eq_refl ltac:(congruence)) as (f & d & Eh & Ha & Ho & Hc).
  exists f, None, d. split; [|done]. unfold open_forest. rewrite Hram, bool_decide_eq_true_2 by done.
  unfold new_forest. rewrite (bind_ok _ _ _ (watermark m, f) d); [done|]. unfold io_map_err. by rewrite Eh.
Qed.
End failover.

(** ** At work

    The leader of the flush loop's demonstration, fed from a directory of one partition:
    three committed lines, a fourth in the buffer, and a fifth it never read. *)

Definition demo_args : Args :=
  mkArgs "0.0.0.0:8080" "0.0.0.0:50051" "memory://" "t" "disk" "d" 1000 24 10 false 4 RegBlocked true false false 3600 10 24 3600 (Some "logs") false
    2 60 None false 5000 1000000 3000 "static:true" "default" "blaze-committer".

Definition demo_path (s : string) : Path := [s].

(** Two nodes as digits, or two nodes and a scope. *)
Definition demo_line (l : bytes) : option EdgeEvent :=
  match l with
  | [a; b] => Some (ev (a - 48) (b - 48) Global)
  | [a; b; s] => Some (ev (a - 48) (b - 48) (Scoped [s - 48]))
  | _ => None
  end.

Definition demo_text : bytes := [57; 53; 10; 57; 56; 55; 10; 53; 49; 10; 49; 48; 10; 56; 50; 10].

Definition demo_log (path : string) : LogPath := LogDirectory [("partition-0.ndjson", demo_text); ("notes", [])].

Definition demo_parts : list (PartitionId * bytes * list EdgeEvent) :=
  [(0, demo_text, demo_events ++ [ev 1 0 Global; ev 8 2 Global])].

Lemma demo_drains : drains_log demo_log demo_args "logs" demo_parts.
Proof. split; try by vm_compute. by exists [("partition-0.ndjson", demo_text); ("notes", [])]. Qed.

Lemma demo_parts_readable c : pos_get c 0 <= 5 → Forall (readable demo_line c) demo_parts.
Proof.
  intros E. apply Forall_singleton. unfold readable. cbn [fst snd]. split; [|split; [exact E|done]].
  apply (holds_line demo_line [57; 53]); [set_solver|done|by vm_compute|by vm_compute|].
  apply (holds_line demo_line [57; 56; 55]); [set_solver|done|by vm_compute|by vm_compute|].
  apply (holds_line demo_line [53; 49]); [set_solver|done|by vm_compute|by vm_compute|].
  apply (holds_line demo_line [49; 48]); [set_solver|done|by vm_compute|by vm_compute|].
  apply (holds_line demo_line [56; 50]); [set_solver|done|by vm_compute|by vm_compute|].
  apply holds_tail; [set_solver|done].
Qed.

Lemma demo_fresh (suffix : string) (m : gmap Path Object) :
  forallb (fun po => negb (bool_decide (["t"; "_preflight"] `prefix_of` po.1))) (map_to_list m) = true →
  m !! ["t"; "_preflight"; String.append "u1" suffix] = None.
Proof.
  intros Hm. destruct (m !! _) as [o|] eqn:E; [|done]. exfalso. apply elem_of_map_to_list in E.
  rewrite forallb_forall in Hm. apply list_elem_of_In in E. specialize (Hm _ E). cbn [fst] in Hm.
  rewrite bool_decide_eq_true_2 in Hm; [done|]. by exists [String.append "u1" suffix].
Qed.

Definition demo_ticked : result flush_error unit * Flusher Memory :=
  @tick Memory memory_store merge_edge_sort demo_snap_to_json demo_snap_from_json demo_to_json demo_from_json
    demo_parquet demo_uuid (config_of demo_path demo_args "w") 1 Buffered true true false 7 demo_worker.

Lemma failover_exact_witness :
  ∃ w d' log log' last p', start demo_snap_from_json demo_from_json demo_path Buffered true demo_log demo_args "v" "u1"
      (mkDisk (mkView (cv_store (dk_view (fl_disk demo_ticked.2))) 0) ∅) = (Ok w, d') ∧
    wk_ingest w = FromParts log ∧
    @consume _ (parts_source demo_line) 6 (fun _ => false) (mkConsumer 2) log (wk_pipeline w) = Some (Ok last, log', p') ∧
    is_component_min (visible_edges (mjoin demo_parts.*2) 7) 2 (scope_root (pl_forest p') 7 2).1.
Proof.
  destruct demo_stack_spec as [Is Ia].
  destruct (@failover_exact Memory memory_store memory_laws memory_reliable memory_race memory_atomic merge_edge_sort
    demo_snap_to_json demo_snap_from_json demo_snap_roundtrip demo_to_json demo_from_json demo_json demo_line demo_parquet demo_uuid
    demo_path 1 Buffered true demo_log demo_args "w" "v" "u1" "logs" demo_parts demo_worker (demo_events ++ [ev 1 0 Global]) demo_led
    [(snapshot demo_state).1] [local_meta demo_run_local demo_object] 1 1 1 (fun _ => demo_committed) [1] FlushProps.demo_file false 7 6)
    as (s' & Ht & Hnew).
  - split; [exact eq_refl|exact Ia|exact eq_refl|exact Is].
  - apply (stands_cfg demo_snap_from_json demo_from_json Buffered true demo_cfg); [exact eq_refl|]. apply demo_stands. by right.
  - intros p Hp. discriminate Hp.
  - exact eq_refl.
  - assert (length (@next_segments Memory merge_edge_sort demo_worker demo_committed) = 1%nat) as Hl by (by vm_compute).
    intros E. rewrite E in Hl. discriminate Hl.
  - split; [by vm_compute|by vm_compute|by vm_compute|by vm_compute|exact demo_file_written|exact demo_file_fits|].
    intros a b _ Hb. discriminate Hb.
  - exact eq_refl.
  - exact demo_drains.
  - apply demo_parts_readable. by vm_compute.
  - repeat constructor; set_solver.
  - by vm_compute.
  - cbn. lia.
  - assert (demo_ticked.2 = s') as -> by (unfold demo_ticked; by rewrite Ht).
    destruct (Hnew (cv_store (dk_view (fl_disk s'))) eq_refl) as (w & d' & log & log' & last & p' & H1 & _ & H2 & H3 & H4).
    + intros suffix. assert (s' = demo_ticked.2) as -> by (unfold demo_ticked; by rewrite Ht).
      apply demo_fresh. by vm_compute.
    + exists w, d', log, log', last, p'. split; [exact H1|]. split; [exact H2|]. split; [exact H3|]. apply H4.
Defined.

Definition ram_args : Args :=
  mkArgs "0.0.0.0:8080" "0.0.0.0:50051" "memory://" "t" "ram" "d" 1000 24 10 false 4 RegBlocked true false false 3600 10 24 3600 (Some "logs") false
    2 60 None false 5000 1000000 3000 "static:true" "default" "blaze-committer".

Definition ram_ticked : result flush_error unit * Flusher Memory :=
  @tick Memory memory_store merge_edge_sort demo_snap_to_json demo_snap_from_json demo_to_json demo_from_json
    demo_parquet demo_uuid (config_of demo_path ram_args "w") 1 Buffered true true false 7 ram_worker.

Lemma ram_failover_exact_witness :
  ∃ w d' log log' last p', start demo_snap_from_json demo_from_json demo_path Buffered true demo_log ram_args "v" "u1"
      (mkDisk (mkView (cv_store (dk_view (fl_disk ram_ticked.2))) 0) ∅) = (Ok w, d') ∧
    wk_ingest w = FromParts log ∧
    @consume _ (parts_source demo_line) 6 (fun _ => false) (mkConsumer 2) log (wk_pipeline w) = Some (Ok last, log', p') ∧
    is_component_min (visible_edges (mjoin demo_parts.*2) 7) 2 (scope_root (pl_forest p') 7 2).1.
Proof.
  destruct (@ram_failover_exact Memory memory_store memory_laws memory_reliable memory_race memory_atomic merge_edge_sort
    demo_snap_to_json demo_snap_from_json demo_snap_roundtrip demo_to_json demo_from_json demo_json demo_line demo_parquet demo_uuid
    demo_path 1 Buffered true demo_log ram_args "w" "v" "u1" "logs" demo_parts ram_worker demo_events None 0 [1] ram_file false 7 6)
    as (s' & Ht & Hnew).
  - split; [exact demo_absorbed|exact eq_refl|exact eq_refl].
  - exact ram_catalog.
  - exact ram_sealed.
  - split; [by vm_compute|by vm_compute|exact demo_fit|by vm_compute|exact ram_file_written|by vm_compute|].
    intros a b m0 E. discriminate E.
  - exact eq_refl.
  - split; try by vm_compute. by exists [("partition-0.ndjson", demo_text); ("notes", [])].
  - apply demo_parts_readable. by vm_compute.
  - repeat constructor; set_solver.
  - by vm_compute.
  - cbn. lia.
  - assert (ram_ticked.2 = s') as -> by (unfold ram_ticked; by rewrite Ht).
    destruct (Hnew (cv_store (dk_view (fl_disk s'))) eq_refl) as (w & d' & log & log' & last & p' & H1 & _ & H2 & H3 & H4).
    + intros suffix. assert (s' = ram_ticked.2) as -> by (unfold ram_ticked; by rewrite Ht).
      apply demo_fresh. by vm_compute.
    + exists w, d', log, log', last, p'. split; [exact H1|]. split; [exact H2|]. split; [exact H3|]. apply H4.
Defined.

Lemma foreign_stream_refused_witness :
  ∃ d', start demo_snap_from_json demo_from_json demo_path Buffered true demo_log demo_args "v" "u1"
      (mkDisk (mkView (store_in (Some (mkStream "file" "elsewhere" None))) 0) ∅) = (Err StreamChanged, d').
Proof.
  destruct (@foreign_stream_refused Memory memory_store memory_laws memory_reliable memory_race memory_atomic
    demo_snap_from_json demo_from_json demo_path Buffered true demo_log demo_args "v" "u1" "logs"
    (mkView (store_in (Some (mkStream "file" "elsewhere" None))) 1) demo_led [local_meta demo_run_local demo_object] 1 1 1
    (fun _ => committed_in (Some (mkStream "file" "elsewhere" None))) (store_in (Some (mkStream "file" "elsewhere" None)))
    (mkStream "file" "elsewhere" None)) as (d' & E & _); try exact eq_refl.
  - apply (stands_cfg demo_snap_from_json demo_from_json Buffered true demo_cfg); [exact eq_refl|]. apply stands_in. by right.
  - intros suffix. cbn. by rewrite !lookup_insert_ne, lookup_empty by done.
  - right. done.
  - exists d'. exact E.
Defined.

(** ** Hours

    The retention window is given in hours and multiplied out at the width of a [u64]: five
    thousand million million hours, which is longer than it will ever be, is under an hour. *)
Lemma long_window_wraps :
  let args := mkArgs "0.0.0.0:8080" "0.0.0.0:50051" "memory://" "t" "ram" "d" 1000 24 10 false 4 RegBlocked false false false
    3600 10 5124095576030432 3600 None true 2 60 None
    false 5000 1000000 3000 "static:true" "default" "blaze-committer" in
  (keep_for (retention_policy args) < 3600 * 1000)%Z.
Proof. by vm_compute. Qed.
