(* ===== verification/History.v ===== *)
(** The history of a table: leaders that ingest a log, tick, merge, crash and are replaced.

    A world is a running leader on disk: the state the flusher shares with the ingest task,
    the position that task has reached, and the record it has applied and not yet buffered.
    Its steps are what the tasks of [main.rs] do to it, in any order: a record is applied,
    then buffered; a query compresses paths; a tick seals the buffer and later does the
    rest; a merge ends in the background; retention sweeps; the process dies and another
    one starts from the store and the log. *)

From S2P Require Import Prelude Types Bytes Stream Decimal ObjectStore Conformance ConformanceProps Catalog CatalogInv CatalogProps CatalogLatest Retention RetentionProps Buffer Pipeline Log LogInv LogProps LocalRuns LocalRunsInv Flush FlushNames FlushInv FlushTick FlushBatch FlushProps FlushTable FlushMerge FlushLife FlushRam Start StartProps.
From S2P Require Import Graph Dsu RoutingBase Forest ForestInv Compaction CompactionInv FoldInv ForestProps Registry PairTable PairTableInv Codec CodecInv Puffin PuffinBase Layered Compact CodecProps PuffinProps PuffinServe LayeredInv LayeredServe LayeredProps CompactInv CompactProps.

(** ** How far a buffer reaches *)

Definition buffer_high (b : EdgeBuffer) (k : PartitionId) : N :=
  foldr (fun sg => N.max (pos_get (sg_last sg) k)) (pos_get (ab_last (active b)) k) (sealed b).

Definition segments_high (sgs : list Segment) (k : PartitionId) : N :=
  foldr (fun sg => N.max (pos_get (sg_last sg) k)) 0 sgs.

Lemma segments_max_base (f : Segment → N) sgs a :
  foldr (fun sg => N.max (f sg)) a sgs = N.max a (foldr (fun sg => N.max (f sg)) 0 sgs).
Proof. induction sgs as [|sg sgs IH]; cbn; [lia|]. rewrite IH. lia. Qed.

Lemma high_split b k : buffer_high b k = N.max (pos_get (ab_last (active b)) k) (segments_high (sealed b) k).
Proof. apply segments_max_base. Qed.

Lemma segments_high_app a b k : segments_high (a ++ b) k = N.max (segments_high a k) (segments_high b k).
Proof. unfold segments_high. rewrite foldr_app, segments_max_base. lia. Qed.

Lemma high_append b p o e k :
  buffer_high (append b p o e) k = if decide (k = p) then N.max (buffer_high b k) o else buffer_high b k.
Proof.
  rewrite !high_split. cbn [append active ab_last sealed]. rewrite pos_get_advance. repeat case_decide; simplify_eq; lia.
Qed.

Lemma high_seal `{!EdgeSort} b k : buffer_high (seal_active b).2 k = buffer_high b k.
Proof.
  unfold seal_active. case_match; [done|]. rewrite !high_split. cbn [snd active sealed active_default ab_last].
  rewrite segments_high_app. cbn. rewrite pos_get_None by apply lookup_empty. lia.
Qed.

(** What a prune drops is below the position it was given. *)
Lemma high_drop b c cm k :
  covers cm c → N.max (pos_get cm k) (buffer_high (drop_committed b c).2 k) = N.max (pos_get cm k) (buffer_high b k).
Proof.
  intros Hc. rewrite !high_split. cbn [drop_committed snd active sealed].
  assert (N.max (pos_get cm k) (segments_high (filter (fun s => dominates c (sg_last s) = false) (sealed b)) k) =
    N.max (pos_get cm k) (segments_high (sealed b) k)); [|lia].
  induction (sealed b) as [|sg sgs IH]; [done|]. rewrite filter_cons. case_decide as E; cbn [segments_high foldr]; [unfold segments_high in *; lia|].
  destruct (dominates c (sg_last sg)) eqn:Ed; [|done]. apply dominates_covers in Ed. specialize (Ed k). specialize (Hc k).
  unfold segments_high in *. lia.
Qed.

(** What is sealed and not yet committed. *)
Lemma segments_bound b cm k :
  segments_high (sealed (drop_committed b cm).2) k <= buffer_high b k ∨ segments_high (sealed (drop_committed b cm).2) k <= pos_get cm k.
Proof.
  pose proof (high_drop b cm cm k ltac:(intros ?; lia)) as Hd. rewrite !high_split in Hd. rewrite high_split.
  destruct (decide (segments_high (sealed (drop_committed b cm).2) k <= pos_get cm k)); [by right|left].
  cbn [drop_committed snd active sealed] in *. lia.
Qed.

Lemma segments_position sgs : ∀ p k,
  pos_get (foldl (fun p sg => pos_merge p (sg_last sg)) p sgs) k = N.max (pos_get p k) (segments_high sgs k).
Proof.
  induction sgs as [|sg sgs IH]; intros p k; cbn [foldl segments_high foldr]; [lia|].
  rewrite IH, pos_get_merge. unfold segments_high. lia.
Qed.

(** ** What fits is decided *)

#[global] Instance small_pair_dec p : Decision (small_pair p).
Proof. unfold small_pair. apply _. Defined.

#[global] Instance pairs_fit_dec ps : Decision (pairs_fit ps).
Proof.
  refine (cast_if (decide (Forall small_pair ps ∧ 8 + 16 * N.of_nat (length ps) < u64_limit))); [by destruct_and?; split|intros []; tauto].
Defined.

#[global] Instance snap_fit_dec snap : Decision (snap_fit snap).
Proof.
  refine (cast_if (decide (pairs_fit (snap_global snap) ∧ Forall (fun sp => sp.1 < u32_limit ∧ pairs_fit sp.2) (snap_scopes snap))));
    [by destruct_and?; split|intros []; tauto].
Defined.

#[global] Instance merge_fits_dec lb : Decision (merge_fits lb).
Proof.
  refine (cast_if (decide (snap_fit (merged_snap lb) ∧ N.of_nat (sum_list ((fun sp => length sp.2) <$> merged_scopes lb)) < u64_limit ∧
    N.of_nat (length (registry_entries_of lb)) < u64_limit))); [by destruct_and?; split|intros []; tauto].
Defined.

(** ** Worlds *)

Record World (St : Type) := mkWorld {
  w_worker : string;
  w_flusher : Flusher St;
  w_position : StreamPosition;
  w_inflight : option LogRecord;
}.
Arguments mkWorld {St}.
Arguments w_worker {St}.
Arguments w_flusher {St}.
Arguments w_position {St}.
Arguments w_inflight {St}.

Definition with_flusher {St} (w : World St) (s : Flusher St) : World St :=
  mkWorld (w_worker w) s (w_position w) (w_inflight w).

(** The next record of a partition, past the position. *)
Definition next_record (files : list (PartitionId * bytes * list EdgeEvent)) (c : StreamPosition) (r : LogRecord) : Prop :=
  ∃ x, x ∈ files ∧ x.1.1 = rec_partition r ∧ rec_offset r = pos_get c (rec_partition r) + 1 ∧
    x.2 !! N.to_nat (pos_get c (rec_partition r)) = Some (rec_event r).

(** [main] hands the flusher what it opened. *)
Definition boot {St} (worker : string) (uuids : nat) (k : Worker) (d : Disk St) : World St :=
  mkWorld worker (mkFlusher (pl_forest (wk_pipeline k)) (pl_buffer (wk_pipeline k)) d (wk_layers k) None uuids)
    (position (pl_stats (wk_pipeline k))) None.

Section history.
Context {St : Type} `{!ObjectStore St, !ObjectStoreLaws St, !ReliableStore St, !RacingStore St, !AtomicRace St, !EdgeSort}.
Context (snap_to_json : SnapshotMeta → bytes) (snap_from_json : bytes → option SnapshotMeta).
Context (snap_roundtrip : ∀ m, snap_from_json (snap_to_json m) = Some m).
Context (to_json : FileMetadata → bytes) (from_json : bytes → option FileMetadata).
Context (json_roundtrip : ∀ m, from_json (to_json m) = Some m).
Context (event_from_json : bytes → option EdgeEvent).
Context (parquet : list (list Row) → option bytes) (uuid : nat → string).
Context (uuid_unique : ∀ i j, uuid i = uuid j → i = j).
Context (path_from : string → Path) (parallelism : nat) (reader : ScanReader) (reopened : bool).
Context (log_at : string → LogPath).
Context (args : Args) (path : string) (files : list (PartitionId * bytes * list EdgeEvent)).

Abbreviation disk_objects d := (objects (cv_store (dk_view d))).
Abbreviation config := (config_of path_from args).
Abbreviation stands cfg := (in_catalog snap_from_json from_json cfg reader reopened).
Abbreviation starts := (start snap_from_json from_json path_from reader reopened log_at args).
Abbreviation newest F cfg s := ((on_disk (disk_catalog (@latest St F snap_from_json (table_prefix cfg))) s).1).
Abbreviation rest F cfg := (@tick_rest St F snap_to_json snap_from_json to_json from_json parquet uuid cfg parallelism reader reopened).
Abbreviation fits F cfg := (@tick_fits St F snap_to_json snap_from_json to_json from_json parquet uuid cfg parallelism reader reopened).
Abbreviation leads worker := (leading snap_from_json to_json from_json uuid (config worker) parallelism reader reopened (data_dir args)).

(** A run id no object of the probe's directory has. *)
Definition probe_free (run : string) (st : St) : Prop :=
  ∀ suffix, objects st !! (prefix_of_args path_from args ++ ["_preflight"; String.append run suffix]) = None.

(** The worker after a turn of its retention loop. *)
Definition swept (w : World St) (leader : bool) (policy : RetentionPolicy) (now : Z) : Flusher St :=
  set_disk (mkDisk (retention_turn snap_from_json (table_prefix (config (w_worker w))) leader policy now (dk_view (fl_disk (w_flusher w))))
    (dk_files (fl_disk (w_flusher w)))) (w_flusher w).

(** Another client of the same objects, whose requests may fail. *)
Record client (F : ObjectStore St) : Prop := {
  cl_laws : @ObjectStoreLaws St F;
  cl_clean : @CleanStore St F;
  cl_objects : @objects St F = @objects St ObjectStore0;
}.

Lemma client_itself : client ObjectStore0.
Proof using ObjectStoreLaws0 ReliableStore0. split; apply _ || done. Qed.

(** What the rest of a tick takes, if it gets to know the newest snapshot. *)
Definition tick_room (F : ObjectStore St) (w : World St) (lost : bool) (now : Z) : Prop :=
  ∀ m, newest F (config (w_worker w)) (w_flusher w) = Ok (Some m) → fits F (config (w_worker w)) lost now (w_flusher w) (sm_sequence m) m.

Inductive step : World St → World St → Prop :=
| step_record w r :
    w_inflight w = None → next_record files (w_position w) r →
    step w (mkWorld (w_worker w) (set_forest (apply (fl_forest (w_flusher w)) (rec_event r)) (w_flusher w)) (w_position w) (Some r))
| step_buffer w r :
    w_inflight w = Some r →
    step w (mkWorld (w_worker w)
      (set_buffer (append (fl_buffer (w_flusher w)) (rec_partition r) (rec_offset r) (rec_event r)) (w_flusher w))
      (advance (w_position w) (rec_partition r) (rec_offset r)) None)
| step_ask w sc x :
    step w (with_flusher w (set_forest (scope_root (fl_forest (w_flusher w)) sc x).2 (w_flusher w)))
| step_seal w :
    step w (with_flusher w (set_buffer (seal_active (fl_buffer (w_flusher w))).2 (w_flusher w)))
| step_tick w F lost now r s :
    client F → tick_room F w lost now → rest F (config (w_worker w)) lost now (w_flusher w) = (r, s) →
    step w (with_flusher w s)
| step_merged w lost :
    step w (with_flusher w (finish_merge to_json (config (w_worker w)) parallelism lost (w_flusher w)))
| step_sweep w leader policy now : step w (with_flusher w (swept w leader policy now))
| step_crash w worker run st k d :
    objects st = disk_objects (fl_disk (w_flusher w)) → probe_free run st →
    starts worker run (mkDisk (mkView st 0) ∅) = (Ok k, d) →
    step w (boot worker (fl_uuids (w_flusher w)) k d).

(** What the log position, the buffer and the catalog are to each other. *)
Record tracked (w : World St) (evs durable : list EdgeEvent) (cm : StreamPosition) : Prop := {
  tr_position k : pos_get (w_position w) k = N.max (pos_get cm k) (buffer_high (fl_buffer (w_flusher w)) k);
  tr_range x : x ∈ files → pos_get (w_position w) x.1.1 <= N.of_nat (length x.2);
  tr_evs : logged (w_position w) files evs;
  tr_durable : logged cm files durable;
  tr_inflight r : w_inflight w = Some r → next_record files (w_position w) r ∧ rec_event r ∈ evs;
}.

(** A table whose leader has ingested [evs], with [durable] in the catalog. *)
Definition world_ok (w : World St) (evs durable : list EdgeEvent) : Prop :=
  ∃ l snaps ms first lo n meta,
    leads (w_worker w) (w_flusher w) evs durable l snaps ms first lo n meta ∧
    tracked w evs durable (stream_position (meta n)) ∧
    (∀ id, sm_stream (meta n) = Some id → same_stream id (mkStream "file" path None) = true).

Context (Hdisk : routing_base args = "disk") (Hlog : drains_log log_at args path files).
Context (Hlines : Forall (readable event_from_json pos_new) files) (Hparts : NoDup files.*1.*1).

Lemma on_directory worker : base_dir (config worker) = Some (data_dir args).
Proof using All. cbn. rewrite Hdisk. by rewrite bool_decide_eq_true_2. Qed.

Lemma tracked_covers w evs durable cm k : tracked w evs durable cm → pos_get cm k <= pos_get (w_position w) k.
Proof using All. intros [Hp _ _ _ _]. rewrite Hp. lia. Qed.

Lemma in_range_readable c :
  (∀ x, x ∈ files → pos_get c x.1.1 <= N.of_nat (length x.2)) → Forall (readable event_from_json c) files.
Proof using All.
  intros Hrg. apply Forall_forall. intros x Hx. destruct (proj1 (Forall_forall _ _) Hlines x Hx) as (H1 & _ & H3).
  split; [done|]. split; [by apply Hrg|done].
Qed.

(** ** Every step keeps the world in order *)

Lemma record_in_log c r : next_record files c r → rec_event r ∈ mjoin files.*2.
Proof using All.
  intros (x & Hx & _ & _ & He). apply list_elem_of_join. exists x.2. split; [by eapply list_elem_of_lookup_2|by apply list_elem_of_fmap_2].
Qed.

Lemma same_file x y : x ∈ files → y ∈ files → x.1.1 = y.1.1 → x = y.
Proof using All.
  intros [i Hi]%list_elem_of_lookup_1 [j Hj]%list_elem_of_lookup_1 E. pose proof Hparts as Hn. rewrite <- list_fmap_compose in Hn.
  assert (i = j) as <-; [|congruence]. eapply NoDup_lookup; [exact Hn| |]; rewrite list_lookup_fmap, ?Hi, ?Hj; cbn; f_equal; congruence.
Qed.

(** One more record of a partition is covered. *)
Lemma covered_advance c r e :
  next_record files c r → e ∈ mjoin (covered_part (advance c (rec_partition r) (rec_offset r)) <$> files) →
  e ∈ mjoin (covered_part c <$> files) ∨ e = rec_event r.
Proof using All.
  intros (x & Hx & Hp & Ho & He) (l & Hl & Hin)%list_elem_of_join. apply list_elem_of_fmap in Hin as (y & -> & Hy).
  unfold covered_part in Hl. rewrite pos_get_advance in Hl. case_decide as E.
  - assert (y = x) as -> by (apply same_file; congruence).
    rewrite Hp, Ho, N.max_r in Hl by lia. replace (N.to_nat (pos_get c (rec_partition r) + 1)) with
      (S (N.to_nat (pos_get c (rec_partition r)))) in Hl by lia.
    rewrite (take_S_r _ _ _ He), elem_of_app, list_elem_of_singleton in Hl. destruct Hl as [Hl|Hl]; [left|by right].
    apply list_elem_of_join. eexists. split; [|by apply list_elem_of_fmap_2]. unfold covered_part. by rewrite Hp.
  - left. apply list_elem_of_join. eexists. split; [|by apply list_elem_of_fmap_2]. exact Hl.
Qed.

Lemma step_record_ok w evs durable r :
  world_ok w evs durable → w_inflight w = None → next_record files (w_position w) r →
  world_ok (mkWorld (w_worker w) (set_forest (apply (fl_forest (w_flusher w)) (rec_event r)) (w_flusher w)) (w_position w) (Some r))
    (evs ++ [rec_event r]) durable.
Proof using All.
  intros (l & snaps & ms & first & lo & n & meta & Hld & [T1 T2 T3 T4 T5] & Hst) Hn Hr.
  exists l, snaps, ms, first, lo, n, meta. split; [|split; [split|done]]; try done.
  - eapply leading_forest; [exact Hld|by eapply apply_absorbed, leading_absorbed|apply apply_base].
  - destruct T3 as [L1 L2]. split; intros e; rewrite elem_of_app, list_elem_of_singleton; [by left; apply L1|].
    intros [He| ->]; [by apply L2|by eapply record_in_log].
  - intros r' [= <-]. split; [done|]. rewrite elem_of_app, list_elem_of_singleton. by right.
Qed.

Lemma step_buffer_ok w evs durable r :
  world_ok w evs durable → w_inflight w = Some r →
  world_ok (mkWorld (w_worker w)
    (set_buffer (append (fl_buffer (w_flusher w)) (rec_partition r) (rec_offset r) (rec_event r)) (w_flusher w))
    (advance (w_position w) (rec_partition r) (rec_offset r)) None) evs durable.
Proof using All.
  intros (l & snaps & ms & first & lo & n & meta & Hld & [T1 T2 T3 T4 T5] & Hst) Hr.
  destruct (T5 r Hr) as [Hnext He]. exists l, snaps, ms, first, lo, n, meta. split; [by apply leading_buffer|]. split; [split|done].
  - intros k. cbn [w_position w_flusher fl_buffer set_buffer]. rewrite pos_get_advance, high_append, T1.
    repeat case_decide; simplify_eq; lia.
  - intros x Hx. cbn [w_position]. rewrite pos_get_advance. case_decide as E; [|by apply T2].
    destruct Hnext as (y & Hy & Hp & Ho & Hl). assert (y = x) as -> by (apply same_file; congruence).
    apply lookup_lt_Some in Hl. specialize (T2 x Hx). rewrite <- E in *. lia.
  - split; [|apply T3]. intros e [H1|H1]%(covered_advance _ _ _ Hnext); [by apply T3|by subst].
  - done.
  - done.
Qed.

Lemma step_ask_ok w evs durable sc x :
  world_ok w evs durable →
  world_ok (with_flusher w (set_forest (scope_root (fl_forest (w_flusher w)) sc x).2 (w_flusher w))) evs durable.
Proof using All.
  intros (l & snaps & ms & first & lo & n & meta & Hld & [T1 T2 T3 T4 T5] & Hst).
  exists l, snaps, ms, first, lo, n, meta. split; [|split; [by split|done]].
  pose proof (leading_absorbed _ _ _ _ _ _ _ _ _ _ _ _ _ _ _ _ _ _ _ Hld) as I.
  eapply leading_forest; [exact Hld| |apply scope_root_base].
  exact (step_absorbed (Er := unit) (T := unit) bw_push (_, evs) _ (step_query bw_push _ evs sc x) I).
Qed.

Lemma step_seal_ok w evs durable :
  world_ok w evs durable →
  world_ok (with_flusher w (set_buffer (seal_active (fl_buffer (w_flusher w))).2 (w_flusher w))) evs durable.
Proof using All.
  intros (l & snaps & ms & first & lo & n & meta & Hld & [T1 T2 T3 T4 T5] & Hst).
  exists l, snaps, ms, first, lo, n, meta. split; [by apply leading_buffer|]. split; [split|done]; try done.
  intros k. cbn [w_position w_flusher with_flusher fl_buffer set_buffer]. by rewrite high_seal.
Qed.

Lemma step_merged_ok w evs durable lost :
  world_ok w evs durable →
  world_ok (with_flusher w (finish_merge to_json (config (w_worker w)) parallelism lost (w_flusher w))) evs durable.
Proof using All.
  intros (l & snaps & ms & first & lo & n & meta & Hld & [T1 T2 T3 T4 T5] & Hst).
  destruct (finish_leads snap_from_json to_json from_json uuid (config (w_worker w)) parallelism reader reopened (data_dir args)
    lost _ _ _ _ _ _ _ _ _ _ Hld) as (Hld' & _ & Hb).
  exists l, snaps, ms, first, lo, n, meta. split; [exact Hld'|]. split; [split|done]; try done.
  intros k. cbn [w_position w_flusher with_flusher]. by rewrite Hb.
Qed.

Lemma step_sweep_ok w evs durable leader policy now :
  world_ok w evs durable → world_ok (with_flusher w (swept w leader policy now)) evs durable.
Proof using All.
  intros (l & snaps & ms & first & lo & n & meta & Hld & [T1 T2 T3 T4 T5] & Hst). unfold swept, retention_turn. destruct leader.
  - exists l, snaps, ms, n, lo, n, meta. split; [|split; [by split|done]].
    exact (swept_leads snap_from_json to_json from_json uuid (config (w_worker w))
      parallelism reader reopened (data_dir args) policy now _ _ _ _ _ _ _ _ _ _ _ _ Hld (surjective_pairing _)).
  - exists l, snaps, ms, first, lo, n, meta. split; [|split; [by split|done]]. destruct (w_flusher w) as [? ? [] ? ? ?]. done.
Qed.

(** The buffer and the position of a world after a tick. *)
Lemma tracked_ticked w evs durable durable' s m m' :
  tracked w evs durable (stream_position m) → ticked (w_flusher w) evs durable m m' (fl_buffer s) durable' →
  tracked (with_flusher w s) evs durable' (stream_position m').
Proof using All.
  set (cm := stream_position m). set (b := fl_buffer (w_flusher w)). intros [T1 T2 T3 T4 T5] Hti.
  destruct Hti as [Hpos Hb|Hpos Hb]; (split; [|exact T2|exact T3| |exact T5]); fold cm in Hpos.
  - intros k. cbn [w_position w_flusher with_flusher]. rewrite T1, (Hpos k). fold b in Hb |- *.
    destruct Hb as [->| ->]; [done|]. fold cm. by rewrite (high_drop b cm cm k ltac:(intros ?; lia)).
  - destruct T4 as [D1 D2]. split; [|done]. intros e. rewrite (covered_equiv (stream_position m') cm); [apply D1|exact Hpos].
  - intros k. unfold rest_position, rest_segments in Hpos, Hb. fold cm b in Hpos, Hb. set (segs := sealed (drop_committed b cm).2) in *.
    assert (∀ k, pos_get (stream_position m') k = N.max (pos_get cm k) (segments_high segs k)) as Hcm.
    { intros j. rewrite (Hpos j), pos_get_merge, segments_position, (pos_get_None pos_new) by apply lookup_empty. lia. }
    cbn [w_position w_flusher with_flusher]. rewrite T1, Hb. fold b.
    assert (covers (stream_position m') (pos_merge cm (foldl (fun p sg => pos_merge p (sg_last sg)) pos_new segs))) as C1.
    { intros j. by rewrite (Hpos j). }
    assert (covers (stream_position m') cm) as C2 by (intros j; rewrite Hcm; lia).
    rewrite (high_drop _ _ _ k C1), (high_drop _ _ _ k C2), Hcm. pose proof (segments_bound b cm k) as Hle. fold segs in Hle. lia.
  - destruct T3 as [D1 D2]. split; [|done]. intros e He. apply D1. revert He.
    intros (lx & Hl & Hin)%list_elem_of_join. apply list_elem_of_fmap in Hin as (x & -> & Hx).
    apply list_elem_of_join. exists (covered_part (w_position w) x). split; [|by apply list_elem_of_fmap_2].
    unfold covered_part in *. apply elem_of_take in Hl as (i & Hi & Hlt). apply elem_of_take.
    exists i. split; [done|]. rewrite T1. rewrite (Hpos x.1.1) in Hlt. unfold rest_position, rest_segments in Hlt. fold cm b in Hlt |- *.
    rewrite pos_get_merge, segments_position, (pos_get_None pos_new) in Hlt by apply lookup_empty.
    pose proof (segments_bound b cm x.1.1) as Hle. lia.
Qed.

(** The rest of a tick keeps the world in order, whichever of its requests fail; if none
    does, it succeeds. *)
Lemma step_tick_ok F w evs durable lost now :
  world_ok w evs durable → client F → tick_room F w lost now →
  ∃ r s durable', rest F (config (w_worker w)) lost now (w_flusher w) = (r, s) ∧ world_ok (with_flusher w s) evs durable' ∧
    (@ReliableStore St F → r = Ok tt).
Proof using All.
  intros (l & snaps & ms & first & lo & n & meta & Hld & T & Hst) [FL FC FO] Hfits. pose proof (on_directory (w_worker w)) as Hdir.
  apply (leading_same ObjectStore0 F) in Hld; [|by symmetry]. set (cfg := config (w_worker w)) in *.
  assert (sm_sequence (meta n) = n) as Hseq by (apply (ic_seq _ _ _ _ _ _ _ _ _ _ _ _ (hd_stands _ _ _ _ _ _ _ _ _ _ _ _ _ _ _ _
    (ld_held _ _ _ _ _ _ _ _ _ _ _ _ _ _ _ _ _ _ _ Hld)))).
  destruct (@tick_leads St F FL FC _ snap_to_json snap_from_json snap_roundtrip to_json from_json json_roundtrip parquet uuid uuid_unique cfg
    parallelism reader reopened (data_dir args) Hdir lost now _ _ _ _ _ _ _ _ _ _ Hld)
    as (r & s' & durable' & l' & snaps' & ms' & n' & meta' & Er & Hrel & Hld' & Hti & Hstr).
  { intros E. specialize (Hfits _ E). by rewrite Hseq in Hfits. }
  exists r, s', durable'. split; [exact Er|]. split; [|exact Hrel]. exists l', snaps', ms', first, lo, n', meta'.
  split; [by apply (leading_same F ObjectStore0)|]. split; [by eapply tracked_ticked|].
  destruct Hstr as [->| ->]; [exact Hst|]. cbn. unfold stream_id. rewrite (dl_log _ _ _ _ Hlog). cbn. intros id [= <-].
  unfold same_stream. cbn. by rewrite !bool_decide_eq_true_2.
Qed.

(** The catalog describes the stack a restarted worker maps as it described the old one. *)
Lemma restands cfg (v v' : CatalogView St) l ms first lo n meta :
  stands cfg v l ms first lo n meta → objects (cv_store v') = objects (cv_store v) → cached_seq v' = n →
  ∃ ms', stands cfg v' (reopened_layers args l (runs (meta n))) ms' first lo n meta.
Proof using All.
  intros Hic Ho Hc. set (rs := runs (meta n)).
  destruct (named_runs snap_from_json from_json cfg reader reopened v l ms first lo n meta "" (mkDisk v' ∅) Hic) as (Ht & _ & Hst).
  fold rs in Ht, Hst. destruct Hic as [Hd _ _ _ Hs _ Hlo _].
  destruct (committed_all_metas rs (cache_paths (data_dir args) rs) (layers (ll_base l))) as (ms' & Em & Ek);
    [by unfold cache_paths; rewrite length_fmap|by eapply Forall2_length|].
  pose proof (ds_range _ _ _ _ _ _ Hd) as (R1 & R2 & R3). exists ms'. split; try done.
  - destruct Hd as [E1 E2 E3 E4]. split; rewrite ?Ho; done.
  - right. lia.
  - by eapply tiles_keys.
  - rewrite Ho. apply stored_committed; [by unfold cache_paths; rewrite length_fmap|done].
Qed.

(** A table at rest: its newest snapshot stands for [durable], which is what its position
    covers of the log and maybe more of it. *)
Record table_ok (objs : gmap Path Object) (uuids : nat) (durable : list EdgeEvent) (cfg : Config) (v : CatalogView St)
    (l : LocalLayers) (snaps : list ForestSnapshot) (ms : list RunMeta) (first lo n : N) (meta : N → SnapshotMeta) : Prop := {
  tb_objects : objs = objects (cv_store v);
  tb_stands : stands cfg v l ms first lo n meta;
  tb_stack : stack_inv (ll_base l) snaps;
  tb_durable : absorbed (with_base (layered_routing (ll_base l))) durable;
  tb_ids : ids_fresh uuid cfg objs uuids;
  tb_metas : consistent snap_from_json (table_prefix cfg) objs;
  tb_logged : logged (stream_position (meta n)) files durable;
  tb_range x : x ∈ files → pos_get (stream_position (meta n)) x.1.1 <= N.of_nat (length x.2);
  tb_stream id : sm_stream (meta n) = Some id → same_stream id (mkStream "file" path None) = true;
}.

Lemma world_table w evs durable :
  world_ok w evs durable →
  ∃ v l snaps ms first lo n meta, table_ok (disk_objects (fl_disk (w_flusher w))) (fl_uuids (w_flusher w)) durable
    (config (w_worker w)) v l snaps ms first lo n meta.
Proof using All.
  intros (l & snaps & ms & first & lo & n & meta & Hld & T & Hst). pose proof Hld as [[Hic Hsi Hdu Hid _ Hcs] _].
  exists (dk_view (fl_disk (w_flusher w))), l, snaps, ms, first, lo, n, meta. split; try done; [apply T|].
  intros x Hx. pose proof (tracked_covers _ _ _ _ x.1.1 T). pose proof (tr_range _ _ _ _ T x Hx). lia.
Qed.

(** A worker that starts on a table finds it as it is. *)
Lemma table_boots cfg worker run (st : St) uuids durable v l snaps ms first lo n meta :
  table_ok (objects st) uuids durable cfg v l snaps ms first lo n meta → table_prefix cfg = prefix_of_args path_from args →
  probe_free run st →
  ∃ k d log, starts worker run (mkDisk (mkView st 0) ∅) = (Ok k, d) ∧ disk_objects d = objects st ∧ wk_ingest k = FromParts log ∧
    world_ok (boot worker uuids k d) durable durable.
Proof using All.
  intros [Ho Hic Hs Hdu Hid Hcs Hlg Hrg Hst] Hpre Hf.
  pose proof (in_range_readable _ Hrg) as Hr.
  destruct (seek_opened event_from_json _ files Hr) as (ps & Hseek & _).
  pose proof (stands_cfg snap_from_json from_json reader reopened cfg (config worker) _ _ _ _ _ _ _ Hpre Hic) as Hic'.
  destruct (start_disk_ok snap_from_json from_json path_from reader reopened log_at args worker run path files _ l ms first lo n meta st
    (mkPartitioned ps) Hdisk Hlog Hic' Ho Hf Hst Hseek) as (leader & d & Es & Hod & Hcd).
  eexists _, d, _. split; [exact Es|]. split; [done|]. split; [done|].
  destruct (restands _ _ (dk_view d) _ _ _ _ _ _ Hic') as (ms' & Hic2); [congruence|done|].
  destruct (named_runs snap_from_json from_json (config worker) reader reopened _ l ms first lo n meta "" (mkDisk v ∅) Hic')
    as (Ht & _ & Hlen%Forall2_length).
  pose proof (ds_range _ _ _ _ _ _ (ic_dense _ _ _ _ _ _ _ _ _ _ _ _ Hic)) as (R1 & R2 & R3).
  exists (reopened_layers args l (runs (meta n))), snaps, ms', first, lo, n, meta. split; [split|split; [split|done]]; try done.
  - split; try done; cbn [boot w_flusher fl_disk fl_uuids]; rewrite Hod.
    + intros j q Hj. specialize (Hid j q Hj). by rewrite Hpre in Hid.
    + by rewrite Hpre in Hcs.
  - exists (reopened_layers args l (runs (meta n))), snaps. split.
    + split; [done| | |done]; unfold boot, new_forest; cbn [fl_forest w_flusher wk_pipeline resuming pl_forest].
      * destruct (arg_member_index args); [by apply tracking_absorbed|done].
      * by destruct (arg_member_index args).
    + apply in_step; [|done]. cbn [reopened_layers ll_runs]. rewrite committed_all_paths; [|by unfold cache_paths; rewrite length_fmap|done].
      by apply (cache_names_ok (config worker) (data_dir args) _ lo).
  - intros k. cbn. unfold buffer_high. cbn. rewrite (pos_get_None pos_new) by apply lookup_empty. lia.
Qed.

Lemma step_crash_ok w evs durable worker run (st : St) :
  world_ok w evs durable → objects st = disk_objects (fl_disk (w_flusher w)) → probe_free run st →
  ∃ k d log, starts worker run (mkDisk (mkView st 0) ∅) = (Ok k, d) ∧ disk_objects d = objects st ∧ wk_ingest k = FromParts log ∧
    world_ok (boot worker (fl_uuids (w_flusher w)) k d) durable durable.
Proof using All.
  intros Hw Ho Hf. destruct (world_table _ _ _ Hw) as (v & l & snaps & ms & first & lo & n & meta & Ht). rewrite <- Ho in Ht.
  by eapply table_boots.
Qed.

(** ** Histories *)

Lemma step_ok w w' evs durable :
  step w w' → world_ok w evs durable → ∃ evs' durable', world_ok w' evs' durable'.
Proof using All.
  intros S0 Hw. destruct S0 as [w r Hn Hr|w r Hr|w sc x|w|w F lost now r s HF Hf Hr|w lost|w leader policy now|w worker run st k d Ho Hf Hs].
  - eexists _, _. by apply step_record_ok.
  - eexists _, _. by apply step_buffer_ok.
  - eexists _, _. by apply step_ask_ok.
  - eexists _, _. by apply step_seal_ok.
  - destruct (step_tick_ok F w evs durable lost now Hw HF Hf) as (r' & s' & du & E & Hw' & _). rewrite Hr in E. injection E as -> ->.
    by exists evs, du.
  - eexists _, _. by apply step_merged_ok.
  - eexists _, _. by apply step_sweep_ok.
  - destruct (step_crash_ok w evs durable worker run st Hw Ho Hf) as (k' & d' & log & E & _ & _ & Hw'). rewrite Hs in E.
    injection E as -> ->. by exists durable, durable.
Qed.

Lemma steps_ok w w' evs durable :
  rtc step w w' → world_ok w evs durable → ∃ evs' durable', world_ok w' evs' durable'.
Proof using All.
  intros Hst. revert evs durable. induction Hst as [w|w w1 w2 S0 _ IH]; intros evs durable Hw; [by exists evs, durable|].
  destruct (step_ok _ _ _ _ S0 Hw) as (evs1 & du1 & Hw1). by eapply IH.
Qed.

(** A worker that starts on a table and drains the log answers for all of it. *)
Lemma table_drains worker run cfg (st : St) uuids durable v l snaps ms first lo n meta turns :
  table_ok (objects st) uuids durable cfg v l snaps ms first lo n meta → table_prefix cfg = prefix_of_args path_from args →
  probe_free run st → (length (mjoin files.*2) < turns)%nat →
  ∃ k' d' log log' last p', starts worker run (mkDisk (mkView st 0) ∅) = (Ok k', d') ∧ wk_ingest k' = FromParts log ∧
    @consume _ (parts_source event_from_json) turns (fun _ => false) (mkConsumer (edge_log_batch args)) log (wk_pipeline k') =
      Some (Ok last, log', p') ∧
    ∀ sc x, is_component_min (visible_edges (mjoin files.*2) sc) x (scope_root (pl_forest p') sc x).1.
Proof using All.
  intros [Ho Hic Hs Hdu Hid Hcs Hlg Hrg Hst] Hpre Hf Hturns.
  pose proof (in_range_readable _ Hrg) as Hr.
  pose proof (stands_cfg snap_from_json from_json reader reopened cfg (config worker) _ _ _ _ _ _ _ Hpre Hic) as Hic'.
  destruct (restart_exact snap_to_json snap_from_json snap_roundtrip to_json from_json json_roundtrip event_from_json parquet uuid path_from
    parallelism reader reopened log_at args worker run path files durable (meta n) n (stream_position (meta n)) turns st Hlog Hr Hparts Hlg
    Hturns (reflexivity _) Hst Hf) as (k & d & log & log' & last & p' & E & _ & E2 & E3 & E4).
  { intros st1 H1. destruct (open_forest_disk snap_from_json from_json path_from reader reopened log_at args worker v l ms first lo n meta
      st1 Hdisk Hic' ltac:(congruence)) as (d & Eo & H2 & H3).
    eexists _, _, d. split; [exact Eo|]. split; [|done]. unfold new_forest.
    destruct (arg_member_index args); [by apply tracking_absorbed|done]. }
  by exists k, d, log, log', last, p'.
Qed.

(** A batch of the ingest task is steps: each record is applied, then buffered. *)
Lemma ingest_steps worker s p r :
  let world p := mkWorld worker (set_buffer (pl_buffer p) (set_forest (pl_forest p) s)) (position (pl_stats p)) None in
  next_record files (position (pl_stats p)) r → rtc step (world p) (world (ingest_one p r)).
Proof using All.
  intros world Hr. eapply rtc_l; [apply (step_record (world p) r); done|]. eapply rtc_l; [by apply step_buffer|]. done.
Qed.

(** ** Scripts

    A history as a script: what each step needs is checked before it is taken. A tick is
    torn when it has the requests of another client, that fails at times. *)

Section scripts.

Inductive Act := ActRecord (p : PartitionId) | ActBuffer | ActAsk (sc : ScopeId) (x : NodeId) | ActSeal | ActTick (lost : bool) (now : Z)
| ActTorn (lost : bool) (now : Z) | ActMerged (lost : bool) | ActSweep (leader : bool) (policy : RetentionPolicy) (now : Z) | ActCrash (worker run : string).

(** The record a partition has next. *)
Definition record_of (c : StreamPosition) (p : PartitionId) : option LogRecord :=
  x ← List.find (fun x => x.1.1 =? p) files;
  e ← x.2 !! N.to_nat (pos_get c p);
  Some (mkRecord p (pos_get c p + 1) e).

Lemma record_of_spec c p r : record_of c p = Some r → next_record files c r.
Proof using.
  unfold record_of. destruct (List.find _ _) as [x|] eqn:Ex; cbn; [|done]. destruct (x.2 !! _) as [e|] eqn:Ee; cbn; [|done].
  intros [= <-]. apply List.find_some in Ex as [Hx Hp%N.eqb_eq]. exists x. by rewrite list_elem_of_In.
Qed.

Definition probe_freeb (st : St) : bool :=
  forallb (fun po => negb (bool_decide (prefix_of_args path_from args ++ ["_preflight"] `prefix_of` po.1))) (map_to_list (objects st)).

Lemma probe_freeb_spec run st : probe_freeb st = true → probe_free run st.
Proof using.
  intros Hm suffix. destruct (objects st !! _) as [o|] eqn:E; [|done]. exfalso. apply elem_of_map_to_list in E.
  unfold probe_freeb in Hm. rewrite forallb_forall in Hm. apply list_elem_of_In in E. specialize (Hm _ E). cbn [fst] in Hm.
  rewrite bool_decide_eq_true_2 in Hm; [done|]. exists [String.append run suffix]. by rewrite <- app_assoc.
Qed.

Definition pending_smallb (s : Flusher St) : bool :=
  match fl_pending s with
  | Some p =>
      match pm_finished p with
      | Some (Ok res) => bool_decide (merge_fits (pm_stack p)) && bool_decide (N.of_nat (length (mr_bytes res)) <= 2 ^ 38)
      | _ => true
      end
  | None => true
  end.

Lemma pending_smallb_spec s : pending_smallb s = true → pending_small s.
Proof using.
  unfold pending_smallb. intros Hq p Hp res Hr. rewrite Hp, Hr in Hq. apply andb_true_iff in Hq as [H1 H2].
  by apply bool_decide_eq_true in H1, H2.
Qed.

Definition merges_smallb (F : ObjectStore St) (cfg : Config) (lost : bool) (now : Z) (n : N) (position : StreamPosition) (s : Flusher St) : bool :=
  pending_smallb s &&
  (negb (inline_merges cfg) ||
   match @adopt_merge St F snap_to_json from_json uuid cfg reader reopened now (n + 1) position s with
   | (Ok adopted, s1) => pending_smallb (finish_merge to_json cfg parallelism lost
       (start_merge cfg (if (adopted : bool) then n + 1 + 1 else n + 1) position s1).2)
   | _ => true
   end).

Lemma merges_smallb_spec F cfg lost now n position s :
  merges_smallb F cfg lost now n position s = true →
  @merges_small St F snap_to_json to_json from_json uuid cfg parallelism reader reopened lost now n position s.
Proof using.
  intros [H1 H2]%andb_true_iff. split; [by apply pending_smallb_spec|]. intros Hi adopted s1 E. rewrite Hi, E in H2.
  by apply pending_smallb_spec.
Qed.

Definition batch_fitsb (cfg : Config) (s : Flusher St) (n : N) (segments : list Segment) (position : StreamPosition) : bool :=
  let mem := (stream_memtable (tier (fl_forest s))).1 in
  let all := (compact_locked (tier (fl_forest s))).1 in
  bool_decide (is_Some (parquet (sg_batch <$> segments))) &&
  match fl_layers s with
  | Some l =>
      if fully_committed l then
        match puffin_write to_json (bw_finish (foldl bw_push (bw_new (n + 1) (write cfg)) mem)) (puffin_metadata position) with
        | Ok data => bool_decide (snap_fit (collect mem)) && bool_decide (N.of_nat (length mem) < u64_limit) &&
            bool_decide (N.of_nat (length data) <= 2 ^ 38)
        | Err _ => false
        end
      else
        match puffin_write to_json (compact_to_blobs (fl_forest s) (n + 1) (write cfg)) (puffin_metadata position) with
        | Ok data => bool_decide (snap_fit (snapshot (fl_forest s)).1) && bool_decide (N.of_nat (length all) < u64_limit) &&
            bool_decide (N.of_nat (length data) <= 2 ^ 38)
        | Err _ => false
        end
  | None => false
  end.

Lemma batch_fitsb_spec cfg s n segments position :
  batch_fitsb cfg s n segments position = true →
  ∃ pq data, batch_fits to_json parquet cfg s n segments position pq data.
Proof using.
  unfold batch_fitsb, batch_fits. intros [[pq Hp]%bool_decide_eq_true Hq]%andb_true_iff. exists pq.
  destruct (fl_layers s) as [l|]; [|done]. destruct (fully_committed l);
    (destruct (puffin_write _ _ _) as [data|e]; [|done]; rewrite !andb_true_iff, !bool_decide_eq_true in Hq;
     destruct Hq as [[H1 H2] H3]; by exists data).
Qed.

Definition tick_fitsb (F : ObjectStore St) (cfg : Config) (lost : bool) (now : Z) (s : Flusher St) (n : N) (m : SnapshotMeta) : bool :=
  let seen := @observed St F snap_from_json cfg s m in
  bool_decide (n + 6 < u64_limit) && bool_decide (N.of_nat (size (@objects St F (cv_store (dk_view (fl_disk s))))) + 8 < u64_limit - 1) &&
  merges_smallb F cfg lost now n (stream_position m) seen &&
  match @tick_merges St F snap_to_json to_json from_json uuid cfg parallelism reader reopened lost now (n + 1) (stream_position m) seen with
  | (Ok next, s1) => batch_fitsb cfg s1 (next - 1) (rest_segments s m) (rest_position s m)
  | _ => true
  end &&
  match cfg_stream cfg, sm_stream m with Some a, Some b => same_stream a b | _, _ => true end.

Lemma tick_fitsb_spec F cfg lost now s n m : tick_fitsb F cfg lost now s n m = true → fits F cfg lost now s n m.
Proof using.
  unfold tick_fitsb. rewrite !andb_true_iff, !bool_decide_eq_true. intros [[[[H1 H2] H3] H4] H5]. split.
  - done.
  - by apply merges_smallb_spec.
  - intros s1 n1 _ E. rewrite E, N.add_sub in H4. by apply batch_fitsb_spec.
  - intros a b Ha Hb. by rewrite Ha, Hb in H5.
Qed.

Definition tick_on (F : ObjectStore St) (w : World St) (lost : bool) (now : Z) : option (World St) :=
  let after := Some (with_flusher w (rest F (config (w_worker w)) lost now (w_flusher w)).2) in
  match newest F (config (w_worker w)) (w_flusher w) with
  | Ok (Some m) => if tick_fitsb F (config (w_worker w)) lost now (w_flusher w) (sm_sequence m) m then after else None
  | _ => after
  end.

Lemma tick_on_step F w lost now w' : client F → tick_on F w lost now = Some w' → step w w'.
Proof using.
  intros HF. unfold tick_on. destruct (newest F _ _) as [[m|]|e] eqn:E; [destruct (tick_fitsb _ _ _ _ _ _ _) eqn:Ef; [|done]|..];
    intros [= <-]; (eapply (step_tick w F lost now); [done| |apply surjective_pairing]); intros m'; rewrite E; try done.
  intros [= <-]. by apply tick_fitsb_spec.
Qed.

Definition crash (w : World St) (worker run : string) : option (World St) :=
  let st := cv_store (dk_view (fl_disk (w_flusher w))) in
  if probe_freeb st then
    match starts worker run (mkDisk (mkView st 0) ∅) with
    | (Ok k, d) => Some (boot worker (fl_uuids (w_flusher w)) k d)
    | _ => None
    end
  else None.

Context (flaky : ObjectStore St).

Definition act (w : World St) (a : Act) : option (World St) :=
  match a with
  | ActRecord p =>
      match w_inflight w with
      | Some _ => None
      | None =>
          r ← record_of (w_position w) p;
          Some (mkWorld (w_worker w) (set_forest (apply (fl_forest (w_flusher w)) (rec_event r)) (w_flusher w)) (w_position w) (Some r))
      end
  | ActBuffer =>
      r ← w_inflight w;
      Some (mkWorld (w_worker w)
        (set_buffer (append (fl_buffer (w_flusher w)) (rec_partition r) (rec_offset r) (rec_event r)) (w_flusher w))
        (advance (w_position w) (rec_partition r) (rec_offset r)) None)
  | ActAsk sc x => Some (with_flusher w (set_forest (scope_root (fl_forest (w_flusher w)) sc x).2 (w_flusher w)))
  | ActSeal => Some (with_flusher w (set_buffer (seal_active (fl_buffer (w_flusher w))).2 (w_flusher w)))
  | ActTick lost now => tick_on ObjectStore0 w lost now
  | ActTorn lost now => tick_on flaky w lost now
  | ActMerged lost => Some (with_flusher w (finish_merge to_json (config (w_worker w)) parallelism lost (w_flusher w)))
  | ActSweep leader policy now => Some (with_flusher w (swept w leader policy now))
  | ActCrash worker run => crash w worker run
  end.

Context (Hflaky : client flaky).

Lemma act_step w a w' : act w a = Some w' → step w w'.
Proof using Hflaky ObjectStoreLaws0 ReliableStore0.
  destruct a as [p| |sc x| |lost now|lost now|lost|leader policy now|worker run]; cbn [act].
  - destruct (w_inflight w) eqn:E; [done|]. destruct (record_of _ _) as [r|] eqn:Er; cbn; [|done]. intros [= <-].
    by eapply step_record, record_of_spec.
  - destruct (w_inflight w) as [r|] eqn:E; [|done]. intros [= <-]. by apply step_buffer.
  - intros [= <-]. apply step_ask.
  - intros [= <-]. apply step_seal.
  - apply tick_on_step, client_itself.
  - by apply tick_on_step.
  - intros [= <-]. apply step_merged.
  - intros [= <-]. apply step_sweep.
  - unfold crash. destruct (probe_freeb _) eqn:Ep; [|done]. destruct (starts _ _ _) as [[k|e] d] eqn:E; [|done]. intros [= <-].
    by eapply step_crash; [|apply probe_freeb_spec|].
Qed.

Fixpoint play (w : World St) (script : list Act) : option (World St) :=
  match script with [] => Some w | a :: script => w ← act w a; play w script end.

Lemma play_app script script' : ∀ w, play w (script ++ script') = play w script ≫= fun w => play w script'.
Proof using. induction script as [|a script IH]; intros w; [done|]. cbn [app play]. destruct (act w a) as [w1|]; [apply IH|done]. Qed.

Lemma play_steps script : ∀ w w', play w script = Some w' → rtc step w w'.
Proof using Hflaky ObjectStoreLaws0 ReliableStore0.
  induction script as [|a script IH]; intros w w'; cbn [play]; [by intros [= <-]|].
  destruct (act w a) as [w1|] eqn:E; cbn; [|done]. intros H1. eapply rtc_l; [by eapply act_step|by apply IH].
Qed.
End scripts.

End history.

(** ** At work

    The table of the flush loop's demonstration, merged as soon as it has two runs. Its
    first leader reads a line and commits it, reads another while a tick starts a merge,
    and commits that line in the tick that adopts the merged run; then it dies. *)

Definition life_args : Args :=
  mkArgs "0.0.0.0:8080" "0.0.0.0:50051" "memory://" "t" "disk" "d" 1000 24 2 false 4 RegBlocked true false false 3600 10 24 3600 (Some "logs") false
    2 60 None false 5000 1000000 3000 "static:true" "default" "blaze-committer".

Definition unary (n : nat) : string := Nat.iter n (String.String (Ascii.ascii_of_N 117)) "".

Lemma unary_unique i j : unary i = unary j → i = j.
Proof.
  assert (∀ n, String.length (unary n) = n) as Hl by (intros n; induction n as [|n IH]; [done|exact (f_equal S IH)]).
  intros E. by rewrite <- (Hl i), E, Hl.
Qed.

Lemma demo_ids k : ids_fresh unary (config_of demo_path life_args "w") (objects (mkView demo_store 1).(cv_store)) k.
Proof.
  intros j q _. assert (∀ p, objects (mkView demo_store 1).(cv_store) !! p = None ∨ p = snap_path ["t"] 1 ∨ p = demo_object) as Hp.
  { intros p. cbn. destruct (decide (p = snap_path ["t"] 1)); [by right; left|]. destruct (decide (p = demo_object)); [by right; right|].
    left. by rewrite !lookup_insert_ne, lookup_empty by done. }
  split.
  - destruct (Hp (run_object_path ["t"] q (unary j))) as [H|[H|H]]; [done| |discriminate H].
    exfalso. revert H. apply not_snap_path, not_metadata. done.
  - destruct (Hp (data_object_path ["t"] q (unary j))) as [H|[H|H]]; [done| |discriminate H].
    exfalso. revert H. apply not_snap_path, not_metadata. done.
Qed.

Lemma demo_metas : consistent demo_snap_from_json ["t"] (objects demo_store).
Proof.
  assert (∀ s m, s < u64_limit → meta_at demo_snap_from_json ["t"] (objects demo_store) s = Some m → s = 1 ∧ m = demo_committed) as Hm.
  { intros s m Hs. destruct (decide (s = 1)) as [->|Hne].
    - assert (meta_at demo_snap_from_json ["t"] (objects demo_store) 1 = Some demo_committed) as -> by (by vm_compute). by intros [= <-].
    - unfold meta_at. cbn [objects memory_store demo_store store_in mem_objects]. rewrite !lookup_insert_ne, lookup_empty; [done|discriminate|]. intros E%snap_path_inj; [by subst|done|done]. }
  split; intros s m.
  - intros Hs [-> ->]%Hm; done.
  - intros p Hs [-> ->]%Hm; [|done]. rewrite mentions_paths. cbn.
    rewrite !list_elem_of_singleton, elem_of_nil. intros [->|[[]| ->]]; by apply (not_metadata ["t"]).
Qed.

Lemma demo_table :
  table_ok demo_snap_from_json demo_from_json unary Buffered true "logs" demo_parts (objects demo_store) 0 demo_events
    (config_of demo_path life_args "w") (mkView demo_store 1) demo_led [(snapshot demo_state).1] [local_meta demo_run_local demo_object] 1 1 1
    (fun _ => demo_committed).
Proof.
  destruct demo_stack_spec as [Is _]. split; [done| |exact Is| |apply demo_ids|exact demo_metas| | |done].
  - apply (stands_cfg demo_snap_from_json demo_from_json Buffered true demo_cfg); [done|]. apply demo_stands. by right.
  - destruct (full_map_run demo_to_json demo_from_json demo_json demo_state demo_events 3 demo_opts ∅ Buffered true demo_run
      demo_absorbed demo_run_written demo_run_fits) as (l & El & _ & Be & _).
    assert (demo_layer = l) as E by (unfold demo_layer; by rewrite El). cbn [demo_led ll_base]. unfold demo_stack. rewrite E.
    apply (with_base_absorbed demo_state).
    by apply (fold_published demo_state demo_events (bw_new 3 demo_opts) (fun _ => Ok (layered_routing (layered_new l), tt))
      (Er := unit) _ tt demo_absorbed).
  - apply logged_perm. by vm_compute.
  - intros x ->%list_elem_of_singleton. by vm_compute.
Qed.

Lemma life_drains : drains_log demo_log life_args "logs" demo_parts.
Proof. split; try by vm_compute. by exists [("partition-0.ndjson", demo_text); ("notes", [])]. Qed.

(** A client of the store whose puts get through and whose creates are all lost on the way. *)
Definition severed_store : ObjectStore Memory :=
  Build_ObjectStore Memory mem_objects mem_get mem_head mem_put (fun _ _ st => (Err StoreFailure, st)) mem_delete mem_list.

Lemma severed_client : @client Memory memory_store severed_store.
Proof.
  split; [|split|done]; [|by intros p b st e [= <-]].
  destruct memory_laws as [H1 H2 H3 H4 H5 H6 H7 H8 _ _ _ H12 H13 H14 H15 H16].
  split; try done. intros p b st e _. by left.
Qed.

(** A line is committed, and a tick starts to merge the two runs there are then. The
    adoption is lost, the merge done again, and adopted. The next line's commit is lost, and
    the delta it was for folded again with all the rest. *)
Definition life_script : list (list Act) :=
  [[ActRecord 0; ActBuffer; ActSeal; ActTick false 7; ActTick false 8; ActAsk 7 2; ActMerged false];
   [ActTorn false 9; ActTick false 10; ActMerged false; ActRecord 0; ActTick false 11; ActBuffer; ActSeal];
   [ActTorn false 12]; [ActTick false 13]; [ActSweep true (mkPolicy 1 0 0) 1000]; [ActCrash "v" "u1"]].

Abbreviation life_run := (@play Memory memory_store memory_race merge_edge_sort demo_snap_to_json demo_snap_from_json demo_to_json
  demo_from_json demo_parquet unary demo_path 1 Buffered true demo_log life_args demo_parts severed_store).

Definition life_play (script : list Act) : option (World Memory) :=
  match start demo_snap_from_json demo_from_json demo_path Buffered true demo_log life_args "w" "u1"
    (mkDisk (mkView demo_store 0) ∅) with
  | (Ok k, d) => life_run (boot "w" 0 k d) script
  | _ => None
  end.

(** A leader's name and position, the files its stack maps, oldest first, and how many
    objects its table has. *)
Definition life_shows (w : World Memory) : string * N * list string * nat :=
  (w_worker w, pos_get (w_position w) 0, from_option (fun l => lr_path <$> ll_runs l) [] (fl_layers (w_flusher w)),
   size (objects (cv_store (dk_view (fl_disk (w_flusher w)))))).

(** What a world shows after each part of a script, and the world it comes to. *)
Fixpoint life_tour (w : option (World Memory)) (parts : list (list Act)) : list (option (string * N * list string * nat)) * option (World Memory) :=
  match parts with
  | [] => ([], w)
  | acts :: parts => let w := w ≫= fun w => life_run w acts in let t := life_tour w parts in ((life_shows <$> w) :: t.1, t.2)
  end.

Lemma life_tour_plays parts : ∀ w, (life_tour w parts).2 = w ≫= fun w => life_run w (mjoin parts).
Proof.
  induction parts as [|acts parts IH]; intros w; [by destruct w|]. cbn [life_tour snd]. rewrite IH. destruct w as [w|]; [|done].
  cbn [mbind option_bind]. change (mjoin (acts :: parts)) with (acts ++ mjoin parts). by rewrite play_app.
Qed.

Lemma life_play_after script : life_play [] ≫= (fun w => life_run w script) = life_play script.
Proof. unfold life_play. by destruct (start _ _ _ _ _ _ _ _ _ _) as [[k|e] d]. Qed.

Lemma life_toured :
  (life_tour (life_play []) life_script).1 =
    [Some ("w", 4, ["d/routing-run-000000000001-000000000001-38f9fa073d0bc3d4.puffin"; "d/routing-w-000000000002-delta.puffin"], 5%nat);
     Some ("w", 5, ["d/routing-w-000000000003-L1.puffin"], 8%nat);
     Some ("w", 5, ["d/routing-w-000000000003-L1.puffin"; "d/routing-w-000000000004-delta.puffin"], 10%nat);
     Some ("w", 5, ["d/routing-w-000000000004-base.puffin"], 13%nat);
     Some ("w", 5, ["d/routing-w-000000000004-base.puffin"], 3%nat);
     Some ("v", 5, ["d/routing-run-000000000001-000000000004-bf1fbc82a0eebd18.puffin"], 3%nat)] ∧
  ∃ w, life_play (mjoin life_script) = Some w ∧ probe_freeb demo_path life_args (cv_store (dk_view (fl_disk (w_flusher w)))) = true.
Proof.
  assert (let t := life_tour (life_play []) life_script in
    (t.1, from_option (fun w => probe_freeb demo_path life_args (cv_store (dk_view (fl_disk (w_flusher w))))) false t.2) =
    ([Some ("w", 4, ["d/routing-run-000000000001-000000000001-38f9fa073d0bc3d4.puffin"; "d/routing-w-000000000002-delta.puffin"], 5%nat);
      Some ("w", 5, ["d/routing-w-000000000003-L1.puffin"], 8%nat);
      Some ("w", 5, ["d/routing-w-000000000003-L1.puffin"; "d/routing-w-000000000004-delta.puffin"], 10%nat);
      Some ("w", 5, ["d/routing-w-000000000004-base.puffin"], 13%nat);
      Some ("w", 5, ["d/routing-w-000000000004-base.puffin"], 3%nat);
      Some ("v", 5, ["d/routing-run-000000000001-000000000004-bf1fbc82a0eebd18.puffin"], 3%nat)], true)) as Ht by (by vm_compute).
  cbv zeta in Ht. apply pair_equal_spec in Ht as [H1 H2]. split; [exact H1|]. rewrite life_tour_plays in H2.
  rewrite life_play_after in H2. clear H1. destruct (life_play (mjoin life_script)) as [w|]; [by exists w|done].
Qed.

