(* ===== verification/Lease.v ===== *)
(** Leader election: [src/ha/mod.rs] and [src/ha/kube_lease.rs].

    A candidate reads the lease, decides, and writes it back under the version it read.
    The read and the write are separate requests, so candidates interleave between them;
    the API server is the step relation [server_step], which is what the Kubernetes API
    documents of [create] and [replace]: a create of an existing object and a replace
    that carries another [resourceVersion] than the stored one are refused with 409.
    Times are in microseconds. *)

From S2P Require Import Prelude.

(** ** Electors *)

(** [LeaderElector]. *)
Class LeaderElector (E : Type) := is_leader : E → bool.

(** [StaticElector] and [LeaderFlag]. *)
Record StaticElector := mkStatic { static_answer : bool }.
#[export] Instance static_elector : LeaderElector StaticElector := static_answer.

Record LeaderFlag := mkFlag { flag_value : bool }.
#[export] Instance flag_elector : LeaderElector LeaderFlag := flag_value.

Definition flag_set (_ : LeaderFlag) (leader : bool) : LeaderFlag := mkFlag leader.

(** ** The decision of a candidate *)

Record LeaseSpec := mkSpec {
  holder_identity : option string;
  acquire_time : option Z;
  renew_time : option Z;
  lease_duration_seconds : option Z;
  lease_transitions : option Z;
}.

(** [KubeLeaseConfig], less the names of the namespace and the lease. *)
Record KubeLeaseConfig := mkLeaseConfig { identity : string; lease_duration_secs : N }.

(** A stored lease: its specification, and the version that guards writes to it. *)
Record Lease := mkLease { lease_spec : option LeaseSpec; resource_version : N }.

(** [as i32], and [i32] addition as it wraps. *)
Definition i32_wrap (z : Z) : Z := ((z + 2 ^ 31) `mod` 2 ^ 32 - 2 ^ 31)%Z.

(** [Timestamp::as_second]. *)
Definition as_second (t : Z) : Z := (t ÷ 1000000)%Z.

Definition spec_default : LeaseSpec := mkSpec None None None None None.

Inductive decision :=
| Lose
| Create (spec : LeaseSpec)
| Replace (version : N) (spec : LeaseSpec).

#[export] Instance LeaseSpec_eq_dec : EqDecision LeaseSpec.
Proof. solve_decision. Defined.

#[export] Instance decision_eq_dec : EqDecision decision.
Proof. solve_decision. Defined.

Section candidate.
Context (cfg : KubeLeaseConfig).

Definition duration_secs : Z := i32_wrap (Z.of_N (lease_duration_secs cfg)).

(** Whether a specification has run out at [clock]. *)
Definition expired (spec : LeaseSpec) (clock : Z) : bool :=
  match renew_time spec, lease_duration_seconds spec with
  | Some renew, Some dur => (dur <? as_second clock - as_second renew)%Z
  | _, _ => true
  end.

Definition ours (spec : LeaseSpec) : bool := String.eqb (default "" (holder_identity spec)) (identity cfg).

(** [try_acquire] up to its write: [now] is read before the lease, [clock] after. *)
Definition decide_lease (now clock : Z) (got : option Lease) : decision :=
  match got with
  | None => Create (mkSpec (Some (identity cfg)) (Some now) (Some now) (Some duration_secs) (Some 0%Z))
  | Some lease =>
      let spec := default spec_default (lease_spec lease) in
      if negb (ours spec) && negb (expired spec clock) then Lose else
      let transitions := i32_wrap (default 0%Z (lease_transitions spec) + if ours spec then 0 else 1) in
      Replace (resource_version lease)
        (mkSpec (Some (identity cfg)) (if ours spec then acquire_time spec else Some now) (Some now) (Some duration_secs)
           (Some transitions))
  end.
End candidate.

(** What a write is answered: done, 409, or an error. *)
Inductive answer := Done | Refused | Failed.

(** [try_acquire]'s result; on an error the loop takes [false]. *)
Definition acquired (a : answer) : bool := match a with Done => true | _ => false end.

(** ** Candidates at work *)

(** The lease of the server, if any, and the last version it gave out. *)
Record Server := mkServer { sv_lease : option Lease; sv_version : N }.

(** A candidate is between rounds, or has read the lease and decided. *)
Inductive phase := Waiting | Reading (now : Z) | Writing (d : decision).

(** [w_won] is what the candidate wrote when it last won, for as long as its flag is up. *)
Record Worker := mkWorker { w_cfg : KubeLeaseConfig; w_phase : phase; w_flag : LeaderFlag; w_won : option LeaseSpec }.

Definition set_phase (p : phase) (w : Worker) : Worker := mkWorker (w_cfg w) p (w_flag w) (w_won w).

(** The end of a round: [flag.set(leader)]. *)
Definition end_round (won : option LeaseSpec) (w : Worker) : Worker :=
  mkWorker (w_cfg w) Waiting (flag_set (w_flag w) (bool_decide (is_Some won))) won.

(** What the API documents of a write. A write that fails may have taken effect. *)
Definition written_lease (s : Server) (spec : LeaseSpec) : Server :=
  let v := sv_version s + 1 in mkServer (Some (mkLease (Some spec) v)) v.

Inductive server_step : Server → decision → answer → Server → Prop :=
| create_done s spec : sv_lease s = None → server_step s (Create spec) Done (written_lease s spec)
| create_refused s spec l : sv_lease s = Some l → server_step s (Create spec) Refused s
| replace_done s spec l : sv_lease s = Some l →
    server_step s (Replace (resource_version l) spec) Done (written_lease s spec)
| replace_stale s spec v : (∀ l, sv_lease s = Some l → resource_version l ≠ v) →
    server_step s (Replace v spec) Refused s
| write_lost s d : server_step s d Failed s
| write_unanswered s d s' : server_step s d Done s' → server_step s d Failed s'.

Record Election := mkElection { el_server : Server; el_clock : Z; el_workers : gmap nat Worker }.

Definition set_worker (i : nat) (w : Worker) (e : Election) : Election :=
  mkElection (el_server e) (el_clock e) (<[i := w]> (el_workers e)).

(** The specification a decision writes. *)
Definition decided (d : decision) : option LeaseSpec :=
  match d with Lose => None | Create spec | Replace _ spec => Some spec end.

(** One step of the election loop of some candidate, or of the clock. *)
Inductive election_step : Election → Election → Prop :=
| time_passes e t : (el_clock e <= t)%Z →
    election_step e (mkElection (el_server e) t (el_workers e))
| round_starts e i w : el_workers e !! i = Some w → w_phase w = Waiting →
    election_step e (set_worker i (set_phase (Reading (el_clock e)) w) e)
| lease_read e i w now : el_workers e !! i = Some w → w_phase w = Reading now →
    election_step e (set_worker i
      (set_phase (Writing (decide_lease (w_cfg w) now (el_clock e) (sv_lease (el_server e)))) w) e)
| read_failed e i w now : el_workers e !! i = Some w → w_phase w = Reading now →
    election_step e (set_worker i (end_round None w) e)
| round_lost e i w : el_workers e !! i = Some w → w_phase w = Writing Lose →
    election_step e (set_worker i (end_round None w) e)
| lease_written e i w d a s' : el_workers e !! i = Some w → w_phase w = Writing d → d ≠ Lose →
    server_step (el_server e) d a s' →
    election_step e (set_worker i (end_round (if acquired a then decided d else None) w)
      (mkElection s' (el_clock e) (el_workers e))).

(** Candidates that have not started, on whatever lease there is. *)
Record fresh_election (e : Election) : Prop := {
  fe_idle i w : el_workers e !! i = Some w → w_phase w = Waiting ∧ w_flag w = mkFlag false ∧ w_won w = None;
  fe_distinct i j v w : el_workers e !! i = Some v → el_workers e !! j = Some w →
    identity (w_cfg v) = identity (w_cfg w) → i = j;
  fe_version l : sv_lease (el_server e) = Some l → resource_version l <= sv_version (el_server e);
}.

(** ** Expiry *)

Lemma as_second_mono a b : (a <= b → as_second a <= as_second b)%Z.
Proof. intros H. unfold as_second. apply Z.quot_le_mono; lia. Qed.

(** The holder, when it last renewed, and for how long. *)
Definition held_by (name : string) (renew dur : Z) (spec : LeaseSpec) : Prop :=
  default "" (holder_identity spec) = name ∧ renew_time spec = Some renew ∧ lease_duration_seconds spec = Some dur.

Lemma expired_mono spec c c' : (c <= c')%Z → expired spec c = true → expired spec c' = true.
Proof.
  intros Hc. unfold expired. destruct (renew_time spec); [|done]. destruct (lease_duration_seconds spec); [|done].
  pose proof (as_second_mono c c' Hc). lia.
Qed.

(** A lease renewed later and for as long expires no sooner. *)
Lemma expired_later name name' r r' dur spec spec' c :
  held_by name r dur spec → held_by name' r' dur spec' → (r <= r')%Z → expired spec' c = true → expired spec c = true.
Proof.
  intros (_ & Hr & Hd) (_ & Hr' & Hd') Hle. unfold expired. rewrite Hr, Hd, Hr', Hd'.
  pose proof (as_second_mono r r' Hle). lia.
Qed.

(** A lease has lapsed when it does not say how long it lasts, or when more whole seconds
    lie between its last renewal and the clock than it lasts. *)
Definition lapsed (spec : LeaseSpec) (clock : Z) : Prop :=
  ∀ renew dur, renew_time spec = Some renew → lease_duration_seconds spec = Some dur →
    (dur < clock ÷ 1000000 - renew ÷ 1000000)%Z.

Lemma expired_lapsed spec clock : expired spec clock = true ↔ lapsed spec clock.
Proof.
  unfold expired, lapsed, as_second. destruct (renew_time spec) as [r|]; [|by split]. destruct (lease_duration_seconds spec) as [d|]; [|by split].
  rewrite Z.ltb_lt. split; [by intros Hd renew dur [= <-] [= <-]|intros Hd; by apply Hd].
Qed.

(** More microseconds than the lease lasts have passed since. *)
Lemma expired_elapsed name r dur spec clock :
  held_by name r dur spec → (r <= clock)%Z → expired spec clock = true → (dur * 1000000 < clock - r)%Z.
Proof.
  intros (_ & Hr & Hd) Hle Hx. apply expired_lapsed in Hx. specialize (Hx r dur Hr Hd).
  pose proof (Z.quot_rem clock 1000000 ltac:(lia)). pose proof (Z.quot_rem r 1000000 ltac:(lia)).
  destruct (decide (0 <= clock)%Z), (decide (0 <= r)%Z); [| |lia|].
  - pose proof (Z.rem_bound_pos clock 1000000). pose proof (Z.rem_bound_pos r 1000000). lia.
  - pose proof (Z.rem_bound_pos clock 1000000). pose proof (Z.rem_bound_neg_pos r 1000000). lia.
  - pose proof (Z.rem_bound_neg_pos clock 1000000). pose proof (Z.rem_bound_neg_pos r 1000000). lia.
Qed.

(** What a decision writes: the candidate as holder, stamped with the time the round
    began. *)
Lemma decide_lease_writes cfg now clock got spec :
  decided (decide_lease cfg now clock got) = Some spec → held_by (identity cfg) now (duration_secs cfg) spec.
Proof.
  unfold decide_lease. destruct got as [l|]; [|by intros [= <-]].
  destruct (negb _ && negb _); [done|]. by intros [= <-].
Qed.

(** It displaces another holder only when that one's lease has run out. *)
Lemma decide_lease_replaces cfg now clock l v spec :
  decide_lease cfg now clock (Some l) = Replace v spec →
  v = resource_version l ∧
  (default "" (holder_identity (default spec_default (lease_spec l))) = identity cfg ∨
   expired (default spec_default (lease_spec l)) clock = true).
Proof.
  unfold decide_lease. destruct (ours cfg _) eqn:Ho; cbn [negb andb].
  - intros [= <- _]. split; [done|left]. by apply String.eqb_eq.
  - destruct (expired _ _); [|done]. cbn. intros [= <- _]. split; [done|by right].
Qed.

(** ** The invariant *)

(** A candidate with its flag up is still the holder, or its lease has run out. *)
Definition leads (e : Election) (w : Worker) (spec : LeaseSpec) : Prop :=
  expired spec (el_clock e) = true ∨
  ∃ l spec' r r', sv_lease (el_server e) = Some l ∧ lease_spec l = Some spec' ∧
    held_by (identity (w_cfg w)) r (duration_secs (w_cfg w)) spec ∧
    held_by (identity (w_cfg w)) r' (duration_secs (w_cfg w)) spec' ∧ (r <= r')%Z.

(** Times a candidate has read are past, and no earlier than its last win. *)
Definition stamp_ok (e : Election) (w : Worker) (now : Z) : Prop :=
  (now <= el_clock e)%Z ∧ ∀ spec r, w_won w = Some spec → renew_time spec = Some r → (r <= now)%Z.

Record worker_inv (e : Election) (w : Worker) : Prop := {
  wi_flag : flag_value (w_flag w) = bool_decide (is_Some (w_won w));
  wi_leads spec : w_won w = Some spec → leads e w spec ∧
    ∃ r, held_by (identity (w_cfg w)) r (duration_secs (w_cfg w)) spec ∧ (r <= el_clock e)%Z;
  wi_reading now : w_phase w = Reading now → stamp_ok e w now;
  wi_writing d spec : w_phase w = Writing d → decided d = Some spec →
    ∃ now, held_by (identity (w_cfg w)) now (duration_secs (w_cfg w)) spec ∧ stamp_ok e w now;
  wi_replace v spec l : w_phase w = Writing (Replace v spec) → v <= sv_version (el_server e) ∧
    (sv_lease (el_server e) = Some l → resource_version l = v →
      default "" (holder_identity (default spec_default (lease_spec l))) = identity (w_cfg w) ∨
      expired (default spec_default (lease_spec l)) (el_clock e) = true);
}.

Record election_inv (e : Election) : Prop := {
  ei_distinct i j v w : el_workers e !! i = Some v → el_workers e !! j = Some w →
    identity (w_cfg v) = identity (w_cfg w) → i = j;
  ei_version l : sv_lease (el_server e) = Some l → resource_version l <= sv_version (el_server e);
  ei_workers i w : el_workers e !! i = Some w → worker_inv e w;
}.

Lemma worker_inv_env e e' w :
  worker_inv e w → el_server e' = el_server e → (el_clock e <= el_clock e')%Z → worker_inv e' w.
Proof.
  intros [H1 H2 H3 H4 H5] Hs Hc.
  assert (∀ now, stamp_ok e w now → stamp_ok e' w now) as Hst by (intros now [? ?]; split; [lia|done]).
  split; [done| |eauto|naive_solver|].
  - intros spec Hw. destruct (H2 spec Hw) as [Hl (r & Hr & Hrc)]. split; [|exists r; split; [done|lia]].
    destruct Hl as [Hx|Hl]; [left; by eapply expired_mono|right]. by rewrite Hs.
  - intros v spec l Hp. rewrite Hs. destruct (H5 v spec l Hp) as [Hv Hrep]. split; [done|].
    intros Hl Hrv. destruct (Hrep Hl Hrv) as [|Hx]; [by left|right]. by eapply expired_mono.
Qed.

(** Updating one candidate, the server and the clock as they are. *)
Lemma set_worker_inv e i w w' :
  election_inv e → el_workers e !! i = Some w → w_cfg w' = w_cfg w → worker_inv e w' → election_inv (set_worker i w' e).
Proof.
  intros [Hd Hv Hw] Hi Hc Hi'. split; [|done|].
  - intros j k a b Hj Hk E. cbn in Hj, Hk. apply lookup_insert_Some in Hj as [[<- <-]|[_ Hj]], Hk as [[<- <-]|[_ Hk]];
      [done| | |by eapply Hd]; rewrite Hc in E; by eapply Hd.
  - intros j x Hj. cbn in Hj. apply lookup_insert_Some in Hj as [[<- <-]|[_ Hj]].
    + by eapply worker_inv_env.
    + by eapply worker_inv_env; [apply (Hw j)| |].
Qed.

Lemma end_round_none_inv e w : worker_inv e w → worker_inv e (end_round None w).
Proof. intros H. split; cbn; [done|done|done|done|done]. Qed.

(** A write that takes effect puts the candidate's own specification in place, and what it
    replaces was its own, or had run out, or was nothing. *)
Lemma server_step_writes s d a s' :
  server_step s d a s' →
  s' = s ∨ ∃ spec, decided d = Some spec ∧ s' = written_lease s spec ∧
    (sv_lease s = None ∨ ∃ l, sv_lease s = Some l ∧ d = Replace (resource_version l) spec).
Proof.
  induction 1; [right; eauto 6|by left|right; eauto 8|by left|by left|done].
Qed.

Lemma server_step_done s d s' :
  server_step s d Done s' → ∃ spec, decided d = Some spec ∧ s' = written_lease s spec.
Proof. intros H. inversion H; subst; eauto. Qed.

(** A write leaves the other candidates where they can be. *)
Lemma written_other e i j w x d spec :
  election_inv e → el_workers e !! i = Some w → el_workers e !! j = Some x → i ≠ j →
  w_phase w = Writing d → decided d = Some spec →
  (sv_lease (el_server e) = None ∨ ∃ l, sv_lease (el_server e) = Some l ∧ d = Replace (resource_version l) spec) →
  worker_inv (mkElection (written_lease (el_server e) spec) (el_clock e) (el_workers e)) x.
Proof.
  intros [Hd Hv Hw] Hi Hj Hij Hp Hdec Hcase. pose proof (Hw j x Hj) as [H1 H2 H3 H4 H5]. pose proof (Hw i w Hi) as Iw.
  split; [done| |done|done|].
  - intros sp Hsp. destruct (H2 sp Hsp) as [Hl Hr]. split; [|done]. destruct Hl as [Hx|Hl]; [by left|].
    destruct Hl as (l & sp' & r & r' & Hsl & Hls & Hh & Hh' & Hle). left. cbn.
    destruct Hcase as [Hn|(l' & Hl' & ->)]; [by rewrite Hn in Hsl|]. rewrite Hsl in Hl'. injection Hl' as <-.
    destruct (wi_replace e w Iw _ _ l Hp) as [_ Hrep]. destruct (Hrep Hsl eq_refl) as [Ho|Hx]; rewrite Hls in *; cbn in *.
    + exfalso. apply Hij. destruct Hh' as (Hname & _). rewrite Hname in Ho. symmetry. by eapply Hd.
    + by eapply expired_later.
  - intros v sp l Hph. destruct (H5 v sp l Hph) as [Hle _]. cbn. split; [lia|]. intros [= <-] Hrv. cbn in Hrv. lia.
Qed.

Lemma election_step_inv e e' : election_step e e' → election_inv e → election_inv e'.
Proof.
  intros St I. pose proof I as [Hd Hv Hw]. destruct St as [e t Ht|e i w Hi Hp|e i w now Hi Hp|e i w now Hi Hp|e i w Hi Hp|e i w d a s' Hi Hp Hnl Hss].
  - split; [done|done|]. intros i w Hi. by eapply worker_inv_env; [apply (Hw i)| |].
  - apply (set_worker_inv e i w); [done|done|done|]. destruct (Hw i w Hi) as [H1 H2 H3 H4 H5].
    split; cbn; [done|done| |done|done]. intros now [= <-]. split; [lia|]. intros spec r Hs Hr.
    destruct (H2 spec Hs) as [_ (r' & (_ & Hr' & _) & Hle)]. rewrite Hr in Hr'. injection Hr' as ->. exact Hle.
  - apply (set_worker_inv e i w); [done|done|done|]. destruct (Hw i w Hi) as [H1 H2 H3 H4 H5].
    split; cbn; [done|done|done| |].
    + intros d spec [= <-] Hdec. exists now. split; [by eapply decide_lease_writes|]. by apply H3.
    + intros v spec l [= Hdec]. destruct (sv_lease (el_server e)) as [l'|] eqn:El; [|done].
      apply decide_lease_replaces in Hdec as [-> Hrep]. split; [by apply Hv|]. by intros [= <-] _.
  - apply (set_worker_inv e i w); [done|done|done|]. by apply end_round_none_inv, (Hw i).
  - apply (set_worker_inv e i w); [done|done|done|]. by apply end_round_none_inv, (Hw i).
  - pose proof (Hw i w Hi) as Iw. set (e1 := mkElection s' (el_clock e) (el_workers e)).
    assert (∀ l, sv_lease s' = Some l → resource_version l <= sv_version s') as Hv'.
    { destruct (server_step_writes _ _ _ _ Hss) as [->|(spec & _ & -> & _)]; [exact Hv|]. by intros l [= <-]. }
    assert (∀ j x, j ≠ i → el_workers e !! j = Some x → worker_inv e1 x) as Hother.
    { intros j x Hj Hx. destruct (server_step_writes _ _ _ _ Hss) as [->|(spec & Hdec & -> & Hcase)].
      - by eapply worker_inv_env; [apply (Hw j)| |].
      - by eapply (written_other e i j). }
    assert (worker_inv e1 (end_round (if acquired a then decided d else None) w)) as Hme.
    { destruct (acquired a) eqn:Ha; [|split; cbn; done]. destruct a; try done.
      destruct (server_step_done _ _ _ Hss) as (spec & Hdec & Hs').
      destruct (wi_writing e w Iw d spec Hp Hdec) as (now & Hh & [Hnow _]). rewrite Hdec.
      split; cbn; [done| |done|done|done]. intros sp [= <-]. split; [|by exists now].
      right. unfold e1. rewrite Hs'. cbn. by do 4 eexists. }
    split.
    + intros j k x y Hj Hk E. cbn in Hj, Hk. apply lookup_insert_Some in Hj as [[<- <-]|[_ Hj]], Hk as [[<- <-]|[_ Hk]];
        [done| | |by eapply Hd]; by eapply Hd.
    + exact Hv'.
    + intros j x Hj. cbn in Hj. apply lookup_insert_Some in Hj as [[<- <-]|[Hne Hj]].
      * by eapply worker_inv_env.
      * by eapply worker_inv_env; [apply (Hother j)| |].
Qed.

Lemma fresh_inv e : fresh_election e → election_inv e.
Proof.
  intros [Hi Hd Hv]. split; [done|done|]. intros i w Hw. destruct (Hi i w Hw) as (Hp & Hf & Hn).
  split; rewrite ?Hp, ?Hf, ?Hn; done.
Qed.

Lemma election_reachable e e' : rtc election_step e e' → fresh_election e → election_inv e'.
Proof.
  intros R F. apply fresh_inv in F. induction R as [|e e1 e2 St _ IH]; [done|]. apply IH. by eapply election_step_inv.
Qed.

(** ** Rounds without interference *)

(** What an answering API does with a decision. *)
Definition perform (s : Server) (d : decision) : answer * Server :=
  match d, sv_lease s with
  | Create spec, None => (Done, written_lease s spec)
  | Replace v spec, Some l => if resource_version l =? v then (Done, written_lease s spec) else (Refused, s)
  | _, _ => (Refused, s)
  end.

(** A whole round of candidate [i], with nobody in between. *)
Definition solo_round (i : nat) (w : Worker) (e : Election) : Election :=
  let d := decide_lease (w_cfg w) (el_clock e) (el_clock e) (sv_lease (el_server e)) in
  match d with
  | Lose => set_worker i (end_round None w) e
  | _ =>
      let '(a, s') := perform (el_server e) d in
      set_worker i (end_round (if acquired a then decided d else None) w) (mkElection s' (el_clock e) (el_workers e))
  end.

Lemma set_worker_twice i w w' e : set_worker i w' (set_worker i w e) = set_worker i w' e.
Proof. unfold set_worker. cbn. by rewrite insert_insert_eq. Qed.

Lemma set_worker_election i w w' s c ws :
  set_worker i w' (mkElection s c (<[i := w]> ws)) = set_worker i w' (mkElection s c ws).
Proof. unfold set_worker. cbn. by rewrite insert_insert_eq. Qed.

Lemma perform_step s d a s' : perform s d = (a, s') → d ≠ Lose → server_step s d a s'.
Proof.
  unfold perform. destruct d as [|spec|v spec]; [done| |]; intros Hp _; destruct (sv_lease s) as [l|] eqn:El.
  - injection Hp as <- <-. by econstructor.
  - injection Hp as <- <-. by constructor.
  - destruct (N.eqb_spec (resource_version l) v) as [<-|Hne]; injection Hp as <- <-; [by apply replace_done|].
    apply replace_stale. rewrite El. by intros ? [= <-].
  - injection Hp as <- <-. apply replace_stale. by rewrite El.
Qed.

Lemma solo_round_steps i w e :
  el_workers e !! i = Some w → w_phase w = Waiting → rtc election_step e (solo_round i w e).
Proof.
  intros Hi Hp. set (d := decide_lease (w_cfg w) (el_clock e) (el_clock e) (sv_lease (el_server e))).
  set (w1 := set_phase (Reading (el_clock e)) w). set (w2 := set_phase (Writing d) w1).
  assert (el_workers (set_worker i w1 e) !! i = Some w1) as H1 by (cbn; apply lookup_insert_eq).
  assert (el_workers (set_worker i w2 e) !! i = Some w2) as H2 by (cbn; apply lookup_insert_eq).
  eapply rtc_l; [by apply (round_starts e i w)|].
  eapply rtc_l; [by apply (lease_read _ i w1 (el_clock e))|]. rewrite set_worker_twice. fold d w1 w2.
  change (decide_lease _ _ _ _) with d. fold w2.
  destruct (decide (d = Lose)) as [Hd|Hd].
  - assert (w_phase w2 = Writing Lose) as Hw2 by (cbn; by rewrite Hd).
    unfold solo_round. fold d. rewrite Hd. apply rtc_once. rewrite <- (set_worker_twice i w2 (end_round None w) e).
    by apply (round_lost _ i w2 H2).
  - destruct (perform (el_server e) d) as [a s'] eqn:Hperf.
    assert (solo_round i w e = set_worker i (end_round (if acquired a then decided d else None) w)
      (mkElection s' (el_clock e) (el_workers e))) as ->.
    { unfold solo_round. fold d. rewrite Hperf. by destruct d. }
    rewrite <- (set_worker_election i w2). apply rtc_once.
    by apply (lease_written (set_worker i w2 e) i w2 d a s' H2 eq_refl Hd), perform_step.
Qed.

(** When a candidate may take the lease. *)
Definition available (w : Worker) (e : Election) : Prop :=
  match sv_lease (el_server e) with
  | None => True
  | Some l =>
      let spec := default spec_default (lease_spec l) in
      default "" (holder_identity spec) = identity (w_cfg w) ∨ lapsed spec (el_clock e)
  end.

Lemma solo_round_flag i w e :
  ∃ w', el_workers (solo_round i w e) !! i = Some w' ∧ w_cfg w' = w_cfg w ∧ w_phase w' = Waiting ∧
    (is_leader (w_flag w') = true ↔ available w e) ∧
    (available w e → ∃ l spec, sv_lease (el_server (solo_round i w e)) = Some l ∧ lease_spec l = Some spec ∧
      held_by (identity (w_cfg w)) (el_clock e) (duration_secs (w_cfg w)) spec).
Proof.
  unfold solo_round, available, decide_lease, perform. destruct (sv_lease (el_server e)) as [l|] eqn:El.
  - set (spec := default spec_default (lease_spec l)). unfold ours. fold spec.
    destruct (String.eqb_spec (default "" (holder_identity spec)) (identity (w_cfg w))) as [Ho|Ho]; cbn [negb andb].
    2: destruct (expired spec (el_clock e)) eqn:Hx; cbn [negb andb].
    all: rewrite ?N.eqb_refl; eexists; (split; [cbn; apply lookup_insert_eq|]); (split; [done|]); (split; [done|]); cbn.
    + split; [by split; [left|]|]. intros _. by do 2 eexists.
    + apply expired_lapsed in Hx. split; [by split; [right|]|]. intros _. by do 2 eexists.
    + assert (¬ lapsed spec (el_clock e)) as Hn by (rewrite <- expired_lapsed; congruence).
      split; [split; [done|intros [?|?]; done]|]. intros [?|?]; done.
  - eexists. split; [cbn; apply lookup_insert_eq|]. split; [done|]. split; [done|]. split; [done|].
    intros _. by do 2 eexists.
Qed.

(** C16. At most one leader is within its lease. However candidates with names of their own
    interleave their reads and writes, whichever requests fail and whether or not a failed
    write took effect, whenever two of them have their flags up the lease at least one of
    them won has run out: on the clock they share, which never goes back, more time than
    the lease lasts has passed since that one stamped it. *)
Theorem one_leader_in_term (e e' : Election) (i j : nat) (v w : Worker) :
  fresh_election e → rtc election_step e e' → i ≠ j →
  el_workers e' !! i = Some v → el_workers e' !! j = Some w →
  is_leader (w_flag v) = true → is_leader (w_flag w) = true →
  ∃ sv sw rv rw, w_won v = Some sv ∧ w_won w = Some sw ∧
    held_by (identity (w_cfg v)) rv (duration_secs (w_cfg v)) sv ∧ held_by (identity (w_cfg w)) rw (duration_secs (w_cfg w)) sw ∧
    ((duration_secs (w_cfg v) * 1000000 < el_clock e' - rv)%Z ∨ (duration_secs (w_cfg w) * 1000000 < el_clock e' - rw)%Z).
Proof.
  intros F R Hij Hi Hj Fv Fw. pose proof (election_reachable e e' R F) as [Hd _ Hw].
  pose proof (Hw i v Hi) as [Fi Li _ _ _]. pose proof (Hw j w Hj) as [Fj Lj _ _ _].
  change (flag_value (w_flag v) = true) in Fv. change (flag_value (w_flag w) = true) in Fw.
  rewrite Fi in Fv. rewrite Fj in Fw. apply bool_decide_eq_true in Fv as [sv Hsv], Fw as [sw Hsw].
  destruct (Li sv Hsv) as [Lv (rv & Hv & Ev)], (Lj sw Hsw) as [Lw (rw & Hv' & Ew)].
  exists sv, sw, rv, rw. do 4 (split; [done|]). destruct Lv as [Hx|Hl]; [left; by eapply expired_elapsed|].
  destruct Lw as [Hx|Hl']; [right; by eapply expired_elapsed|]. exfalso. apply Hij.
  destruct Hl as (l & sp & r & r' & E1 & E2 & _ & (N1 & _) & _), Hl' as (l' & sp' & q & q' & E1' & E2' & _ & (N2 & _) & _).
  rewrite E1 in E1'. injection E1' as <-. rewrite E2 in E2'. injection E2' as <-. eapply Hd; [done|done|congruence].
Qed.

(** C30. A lease nobody renews is taken over. A candidate whose round nobody interrupts and
    whose requests are answered ends it with its flag up exactly when there was no lease,
    the lease was its own, or it had lapsed: it says no renewal or no duration, or more
    whole seconds than it lasts lie between its renewal and now; it then holds the lease
    from that moment. *)
Theorem lease_takeover (e : Election) (i : nat) (w : Worker) :
  el_workers e !! i = Some w → w_phase w = Waiting →
  rtc election_step e (solo_round i w e) ∧
  ∃ w', el_workers (solo_round i w e) !! i = Some w' ∧ w_cfg w' = w_cfg w ∧ w_phase w' = Waiting ∧
    (is_leader (w_flag w') = true ↔ available w e) ∧
    (available w e → ∃ l spec, sv_lease (el_server (solo_round i w e)) = Some l ∧ lease_spec l = Some spec ∧
      held_by (identity (w_cfg w)) (el_clock e) (duration_secs (w_cfg w)) spec).
Proof. intros Hi Hp. split; [by apply solo_round_steps|apply solo_round_flag]. Qed.

(** Two candidates, a lease of fifteen seconds. *)
Definition demo_candidate (name : string) : Worker :=
  mkWorker (mkLeaseConfig name 15) Waiting (mkFlag false) None.

Definition demo_election : Election :=
  mkElection (mkServer None 0) 5000000 (<[0%nat := demo_candidate "a"]> (<[1%nat := demo_candidate "b"]> ∅)).

Lemma demo_election_fresh : fresh_election demo_election.
Proof.
  assert (∀ k x, el_workers demo_election !! k = Some x → (k = 0%nat ∧ x = demo_candidate "a") ∨ (k = 1%nat ∧ x = demo_candidate "b")) as Hk.
  { intros k x Hx. cbn in Hx. apply lookup_insert_Some in Hx as [[<- <-]|[_ Hx]]; [by left|].
    apply lookup_insert_Some in Hx as [[<- <-]|[_ Hx]]; [by right|]. by rewrite lookup_empty in Hx. }
  split; [|intros i j v w Hi Hj|done].
  - intros i w [[-> ->]|[-> ->]]%Hk; done.
  - apply Hk in Hi as [[-> ->]|[-> ->]], Hj as [[-> ->]|[-> ->]]; done.
Qed.

(** [a] takes the lease; twenty seconds later [b] does, and [a] has not noticed yet. *)
Definition demo_later : Election :=
  let e1 := solo_round 0 (demo_candidate "a") demo_election in
  mkElection (el_server e1) 25000000 (el_workers e1).

Definition demo_taken : Election := solo_round 1 (demo_candidate "b") demo_later.

Lemma one_leader_in_term_witness :
  ∃ v w sv sw rv rw, el_workers demo_taken !! 0%nat = Some v ∧ el_workers demo_taken !! 1%nat = Some w ∧
    is_leader (w_flag v) = true ∧ is_leader (w_flag w) = true ∧ w_won v = Some sv ∧ w_won w = Some sw ∧
    held_by "a" rv 15 sv ∧ held_by "b" rw 15 sw ∧
    ((15 * 1000000 < el_clock demo_taken - rv)%Z ∨ (15 * 1000000 < el_clock demo_taken - rw)%Z).
Proof.
  assert (rtc election_step demo_election demo_taken) as R.
  { etrans; [apply (solo_round_steps 0 (demo_candidate "a")); [by vm_compute|done]|].
    eapply rtc_l; [apply (time_passes _ 25000000); by vm_compute|].
    apply (solo_round_steps 1 (demo_candidate "b") demo_later); [by vm_compute|done]. }
  assert (∃ v, el_workers demo_taken !! 0%nat = Some v ∧ is_leader (w_flag v) = true ∧ w_cfg v = mkLeaseConfig "a" 15) as (v & Hv & Fv & Cv)
    by (eexists; split; [by vm_compute|done]).
  assert (∃ w, el_workers demo_taken !! 1%nat = Some w ∧ is_leader (w_flag w) = true ∧ w_cfg w = mkLeaseConfig "b" 15) as (w & Hw & Fw & Cw)
    by (eexists; split; [by vm_compute|done]).
  destruct (one_leader_in_term demo_election demo_taken 0 1 v w demo_election_fresh R ltac:(done) Hv Hw Fv Fw)
    as (sv & sw & rv & rw & H1 & H2 & H3 & H4 & H5).
  rewrite Cv in H3, H5. rewrite Cw in H4, H5. exists v, w, sv, sw, rv, rw. by split_and!.
Defined.

Lemma lease_takeover_witness :
  available (demo_candidate "b") demo_later ∧
  ∃ w', el_workers demo_taken !! 1%nat = Some w' ∧ is_leader (w_flag w') = true.
Proof.
  assert (available (demo_candidate "b") demo_later) as Ha by (right; apply expired_lapsed; by vm_compute). split; [exact Ha|].
  destruct (lease_takeover demo_later 1 (demo_candidate "b") ltac:(by vm_compute) eq_refl) as [_ (w' & Hw & _ & _ & Hf & _)].
  exists w'. split; [exact Hw|]. by apply Hf.
Defined.
